(* ===== verification/_CoqProject ===== *)
-Q . S2P
Prelude.v
Text.v
Encoding.v
Timestamp.v
F64.v
JsonValue.v
JsonParser.v
World.v
Logging.v
Gf256.v
Interpolation.v
Token.v
Shamir.v
Aead.v
Event.v
State.v
Log.v
LogSpec.v
Barrier.v
Validate.v
RateLimit.v
Password.v
Vault.v
VaultSpec.v
VaultSecrets.v
VaultAccess.v
VaultKeys.v
VaultServer.v
VaultCustody.v
VaultClaims.v
Http.v
HttpRequest.v
HttpFraming.v
HttpAccept.v
HttpClient.v
HttpExchange.v
HttpClaims.v
Errors.v
Api.v
ApiSpec.v
ApiClaims.v
Dotenv.v
Redacted.v
CliHost.v
Cli.v
Commands.v
CliClaims.v
Sections.v
Reasons.v
Discretion.v
CliSession.v
Pool.v
PoolClaims.v
Startup.v
