(* ===== verification/Prelude.v ===== *)
(** * Verification of localsecrets

    localsecrets is a small secrets manager: a server, [localsecretsd], that keeps secrets
    encrypted in one append-only file, and a command line client, [lsec]. This library is a
    shallow embedding of both, crate by crate, with the theorems that make them correct.

    ** How the program is put together, and where each part is modelled

    - [crates/ls-core], the tools: text ([Text], for the standard library's [str]),
      [encoding.rs] ([Encoding]), [time.rs] ([Timestamp]), [random.rs] ([World]),
      [crypto/shamir.rs] ([Gf256], [Interpolation], [Shamir]), [crypto/token.rs] ([Token]),
      [crypto/aead.rs] ([Aead]), [crypto/password.rs] ([Password]).
    - [crates/ls-json], documents: [value.rs] and [lib.rs] ([JsonValue], with [F64] for its
      floating-point numbers) and [parser.rs] ([JsonParser]).
    - [crates/ls-store], the file: [event.rs] ([Event]), [state.rs] ([State]), [log.rs]
      ([Log], with its specification in [LogSpec]).
    - [crates/ls-server], the vault and its HTTP interface: [barrier.rs] ([Barrier]),
      [validate.rs] ([Validate]), [rate_limit.rs] ([RateLimit]), [vault.rs] ([Vault]),
      [api.rs] ([Api]; its texts in [Errors]), [main.rs] ([Startup]).
    - [crates/ls-http], the wire: [lib.rs] ([Http]), [request.rs] ([HttpRequest]),
      [response.rs], [client.rs] and one connection of [server.rs] ([HttpClient]), the
      threads of [server.rs] ([Pool]).
    - [crates/ls-log], the log lines ([Logging]); what the server writes, [Discretion].
    - [crates/ls-cli], the client: [config.rs] and [input.rs] ([CliHost]), [main.rs] and
      [api.rs] ([Cli], [Commands]), [commands.rs] ([Commands], its dotenv part in [Dotenv]).
    - The printed forms of the types that hold secrets, wherever they are ([Redacted]).

    A request goes down through these layers: [Commands] builds it and [Cli.api.call] sends
    it; [HttpClient.Client.request] writes its bytes; a worker of [Pool] takes the
    connection and [HttpRequest.Request.read] reads it off; [Api.Api.respond] routes it to a
    handler, which takes the lock and calls a method of [Vault]; the method seals values
    with [Aead], encodes an [Event] with the JSON crate, appends it with [Log] and folds it
    into the [State] in memory. The answer goes back the same way. At a restart [Vault.open]
    reads the file again, and the shares of [Shamir] open it.

    ** How it is modelled

    A Rust [Result] is [result], with [let?] for its [?]. A method that changes a value, or
    the world, is a [proc S E A]: from a state to a result and the state that is left, also
    when the result is an error ([let!], [do!]). [wp] and the other judgements on [proc] are
    in this file. A [String] is the string of its UTF-8 bytes; bytes are bytes; machine
    integers are [Z] or [nat] with their bounds, wrap-around and saturation written out
    where the code has them; a [Vec] is a list, also where the code uses it as a map and its
    order or its duplicates count; a [HashMap] is a [gmap].

    What the repository does not contain is a parameter, a type class:
    - [World.Env]: entropy, the clock and the file system's answers, question by question.
      The state that goes with it, [World], has the files, and the level of the log and
      standard error, to which every call of [crates/ls-log] writes ([Logger.emit]).
      Any operation may fail, and a write may stop after any number of bytes. There is no
      law: the theorems hold for every environment.
    - [Aead.Cipher] and [Password.Argon2], the [aes-gcm] and [argon2] crates, with the facts
      that their documentation gives in [CipherLaws] and [Argon2Laws] (sealing succeeds within
      the limit, adds 16 bytes, and opening is its inverse; a hash is text that reads back,
      names its costs and verifies).
      [Token.Sha256] is a function to 32 bytes. Each is instantiated, with its laws, by toy
      functions in the modules that hold the witnesses ([Checksum], [ClearText],
      [Truncation], and the [..Demo] modules), where theorems are run on concrete data.
    - [Http.Stopwatch], [World.OsText], [Errors.DebugText], [CliHost.Machine],
      [CliClaims.Link], [Startup.Daemon]: timing, the texts of the system's errors, the
      client's machine, the network, the listener. They have no laws; theorems that need a
      network that delivers, or that time has not run out, say so.

    A process that dies is a run whose operations fail from some point on, followed by a
    restart on the file as it is; a handler that panics leaves its lock poisoned, and what
    it did to the vault by then is left open to the extent that the lock allows. Threads are
    steps: [Sections] cuts the handlers of [Api] at the points where they release a lock,
    and [Pool.step] interleaves the sections of all workers, the accepting thread, arrivals
    and the shutdown in any order.

    ** What is proved

    - Documents and encodings. Reading is the inverse of writing, on exactly the texts that
      writing produces where the format is canonical: base64, times, JSON, events, log
      lines, dotenv files. The JSON parser ends on every input within its fuel
      ([JsonParser]), and what it accepts is in range.
    - Cryptography around the ciphers. The byte loops of [Gf256] are a field; a quorum of
      shares recovers the secret, fewer are consistent with every secret ([Shamir]);
      password limits ([Password]).
    - The file. [LogSpec] gives the log an abstract state, a list of records, and shows that
      an append adds one, that a crash at any byte leaves a prefix or the whole, and that
      compaction is all or nothing.
    - The vault. [VaultSpec] states the invariant ([live]: the memory is the replay of the
      disk), [VaultSecrets] the abstract map of secrets, [VaultAccess] who may come in,
      [VaultKeys] the hierarchy of keys. [VaultServer] is the life of a server as a step
      relation, and [VaultClaims] has the theorems: the invariant in every reachable state,
      reads and writes as operations on the map with their audit, the confinement of machine
      tokens, restarts and re-splitting (also of a store whose last write failed), the
      effect of sealing, revocation and login. [VaultCustody] follows a vault whose shares
      stay the same through requests, sealing and unsealing, to a restart.
    - The wire. [HttpFraming]: reading a request is a function of its bytes, however they
      arrive; [HttpAccept]: what an accepted request looks like; [HttpExchange]: each end
      reads what the other wrote. [HttpClaims] has the theorems, with every refusal answered.
    - The server. [ApiSpec] shows that each handler keeps the vault's invariant and answers
      with a document; [ApiClaims] puts connections, handlers and restarts together;
      [Sections] and [PoolClaims] do so for interleaved threads, with the bound on guesses,
      the end of a shutdown and the equivalence with serving in turn; [Startup] for the
      process from its command line on. [Reasons] shows that every error a method of the
      vault comes to is made of constants and numbers, and [Discretion] bounds what the
      sections of requests write to the log.
    - The client. [CliClaims]: a value set is the value that is printed, through both ends
      and the network; [CliSession]: a login leaves the client logged in.

    ** Fuel and bounds

    Recursion that is not structural has fuel. It is always enough: [Text] and [Encoding]
    consume at least a byte a turn and get the length ([decode_aux_encode],
    [chunks_aux_fuel]); the JSON parser gets two turns a byte and one more, and
    [Parser.run_good] shows that it never runs out; the loops over the log get one turn more
    than the file has bytes ([holds_fuel]); the loops over a connection get as many as the
    connection has arrivals and bytes left ([Conn.turns], [HttpFraming]), and the draining
    of a refused request one more than it may take bytes ([HttpClaims.drain_loop_bound]);
    the reading of headers as many as are allowed, and one. The threads need none: [weight]
    in [PoolClaims] and [Sections.height] bound the steps that are left. In [F64] the
    estimate of a magnitude is off by less than the turns its correction gets, and a
    binary64 number reads back from 17 significant digits.

    The theorems about files assume that the path of compaction's temporary file differs
    from the path of the store. The server's own path satisfies that
    ([Startup.store_path_apart]).

    ** What is not modelled

    - Socket options and timeouts, as system calls: the time that passes is a [Stopwatch].
    - Two refusals of the system in [server.rs]: a socket that it will not duplicate
      ([try_clone] in [serve_connection], which then closes the connection unread and
      unanswered; like a connection that breaks, it leaves the vault alone), and a thread
      that it will not start ([thread::spawn] panics, and the process ends before it
      answers anything). What is said of a connection is said of one whose socket could be
      duplicated, and of a server whose threads could be started.
    - The terminal's echo as a state: it is turned off and on by [stty], a parameter.
    - The environment and the file descriptors that a command started by [lsec run]
      inherits: the command gets its arguments and the secrets, and the rest is the system's.
    - The instant at which a line of the log is written, among threads: the lines of one
      section are written where the section is, one after the other.
    - What the runtime itself prints about a panic.
    - Zeroing of memory on drop, and timing: values here have neither addresses nor cost.
    - Derived [Debug] forms; the tests of the crates and the scripts around them. *)

From stdpp Require Export prelude strings list gmap.
From Stdlib Require Export ZArith Lia.
From Stdlib Require Import Strings.Byte.


(** ** Fallible code

    A Rust [Result<A, E>] is [result E A]; [let?] is the [?] operator. *)

Inductive result (E A : Type) : Type :=
| Ok (a : A)
| Err (e : E).
Arguments Ok {E A} a.
Arguments Err {E A} e.

Declare Scope rust_scope.
Delimit Scope rust_scope with rust.
Open Scope rust_scope.

Definition res_bind {E A B} (m : result E A) (k : A → result E B) : result E B :=
  match m with Ok a => k a | Err e => Err e end.

Notation "'let?' x ':=' m 'in' k" := (res_bind m (λ x, k))
  (at level 10, x pattern, m at level 100, k at level 200) : rust_scope.

Definition map_err {E F A} (f : E → F) (m : result E A) : result F A :=
  match m with Ok a => Ok a | Err e => Err (f e) end.

Definition map_ok {E A B} (f : A → B) (m : result E A) : result E B :=
  match m with Ok a => Ok (f a) | Err e => Err e end.

Definition ok_or {E A} (o : option A) (e : E) : result E A :=
  match o with Some a => Ok a | None => Err e end.

Definition is_ok {E A} (m : result E A) : bool :=
  match m with Ok _ => true | Err _ => false end.

#[export] Instance result_eq_dec {E A} `{EqDecision E, EqDecision A} : EqDecision (result E A).
Proof. solve_decision. Defined.

Lemma res_bind_ok {E A B} (m : result E A) (k : A → result E B) b :
  res_bind m k = Ok b ↔ ∃ a, m = Ok a ∧ k a = Ok b.
Proof. destruct m; cbn; split; [eauto|by intros (? & [= ->] & ?)|done|by intros (? & ? & ?)]. Qed.

Lemma ok_or_ok {E A} (o : option A) (e : E) a : ok_or o e = Ok a ↔ o = Some a.
Proof. destruct o; cbn; split; congruence. Qed.

Lemma map_err_ok {E F A} (f : E → F) (m : result E A) a : map_err f m = Ok a ↔ m = Ok a.
Proof. destruct m; cbn; split; congruence. Qed.

(** ** Stateful fallible code

    A method taking [&mut self] and returning [Result<A, E>] is a [proc S E A]:
    the state it leaves behind is there whether it succeeded or not. *)

Definition proc (S E A : Type) : Type := S → result E A * S.

Definition ret {S E A} (a : A) : proc S E A := λ s, (Ok a, s).
Definition fail {S E A} (e : E) : proc S E A := λ s, (Err e, s).
Definition bind {S E A B} (m : proc S E A) (k : A → proc S E B) : proc S E B := λ s,
  match m s with
  | (Ok a, s') => k a s'
  | (Err e, s') => (Err e, s')
  end.
Definition gets {S E A} (f : S → A) : proc S E A := λ s, (Ok (f s), s).
Definition modify {S E} (f : S → S) : proc S E unit := λ s, (Ok tt, f s).
(** Lift a pure [Result]. *)
Definition lift {S E A} (m : result E A) : proc S E A := λ s, (m, s).
(** Run a step and hand its outcome back instead of propagating the error. *)
Definition attempt {S E F A} (m : proc S E A) : proc S F (result E A) := λ s,
  let '(r, s') := m s in (Ok r, s').
Definition map_perr {S E F A} (f : E → F) (m : proc S E A) : proc S F A := λ s,
  let '(r, s') := m s in (map_err f r, s').
(** Run a step on a part of the state. *)
Definition zoom {S T E A} (get : S → T) (set : T → S → S) (m : proc T E A) : proc S E A := λ s,
  let '(r, t) := m (get s) in (r, set t s).

Notation "'let!' x ':=' m 'in' k" := (bind m (λ x, k))
  (at level 10, x pattern, m at level 100, k at level 200) : rust_scope.
Notation "'do!' m 'in' k" := (bind m (λ _, k))
  (at level 10, m at level 100, k at level 200) : rust_scope.

Lemma bind_ok {S E A B} (m : proc S E A) (k : A → proc S E B) s b s' :
  bind m k s = (Ok b, s') ↔ ∃ a s1, m s = (Ok a, s1) ∧ k a s1 = (Ok b, s').
Proof.
  unfold bind. destruct (m s) as [[a|e] s1]; split; intros H.
  - by exists a, s1.
  - by destruct H as (? & ? & [= -> ->] & H).
  - discriminate.
  - by destruct H as (? & ? & H & _).
Qed.

Lemma bind_err {S E A B} (m : proc S E A) (k : A → proc S E B) s e s' :
  bind m k s = (Err e, s') ↔
  m s = (Err e, s') ∨ ∃ a s1, m s = (Ok a, s1) ∧ k a s1 = (Err e, s').
Proof.
  unfold bind. destruct (m s) as [[a|e'] s1]; split; intros H.
  - right. by exists a, s1.
  - by destruct H as [H|(? & ? & [= -> ->] & H)].
  - left. congruence.
  - destruct H as [H|(? & ? & H & _)]; congruence.
Qed.

(** ** Reasoning about procedures

    [wp m P Q s]: run from [s], [m] either succeeds and leaves [P], or fails and
    leaves [Q]. *)

Definition wp {S E A} (m : proc S E A) (P : A → S → Prop) (Q : E → S → Prop) (s : S) : Prop :=
  match m s with
  | (Ok a, s') => P a s'
  | (Err e, s') => Q e s'
  end.

Section Wp.
Context {S E : Type}.

Lemma wp_run {A} (m : proc S E A) P Q s r s' :
  wp m P Q s → m s = (r, s') → match r with Ok a => P a s' | Err e => Q e s' end.
Proof. unfold wp. intros H Hm. rewrite Hm in H. by destruct r. Qed.

Lemma wp_ok {A} (m : proc S E A) P Q s a s' : wp m P Q s → m s = (Ok a, s') → P a s'.
Proof. intros H Hm. exact (wp_run m P Q s _ _ H Hm). Qed.

Lemma wp_err {A} (m : proc S E A) P Q s e s' : wp m P Q s → m s = (Err e, s') → Q e s'.
Proof. intros H Hm. exact (wp_run m P Q s _ _ H Hm). Qed.

Lemma wp_mono {A} (m : proc S E A) (P P' : A → S → Prop) (Q Q' : E → S → Prop) s :
  wp m P Q s → (∀ a s', P a s' → P' a s') → (∀ e s', Q e s' → Q' e s') → wp m P' Q' s.
Proof. unfold wp. destruct (m s) as [[a|e] s']; auto. Qed.

Lemma wp_bind {A B} (m : proc S E A) (k : A → proc S E B) P Q s :
  wp m (λ a, wp (k a) P Q) Q s → wp (bind m k) P Q s.
Proof. unfold wp, bind. by destruct (m s) as [[a|e] s']. Qed.

Lemma wp_ret {A} (a : A) P (Q : E → S → Prop) s : P a s → wp (ret a) P Q s.
Proof. done. Qed.

Lemma wp_fail {A} (e : E) (P : A → S → Prop) (Q : E → S → Prop) s : Q e s → wp (fail e) P Q s.
Proof. done. Qed.

Lemma wp_gets {A} (f : S → A) P (Q : E → S → Prop) s : P (f s) s → wp (gets f) P Q s.
Proof. done. Qed.

Lemma wp_modify (f : S → S) P (Q : E → S → Prop) s : P tt (f s) → wp (modify f) P Q s.
Proof. done. Qed.

Lemma wp_lift {A} (m : result E A) (P : A → S → Prop) Q s :
  (∀ a, m = Ok a → P a s) → (∀ e, m = Err e → Q e s) → wp (lift m) P Q s.
Proof. unfold wp, lift. destruct m; auto. Qed.

Lemma wp_map_perr {F A} (f : F → E) (m : proc S F A) P (Q : E → S → Prop) s :
  wp m P (λ e, Q (f e)) s → wp (map_perr f m) P Q s.
Proof. unfold wp, map_perr. by destruct (m s) as [[a|e] s']. Qed.

Lemma wp_attempt {F A} (m : proc S F A) P (Q : E → S → Prop) s :
  wp m (λ a, P (Ok a)) (λ e, P (Err e)) s → wp (attempt m) P Q s.
Proof. unfold wp, attempt. by destruct (m s) as [[a|e] s']. Qed.

Lemma wp_zoom {T A} (get : S → T) (set : T → S → S) (m : proc T E A) P Q s :
  wp m (λ a t, P a (set t s)) (λ e t, Q e (set t s)) (get s) → wp (zoom get set m) P Q s.
Proof. unfold wp, zoom. by destruct (m (get s)) as [[a|e] t]. Qed.
End Wp.

(** One step of a procedure made with the combinators above. *)
Ltac wp_step :=
  lazymatch goal with
  | |- wp (bind _ _) _ _ _ => apply wp_bind
  | |- wp (ret _) _ _ _ => apply wp_ret
  | |- wp (fail _) _ _ _ => apply wp_fail
  | |- wp (gets _) _ _ _ => apply wp_gets
  | |- wp (modify _) _ _ _ => apply wp_modify
  | |- wp (lift _) _ _ _ => apply wp_lift; [let a := fresh "a" in intros a ?|let e := fresh "e" in intros e ?]
  | |- wp (map_perr _ _) _ _ _ => apply wp_map_perr
  | |- wp (attempt _) _ _ _ => apply wp_attempt
  | |- wp (zoom _ _ _) _ _ _ => apply wp_zoom
  | |- wp (if ?b then _ else _) _ _ _ => let E := fresh "E" in destruct b eqn:E
  | |- wp (match ?x with (_, _) => _ end) _ _ _ => destruct x
  end.

(** ** Machine integers *)

Open Scope Z_scope.

Definition u8_max : Z := 255.
Definition u32_max : Z := 2 ^ 32 - 1.
Definition u64_max : Z := 2 ^ 64 - 1.
Definition i64_min : Z := - 2 ^ 63.
Definition i64_max : Z := 2 ^ 63 - 1.

Definition in_i64 (z : Z) : bool := (i64_min <=? z) && (z <=? i64_max).
Definition in_u8 (z : Z) : bool := (0 <=? z) && (z <=? u8_max).

(** [i64::saturating_add]. *)
Definition i64_saturating_add (a b : Z) : Z := Z.max i64_min (Z.min i64_max (a + b)).

(** ** Bytes

    A [u8] that is data is a [byte]; a [u8] that is a count is a [Z]. *)

Definition Z_of_byte (b : byte) : Z := Z.of_N (Byte.to_N b).

Definition byte_of_Z (z : Z) : byte :=
  match Byte.of_N (Z.to_N (z mod 256)) with Some b => b | None => x00 end.

#[export] Instance byte_eq_dec : EqDecision byte := Byte.byte_eq_dec.

Lemma Z_of_byte_range b : 0 <= Z_of_byte b < 256.
Proof. unfold Z_of_byte. pose proof (Byte.to_N_bounded b). lia. Qed.

Lemma byte_of_Z_of_byte b : byte_of_Z (Z_of_byte b) = b.
Proof.
  unfold byte_of_Z. rewrite Z.mod_small by apply Z_of_byte_range.
  unfold Z_of_byte. by rewrite N2Z.id, Byte.of_to_N.
Qed.

Lemma Z_of_byte_of_Z z : Z_of_byte (byte_of_Z z) = z mod 256.
Proof.
  unfold byte_of_Z, Z_of_byte. pose proof (Z.mod_pos_bound z 256 eq_refl).
  destruct (Byte.of_N (Z.to_N (z mod 256))) eqn:E.
  - apply Byte.to_of_N in E. rewrite E. lia.
  - apply Byte.of_N_None_iff in E. lia.
Qed.

#[export] Instance Z_of_byte_inj : Inj (=) (=) Z_of_byte.
Proof. intros a b H. by rewrite <- (byte_of_Z_of_byte a), H, byte_of_Z_of_byte. Qed.

(** Every byte, so that a decidable fact about one byte is settled by evaluation. *)
Definition all_bytes : list byte := byte_of_Z ∘ Z.of_nat <$> seq 0 256.

Lemma all_bytes_complete b : b ∈ all_bytes.
Proof.
  unfold all_bytes. apply list_elem_of_fmap. exists (Z.to_nat (Z_of_byte b)).
  pose proof (Z_of_byte_range b). split.
  - cbn. rewrite Z2Nat.id by lia. by rewrite byte_of_Z_of_byte.
  - apply elem_of_seq. lia.
Qed.

Lemma forall_byte (P : byte → bool) : forallb P all_bytes = true → ∀ b, P b = true.
Proof.
  intros H b. apply forallb_forall with (x := b) in H; [done|].
  apply list_elem_of_In, all_bytes_complete.
Qed.

Lemma forall_byte2 (P : byte → byte → bool) :
  forallb (λ a, forallb (P a) all_bytes) all_bytes = true → ∀ a b, P a b = true.
Proof.
  intros H a b. apply (forall_byte (P a)).
  revert a. by apply (forall_byte (λ a, forallb (P a) all_bytes)).
Qed.

(** A decidable goal about one byte, or about two, by enumeration. *)
Ltac by_bytes1 b :=
  match goal with |- ?G =>
    let D := constr:(_ : Decision G) in refine (proj1 (@bool_decide_eq_true G D) _) end;
  revert b; apply forall_byte; vm_compute; reflexivity.
Ltac by_bytes2 a b :=
  match goal with |- ?G =>
    let D := constr:(_ : Decision G) in refine (proj1 (@bool_decide_eq_true G D) _) end;
  revert a b; apply forall_byte2; vm_compute; reflexivity.

(** A [bool] equation about a byte's number, as the arithmetic it means. *)
Ltac bool_arith :=
  repeat match goal with
  | H : _ && _ = true |- _ => apply andb_prop in H as [? ?]
  | H : _ || _ = false |- _ => apply orb_false_elim in H as [? ?]
  | H : _ && _ = false |- _ => apply andb_false_iff in H
  | H : _ || _ = true |- _ => apply orb_prop in H
  | H : negb _ = true |- _ => apply negb_true_iff in H
  | H : negb _ = false |- _ => apply negb_false_iff in H
  | H : (_ <=? _) = true |- _ => apply Z.leb_le in H
  | H : (_ <=? _) = false |- _ => apply Z.leb_gt in H
  | H : (_ <? _) = true |- _ => apply Z.ltb_lt in H
  | H : (_ <? _) = false |- _ => apply Z.ltb_ge in H
  | H : (_ =? _) = true |- _ => apply Z.eqb_eq in H
  | H : (_ =? _) = false |- _ => apply Z.eqb_neq in H
  end.

(** Split on the outermost [match] or [if] of the goal or a hypothesis. *)
Ltac split_match :=
  repeat (case_match || case_decide || case_bool_decide); simplify_eq/=; try done.

(** ** Bit operations as arithmetic *)

Lemma land_disjoint x y n : 0 <= n → 0 <= y < 2 ^ n → Z.land (x * 2 ^ n) y = 0.
Proof.
  intros Hn Hy. apply Z.bits_inj'. intros i Hi. rewrite Z.land_spec, Z.bits_0.
  destruct (Z.lt_ge_cases i n).
  - by rewrite Z.mul_pow2_bits_low.
  - destruct (decide (y = 0)) as [->|]; [by rewrite Z.bits_0, andb_false_r|].
    rewrite (Z.bits_above_log2 y i), andb_false_r; [done|lia|].
    apply Z.lt_le_trans with n; [|done]. apply Z.log2_lt_pow2; lia.
Qed.

(** [(x << n) | y] packs [y] below [x]. *)
Lemma lor_disjoint x y n : 0 <= n → 0 <= y < 2 ^ n → Z.lor (Z.shiftl x n) y = x * 2 ^ n + y.
Proof.
  intros Hn Hy. rewrite Z.shiftl_mul_pow2 by done.
  by rewrite <- Z.add_nocarry_lor by (by apply land_disjoint).
Qed.

Lemma land_low_mask x n : 0 <= n → Z.land x (2 ^ n - 1) = x mod 2 ^ n.
Proof. intros Hn. by rewrite <- Z.land_ones, Z.ones_equiv, Z.sub_1_r. Qed.

(** ** Slices *)

(** [slice::chunks]: consecutive pieces of [n] elements, the last one shorter. *)
Fixpoint chunks_aux {A} (fuel n : nat) (l : list A) : list (list A) :=
  match l, fuel with
  | [], _ | _, O => []
  | _, S fuel => take n l :: chunks_aux fuel n (drop n l)
  end.
Definition chunks {A} (n : nat) (l : list A) : list (list A) := chunks_aux (length l) n l.

Lemma chunks_aux_fuel {A} (f1 f2 n : nat) (l : list A) :
  (0 < n)%nat → (length l ≤ f1)%nat → (length l ≤ f2)%nat → chunks_aux f1 n l = chunks_aux f2 n l.
Proof.
  intros Hn. revert f2 l. induction f1 as [|f1 IH]; intros f2 l H1 H2; destruct l as [|x l].
  - by destruct f2.
  - cbn in *. lia.
  - by destruct f2.
  - destruct f2 as [|f2]; cbn [length] in *; [lia|]. cbn [chunks_aux]. f_equal.
    apply IH; rewrite length_drop; cbn [length]; lia.
Qed.

Lemma chunks_nil {A} n : chunks n ([] : list A) = [].
Proof. done. Qed.

Lemma chunks_app {A} n (l r : list A) :
  (0 < n)%nat → length l = n → chunks n (l ++ r) = l :: chunks n r.
Proof.
  intros Hn Hl. unfold chunks. destruct (l ++ r) as [|x xs] eqn:E.
  { destruct l; cbn in *; [lia|done]. }
  cbn [length chunks_aux]. rewrite <- E, take_app_length', drop_app_length' by done. f_equal.
  apply chunks_aux_fuel; [done| |done].
  apply (f_equal length) in E. rewrite length_app in E. cbn in E. lia.
Qed.

Lemma chunks_short {A} n (l : list A) :
  l ≠ [] → (length l ≤ n)%nat → chunks n l = [l].
Proof.
  intros Hne Hl. unfold chunks. destruct l as [|x l]; [done|]. cbn [length chunks_aux].
  rewrite take_ge, drop_ge by done. by destruct (length l).
Qed.

(** The equations of [chunks], as an induction principle. *)
Lemma chunks_ind {A} (n : nat) (P : list A → Prop) :
  (0 < n)%nat → P [] →
  (∀ l, l ≠ [] → (length l < n)%nat → P l) →
  (∀ l r, length l = n → P r → P (l ++ r)) →
  ∀ l, P l.
Proof.
  intros Hn H0 Hs Hc l. remember (length l) as k eqn:Hk. revert l Hk.
  induction (lt_wf k) as [k _ IH]. intros l ->.
  destruct (decide (l = [])) as [->|Hne]; [done|].
  destruct (decide (length l < n)%nat); [by apply Hs|].
  rewrite <- (take_drop n l). apply Hc; [rewrite length_take; lia|].
  apply (IH (length (drop n l))); [|done]. destruct l; [done|]. rewrite length_drop. cbn. lia.
Qed.

(** ** Big-endian numbers *)

(** [to_be_bytes] of an [n]-byte unsigned integer. *)
Fixpoint be_bytes (n : nat) (z : Z) : list byte :=
  match n with
  | O => []
  | S n => byte_of_Z (z / 256 ^ Z.of_nat n) :: be_bytes n z
  end.

(** [from_be_bytes]. *)
Definition be_value (l : list byte) : Z := fold_left (λ acc b, acc * 256 + Z_of_byte b) l 0.

Lemma length_be_bytes n z : length (be_bytes n z) = n.
Proof. induction n as [|n IH]; cbn; congruence. Qed.

Lemma fold_be l acc :
  fold_left (λ acc b, acc * 256 + Z_of_byte b) l acc = acc * 256 ^ Z.of_nat (length l) + be_value l.
Proof.
  unfold be_value. revert acc. induction l as [|b l IH]; intros acc; cbn [fold_left length].
  - rewrite Z.pow_0_r. lia.
  - rewrite IH, (IH (0 * 256 + _)), Nat2Z.inj_succ, Z.pow_succ_r by lia. lia.
Qed.

Lemma be_value_cons b l : be_value (b :: l) = Z_of_byte b * 256 ^ Z.of_nat (length l) + be_value l.
Proof. unfold be_value at 1. cbn [fold_left]. rewrite fold_be. lia. Qed.

Lemma be_value_range l : 0 <= be_value l < 256 ^ Z.of_nat (length l).
Proof.
  induction l as [|b l IH]; [cbn; lia|]. rewrite be_value_cons. cbn [length].
  rewrite Nat2Z.inj_succ, Z.pow_succ_r by lia. pose proof (Z_of_byte_range b). nia.
Qed.

Lemma be_value_bytes n z : be_value (be_bytes n z) = z mod 256 ^ Z.of_nat n.
Proof.
  induction n as [|n IH]; cbn [be_bytes]; [by rewrite Z.mod_1_r|].
  rewrite be_value_cons, length_be_bytes, IH, Z_of_byte_of_Z, Nat2Z.inj_succ, Z.pow_succ_r by lia.
  rewrite (Z.mul_comm 256). rewrite Z.rem_mul_r by lia. lia.
Qed.

(** Unequal widths aside, big-endian encoding is injective on the numbers that fit. *)
Lemma be_bytes_inj n x y :
  0 <= x < 256 ^ Z.of_nat n → 0 <= y < 256 ^ Z.of_nat n → be_bytes n x = be_bytes n y → x = y.
Proof.
  intros Hx Hy H. apply (f_equal be_value) in H. rewrite !be_value_bytes in H.
  by rewrite !Z.mod_small in H by done.
Qed.

Lemma be_bytes_mod n z : be_bytes n (z mod 256 ^ Z.of_nat n) = be_bytes n z.
Proof.
  assert (∀ m, (n ≤ m)%nat → be_bytes n (z mod 256 ^ Z.of_nat m) = be_bytes n z) as H; [|by apply H].
  intros m. induction n as [|n IH]; intros Hm; [done|]. cbn [be_bytes]. f_equal; [|apply IH; lia].
  assert (256 ^ Z.of_nat m = 256 ^ Z.of_nat n * (256 * 256 ^ Z.of_nat (m - S n))) as E.
  { rewrite <- Z.pow_succ_r, <- Z.pow_add_r by lia. f_equal. lia. }
  set (q := 256 ^ Z.of_nat (m - S n)) in *. assert (0 < q) by (apply Z.pow_pos_nonneg; lia).
  rewrite E, Z.rem_mul_r by lia. rewrite Z.mul_comm, Z.div_add by lia.
  rewrite Z.div_small, Z.add_0_l by (apply Z.mod_pos_bound; lia).
  unfold byte_of_Z. do 2 f_equal. rewrite Z.rem_mul_r by lia. rewrite Z.mul_comm, Z.mod_add by lia.
  by rewrite Z.mod_mod.
Qed.

Lemma be_bytes_value l : be_bytes (length l) (be_value l) = l.
Proof.
  induction l as [|b l IH]; [done|]. cbn [length be_bytes]. rewrite be_value_cons.
  pose proof (be_value_range l). f_equal.
  - rewrite Z.div_add_l, Z.div_small, Z.add_0_r by lia. apply byte_of_Z_of_byte.
  - rewrite <- be_bytes_mod, Z.add_comm, Z.mod_add, Z.mod_small by lia. done.
Qed.
