(* ===== verification/Text.v ===== *)
(** * Text: Rust strings as UTF-8 byte sequences

    A [String] or [&str] is a Rocq [string] whose bytes are its UTF-8 encoding;
    a [char] is its scalar value, a [Z]. This file has the conversions
    ([as_bytes], [from_utf8], [chars]), the [str] methods the program uses
    (trimming, splitting, ASCII case, prefixes) and decimal numbers, with the
    round trips the components rely on. *)

From S2P Require Import Prelude.
From Stdlib Require Import Strings.Byte.

(** ** Strings and their bytes *)

Definition as_bytes (s : string) : list byte := String.list_byte_of_string s.
Definition of_bytes (bs : list byte) : string := String.string_of_list_byte bs.

Lemma of_bytes_as_bytes s : of_bytes (as_bytes s) = s.
Proof. apply String.string_of_list_byte_of_string. Qed.

Lemma as_bytes_of_bytes bs : as_bytes (of_bytes bs) = bs.
Proof. apply String.list_byte_of_string_of_list_byte. Qed.

#[export] Instance as_bytes_inj : Inj (=) (=) as_bytes.
Proof. intros s t H. by rewrite <- (of_bytes_as_bytes s), H, of_bytes_as_bytes. Qed.

#[export] Instance of_bytes_inj : Inj (=) (=) of_bytes.
Proof. intros s t H. by rewrite <- (as_bytes_of_bytes s), H, as_bytes_of_bytes. Qed.

Lemma as_bytes_app s t : as_bytes (s +:+ t) = as_bytes s ++ as_bytes t.
Proof.
  unfold as_bytes, String.list_byte_of_string.
  induction s as [|a s IH]; [done|]. change (String a s +:+ t) with (String a (s +:+ t)).
  cbn. by rewrite IH.
Qed.

Lemma of_bytes_app bs cs : of_bytes (bs ++ cs) = of_bytes bs +:+ of_bytes cs.
Proof. apply (inj as_bytes). by rewrite as_bytes_app, !as_bytes_of_bytes. Qed.

Lemma as_bytes_nil s : as_bytes s = [] ↔ s = EmptyString.
Proof. split; [by destruct s|by intros ->]. Qed.

Create Rewrite HintDb bytes.
#[export] Hint Rewrite as_bytes_app as_bytes_of_bytes of_bytes_as_bytes : bytes.

(** [str::len], in bytes. *)
Definition str_len (s : string) : Z := Z.of_nat (length (as_bytes s)).

(** ** UTF-8 *)

Definition is_scalar (c : Z) : bool :=
  ((0 <=? c) && (c <? 0xD800)) || ((0xE000 <=? c) && (c <=? 0x10FFFF)).

(** [char::encode_utf8]. *)
Definition encode_char (c : Z) : list byte :=
  if c <? 0x80 then [byte_of_Z c]
  else if c <? 0x800 then [byte_of_Z (0xC0 + c / 64); byte_of_Z (0x80 + c mod 64)]
  else if c <? 0x10000 then
    [byte_of_Z (0xE0 + c / 4096); byte_of_Z (0x80 + c / 64 mod 64); byte_of_Z (0x80 + c mod 64)]
  else
    [byte_of_Z (0xF0 + c / 262144); byte_of_Z (0x80 + c / 4096 mod 64);
     byte_of_Z (0x80 + c / 64 mod 64); byte_of_Z (0x80 + c mod 64)].

Definition encode_chars (cs : list Z) : list byte := concat (encode_char <$> cs).

(** A continuation byte is [10xxxxxx]. *)
Definition is_cont (b : byte) : bool := (0x80 <=? Z_of_byte b) && (Z_of_byte b <? 0xC0).
Definition cont_bits (b : byte) : Z := Z_of_byte b - 0x80.

(** The first character of a UTF-8 sequence and what follows it. Overlong forms,
    surrogates and values above U+10FFFF are refused. *)
Definition next_char (bs : list byte) : option (Z * list byte) :=
  match bs with
  | [] => None
  | b0 :: r0 =>
    let x := Z_of_byte b0 in
    if x <? 0x80 then Some (x, r0)
    else if (0xC2 <=? x) && (x <? 0xE0) then
      match r0 with
      | b1 :: r => if is_cont b1 then Some ((x - 0xC0) * 64 + cont_bits b1, r) else None
      | _ => None
      end
    else if (0xE0 <=? x) && (x <? 0xF0) then
      match r0 with
      | b1 :: b2 :: r =>
        let c := (x - 0xE0) * 4096 + cont_bits b1 * 64 + cont_bits b2 in
        if is_cont b1 && is_cont b2 && (0x800 <=? c) && is_scalar c then Some (c, r) else None
      | _ => None
      end
    else if (0xF0 <=? x) && (x <? 0xF5) then
      match r0 with
      | b1 :: b2 :: b3 :: r =>
        let c := (x - 0xF0) * 262144 + cont_bits b1 * 4096 + cont_bits b2 * 64 + cont_bits b3 in
        if is_cont b1 && is_cont b2 && is_cont b3 && (0x10000 <=? c) && (c <=? 0x10FFFF)
        then Some (c, r) else None
      | _ => None
      end
    else None
  end.

Fixpoint decode_aux (fuel : nat) (bs : list byte) : option (list Z) :=
  match bs, fuel with
  | [], _ => Some []
  | _, O => None
  | _, S fuel =>
    match next_char bs with
    | Some (c, r) => cons c <$> decode_aux fuel r
    | None => None
    end
  end.

(** The characters of a byte sequence, when it is UTF-8. *)
Definition decode (bs : list byte) : option (list Z) := decode_aux (length bs) bs.

(** [std::str::from_utf8] and [String::from_utf8]. *)
Definition from_utf8 (bs : list byte) : option string :=
  match decode bs with Some _ => Some (of_bytes bs) | None => None end.

(** The invariant of the Rust type: a [String] is always UTF-8. *)
Definition is_str (s : string) : bool :=
  match decode (as_bytes s) with Some _ => true | None => false end.

(** [str::chars], for a well-formed string. *)
Definition chars (s : string) : list Z := default [] (decode (as_bytes s)).

Definition of_chars (cs : list Z) : string := of_bytes (encode_chars cs).

Lemma is_scalar_spec c : is_scalar c = true ↔ 0 <= c < 0xD800 ∨ 0xE000 <= c <= 0x10FFFF.
Proof. unfold is_scalar. rewrite orb_true_iff, !andb_true_iff. lia. Qed.

Lemma is_cont_spec b : is_cont b = true ↔ 0x80 <= Z_of_byte b < 0xC0.
Proof. unfold is_cont. rewrite andb_true_iff. lia. Qed.

Lemma is_cont_byte z : 0 <= z < 64 → is_cont (byte_of_Z (0x80 + z)) = true.
Proof. intros H. apply is_cont_spec. rewrite Z_of_byte_of_Z, Z.mod_small; lia. Qed.

Lemma cont_bits_byte z : 0 <= z < 64 → cont_bits (byte_of_Z (0x80 + z)) = z.
Proof. intros H. unfold cont_bits. rewrite Z_of_byte_of_Z, Z.mod_small; lia. Qed.

(** Decide a boolean test whose value arithmetic determines. *)
Ltac decide_tests :=
  repeat match goal with
  | |- context [if ?t then _ else _] =>
    first
      [ replace t with true by (symmetry; rewrite ?andb_true_iff, ?is_scalar_spec; repeat split;
          first [assumption | apply is_cont_byte; lia | apply Z.leb_le; lia | apply Z.ltb_lt; lia | lia])
      | replace t with false by (symmetry; rewrite ?andb_false_iff, ?Z.ltb_ge, ?Z.leb_gt; lia) ]
  end.

Lemma next_char_encode c r :
  is_scalar c = true → next_char (encode_char c ++ r) = Some (c, r).
Proof.
  rewrite is_scalar_spec. intros Hc.
  pose proof (Z.div_mod c 64 ltac:(lia)). pose proof (Z.mod_pos_bound c 64 ltac:(lia)).
  pose proof (Z.mod_pos_bound (c / 64) 64 ltac:(lia)).
  pose proof (Z.mod_pos_bound (c / 4096) 64 ltac:(lia)).
  pose proof (Z.div_mod (c / 64) 64 ltac:(lia)).
  pose proof (Z.div_mod (c / 4096) 64 ltac:(lia)).
  assert (c / 64 / 64 = c / 4096) by (by rewrite Z.div_div by lia).
  assert (c / 4096 / 64 = c / 262144) by (by rewrite Z.div_div by lia).
  unfold encode_char, next_char.
  destruct (Z.ltb_spec c 0x80); [|destruct (Z.ltb_spec c 0x800); [|destruct (Z.ltb_spec c 0x10000)]];
    cbn -[Z.mul Z.div Z.modulo Z.add Z.sub is_scalar is_cont cont_bits];
    rewrite ?Z_of_byte_of_Z, ?cont_bits_byte, ?is_cont_byte by lia;
    rewrite (Z.mod_small _ 256) by lia.
  - by decide_tests.
  - decide_tests. do 2 f_equal. lia.
  - decide_tests. do 2 f_equal. lia.
  - decide_tests. do 2 f_equal. lia.
Qed.

Lemma encode_char_nonnil c : encode_char c ≠ [].
Proof. unfold encode_char. repeat case_match; done. Qed.

Lemma cont_byte b : is_cont b = true → byte_of_Z (0x80 + cont_bits b) = b ∧ 0 <= cont_bits b < 64.
Proof.
  rewrite is_cont_spec. unfold cont_bits. intros H. split; [|lia].
  replace (0x80 + (Z_of_byte b - 0x80)) with (Z_of_byte b) by lia. apply byte_of_Z_of_byte.
Qed.

Lemma div_mod_base n q r : 0 <= r < n → (q * n + r) / n = q ∧ (q * n + r) mod n = r.
Proof.
  intros H. split.
  - rewrite Z.div_add_l, Z.div_small by lia. lia.
  - rewrite Z.add_comm, Z.mod_add, Z.mod_small by lia. done.
Qed.

(** [lead_byte]: a leading byte rebuilt from its payload. *)
Lemma lead_byte b k : byte_of_Z (k + (Z_of_byte b - k)) = b.
Proof. replace (k + (Z_of_byte b - k)) with (Z_of_byte b) by lia. apply byte_of_Z_of_byte. Qed.

Lemma encode_char2 a b :
  0xC2 - 0xC0 <= a < 0x20 → 0 <= b < 64 →
  encode_char (a * 64 + b) = [byte_of_Z (0xC0 + a); byte_of_Z (0x80 + b)].
Proof.
  intros Ha Hb. unfold encode_char. destruct (div_mod_base 64 a b Hb) as [-> ->].
  by decide_tests.
Qed.

Lemma encode_char3 a b c :
  0 <= a < 0x10 → 0 <= b < 64 → 0 <= c < 64 → 0x800 <= a * 4096 + b * 64 + c →
  encode_char (a * 4096 + b * 64 + c) =
  [byte_of_Z (0xE0 + a); byte_of_Z (0x80 + b); byte_of_Z (0x80 + c)].
Proof.
  intros Ha Hb Hc Hv. unfold encode_char. decide_tests.
  replace (a * 4096 + b * 64 + c) with ((a * 64 + b) * 64 + c) by lia.
  destruct (div_mod_base 64 (a * 64 + b) c Hc) as [-> ->].
  destruct (div_mod_base 64 a b Hb) as [Hq ->].
  replace ((a * 64 + b) * 64 + c) with (a * 4096 + (b * 64 + c)) by lia.
  by destruct (div_mod_base 4096 a (b * 64 + c) ltac:(lia)) as [-> _].
Qed.

Lemma encode_char4 a b c d :
  0 <= a < 5 → 0 <= b < 64 → 0 <= c < 64 → 0 <= d < 64 →
  0x10000 <= a * 262144 + b * 4096 + c * 64 + d →
  encode_char (a * 262144 + b * 4096 + c * 64 + d) =
  [byte_of_Z (0xF0 + a); byte_of_Z (0x80 + b); byte_of_Z (0x80 + c); byte_of_Z (0x80 + d)].
Proof.
  intros Ha Hb Hc Hd Hv. unfold encode_char. decide_tests.
  destruct (div_mod_base 262144 a (b * 4096 + c * 64 + d) ltac:(lia)) as [Hq _].
  destruct (div_mod_base 4096 (a * 64 + b) (c * 64 + d) ltac:(lia)) as [Hq2 _].
  destruct (div_mod_base 64 (a * 4096 + b * 64 + c) d Hd) as [Hq3 Hr3].
  destruct (div_mod_base 64 a b Hb) as [_ Hr2].
  destruct (div_mod_base 64 (a * 64 + b) c Hc) as [_ Hr].
  replace ((a * 64 + b) * 4096 + (c * 64 + d)) with (a * 262144 + b * 4096 + c * 64 + d) in Hq2 by lia.
  replace ((a * 4096 + b * 64 + c) * 64 + d) with (a * 262144 + b * 4096 + c * 64 + d) in Hq3, Hr3 by lia.
  replace ((a * 64 + b) * 64 + c) with (a * 4096 + b * 64 + c) in Hr by lia.
  replace (a * 262144 + (b * 4096 + c * 64 + d)) with (a * 262144 + b * 4096 + c * 64 + d) in Hq by lia.
  by rewrite Hq, Hq2, Hq3, Hr3, Hr2, Hr.
Qed.

Lemma next_char_sound bs c r :
  next_char bs = Some (c, r) → is_scalar c = true ∧ bs = encode_char c ++ r.
Proof.
  unfold next_char. intros H.
  destruct bs as [|b0 r0]; [done|]. pose proof (Z_of_byte_range b0).
  destruct (Z.ltb_spec (Z_of_byte b0) 0x80).
  { simplify_eq. split; [apply is_scalar_spec; lia|]. unfold encode_char. decide_tests.
    by rewrite byte_of_Z_of_byte. }
  destruct ((0xC2 <=? Z_of_byte b0) && _) eqn:E2.
  { destruct r0 as [|b1 r1]; [done|]. destruct (is_cont b1) eqn:Hc1; [|done]. simplify_eq. bool_arith.
    destruct (cont_byte _ Hc1) as [? ?].
    split; [apply is_scalar_spec; lia|]. rewrite encode_char2 by lia. rewrite lead_byte. cbn. congruence. }
  destruct ((0xE0 <=? Z_of_byte b0) && _) eqn:E3.
  { destruct r0 as [|b1 [|b2 r2]]; try done.
    destruct (_ && is_scalar _) eqn:Ht; [|done]. simplify_eq. bool_arith.
    destruct (cont_byte b1) as [? ?]; [done|]. destruct (cont_byte b2) as [? ?]; [done|].
    split; [done|]. rewrite encode_char3 by lia. rewrite lead_byte. cbn. congruence. }
  destruct ((0xF0 <=? Z_of_byte b0) && _) eqn:E4; [|done].
  destruct r0 as [|b1 [|b2 [|b3 r3]]]; try done.
  destruct (_ && (_ <=? 0x10FFFF)) eqn:Ht; [|done]. simplify_eq. bool_arith.
  destruct (cont_byte b1) as [? ?]; [done|]. destruct (cont_byte b2) as [? ?]; [done|].
  destruct (cont_byte b3) as [? ?]; [done|].
  split; [apply is_scalar_spec; lia|]. rewrite encode_char4 by lia. rewrite lead_byte. cbn. congruence.
Qed.

Lemma encode_chars_cons c cs : encode_chars (c :: cs) = encode_char c ++ encode_chars cs.
Proof. done. Qed.

Lemma encode_chars_app cs ds : encode_chars (cs ++ ds) = encode_chars cs ++ encode_chars ds.
Proof. unfold encode_chars. by rewrite fmap_app, concat_app. Qed.

Lemma decode_aux_encode cs fuel :
  forallb is_scalar cs = true → (length (encode_chars cs) ≤ fuel)%nat →
  decode_aux fuel (encode_chars cs) = Some cs.
Proof.
  revert fuel. induction cs as [|c cs IH]; intros fuel Hs Hf; [by destruct fuel|].
  rewrite encode_chars_cons in *. apply andb_prop in Hs as [Hc Hs]. rewrite length_app in Hf.
  destruct (encode_char c) as [|b l] eqn:E; [by destruct (encode_char_nonnil c)|].
  destruct fuel as [|fuel]; [cbn in Hf; lia|].
  change ((b :: l) ++ encode_chars cs) with (b :: (l ++ encode_chars cs)).
  cbn [decode_aux]. change (b :: (l ++ encode_chars cs)) with ((b :: l) ++ encode_chars cs).
  rewrite <- E, next_char_encode by done. rewrite IH; [done..|]. cbn in Hf. lia.
Qed.

Lemma decode_encode cs : forallb is_scalar cs = true → decode (encode_chars cs) = Some cs.
Proof. intros H. unfold decode. by rewrite decode_aux_encode. Qed.

Lemma decode_sound bs cs :
  decode bs = Some cs → forallb is_scalar cs = true ∧ bs = encode_chars cs.
Proof.
  unfold decode. generalize (length bs). intros fuel. revert bs cs.
  induction fuel as [|fuel IH]; intros bs cs H; destruct bs as [|b bs]; cbn [decode_aux] in H; simplify_eq; try done.
  destruct (next_char (b :: bs)) as [[c r]|] eqn:E; [|done].
  apply next_char_sound in E as [Hc E].
  destruct (decode_aux fuel r) as [cs'|] eqn:E'; cbn in H; simplify_eq.
  apply IH in E' as [? ->]. by rewrite E, encode_chars_cons; cbn; rewrite Hc.
Qed.

Lemma decode_app cs bs ds :
  decode bs = Some ds → forallb is_scalar cs = true →
  decode (encode_chars cs ++ bs) = Some (cs ++ ds).
Proof.
  intros [Hs ->]%decode_sound Hc. rewrite <- encode_chars_app. apply decode_encode.
  by rewrite forallb_app, Hc, Hs.
Qed.

Lemma decode_app_some bs bs' cs ds :
  decode bs = Some cs → decode bs' = Some ds → decode (bs ++ bs') = Some (cs ++ ds).
Proof. intros [Hs ->]%decode_sound H. by apply decode_app. Qed.

Lemma is_str_chars s : is_str s = true → decode (as_bytes s) = Some (chars s).
Proof. unfold is_str, chars. by destruct (decode (as_bytes s)). Qed.

Lemma is_str_of_chars cs : forallb is_scalar cs = true → is_str (of_chars cs) = true.
Proof. intros H. unfold is_str, of_chars. by rewrite as_bytes_of_bytes, decode_encode. Qed.

Lemma of_chars_chars s : is_str s = true → of_chars (chars s) = s.
Proof.
  intros H%is_str_chars. apply decode_sound in H as [_ H].
  unfold of_chars. by rewrite <- H, of_bytes_as_bytes.
Qed.

Lemma chars_of_chars cs : forallb is_scalar cs = true → chars (of_chars cs) = cs.
Proof. intros H. unfold chars, of_chars. by rewrite as_bytes_of_bytes, decode_encode. Qed.

Lemma chars_scalar s : forallb is_scalar (chars s) = true.
Proof.
  unfold chars. destruct (decode (as_bytes s)) eqn:E; [|done]. by apply decode_sound in E as [? _].
Qed.

Lemma from_utf8_spec bs s : from_utf8 bs = Some s ↔ as_bytes s = bs ∧ is_str s = true.
Proof.
  unfold from_utf8, is_str. split.
  - destruct (decode bs) eqn:E; intros; simplify_eq. by rewrite as_bytes_of_bytes, E.
  - intros [<- H]. destruct (decode (as_bytes s)); [|done]. by rewrite of_bytes_as_bytes.
Qed.

Lemma from_utf8_as_bytes s : is_str s = true → from_utf8 (as_bytes s) = Some s.
Proof. intros H. by apply from_utf8_spec. Qed.

Lemma of_chars_one c : of_chars [c] = of_bytes (encode_char c).
Proof.
  unfold of_chars, encode_chars. change (concat (encode_char <$> [c])) with (encode_char c ++ []).
  by rewrite app_nil_r.
Qed.

Lemma from_utf8_encode_char c : is_scalar c = true → from_utf8 (encode_char c) = Some (of_chars [c]).
Proof.
  intros Hc. apply from_utf8_spec. split; [by rewrite of_chars_one, as_bytes_of_bytes|].
  apply is_str_of_chars. cbn -[is_scalar]. by rewrite Hc.
Qed.

Lemma is_str_app s t : is_str s = true → is_str t = true → is_str (s +:+ t) = true.
Proof.
  intros Hs%is_str_chars Ht%is_str_chars. unfold is_str.
  by rewrite as_bytes_app, (decode_app_some _ _ _ _ Hs Ht).
Qed.

(** ** Characters and ASCII *)

Definition byte_between (lo hi b : byte) : bool :=
  (Z_of_byte lo <=? Z_of_byte b) && (Z_of_byte b <=? Z_of_byte hi).

Definition is_ascii_digit (b : byte) : bool := byte_between "0" "9" b.
Definition is_ascii_lowercase (b : byte) : bool := byte_between "a" "z" b.
Definition is_ascii_uppercase (b : byte) : bool := byte_between "A" "Z" b.
Definition is_ascii_alphanumeric (b : byte) : bool :=
  is_ascii_digit b || is_ascii_lowercase b || is_ascii_uppercase b.

Definition lower_byte (b : byte) : byte :=
  if is_ascii_uppercase b then byte_of_Z (Z_of_byte b + 32) else b.

(** [str::to_ascii_lowercase]. *)
Definition to_ascii_lowercase (s : string) : string := of_bytes (lower_byte <$> as_bytes s).

(** [char::is_whitespace]: the Unicode [White_Space] property. *)
Definition is_whitespace (c : Z) : bool :=
  ((9 <=? c) && (c <=? 13)) || (c =? 32) || (c =? 0x85) || (c =? 0xA0) || (c =? 0x1680)
  || ((0x2000 <=? c) && (c <=? 0x200A)) || (c =? 0x2028) || (c =? 0x2029) || (c =? 0x202F)
  || (c =? 0x205F) || (c =? 0x3000).

Fixpoint drop_while {A} (p : A → bool) (l : list A) : list A :=
  match l with
  | [] => []
  | x :: r => if p x then drop_while p r else l
  end.

Definition trim_with {A} (p : A → bool) (l : list A) : list A :=
  reverse (drop_while p (reverse (drop_while p l))).

(** [str::trim]. *)
Definition trim (s : string) : string := of_chars (trim_with is_whitespace (chars s)).

(** [str::split] at an ASCII separator; there is always at least one piece. *)
Fixpoint split_at_byte (sep : byte) (l : list byte) : list (list byte) :=
  match l with
  | [] => [[]]
  | b :: r =>
    if decide (b = sep) then [] :: split_at_byte sep r
    else match split_at_byte sep r with
         | piece :: rest => (b :: piece) :: rest
         | [] => [[b]]
         end
  end.

Definition split (sep : byte) (s : string) : list string :=
  of_bytes <$> split_at_byte sep (as_bytes s).

(** [str::split_once] at an ASCII separator. *)
Fixpoint split_once_bytes (sep : byte) (l : list byte) : option (list byte * list byte) :=
  match l with
  | [] => None
  | b :: r =>
    if decide (b = sep) then Some ([], r)
    else match split_once_bytes sep r with
         | Some (before, after) => Some (b :: before, after)
         | None => None
         end
  end.

Definition split_once (sep : byte) (s : string) : option (string * string) :=
  match split_once_bytes sep (as_bytes s) with
  | Some (before, after) => Some (of_bytes before, of_bytes after)
  | None => None
  end.

(** [str::contains] an ASCII character. *)
Definition contains_byte (c : byte) (s : string) : bool :=
  existsb (λ b, bool_decide (b = c)) (as_bytes s).

Fixpoint strip_prefix_bytes (p l : list byte) : option (list byte) :=
  match p, l with
  | [], _ => Some l
  | b :: p, c :: l => if decide (b = c) then strip_prefix_bytes p l else None
  | _ :: _, [] => None
  end.

(** [str::strip_prefix] and [str::starts_with]. *)
Definition strip_prefix (p s : string) : option string :=
  of_bytes <$> strip_prefix_bytes (as_bytes p) (as_bytes s).
Definition starts_with (p s : string) : bool :=
  match strip_prefix p s with Some _ => true | None => false end.
Definition ends_with_byte (c : byte) (s : string) : bool :=
  match last (as_bytes s) with Some b => bool_decide (b = c) | None => false end.

Lemma split_at_byte_join sep l r :
  sep ∉ l → split_at_byte sep (l ++ sep :: r) = l :: split_at_byte sep r.
Proof.
  induction l as [|b l IH]; intros H; cbn.
  - by rewrite decide_True.
  - apply not_elem_of_cons in H as [Hb H]. rewrite decide_False by done. by rewrite IH.
Qed.

Lemma split_at_byte_none sep l : sep ∉ l → split_at_byte sep l = [l].
Proof.
  induction l as [|b l IH]; intros H; cbn; [done|].
  apply not_elem_of_cons in H as [Hb H]. rewrite decide_False by done. by rewrite IH.
Qed.

(** Lines, each with its end, cut apart again. *)
Lemma split_at_byte_lines sep lines :
  Forall (λ l, sep ∉ l) lines → split_at_byte sep (concat ((λ l, l ++ [sep]) <$> lines)) = lines ++ [[]].
Proof.
  induction 1 as [|l lines Hl _ IH]; [done|]. cbn [fmap list_fmap concat]. rewrite <- app_assoc.
  cbn [app]. rewrite split_at_byte_join by done. by rewrite IH.
Qed.

Lemma split_once_bytes_none sep l : split_once_bytes sep l = None ↔ sep ∉ l.
Proof.
  induction l as [|b l IH]; cbn; [by split; intros; [apply not_elem_of_nil|]|].
  rewrite not_elem_of_cons. destruct (decide (b = sep)) as [->|Hb]; [by split; [|intros [? ?]]|].
  destruct (split_once_bytes sep l) as [[? ?]|]; split; intros H; try done.
  - destruct H as [_ H]. by apply IH in H.
  - split; [done|]. by apply IH.
Qed.

Lemma split_once_bytes_some sep l x y :
  split_once_bytes sep l = Some (x, y) ↔ l = x ++ sep :: y ∧ sep ∉ x.
Proof.
  revert x y. induction l as [|b l IH]; intros x y; cbn.
  { split; [done|]. intros [H _]. by destruct x. }
  destruct (decide (b = sep)) as [->|Hb].
  - split; [intros; simplify_eq; split; [done|apply not_elem_of_nil]|]. intros [H Hx].
    destruct x as [|c x]; cbn in H; simplify_eq; [done|]. by destruct Hx; left.
  - destruct (split_once_bytes sep l) as [[x' y']|] eqn:E; split; intros H; simplify_eq.
    + destruct (proj1 (IH x' y) eq_refl) as [-> ?]. split; [done|].
      apply not_elem_of_cons. split; [done|done].
    + destruct H as [H Hx]. destruct x as [|c x]; cbn in H; simplify_eq.
      apply not_elem_of_cons in Hx as [_ Hx].
      assert (Some (x', y') = Some (x, y)) as Heq by (by apply IH). by simplify_eq.
    + destruct H as [H Hx]. destruct x as [|c x]; cbn in H; simplify_eq.
      apply not_elem_of_cons in Hx as [_ Hx].
      assert (None = Some (x, y)) as Heq by (by apply IH). done.
Qed.

Lemma strip_prefix_bytes_app p l : strip_prefix_bytes p (p ++ l) = Some l.
Proof. induction p as [|b p IH]; cbn; [done|]. by rewrite decide_True. Qed.

Lemma strip_prefix_bytes_some p l r : strip_prefix_bytes p l = Some r ↔ l = p ++ r.
Proof.
  split; [|by intros ->; apply strip_prefix_bytes_app]. revert l.
  induction p as [|b p IH]; intros l H; cbn in *; [by simplify_eq|].
  destruct l as [|c l]; [done|]. case_decide; [|done]. subst. by rewrite <- (IH l).
Qed.

(** ** Decimal numbers *)

Definition digit_byte (d : Z) : byte := byte_of_Z (48 + d).

Fixpoint show_digits (fuel : nat) (n : Z) (acc : list byte) : list byte :=
  match fuel with
  | O => acc
  | S fuel =>
    let acc' := digit_byte (n mod 10) :: acc in
    if n / 10 =? 0 then acc' else show_digits fuel (n / 10) acc'
  end.

(** The digits of a non-negative number. A number has at most one more digit
    than its base-two logarithm. *)
Definition show_unsigned (n : Z) : list byte := show_digits (S (Z.to_nat (Z.log2 n))) n [].

(** [to_string] of an integer. *)
Definition show_Z (z : Z) : string :=
  of_bytes (if z <? 0 then "-"%byte :: show_unsigned (- z) else show_unsigned z).

(** Left padding with zeros, as [{:0width}] does for a non-negative number. *)
Definition pad_zeros (width : nat) (l : list byte) : list byte :=
  replicate (width - length l) "0"%byte ++ l.

(** Accumulate decimal digits onto [acc]; [None] on any other byte. *)
Fixpoint digits_value (acc : Z) (l : list byte) : option Z :=
  match l with
  | [] => Some acc
  | b :: r => if is_ascii_digit b then digits_value (acc * 10 + (Z_of_byte b - 48)) r else None
  end.

(** [str::parse] for an unsigned integer whose largest value is [max]: an
    optional plus sign, at least one digit, no overflow. *)
Definition parse_unsigned (max : Z) (s : string) : option Z :=
  let digits := match as_bytes s with
                | b :: (_ :: _) as r => if decide (b = "+"%byte) then r else as_bytes s
                | l => l
                end in
  match digits with
  | [] => None
  | _ => match digits_value 0 digits with
         | Some v => if v <=? max then Some v else None
         | None => None
         end
  end.

(** [str::parse::<i64>]. *)
Definition parse_i64 (s : string) : option Z :=
  match as_bytes s with
  | b :: (_ :: _) as r =>
    if decide (b = "-"%byte) then
      match digits_value 0 r with
      | Some v => if i64_min <=? - v then Some (- v) else None
      | None => None
      end
    else parse_unsigned i64_max s
  | _ => parse_unsigned i64_max s
  end.

Lemma Z_of_digit_byte d : 0 <= d < 10 → Z_of_byte (digit_byte d) = 48 + d.
Proof. intros H. unfold digit_byte. rewrite Z_of_byte_of_Z, Z.mod_small; lia. Qed.

Lemma is_ascii_digit_spec b : is_ascii_digit b = true ↔ 48 <= Z_of_byte b <= 57.
Proof. unfold is_ascii_digit, byte_between. rewrite andb_true_iff. cbn. lia. Qed.

Lemma is_ascii_digit_byte d : 0 <= d < 10 → is_ascii_digit (digit_byte d) = true.
Proof. intros H. apply is_ascii_digit_spec. rewrite Z_of_digit_byte; lia. Qed.

Lemma digits_value_app acc l r :
  digits_value acc (l ++ r) =
  match digits_value acc l with Some v => digits_value v r | None => None end.
Proof. revert acc. induction l as [|b l IH]; intros acc; cbn; [done|]. by case_match. Qed.

Lemma digits_value_nonneg a l v : digits_value a l = Some v → 0 <= a → 0 <= v.
Proof.
  revert a. induction l as [|b l IH]; intros a H Ha; cbn in H; [by simplify_eq|].
  destruct (is_ascii_digit b) eqn:E; [|done]. apply is_ascii_digit_spec in E. eapply IH; [done|lia].
Qed.

Lemma log2_div10 n : 10 <= n → Z.log2 (n / 10) < Z.log2 n.
Proof.
  intros H. pose proof (Z.div_mod n 10 ltac:(lia)). pose proof (Z.mod_pos_bound n 10 ltac:(lia)).
  assert (Z.log2 (n / 2) < Z.log2 n).
  { replace (n / 2) with (Z.shiftr n 1) by (by rewrite Z.shiftr_div_pow2).
    rewrite Z.log2_shiftr by lia. pose proof (Z.log2_le_mono 10 n H). cbn in *. lia. }
  pose proof (Z.div_mod n 2 ltac:(lia)). pose proof (Z.mod_pos_bound n 2 ltac:(lia)).
  pose proof (Z.log2_le_mono (n / 10) (n / 2) ltac:(lia)). lia.
Qed.

(** The digits written, read back in front of the accumulated tail. *)
Lemma show_digits_value fuel n acc v :
  0 <= n → (Z.to_nat (Z.log2 n) < fuel)%nat →
  ∃ l, show_digits fuel n acc = l ++ acc ∧ l ≠ [] ∧ forallb is_ascii_digit l = true
       ∧ digits_value v l = Some (v * 10 ^ Z.of_nat (length l) + n).
Proof.
  revert n acc v. induction fuel as [|fuel IH]; intros n acc v Hn Hf; [lia|].
  pose proof (Z.div_mod n 10 ltac:(lia)). pose proof (Z.mod_pos_bound n 10 ltac:(lia)).
  cbn [show_digits]. destruct (Z.eqb_spec (n / 10) 0).
  - exists [digit_byte (n mod 10)]. split; [done|]. split; [done|].
    cbn -[digit_byte]. rewrite is_ascii_digit_byte, Z_of_digit_byte by lia.
    split; [done|]. f_equal. lia.
  - assert (10 <= n) by (destruct (Z.lt_ge_cases n 10); [rewrite Z.div_small in *|]; lia).
    pose proof (log2_div10 n ltac:(lia)). pose proof (Z.log2_nonneg (n / 10)).
    destruct (IH (n / 10) (digit_byte (n mod 10) :: acc) v) as (l & -> & Hl & Hd & Hv); [lia..|].
    exists (l ++ [digit_byte (n mod 10)]). rewrite <- app_assoc. split; [done|].
    split; [by destruct l|]. rewrite forallb_app, Hd, digits_value_app, Hv.
    cbn -[digit_byte]. rewrite is_ascii_digit_byte, Z_of_digit_byte by lia. split; [done|].
    f_equal. rewrite length_app, Nat2Z.inj_add. change (Z.of_nat (length [_])) with 1.
    rewrite Z.pow_add_r by lia. lia.
Qed.

Lemma show_unsigned_spec n :
  0 <= n → show_unsigned n ≠ [] ∧ forallb is_ascii_digit (show_unsigned n) = true
           ∧ digits_value 0 (show_unsigned n) = Some n.
Proof.
  intros Hn. unfold show_unsigned.
  destruct (show_digits_value (S (Z.to_nat (Z.log2 n))) n [] 0) as (l & -> & ? & ? & Hv); [lia..|].
  rewrite app_nil_r. split; [done|]. split; [done|]. by rewrite Hv.
Qed.

Lemma digit_not l b c : forallb is_ascii_digit (b :: l) = true → is_ascii_digit c = false → b ≠ c.
Proof. intros H Hc ->. cbn in H. by rewrite Hc in H. Qed.

Lemma parse_show_unsigned max n :
  0 <= n <= max → parse_unsigned max (of_bytes (show_unsigned n)) = Some n.
Proof.
  intros Hn. destruct (show_unsigned_spec n) as (Hne & Hd & Hv); [lia|].
  unfold parse_unsigned. rewrite as_bytes_of_bytes.
  destruct (show_unsigned n) as [|b [|c r]]; [done|..].
  - rewrite Hv. destruct (Z.leb_spec n max); [done|lia].
  - rewrite decide_False by (by eapply digit_not). rewrite Hv.
    destruct (Z.leb_spec n max); [done|lia].
Qed.

(** Every [i64] reads back from its decimal form. *)
Lemma parse_show_i64 z : in_i64 z = true → parse_i64 (show_Z z) = Some z.
Proof.
  unfold in_i64. intros H. bool_arith. unfold show_Z, parse_i64.
  destruct (Z.ltb_spec z 0).
  - rewrite as_bytes_of_bytes. destruct (show_unsigned_spec (- z)) as (Hne & Hd & Hv); [lia|].
    destruct (show_unsigned (- z)) as [|c r] eqn:E; [done|]. rewrite decide_True by done.
    rewrite Hv. destruct (Z.leb_spec i64_min (- - z)); [f_equal; lia|lia].
  - assert (parse_unsigned i64_max (of_bytes (show_unsigned z)) = Some z) as Hp
      by (apply parse_show_unsigned; lia).
    rewrite as_bytes_of_bytes. destruct (show_unsigned_spec z) as (Hne & Hd & Hv); [lia|].
    destruct (show_unsigned z) as [|b [|c r]]; [done..|].
    by rewrite decide_False by (by eapply digit_not).
Qed.

(** A positive number starts with a digit other than zero. *)
Lemma show_digits_head fuel n acc :
  0 < n → (Z.to_nat (Z.log2 n) < fuel)%nat →
  ∃ b r, show_digits fuel n acc = b :: r ∧ byte_between "1" "9" b = true.
Proof.
  revert n acc. induction fuel as [|fuel IH]; intros n acc Hn Hf; [lia|].
  pose proof (Z.div_mod n 10 ltac:(lia)). pose proof (Z.mod_pos_bound n 10 ltac:(lia)).
  cbn [show_digits]. destruct (Z.eqb_spec (n / 10) 0).
  - do 2 eexists. split; [done|]. unfold byte_between. rewrite Z_of_digit_byte by lia.
    apply andb_true_intro. cbn. lia.
  - assert (10 <= n) by (destruct (Z.lt_ge_cases n 10); [rewrite Z.div_small in *|]; lia).
    pose proof (log2_div10 n ltac:(lia)). pose proof (Z.log2_nonneg (n / 10)).
    pose proof (Z.div_pos n 10 ltac:(lia) ltac:(lia)). apply IH; lia.
Qed.

Lemma show_unsigned_head n :
  0 <= n → show_unsigned n = ["0"%byte] ∨ ∃ b r, show_unsigned n = b :: r ∧ byte_between "1" "9" b = true.
Proof.
  intros Hn. destruct (decide (n = 0)) as [->|]; [by left|]. right. apply show_digits_head; lia.
Qed.

Definition is_ascii (b : byte) : bool := Z_of_byte b <? 0x80.

Lemma digits_ascii l : forallb is_ascii_digit l = true → forallb is_ascii l = true.
Proof.
  rewrite !forallb_forall. intros H b Hb. apply H, is_ascii_digit_spec in Hb. unfold is_ascii. lia.
Qed.

Lemma show_unsigned_ascii n : 0 <= n → forallb is_ascii (show_unsigned n) = true.
Proof. intros Hn. apply digits_ascii. by apply show_unsigned_spec. Qed.

(** ASCII text is UTF-8, one character per byte. *)
Lemma decode_ascii l : forallb is_ascii l = true → decode l = Some (Z_of_byte <$> l).
Proof.
  intros Hl. assert (encode_chars (Z_of_byte <$> l) = l ∧ forallb is_scalar (Z_of_byte <$> l) = true) as [He Hs].
  { induction l as [|b l IH]; [done|]. cbn [forallb] in Hl. apply andb_prop in Hl as [Hb Hl].
    destruct (IH Hl) as [He Hs]. unfold is_ascii in Hb. rewrite fmap_cons, encode_chars_cons, He.
    cbn [forallb]. rewrite Hs, andb_true_r. split.
    - unfold encode_char. rewrite Hb. by rewrite byte_of_Z_of_byte.
    - apply is_scalar_spec. pose proof (Z_of_byte_range b). lia. }
  rewrite <- He at 1. by apply decode_encode.
Qed.

Lemma is_str_ascii s : forallb is_ascii (as_bytes s) = true → is_str s = true.
Proof. intros H. unfold is_str. by rewrite decode_ascii. Qed.

Lemma drop_while_head {A} (p : A → bool) x l : p x = false → drop_while p (x :: l) = x :: l.
Proof. intros H. cbn. by rewrite H. Qed.

(** Text that neither starts nor ends with white space is its own trimming. *)
Lemma trim_with_id {A} (p : A → bool) x l y :
  p x = false → p y = false → trim_with p (x :: l ++ [y]) = x :: l ++ [y].
Proof.
  intros Hx Hy. unfold trim_with. rewrite drop_while_head by done.
  change (x :: l ++ [y]) with ((x :: l) ++ [y]). rewrite reverse_app. change (reverse [y]) with [y].
  cbn [app]. rewrite drop_while_head by done. change (y :: reverse (x :: l)) with ([y] ++ reverse (x :: l)).
  by rewrite reverse_app, reverse_involutive.
Qed.

Lemma trim_id s x l y :
  as_bytes s = x :: l ++ [y] → forallb is_ascii (as_bytes s) = true →
  is_whitespace (Z_of_byte x) = false → is_whitespace (Z_of_byte y) = false → trim s = s.
Proof.
  intros Hs Ha Hx Hy. unfold trim. assert (chars s = Z_of_byte <$> as_bytes s) as Hc.
  { unfold chars. by rewrite decode_ascii. }
  assert (trim_with is_whitespace (chars s) = chars s) as ->.
  { rewrite Hc, Hs. rewrite fmap_cons, fmap_app. by apply trim_with_id. }
  by apply of_chars_chars, is_str_ascii.
Qed.

Lemma parse_unsigned_range max s v : parse_unsigned max s = Some v → 0 <= v <= max.
Proof.
  unfold parse_unsigned. generalize (match as_bytes s with
    | b :: (_ :: _) as r => if decide (b = "+"%byte) then r else as_bytes s | l => l end).
  intros digits. destruct digits as [|c r]; [done|].
  destruct (digits_value 0 (c :: r)) as [w|] eqn:E; [|done].
  destruct (Z.leb_spec w max); [|done]. intros; simplify_eq.
  pose proof (digits_value_nonneg _ _ _ E). lia.
Qed.

Lemma parse_i64_range s z : parse_i64 s = Some z → in_i64 z = true.
Proof.
  assert (∀ v, parse_unsigned i64_max s = Some v → in_i64 v = true) as Hu.
  { intros v H%parse_unsigned_range. unfold in_i64, i64_min, i64_max in *. lia. }
  unfold parse_i64. destruct (as_bytes s) as [|b [|c r]]; [auto..|].
  case_decide; [|auto]. destruct (digits_value 0 (c :: r)) as [w|] eqn:E; [|done].
  apply digits_value_nonneg in E; [|lia]. destruct (Z.leb_spec i64_min (- w)); [|done].
  intros; simplify_eq. unfold in_i64, i64_max. lia.
Qed.

Lemma show_digits_length fuel n acc w :
  0 <= n < 10 ^ Z.of_nat w → (0 < w)%nat → (length (show_digits fuel n acc) ≤ w + length acc)%nat.
Proof.
  revert n acc w. induction fuel as [|fuel IH]; intros n acc w Hn Hw; cbn [show_digits]; [lia|].
  destruct (Z.eqb_spec (n / 10) 0); [cbn; lia|].
  destruct w as [|[|w]]; [lia|exfalso; rewrite Z.div_small in *; lia|].
  specialize (IH (n / 10) (digit_byte (n mod 10) :: acc) (S w)). cbn [length] in IH.
  etransitivity; [apply IH|cbn; lia]; [|lia]. split; [apply Z.div_pos; lia|].
  apply Z.div_lt_upper_bound; [lia|]. rewrite (Nat2Z.inj_succ (S w)), Z.pow_succ_r in Hn by lia. lia.
Qed.

Lemma digits_value_zeros k l : digits_value 0 (replicate k "0"%byte ++ l) = digits_value 0 l.
Proof. induction k as [|k IH]; [done|]. cbn. apply IH. Qed.

(** A number that fits is written in exactly [width] digits, and reads back. *)
Lemma pad_zeros_spec width n :
  0 <= n < 10 ^ Z.of_nat width → (0 < width)%nat →
  length (pad_zeros width (show_unsigned n)) = width
  ∧ digits_value 0 (pad_zeros width (show_unsigned n)) = Some n.
Proof.
  intros Hn Hw. pose proof (show_digits_length (S (Z.to_nat (Z.log2 n))) n [] width Hn Hw) as Hl.
  unfold pad_zeros. rewrite length_app, length_replicate, digits_value_zeros.
  fold (show_unsigned n) in Hl. cbn [length] in Hl. split; [lia|]. apply show_unsigned_spec. lia.
Qed.

(** A digit string of a given length is determined by its value. *)
Lemma digits_value_inj l1 l2 a b v :
  length l1 = length l2 → digits_value a l1 = Some v → digits_value b l2 = Some v → a = b ∧ l1 = l2.
Proof.
  revert l2 a b. induction l1 as [|c l1 IH]; intros [|d l2] a b Hl H1 H2; try done; cbn in H1, H2.
  - by simplify_eq.
  - destruct (is_ascii_digit c) eqn:Hc; [|done]. destruct (is_ascii_digit d) eqn:Hd; [|done].
    apply is_ascii_digit_spec in Hc, Hd. cbn in Hl.
    destruct (IH l2 _ _ ltac:(lia) H1 H2) as [Hab ->].
    split; [lia|]. f_equal. apply (inj Z_of_byte). lia.
Qed.

Lemma digits_value_bound l a v :
  digits_value a l = Some v → a * 10 ^ Z.of_nat (length l) <= v < (a + 1) * 10 ^ Z.of_nat (length l).
Proof.
  revert a. induction l as [|c l IH]; intros a H; cbn [digits_value] in H.
  - simplify_eq. cbn. lia.
  - destruct (is_ascii_digit c) eqn:Hc; [|done]. apply is_ascii_digit_spec in Hc. apply IH in H.
    cbn [length]. rewrite Nat2Z.inj_succ, Z.pow_succ_r by lia.
    assert (0 < 10 ^ Z.of_nat (length l)) by (apply Z.pow_pos_nonneg; lia). nia.
Qed.

Lemma digits_value_pad l v :
  l ≠ [] → digits_value 0 l = Some v →
  0 <= v < 10 ^ Z.of_nat (length l) ∧ pad_zeros (length l) (show_unsigned v) = l.
Proof.
  intros Hl H. pose proof (digits_value_bound l 0 v H).
  destruct (pad_zeros_spec (length l) v) as [Hp Hv]; [lia|by destruct l; cbn; [|lia]|].
  split; [lia|]. by destruct (digits_value_inj _ l 0 0 v Hp Hv H).
Qed.
