(* ===== verification/Encoding.v ===== *)
(** * Byte encodings: URL-safe base64 and hexadecimal

    Models [crates/ls-core/src/encoding.rs]. Tokens, unseal shares, sealed
    values and identifiers all travel through these two codecs. *)

From S2P Require Import Prelude Text.
From Stdlib Require Import Strings.Byte.

Module b64.

Definition ALPHABET : list byte :=
  as_bytes "ABCDEFGHIJKLMNOPQRSTUVWXYZabcdefghijklmnopqrstuvwxyz0123456789-_".

Definition alphabet_at (index : Z) : byte := nth (Z.to_nat index) ALPHABET x00.

(** One chunk of up to three bytes: one more character than it has bytes. *)
Definition encode_chunk (chunk : list byte) : list byte :=
  let b0 := Z_of_byte (nth 0 chunk x00) in
  let b1 := Z_of_byte (nth 1 chunk x00) in
  let b2 := Z_of_byte (nth 2 chunk x00) in
  let bits := Z.lor (Z.lor (Z.shiftl b0 16) (Z.shiftl b1 8)) b2 in
  (λ i, alphabet_at (Z.land (Z.shiftr bits (18 - 6 * Z.of_nat i)) 0x3F))
    <$> seq 0 (length chunk + 1).

Definition encode (input : list byte) : string :=
  of_bytes (concat (encode_chunk <$> chunks 3 input)).

Definition value_of (c : byte) : option Z :=
  if byte_between "A" "Z" c then Some (Z_of_byte c - 65)
  else if byte_between "a" "z" c then Some (Z_of_byte c - 97 + 26)
  else if byte_between "0" "9" c then Some (Z_of_byte c - 48 + 52)
  else if decide (c = "-"%byte) then Some 62
  else if decide (c = "_"%byte) then Some 63
  else None.

(** Pack the characters' values from bit 18 down; [None] on a stray character. *)
Fixpoint pack (i : nat) (bits : Z) (chunk : list byte) : option Z :=
  match chunk with
  | [] => Some bits
  | c :: r =>
    match value_of c with
    | Some v => pack (S i) (Z.lor bits (Z.shiftl v (18 - 6 * Z.of_nat i))) r
    | None => None
    end
  end.

Definition unused_bits (len : nat) : Z :=
  match len with 2%nat => 4 | 3%nat => 2 | _ => 0 end.

Definition decode_chunk (chunk : list byte) : option (list byte) :=
  match pack 0 0 chunk with
  | None => None
  | Some bits =>
    let unused := unused_bits (length chunk) in
    if (0 <? unused)
       && negb (Z.land (Z.shiftr bits (24 - 6 * Z.of_nat (length chunk)))
                       (Z.shiftl 1 unused - 1) =? 0)
    then None
    else Some ((λ i, byte_of_Z (Z.land (Z.shiftr bits (16 - 8 * Z.of_nat i)) 0xFF))
                 <$> seq 0 (length chunk - 1))
  end.

Fixpoint decode_chunks (cs : list (list byte)) : option (list byte) :=
  match cs with
  | [] => Some []
  | c :: r =>
    match decode_chunk c with
    | Some bs => app bs <$> decode_chunks r
    | None => None
    end
  end.

Definition decode (input : string) : option (list byte) :=
  let bytes := as_bytes input in
  if bool_decide (length bytes mod 4 = 1)%nat then None
  else decode_chunks (chunks 4 bytes).

Lemma value_of_alphabet i : 0 <= i < 64 → value_of (alphabet_at i) = Some i.
Proof.
  intros H. assert (forallb (λ n, bool_decide (value_of (alphabet_at (Z.of_nat n)) = Some (Z.of_nat n)))
                      (seq 0 64) = true) as Hall by (by vm_compute).
  rewrite forallb_forall in Hall. specialize (Hall (Z.to_nat i)).
  rewrite bool_decide_eq_true, Z2Nat.id in Hall by lia. apply Hall, in_seq. lia.
Qed.

Lemma alphabet_value_of c v : value_of c = Some v → 0 <= v < 64 ∧ alphabet_at v = c.
Proof.
  intros H.
  assert (∀ c, match value_of c with
               | Some v => bool_decide (0 <= v < 64) && bool_decide (alphabet_at v = c)
               | None => true end = true) as Hall by (apply forall_byte; by vm_compute).
  specialize (Hall c). rewrite H in Hall. apply andb_prop in Hall as [?%bool_decide_eq_true ?%bool_decide_eq_true].
  done.
Qed.

Lemma pack_step v bits i :
  0 <= v < 64 → (i < 4)%nat → (2 ^ (24 - 6 * Z.of_nat i) | bits) →
  Z.lor bits (Z.shiftl v (18 - 6 * Z.of_nat i)) = bits + v * 2 ^ (18 - 6 * Z.of_nat i).
Proof.
  intros Hv Hi [q ->]. rewrite Z.shiftl_mul_pow2 by lia.
  rewrite <- Z.add_nocarry_lor; [done|]. apply land_disjoint; [lia|].
  replace (24 - 6 * Z.of_nat i) with (6 + (18 - 6 * Z.of_nat i)) by lia.
  rewrite Z.pow_add_r by lia. assert (0 < 2 ^ (18 - 6 * Z.of_nat i)) by (apply Z.pow_pos_nonneg; lia).
  nia.
Qed.

Lemma pack_cons c r i acc :
  (i < 4)%nat → (2 ^ (24 - 6 * Z.of_nat i) | acc) →
  pack i acc (c :: r) =
  match value_of c with
  | Some v => pack (S i) (acc + v * 2 ^ (18 - 6 * Z.of_nat i)) r
  | None => None
  end.
Proof.
  intros Hi Ha. cbn [pack]. destruct (value_of c) as [v|] eqn:Hv; [|done].
  apply alphabet_value_of in Hv as [Hv _]. by rewrite pack_step.
Qed.

(** Four characters pack into the 24-bit number whose base-64 digits they are. *)
Lemma pack4 c0 c1 c2 c3 :
  pack 0 0 [c0; c1; c2; c3] =
  match value_of c0, value_of c1, value_of c2, value_of c3 with
  | Some v0, Some v1, Some v2, Some v3 => Some (v0 * 262144 + v1 * 4096 + v2 * 64 + v3)
  | _, _, _, _ => None
  end.
Proof.
  rewrite pack_cons by (lia || apply Z.divide_0_r). destruct (value_of c0) as [v0|]; [|done].
  rewrite pack_cons by (lia || (exists v0; cbn; lia)). destruct (value_of c1) as [v1|]; [|done].
  rewrite pack_cons by (lia || (exists (v0 * 64 + v1); cbn; lia)). destruct (value_of c2) as [v2|]; [|done].
  rewrite pack_cons by (lia || (exists (v0 * 4096 + v1 * 64 + v2); cbn; lia)).
  destruct (value_of c3) as [v3|]; [|done]. cbn. f_equal. lia.
Qed.

(** The four base-64 digits of a three-byte chunk. *)
Lemma encode_chunk3 b0 b1 b2 :
  let bits := Z_of_byte b0 * 65536 + Z_of_byte b1 * 256 + Z_of_byte b2 in
  encode_chunk [b0; b1; b2] =
  [alphabet_at (bits / 262144 mod 64); alphabet_at (bits / 4096 mod 64);
   alphabet_at (bits / 64 mod 64); alphabet_at (bits mod 64)].
Proof.
  pose proof (Z_of_byte_range b0). pose proof (Z_of_byte_range b1). pose proof (Z_of_byte_range b2).
  intros bits. unfold encode_chunk. cbn [nth].
  assert (Z.lor (Z.lor (Z.shiftl (Z_of_byte b0) 16) (Z.shiftl (Z_of_byte b1) 8)) (Z_of_byte b2) = bits) as ->.
  { rewrite (Z.shiftl_mul_pow2 (Z_of_byte b1)) by lia.
    rewrite lor_disjoint by lia.
    replace (Z_of_byte b0 * 2 ^ 16 + Z_of_byte b1 * 2 ^ 8)
      with (Z.shiftl (Z_of_byte b0 * 2 ^ 8 + Z_of_byte b1) 8) by (rewrite Z.shiftl_mul_pow2; lia).
    rewrite lor_disjoint by lia. unfold bits. lia. }
  cbn -[Z.land Z.shiftr alphabet_at]. change 63 with (2 ^ 6 - 1).
  by rewrite !land_low_mask, !Z.shiftr_div_pow2, Z.pow_0_r, Z.div_1_r by lia.
Qed.

Lemma digits64 bits :
  0 <= bits < 16777216 →
  bits / 262144 mod 64 * 262144 + bits / 4096 mod 64 * 4096 + bits / 64 mod 64 * 64 + bits mod 64
  = bits.
Proof.
  intros H. pose proof (Z.div_mod bits 64 ltac:(lia)). pose proof (Z.div_mod (bits / 64) 64 ltac:(lia)).
  pose proof (Z.div_mod (bits / 4096) 64 ltac:(lia)).
  assert (bits / 64 / 64 = bits / 4096) as E1 by (by rewrite Z.div_div by lia).
  assert (bits / 4096 / 64 = bits / 262144) as E2 by (by rewrite Z.div_div by lia).
  assert (0 <= bits / 262144 < 64) by (split; [apply Z.div_pos|apply Z.div_lt_upper_bound]; lia).
  rewrite E1 in *. rewrite E2 in *. rewrite (Z.mod_small (bits / 262144)) by lia. lia.
Qed.

Lemma bytes256 b0 b1 b2 :
  0 <= b0 < 256 → 0 <= b1 < 256 → 0 <= b2 < 256 →
  let bits := b0 * 65536 + b1 * 256 + b2 in
  bits / 65536 mod 256 = b0 ∧ bits / 256 mod 256 = b1 ∧ bits mod 256 = b2.
Proof.
  intros H0 H1 H2 bits. unfold bits.
  replace (b0 * 65536 + b1 * 256 + b2) with (b0 * 65536 + (b1 * 256 + b2)) by lia.
  destruct (div_mod_base 65536 b0 (b1 * 256 + b2) ltac:(lia)) as [-> _].
  replace (b0 * 65536 + (b1 * 256 + b2)) with ((b0 * 256 + b1) * 256 + b2) by lia.
  destruct (div_mod_base 256 (b0 * 256 + b1) b2 H2) as [-> ->].
  destruct (div_mod_base 256 b0 b1 H1) as [_ ->]. by rewrite Z.mod_small.
Qed.

Lemma decode_chunk4 c0 c1 c2 c3 :
  decode_chunk [c0; c1; c2; c3] =
  match pack 0 0 [c0; c1; c2; c3] with
  | Some bits => Some [byte_of_Z (bits / 65536); byte_of_Z (bits / 256); byte_of_Z bits]
  | None => None
  end.
Proof.
  unfold decode_chunk. destruct (pack 0 0 _) as [bits|]; [|done]. cbn -[Z.land Z.shiftr byte_of_Z].
  change 255 with (2 ^ 8 - 1). rewrite !land_low_mask, !Z.shiftr_div_pow2, Z.pow_0_r, Z.div_1_r by lia.
  change (2 ^ 8) with 256. f_equal.
  assert (∀ z, byte_of_Z (z mod 256) = byte_of_Z z) as Hm by (intros; unfold byte_of_Z; by rewrite Z.mod_mod).
  by rewrite !Hm.
Qed.

Lemma decode_encode_chunk3 b0 b1 b2 :
  decode_chunk (encode_chunk [b0; b1; b2]) = Some [b0; b1; b2].
Proof.
  pose proof (Z_of_byte_range b0) as H0. pose proof (Z_of_byte_range b1) as H1.
  pose proof (Z_of_byte_range b2) as H2. rewrite encode_chunk3.
  set (bits := Z_of_byte b0 * 65536 + Z_of_byte b1 * 256 + Z_of_byte b2).
  rewrite decode_chunk4, pack4, !value_of_alphabet by (apply Z.mod_pos_bound; lia).
  rewrite digits64 by lia.
  destruct (bytes256 _ _ _ H0 H1 H2) as (E0 & E1 & E2). fold bits in E0, E1, E2.
  assert (∀ z, byte_of_Z (z mod 256) = byte_of_Z z) as Hm by (intros; unfold byte_of_Z; by rewrite Z.mod_mod).
  rewrite <- (Hm (bits / 65536)), <- (Hm (bits / 256)), <- (Hm bits), E0, E1, E2.
  by rewrite !byte_of_Z_of_byte.
Qed.

Lemma encode_decode_chunk4 c0 c1 c2 c3 bs :
  decode_chunk [c0; c1; c2; c3] = Some bs → encode_chunk bs = [c0; c1; c2; c3] ∧ length bs = 3%nat.
Proof.
  rewrite decode_chunk4, pack4.
  destruct (value_of c0) as [v0|] eqn:E0; [|done]. destruct (value_of c1) as [v1|] eqn:E1; [|done].
  destruct (value_of c2) as [v2|] eqn:E2; [|done]. destruct (value_of c3) as [v3|] eqn:E3; [|done].
  apply alphabet_value_of in E0 as [? <-], E1 as [? <-], E2 as [? <-], E3 as [? <-].
  intros [= <-]. split; [|done]. rewrite encode_chunk3, !Z_of_byte_of_Z.
  set (bits := v0 * 262144 + v1 * 4096 + v2 * 64 + v3).
  assert (bits / 65536 mod 256 * 65536 + bits / 256 mod 256 * 256 + bits mod 256 = bits) as ->.
  { pose proof (Z.div_mod bits 256 ltac:(lia)). pose proof (Z.div_mod (bits / 256) 256 ltac:(lia)).
    assert (bits / 256 / 256 = bits / 65536) as E by (by rewrite Z.div_div by lia). rewrite E in *.
    assert (0 <= bits / 65536 < 256) by (split; [apply Z.div_pos|apply Z.div_lt_upper_bound]; lia).
    rewrite (Z.mod_small (bits / 65536)) by lia. lia. }
  unfold bits.
  replace (v0 * 262144 + v1 * 4096 + v2 * 64 + v3) with (((v0 * 64 + v1) * 64 + v2) * 64 + v3) by lia.
  destruct (div_mod_base 64 ((v0 * 64 + v1) * 64 + v2) v3 ltac:(lia)) as [-> ->].
  change 4096 with (64 * 64). change 262144 with (64 * 64 * 64). rewrite <- !Z.div_div by lia.
  destruct (div_mod_base 64 ((v0 * 64 + v1) * 64 + v2) v3 ltac:(lia)) as [-> _].
  destruct (div_mod_base 64 (v0 * 64 + v1) v2 ltac:(lia)) as [-> ->].
  destruct (div_mod_base 64 v0 v1 ltac:(lia)) as [-> ->]. by rewrite Z.mod_small.
Qed.

(** A short chunk is a full one whose missing characters would encode zeros. *)
Lemma pack3 c0 c1 c2 : pack 0 0 [c0; c1; c2] = pack 0 0 [c0; c1; c2; "A"%byte].
Proof. cbn -[Z.lor Z.shiftl]. repeat case_match; try done. by rewrite Z.shiftl_0_l, Z.lor_0_r. Qed.

Lemma pack2 c0 c1 : pack 0 0 [c0; c1] = pack 0 0 [c0; c1; "A"%byte].
Proof. cbn -[Z.lor Z.shiftl]. repeat case_match; try done. by rewrite Z.shiftl_0_l, Z.lor_0_r. Qed.

Lemma land_shift_zero bits n k :
  0 <= n → 0 <= k → (Z.land (Z.shiftr bits n) (Z.shiftl 1 k - 1) =? 0) = (bits / 2 ^ n mod 2 ^ k =? 0).
Proof. intros. by rewrite Z.shiftl_1_l, land_low_mask, Z.shiftr_div_pow2. Qed.

Lemma decode_chunk3 c0 c1 c2 :
  decode_chunk [c0; c1; c2] =
  match pack 0 0 [c0; c1; c2; "A"%byte] with
  | Some bits => if bits / 64 mod 4 =? 0 then Some [byte_of_Z (bits / 65536); byte_of_Z (bits / 256)] else None
  | None => None
  end.
Proof.
  rewrite <- pack3. pose proof (decode_chunk4 c0 c1 c2 "A") as H4. unfold decode_chunk in *.
  rewrite <- pack3 in H4. destruct (pack 0 0 _) as [bits|]; [|done].
  cbn -[Z.land Z.shiftr Z.shiftl byte_of_Z Z.modulo Z.div] in *.
  rewrite land_shift_zero by lia. change (2 ^ 6) with 64. change (2 ^ 2) with 4.
  destruct (_ =? 0); [|done]. by injection H4 as -> ->.
Qed.

Lemma decode_chunk2 c0 c1 :
  decode_chunk [c0; c1] =
  match pack 0 0 [c0; c1; "A"; "A"]%byte with
  | Some bits => if bits / 4096 mod 16 =? 0 then Some [byte_of_Z (bits / 65536)] else None
  | None => None
  end.
Proof.
  rewrite <- pack3, <- pack2. pose proof (decode_chunk4 c0 c1 "A" "A") as H4. unfold decode_chunk in *.
  rewrite <- pack3, <- pack2 in H4. destruct (pack 0 0 _) as [bits|]; [|done].
  cbn -[Z.land Z.shiftr Z.shiftl byte_of_Z Z.modulo Z.div] in *.
  rewrite land_shift_zero by lia. change (2 ^ 12) with 4096. change (2 ^ 4) with 16.
  destruct (_ =? 0); [|done]. by injection H4 as ->.
Qed.

Lemma decode_encode_chunk_short chunk :
  chunk ≠ [] → (length chunk < 3)%nat → decode_chunk (encode_chunk chunk) = Some chunk.
Proof.
  intros Hne Hl. destruct chunk as [|a [|b [|]]]; [done|..|cbn in Hl; lia].
  - pose proof (Z_of_byte_range a) as Ha.
    pose proof (decode_encode_chunk3 a x00 x00) as H. rewrite encode_chunk3 in H.
    change (encode_chunk [a]) with (take 2 (encode_chunk [a; x00; x00])). rewrite encode_chunk3.
    change (Z_of_byte x00) with 0 in *.
    set (bits := Z_of_byte a * 65536 + 0 * 256 + 0) in *. cbn [take]. rewrite decode_chunk2.
    assert (bits / 64 mod 64 = 0 ∧ bits mod 64 = 0 ∧ bits / 4096 mod 16 = 0) as (E1 & E2 & E3).
    { unfold bits. repeat split.
      - replace (_ + _) with (Z_of_byte a * 16 * 64 * 64) by lia. by rewrite Z.div_mul, Z.mod_mul.
      - replace (_ + _) with (Z_of_byte a * 1024 * 64) by lia. by rewrite Z.mod_mul.
      - replace (_ + _) with (Z_of_byte a * 16 * 4096) by lia. by rewrite Z.div_mul, Z.mod_mul. }
    rewrite E1, E2 in H. change (alphabet_at 0) with "A"%byte in H. rewrite decode_chunk4 in H.
    destruct (pack 0 0 _) as [bits'|] eqn:Ep; [|done].
    assert (bits' = bits) as ->.
    { rewrite pack4 in Ep. change (value_of "A") with (Some 0) in Ep.
      rewrite !value_of_alphabet in Ep by (apply Z.mod_pos_bound; lia).
      injection Ep as <-. pose proof (digits64 bits ltac:(lia)) as D. rewrite E1, E2 in D. lia. }
    rewrite E3. by injection H as ->.
  - pose proof (Z_of_byte_range a) as Ha. pose proof (Z_of_byte_range b) as Hb.
    pose proof (decode_encode_chunk3 a b x00) as H. rewrite encode_chunk3 in H.
    change (encode_chunk [a; b]) with (take 3 (encode_chunk [a; b; x00])). rewrite encode_chunk3.
    change (Z_of_byte x00) with 0 in *.
    set (bits := Z_of_byte a * 65536 + Z_of_byte b * 256 + 0) in *. cbn [take]. rewrite decode_chunk3.
    assert (bits mod 64 = 0 ∧ bits / 64 mod 4 = 0) as (E2 & E3).
    { unfold bits. split.
      - replace (_ + _) with ((Z_of_byte a * 1024 + Z_of_byte b * 4) * 64) by lia. by rewrite Z.mod_mul.
      - replace (_ + _) with ((Z_of_byte a * 256 + Z_of_byte b) * 4 * 64) by lia. by rewrite Z.div_mul, Z.mod_mul. }
    rewrite E2 in H. change (alphabet_at 0) with "A"%byte in H. rewrite decode_chunk4 in H.
    destruct (pack 0 0 _) as [bits'|] eqn:Ep; [|done].
    assert (bits' = bits) as ->.
    { rewrite pack4 in Ep. change (value_of "A") with (Some 0) in Ep.
      rewrite !value_of_alphabet in Ep by (apply Z.mod_pos_bound; lia).
      injection Ep as <-. pose proof (digits64 bits ltac:(lia)) as D. rewrite E2 in D. lia. }
    rewrite E3. by injection H as -> ->.
Qed.

Lemma encode_decode_chunk_short chunk bs :
  (2 ≤ length chunk < 4)%nat → decode_chunk chunk = Some bs →
  encode_chunk bs = chunk ∧ (bs ≠ [] ∧ length bs < 3)%nat.
Proof.
  intros Hl H. destruct chunk as [|c0 [|c1 [|c2 [|]]]]; cbn in Hl; try lia; clear Hl.
  - rewrite decode_chunk2 in H. pose proof (decode_chunk4 c0 c1 "A" "A") as H4.
    destruct (pack 0 0 _) as [bits|] eqn:Ep; [|done].
    destruct (Z.eqb_spec (bits / 4096 mod 16) 0) as [E|]; [|done]. injection H as <-.
    split; [|split; [done|cbn; lia]].
    pose proof (encode_decode_chunk4 _ _ _ _ _ H4) as [He _].
    assert (byte_of_Z (bits / 256) = x00 ∧ byte_of_Z bits = x00) as [E1 E2].
    { rewrite pack4 in Ep. change (value_of "A") with (Some 0) in Ep.
      destruct (value_of c0) as [v0|] eqn:E0; [|done]. destruct (value_of c1) as [v1|] eqn:E1; [|done].
      injection Ep as <-. replace (v0 * 262144 + v1 * 4096 + 0 * 64 + 0) with ((v0 * 64 + v1) * 4096) in * by lia.
      rewrite Z.div_mul in E by lia. pose proof (Z.div_mod (v0 * 64 + v1) 16 ltac:(lia)) as Ed.
      rewrite E in Ed. rewrite Ed. split; apply (inj Z_of_byte); rewrite Z_of_byte_of_Z.
      - replace ((16 * _ + 0) * 4096) with ((v0 * 64 + v1) / 16 * 256 * 256) by lia. by rewrite Z.div_mul, Z.mod_mul.
      - replace ((16 * _ + 0) * 4096) with ((v0 * 64 + v1) / 16 * 256 * 256) by lia. by rewrite Z.mod_mul. }
    rewrite E1, E2 in He. apply (f_equal (take 2)) in He. done.
  - rewrite decode_chunk3 in H. pose proof (decode_chunk4 c0 c1 c2 "A") as H4.
    destruct (pack 0 0 _) as [bits|] eqn:Ep; [|done].
    destruct (Z.eqb_spec (bits / 64 mod 4) 0) as [E|]; [|done]. injection H as <-.
    split; [|split; [done|cbn; lia]].
    pose proof (encode_decode_chunk4 _ _ _ _ _ H4) as [He _].
    assert (byte_of_Z bits = x00) as E2.
    { rewrite pack4 in Ep. change (value_of "A") with (Some 0) in Ep.
      destruct (value_of c0) as [v0|] eqn:E0; [|done]. destruct (value_of c1) as [v1|] eqn:E1; [|done].
      destruct (value_of c2) as [v2|] eqn:E3; [|done].
      injection Ep as <-. replace (v0 * 262144 + v1 * 4096 + v2 * 64 + 0) with ((v0 * 4096 + v1 * 64 + v2) * 64) in * by lia.
      rewrite Z.div_mul in E by lia. pose proof (Z.div_mod (v0 * 4096 + v1 * 64 + v2) 4 ltac:(lia)) as Ed.
      rewrite E in Ed. rewrite Ed. apply (inj Z_of_byte). rewrite Z_of_byte_of_Z.
      replace ((4 * _ + 0) * 64) with ((v0 * 4096 + v1 * 64 + v2) / 4 * 256) by lia. by rewrite Z.mod_mul. }
    rewrite E2 in He. apply (f_equal (take 3)) in He. done.
Qed.

Lemma encode_chunk_length chunk : length (encode_chunk chunk) = S (length chunk).
Proof. unfold encode_chunk. rewrite length_fmap, length_seq. lia. Qed.

(** What [encode] writes, chunk by chunk. *)
Lemma encode_cons b0 b1 b2 r :
  concat (encode_chunk <$> chunks 3 ([b0; b1; b2] ++ r)) =
  encode_chunk [b0; b1; b2] ++ concat (encode_chunk <$> chunks 3 r).
Proof. by rewrite chunks_app by (done || lia). Qed.

Lemma decode_encode_chunks bs :
  let out := concat (encode_chunk <$> chunks 3 bs) in
  decode_chunks (chunks 4 out) = Some bs ∧ (length out mod 4 ≠ 1)%nat.
Proof.
  revert bs. apply (chunks_ind 3); [lia|done|intros bs Hne Hl|intros bs r Hl IH]; cbn zeta in *.
  - rewrite (chunks_short 3) by (done || lia). cbn [fmap list_fmap concat]. rewrite app_nil_r.
    pose proof (decode_encode_chunk_short bs Hne ltac:(lia)) as Hd.
    pose proof (encode_chunk_length bs) as Hlen. rewrite chunks_short; [|by destruct (encode_chunk bs)|lia].
    cbn [decode_chunks]. rewrite Hd, Hlen. cbn. rewrite app_nil_r. split; [done|].
    destruct bs as [|? [|? [|]]]; cbn in *; (done || lia).
  - destruct bs as [|b0 [|b1 [|b2 [|]]]]; try (cbn in Hl; lia). rewrite encode_cons.
    destruct IH as [IHd IHl]. rewrite chunks_app by (try apply encode_chunk_length; lia).
    cbn [decode_chunks]. rewrite decode_encode_chunk3, IHd. split; [done|].
    rewrite length_app, encode_chunk_length. cbn [length].
    by rewrite Nat.Div0.add_mod, Nat.add_0_l, Nat.Div0.mod_mod.
Qed.

Lemma encode_decode_chunks cs bs :
  (length cs mod 4 ≠ 1)%nat → decode_chunks (chunks 4 cs) = Some bs →
  concat (encode_chunk <$> chunks 3 bs) = cs.
Proof.
  revert cs bs. apply (chunks_ind 4 (λ cs, ∀ bs, (length cs mod 4 ≠ 1)%nat →
    decode_chunks (chunks 4 cs) = Some bs → concat (encode_chunk <$> chunks 3 bs) = cs));
    [lia|intros bs Hm H|intros cs Hne Hl bs Hm H|intros cs r Hl IH bs Hm H].
  - cbn in H. by simplify_eq.
  - rewrite chunks_short in H by (done || lia). cbn [decode_chunks] in H.
    destruct (decode_chunk cs) as [out|] eqn:E; [|done]. cbn in H. simplify_eq. rewrite app_nil_r.
    rewrite Nat.mod_small in Hm by lia.
    apply encode_decode_chunk_short in E as (E & Hn & ?).
    + rewrite (chunks_short 3) by (done || lia). cbn. by rewrite app_nil_r.
    + destruct cs; cbn in *; [done|lia].
  - destruct cs as [|c0 [|c1 [|c2 [|c3 [|]]]]]; try (cbn in Hl; lia).
    rewrite chunks_app in H by (done || lia). cbn [decode_chunks] in H.
    destruct (decode_chunk [c0; c1; c2; c3]) as [out|] eqn:E; [|done].
    destruct (decode_chunks (chunks 4 r)) as [rest|] eqn:Er; [|done]. cbn in H. simplify_eq.
    apply encode_decode_chunk4 in E as [E Ho].
    rewrite (chunks_app 3) by (done || lia). rewrite fmap_cons, concat_cons, E, IH; [done| |done].
    intros Hr. apply Hm. rewrite length_app, Hl.
    by rewrite Nat.Div0.add_mod, Nat.add_0_l, Nat.Div0.mod_mod.
Qed.

Lemma decode_encode_eq bs : decode (encode bs) = Some bs.
Proof.
  unfold decode, encode. rewrite as_bytes_of_bytes.
  destruct (decode_encode_chunks bs) as [Hd Hl]. by rewrite bool_decide_false.
Qed.

Lemma encode_decode_eq s bs : decode s = Some bs → encode bs = s.
Proof.
  unfold decode, encode. case_bool_decide as Hl; [done|]. intros H.
  rewrite (encode_decode_chunks _ _ Hl H). apply of_bytes_as_bytes.
Qed.

(** Only alphabet characters are written. *)
Lemma alphabet_at_in i : 0 <= i < 64 → alphabet_at i ∈ ALPHABET.
Proof.
  intros Hi. unfold alphabet_at. apply list_elem_of_lookup_2 with (Z.to_nat i).
  destruct (nth_lookup_or_length ALPHABET (Z.to_nat i) x00) as [|Hl]; [done|].
  change (length ALPHABET) with 64%nat in Hl. lia.
Qed.

Lemma encode_alphabet bs : Forall (λ c, c ∈ ALPHABET) (as_bytes (encode bs)).
Proof.
  unfold encode. rewrite as_bytes_of_bytes. apply Forall_concat, Forall_fmap, Forall_forall.
  intros chunk _. apply Forall_fmap, Forall_forall. intros i _.
  apply alphabet_at_in. change 0x3F with (2 ^ 6 - 1). rewrite land_low_mask by lia.
  apply Z.mod_pos_bound. lia.
Qed.

(** C22: Base64 is a bijection between byte strings and the texts the decoder accepts. *)
Theorem b64_canonical s bs : decode s = Some bs ↔ encode bs = s.
Proof. split; [apply encode_decode_eq|intros <-; apply decode_encode_eq]. Qed.
End b64.

Module hex.

Definition DIGITS : list byte := as_bytes "0123456789abcdef".

Definition encode_byte (b : byte) : list byte :=
  [nth (Z.to_nat (Z.shiftr (Z_of_byte b) 4)) DIGITS x00;
   nth (Z.to_nat (Z.land (Z_of_byte b) 0x0F)) DIGITS x00].

Definition encode_bytes (input : list byte) : list byte := concat (encode_byte <$> input).

Definition encode (input : list byte) : string := of_bytes (encode_bytes input).

Definition nibble (c : byte) : option Z :=
  if byte_between "0" "9" c then Some (Z_of_byte c - 48)
  else if byte_between "a" "f" c then Some (Z_of_byte c - 97 + 10)
  else if byte_between "A" "F" c then Some (Z_of_byte c - 65 + 10)
  else None.

(** The pairs of [chunks(2)] of an even-length input. *)
Fixpoint decode_pairs (l : list byte) : option (list byte) :=
  match l with
  | a :: b :: r =>
    match nibble a, nibble b with
    | Some hi, Some lo => cons (byte_of_Z (Z.lor (Z.shiftl hi 4) lo)) <$> decode_pairs r
    | _, _ => None
    end
  | _ => Some []
  end.

Definition decode (input : string) : option (list byte) :=
  let bytes := as_bytes input in
  if negb (bool_decide (length bytes mod 2 = 0)%nat) then None else decode_pairs bytes.

Lemma decode_pairs_byte b r :
  decode_pairs (encode_byte b ++ r) = cons b <$> decode_pairs r.
Proof.
  unfold encode_byte. cbn [app decode_pairs].
  set (hi := nth _ _ _). set (lo := nth _ _ x00).
  assert (nibble hi = Some (Z.shiftr (Z_of_byte b) 4) ∧ nibble lo = Some (Z.land (Z_of_byte b) 15)
          ∧ byte_of_Z (Z.lor (Z.shiftl (Z.shiftr (Z_of_byte b) 4) 4) (Z.land (Z_of_byte b) 15)) = b)
    as (-> & -> & ->) by (unfold hi, lo; clear; by_bytes1 b). done.
Qed.

Lemma encode_bytes_cons b bs : encode_bytes (b :: bs) = encode_byte b ++ encode_bytes bs.
Proof. done. Qed.

Lemma length_encode_bytes bs : length (encode_bytes bs) = (2 * length bs)%nat.
Proof.
  induction bs as [|b bs IH]; [done|]. rewrite encode_bytes_cons, length_app, IH. cbn. lia.
Qed.

Lemma decode_encode_bytes bs : decode_pairs (encode_bytes bs) = Some bs.
Proof.
  induction bs as [|b bs IH]; [done|].
  by rewrite encode_bytes_cons, decode_pairs_byte, IH.
Qed.

Lemma hex_decode_encode bs : decode (encode bs) = Some bs.
Proof.
  unfold decode, encode. rewrite as_bytes_of_bytes, length_encode_bytes, Nat.mul_comm, Nat.Div0.mod_mul.
  apply decode_encode_bytes.
Qed.

(** Every byte string reads back from its hexadecimal form. *)
Theorem hex_roundtrip bs : decode (encode bs) = Some bs.
Proof. apply hex_decode_encode. Qed.

Lemma encode_byte_ascii b : forallb (λ c, is_ascii_digit c || is_ascii_lowercase c) (encode_byte b) = true.
Proof. by_bytes1 b. Qed.

Lemma encode_ascii bs : forallb (λ c, is_ascii_digit c || is_ascii_lowercase c) (as_bytes (encode bs)) = true.
Proof.
  unfold encode. rewrite as_bytes_of_bytes. induction bs as [|b bs IH]; [done|].
  by rewrite encode_bytes_cons, forallb_app, encode_byte_ascii, IH.
Qed.
End hex.
