(* ===== verification/Timestamp.v ===== *)
(** * UTC timestamps and their RFC 3339 form

    Models [crates/ls-core/src/time.rs]: a timestamp is a clamped count of
    seconds, rendered as [YYYY-MM-DDTHH:MM:SSZ] through Hinnant's civil-date
    conversions, and read back exactly. *)

From S2P Require Import Prelude Text.
From Stdlib Require Import Strings.Byte.

Module Timestamp.

(** [struct Timestamp(i64)]. *)
Record t := mk { seconds : Z }.

#[global] Instance t_eq_dec : EqDecision t.
Proof. solve_decision. Defined.

Definition MIN_UNIX : Z := -62167219200.
Definition MAX_UNIX : Z := 253402300799.

Definition from_unix (s : Z) : t :=
  if s <? MIN_UNIX then mk MIN_UNIX
  else if MAX_UNIX <? s then mk MAX_UNIX
  else mk s.

Definition unix_seconds (self : t) : Z := seconds self.

(** [now], from what the system clock said: nanoseconds since the epoch,
    negative before it. *)
Definition of_clock (nanos : Z) : t :=
  if 0 <=? nanos then
    let secs := nanos / 1000000000 in
    from_unix (if secs <=? i64_max then secs else i64_max)
  else
    let secs := (- nanos) / 1000000000 in
    from_unix (if secs <=? i64_max then - secs else i64_min).

Definition plus_seconds (self : t) (s : Z) : t :=
  from_unix (i64_saturating_add (seconds self) s).

(** ** The civil calendar. [/] and [%] truncate, as on [i64]. *)

Definition is_leap_year (year : Z) : bool :=
  ((Z.rem year 4 =? 0) && negb (Z.rem year 100 =? 0)) || (Z.rem year 400 =? 0).

Definition days_in_month (year month : Z) : Z :=
  if (month =? 1) || (month =? 3) || (month =? 5) || (month =? 7) || (month =? 8)
     || (month =? 10) || (month =? 12) then 31
  else if (month =? 4) || (month =? 6) || (month =? 9) || (month =? 11) then 30
  else if month =? 2 then (if is_leap_year year then 29 else 28)
  else 0.

Definition days_from_civil (year month day : Z) : Z :=
  let year := if month <=? 2 then year - 1 else year in
  let era := Z.quot (if 0 <=? year then year else year - 399) 400 in
  let year_of_era := year - era * 400 in
  let day_of_year :=
    Z.quot (153 * (month + (if 2 <? month then -3 else 9)) + 2) 5 + day - 1 in
  let day_of_era :=
    year_of_era * 365 + Z.quot year_of_era 4 - Z.quot year_of_era 100 + day_of_year in
  era * 146097 + day_of_era - 719468.

Definition civil_from_days (days : Z) : Z * Z * Z :=
  let days := days + 719468 in
  let era := Z.quot (if 0 <=? days then days else days - 146096) 146097 in
  let day_of_era := days - era * 146097 in
  let year_of_era :=
    Z.quot (day_of_era - Z.quot day_of_era 1460 + Z.quot day_of_era 36524
            - Z.quot day_of_era 146096) 365 in
  let year := year_of_era + era * 400 in
  let day_of_year :=
    day_of_era - (365 * year_of_era + Z.quot year_of_era 4 - Z.quot year_of_era 100) in
  let shifted_month := Z.quot (5 * day_of_year + 2) 153 in
  let day := day_of_year - Z.quot (153 * shifted_month + 2) 5 + 1 in
  let month := shifted_month + (if shifted_month <? 10 then 3 else -9) in
  (year + (if month <=? 2 then 1 else 0), month, day).

(** ** Rendering and parsing *)

Definition pad (width : nat) (n : Z) : list byte := pad_zeros width (show_unsigned n).

Definition render (year month day hour minute second : Z) : list byte :=
  pad 4 year ++ "-"%byte :: pad 2 month ++ "-"%byte :: pad 2 day ++ "T"%byte ::
  pad 2 hour ++ ":"%byte :: pad 2 minute ++ ":"%byte :: pad 2 second ++ ["Z"%byte].

Definition to_rfc3339 (self : t) : string :=
  let days := seconds self / 86400 in
  let second_of_day := seconds self mod 86400 in
  let '(year, month, day) := civil_from_days days in
  of_bytes (render year month day (Z.quot second_of_day 3600)
              (Z.quot (Z.rem second_of_day 3600) 60) (Z.rem second_of_day 60)).

(** A fixed-width run of digits; the accumulator starts at zero. *)
Definition number (digits : list byte) : option Z := digits_value 0 digits.

Definition field (bytes : list byte) (first last : nat) : list byte :=
  take (last - first) (drop first bytes).

Definition byte_at (bytes : list byte) (i : nat) (b : byte) : bool :=
  bool_decide (bytes !! i = Some b).

Definition parse_rfc3339 (text : string) : option t :=
  let bytes := as_bytes text in
  if negb (bool_decide (length bytes = 20%nat)) then None
  else if negb (byte_at bytes 4 "-" && byte_at bytes 7 "-" && byte_at bytes 10 "T") then None
  else if negb (byte_at bytes 13 ":" && byte_at bytes 16 ":" && byte_at bytes 19 "Z") then None
  else
    year ← number (field bytes 0 4);
    month ← number (field bytes 5 7);
    day ← number (field bytes 8 10);
    hour ← number (field bytes 11 13);
    minute ← number (field bytes 14 16);
    second ← number (field bytes 17 19);
    if negb ((1 <=? month) && (month <=? 12)) || (day <? 1) || (days_in_month year month <? day)
    then None
    else if (23 <? hour) || (59 <? minute) || (59 <? second) then None
    else
      let days := days_from_civil year month day in
      Some (mk (days * 86400 + hour * 3600 + minute * 60 + second)).

(** The invariant every constructor keeps. *)
Definition wf (self : t) : Prop := MIN_UNIX <= seconds self <= MAX_UNIX.

(** ** The calendar arithmetic *)

Lemma quot_floor a n :
  0 < n → Z.quot (if 0 <=? a then a else a - (n - 1)) n = a / n.
Proof.
  intros Hn. destruct (Z.leb_spec 0 a); [by rewrite Z.quot_div_nonneg by lia|].
  pose proof (Z.div_mod a n ltac:(lia)). pose proof (Z.mod_pos_bound a n Hn).
  symmetry.
  replace (a - (n - 1)) with (- (n - 1 - a)) by lia.
  rewrite Z.quot_opp_l, Z.quot_div_nonneg by lia.
  apply Z.opp_inj. rewrite Z.opp_involutive.
  apply Z.div_unique with (r := n - 1 - a mod n); nia.
Qed.

(** The first day of a March-based year within its era, and the year of a day. *)
Definition year_start (yoe : Z) : Z := yoe * 365 + yoe / 4 - yoe / 100.
Definition year_of (doe : Z) : Z := (doe - doe / 1460 + doe / 36524 - doe / 146096) / 365.

Lemma year_of_mono a b : 0 <= a <= b → b <= 146096 → year_of a <= year_of b.
Proof.
  intros Hab Hb. unfold year_of. apply Z.div_le_mono; [lia|].
  pose proof (Z.div_mod a 1460 ltac:(lia)). pose proof (Z.mod_pos_bound a 1460 ltac:(lia)).
  pose proof (Z.div_mod b 1460 ltac:(lia)). pose proof (Z.mod_pos_bound b 1460 ltac:(lia)).
  assert (a / 36524 <= b / 36524) by (apply Z.div_le_mono; lia).
  destruct (decide (b = 146096)) as [->|Hne].
  - destruct (decide (a = 146096)) as [->|]; [lia|]. rewrite (Z.div_small a 146096) by lia.
    change (146096 / 146096) with 1. change (146096 / 36524) with 4 in *.
    change (146096 / 1460) with 100 in *. assert (a / 36524 < 4) by (apply Z.div_lt_upper_bound; lia). lia.
  - rewrite (Z.div_small a 146096), (Z.div_small b 146096) by lia. lia.
Qed.

(** [year_of] is right on the first and last day of each of the 400 years,
    hence, being monotone, on every day. *)
Definition year_ok (n : nat) : bool :=
  let y := Z.of_nat n in
  let last := if is_leap_year (y + 1) then 365 else 364 in
  (year_of (year_start y) =? y) && (year_of (year_start y + last) =? y)
  && ((year_start y + last + 1 =? year_start (y + 1)) || (y =? 399)).

Lemma years_ok y :
  0 <= y < 400 →
  let last := if is_leap_year (y + 1) then 365 else 364 in
  year_of (year_start y) = y ∧ year_of (year_start y + last) = y
  ∧ (year_start y + last + 1 = year_start (y + 1) ∨ y = 399).
Proof.
  intros Hy last. assert (forallb year_ok (seq 0 400) = true) as H by (by vm_compute).
  rewrite forallb_forall in H. specialize (H (Z.to_nat y) ltac:(apply in_seq; lia)).
  unfold year_ok in H. rewrite Z2Nat.id in H by lia. fold last in H.
  apply andb_prop in H as [[H1 H2]%andb_prop H3]. apply orb_prop in H3.
  rewrite !Z.eqb_eq in H3. lia.
Qed.

Lemma year_of_spec doe :
  0 <= doe < 146097 →
  let y := year_of doe in
  let doy := doe - year_start y in
  0 <= y < 400 ∧ 0 <= doy <= 365 ∧ (doy = 365 → is_leap_year (y + 1) = true).
Proof.
  intros Hd y doy.
  assert (0 <= y) as Hy0 by (change 0 with (year_of 0); apply year_of_mono; lia).
  assert (y <= 399) as Hy399 by (change 399 with (year_of 146096); apply year_of_mono; lia).
  destruct (years_ok y ltac:(lia)) as (Hs & He & Hn). set (last := if is_leap_year (y + 1) then 365 else 364) in *.
  assert (last = 365 ∧ is_leap_year (y + 1) = true ∨ last = 364) as Hlast.
  { unfold last. destruct (is_leap_year (y + 1)); lia. }
  assert (0 <= year_start y ∧ year_start y + last < 146097) as [Hs0 Hl].
  { unfold year_start, last. destruct (is_leap_year (y + 1)) eqn:E.
    all: pose proof (Z.div_mod y 4 ltac:(lia)); pose proof (Z.mod_pos_bound y 4 ltac:(lia)).
    all: pose proof (Z.div_mod y 100 ltac:(lia)); pose proof (Z.mod_pos_bound y 100 ltac:(lia)).
    all: destruct (decide (y = 399)) as [->|]; [cbn; lia|]; lia. }
  assert (year_start y <= doe) as Hlo.
  { destruct (Z.le_gt_cases (year_start y) doe) as [|Hlt]; [done|exfalso].
    destruct (decide (y = 0)) as [E|]; [rewrite E in Hlt; change (year_start 0) with 0 in Hlt; lia|].
    destruct (years_ok (y - 1) ltac:(lia)) as (_ & He' & [Hn'|]); [|lia].
    replace (y - 1 + 1) with y in * by lia. set (last' := if is_leap_year y then 365 else 364) in *.
    pose proof (year_of_mono doe (year_start (y - 1) + last') ltac:(lia) ltac:(lia)) as Hm.
    fold y in Hm. lia. }
  assert (doe <= year_start y + last) as Hhi.
  { destruct (Z.le_gt_cases doe (year_start y + last)) as [|Hgt]; [done|exfalso].
    destruct (decide (y = 399)) as [E|].
    - assert (year_start y + last = 146096) by (unfold last; rewrite E; reflexivity). lia.
    - destruct Hn as [Hn|]; [|done]. destruct (years_ok (y + 1) ltac:(lia)) as (Hs' & _ & _).
      pose proof (year_of_mono (year_start (y + 1)) doe ltac:(lia) ltac:(lia)) as Hm. fold y in Hm. lia. }
  unfold doy. split; [lia|]. split; [lia|]. intros. destruct Hlast as [[_ ?]|]; [done|lia].
Qed.

(** The month and day of a day of the March-based year. *)
Definition month_day (doy : Z) : Z * Z :=
  let mp := Z.quot (5 * doy + 2) 153 in
  (mp + (if mp <? 10 then 3 else -9), doy - Z.quot (153 * mp + 2) 5 + 1).

Definition doy_of (month day : Z) : Z :=
  Z.quot (153 * (month + (if 2 <? month then -3 else 9)) + 2) 5 + day - 1.

Definition doy_ok (n : nat) : bool :=
  let doy := Z.of_nat n in
  let '(month, day) := month_day doy in
  (1 <=? month) && (month <=? 12) && (1 <=? day) && (doy_of month day =? doy)
  && Bool.eqb (month <=? 2) (306 <=? doy)
  && (day <=? days_in_month 2000 month) && ((day <=? days_in_month 2001 month) || (doy =? 365)).

Lemma month_day_spec doy :
  0 <= doy <= 365 →
  let '(month, day) := month_day doy in
  1 <= month <= 12 ∧ 1 <= day ∧ doy_of month day = doy ∧ (month <=? 2) = (306 <=? doy)
  ∧ day <= days_in_month 2000 month ∧ (doy = 365 ∨ day <= days_in_month 2001 month).
Proof.
  intros Hy. assert (forallb doy_ok (seq 0 366) = true) as H by (by vm_compute).
  rewrite forallb_forall in H. specialize (H (Z.to_nat doy) ltac:(apply in_seq; lia)).
  unfold doy_ok in H. rewrite Z2Nat.id in H by lia. destruct (month_day doy) as [month day].
  rewrite !andb_true_iff, orb_true_iff, eqb_true_iff, !Z.leb_le, !Z.eqb_eq in H. lia.
Qed.

Lemma days_in_month_year year month :
  days_in_month year month = if is_leap_year year then days_in_month 2000 month
                             else days_in_month 2001 month.
Proof. unfold days_in_month. destruct (is_leap_year year); repeat case_match; done. Qed.

Lemma days_in_month_bounds month :
  days_in_month 2001 month <= days_in_month 2000 month <= 31
  ∧ (month = 2 ∨ days_in_month 2001 month = days_in_month 2000 month).
Proof.
  unfold days_in_month. change (is_leap_year 2001) with false. change (is_leap_year 2000) with true.
  destruct (Z.eqb_spec month 2) as [->|]; [cbn; lia|]. repeat case_match; lia.
Qed.

Lemma is_leap_year_era y era :
  0 <= y → 0 <= y + era * 400 → is_leap_year (y + era * 400) = is_leap_year y.
Proof.
  intros. unfold is_leap_year. rewrite !Z.rem_mod_nonneg by lia.
  rewrite Z.mod_add by lia.
  replace (era * 400) with (era * 100 * 4) by lia. rewrite Z.mod_add by lia.
  replace (era * 100 * 4) with (era * 4 * 100) by lia. by rewrite Z.mod_add by lia.
Qed.

Lemma day_ok_valid year month day :
  1 <= month <= 12 → 1 <= day <= days_in_month year month →
  0 <= doy_of month day <= 365 ∧ month_day (doy_of month day) = (month, day)
  ∧ (doy_of month day = 365 → is_leap_year year = true)
  ∧ (month <=? 2) = (306 <=? doy_of month day).
Proof.
  intros Hm Hd.
  pose (ok m d := let month := Z.of_nat m in let day := Z.of_nat d in
    negb ((1 <=? day) && (day <=? days_in_month 2000 month))
    || ((0 <=? doy_of month day) && (doy_of month day <=? 365)
        && bool_decide (month_day (doy_of month day) = (month, day))
        && (negb (doy_of month day =? 365) || (days_in_month 2001 month <? day))
        && Bool.eqb (month <=? 2) (306 <=? doy_of month day))).
  assert (forallb (λ m, forallb (ok m) (seq 0 32)) (seq 1 12) = true) as H by (by vm_compute).
  assert (day <= days_in_month 2000 month) as Hd2.
  { rewrite days_in_month_year in Hd. destruct (is_leap_year year); [lia|].
    pose proof (days_in_month_bounds month). lia. }
  destruct (days_in_month_bounds month) as [[_ H31] _].
  rewrite forallb_forall in H. specialize (H (Z.to_nat month) ltac:(apply in_seq; lia)).
  rewrite forallb_forall in H. specialize (H (Z.to_nat day) ltac:(apply in_seq; lia)).
  unfold ok in H. rewrite !Z2Nat.id in H by lia. cbv zeta in H.
  rewrite (proj2 (Z.leb_le 1 day)), (proj2 (Z.leb_le day _) Hd2) in H by lia. cbn [andb negb orb] in H.
  apply andb_prop in H as [[[[?%Z.leb_le ?%Z.leb_le]%andb_prop ?%bool_decide_eq_true]%andb_prop Hl]%andb_prop
    ?%eqb_prop].
  split; [lia|]. split; [done|]. split; [|done]. intros E. rewrite E in Hl. cbn in Hl.
  apply Z.ltb_lt in Hl. rewrite days_in_month_year in Hd. destruct (is_leap_year year); [done|lia].
Qed.

(** Truncating division agrees with flooring division where the code divides. *)
Lemma civil_from_days_floor days :
  let z := days + 719468 in
  let era := z / 146097 in
  let doe := z mod 146097 in
  let yoe := year_of doe in
  let '(month, day) := month_day (doe - year_start yoe) in
  civil_from_days days = (yoe + era * 400 + (if month <=? 2 then 1 else 0), month, day).
Proof.
  intros z era doe yoe. unfold civil_from_days. fold z.
  change (z - 146096) with (z - (146097 - 1)). rewrite (quot_floor z 146097) by lia. fold era.
  assert (z - era * 146097 = doe) as -> by (unfold doe, era; rewrite Z.mod_eq by lia; lia).
  assert (0 <= doe < 146097) as Hdoe by (apply Z.mod_pos_bound; lia).
  destruct (year_of_spec doe Hdoe) as (Hy & Hdoy & _). fold yoe in Hy, Hdoy.
  rewrite (Z.quot_div_nonneg doe 1460), (Z.quot_div_nonneg doe 36524), (Z.quot_div_nonneg doe 146096) by lia.
  assert (0 <= doe - doe / 1460 + doe / 36524 - doe / 146096).
  { pose proof (Z.div_mod doe 1460 ltac:(lia)). pose proof (Z.mod_pos_bound doe 1460 ltac:(lia)).
    assert (doe / 146096 <= doe / 36524) by (apply Z.div_le_compat_l; lia). lia. }
  rewrite (Z.quot_div_nonneg (doe - _ + _ - _) 365) by lia. fold (year_of doe). fold yoe.
  rewrite (Z.quot_div_nonneg yoe 4), (Z.quot_div_nonneg yoe 100) by lia.
  replace (doe - (365 * yoe + yoe / 4 - yoe / 100)) with (doe - year_start yoe) by (unfold year_start; lia).
  by unfold month_day.
Qed.

Lemma days_from_civil_floor year month day :
  let y := if month <=? 2 then year - 1 else year in
  days_from_civil year month day =
  y / 400 * 146097 + year_start (y mod 400) + doy_of month day - 719468.
Proof.
  intros y. unfold days_from_civil. fold y.
  change (y - 399) with (y - (400 - 1)). rewrite quot_floor by lia.
  assert (y - y / 400 * 400 = y mod 400) as -> by (rewrite Z.mod_eq by lia; lia).
  pose proof (Z.mod_pos_bound y 400 ltac:(lia)).
  rewrite (Z.quot_div_nonneg (y mod 400) 4), (Z.quot_div_nonneg (y mod 400) 100) by lia.
  unfold year_start, doy_of. lia.
Qed.

Definition civil_ok (year month day : Z) : Prop :=
  0 <= year <= 9999 ∧ 1 <= month <= 12 ∧ 1 <= day <= days_in_month year month.

Lemma year_start_bounds y : 0 <= y < 400 → 365 * y <= year_start y <= 365 * y + 96 ∧ (y <= 398 → year_start y <= 145366).
Proof.
  intros H. unfold year_start.
  pose proof (Z.div_mod y 4 ltac:(lia)). pose proof (Z.mod_pos_bound y 4 ltac:(lia)).
  pose proof (Z.div_mod y 100 ltac:(lia)). pose proof (Z.mod_pos_bound y 100 ltac:(lia)). lia.
Qed.

Lemma civil_from_days_valid days :
  -719528 <= days <= 2932896 →
  let '(year, month, day) := civil_from_days days in
  civil_ok year month day ∧ days_from_civil year month day = days.
Proof.
  intros Hd. pose proof (civil_from_days_floor days) as H. cbv zeta in H.
  set (z := days + 719468) in *. pose proof (Z.div_mod z 146097 ltac:(lia)) as Hz.
  pose proof (Z.mod_pos_bound z 146097 ltac:(lia)) as Hdoe.
  set (era := z / 146097) in *. set (doe := z mod 146097) in *.
  destruct (year_of_spec doe Hdoe) as (Hy & Hdoy & Hleap).
  set (yoe := year_of doe) in *. set (doy := doe - year_start yoe) in *.
  pose proof (month_day_spec doy Hdoy) as Hmd. destruct (month_day doy) as [month day].
  rewrite H. destruct Hmd as (Hm & Hday & Hinv & Hm2 & Hd0 & Hd1).
  destruct (year_start_bounds yoe ltac:(lia)) as [Hys Hys'].
  assert (yoe = 399 → year_start yoe = 145731) as H399 by (intros ->; done).
  split; [split; [|split; [lia|]]|].
  - destruct (Z.leb_spec month 2); symmetry in Hm2; [apply Z.leb_le in Hm2|apply Z.leb_gt in Hm2];
      unfold z, doy in *; nia.
  - split; [lia|].
    destruct (days_in_month_bounds month) as [_ [->|Heq]].
    + rewrite days_in_month_year. destruct Hd1 as [Hd1|Hd1]; [|destruct (is_leap_year (yoe + era * 400 + _)); assumption].
      change (2 <=? 2) with true. cbv iota.
      replace (yoe + era * 400 + 1) with (yoe + 1 + era * 400) by lia.
      rewrite is_leap_year_era, Hleap by (unfold z, doy in *; nia). lia.
    + rewrite days_in_month_year. destruct (is_leap_year (yoe + era * 400 + _)); lia.
  - rewrite days_from_civil_floor, Hinv.
    assert ((if month <=? 2 then yoe + era * 400 + (if month <=? 2 then 1 else 0) - 1
             else yoe + era * 400 + (if month <=? 2 then 1 else 0)) = era * 400 + yoe) as ->
      by (destruct (month <=? 2); lia).
    destruct (div_mod_base 400 era yoe ltac:(lia)) as [-> ->]. unfold doy, z in *. lia.
Qed.

Lemma days_from_civil_valid year month day :
  civil_ok year month day →
  let days := days_from_civil year month day in
  -719528 <= days <= 2932896 ∧ civil_from_days days = (year, month, day).
Proof.
  intros (Hy & Hm & Hd) days. subst days. rewrite days_from_civil_floor.
  destruct (day_ok_valid year month day Hm Hd) as (Hr & Hmd & Hleap & H2).
  set (y := if month <=? 2 then year - 1 else year) in *.
  assert (y = if month <=? 2 then year - 1 else year) as Hydef by done.
  pose proof (Z.div_mod y 400 ltac:(lia)) as Hdm. pose proof (Z.mod_pos_bound y 400 ltac:(lia)) as Hmod.
  set (era := y / 400) in *. set (yoe := y mod 400) in *. set (doy := doy_of month day) in *.
  destruct (year_start_bounds yoe ltac:(lia)) as [Hys Hys'].
  assert (yoe = 399 → year_start yoe = 145731) as H399 by (intros ->; done).
  assert (doy = 365 → is_leap_year (yoe + 1) = true) as Hleap'.
  { intros E. specialize (Hleap E). rewrite E in H2. cbn in H2. rewrite H2 in Hydef.
    rewrite <- (is_leap_year_era (yoe + 1) era) by lia.
    by replace (yoe + 1 + era * 400) with year by lia. }
  destruct (years_ok yoe ltac:(lia)) as (Hs & He & Hn).
  set (last := if is_leap_year (yoe + 1) then 365 else 364) in *.
  assert (doy <= last).
  { unfold last. destruct (is_leap_year (yoe + 1)); [lia|]. destruct (decide (doy = 365)); [|lia].
    by specialize (Hleap' ltac:(done)). }
  assert (0 <= year_start yoe + doy < 146097) as Hdoe.
  { destruct (decide (yoe = 399)) as [E|]; [specialize (H399 E)|]; lia. }
  assert (year_of (year_start yoe + doy) = yoe) as Hyear.
  { assert (year_start yoe + last < 146097).
    { unfold last. destruct (decide (yoe = 399)) as [E|]; [specialize (H399 E)|]; destruct (is_leap_year (yoe + 1)); lia. }
    pose proof (year_of_mono (year_start yoe) (year_start yoe + doy) ltac:(lia) ltac:(lia)).
    pose proof (year_of_mono (year_start yoe + doy) (year_start yoe + last) ltac:(lia) ltac:(lia)). lia. }
  split.
  - destruct (Z.leb_spec month 2); symmetry in H2; [apply Z.leb_le in H2|apply Z.leb_gt in H2]; nia.
  - pose proof (civil_from_days_floor (era * 146097 + year_start yoe + doy - 719468)) as Hc. cbv zeta in Hc.
    replace (era * 146097 + year_start yoe + doy - 719468 + 719468)
      with (era * 146097 + (year_start yoe + doy)) in Hc by lia.
    destruct (div_mod_base 146097 era (year_start yoe + doy) Hdoe) as [E1 E2]. rewrite E1, E2, Hyear in Hc.
    replace (year_start yoe + doy - year_start yoe) with doy in Hc by lia. rewrite Hmd in Hc. rewrite Hc.
    f_equal. f_equal. destruct (month <=? 2); lia.
Qed.

Lemma pad_spec width n :
  0 <= n < 10 ^ Z.of_nat width → (0 < width)%nat →
  length (pad width n) = width ∧ number (pad width n) = Some n.
Proof. apply pad_zeros_spec. Qed.

Lemma length2 {A} (l : list A) : length l = 2%nat → ∃ a b, l = [a; b].
Proof. destruct l as [|a [|b [|]]]; try done. by exists a, b. Qed.

Lemma length4 {A} (l : list A) : length l = 4%nat → ∃ a b c d, l = [a; b; c; d].
Proof. destruct l as [|a [|b [|c [|d [|]]]]]; try done. by exists a, b, c, d. Qed.

(** Reading back a rendered date and time gives its fields. *)
Lemma parse_render year month day hour minute second :
  civil_ok year month day → 0 <= hour <= 23 → 0 <= minute <= 59 → 0 <= second <= 59 →
  parse_rfc3339 (of_bytes (render year month day hour minute second)) =
  Some (mk (days_from_civil year month day * 86400 + hour * 3600 + minute * 60 + second)).
Proof.
  intros (Hy & Hm & Hd) Hh Hmi Hs.
  assert (days_in_month year month <= 31) as H31.
  { rewrite days_in_month_year. pose proof (days_in_month_bounds month). destruct (is_leap_year year); lia. }
  destruct (pad_spec 4 year) as [Ly Vy]; [cbn; lia|lia|].
  destruct (pad_spec 2 month) as [Lm Vm]; [cbn; lia|lia|].
  destruct (pad_spec 2 day) as [Ld Vd]; [cbn; lia|lia|].
  destruct (pad_spec 2 hour) as [Lh Vh]; [cbn; lia|lia|].
  destruct (pad_spec 2 minute) as [Li Vi]; [cbn; lia|lia|].
  destruct (pad_spec 2 second) as [Ls Vs]; [cbn; lia|lia|].
  apply length4 in Ly as (y0 & y1 & y2 & y3 & Ey). apply length2 in Lm as (m0 & m1 & Em).
  apply length2 in Ld as (d0 & d1 & Ed). apply length2 in Lh as (h0 & h1 & Eh).
  apply length2 in Li as (i0 & i1 & Ei). apply length2 in Ls as (s0 & s1 & Es).
  unfold parse_rfc3339, render. rewrite as_bytes_of_bytes, Ey, Em, Ed, Eh, Ei, Es in *.
  cbn -[number days_from_civil Z.mul Z.add Z.leb Z.ltb days_in_month].
  rewrite Vy, Vm, Vd, Vh, Vi, Vs. cbn -[days_from_civil Z.mul Z.add Z.leb Z.ltb days_in_month].
  rewrite (proj2 (Z.leb_le 1 month)), (proj2 (Z.leb_le month 12)), (proj2 (Z.ltb_ge day 1)),
    (proj2 (Z.ltb_ge (days_in_month year month) day)), (proj2 (Z.ltb_ge 23 hour)),
    (proj2 (Z.ltb_ge 59 minute)), (proj2 (Z.ltb_ge 59 second)) by lia.
  done.
Qed.

Lemma seconds_split s :
  let r := s mod 86400 in
  0 <= Z.quot r 3600 <= 23 ∧ 0 <= Z.quot (Z.rem r 3600) 60 <= 59 ∧ 0 <= Z.rem r 60 <= 59
  ∧ Z.quot r 3600 * 3600 + Z.quot (Z.rem r 3600) 60 * 60 + Z.rem r 60 = r.
Proof.
  intros r. assert (0 <= r < 86400) by (apply Z.mod_pos_bound; lia).
  rewrite Z.quot_div_nonneg, !Z.rem_mod_nonneg by lia.
  pose proof (Z.mod_pos_bound r 3600 ltac:(lia)). rewrite Z.quot_div_nonneg by lia.
  pose proof (Z.div_mod r 3600 ltac:(lia)). pose proof (Z.div_mod (r mod 3600) 60 ltac:(lia)).
  pose proof (Z.mod_pos_bound (r mod 3600) 60 ltac:(lia)).
  assert (r mod 3600 mod 60 = r mod 60) as E.
  { apply Z.mod_mod_divide. by exists 60. }
  rewrite E in *. lia.
Qed.

Lemma parse_to_rfc3339_eq self : wf self → parse_rfc3339 (to_rfc3339 self) = Some self.
Proof.
  unfold wf, MIN_UNIX, MAX_UNIX. intros Hw. destruct self as [s]. cbn [seconds] in Hw.
  unfold to_rfc3339. cbn [seconds].
  pose proof (Z.div_mod s 86400 ltac:(lia)) as Hs. pose proof (Z.mod_pos_bound s 86400 ltac:(lia)).
  destruct (seconds_split s) as (Hh & Hm & Hsec & Hsum).
  pose proof (civil_from_days_valid (s / 86400) ltac:(lia)) as Hc.
  destruct (civil_from_days (s / 86400)) as [[year month] day]. destruct Hc as [Hc Hdays].
  rewrite parse_render by done. do 2 f_equal. rewrite Hdays. lia.
Qed.

Lemma field_length bytes first last :
  length bytes = 20%nat → (first < last ≤ 20)%nat → length (field bytes first last) = (last - first)%nat.
Proof. intros H1 H2. unfold field. rewrite length_take, length_drop. lia. Qed.

(** A twenty-byte text is its fields and the separators between them. *)
Lemma fields_join bytes :
  length bytes = 20%nat →
  byte_at bytes 4 "-" && byte_at bytes 7 "-" && byte_at bytes 10 "T" = true →
  byte_at bytes 13 ":" && byte_at bytes 16 ":" && byte_at bytes 19 "Z" = true →
  bytes = field bytes 0 4 ++ "-"%byte :: field bytes 5 7 ++ "-"%byte :: field bytes 8 10
          ++ "T"%byte :: field bytes 11 13 ++ ":"%byte :: field bytes 14 16 ++ ":"%byte ::
          field bytes 17 19 ++ ["Z"%byte].
Proof.
  unfold byte_at. rewrite !andb_true_iff, !bool_decide_eq_true. intros Hl H1 H2.
  do 20 (destruct bytes as [|? bytes]; [done|]). destruct bytes; [|done].
  cbn in *. destruct H1 as [[[= ->] [= ->]] [= ->]], H2 as [[[= ->] [= ->]] [= ->]]. done.
Qed.

(** What a successful parse read. *)
Lemma parse_rfc3339_inv text self :
  parse_rfc3339 text = Some self →
  ∃ year month day hour minute second,
    civil_ok year month day ∧ 0 <= hour <= 23 ∧ 0 <= minute <= 59 ∧ 0 <= second <= 59
    ∧ as_bytes text = render year month day hour minute second
    ∧ seconds self = days_from_civil year month day * 86400 + hour * 3600 + minute * 60 + second.
Proof.
  unfold parse_rfc3339. case_bool_decide as Hl; [|done]. cbn [negb].
  destruct (_ && byte_at _ 10 _) eqn:H1; [|done]. cbn [negb].
  destruct (_ && byte_at _ 19 _) eqn:H2; [|done]. cbn [negb]. intros H.
  pose proof (fields_join _ Hl H1 H2) as Hj.
  assert (∀ first last, (first < last ≤ 20)%nat → field (as_bytes text) first last ≠ []) as Hne.
  { intros first last Hr E. pose proof (field_length _ _ _ Hl Hr) as E'. rewrite E in E'. cbn in E'. lia. }
  pose proof (field_length _ 0 4 Hl ltac:(lia) : _ = 4%nat) as Ly. pose proof (field_length _ 5 7 Hl ltac:(lia) : _ = 2%nat) as Lm.
  pose proof (field_length _ 8 10 Hl ltac:(lia) : _ = 2%nat) as Ld. pose proof (field_length _ 11 13 Hl ltac:(lia) : _ = 2%nat) as Lh.
  pose proof (field_length _ 14 16 Hl ltac:(lia) : _ = 2%nat) as Li. pose proof (field_length _ 17 19 Hl ltac:(lia) : _ = 2%nat) as Ls.
  apply bind_Some in H as (year & Vy & H). apply bind_Some in H as (month & Vm & H).
  apply bind_Some in H as (day & Vd & H). apply bind_Some in H as (hour & Vh & H).
  apply bind_Some in H as (minute & Vi & H). apply bind_Some in H as (second & Vs & H).
  unfold number in *.
  apply digits_value_pad in Vy as [By Py]; [|apply Hne; lia]. apply digits_value_pad in Vm as [Bm Pm]; [|apply Hne; lia].
  apply digits_value_pad in Vd as [Bd Pd]; [|apply Hne; lia]. apply digits_value_pad in Vh as [Bh Ph]; [|apply Hne; lia].
  apply digits_value_pad in Vi as [Bi Pi]; [|apply Hne; lia]. apply digits_value_pad in Vs as [Bs Ps]; [|apply Hne; lia].
  rewrite Ly in By, Py. rewrite Lm in Bm, Pm. rewrite Ld in Bd, Pd. rewrite Lh in Bh, Ph.
  rewrite Li in Bi, Pi. rewrite Ls in Bs, Ps.
  destruct (_ || (days_in_month year month <? day)) eqn:H3; [done|].
  destruct (_ || (59 <? second)) eqn:H4; [done|]. simplify_eq.
  apply orb_false_elim in H3 as [[Hm%negb_false_iff Hd]%orb_false_elim Hd2]. bool_arith.
  exists year, month, day, hour, minute, second. cbn in By, Bm, Bd, Bh, Bi, Bs. unfold civil_ok.
  do 4 (split; [lia|]). split; [|done]. unfold render, pad. rewrite Py, Pm, Pd, Ph, Pi, Ps. exact Hj.
Qed.

Lemma parse_wf text self : parse_rfc3339 text = Some self → wf self.
Proof.
  intros (y & m & d & h & i & s & Hc & Hh & Hi & Hs & _ & Hsec)%parse_rfc3339_inv.
  destruct (days_from_civil_valid _ _ _ Hc) as [Hr _]. unfold wf, MIN_UNIX, MAX_UNIX. lia.
Qed.

Lemma to_rfc3339_parse text self : parse_rfc3339 text = Some self → to_rfc3339 self = text.
Proof.
  intros (y & m & d & h & i & s & Hc & Hh & Hi & Hs & Ht & Hsec)%parse_rfc3339_inv.
  apply (inj as_bytes). rewrite Ht. unfold to_rfc3339. rewrite Hsec.
  replace (_ + s) with (days_from_civil y m d * 86400 + (h * 3600 + i * 60 + s)) by lia.
  destruct (div_mod_base 86400 (days_from_civil y m d) (h * 3600 + i * 60 + s) ltac:(lia)) as [-> ->].
  destruct (days_from_civil_valid _ _ _ Hc) as [_ ->]. rewrite as_bytes_of_bytes.
  rewrite Z.quot_div_nonneg, !Z.rem_mod_nonneg by lia.
  replace (h * 3600 + i * 60 + s) with (h * 3600 + (i * 60 + s)) by lia.
  destruct (div_mod_base 3600 h (i * 60 + s) ltac:(lia)) as [-> ->].
  replace (h * 3600 + (i * 60 + s)) with ((h * 60 + i) * 60 + s) by lia.
  rewrite Z.quot_div_nonneg by lia.
  destruct (div_mod_base 60 i s ltac:(lia)) as [-> _].
  by destruct (div_mod_base 60 (h * 60 + i) s ltac:(lia)) as [_ ->].
Qed.

Lemma from_unix_wf s : wf (from_unix s).
Proof.
  unfold wf, from_unix, MIN_UNIX, MAX_UNIX.
  destruct (Z.ltb_spec s (-62167219200)); [cbn; lia|].
  destruct (Z.ltb_spec 253402300799 s); cbn; lia.
Qed.

Lemma of_clock_wf nanos : wf (of_clock nanos).
Proof. unfold of_clock. case_match; apply from_unix_wf. Qed.

Lemma plus_seconds_wf self s : wf (plus_seconds self s).
Proof. apply from_unix_wf. Qed.

Lemma parse_length text self : parse_rfc3339 text = Some self → length (as_bytes text) = 20%nat.
Proof. unfold parse_rfc3339. by case_bool_decide. Qed.

Lemma to_rfc3339_length self : wf self → length (as_bytes (to_rfc3339 self)) = 20%nat.
Proof. intros H%parse_to_rfc3339_eq. by eapply parse_length. Qed.

(** C25: the fixed form [YYYY-MM-DDTHH:MM:SSZ] and the instants that can be
    written in it correspond one to one: a text is accepted exactly when it
    is the rendering of the instant it denotes, so a stored time reads back
    unchanged and has a single spelling. *)
Theorem rfc3339_exact text self :
  parse_rfc3339 text = Some self ↔ wf self ∧ to_rfc3339 self = text.
Proof.
  split.
  - intros H. split; [by eapply parse_wf|by apply to_rfc3339_parse].
  - intros [Hwf <-]. by apply parse_to_rfc3339_eq.
Qed.

(** Whatever the system clock reads and however an expiry is moved, the
    instant is one the renderer can write and the parser reads back, so an
    event that carries it can always be replayed. *)
Theorem clock_renderable nanos s :
  let self := plus_seconds (of_clock nanos) s in
  parse_rfc3339 (to_rfc3339 (of_clock nanos)) = Some (of_clock nanos)
  ∧ parse_rfc3339 (to_rfc3339 self) = Some self.
Proof. split; apply parse_to_rfc3339_eq; [apply of_clock_wf|apply plus_seconds_wf]. Qed.
End Timestamp.
