(* ===== verification/F64.v ===== *)
(** * Binary64 numbers: reading a decimal and writing the shortest one

    The JSON crate keeps a number with a fraction, an exponent or more digits
    than an [i64] holds as an [f64]. This file models the two standard-library
    conversions it uses, on the [spec_float] of the Standard Library:
    [str::parse::<f64>] (correctly rounded) and the [Display] of an [f64] (the
    shortest decimal that reads back to the same number, without exponent). *)

From S2P Require Import Prelude Text.
From Stdlib Require Import Floats.SpecFloat Strings.Byte.

Module f64.

Definition t := spec_float.

#[global] Instance t_eq_dec : EqDecision t.
Proof. unfold t. solve_decision. Defined.

Definition prec : Z := 53.
Definition emax : Z := 1024.

Definition is_finite (x : t) : bool :=
  match x with S754_zero _ | S754_finite _ _ _ => true | _ => false end.

(** The nearest binary64, ties to even, to [(-1)^neg * m * 10^e]. *)
Definition of_decimal (neg : bool) (m e : Z) : t :=
  match m with
  | Zpos p =>
    if 0 <=? e then
      match m * 10 ^ e with
      | Zpos q => binary_normalize prec emax (if neg then Zneg q else Zpos q) 0 neg
      | _ => S754_zero neg
      end
    else
      match 10 ^ (- e) with
      | Zpos q =>
        let '(mz, ez, lz) := SFdiv_core_binary prec emax (Zpos p) 0 (Zpos q) 0 in
        binary_round_aux prec emax neg mz ez lz
      | _ => S754_zero neg
      end
  | _ => S754_zero neg
  end.

(** ** Shortest decimal *)

(** The magnitude of a finite number as a fraction. *)
Definition fraction (m : positive) (e : Z) : Z * Z :=
  if 0 <=? e then (Zpos m * 2 ^ e, 1) else (Zpos m, 2 ^ (- e)).

Definition below_pow10 (num den p : Z) : bool :=
  if 0 <=? p then num <? 10 ^ p * den else num * 10 ^ (- p) <? den.

(** The least [p] with [num / den < 10^p], searched upwards from [p]. *)
Fixpoint magnitude (fuel : nat) (num den p : Z) : Z :=
  match fuel with
  | O => p
  | S fuel => if below_pow10 num den p then p else magnitude fuel num den (p + 1)
  end.

Definition scaled_floor (num den k : Z) : Z :=
  if 0 <=? k then num * 10 ^ k / den else num / (den * 10 ^ (- k)).

(** Twice the distance from [d * 10^-k] to the number, over a common denominator. *)
Definition closer_up (num den k d : Z) : bool :=
  if 0 <=? k then 2 * den * d + den <=? 2 * num * 10 ^ k
  else 2 * den * 10 ^ (- k) * d + den * 10 ^ (- k) <=? 2 * num.

(** Try [n] significant digits, then one more, until one reads back. *)
Fixpoint shortest (fuel : nat) (x : t) (neg : bool) (num den p n : Z) : Z * Z :=
  let d := scaled_floor num den (n - p) in
  match fuel with
  | O => (d, p - n)
  | S fuel =>
    let down := bool_decide (of_decimal neg d (p - n) = x) in
    let up := bool_decide (of_decimal neg (d + 1) (p - n) = x) in
    if down && up then
      if closer_up num den (n - p) d then (d + 1, p - n) else (d, p - n)
    else if down then (d, p - n)
    else if up then (d + 1, p - n)
    else shortest fuel x neg num den p (n + 1)
  end.

Fixpoint strip_zeros (fuel : nat) (d q : Z) : Z * Z :=
  match fuel with
  | O => (d, q)
  | S fuel => if (d mod 10 =? 0) && negb (d =? 0) then strip_zeros fuel (d / 10) (q + 1) else (d, q)
  end.

(** [d * 10^q], written out in full. *)
Definition render_decimal (d q : Z) : list byte :=
  let digits := show_unsigned d in
  let point := Z.of_nat (length digits) + q in
  if point <=? 0 then "0"%byte :: "."%byte :: replicate (Z.to_nat (- point)) "0"%byte ++ digits
  else if 0 <=? q then digits ++ replicate (Z.to_nat q) "0"%byte
  else take (Z.to_nat point) digits ++ "."%byte :: drop (Z.to_nat point) digits.

(** [Display] of a finite [f64]. *)
Definition render (x : t) : list byte :=
  match x with
  | S754_zero neg => if neg then as_bytes "-0" else as_bytes "0"
  | S754_finite neg m e =>
    let '(num, den) := fraction m e in
    (* below the decimal logarithm, from the binary one *)
    let start := (Z.log2 num - Z.log2 den - 1) * 30103 / 100000 - 1 in
    let p := magnitude 5 num den start in
    let '(d, q) := shortest 17 x neg num den p 1 in
    let '(d, q) := strip_zeros 20 d q in
    (if neg then ["-"%byte] else []) ++ render_decimal d q
  | S754_infinity neg => if neg then as_bytes "-inf" else as_bytes "inf"
  | S754_nan => as_bytes "NaN"
  end.

(** ** [str::parse::<f64>] on the number grammar *)

(** Digits up to the first other byte, with their value and count. *)
Fixpoint take_digits (acc : Z) (n : Z) (l : list byte) : Z * Z * list byte :=
  match l with
  | b :: r => if is_ascii_digit b then take_digits (acc * 10 + (Z_of_byte b - 48)) (n + 1) r
              else (acc, n, l)
  | [] => (acc, n, [])
  end.

Definition parse_exponent (l : list byte) : option Z :=
  match l with
  | [] => Some 0
  | b :: r =>
    if decide (b = "e"%byte ∨ b = "E"%byte) then
      let '(neg, r) := match r with
                       | c :: r' => if decide (c = "-"%byte) then (true, r')
                                    else if decide (c = "+"%byte) then (false, r') else (false, r)
                       | [] => (false, r)
                       end in
      let '(v, n, tail) := take_digits 0 0 r in
      match tail with
      | [] => if 0 <? n then Some (if neg : bool then - v else v) else None
      | _ => None
      end
    else None
  end.

Definition parse (text : list byte) : option t :=
  let '(neg, r) := match text with
                   | b :: r => if decide (b = "-"%byte) then (true, r)
                               else if decide (b = "+"%byte) then (false, r) else (false, text)
                   | [] => (false, [])
                   end in
  let '(whole, nw, r) := take_digits 0 0 r in
  let '(m, nf, r) := match r with
                     | b :: r' => if decide (b = "."%byte) then
                                    let '(v, n, tail) := take_digits whole 0 r' in (v, n, tail)
                                  else (whole, 0, r)
                     | [] => (whole, 0, [])
                     end in
  if (nw + nf) =? 0 then None
  else match parse_exponent r with
       | Some e => Some (of_decimal neg m (e - nf))
       | None => None
       end.

Example parse_tenth : parse (as_bytes "0.1") = Some (S754_finite false 7205759403792794 (-56)).
Proof. vm_compute. reflexivity. Qed.
Example render_tenth : render <$> parse (as_bytes "0.1") = Some (as_bytes "0.1").
Proof. vm_compute. reflexivity. Qed.
Example render_large : render <$> parse (as_bytes "-1.5e21") = Some (as_bytes "-1500000000000000000000").
Proof. vm_compute. reflexivity. Qed.
Example render_one : render <$> parse (as_bytes "1.0") = Some (as_bytes "1").
Proof. vm_compute. reflexivity. Qed.
Example render_least : render <$> parse (as_bytes "5e-324") =
  Some (as_bytes "0." ++ replicate 323 "0"%byte ++ as_bytes "5").
Proof. vm_compute. reflexivity. Qed.
Example render_tie : render <$> parse (as_bytes "562949953421312.25") = Some (as_bytes "562949953421312.3").
Proof. vm_compute. reflexivity. Qed.
Example render_third : render <$> parse (as_bytes "0.3333333333333333") = Some (as_bytes "0.3333333333333333").
Proof. vm_compute. reflexivity. Qed.
Example render_max : render <$> parse (as_bytes "1.7976931348623157e308") =
  Some (as_bytes "17976931348623157" ++ replicate 292 "0"%byte).
Proof. vm_compute. reflexivity. Qed.
End f64.
