(* ===== verification/JsonValue.v ===== *)
(** * JSON values and their rendering

    Models [crates/ls-json/src/value.rs] and the error type of
    [crates/ls-json/src/lib.rs]. A formatter's output is the list of bytes
    written to it. *)

From S2P Require Import Prelude Text F64.
From Stdlib Require Import Strings.Byte.

(** Deepest nesting the parser accepts. *)
Definition MAX_DEPTH : nat := 64.

Inductive JsonError : Type :=
| UnexpectedEnd
| Unexpected (at_ : nat)
| TrailingContent
| DuplicateKey (key : string)
| TooDeep.

#[global] Instance JsonError_eq_dec : EqDecision JsonError.
Proof. solve_decision. Defined.

#[warnings="-register-all"]
Inductive Value : Type :=
| Null
| Bool (b : bool)
| Int (i : Z)
| Float (x : f64.t)
| Str (s : string)
| Array (items : list Value)
| Object (fields : list (string * Value)).

Module Value.

Definition t := Value.

Definition get (self : Value) (name : string) : option Value :=
  match self with
  | Object fields => snd <$> List.find (λ f, bool_decide (f.1 = name)) fields
  | _ => None
  end.

Definition as_str (self : Value) : option string :=
  match self with Str s => Some s | _ => None end.
Definition as_i64 (self : Value) : option Z :=
  match self with Int i => Some i | _ => None end.
Definition as_bool (self : Value) : option bool :=
  match self with Bool b => Some b | _ => None end.
Definition as_array (self : Value) : option (list Value) :=
  match self with Array items => Some items | _ => None end.

(** [From<usize>]: saturating at the largest [i64]. *)
Definition from_usize (n : Z) : Value := Int (if n <=? i64_max then n else i64_max).

(** [get(name).and_then(as_str)] and the like. *)
Definition get_str (self : Value) (name : string) : option string := get self name ≫= as_str.
Definition get_i64 (self : Value) (name : string) : option Z := get self name ≫= as_i64.
Definition get_bool (self : Value) (name : string) : option bool := get self name ≫= as_bool.

(** ** Rendering *)

Definition hex_digit (d : Z) : byte := nth (Z.to_nat d) (as_bytes "0123456789abcdef") x00.

(** [{:04x}] of a value below 0x10000. *)
Definition hex4 (c : Z) : list byte :=
  [hex_digit (c / 4096 mod 16); hex_digit (c / 256 mod 16); hex_digit (c / 16 mod 16); hex_digit (c mod 16)].

Definition write_char (c : Z) : list byte :=
  if c =? 0x22 then ["\"%byte; x22]
  else if c =? 0x5C then ["\"; "\"]%byte
  else if c =? 10 then ["\"; "n"]%byte
  else if c =? 13 then ["\"; "r"]%byte
  else if c =? 9 then ["\"; "t"]%byte
  else if c =? 8 then ["\"; "b"]%byte
  else if c =? 12 then ["\"; "f"]%byte
  else if c <? 0x20 then "\"%byte :: "u"%byte :: hex4 c
  else encode_char c.

Definition write_string (s : string) : list byte :=
  x22 :: concat (write_char <$> chars s) ++ [x22].

(** Every piece after the first is preceded by a comma. *)
Definition comma_separated (pieces : list (list byte)) : list byte :=
  match pieces with
  | [] => []
  | first :: rest => first ++ concat ((λ p, ","%byte :: p) <$> rest)
  end.

Fixpoint render (v : Value) : list byte :=
  match v with
  | Null => as_bytes "null"
  | Bool true => as_bytes "true"
  | Bool false => as_bytes "false"
  | Int i => as_bytes (show_Z i)
  | Float x => if f64.is_finite x then f64.render x else as_bytes "null"
  | Str s => write_string s
  | Array items => "["%byte :: comma_separated (map render items) ++ ["]"%byte]
  | Object fields =>
    "{"%byte :: comma_separated (map (λ f, write_string f.1 ++ ":"%byte :: render f.2) fields)
    ++ ["}"%byte]
  end.

Definition to_string (v : Value) : string := of_bytes (render v).

(** ** Induction through the nested lists *)

Section value_ind.
Context (P : Value → Prop).
Context (HNull : P Null) (HBool : ∀ b, P (Bool b)) (HInt : ∀ i, P (Int i)).
Context (HFloat : ∀ x, P (Float x)) (HStr : ∀ s, P (Str s)).
Context (HArray : ∀ items, Forall P items → P (Array items)).
Context (HObject : ∀ fields, Forall (λ f, P f.2) fields → P (Object fields)).

Fixpoint nested_ind (v : Value) : P v :=
  match v with
  | Null => HNull
  | Bool b => HBool b
  | Int i => HInt i
  | Float x => HFloat x
  | Str s => HStr s
  | Array items =>
    HArray items ((fix go l : Forall P l :=
      match l with [] => Forall_nil_2 P | x :: r => Forall_cons_2 P x r (nested_ind x) (go r) end) items)
  | Object fields =>
    HObject fields ((fix go l : Forall (λ f, P f.2) l :=
      match l with
      | [] => Forall_nil_2 _
      | x :: r => Forall_cons_2 (λ f, P f.2) x r (nested_ind x.2) (go r)
      end) fields)
  end.
End value_ind.

(** ** Values a document can be made of *)

Fixpoint height (v : Value) : nat :=
  match v with
  | Array items => S (fold_right (λ v, Nat.max (height v)) 0%nat items)
  | Object fields => S (fold_right (λ f, Nat.max (height f.2)) 0%nat fields)
  | _ => 0%nat
  end.

(** The invariants of the Rust types: machine integers, UTF-8 strings; and the
    parser's own promise of distinct keys. *)
Fixpoint well_formed (v : Value) : bool :=
  match v with
  | Null | Bool _ | Float _ => true
  | Int i => in_i64 i
  | Str s => is_str s
  | Array items => forallb well_formed items
  | Object fields =>
    bool_decide (NoDup fields.*1) && forallb (λ f, is_str f.1 && well_formed f.2) fields
  end.

Fixpoint float_free (v : Value) : bool :=
  match v with
  | Float _ => false
  | Array items => forallb float_free items
  | Object fields => forallb (λ f, float_free f.2) fields
  | _ => true
  end.

Lemma get_cons k v fields name :
  get (Object ((k, v) :: fields)) name = if decide (k = name) then Some v else get (Object fields) name.
Proof. cbn. case_bool_decide; by case_decide. Qed.

(** ** What is rendered is text *)

Definition utf8 (bs : list byte) : Prop := is_Some (decode bs).

Lemma utf8_app bs cs : utf8 bs → utf8 cs → utf8 (bs ++ cs).
Proof. intros [b Hb] [c Hc]. eexists. by apply decode_app_some. Qed.

Lemma utf8_ascii bs : forallb is_ascii bs = true → utf8 bs.
Proof. intros H. eexists. by apply decode_ascii. Qed.

Lemma utf8_cons b bs : is_ascii b = true → utf8 bs → utf8 (b :: bs).
Proof. intros Hb H. apply (utf8_app [b]); [|done]. apply utf8_ascii. cbn. by rewrite Hb. Qed.

Lemma utf8_concat l : Forall utf8 l → utf8 (concat l).
Proof. induction 1; cbn [concat]; [by eexists|by apply utf8_app]. Qed.

Lemma hex_digit_ascii d : is_ascii (hex_digit d) = true.
Proof.
  unfold hex_digit. destruct (nth_in_or_default (Z.to_nat d) (as_bytes "0123456789abcdef") x00) as [H| ->]; [|done].
  assert (forallb is_ascii (as_bytes "0123456789abcdef") = true) as Hall by done.
  rewrite forallb_forall in Hall. by apply Hall.
Qed.

Lemma utf8_write_char c : is_scalar c = true → utf8 (write_char c).
Proof.
  intros Hc. unfold write_char. repeat (case_match; [by apply utf8_ascii|]).
  case_match.
  - apply utf8_ascii. unfold hex4. cbn [forallb]. by rewrite !hex_digit_ascii.
  - exists [c]. rewrite <- (app_nil_r (encode_char c)). apply (decode_encode [c]). cbn [forallb]. by rewrite Hc.
Qed.

Lemma utf8_write_string s : utf8 (write_string s).
Proof.
  apply utf8_cons; [done|]. apply utf8_app; [|by apply utf8_ascii].
  apply utf8_concat, Forall_fmap, Forall_forall. intros c Hc. apply utf8_write_char.
  pose proof (chars_scalar s) as H. rewrite forallb_forall in H. by apply H, list_elem_of_In.
Qed.

Lemma utf8_comma_separated l : Forall utf8 l → utf8 (comma_separated l).
Proof.
  destruct 1 as [|p l Hp Hl]; cbn [comma_separated]; [by eexists|]. apply utf8_app; [done|].
  apply utf8_concat, Forall_fmap. eapply Forall_impl; [exact Hl|]. intros q Hq. by apply utf8_cons.
Qed.

Lemma utf8_render v : float_free v = true → utf8 (render v).
Proof.
  induction v as [|b|i|x|s|items IH|fields IH] using nested_ind; intros Hf; cbn [render].
  - by apply utf8_ascii.
  - destruct b; by apply utf8_ascii.
  - apply utf8_ascii. unfold show_Z. rewrite as_bytes_of_bytes.
    destruct (Z.ltb_spec i 0); [cbn [forallb]|]; rewrite show_unsigned_ascii by lia; done.
  - done.
  - apply utf8_write_string.
  - cbn in Hf. rewrite forallb_forall in Hf. rewrite Forall_forall in IH.
    apply utf8_cons, utf8_app; [done| |by apply utf8_ascii]. apply utf8_comma_separated.
    apply Forall_fmap, Forall_forall. intros v Hv. apply IH; [done|]. by apply Hf, list_elem_of_In.
  - cbn in Hf. rewrite forallb_forall in Hf. rewrite Forall_forall in IH.
    apply utf8_cons, utf8_app; [done| |by apply utf8_ascii]. apply utf8_comma_separated.
    apply Forall_fmap, Forall_forall. intros f Hv. apply (utf8_app (write_string f.1)); [apply utf8_write_string|].
    apply utf8_cons; [done|]. apply IH; [done|]. by apply Hf, list_elem_of_In.
Qed.

Lemma is_str_to_string v : float_free v = true → is_str (to_string v) = true.
Proof. intros [cs Hc]%utf8_render. unfold is_str, to_string. by rewrite as_bytes_of_bytes, Hc. Qed.
End Value.
