(* ===== verification/JsonParser.v ===== *)
(** * The JSON parser

    Models [crates/ls-json/src/parser.rs]: a recursive-descent parser over a
    byte slice with an offset and a nesting depth. Every method is a [proc] on
    the [Parser] record. The two recursive methods and the string loop take
    fuel; [Parser.run_good] shows that the fuel [parse] gives them is always enough,
    so [parse] never falls back on it. *)

From S2P Require Import Prelude Text F64 JsonValue.
From Stdlib Require Import Strings.Byte.

Record Parser := mk_parser { bytes : list byte; position : nat; depth : nat }.

(** How a parse ends early: with one of the code's errors, or out of fuel. *)
Inductive stop := Failed (e : JsonError) | NoFuel.

#[global] Instance stop_eq_dec : EqDecision stop.
Proof. solve_decision. Defined.

Module Parser.

(** [self.position += n]. *)
Definition advance (n : nat) (p : Parser) : Parser :=
  mk_parser (bytes p) (position p + n) (depth p).
Definition set_depth (d : nat) (p : Parser) : Parser := mk_parser (bytes p) (position p) d.

(** What is left to read: [&self.bytes[self.position..]]. *)
Definition rest (p : Parser) : list byte := drop (position p) (bytes p).

Definition M := proc Parser stop.
Definition error {A} (e : JsonError) : M A := fail (Failed e).

Definition at_end (p : Parser) : bool := (length (bytes p) <=? position p)%nat.
Definition peek (p : Parser) : option byte := bytes p !! position p.

(** [bump]: the next byte, stepping past it when there is one. *)
Definition bump : M (option byte) := λ p,
  match peek p with
  | Some b => (Ok (Some b), advance 1 p)
  | None => (Ok None, p)
  end.

(** [self.bump().ok_or(JsonError::UnexpectedEnd)?]. *)
Definition bump_or_end : M byte :=
  let! b := bump in lift (ok_or b (Failed UnexpectedEnd)).

(** [Err(JsonError::Unexpected(self.position - back))]. *)
Definition unexpected_here {A} (back : nat) : M A := λ p,
  (Err (Failed (Unexpected (position p - back))), p).

Definition expect (b : byte) : M unit :=
  let! found := bump in
  match found with
  | Some c => if decide (c = b) then ret tt else unexpected_here 1
  | None => error UnexpectedEnd
  end.

(** The length of the longest prefix whose bytes all satisfy [f]: where
    [while matches!(self.peek(), ..) { self.position += 1 }] stops. *)
Fixpoint span (f : byte → bool) (l : list byte) : nat :=
  match l with
  | b :: r => if f b then S (span f r) else 0%nat
  | [] => 0%nat
  end.

Definition skip_while (f : byte → bool) : M unit := λ p, (Ok tt, advance (span f (rest p)) p).

Definition is_space (b : byte) : bool :=
  bool_decide (b = " "%byte) || bool_decide (b = x09) || bool_decide (b = x0a) || bool_decide (b = x0d).

Definition skip_whitespace : M unit := skip_while is_space.

Definition literal (word : string) (v : Value) : M Value := λ p,
  match strip_prefix_bytes (as_bytes word) (rest p) with
  | Some _ => (Ok v, advance (length (as_bytes word)) p)
  | None => (Err (Failed (Unexpected (position p))), p)
  end.

Definition enter : M unit := λ p,
  let p := set_depth (S (depth p)) p in
  if (MAX_DEPTH <? depth p)%nat then (Err (Failed TooDeep), p) else (Ok tt, p).

(** [self.depth -= 1]. *)
Definition leave : M unit := modify (λ p, set_depth (depth p - 1) p).

(** ** Strings *)

Definition hex_value (b : byte) : option Z :=
  if byte_between "0" "9" b then Some (Z_of_byte b - 48)
  else if byte_between "a" "f" b then Some (Z_of_byte b - 97 + 10)
  else if byte_between "A" "F" b then Some (Z_of_byte b - 65 + 10)
  else None.

Fixpoint hex_digits (n : nat) (start : nat) (value : Z) : M Z :=
  match n with
  | O => ret value
  | S n =>
    let! b := bump_or_end in
    match hex_value b with
    | Some digit => hex_digits n start (Z.lor (Z.shiftl value 4) digit)
    | None => error (Unexpected start)
    end
  end.

Definition hex4 : M Z := λ p, hex_digits 4 (position p) 0 p.

(** [char::from_u32]. *)
Definition char_from_u32 (c : Z) : option Z := if is_scalar c then Some c else None.

Definition unicode_escape : M Z :=
  let! first := hex4 in
  if (0xDC00 <=? first) && (first <=? 0xDFFF) then unexpected_here 0
  else if (0xD800 <=? first) && (first <=? 0xDBFF) then
    let! start := gets position in
    let! b1 := bump in
    if negb (bool_decide (b1 = Some "\"%byte)) then error (Unexpected start) else
    let! b2 := bump in
    if negb (bool_decide (b2 = Some "u"%byte)) then error (Unexpected start) else
    let! second := hex4 in
    if negb ((0xDC00 <=? second) && (second <=? 0xDFFF)) then error (Unexpected start) else
    let combined := 0x10000 + Z.shiftl (first - 0xD800) 10 + (second - 0xDC00) in
    lift (ok_or (char_from_u32 combined) (Failed (Unexpected start)))
  else
    let! here := gets position in
    lift (ok_or (char_from_u32 first) (Failed (Unexpected here))).

Definition escape : M Z :=
  let! start := gets position in
  let! b := bump_or_end in
  if decide (b = x22) then ret 0x22
  else if decide (b = "\"%byte) then ret 0x5C
  else if decide (b = "/"%byte) then ret 0x2F
  else if decide (b = "b"%byte) then ret 8
  else if decide (b = "f"%byte) then ret 12
  else if decide (b = "n"%byte) then ret 10
  else if decide (b = "r"%byte) then ret 13
  else if decide (b = "t"%byte) then ret 9
  else if decide (b = "u"%byte) then unicode_escape
  else error (Unexpected start).

(** [(byte & 0xC0) == 0x80]. *)
Definition is_continuation (b : byte) : bool := Z.land (Z_of_byte b) 0xC0 =? 0x80.

(** A multi-byte character whose first byte has just been read. *)
Definition multi_byte (start : nat) : M string := λ p,
  let stop := (position p + span is_continuation (rest p))%nat in
  match from_utf8 (take (stop - start) (drop start (bytes p))) with
  | Some text => (Ok text, mk_parser (bytes p) stop (depth p))
  | None => (Err (Failed (Unexpected start)), p)
  end.

(** The loop of [string]; [out] is the text read so far. *)
Fixpoint string_loop (fuel : nat) (out : string) : M string :=
  match fuel with
  | O => fail NoFuel
  | S fuel =>
    let! start := gets position in
    let! b := bump_or_end in
    if decide (b = x22) then ret out
    else if decide (b = "\"%byte) then
      let! c := escape in string_loop fuel (out +:+ of_chars [c])
    else if Z_of_byte b <? 0x20 then error (Unexpected start)
    else if Z_of_byte b <? 0x80 then string_loop fuel (out +:+ of_chars [Z_of_byte b])
    else let! text := multi_byte start in string_loop fuel (out +:+ text)
  end.

(** Every turn of the loop reads a byte. *)
Definition string : M string := λ p,
  (do! expect x22 in λ p, string_loop (S (length (rest p))) EmptyString p) p.

(** ** Numbers *)

(** At least one digit, then all the digits that follow. *)
Definition digits1 : M unit := λ p,
  match peek p with
  | Some b => if is_ascii_digit b then skip_while is_ascii_digit p else unexpected_here 0 p
  | None => unexpected_here 0 p
  end.

Definition peek_is (f : byte → bool) (p : Parser) : bool :=
  match peek p with Some b => f b | None => false end.

Definition integer_part : M unit := λ p,
  match peek p with
  | Some b =>
    if decide (b = "0"%byte) then (Ok tt, advance 1 p)
    else if byte_between "1" "9" b then skip_while is_ascii_digit p
    else unexpected_here 0 p
  | None => unexpected_here 0 p
  end.

Definition fraction_part : M bool := λ p,
  if peek_is (λ b, bool_decide (b = "."%byte)) p
  then (do! modify (advance 1) in do! digits1 in ret true) p
  else (Ok false, p).

Definition skip_sign (f : byte → bool) : M unit := λ p,
  if peek_is f p then (Ok tt, advance 1 p) else (Ok tt, p).

Definition exponent_part : M bool := λ p,
  if peek_is (λ b, bool_decide (b = "e"%byte) || bool_decide (b = "E"%byte)) p
  then (do! modify (advance 1) in
        do! skip_sign (λ b, bool_decide (b = "+"%byte) || bool_decide (b = "-"%byte)) in
        do! digits1 in ret true) p
  else (Ok false, p).

(** [text.parse::<f64>()], a float. *)
Definition as_float (start : nat) (text : String.string) : result stop Value :=
  map_ok Float (ok_or (f64.parse (as_bytes text)) (Failed (Unexpected start))).

Definition number_value (start : nat) (is_float : bool) (text : String.string) : result stop Value :=
  if is_float then as_float start text
  else match parse_i64 text with
       | Some i => Ok (Int i)
       | None => as_float start text
       end.

Definition number : M Value :=
  let! start := gets position in
  do! skip_sign (λ b, bool_decide (b = "-"%byte)) in
  do! integer_part in
  let! fractional := fraction_part in
  let! scientific := exponent_part in
  λ p,
    match from_utf8 (take (position p - start) (drop start (bytes p))) with
    | Some text => (number_value start (fractional || scientific) text, p)
    | None => (Err (Failed (Unexpected start)), p)
    end.

(** ** Arrays, objects, values *)

(** The end of a list: a comma to go on, [close] to stop. *)
Definition more (close : byte) : M bool :=
  let! b := bump in
  match b with
  | Some b =>
    if decide (b = ","%byte) then ret true
    else if decide (b = close) then ret false
    else unexpected_here 1
  | None => error UnexpectedEnd
  end.

(** One turn of the loop of [array]. *)
Definition array_step (value : M Value) (items : list Value) : M (list Value * bool) :=
  do! skip_whitespace in
  let! v := value in
  do! skip_whitespace in
  let! again := more "]"%byte in
  ret (items ++ [v], again).

(** One turn of the loop of [object]. *)
Definition object_step (value : M Value) (fields : list (String.string * Value))
  : M (list (String.string * Value) * bool) :=
  do! skip_whitespace in
  let! quoted := gets (peek_is (λ b, bool_decide (b = x22))) in
  if negb quoted then unexpected_here 0 else
  let! name := string in
  if existsb (λ f, bool_decide (f.1 = name)) fields then error (DuplicateKey name) else
  do! skip_whitespace in
  do! expect ":"%byte in
  do! skip_whitespace in
  let! v := value in
  do! skip_whitespace in
  let! again := more "}"%byte in
  ret (fields ++ [(name, v)], again).

(** [array] and [object]: the delimiters around the loop. *)
Definition delimited {A} (open close : byte) (build : list A → Value) (loop : M (list A)) : M Value :=
  do! enter in
  do! expect open in
  do! skip_whitespace in
  λ p,
    if peek_is (λ b, bool_decide (b = close)) p
    then (do! modify (advance 1) in do! leave in ret (build [])) p
    else (let! items := loop in do! leave in ret (build items)) p.

Definition value_of (array object : M Value) : M Value := λ p,
  match peek p with
  | None => (Err (Failed UnexpectedEnd), p)
  | Some b =>
    (if decide (b = "n"%byte) then literal "null" Null
     else if decide (b = "t"%byte) then literal "true" (Bool true)
     else if decide (b = "f"%byte) then literal "false" (Bool false)
     else if decide (b = x22) then let! s := string in ret (Str s)
     else if decide (b = "["%byte) then array
     else if decide (b = "{"%byte) then object
     else if decide (b = "-"%byte) then number
     else if is_ascii_digit b then number
     else unexpected_here 0) p
  end.

(** [loop]: turns of [step] until one says to stop. *)
Fixpoint value (fuel : nat) : M Value :=
  match fuel with
  | O => fail NoFuel
  | S fuel => λ p,
    value_of (delimited "[" "]" Array (array_loop fuel []))
             (delimited "{" "}" Object (object_loop fuel [])) p
  end
with array_loop (fuel : nat) (items : list Value) : M (list Value) :=
  match fuel with
  | O => fail NoFuel
  | S fuel => λ p,
    (let! (items, again) := array_step (value fuel) items in
     if again : bool then array_loop fuel items else ret items) p
  end
with object_loop (fuel : nat) (fields : list (String.string * Value))
  : M (list (String.string * Value)) :=
  match fuel with
  | O => fail NoFuel
  | S fuel => λ p,
    (let! (fields, again) := object_step (value fuel) fields in
     if again : bool then object_loop fuel fields else ret fields) p
  end.

(** [parse], with the fuel it is given visible in the outcome. *)
Definition run (input : String.string) : result stop Value :=
  let start := mk_parser (as_bytes input) 0 0 in
  ((do! skip_whitespace in
   λ p, if at_end p then (Err (Failed UnexpectedEnd), p) else
   (let! v := value (2 * length (rest p) + 1) in
    do! skip_whitespace in
    λ p, if negb (at_end p) then (Err (Failed TrailingContent), p) else (Ok v, p)) p) start).1.

(** ** What every step keeps

    [keeps d n T Q m]: started at depth [d], [m] leaves the bytes and the depth
    as they are, reads at least [n] bytes and returns a value satisfying [Q];
    and it does not run out of fuel when twice the remaining input, plus two,
    is at most [T]. *)

Definition left (p : Parser) : nat := length (rest p).

Definition keeps {A} (d n T : nat) (Q : A → Prop) (m : M A) : Prop := ∀ p,
  depth p = d →
  match m p with
  | (Ok a, p') => bytes p' = bytes p ∧ depth p' = d ∧ (left p' + n ≤ left p)%nat ∧ Q a
  | (Err e, _) => (2 * left p + 2 ≤ T)%nat → e ≠ NoFuel
  end.

Lemma left_eq p : left p = (length (bytes p) - position p)%nat.
Proof. apply length_drop. Qed.

Lemma left_advance n p : left (advance n p) = (left p - n)%nat.
Proof. rewrite !left_eq. cbn. lia. Qed.

Lemma peek_left p b : peek p = Some b → (0 < left p)%nat.
Proof. unfold peek. intros H%lookup_lt_Some. rewrite left_eq. lia. Qed.

Lemma depth_advance n p : depth (advance n p) = depth p.
Proof. done. Qed.
Lemma bytes_advance n p : bytes (advance n p) = bytes p.
Proof. done. Qed.

#[local] Arguments advance : simpl never.
#[local] Arguments left : simpl never.

Lemma keeps_weaken {A} d n n' T (Q Q' : A → Prop) m :
  keeps d n T Q m → (n' ≤ n)%nat → (∀ a, Q a → Q' a) → keeps d n' T Q' m.
Proof.
  intros H Hn HQ p Hp. specialize (H p Hp). destruct (m p) as [[a|e] p']; [|done].
  destruct H as (? & ? & ? & ?). split_and!; auto. lia.
Qed.

Lemma keeps_bind {A B} d n1 n2 T (Q1 : A → Prop) (Q2 : B → Prop) m k :
  keeps d n1 T Q1 m → (∀ a, Q1 a → keeps d n2 (T - 2 * n1) Q2 (k a)) →
  keeps d (n1 + n2) T Q2 (bind m k).
Proof.
  intros Hm Hk p Hp. unfold bind. specialize (Hm p Hp). destruct (m p) as [[a|e] p1]; [|done].
  destruct Hm as (Hb & Hd & Hl & HQ). specialize (Hk a HQ p1 Hd).
  destruct (k a p1) as [[b|e] p2].
  - destruct Hk as (? & ? & ? & ?). split_and!; [congruence|done|lia|done].
  - intros HT. apply Hk. lia.
Qed.

(** The same when the first step may read nothing, which is the common case. *)
Lemma keeps_bind0 {A B} d n T (Q1 : A → Prop) (Q2 : B → Prop) m k :
  keeps d 0 T Q1 m → (∀ a, Q1 a → keeps d n T Q2 (k a)) → keeps d n T Q2 (bind m k).
Proof. intros Hm Hk. apply (keeps_bind d 0 n T Q1 Q2); [done|]. by rewrite Nat.sub_0_r. Qed.

Lemma keeps_ret {A} d T (Q : A → Prop) a : Q a → keeps d 0 T Q (ret a).
Proof. intros HQ p Hp. cbn. split_and!; [done|done|lia|done]. Qed.

Lemma keeps_error {A} d n T (Q : A → Prop) e : keeps d n T Q (error e).
Proof. intros p _ _. done. Qed.

Lemma keeps_unexpected {A} d n T (Q : A → Prop) back : keeps d n T Q (unexpected_here back).
Proof. intros p _ _. done. Qed.

Lemma keeps_lift {A} d T (Q : A → Prop) (r : result stop A) :
  (∀ a, r = Ok a → Q a) → r ≠ Err NoFuel → keeps d 0 T Q (lift r).
Proof.
  intros HQ Hr p Hp. unfold lift. destruct r as [a|e]; [|intros _; congruence].
  split_and!; [done|done|lia|by apply HQ].
Qed.

Lemma keeps_gets {A} d T (f : Parser → A) : keeps d 0 T (λ _, True) (gets f).
Proof. intros p Hp. cbn. split_and!; [done|done|lia|done]. Qed.

Lemma keeps_advance d T n : keeps d 0 T (λ _, True) (modify (advance n)).
Proof. intros p Hp. unfold modify. rewrite left_advance. split_and!; [done|done|lia|done]. Qed.

(** A step that first looks at the state. *)
Lemma keeps_here {A} d n T (Q : A → Prop) (m : Parser → M A) :
  (∀ q, keeps d n T Q (m q)) → keeps d n T Q (λ p, m p p).
Proof. intros H p Hp. apply (H p p Hp). Qed.

(** A loop whose fuel is what is left to read. *)
Lemma keeps_measured {A} d n T (Q : A → Prop) (m : nat → M A) :
  (∀ k, keeps d n (2 * k + 2) Q (m k)) → keeps d n T Q (λ p, m (left p) p).
Proof.
  intros H p Hp. specialize (H (left p) p Hp). destruct (m (left p) p) as [[a|e] p']; auto.
Qed.

Lemma keeps_if {A} d n T (Q : A → Prop) (c : bool) (m1 m2 : M A) :
  keeps d n T Q m1 → keeps d n T Q m2 → keeps d n T Q (if c then m1 else m2).
Proof. by destruct c. Qed.

Lemma keeps_decide {A} d n T (Q : A → Prop) P (D : Decision P) (m1 m2 : M A) :
  keeps d n T Q m1 → keeps d n T Q m2 → keeps d n T Q (if decide P then m1 else m2).
Proof. by destruct (decide P). Qed.

Lemma keeps_bump d T : keeps d 0 T (λ _, True) bump.
Proof.
  intros p Hp. unfold bump. destruct (peek p); cbn; rewrite ?left_advance; split_and!; done || lia.
Qed.

Lemma keeps_bump_or_end d T : keeps d 1 T (λ _, True) bump_or_end.
Proof.
  intros p Hp. unfold bump_or_end, bind, bump, lift.
  destruct (peek p) eqn:E; cbn; [|done]. apply peek_left in E. rewrite left_advance.
  split_and!; done || lia.
Qed.

Lemma keeps_expect d T b : keeps d 1 T (λ _, True) (expect b).
Proof.
  intros p Hp. unfold expect, bind, bump. destruct (peek p) eqn:E; cbn; [|done].
  apply peek_left in E. case_decide; cbn; [|done]. rewrite left_advance. split_and!; done || lia.
Qed.

Lemma keeps_skip d T f : keeps d 0 T (λ _, True) (skip_while f).
Proof. intros p Hp. unfold skip_while. rewrite left_advance. split_and!; done || lia. Qed.

Lemma keeps_more d T c : keeps d 1 T (λ _, True) (more c).
Proof.
  intros p Hp. unfold more, bind, bump. destruct (peek p) eqn:E; cbn; [|done].
  apply peek_left in E.
  repeat case_decide; cbn; rewrite ?left_advance; first [done | split_and!; done || lia].
Qed.

Lemma keeps_literal d T word v (Q : Value → Prop) :
  (0 < length (as_bytes word))%nat → Q v → keeps d 1 T Q (literal word v).
Proof.
  intros Hw HQ p Hp. unfold literal. destruct (strip_prefix_bytes _ _) as [r|] eqn:E; [|done].
  apply strip_prefix_bytes_some in E. rewrite left_advance. split_and!; [done|done| |done].
  unfold left. rewrite E, length_app. lia.
Qed.

Lemma keeps_le {A} d n T T' (Q : A → Prop) m : keeps d n T Q m → (T' ≤ T)%nat → keeps d n T' Q m.
Proof.
  intros H HT p Hp. specialize (H p Hp). destruct (m p) as [[a|e] p']; [done|].
  intros. apply H. lia.
Qed.

Create HintDb keeps.
#[local] Hint Resolve keeps_ret keeps_error keeps_unexpected keeps_gets keeps_advance keeps_bump
  keeps_bump_or_end keeps_expect keeps_skip keeps_more : keeps.
#[local] Hint Extern 3 (keeps _ 0 _ _ bump_or_end) =>
  (eapply keeps_weaken; [apply keeps_bump_or_end| |]; [lia|done]) : keeps.

Lemma keeps_hex_digits d T n start value : keeps d 0 T (λ _, True) (hex_digits n start value).
Proof.
  revert value. induction n as [|n IH]; intros value; cbn [hex_digits]; [by apply keeps_ret|].
  eapply keeps_bind0; [auto with keeps|]. intros b _. destruct (hex_value b); auto with keeps.
Qed.

Lemma keeps_hex4 d T : keeps d 0 T (λ _, True) hex4.
Proof. apply (keeps_here d 0 T _ (λ p, hex_digits 4 (position p) 0)). intros q. apply keeps_hex_digits. Qed.

Lemma keeps_char d T c e :
  e ≠ NoFuel → keeps d 0 T (λ c, is_scalar c = true) (lift (ok_or (char_from_u32 c) e)).
Proof.
  intros He. apply keeps_lift; unfold char_from_u32; destruct (is_scalar c) eqn:E; cbn; congruence.
Qed.

Lemma keeps_unicode_escape d T : keeps d 0 T (λ c, is_scalar c = true) unicode_escape.
Proof.
  unfold unicode_escape. eapply keeps_bind0; [apply keeps_hex4|]. intros first _.
  apply keeps_if; [auto with keeps|]. apply keeps_if.
  - eapply keeps_bind0; [apply keeps_gets|]. intros start _.
    eapply keeps_bind0; [apply keeps_bump|]. intros b1 _. apply keeps_if; [auto with keeps|].
    eapply keeps_bind0; [apply keeps_bump|]. intros b2 _. apply keeps_if; [auto with keeps|].
    eapply keeps_bind0; [apply keeps_hex4|]. intros second _. apply keeps_if; [auto with keeps|].
    by apply keeps_char.
  - eapply keeps_bind0; [apply keeps_gets|]. intros here _. by apply keeps_char.
Qed.

Lemma keeps_escape d T : keeps d 0 T (λ c, is_scalar c = true) escape.
Proof.
  unfold escape. eapply keeps_bind0; [apply keeps_gets|]. intros start _.
  eapply keeps_bind0; [auto with keeps|]. intros b _.
  repeat first [by apply keeps_ret | apply keeps_unicode_escape | apply keeps_error | apply keeps_decide].
Qed.

Lemma multi_byte_eq start p :
  multi_byte start p =
  match from_utf8 (take (position p + span is_continuation (rest p) - start) (drop start (bytes p))) with
  | Some text => (Ok text, advance (span is_continuation (rest p)) p)
  | None => (Err (Failed (Unexpected start)), p)
  end.
Proof. done. Qed.

Lemma keeps_multi_byte d T start : keeps d 0 T (λ s, is_str s = true) (multi_byte start).
Proof.
  intros p Hp. rewrite multi_byte_eq. destruct (from_utf8 _) as [text|] eqn:E; [|done].
  apply from_utf8_spec in E as [_ E]. rewrite left_advance. split_and!; done || lia.
Qed.

Lemma keeps_string_loop d fuel out :
  is_str out = true → keeps d 1 (2 * fuel) (λ s, is_str s = true) (string_loop fuel out).
Proof.
  revert out. induction fuel as [|fuel IH]; intros out Hout; cbn [string_loop].
  { intros p _ ?. lia. }
  eapply keeps_bind0; [apply keeps_gets|]. intros start _.
  apply (keeps_bind d 1 0 _ (λ _, True)); [apply keeps_bump_or_end|]. intros b _.
  replace (2 * S fuel - 2 * 1)%nat with (2 * fuel)%nat by lia.
  assert (∀ s, is_str s = true →
    keeps d 0 (2 * fuel) (λ s, is_str s = true) (string_loop fuel (out +:+ s))) as Hloop.
  { intros s Hs. eapply keeps_weaken; [apply IH; by apply is_str_app|lia|done]. }
  repeat first [by apply keeps_ret | apply keeps_error | apply keeps_decide].
  - eapply keeps_bind0; [apply keeps_escape|]. intros c Hc. apply Hloop, is_str_of_chars.
    cbn. by rewrite Hc.
  - apply keeps_if; [apply keeps_error|]. destruct (Z.ltb_spec (Z_of_byte b) 0x80).
    + apply Hloop, is_str_of_chars. cbn -[is_scalar]. pose proof (Z_of_byte_range b).
      rewrite (proj2 (is_scalar_spec _)); [done|lia].
    + eapply keeps_bind0; [apply keeps_multi_byte|]. intros s Hs. by apply Hloop.
Qed.

Lemma keeps_string d T : keeps d 1 T (λ s, is_str s = true) string.
Proof.
  unfold string. apply (keeps_here d 1 T _ (λ _, bind (expect x22) _)). intros _.
  apply (keeps_bind d 1 0 _ (λ _, True)); [apply keeps_expect|]. intros _ _.
  apply (keeps_measured d 0 _ _ (λ k, string_loop (S k) EmptyString)). intros k.
  apply (keeps_weaken d 1 0 _ (λ s, is_str s = true)); [|lia|done].
  eapply keeps_le; [by apply keeps_string_loop|lia].
Qed.

(** *** Numbers *)

Lemma peek_rest p : peek p = head (rest p).
Proof. rewrite head_lookup. unfold peek, rest. by rewrite lookup_drop, Nat.add_0_r. Qed.

Lemma span_first f p b : peek p = Some b → f b = true → (1 ≤ span f (rest p))%nat.
Proof. rewrite peek_rest. intros Hp Hf. destruct (rest p); simplify_eq/=. rewrite Hf. lia. Qed.

Lemma keeps_skip_first d T f p b :
  peek p = Some b → f b = true → depth p = d →
  match skip_while f p with
  | (Ok _, p') => bytes p' = bytes p ∧ depth p' = d ∧ (left p' + 1 ≤ left p)%nat ∧ True
  | (Err e, _) => (2 * left p + 2 ≤ T)%nat → e ≠ NoFuel
  end.
Proof.
  intros Hp Hf Hd. unfold skip_while. rewrite left_advance.
  pose proof (peek_left _ _ Hp). pose proof (span_first _ _ _ Hp Hf). split_and!; done || lia.
Qed.

Lemma keeps_digits1 d T : keeps d 0 T (λ _, True) digits1.
Proof.
  intros p Hp. unfold digits1. destruct (peek p) as [b|]; [|done].
  destruct (is_ascii_digit b); [|done]. by apply keeps_skip.
Qed.

Lemma byte_between_spec lo hi b :
  byte_between lo hi b = true ↔ Z_of_byte lo <= Z_of_byte b <= Z_of_byte hi.
Proof. unfold byte_between. rewrite andb_true_iff. lia. Qed.

Lemma keeps_integer_part d T : keeps d 1 T (λ _, True) integer_part.
Proof.
  intros p Hp. unfold integer_part. destruct (peek p) as [b|] eqn:E; [|done].
  case_decide.
  - apply peek_left in E. rewrite left_advance. split_and!; done || lia.
  - destruct (byte_between "1" "9" b) eqn:Eb; [|done]. apply (keeps_skip_first d T _ p b); [done| |done].
    apply byte_between_spec in Eb. apply is_ascii_digit_spec. cbn in Eb. lia.
Qed.

Lemma keeps_skip_sign d T f : keeps d 0 T (λ _, True) (skip_sign f).
Proof.
  intros p Hp. unfold skip_sign. destruct (peek_is f p); cbn; rewrite ?left_advance; split_and!; done || lia.
Qed.

#[local] Hint Resolve keeps_digits1 keeps_skip_sign : keeps.

Lemma keeps_fraction_part d T : keeps d 0 T (λ _, True) fraction_part.
Proof.
  intros p Hp. unfold fraction_part. destruct (peek_is _ p); [|cbn; split_and!; done || lia].
  revert p Hp. change (keeps d 0 T (λ _, True) (do! modify (advance 1) in do! digits1 in ret true)).
  repeat (eapply keeps_bind0; [eauto with keeps|intros _ _]). by apply keeps_ret.
Qed.

Lemma keeps_exponent_part d T : keeps d 0 T (λ _, True) exponent_part.
Proof.
  intros p Hp. unfold exponent_part. destruct (peek_is _ p); [|cbn; split_and!; done || lia].
  match goal with |- context [bind (modify (advance 1)) ?k] =>
    revert p Hp; change (keeps d 0 T (λ _, True) (bind (modify (advance 1)) k)) end.
  repeat (eapply keeps_bind0; [eauto with keeps|intros _ _]). by apply keeps_ret.
Qed.

Lemma number_value_keeps start is_float text v :
  number_value start is_float text = Ok v → Value.well_formed v = true ∧ Value.height v = 0%nat.
Proof.
  unfold number_value, as_float. destruct is_float; [|destruct (parse_i64 text) as [i|] eqn:E].
  - by destruct (f64.parse _); cbn; intros; simplify_eq.
  - intros; simplify_eq. by rewrite <- (parse_i64_range _ _ E).
  - by destruct (f64.parse _); cbn; intros; simplify_eq.
Qed.

Lemma number_value_fuel start is_float text : number_value start is_float text ≠ Err NoFuel.
Proof.
  unfold number_value, as_float. destruct is_float; [|destruct (parse_i64 text)]; try done;
    by destruct (f64.parse _).
Qed.

(** The promise of the parser about a value found at depth [d]. *)
Definition good (d : nat) (v : Value) : Prop :=
  Value.well_formed v = true ∧ (Value.height v + d ≤ MAX_DEPTH)%nat.

Lemma keeps_number d T : (d ≤ MAX_DEPTH)%nat → keeps d 1 T (good d) number.
Proof.
  intros Hd. unfold number. eapply keeps_bind0; [apply keeps_gets|]. intros start _.
  eapply keeps_bind0; [apply keeps_skip_sign|]. intros _ _.
  apply (keeps_bind d 1 0 _ (λ _, True)); [apply keeps_integer_part|]. intros _ _.
  eapply keeps_bind0; [apply keeps_fraction_part|]. intros fractional _.
  eapply keeps_bind0; [apply keeps_exponent_part|]. intros scientific _ p Hp.
  destruct (from_utf8 _) as [text|]; [|done].
  pose proof (number_value_fuel start (fractional || scientific) text).
  destruct (number_value _ _ text) as [v|e] eqn:E; [|congruence].
  apply number_value_keeps in E as [Hw Hh]. split_and!; [done|done|lia|]. unfold good. by rewrite Hh.
Qed.

(** *** Nesting *)

Lemma left_set_depth d p : left (set_depth d p) = left p.
Proof. done. Qed.

Lemma keeps_delimited {A} d T (QL : list A → Prop) (Q : Value → Prop) open close build loop :
  QL [] → ((S d ≤ MAX_DEPTH)%nat → ∀ l, QL l → Q (build l)) →
  ((S d ≤ MAX_DEPTH)%nat → keeps (S d) 0 T QL loop) → keeps d 1 (T + 2) Q (delimited open close build loop).
Proof.
  intros Hnil Hbuild Hloop p Hp. unfold delimited at 1, bind at 1, enter. cbn [depth set_depth].
  destruct (Nat.ltb_spec MAX_DEPTH (S (depth p))) as [|Hmax]; [done|]. rewrite Hp in *.
  specialize (Hloop Hmax).
  unfold bind at 1. pose proof (keeps_expect (S d) (2 * left p + 2) open (set_depth (S d) p) eq_refl) as H1.
  destruct (expect open (set_depth (S d) p)) as [[[]|e] p1]; [|by intros _; apply H1].
  destruct H1 as (Hb1 & Hd1 & Hl1 & _). rewrite left_set_depth in Hl1.
  unfold bind at 1, skip_whitespace, skip_while.
  set (p2 := advance _ p1). assert (left p2 ≤ left p1)%nat by (unfold p2; rewrite left_advance; lia).
  assert (depth p2 = S d ∧ bytes p2 = bytes p) as [Hd2 Hb2] by done. clearbody p2.
  destruct (peek_is _ p2).
  - cbn. rewrite left_set_depth, left_advance, depth_advance, Hd2. split_and!; [done|lia|lia|by apply Hbuild].
  - unfold bind at 1. specialize (Hloop p2 Hd2). destruct (loop p2) as [[l|e] p3].
    + destruct Hloop as (Hb3 & Hd3 & Hl3 & HQ). cbn. rewrite left_set_depth, Hd3, Hb3, Hb2.
      split_and!; [done|lia|lia|by apply Hbuild].
    + intros HT. apply Hloop. lia.
Qed.

Definition good_fields (d : nat) (fields : list (String.string * Value)) : Prop :=
  NoDup fields.*1 ∧ Forall (λ f, is_str f.1 = true ∧ good d f.2) fields.

Lemma good_array d items : (S d ≤ MAX_DEPTH)%nat → Forall (good (S d)) items → good d (Array items).
Proof.
  intros Hd H. unfold good. cbn.
  induction H as [|v items [Hw Hh] _ [IHw IHh]]; cbn in *; [split; [done|lia]|].
  rewrite Hw, IHw. split; [done|lia].
Qed.

Lemma good_object d fields : (S d ≤ MAX_DEPTH)%nat → good_fields (S d) fields → good d (Object fields).
Proof.
  intros Hd [Hn H]. unfold good. cbn. rewrite bool_decide_true by done. clear Hn.
  induction H as [|[k v] fields [Hk [Hw Hh]] _ [IHw IHh]]; cbn in *; [split; [done|lia]|].
  rewrite Hk, Hw, IHw. split; [done|lia].
Qed.

Lemma keeps_array_step d T value items :
  keeps d 1 T (good d) value → Forall (good d) items →
  keeps d 2 T (λ r, Forall (good d) r.1) (array_step value items).
Proof.
  intros Hv Hi. unfold array_step. eapply keeps_bind0; [apply keeps_skip|]. intros _ _.
  apply (keeps_bind d 1 1 _ (good d)); [done|]. intros v HQ.
  eapply keeps_bind0; [apply keeps_skip|]. intros _ _.
  apply (keeps_bind d 1 0 _ (λ _, True)); [apply keeps_more|]. intros again _.
  apply keeps_ret. cbn. apply Forall_app. split; [done|]. by apply Forall_singleton.
Qed.

Lemma keeps_object_step d T value fields :
  keeps d 1 T (good d) value → good_fields d fields →
  keeps d 2 T (λ r, good_fields d r.1) (object_step value fields).
Proof.
  intros Hv [Hn Hf]. unfold object_step. eapply keeps_bind0; [apply keeps_skip|]. intros _ _.
  eapply keeps_bind0; [apply keeps_gets|]. intros quoted _. apply keeps_if; [apply keeps_unexpected|].
  apply (keeps_bind0 d _ _ (λ s, is_str s = true)).
  { eapply keeps_weaken; [apply keeps_string|lia|done]. }
  intros name Hname. destruct (existsb _ fields) eqn:E; [apply keeps_error|].
  eapply keeps_bind0; [apply keeps_skip|]. intros _ _.
  apply (keeps_bind0 d _ _ (λ _, True)).
  { eapply keeps_weaken; [apply keeps_expect|lia|done]. }
  intros _ _. eapply keeps_bind0; [apply keeps_skip|]. intros _ _.
  apply (keeps_bind d 1 1 _ (good d)); [done|]. intros v HQ.
  eapply keeps_bind0; [apply keeps_skip|]. intros _ _.
  apply (keeps_bind d 1 0 _ (λ _, True)); [apply keeps_more|]. intros again _.
  apply keeps_ret. cbn. split; [|apply Forall_app; split; [done|by apply Forall_singleton]].
  rewrite fmap_app. apply NoDup_app. split; [done|]. split; [|apply NoDup_singleton].
  intros k Hk Hk'. apply list_elem_of_singleton in Hk'. cbn in Hk'. subst k.
  apply list_elem_of_fmap in Hk as ([k' v'] & Hk' & Hk).
  assert (existsb (λ f, bool_decide (f.1 = name)) fields = true) as Hin; [|congruence].
  apply existsb_exists. exists (k', v'). split; [by apply list_elem_of_In|by apply bool_decide_eq_true].
Qed.

Lemma keeps_value_of d T array object :
  (d ≤ MAX_DEPTH)%nat → keeps d 1 T (good d) array → keeps d 1 T (good d) object →
  keeps d 1 T (good d) (value_of array object).
Proof.
  intros Hd Ha Ho. assert (∀ v, Value.well_formed v = true → Value.height v = 0%nat → good d v) as Hg.
  { intros v Hw Hh. split; [done|lia]. }
  assert (keeps d 1 T (good d) (let! s := string in ret (Str s))) as Hs.
  { apply (keeps_bind d 1 0 _ (λ s, is_str s = true)); [apply keeps_string|].
    intros s Hs. apply keeps_ret. by apply Hg. }
  intros p Hp. unfold value_of. destruct (peek p) as [b|]; [|done]. revert p Hp.
  match goal with |- ∀ p, depth p = d → match ?m p with _ => _ end => change (keeps d 1 T (good d) m) end.
  repeat first [apply keeps_decide | apply keeps_if | by apply keeps_number | apply keeps_unexpected
               | by apply keeps_literal; [cbn; lia|apply Hg] | done].
Qed.

(** Twice the remaining input is fuel enough, at every level of nesting. *)
Lemma keeps_value fuel :
  (∀ d, (d ≤ MAX_DEPTH)%nat → keeps d 1 (fuel + 1) (good d) (value fuel))
  ∧ (∀ d items, (d ≤ MAX_DEPTH)%nat → Forall (good d) items →
      keeps d 0 fuel (Forall (good d)) (array_loop fuel items))
  ∧ (∀ d fields, (d ≤ MAX_DEPTH)%nat → good_fields d fields →
      keeps d 0 fuel (good_fields d) (object_loop fuel fields)).
Proof.
  induction fuel as [|fuel (IHv & IHa & IHo)].
  { split_and!; intros; intros p _ ?; lia. }
  split_and!.
  - intros d Hd. change (value (S fuel)) with
      (value_of (delimited "[" "]" Array (array_loop fuel []))
                (delimited "{" "}" Object (object_loop fuel []))).
    replace (S fuel + 1)%nat with (fuel + 2)%nat by lia.
    apply keeps_value_of; [done|..].
    + apply (keeps_delimited d fuel (Forall (good (S d)))); [done|by intros; apply good_array|]. intros. by apply IHa.
    + apply (keeps_delimited d fuel (good_fields (S d))); [|by intros; apply good_object|].
      * split; [apply NoDup_nil_2|done].
      * intros. apply IHo; [done|]. split; [apply NoDup_nil_2|done].
  - intros d items Hd Hi. change (array_loop (S fuel) items) with
      (bind (array_step (value fuel) items) (λ '(items, again),
         if again : bool then array_loop fuel items else ret items)).
    apply (keeps_weaken d 2 0 _ (Forall (good d))); [|lia|done].
    apply (keeps_bind d 2 0 _ (λ r, Forall (good d) r.1)).
    { apply keeps_array_step; [|done]. replace (S fuel) with (fuel + 1)%nat by lia. by apply IHv. }
    intros [items' again] Hi'. apply keeps_if; [|by apply keeps_ret].
    eapply keeps_le; [by apply IHa|lia].
  - intros d fields Hd Hi. change (object_loop (S fuel) fields) with
      (bind (object_step (value fuel) fields) (λ '(fields, again),
         if again : bool then object_loop fuel fields else ret fields)).
    apply (keeps_weaken d 2 0 _ (good_fields d)); [|lia|done].
    apply (keeps_bind d 2 0 _ (λ r, good_fields d r.1)).
    { apply keeps_object_step; [|done]. replace (S fuel) with (fuel + 1)%nat by lia. by apply IHv. }
    intros [fields' again] Hi'. apply keeps_if; [|by apply keeps_ret].
    eapply keeps_le; [by apply IHo|lia].
Qed.

Lemma run_good input r : run input = r →
  match r with Ok v => good 0 v | Err e => e ≠ NoFuel end.
Proof.
  intros <-. unfold run.
  assert (∀ T, keeps 0 0 T (good 0) (do! skip_whitespace in
    λ p, if at_end p then (Err (Failed UnexpectedEnd), p) else
    (let! v := value (2 * length (rest p) + 1) in
     do! skip_whitespace in
     λ p, if negb (at_end p) then (Err (Failed TrailingContent), p) else (Ok v, p)) p)) as H.
  { intros T. eapply keeps_bind0; [apply keeps_skip|]. intros _ _.
    apply (keeps_measured 0 0 _ _ (λ k p, if at_end p then _ else (let! v := value (2 * k + 1) in _) p)).
    intros k p Hp. destruct (at_end p); [done|]. revert p Hp.
    change (keeps 0 0 (2 * k + 2) (good 0) (let! v := value (2 * k + 1) in
      do! skip_whitespace in
      λ p, if negb (at_end p) then (Err (Failed TrailingContent), p) else (Ok v, p))).
    apply (keeps_bind0 0 _ _ (good 0)).
    { apply (keeps_weaken 0 1 0 _ (good 0)); [|lia|done]. eapply keeps_le; [apply keeps_value; cbn; lia|lia]. }
    intros v Hv. eapply keeps_bind0; [apply keeps_skip|]. intros _ _ p Hp.
    destruct (negb (at_end p)); [done|]. split_and!; done || lia. }
  specialize (H (2 * length (as_bytes input) + 2)%nat (mk_parser (as_bytes input) 0 0) eq_refl).
  destruct (bind _ _ _) as [[v|e] p'] eqn:E; cbn; [by apply H|]. by apply H.
Qed.

(** ** What every rendering reads as

    [reads d P s a m]: at depth [d], in front of [s] followed by any [t]
    satisfying [P], [m] returns [a] and stops right after [s]. *)
Definition reads {A} (d : nat) (P : list byte → Prop) (s : list byte) (a : A) (m : M A) : Prop :=
  ∀ p t, depth p = d → rest p = s ++ t → P t → m p = (Ok a, advance (length s) p).

Lemma rest_advance p s t : rest p = s ++ t → rest (advance (length s) p) = t.
Proof.
  unfold rest, advance. cbn. intros H. rewrite <- drop_drop, H. by rewrite drop_app_length.
Qed.

Lemma advance_advance m n p : advance m (advance n p) = advance (n + m) p.
Proof. unfold advance. cbn. f_equal. lia. Qed.

Lemma advance_0 p : advance 0 p = p.
Proof. destruct p. unfold advance. cbn. by rewrite Nat.add_0_r. Qed.

Lemma reads_bind {A B} d (P1 P2 : list byte → Prop) s1 s2 (a : A) (b : B) m k :
  reads d P1 s1 a m → (∀ t, P2 t → P1 (s2 ++ t)) → reads d P2 s2 b (k a) →
  reads d P2 (s1 ++ s2) b (bind m k).
Proof.
  intros Hm HP Hk p t Hp Hr Ht. rewrite <- app_assoc in Hr. unfold bind.
  rewrite (Hm p (s2 ++ t)) by auto.
  rewrite (Hk _ t); [|done|by apply rest_advance|done].
  rewrite advance_advance. by rewrite length_app.
Qed.

(** A step in front of which nothing is written. *)
Lemma reads_bind0 {A B} d (P1 P2 : list byte → Prop) s (a : A) (b : B) m k :
  reads d P1 [] a m → (∀ t, P2 t → P1 (s ++ t)) → reads d P2 s b (k a) → reads d P2 s b (bind m k).
Proof. intros. by apply (reads_bind d P1 P2 [] s a b). Qed.

Lemma reads_ret {A} d P (a : A) : reads d P [] a (ret a).
Proof. intros p t _ _ _. unfold ret. cbn. by rewrite advance_0. Qed.

Lemma reads_bind_ret {A B} d P s (a : A) (b : B) m (k : A → B) :
  reads d P s a m → k a = b → reads d P s b (bind m (λ a, ret (k a))).
Proof.
  intros Hm <-. rewrite <- (app_nil_r s). apply (reads_bind d P P s [] a (k a)); [done|done|].
  apply reads_ret.
Qed.

Lemma bump_cons p b r : rest p = b :: r → bump p = (Ok (Some b), advance 1 p).
Proof. intros H. unfold bump. by rewrite peek_rest, H. Qed.

Lemma bump_or_end_cons p b r : rest p = b :: r → bump_or_end p = (Ok b, advance 1 p).
Proof. intros H. unfold bump_or_end, bind. by rewrite (bump_cons _ _ _ H). Qed.

Lemma reads_expect d P b : reads d P [b] tt (expect b).
Proof.
  intros p t _ Hr _. unfold expect, bind. rewrite (bump_cons p b t) by done. by rewrite decide_True.
Qed.

Definition starts (f : byte → bool) (t : list byte) : Prop :=
  match t with b :: _ => f b = true | [] => True end.

Lemma span_starts f t : starts (λ b, negb (f b)) t → span f t = 0%nat.
Proof. destruct t as [|b t]; [done|]. cbn. by destruct (f b). Qed.

Lemma span_app f l t :
  forallb f l = true → starts (λ b, negb (f b)) t → span f (l ++ t) = length l.
Proof.
  intros Hl Ht. induction l as [|b l IH]; cbn in *; [by apply span_starts|].
  apply andb_prop in Hl as [-> Hl]. by rewrite IH.
Qed.

Lemma reads_skip d : reads d (starts (λ b, negb (is_space b))) [] tt skip_whitespace.
Proof. intros p t _ Hr Ht. unfold skip_whitespace, skip_while. rewrite Hr. cbn. by rewrite span_starts. Qed.

Lemma reads_more d P close (again : bool) :
  close ≠ ","%byte → reads d P [if again then ","%byte else close] again (more close).
Proof.
  intros Hc p t _ Hr _. unfold more, bind. rewrite (bump_cons _ _ _ Hr).
  destruct again; [done|]. by rewrite decide_False, decide_True.
Qed.

Lemma reads_literal d P word v : reads d P (as_bytes word) v (literal word v).
Proof. intros p t _ Hr _. unfold literal. by rewrite Hr, strip_prefix_bytes_app. Qed.

(** *** Strings *)

Lemma is_continuation_cont b : is_continuation b = is_cont b.
Proof. by_bytes1 b. Qed.

Lemma hex_value_digit d : 0 <= d < 16 → hex_value (Value.hex_digit d) = Some d.
Proof.
  intros H. assert (d ∈ (Z.of_nat <$> seq 0 16)) as Hd.
  { apply list_elem_of_fmap. exists (Z.to_nat d). rewrite Z2Nat.id by lia. split; [done|].
    apply elem_of_seq. lia. }
  revert d H Hd. assert (Forall (λ d, hex_value (Value.hex_digit d) = Some d) (Z.of_nat <$> seq 0 16)) as Hf.
  { repeat constructor. }
  rewrite Forall_forall in Hf. auto.
Qed.

Lemma hex_digits_cons n start value d p r :
  rest p = Value.hex_digit d :: r → 0 <= d < 16 → 0 <= value →
  hex_digits (S n) start value p = hex_digits n start (value * 16 + d) (advance 1 p).
Proof.
  intros Hr Hd Hv. cbn [hex_digits]. unfold bind. rewrite (bump_or_end_cons _ _ _ Hr).
  rewrite hex_value_digit by done. rewrite (lor_disjoint value d 4) by (cbn; lia). done.
Qed.

Lemma rest_advance1 p b r : rest p = b :: r → rest (advance 1 p) = r.
Proof. intros H. by apply (rest_advance p [b]). Qed.

Lemma reads_hex4 d P c : 0 <= c < 0x10000 → reads d P (Value.hex4 c) c hex4.
Proof.
  intros Hc p t _ Hr _. unfold hex4. cbn [Value.hex4 app] in Hr.
  assert (∀ n, 0 <= n mod 16 < 16) as Hm by (intros; by apply Z.mod_pos_bound).
  pose proof (Hm (c / 4096)). pose proof (Hm (c / 256)). pose proof (Hm (c / 16)). pose proof (Hm c).
  do 4 (erewrite hex_digits_cons; [|exact Hr|lia|lia]; apply rest_advance1 in Hr).
  cbn [hex_digits]. unfold ret. rewrite !advance_advance. do 2 f_equal.
  Z.div_mod_to_equations. lia.
Qed.

(** How one character is written: escaped, as itself, or as several bytes. *)
Lemma write_char_cases c : is_scalar c = true →
  (∃ e, Value.write_char c = "\"%byte :: e ∧ ∀ d P, reads d P e c escape)
  ∨ (∃ b, Value.write_char c = [b] ∧ Z_of_byte b = c ∧ 0x20 <= c < 0x80 ∧ c ≠ 0x22 ∧ c ≠ 0x5C)
  ∨ (0x80 <= c ∧ Value.write_char c = encode_char c).
Proof.
  intros Hs. unfold Value.write_char. apply is_scalar_spec in Hs.
  assert (∀ b v, (∀ p, bump_or_end p = (Ok b, advance 1 p) → escape p = (Ok v, advance 1 p)) →
    ∀ d P, reads d P [b] v escape) as Hone.
  { intros b v Hb d P p t _ Hr _. apply Hb. by apply (bump_or_end_cons p b t). }
  repeat match goal with |- context [if ?x =? ?y then _ else _] => destruct (Z.eqb_spec x y) as [->|?] end;
    try (left; eexists; split; [reflexivity|]; apply Hone; intros p Hp; unfold escape, bind, gets;
         by rewrite Hp).
  destruct (Z.ltb_spec c 0x20).
  - left. eexists; split; [reflexivity|]. intros d P p t Hd Hr Ht.
    cbn [app] in Hr. assert (escape p = unicode_escape (advance 1 p)) as ->.
    { unfold escape, bind, gets. by rewrite (bump_or_end_cons _ _ _ Hr). }
    apply rest_advance1 in Hr. unfold unicode_escape, bind.
    rewrite (reads_hex4 d P c ltac:(lia) _ t) by done.
    destruct (Z.leb_spec 0xDC00 c); [lia|]. destruct (Z.leb_spec 0xD800 c); [lia|]. cbn -[is_scalar].
    unfold lift, gets, char_from_u32. rewrite (proj2 (is_scalar_spec c)) by lia. cbn.
    by rewrite advance_advance.
  - right. unfold encode_char. destruct (Z.ltb_spec c 0x80).
    + left. exists (byte_of_Z c). rewrite Z_of_byte_of_Z, Z.mod_small by lia. split_and!; done || lia.
    + by right.
Qed.

(** A character above ASCII: a leading byte, then continuation bytes. *)
Lemma encode_char_multi c :
  0x80 <= c → is_scalar c = true →
  ∃ b l, encode_char c = b :: l ∧ 0xC0 <= Z_of_byte b ∧ forallb is_continuation l = true.
Proof.
  intros Hc Hs%is_scalar_spec. unfold encode_char. destruct (Z.ltb_spec c 0x80); [lia|].
  pose proof (Z.mod_pos_bound c 64 eq_refl). pose proof (Z.mod_pos_bound (c / 64) 64 eq_refl).
  pose proof (Z.mod_pos_bound (c / 4096) 64 eq_refl).
  destruct (Z.ltb_spec c 0x800); [|destruct (Z.ltb_spec c 0x10000)]; do 2 eexists; (split; [reflexivity|]);
    rewrite Z_of_byte_of_Z; cbn [forallb]; rewrite !is_continuation_cont, !is_cont_byte by lia;
    (split; [|done]); rewrite Z.mod_small; Z.div_mod_to_equations; lia.
Qed.

(** No byte of a character beyond ASCII is an ASCII one. *)
Lemma encode_char_high c sep : is_scalar c = true → 0x80 <= c → is_ascii sep = true → sep ∉ encode_char c.
Proof.
  intros Hs Hc Hsep Hin. destruct (encode_char_multi c Hc Hs) as (b & l & E & Hb & Hl). rewrite E in Hin.
  unfold is_ascii in Hsep. apply Z.ltb_lt in Hsep. apply elem_of_cons in Hin as [->|Hin]; [lia|].
  rewrite forallb_forall in Hl. specialize (Hl sep (proj1 (list_elem_of_In _ _) Hin)).
  rewrite is_continuation_cont in Hl. apply is_cont_spec in Hl. lia.
Qed.

Lemma string_loop_char fuel out c p t :
  is_scalar c = true → rest p = Value.write_char c ++ t → starts (λ b, negb (is_continuation b)) t →
  string_loop (S fuel) out p =
  string_loop fuel (out +:+ of_chars [c]) (advance (length (Value.write_char c)) p).
Proof.
  intros Hs Hr Ht. cbn [string_loop]. unfold bind at 1, gets.
  destruct (write_char_cases c Hs) as [(e & He & Hesc)|[(b & Hb & Hv & Hr1 & Hn1 & Hn2)|[Hc Hw]]].
  - rewrite He in *. unfold bind at 1. rewrite (bump_or_end_cons _ _ _ Hr).
    rewrite decide_False, decide_True by done. unfold bind. rewrite (Hesc (depth p) (λ _, True) (advance 1 p) t); [|done|by apply (rest_advance1 _ _ _ Hr)|done].
    by rewrite advance_advance.
  - rewrite Hb in *. unfold bind at 1. rewrite (bump_or_end_cons _ _ _ Hr).
    rewrite decide_False by (intros ->; cbn in Hv; lia). rewrite decide_False by (intros ->; cbn in Hv; lia).
    rewrite Hv. destruct (Z.ltb_spec c 0x20); [lia|]. by destruct (Z.ltb_spec c 0x80); [|lia].
  - rewrite Hw in *. destruct (encode_char_multi c Hc Hs) as (b & l & He & Hb & Hl).
    rewrite He in *. unfold bind at 1. rewrite (bump_or_end_cons _ _ _ Hr).
    rewrite decide_False by (intros ->; cbn in Hb; lia). rewrite decide_False by (intros ->; cbn in Hb; lia).
    destruct (Z.ltb_spec (Z_of_byte b) 0x20); [lia|]. destruct (Z.ltb_spec (Z_of_byte b) 0x80); [lia|].
    unfold bind. rewrite multi_byte_eq, (rest_advance1 _ _ _ Hr), span_app by done.
    fold (rest p). rewrite bytes_advance. change (drop (position p) (bytes p)) with (rest p).
    change (position (advance 1 p)) with (position p + 1)%nat.
    replace (position p + 1 + length l - position p)%nat with (length (b :: l)) by (cbn; lia).
    rewrite Hr, take_app_length, <- He, (from_utf8_encode_char c Hs).
    by rewrite advance_advance, He.
Qed.

Lemma of_chars_cons c cs : of_chars (c :: cs) = of_chars [c] +:+ of_chars cs.
Proof. unfold of_chars. by rewrite <- of_bytes_app, <- encode_chars_app. Qed.

Lemma write_chars_starts cs t :
  forallb is_scalar cs = true →
  starts (λ b, negb (is_continuation b)) (concat (Value.write_char <$> cs) ++ x22 :: t).
Proof.
  destruct cs as [|c cs]; [done|]. cbn -[Value.write_char is_scalar is_continuation]. intros [Hs _]%andb_prop.
  destruct (write_char_cases c Hs) as [(e & -> & _)|[(b & -> & Hv & Hr1 & _)|[Hc ->]]]; [done|..].
  - cbn -[is_continuation]. rewrite is_continuation_cont. apply negb_true_iff, not_true_iff_false.
    rewrite is_cont_spec. lia.
  - destruct (encode_char_multi c Hc Hs) as (b & l & -> & Hb & _). cbn -[is_continuation].
    rewrite is_continuation_cont. apply negb_true_iff, not_true_iff_false. rewrite is_cont_spec. lia.
Qed.

Lemma string_append_assoc (a b c : String.string) : (a +:+ b) +:+ c = a +:+ (b +:+ c).
Proof. apply (inj as_bytes). by rewrite !as_bytes_app, app_assoc. Qed.

Lemma reads_string_loop d P fuel out cs :
  forallb is_scalar cs = true → (length cs < fuel)%nat →
  reads d P (concat (Value.write_char <$> cs) ++ [x22]) (out +:+ of_chars cs) (string_loop fuel out).
Proof.
  revert fuel out. induction cs as [|c cs IH]; intros fuel out Hs Hf p t Hp Hr Ht;
    (destruct fuel as [|fuel]; [lia|]).
  - cbn in Hr. cbn [string_loop]. unfold bind, gets. rewrite (bump_or_end_cons _ _ _ Hr).
    rewrite decide_True by done. unfold ret. do 2 f_equal. apply (inj as_bytes).
    by rewrite as_bytes_app, app_nil_r.
  - cbn [forallb] in Hs. apply andb_prop in Hs as [Hc Hs].
    rewrite fmap_cons in *. cbn [concat] in *. rewrite <- !app_assoc in *.
    rewrite (string_loop_char fuel out c p _ Hc Hr) by (by apply write_chars_starts).
    cbn [length] in Hf.
    rewrite (IH fuel (out +:+ of_chars [c]) Hs ltac:(lia) _ t); [|done| |done].
    + rewrite advance_advance, <- length_app, string_append_assoc. by rewrite <- of_chars_cons.
    + apply rest_advance in Hr. by rewrite <- app_assoc.
Qed.

Lemma write_char_length c : (1 ≤ length (Value.write_char c))%nat.
Proof.
  unfold Value.write_char. repeat case_match; cbn; try lia.
  destruct (encode_char c) eqn:E; [by destruct (encode_char_nonnil c)|cbn; lia].
Qed.

Lemma write_chars_length cs : (length cs ≤ length (concat (Value.write_char <$> cs)))%nat.
Proof.
  induction cs as [|c cs IH]; [done|]. rewrite fmap_cons. cbn [concat]. rewrite length_app.
  pose proof (write_char_length c). cbn. lia.
Qed.

Lemma reads_string d P s : is_str s = true → reads d P (Value.write_string s) s string.
Proof.
  intros Hs. change (reads d P ([x22] ++ (concat (Value.write_char <$> chars s) ++ [x22])) s
    (bind (expect x22) (λ _ p, string_loop (S (length (rest p))) EmptyString p))).
  apply (reads_bind d (λ _, True) P _ _ tt); [apply reads_expect|done|]. intros q u Hq Hru Hu. rewrite Hru.
  pose proof (reads_string_loop d P (S (length ((concat (Value.write_char <$> chars s) ++ [x22]) ++ u)))
    EmptyString (chars s) (chars_scalar s)) as H.
  rewrite (of_chars_chars s Hs) in H. apply (H ltac:(rewrite !length_app; pose proof (write_chars_length (chars s)); lia) q u); done.
Qed.

(** *** Numbers *)

(** What may follow a number without becoming part of it. *)
Definition ends_number (b : byte) : bool :=
  negb (is_ascii_digit b || bool_decide (b = "."%byte) || bool_decide (b = "e"%byte)
        || bool_decide (b = "E"%byte)).

Lemma peek_is_starts f p t : rest p = t → starts (λ b, negb (f b)) t → peek_is f p = false.
Proof.
  intros Hr Ht. unfold peek_is. rewrite peek_rest, Hr. destruct t as [|b t]; [done|]. cbn in *.
  by destruct (f b).
Qed.

Lemma starts_weaken (f g : byte → bool) t : (∀ b, f b = true → g b = true) → starts f t → starts g t.
Proof. destruct t; cbn; auto. Qed.

Lemma reads_integer_part d l :
  forallb is_ascii_digit l = true → (l = ["0"%byte] ∨ ∃ b r, l = b :: r ∧ byte_between "1" "9" b = true) →
  reads d (starts ends_number) l tt integer_part.
Proof.
  intros Hl Hhead p t Hp Hr Ht. unfold integer_part. rewrite peek_rest, Hr.
  destruct Hhead as [->|(b & r & -> & Hb)]; [by cbn; rewrite decide_True|]. cbn [app head].
  rewrite decide_False by (intros ->; by vm_compute in Hb). rewrite Hb. unfold skip_while.
  rewrite Hr, span_app; [done|done|]. revert Ht. apply starts_weaken. intros c.
  unfold ends_number. by destruct (is_ascii_digit c).
Qed.

Lemma show_Z_bytes z :
  as_bytes (show_Z z) = (if z <? 0 then ["-"%byte] else []) ++ show_unsigned (Z.abs z).
Proof.
  unfold show_Z. rewrite as_bytes_of_bytes. destruct (Z.ltb_spec z 0); cbn.
  - by rewrite Z.abs_neq by lia.
  - by rewrite Z.abs_eq by lia.
Qed.

Lemma show_unsigned_not_minus n b r : 0 <= n → show_unsigned n = b :: r → b ≠ "-"%byte.
Proof.
  intros Hn E. destruct (show_unsigned_spec n Hn) as (_ & Hd & _). rewrite E in Hd.
  intros ->. by cbn in Hd.
Qed.

Lemma reads_minus z d :
  reads d (λ t, ∃ u, t = show_unsigned (Z.abs z) ++ u)
    (if z <? 0 then ["-"%byte] else []) tt (skip_sign (λ b, bool_decide (b = "-"%byte))).
Proof.
  intros p t Hp Hr [u ->]. unfold skip_sign, peek_is. rewrite peek_rest, Hr.
  destruct (Z.ltb_spec z 0); [done|].
  destruct (show_unsigned (Z.abs z)) as [|b r] eqn:E; [by destruct (show_unsigned_spec (Z.abs z)) as (? & _); [lia|]|].
  cbn. apply show_unsigned_not_minus in E; [|lia]. rewrite bool_decide_false by done.
  by rewrite advance_0.
Qed.

Lemma reads_no_fraction d : reads d (starts ends_number) [] false fraction_part.
Proof.
  intros p t Hp Hr Ht. unfold fraction_part. rewrite (peek_is_starts _ p t Hr); [by rewrite advance_0|].
  revert Ht. apply starts_weaken. intros b. unfold ends_number. by case_bool_decide; rewrite ?orb_true_r.
Qed.

Lemma reads_no_exponent d : reads d (starts ends_number) [] false exponent_part.
Proof.
  intros p t Hp Hr Ht. unfold exponent_part. rewrite (peek_is_starts _ p t Hr); [by rewrite advance_0|].
  revert Ht. apply starts_weaken. intros b. unfold ends_number.
  repeat case_bool_decide; by rewrite ?orb_true_r.
Qed.

Lemma is_str_show_Z z : is_str (show_Z z) = true.
Proof. apply is_str_ascii. rewrite show_Z_bytes, forallb_app.
  apply andb_true_intro; split; [by destruct (z <? 0)|]. apply show_unsigned_ascii. lia. Qed.

Lemma reads_number d i :
  in_i64 i = true → reads d (starts ends_number) (as_bytes (show_Z i)) (Int i) number.
Proof.
  intros Hi p t Hp Hr Ht. unfold number, bind at 1, gets.
  assert (reads d (starts ends_number) (as_bytes (show_Z i)) false
    (do! skip_sign (λ b, bool_decide (b = "-"%byte)) in do! integer_part in
     let! fractional := fraction_part in let! scientific := exponent_part in
     ret (fractional || scientific))) as H.
  { rewrite show_Z_bytes. destruct (show_unsigned_spec (Z.abs i)) as (Hne & Hd & Hv); [lia|].
    eapply (reads_bind d _ _ _ _ tt); [apply reads_minus|intros u _; by exists u|].
    rewrite <- (app_nil_r (show_unsigned (Z.abs i))).
    apply (reads_bind d (starts ends_number) _ _ _ tt); [|done|].
    { apply reads_integer_part; [done|]. apply show_unsigned_head. lia. }
    apply (reads_bind0 d (starts ends_number) _ _ false); [apply reads_no_fraction|done|].
    apply (reads_bind0 d (starts ends_number) _ _ false); [apply reads_no_exponent|done|].
    apply reads_ret. }
  specialize (H p t Hp Hr Ht). revert H. unfold bind, ret.
  destruct (skip_sign _ p) as [[[]|?] p1]; [|done].
  destruct (integer_part p1) as [[[]|?] p2]; [|done].
  destruct (fraction_part p2) as [[f|?] p3]; [|done].
  destruct (exponent_part p3) as [[e|?] p4]; [|done]. intros [= Hfe ->].
  change (position (advance ?n p)) with (position p + n)%nat.
  replace (position p + length (as_bytes (show_Z i)) - position p)%nat
    with (length (as_bytes (show_Z i))) by lia.
  rewrite bytes_advance. change (drop (position p) (bytes p)) with (rest p).
  rewrite Hr, take_app_length, from_utf8_as_bytes by apply is_str_show_Z.
  rewrite Hfe. unfold number_value. by rewrite parse_show_i64.
Qed.

(** *** Values *)

(** What follows a value inside a document: nothing, or a delimiter. *)
Definition ends_value (b : byte) : bool :=
  bool_decide (b = ","%byte) || bool_decide (b = "]"%byte) || bool_decide (b = "}"%byte).

Lemma ends_value_spec b : ends_value b = true → ends_number b = true ∧ is_space b = false.
Proof.
  unfold ends_value. rewrite !orb_true_iff, !bool_decide_eq_true. by intros [[-> | ->]| ->].
Qed.

(** Where a value may start: neither white space nor a closing delimiter. *)
Definition starts_value (b : byte) : bool :=
  negb (is_space b) && negb (bool_decide (b = "]"%byte)) && negb (bool_decide (b = "}"%byte)).

Lemma digit_starts_value b : is_ascii_digit b = true → starts_value b = true.
Proof.
  rewrite is_ascii_digit_spec. intros H. unfold starts_value, is_space.
  repeat (case_bool_decide; [subst; cbn in H; lia|]). done.
Qed.

Lemma show_Z_head z : ∃ b r, as_bytes (show_Z z) = b :: r ∧ starts_value b = true
  ∧ (b = "-"%byte ∨ is_ascii_digit b = true).
Proof.
  rewrite show_Z_bytes. destruct (z <? 0); [do 2 eexists; split; [reflexivity|]; split; [done|by left]|].
  destruct (show_unsigned_spec (Z.abs z)) as (Hne & Hd & _); [lia|].
  destruct (show_unsigned (Z.abs z)) as [|b r]; [done|]. exists b, r. cbn in Hd.
  apply andb_prop in Hd as [Hd _]. split_and!; [done|by apply digit_starts_value|by right].
Qed.

Lemma render_head v :
  Value.float_free v = true → ∃ b r, Value.render v = b :: r ∧ starts_value b = true.
Proof.
  intros Hv. destruct v as [|[]|i|x|s|items|fields]; try done; try by do 2 eexists.
  destruct (show_Z_head i) as (b & r & Hb & Hs & _). by exists b, r.
Qed.

Lemma reads_skip_value v r :
  Value.float_free v = true → ∀ t, starts (λ b, negb (is_space b)) ((Value.render v ++ r) ++ t).
Proof.
  intros Hv t. destruct (render_head v Hv) as (b & l & -> & Hb). cbn.
  unfold starts_value in Hb. apply andb_prop in Hb as [Hb _]. by apply andb_prop in Hb as [Hb _].
Qed.

Definition readable (d : nat) (v : Value) : Prop :=
  Value.float_free v = true ∧ ∀ fuel, (2 * length (Value.render v) + 1 ≤ fuel)%nat →
  reads d (starts ends_value) (Value.render v) v (value fuel).

Definition closing (again : bool) (close : byte) : byte := if again then ","%byte else close.

Lemma closing_ends again close t :
  ends_value close = true → starts ends_value ([closing again close] ++ t).
Proof. by destruct again. Qed.

Lemma ends_not_space b : ends_value b = true → negb (is_space b) = true.
Proof. intros H%ends_value_spec. by destruct H as [_ ->]. Qed.

Lemma reads_array_step d P fuel items v again :
  readable d v → (2 * length (Value.render v) + 1 ≤ fuel)%nat →
  reads d P (Value.render v ++ [closing again "]"]) (items ++ [v], again) (array_step (value fuel) items).
Proof.
  intros [Hv Hr] Hf. unfold array_step.
  eapply reads_bind0; [apply reads_skip|by intros; apply reads_skip_value|].
  eapply (reads_bind d _ _ _ _ v); [by apply Hr|by intros; apply closing_ends|].
  eapply reads_bind0; [apply reads_skip| |].
  { intros t _. eapply starts_weaken; [apply ends_not_space|]. by apply closing_ends. }
  apply (reads_bind_ret d P _ again _ _ (λ again, (items ++ [v], again))); [by apply reads_more|done].
Qed.

Lemma comma_separated_cons p q ps :
  Value.comma_separated (p :: q :: ps) = p ++ [","%byte] ++ Value.comma_separated (q :: ps).
Proof. done. Qed.

(** The loop of [array] and that of [object]: each element is read by one turn. *)
Section loop.
Context {A : Type} (d : nat) (piece : A → list byte) (close : byte).
Context (step : nat → list A → M (list A * bool)) (loop : nat → list A → M (list A)).
Context (fits : list A → A → Prop).
Hypothesis loop_S : ∀ fuel acc, loop (S fuel) acc =
  bind (step fuel acc) (λ '(acc, again), if again : bool then loop fuel acc else ret acc).
Hypothesis step_reads : ∀ P fuel acc x again,
  fits acc x → (2 * length (piece x) + 1 ≤ fuel)%nat →
  reads d P (piece x ++ [closing again close]) (acc ++ [x], again) (step fuel acc).

Lemma reads_loop P x xs acc fuel :
  (∀ l1 y l2, x :: xs = l1 ++ y :: l2 → fits (acc ++ l1) y) →
  let text := Value.comma_separated (map piece (x :: xs)) ++ [close] in
  (2 * length text ≤ fuel)%nat → reads d P text (acc ++ x :: xs) (loop fuel acc).
Proof using loop_S step_reads.
  revert x acc fuel. induction xs as [|y xs IH]; intros x acc fuel Hfits text Hf;
    pose proof (Hfits [] x _ eq_refl) as Hx; rewrite app_nil_r in Hx;
    (destruct fuel as [|fuel]; [unfold text in Hf; rewrite length_app in Hf; cbn in Hf; lia|]);
    rewrite loop_S.
  - unfold text in *. cbn [map Value.comma_separated fmap list_fmap concat] in *. rewrite app_nil_r in *.
    rewrite <- (app_nil_r (piece x ++ _)). rewrite length_app in Hf. cbn in Hf.
    eapply (reads_bind d (λ _, True) _ _ _ (acc ++ [x], false)); [|done|apply reads_ret].
    apply (step_reads _ fuel acc x false Hx). lia.
  - assert (text = (piece x ++ [closing true close])
      ++ (Value.comma_separated (map piece (y :: xs)) ++ [close])) as Ht.
    { unfold text. cbn [map]. by rewrite comma_separated_cons, <- !app_assoc. }
    clearbody text. subst text. rewrite !length_app in Hf. cbn [length] in Hf.
    eapply (reads_bind d (λ _, True) _ _ _ (acc ++ [x], true)); [|done|].
    + apply (step_reads _ fuel acc x true Hx). lia.
    + replace (acc ++ x :: y :: xs) with ((acc ++ [x]) ++ y :: xs) by (by rewrite <- app_assoc).
      apply IH; [|rewrite length_app; cbn [length]; lia].
      intros l1 z l2 Heq. rewrite <- app_assoc. apply (Hfits (x :: l1) z l2). by rewrite Heq.
Qed.
End loop.

(** *** Objects *)

Definition render_field (f : String.string * Value) : list byte :=
  Value.write_string f.1 ++ ":"%byte :: Value.render f.2.

Lemma reads_object_step d P fuel fields k v again :
  readable d v → is_str k = true → k ∉ fields.*1 → (2 * length (Value.render v) + 1 ≤ fuel)%nat →
  reads d P (render_field (k, v) ++ [closing again "}"]) (fields ++ [(k, v)], again)
    (object_step (value fuel) fields).
Proof.
  intros [Hv Hr] Hk Hnew Hf. unfold object_step.
  eapply reads_bind0; [apply reads_skip|done|].
  apply (reads_bind0 d (λ t, ∃ r, t = x22 :: r) P _ true).
  { intros p t Hp Hrest [r ->]. unfold gets, peek_is. rewrite peek_rest, Hrest. cbn.
    by rewrite advance_0. }
  { intros t _. by eexists. }
  cbn [negb]. unfold render_field. cbn [fst snd]. rewrite <- app_assoc.
  eapply (reads_bind d (λ _, True) P _ _ k); [by apply reads_string|done|].
  destruct (existsb _ fields) eqn:E.
  { apply existsb_exists in E as ([k' v'] & Hin & Hk'). apply bool_decide_eq_true in Hk'. cbn in Hk'.
    subst k'. destruct Hnew. apply list_elem_of_fmap. exists (k, v'). split; [done|].
    by apply list_elem_of_In. }
  eapply reads_bind0; [apply reads_skip|done|].
  apply (reads_bind d (λ _, True) P [":"%byte] (Value.render v ++ [closing again "}"]) tt);
    [apply reads_expect|done|].
  eapply reads_bind0; [apply reads_skip|by intros; apply reads_skip_value|].
  eapply (reads_bind d _ _ _ _ v); [by apply Hr|by intros; apply closing_ends|].
  eapply reads_bind0; [apply reads_skip| |].
  { intros t _. eapply starts_weaken; [apply ends_not_space|]. by apply closing_ends. }
  apply (reads_bind_ret d P _ again _ _ (λ again, (fields ++ [(k, v)], again))); [by apply reads_more|done].
Qed.

Lemma reads_delimited {A} d P (open close c : byte) r (l : list A) build loop :
  (S d ≤ MAX_DEPTH)%nat → is_space c = false →
  (c = close ∧ r = [] ∧ build [] = build l) ∨ (c ≠ close ∧ reads (S d) P (c :: r) l loop) →
  reads d P (open :: c :: r) (build l) (delimited open close build loop).
Proof.
  intros Hd Hspace Htext p t Hp Hr Ht. unfold delimited at 1, bind at 1, enter. rewrite Hp.
  cbn [depth set_depth]. destruct (Nat.ltb_spec MAX_DEPTH (S d)) as [|_]; [lia|]. unfold bind at 1.
  rewrite (reads_expect (S d) (λ _, True) open _ ((c :: r) ++ t)) by done.
  unfold bind at 1. rewrite (reads_skip (S d) _ ((c :: r) ++ t));
    [|done|exact (rest_advance (set_depth (S d) p) [open] _ Hr)|by cbn; rewrite Hspace].
  cbn [length]. rewrite advance_advance. change (1 + 0)%nat with 1%nat.
  set (q := advance 1 (set_depth (S d) p)).
  assert (rest q = (c :: r) ++ t) as Hq by (by apply (rest_advance1 _ open)).
  unfold peek_is at 1. rewrite peek_rest, Hq. cbn [app head].
  destruct Htext as [(-> & -> & Hb)|[Hne Hloop]].
  - rewrite bool_decide_true by done. rewrite <- Hb.
    unfold bind, modify, leave, ret, q, advance, set_depth. cbn -[Nat.sub]. do 2 f_equal; lia.
  - rewrite bool_decide_false by done. unfold bind at 1. rewrite (Hloop q t) by done.
    unfold bind, modify, leave, ret, q, advance, set_depth. cbn -[Nat.sub]. do 2 f_equal; lia.
Qed.

Lemma value_of_eq array object p b r :
  rest p = b :: r → value_of array object p =
    (if decide (b = "n"%byte) then literal "null" Null
     else if decide (b = "t"%byte) then literal "true" (Bool true)
     else if decide (b = "f"%byte) then literal "false" (Bool false)
     else if decide (b = x22) then let! s := string in ret (Str s)
     else if decide (b = "["%byte) then array
     else if decide (b = "{"%byte) then object
     else if decide (b = "-"%byte) then number
     else if is_ascii_digit b then number
     else unexpected_here 0) p.
Proof. intros H. unfold value_of. by rewrite peek_rest, H. Qed.

Lemma value_eq fuel : value (S fuel) = λ p,
  value_of (delimited "[" "]" Array (array_loop fuel [])) (delimited "{" "}" Object (object_loop fuel [])) p.
Proof. done. Qed.

Lemma comma_separated_head x xs : ∃ r, Value.comma_separated (x :: xs) = x ++ r.
Proof. by eexists. Qed.

Lemma ends_value_number t : starts ends_value t → starts ends_number t.
Proof. apply starts_weaken. intros b Hb. by apply ends_value_spec in Hb as [? _]. Qed.

Lemma readable_array d items :
  (S d ≤ MAX_DEPTH)%nat → Forall (readable (S d)) items → readable d (Array items).
Proof.
  intros Hd Hall. split; [induction Hall as [|v l [Hv _] _ IH]; [done|cbn in *; by rewrite Hv]|].
  intros fuel Hf p t Hp Hr Ht. destruct fuel as [|fuel]; [lia|]. rewrite value_eq.
  cbn [Value.render] in *. rewrite (value_of_eq _ _ p _ _ Hr).
  do 4 rewrite decide_False by done. rewrite decide_True by done.
  destruct items as [|v vs].
  { apply (reads_delimited d (starts ends_value) _ _ "]" [] [] Array _ Hd) with (t := t); [done|by left|done..]. }
  destruct (render_head v (proj1 (Forall_inv Hall))) as (b & r & Hb & Hstart).
  unfold starts_value in Hstart. rewrite !andb_true_iff, !negb_true_iff, !bool_decide_eq_false in Hstart.
  destruct Hstart as [[Hspace Hbr] _].
  assert (∃ r', Value.comma_separated (map Value.render (v :: vs)) ++ ["]"%byte] = b :: r') as [r' Hr'].
  { cbn [map]. destruct (comma_separated_head (Value.render v) (map Value.render vs)) as [u ->].
    rewrite Hb. by eexists. }
  rewrite Hr' in *. apply (reads_delimited d (starts ends_value) _ _ b r' (v :: vs) Array _ Hd) with (t := t);
    [done| |done..].
  right. split; [done|]. rewrite <- Hr'.
  apply (reads_loop (S d) Value.render "]" (λ f, array_step (value f)) array_loop (λ _, readable (S d)))
    with (acc := []); [done| | |].
  - intros P f acc x again Hx Hfx. by apply reads_array_step.
  - intros l1 y l2 Heq. rewrite Heq in Hall. apply Forall_app in Hall as [_ Hall]. by apply Forall_inv in Hall.
  - rewrite Hr'. cbn [length] in *. lia.
Qed.

Lemma readable_object d fields :
  (S d ≤ MAX_DEPTH)%nat → NoDup fields.*1 → forallb (λ f, is_str f.1) fields = true →
  Forall (λ f, readable (S d) f.2) fields → readable d (Object fields).
Proof.
  intros Hd Hn Hk Hall.
  split; [clear Hn Hk; induction Hall as [|[k v] l [Hv _] _ IH]; [done|cbn in *; by rewrite Hv]|].
  intros fuel Hf p t Hp Hr Ht. destruct fuel as [|fuel]; [lia|]. rewrite value_eq.
  cbn [Value.render] in *. rewrite (value_of_eq _ _ p _ _ Hr).
  do 5 rewrite decide_False by done. rewrite decide_True by done.
  destruct fields as [|[k v] fs].
  { apply (reads_delimited d (starts ends_value) _ _ "}" [] [] Object _ Hd) with (t := t); [done|by left|done..]. }
  change (map (λ f, Value.write_string f.1 ++ ":"%byte :: Value.render f.2)) with (map render_field) in *.
  assert (∃ r', Value.comma_separated (map render_field ((k, v) :: fs)) ++ ["}"%byte] = x22 :: r') as [r' Hr']
    by (by eexists).
  rewrite Hr' in *.
  apply (reads_delimited d (starts ends_value) _ _ x22 r' ((k, v) :: fs) Object _ Hd) with (t := t);
    [done| |done..].
  right. split; [done|]. rewrite <- Hr'.
  apply (reads_loop (S d) render_field "}" (λ f, object_step (value f)) object_loop
    (λ acc f, readable (S d) f.2 ∧ is_str f.1 = true ∧ f.1 ∉ acc.*1)) with (acc := []); [done| | |].
  - intros P f acc [k' v'] again (Hx & Hs & Hnew) Hfx. apply reads_object_step; try done.
    cbn in *. unfold render_field in Hfx. cbn in Hfx. rewrite length_app in Hfx. cbn in Hfx. lia.
  - intros l1 y l2 Heq. rewrite Heq in Hall, Hn, Hk. apply Forall_app in Hall as [_ Hall].
    rewrite forallb_app in Hk. apply andb_prop in Hk as [_ Hk]. cbn in Hk. apply andb_prop in Hk as [Hk _].
    rewrite fmap_app in Hn. apply NoDup_app in Hn as (_ & Hn & _). split_and!; [by apply Forall_inv in Hall|done|].
    cbn. intros Hin. apply (Hn _ Hin). by left.
  - rewrite Hr'. cbn [length] in *. lia.
Qed.

Lemma readable_value v d :
  Value.well_formed v = true → Value.float_free v = true → (Value.height v + d ≤ MAX_DEPTH)%nat →
  readable d v.
Proof.
  revert d. induction v as [|b|i|x|s|items IH|fields IH] using Value.nested_ind; intros d Hw Hff Hh.
  1-5: split; [done|]; intros fuel Hf p t Hp Hr Ht; destruct fuel as [|fuel]; [lia|]; rewrite value_eq.
  - rewrite (value_of_eq _ _ p _ _ Hr), decide_True by done.
    by apply (reads_literal d (starts ends_value) "null" Null p t).
  - destruct b; rewrite (value_of_eq _ _ p _ _ Hr).
    + rewrite decide_False, decide_True by done. by apply (reads_literal d (starts ends_value) "true" (Bool true) p t).
    + do 2 rewrite decide_False by done. rewrite decide_True by done.
      by apply (reads_literal d (starts ends_value) "false" (Bool false) p t).
  - cbn [Value.render Value.well_formed] in *. pose proof (reads_number d i Hw p t Hp Hr (ends_value_number t Ht)) as Hnum.
    destruct (show_Z_head i) as (b & r & Hb & _ & Hcase). rewrite Hb in Hr.
    rewrite (value_of_eq _ _ p _ _ Hr). etransitivity; [|exact Hnum].
    destruct Hcase as [->|Hdig]; [done|].
    repeat (rewrite decide_False by (intros ->; by vm_compute in Hdig)). by rewrite Hdig.
  - done.
  - rewrite (value_of_eq _ _ p _ _ Hr). do 3 rewrite decide_False by done. rewrite decide_True by done.
    unfold bind. by rewrite (reads_string d (starts ends_value) s Hw p t).
  - cbn in Hw, Hff, Hh. apply readable_array; [lia|]. apply Forall_forall. intros v Hv.
    rewrite Forall_forall in IH. rewrite forallb_forall in Hw, Hff.
    apply IH; [done|by apply Hw, list_elem_of_In|by apply Hff, list_elem_of_In|].
    assert (Value.height v ≤ fold_right (λ v, Nat.max (Value.height v)) 0 items)%nat; [|lia].
    clear -Hv. induction items as [|w items IHi]; [by apply not_elem_of_nil in Hv|].
    apply elem_of_cons in Hv as [->|Hv]; cbn; [lia|]. specialize (IHi Hv). lia.
  - cbn in Hw, Hff, Hh. apply andb_prop in Hw as [Hn Hw]. apply bool_decide_eq_true in Hn.
    apply readable_object; [lia|done| |].
    + apply forallb_forall. intros f Hf. rewrite forallb_forall in Hw. by apply Hw, andb_prop in Hf as [? _].
    + apply Forall_forall. intros f Hv. rewrite Forall_forall in IH. rewrite forallb_forall in Hw, Hff.
      apply IH; [done| |by apply Hff, list_elem_of_In|].
      * apply list_elem_of_In, Hw, andb_prop in Hv as [_ ?]. done.
      * assert (Value.height f.2 ≤ fold_right (λ f, Nat.max (Value.height f.2)) 0 fields)%nat; [|lia].
        clear -Hv. induction fields as [|w fields IHi]; [by apply not_elem_of_nil in Hv|].
        apply elem_of_cons in Hv as [->|Hv]; cbn; [lia|]. specialize (IHi Hv). lia.
Qed.

Lemma run_render v :
  Value.well_formed v = true → Value.float_free v = true → (Value.height v ≤ MAX_DEPTH)%nat →
  run (Value.to_string v) = Ok v.
Proof.
  intros Hw Hff Hh. unfold run, Value.to_string. rewrite as_bytes_of_bytes.
  set (p := mk_parser (Value.render v) 0 0).
  destruct (render_head v Hff) as (b & r & Hb & Hs).
  assert (rest p = Value.render v) as Hr by (by unfold rest, p).
  unfold bind at 1. rewrite (reads_skip 0 p (Value.render v)); [|done|done|].
  2:{ rewrite Hb. cbn. unfold starts_value in Hs. apply andb_prop in Hs as [Hs _].
      by apply andb_prop in Hs as [Hs _]. }
  change (length []) with 0%nat. rewrite advance_0.
  assert (at_end p = false) as -> by (unfold at_end, p; cbn [bytes position]; by rewrite Hb).
  rewrite Hr. destruct (readable_value v 0 Hw Hff ltac:(lia)) as [_ Hread]. unfold bind at 1.
  rewrite (Hread _ (le_n _) p []); [|done|by rewrite app_nil_r|done].
  unfold bind. rewrite (reads_skip 0 _ []);
    [|done|apply (rest_advance p (Value.render v)); by rewrite app_nil_r|done].
  change (length []) with 0%nat. rewrite advance_0.
  assert (at_end (advance (length (Value.render v)) p) = true) as -> by (by apply Nat.leb_refl).
  done.
Qed.
End Parser.

(** [ls_json::parse]. Running out of fuel never happens ([Parser.run_good]). *)
Definition parse (input : string) : result JsonError Value :=
  match Parser.run input with
  | Ok v => Ok v
  | Err (Failed e) => Err e
  | Err NoFuel => Err UnexpectedEnd
  end.

(* {"a":[1,-20,true],"b":null} *)
Definition sample : string :=
  of_bytes ([x7b; x22; x61; x22; x20; x3a; x5b] ++ as_bytes "1, -20,true],"
            ++ [x22; x62; x22] ++ as_bytes ":null }").
Example parse_sample : parse sample = Ok (Object [("a", Array [Int 1; Int (-20); Bool true]); ("b", Null)]).
Proof. vm_compute. reflexivity. Qed.
Example parse_deep : parse "[[1]]x" = Err TrailingContent ∧ parse "01" = Err TrailingContent
  ∧ parse "[1,]" = Err (Unexpected 3) ∧ parse "1.5e1" = Ok (Float (f64.of_decimal false 15 0)).
Proof. vm_compute. done. Qed.

Lemma parse_rendered v :
  Value.well_formed v = true → Value.float_free v = true → (Value.height v ≤ MAX_DEPTH)%nat →
  parse (Value.to_string v) = Ok v.
Proof. intros. unfold parse. by rewrite Parser.run_render. Qed.

(** C23: every document the program writes reads back as the value
    it was written from, when that value is one the program builds: machine
    integers, UTF-8 strings, distinct keys, no floating-point numbers, and no
    deeper than the parser accepts. *)
Theorem parse_to_string (v : Value) :
  Value.well_formed v = true → Value.float_free v = true → (Value.height v ≤ MAX_DEPTH)%nat →
  parse (Value.to_string v) = Ok v.
Proof. apply parse_rendered. Qed.

Lemma parse_to_string_witness :
  let v := Object [("n", Array [Int (-5); Str (of_chars [10; 0x1F; 233; 0x1F600; 34]); Null]);
                   ("flag", Bool true)] in
  parse (Value.to_string v) = Ok v.
Proof. apply parse_to_string; [reflexivity|reflexivity|cbn; unfold MAX_DEPTH; lia]. Defined.

Lemma parse_well_formed input v : parse input = Ok v → Value.well_formed v = true.
Proof.
  unfold parse. pose proof (Parser.run_good input _ eq_refl) as H.
  destruct (Parser.run input) as [x|[e|]]; [|done..]. intros [= <-]. apply H.
Qed.

(** C24: whatever text a client sends, parsing ends with a result (the
    fuel never runs out), and a value it accepts has machine integers, valid
    strings, no duplicate key in any object, and nesting of at most
    [MAX_DEPTH]. *)
Theorem parse_sound (input : string) :
  Parser.run input ≠ Err NoFuel
  ∧ match parse input with
    | Ok v => Value.well_formed v = true ∧ (Value.height v ≤ MAX_DEPTH)%nat
    | Err _ => True
    end.
Proof.
  unfold parse. pose proof (Parser.run_good input _ eq_refl) as H.
  destruct (Parser.run input) as [v|[e|]]; (split; [congruence|]); [|done..].
  destruct H as [? ?]. split; [done|lia].
Qed.
