(* ===== verification/World.v ===== *)
(** * What the program asks of its surroundings

    The operating system as the source uses it: entropy, the clock and one
    directory of files. The answers are a parameter, the class [Env], and may be
    anything: entropy may be refused, the clock may jump, any file operation may
    fail, a write may stop after any number of bytes. The state of the world is
    how many questions of each kind have been asked, the files, and what the process
    has of its own beside its memory: the level of its log, and standard error.

    [random] models [crates/ls-core/src/random.rs]; the file operations are the
    [std::fs] calls of [crates/ls-store/src/log.rs]. *)

From S2P Require Import Prelude Text Timestamp.
From Stdlib Require Import Strings.Byte.

(** The answer to each question, by the order in which it is asked. *)
Class Env := {
  (** The bytes of the [k]-th request for entropy, if it is granted. *)
  entropy : nat → option (nat → byte);
  (** Nanoseconds since the epoch at the [k]-th reading of the clock. *)
  clock : nat → Z;
  (** Whether the [k]-th file operation fails; a failing write has put that many
      bytes on disk. *)
  fault : nat → option nat;
}.

(** Files by inode, and the directory that names them. *)
Record Disk := mk_disk {
  inodes : gmap nat (list byte);
  directory : gmap string nat;
  next_inode : nat;
}.

Record World := mk_world {
  draws : nat;
  ticks : nat;
  calls : nat;
  disk : Disk;
  verbosity : Z;
  console : list byte;
}.

Definition set_disk (d : Disk) (w : World) : World := mk_world (draws w) (ticks w) (calls w) d (verbosity w) (console w).

(** Writing to standard error. *)
Definition complain (text : list byte) (w : World) : World :=
  mk_world (draws w) (ticks w) (calls w) (disk w) (verbosity w) (console w ++ text).

(** An [std::io::Error], whose content no caller looks at. *)
Inductive IoError := IoFailed.

#[global] Instance IoError_eq_dec : EqDecision IoError.
Proof. solve_decision. Defined.

(** The text of an [std::io::Error], and of a path, which need not be text. *)
Class OsText := { io_text : IoError → string; path_text : string → string }.

Inductive EntropyError := NoEntropy.

Section World.
Context {EnvI : Env}.

(** [random::fill]. *)
Definition fill (n : nat) : proc World EntropyError (list byte) := λ w,
  let w' := mk_world (S (draws w)) (ticks w) (calls w) (disk w) (verbosity w) (console w) in
  match entropy (draws w) with
  | Some stream => (Ok (stream <$> seq 0 n), w')
  | None => (Err NoEntropy, w')
  end.

(** [random::bytes]. *)
Definition random_bytes (n : nat) : proc World EntropyError (list byte) := fill n.

(** [Timestamp::now]. *)
Definition now {E} : proc World E Timestamp.t := λ w,
  (Ok (Timestamp.of_clock (clock (ticks w))), mk_world (draws w) (S (ticks w)) (calls w) (disk w) (verbosity w) (console w)).

(** One file operation: its outcome, and the operation counted. *)
Definition call : proc World IoError unit := λ w,
  let w' := mk_world (draws w) (ticks w) (S (calls w)) (disk w) (verbosity w) (console w) in
  match fault (calls w) with
  | None => (Ok tt, w')
  | Some _ => (Err IoFailed, w')
  end.

(** [Path::exists]. *)
Definition exists_path (path : string) (w : World) : bool :=
  match directory (disk w) !! path with Some _ => true | None => false end.

Definition contents (inode : nat) (d : Disk) : list byte := default [] (inodes d !! inode).

Definition put (inode : nat) (bs : list byte) (d : Disk) : Disk :=
  mk_disk (<[inode := bs]> (inodes d)) (directory d) (next_inode d).

(** Open for reading and writing, creating an empty file when there is none. *)
Definition open_create (path : string) : proc World IoError nat :=
  do! call in
  λ w, match directory (disk w) !! path with
       | Some inode => (Ok inode, w)
       | None =>
         let d := disk w in
         let inode := next_inode d in
         (Ok inode, set_disk (mk_disk (<[inode := []]> (inodes d)) (<[path := inode]> (directory d)) (S inode)) w)
       end.

(** [File::open]. *)
Definition open_read (path : string) : proc World IoError nat :=
  do! call in
  λ w, match directory (disk w) !! path with
       | Some inode => (Ok inode, w)
       | None => (Err IoFailed, w)
       end.

(** [file.metadata()?.len()]. *)
Definition file_len (inode : nat) : proc World IoError nat :=
  do! call in gets (λ w, length (contents inode (disk w))).

(** Up to [n] bytes at an offset, fewer only at the end of the file. *)
Definition read_at (inode offset n : nat) : proc World IoError (list byte) :=
  do! call in gets (λ w, take n (drop offset (contents inode (disk w)))).

(** [bytes] over what is at [offset], extending the file when it is longer. *)
Definition overwrite (offset : nat) (bytes old : list byte) : list byte :=
  take offset (old ++ replicate (offset - length old) x00) ++ bytes ++ drop (offset + length bytes) old.

(** [write_all]: all the bytes, or a failure after some of them. *)
Definition write_at (inode offset : nat) (bytes : list byte) : proc World IoError unit := λ w,
  let '(outcome, w') := call w in
  let written := match fault (calls w) with None => bytes | Some k => take k bytes end in
  (outcome, set_disk (put inode (overwrite offset written (contents inode (disk w'))) (disk w')) w').

(** [sync_data] and [sync_all]. *)
Definition sync : proc World IoError unit := call.

(** [set_len], used only to shorten. *)
Definition set_len (inode n : nat) : proc World IoError unit :=
  do! call in
  modify (λ w, set_disk (put inode (take n (contents inode (disk w))) (disk w)) w).

(** [std::fs::remove_file]; [false] when there was no such file. *)
Definition remove_file (path : string) : proc World IoError bool :=
  do! call in
  λ w, match directory (disk w) !! path with
       | Some _ =>
         let d := disk w in
         (Ok true, set_disk (mk_disk (inodes d) (delete path (directory d)) (next_inode d)) w)
       | None => (Ok false, w)
       end.

(** [std::fs::rename]: the new name is taken over, atomically. *)
Definition rename (from to : string) : proc World IoError unit :=
  do! call in
  λ w, match directory (disk w) !! from with
       | Some inode =>
         let d := disk w in
         (Ok tt, set_disk (mk_disk (inodes d) (<[to := inode]> (delete from (directory d))) (next_inode d)) w)
       | None => (Err IoFailed, w)
       end.

Lemma random_bytes_length n w bs w' : random_bytes n w = (Ok bs, w') → length bs = n.
Proof.
  unfold random_bytes, fill. destruct (entropy (draws w)); [|done]. intros [= <- _].
  by rewrite length_fmap, length_seq.
Qed.

Lemma random_bytes_disk n w r w' : random_bytes n w = (r, w') → disk w' = disk w.
Proof. unfold random_bytes, fill. by destruct (entropy (draws w)); intros [= _ <-]. Qed.

Lemma now_wf {E} w t w' : @now E w = (Ok t, w') → Timestamp.wf t ∧ disk w' = disk w.
Proof. intros [= <- <-]. split; [apply Timestamp.of_clock_wf|done]. Qed.

Lemma overwrite_end bytes old : overwrite (length old) bytes old = old ++ bytes.
Proof.
  unfold overwrite. by rewrite Nat.sub_diag, app_nil_r, take_ge, drop_ge, app_nil_r by lia.
Qed.

Lemma contents_put inode bs d : contents inode (put inode bs d) = bs.
Proof. unfold contents, put. cbn. by rewrite lookup_insert_eq. Qed.

Lemma contents_put_ne i j bs d : i ≠ j → contents i (put j bs d) = contents i d.
Proof. intros Hne. unfold contents, put. cbn. by rewrite lookup_insert_ne. Qed.
(** ** Rules

    A failing operation is possible only in an environment that is not [quiet]. *)

Definition quiet : Prop := ∀ k, fault k = None.

Lemma wp_call (P : unit → World → Prop) Q w :
  (∀ w', disk w' = disk w → P tt w') → (∀ w', disk w' = disk w → ¬ quiet → Q IoFailed w') →
  wp call P Q w.
Proof.
  intros HP HQ. unfold wp, call. destruct (fault (calls w)) eqn:E; [apply HQ|by apply HP]; [done|].
  intros Hq. by rewrite Hq in E.
Qed.

Lemma wp_file_len i (P : nat → World → Prop) Q w :
  (∀ w', disk w' = disk w → P (length (contents i (disk w))) w') →
  (∀ w', disk w' = disk w → ¬ quiet → Q IoFailed w') → wp (file_len i) P Q w.
Proof. intros HP HQ. apply wp_bind, wp_call; [|done]. intros w' H. apply wp_gets. rewrite H. auto. Qed.

Lemma wp_read_at i o n (P : list byte → World → Prop) Q w :
  (∀ w', disk w' = disk w → P (take n (drop o (contents i (disk w)))) w') →
  (∀ w', disk w' = disk w → ¬ quiet → Q IoFailed w') → wp (read_at i o n) P Q w.
Proof. intros HP HQ. apply wp_bind, wp_call; [|done]. intros w' H. apply wp_gets. rewrite H. auto. Qed.

Lemma wp_open_read p i (P : nat → World → Prop) Q w :
  directory (disk w) !! p = Some i →
  (∀ w', disk w' = disk w → P i w') →
  (∀ w', disk w' = disk w → ¬ quiet → Q IoFailed w') → wp (open_read p) P Q w.
Proof.
  intros Hp HP HQ. apply wp_bind, wp_call; [|done]. intros w' H. unfold wp. rewrite H, Hp. auto.
Qed.

(** The disk after a file has been created. *)
Definition create (p : string) (d : Disk) : Disk :=
  mk_disk (<[next_inode d := []]> (inodes d)) (<[p := next_inode d]> (directory d)) (S (next_inode d)).

Lemma wp_open_create p (P : nat → World → Prop) Q w :
  (∀ w' i, directory (disk w) !! p = Some i → disk w' = disk w → P i w') →
  (∀ w', directory (disk w) !! p = None → disk w' = create p (disk w) → P (next_inode (disk w)) w') →
  (∀ w', disk w' = disk w → ¬ quiet → Q IoFailed w') → wp (open_create p) P Q w.
Proof.
  intros HS HN HQ. apply wp_bind, wp_call; [|done]. intros w' H. unfold wp. rewrite H.
  destruct (directory (disk w) !! p) as [i|] eqn:E; [by apply HS|by apply HN].
Qed.

Lemma wp_write_at i o bs (P : unit → World → Prop) Q w :
  (∀ w', disk w' = put i (overwrite o bs (contents i (disk w))) (disk w) → P tt w') →
  (∀ w' k, disk w' = put i (overwrite o (take k bs) (contents i (disk w))) (disk w) → ¬ quiet → Q IoFailed w') →
  wp (write_at i o bs) P Q w.
Proof.
  intros HP HQ. unfold wp, write_at, call. destruct (fault (calls w)) eqn:E; [|by apply HP].
  eapply HQ; [done|]. intros Hq. by rewrite Hq in E.
Qed.

Lemma wp_set_len i n (P : unit → World → Prop) Q w :
  (∀ w', disk w' = put i (take n (contents i (disk w))) (disk w) → P tt w') →
  (∀ w', disk w' = disk w → ¬ quiet → Q IoFailed w') → wp (set_len i n) P Q w.
Proof.
  intros HP HQ. apply wp_bind, wp_call; [|done]. intros w' H. apply wp_modify, HP. cbn. by rewrite H.
Qed.

(** The disk without a name for [p]. *)
Definition unlink (p : string) (d : Disk) : Disk :=
  mk_disk (inodes d) (delete p (directory d)) (next_inode d).

Lemma wp_remove_file p (P : bool → World → Prop) Q w :
  (∀ w' b, disk w' = unlink p (disk w) → P b w') →
  (∀ w', disk w' = disk w → ¬ quiet → Q IoFailed w') → wp (remove_file p) P Q w.
Proof.
  intros HP HQ. apply wp_bind, wp_call; [|done]. intros w' H. unfold wp. rewrite H.
  destruct (directory (disk w) !! p) as [i|] eqn:E; apply HP; [done|].
  rewrite H. unfold unlink. rewrite delete_id by done. by destruct (disk w).
Qed.

Lemma wp_rename p q i (P : unit → World → Prop) Q w :
  directory (disk w) !! p = Some i →
  (∀ w', disk w' = mk_disk (inodes (disk w)) (<[q := i]> (delete p (directory (disk w)))) (next_inode (disk w)) →
    P tt w') →
  (∀ w', disk w' = disk w → ¬ quiet → Q IoFailed w') → wp (rename p q) P Q w.
Proof.
  intros Hp HP HQ. apply wp_bind, wp_call; [|done]. intros w' H. unfold wp. rewrite H, Hp.
  apply HP. by rewrite <- H.
Qed.

Lemma wp_now {E} (P : Timestamp.t → World → Prop) (Q : E → World → Prop) w :
  (∀ t w', Timestamp.wf t → disk w' = disk w → P t w') → wp now P Q w.
Proof. intros HP. apply HP; [apply Timestamp.of_clock_wf|done]. Qed.

Lemma wp_random_bytes n (P : list byte → World → Prop) Q w :
  (∀ bs w', length bs = n → disk w' = disk w → P bs w') →
  (∀ w', disk w' = disk w → Q NoEntropy w') → wp (random_bytes n) P Q w.
Proof.
  intros HP HQ. unfold wp, random_bytes, fill. destruct (entropy (draws w)); [|by apply HQ].
  apply HP; [|done]. by rewrite length_fmap, length_seq.
Qed.
End World.

(** A cooperative environment: entropy [k] bytes into a fixed stream, a clock that
    stands still, no failing operation. *)
Definition calm (seed : nat → nat → byte) (nanos : Z) : Env := {|
  entropy k := Some (seed k);
  clock _ := nanos;
  fault _ := None;
|}.

Module PlainTexts.
#[export] Instance text0 : OsText := {| io_text _ := "input/output error"; path_text p := p |}.
End PlainTexts.
