(* ===== verification/Logging.v ===== *)
(** * The log lines

    Models [crates/ls-log/src/lib.rs]: the levels, the format of a line with its
    escaping, and what is written to standard error. A record cannot be forged: the
    lines read back are the records that were logged, field by field, whatever text the
    fields hold. *)

From S2P Require Import Prelude Text Encoding Timestamp JsonParser World.
From Stdlib Require Import Strings.Byte.

Inductive Level := Error | Warn | Info | Debug.

Module Level.

#[export] Instance level_eq : EqDecision Level.
Proof. solve_decision. Defined.

Definition name (self : Level) : string :=
  match self with
  | Error => "ERROR"
  | Warn => "WARN "
  | Info => "INFO "
  | Debug => "DEBUG"
  end.

Definition parse (text : string) : option Level :=
  let text := to_ascii_lowercase (trim text) in
  if bool_decide (text = "error") then Some Error
  else if bool_decide (text = "warn") || bool_decide (text = "warning") then Some Warn
  else if bool_decide (text = "info") then Some Info
  else if bool_decide (text = "debug") then Some Debug
  else None.

Definition as_u8 (self : Level) : Z :=
  match self with
  | Error => 0
  | Warn => 1
  | Info => 2
  | Debug => 3
  end.
End Level.

Module Logger.

(** The value [LEVEL] starts with. *)
Definition initial : Z := 2.

Definition set_level (level : Level) (LEVEL : Z) : Z := Level.as_u8 level.

(** [init_from_env], given the value of [LS_LOG], if it is set and text. *)
Definition init_from_env (var : option string) (LEVEL : Z) : Z :=
  match var ≫= Level.parse with
  | Some level => set_level level LEVEL
  | None => LEVEL
  end.

Definition enabled (level : Level) (LEVEL : Z) : bool := Level.as_u8 level <=? LEVEL.

(** ** A line *)

Definition needs_quotes (text : string) : bool :=
  bool_decide (text = "")
  || existsb (λ c, is_whitespace c || (c =? Z_of_byte x22) || (c =? Z_of_byte "="%byte)) (chars text).

(** What is pushed for one character. *)
Definition escape_char (c : Z) : list byte :=
  if c =? 10 then as_bytes "\n"
  else if c =? 13 then as_bytes "\r"
  else if c =? 9 then as_bytes "\t"
  else if c =? Z_of_byte x22 then ["\"%byte; x22]
  else if c =? Z_of_byte "\"%byte then ["\"%byte; "\"%byte]
  else if c <? 0x20 then as_bytes "\x" ++ hex.encode_byte (byte_of_Z c)
  else encode_char c.

Definition escape (text : string) : list byte := concat (escape_char <$> chars text).

(** What [push_escaped] adds to the line. *)
Definition push_escaped (text : string) (quote_when_ambiguous : bool) : list byte :=
  if quote_when_ambiguous && needs_quotes text then x22 :: escape text ++ [x22] else escape text.

(** The fields, each after a space. *)
Definition fields_part (fields : list (string * string)) : list byte :=
  concat ((λ kv, " "%byte :: push_escaped kv.1 false ++ "="%byte :: push_escaped kv.2 true) <$> fields).

Definition format_line (at_ : Timestamp.t) (level : Level) (message : string) (fields : list (string * string)) : string :=
  of_bytes (as_bytes (Timestamp.to_rfc3339 at_) ++ " "%byte :: as_bytes (Level.name level)
    ++ " "%byte :: push_escaped message false ++ fields_part fields).

(** [ToString] of a [bool]. *)
Definition bool_text (b : bool) : string := if b then "true" else "false".

(** ** Standard error *)

Record call := mk_call { call_level : Level; call_message : string; call_fields : list (string * string) }.

Section emit.
Context {EnvI : Env}.

(** Writing to standard error, whose own failure is dropped. [LEVEL] is the world's
    [verbosity]. *)
Definition emit {E} (c : call) : proc World E unit :=
  let! LEVEL := gets verbosity in
  if negb (enabled (call_level c) LEVEL) then ret tt else
  let! at_ := now in
  modify (complain (as_bytes (format_line at_ (call_level c) (call_message c) (call_fields c)) ++ [x0a])).

Fixpoint emit_all {E} (calls : list call) : proc World E unit :=
  match calls with
  | [] => ret tt
  | c :: rest => do! emit c in emit_all rest
  end.
End emit.

(** ** Reading a line back *)

Definition push (b : byte) (r : list byte * list byte) : list byte * list byte := (b :: r.1, r.2).

(** A fragment up to [stop], and what is left. *)
Fixpoint read (stop : byte) (l : list byte) : list byte * list byte :=
  match l with
  | [] => ([], [])
  | b :: rest =>
    if decide (b = stop) then ([], l)
    else if negb (bool_decide (b = "\"%byte)) then push b (read stop rest)
    else
      match rest with
      | e :: rest1 =>
        if bool_decide (e = "n"%byte) then push x0a (read stop rest1)
        else if bool_decide (e = "r"%byte) then push x0d (read stop rest1)
        else if bool_decide (e = "t"%byte) then push x09 (read stop rest1)
        else if bool_decide (e = "x"%byte) then
          match rest1 with
          | hi :: lo :: rest2 => push (default x00 (head (default [] (hex.decode_pairs [hi; lo])))) (read stop rest2)
          | _ => ([], l)
          end
        else push e (read stop rest1)
      | [] => ([], l)
      end
  end.

(** A value, with its quotes if it has them. *)
Definition read_value (l : list byte) : list byte * list byte :=
  match l with
  | b :: rest => if decide (b = x22) then (λ r, (r.1, drop 1 r.2)) (read x22 rest) else read " "%byte l
  | [] => ([], [])
  end.

Lemma read_plain stop b l :
  b ≠ stop → b ≠ "\"%byte → read stop (b :: l) = push b (read stop l).
Proof. intros H1 H2. cbn [read]. by rewrite decide_False, bool_decide_eq_false_2 by done. Qed.

(** The bytes that end a fragment. *)
Definition ender (stop : byte) : bool := bool_decide (stop = x22) || bool_decide (stop = " "%byte).

Lemma read_high stop l rest :
  ender stop = true → Forall (λ b, 0x80 <= Z_of_byte b) l →
  read stop (l ++ rest) = ((l ++ (read stop rest).1), (read stop rest).2).
Proof.
  intros Hs. induction 1 as [|b l Hb _ IH]; [cbn [app]; by destruct (read stop rest)|].
  cbn [app]. rewrite read_plain; [by rewrite IH|..]; intros ->; [|by apply Hb].
  unfold ender in Hs. apply orb_prop in Hs as [E|E]; apply bool_decide_eq_true in E; subst; by apply Hb.
Qed.

Lemma escape_ascii b rest : Z_of_byte b < 0x80 →
  (read x22 (escape_char (Z_of_byte b) ++ rest) = push b (read x22 rest))
  ∧ (b ≠ " "%byte → read " "%byte (escape_char (Z_of_byte b) ++ rest) = push b (read " "%byte rest)).
Proof. destruct b; try (intros H; exfalso; revert H; by vm_compute); intros _; (split; [reflexivity|intros H; try reflexivity; by destruct H]). Qed.

Lemma encode_char_bytes c : is_scalar c = true → 0x80 <= c → Forall (λ b, 0x80 <= Z_of_byte b) (encode_char c).
Proof.
  intros Hs Hc. destruct (Parser.encode_char_multi c Hc Hs) as (b & l & -> & Hb & Hl). constructor; [lia|].
  apply Forall_forall. intros x Hx. rewrite forallb_forall in Hl. apply list_elem_of_In, Hl in Hx.
  rewrite Parser.is_continuation_cont in Hx. apply is_cont_spec in Hx. lia.
Qed.

Lemma escape_char_high c : 0x80 <= c → escape_char c = encode_char c.
Proof.
  intros Hc. unfold escape_char.
  repeat match goal with |- context [?a =? ?b] => destruct (Z.eqb_spec a b) as [->|_]; [by destruct Hc|] end.
  by rewrite (proj2 (Z.ltb_ge _ _)) by lia.
Qed.

Lemma read_char stop c rest :
  ender stop = true → is_scalar c = true → (stop = " "%byte → c ≠ 32) →
  read stop (escape_char c ++ rest) = (encode_char c ++ (read stop rest).1, (read stop rest).2).
Proof.
  intros Hs Hc Hsp. destruct (Z.lt_ge_cases c 0x80) as [Hlt|Hge].
  - assert (c = Z_of_byte (byte_of_Z c)) as E.
    { apply is_scalar_spec in Hc. rewrite Z_of_byte_of_Z, Z.mod_small; lia. }
    assert (encode_char c = [byte_of_Z c]) as -> by (unfold encode_char; by rewrite (proj2 (Z.ltb_lt _ _))).
    rewrite E at 1. destruct (escape_ascii (byte_of_Z c) rest) as [Hq Hb]; [by rewrite <- E|].
    unfold ender in Hs. apply orb_prop in Hs as [Hs|Hs]; apply bool_decide_eq_true in Hs; subst stop; [exact Hq|].
    apply Hb. intros E2. apply Hsp; [done|]. by rewrite E, E2.
  - rewrite escape_char_high by done. by apply read_high, encode_char_bytes.
Qed.

Lemma read_chars stop cs rest :
  ender stop = true → forallb is_scalar cs = true → (stop = " "%byte → 32 ∉ cs) →
  read stop (concat (escape_char <$> cs) ++ rest) = (encode_chars cs ++ (read stop rest).1, (read stop rest).2).
Proof.
  intros Hs. induction cs as [|c cs IH]; intros Hc Hsp; [cbn; by destruct (read stop rest)|].
  cbn [forallb] in Hc. apply andb_prop in Hc as [Hc Hcs]. cbn [fmap list_fmap concat]. rewrite <- app_assoc, read_char; [|done..|].
  - rewrite IH, encode_chars_cons, <- app_assoc; [done..|]. intros E H. apply (Hsp E). by right.
  - intros E ->. apply (Hsp E). by left.
Qed.

Lemma read_escape stop text rest :
  ender stop = true → is_str text = true → (stop = " "%byte → 32 ∉ chars text) →
  read stop (escape text ++ rest) = (as_bytes text ++ (read stop rest).1, (read stop rest).2).
Proof.
  intros Hs Ht Hsp. unfold escape. rewrite read_chars; [|done|apply chars_scalar|done].
  assert (encode_chars (chars text) = as_bytes text) as -> by (rewrite <- (of_chars_chars text Ht) at 2; unfold of_chars; by rewrite as_bytes_of_bytes).
  done.
Qed.

Lemma escape_head c : is_scalar c = true → ∃ b l, escape_char c = b :: l ∧ b ≠ x22.
Proof.
  intros Hc. destruct (Z.lt_ge_cases c 0x80) as [Hlt|Hge].
  - assert (c = Z_of_byte (byte_of_Z c)) as -> by (apply is_scalar_spec in Hc; rewrite Z_of_byte_of_Z, Z.mod_small; lia).
    destruct (byte_of_Z c); by eexists _, _.
  - rewrite escape_char_high by done. destruct (Parser.encode_char_multi c Hge Hc) as (b & l & -> & Hb & _).
    exists b, l. split; [done|]. intros ->. by apply Hb.
Qed.

(** What may follow a value: nothing, or the space before the next field. *)
Definition over (rest : list byte) : Prop := rest = [] ∨ ∃ more, rest = (" "%byte :: more).

Lemma plain_value text :
  needs_quotes text = false → text ≠ "" ∧ (32 ∉ chars text) ∧ ∀ c cs, chars text = c :: cs → c ≠ Z_of_byte x22.
Proof.
  unfold needs_quotes. intros [H1 H2]%orb_false_elim. apply bool_decide_eq_false in H1.
  assert (∀ c, c ∈ chars text → (is_whitespace c || (c =? Z_of_byte x22) || (c =? Z_of_byte "="%byte)) = false) as Hn.
  { intros c Hc. apply not_true_iff_false. intros Ht. apply not_true_iff_false in H2. apply H2, existsb_exists.
    exists c. by rewrite <- list_elem_of_In. }
  split; [done|]. split.
  - intros Hin. by apply Hn in Hin.
  - intros c cs E ->. assert (Z_of_byte x22 ∈ chars text) as Hin by (rewrite E; by left). by apply Hn in Hin.
Qed.

Lemma read_value_pushed text rest :
  is_str text = true → over rest → read_value (push_escaped text true ++ rest) = (as_bytes text, rest).
Proof.
  intros Ht Hover. unfold push_escaped. cbn [andb]. destruct (needs_quotes text) eqn:Eq.
  - cbn [app read_value]. rewrite decide_True, <- app_assoc, read_escape by done. cbn. by rewrite app_nil_r.
  - destruct (plain_value _ Eq) as (Hne & Hsp & Hq).
    assert (read " "%byte (escape text ++ rest) = (as_bytes text, rest)) as E.
    { rewrite read_escape by done. destruct Hover as [->|[more ->]]; cbn; by rewrite app_nil_r. }
    rewrite <- E. unfold escape. destruct (chars text) as [|c cs] eqn:Ec.
    { destruct Hne. rewrite <- (of_chars_chars text), Ec by done. done. }
    pose proof (chars_scalar text) as Hs. rewrite Ec in Hs. cbn [forallb] in Hs. apply andb_prop in Hs as [Hs _].
    destruct (escape_head c Hs) as (b & l & E' & Hb). cbn [fmap list_fmap concat]. rewrite E'. cbn [app read_value].
    by rewrite decide_False.
Qed.

(** *** Fields *)

(** The names of fields are identifiers of the source. *)
Definition name_byte (b : byte) : bool := is_ascii_alphanumeric b || bool_decide (b = "_"%byte).
Definition named (kv : string * string) : Prop := forallb name_byte (as_bytes kv.1) = true ∧ is_str kv.2 = true.

Lemma name_byte_plain b : name_byte b = true → Z_of_byte b < 0x80 ∧ b ≠ "="%byte ∧ escape_char (Z_of_byte b) = [b].
Proof. destruct b; try done; intros _; by split. Qed.

(** Text that is written as it is. *)
Lemma escape_plain (p : byte → bool) text :
  (∀ b, p b = true → Z_of_byte b < 0x80 ∧ escape_char (Z_of_byte b) = [b]) →
  forallb p (as_bytes text) = true → escape text = as_bytes text.
Proof.
  intros Hp H. unfold escape, chars. rewrite decode_ascii.
  - cbn [from_option]. unfold id. induction (as_bytes text) as [|b l IH]; [done|]. cbn [forallb] in H. apply andb_prop in H as [Hb Hl].
    rewrite !fmap_cons. cbn [concat]. destruct (Hp b Hb) as (_ & ->). cbn [app]. by rewrite IH.
  - apply forallb_forall. intros b Hb. rewrite forallb_forall in H. apply H, Hp in Hb as [Hb _].
    unfold is_ascii. by apply Z.ltb_lt.
Qed.

Lemma escape_name text : forallb name_byte (as_bytes text) = true → escape text = as_bytes text.
Proof. apply escape_plain. intros b Hb. by destruct (name_byte_plain b Hb) as (? & _ & ?). Qed.

(** A message without an equals sign, and with nothing in it to be escaped. *)
Definition message_byte (b : byte) : bool :=
  (0x20 <=? Z_of_byte b) && (Z_of_byte b <? 0x7f) && negb (bool_decide (b = "="%byte)) && negb (bool_decide (b = x22))
  && negb (bool_decide (b = "\"%byte)).
Definition clear (message : string) : Prop := forallb message_byte (as_bytes message) = true.

Lemma message_byte_plain b : message_byte b = true → b ≠ "="%byte ∧ Z_of_byte b < 0x80 ∧ escape_char (Z_of_byte b) = [b].
Proof. destruct b; try done; intros _; by split. Qed.

Lemma escape_message text : clear text → escape text = as_bytes text.
Proof. apply escape_plain. intros b Hb. by apply message_byte_plain. Qed.

Lemma fields_cons k v fields :
  fields_part ((k, v) :: fields) = " "%byte :: push_escaped k false ++ "="%byte :: push_escaped v true ++ fields_part fields.
Proof. unfold fields_part. cbn [fmap list_fmap concat fst snd]. cbn. by rewrite <- !app_assoc. Qed.

Lemma fields_over fields : over (fields_part fields).
Proof. destruct fields as [|[k v] fields]; [by left|right]. rewrite fields_cons. by eexists. Qed.

Lemma fields_exact fields : ∀ fields', Forall named fields → Forall named fields' →
  fields_part fields = fields_part fields' → fields = fields'.
Proof.
  induction fields as [|[k v] fields IH]; intros [|[k' v'] fields'] H H'; rewrite ?fields_cons; try done.
  apply Forall_cons in H as [[Hk Hv] Hf]. apply Forall_cons in H' as [[Hk' Hv'] Hf']. cbn [fst snd] in *.
  unfold push_escaped at 1 3. cbn [andb]. rewrite !escape_name by done. intros [= E].
  assert (∀ k, forallb name_byte (as_bytes k) = true → "="%byte ∉ as_bytes k) as Hno.
  { intros x Hx Hin. rewrite forallb_forall in Hx. apply list_elem_of_In, Hx, name_byte_plain in Hin. tauto. }
  apply (f_equal (split_once_bytes "=")) in E. rewrite !(proj2 (split_once_bytes_some _ _ _ _)) in E by (split; [done|by apply Hno]).
  injection E as Ek E. apply (inj as_bytes) in Ek as ->.
  apply (f_equal read_value) in E. rewrite !read_value_pushed in E by (done || apply fields_over).
  injection E as Ev E. apply (inj as_bytes) in Ev as ->. f_equal. by apply IH.
Qed.

(** The last separator tells the two sides of it apart. *)
Lemma app_last_inj {A} (sep : A) (x y a b : list A) : sep ∉ a → sep ∉ b → x ++ sep :: a = y ++ sep :: b → x = y ∧ a = b.
Proof.
  revert y. induction x as [|c x IH]; intros [|d y] Ha Hb E; cbn [app] in E; injection E.
  - by intros ->.
  - intros -> _. destruct Ha. apply elem_of_app. right. by left.
  - intros <- _. destruct Hb. apply elem_of_app. right. by left.
  - intros E' ->. destruct (IH y Ha Hb E') as [-> ->]. done.
Qed.

Lemma message_exact message message' fields fields' :
  clear message → clear message' → Forall named fields → Forall named fields' →
  push_escaped message false ++ fields_part fields = push_escaped message' false ++ fields_part fields' → message = message'.
Proof.
  intros Hm Hm' Hf Hf'. unfold push_escaped. cbn [andb]. rewrite !escape_message by done. intros E.
  assert (∀ m, clear m → "="%byte ∉ as_bytes m) as Hno.
  { intros m H Hin. unfold clear in H. rewrite forallb_forall in H. apply list_elem_of_In, H, message_byte_plain in Hin. tauto. }
  assert (∀ k v fs l, Forall named ((k, v) :: fs) → l ++ fields_part ((k, v) :: fs)
    = (l ++ " "%byte :: as_bytes k) ++ "="%byte :: push_escaped v true ++ fields_part fs) as Hcons.
  { intros k v fs l [[Hk _] _]%Forall_cons. rewrite fields_cons. unfold push_escaped at 1. cbn [andb fst] in *.
    rewrite escape_name by done. by rewrite <- app_assoc. }
  assert (∀ k v fs m m', clear m' → Forall named ((k, v) :: fs) →
    as_bytes m ++ fields_part ((k, v) :: fs) ≠ as_bytes m' ++ fields_part []) as Hne.
  { intros k v fs m m' H Hfs E'. rewrite Hcons, app_nil_r in E' by done. apply (Hno m' H). rewrite <- E'. apply elem_of_app. right. by left. }
  assert (∀ k v fs m, clear m → Forall named ((k, v) :: fs) → ("="%byte ∉ as_bytes m ++ " "%byte :: as_bytes k) ∧ " "%byte ∉ as_bytes k) as Hk.
  { intros k v fs m H [[Hk _] _]%Forall_cons. cbn [fst] in Hk. rewrite forallb_forall in Hk. split.
    - intros [Hin|[Hin|Hin]%elem_of_cons]%elem_of_app; [by apply (Hno m)|done|]. by apply list_elem_of_In, Hk, name_byte_plain in Hin as (_ & ? & _).
    - intros Hin. by apply list_elem_of_In, Hk in Hin. }
  destruct fields as [|[k v] fs], fields' as [|[k' v'] fs'].
  - rewrite !app_nil_r in E. by apply (inj as_bytes).
  - by destruct (Hne k' v' fs' message' message).
  - by destruct (Hne k v fs message message').
  - rewrite !Hcons in E by done. destruct (Hk k v fs message) as [H1 H2]; [done..|]. destruct (Hk k' v' fs' message') as [H1' H2']; [done..|].
    apply (f_equal (split_once_bytes "=")) in E. rewrite !(proj2 (split_once_bytes_some _ _ _ _)) in E by (by split).
    injection E as E _. apply app_last_inj in E as [E _]; [|done..]. by apply (inj as_bytes).
Qed.

(** *** One record, one line *)

Definition printing (b : byte) : bool := 0x20 <=? Z_of_byte b.

Lemma escape_char_printing c : is_scalar c = true → forallb printing (escape_char c) = true.
Proof.
  intros Hc. destruct (Z.lt_ge_cases c 0x80) as [Hlt|Hge].
  - assert (c = Z_of_byte (byte_of_Z c)) as -> by (apply is_scalar_spec in Hc; rewrite Z_of_byte_of_Z, Z.mod_small; lia).
    by destruct (byte_of_Z c).
  - rewrite escape_char_high by done. apply forallb_forall. intros b Hb. pose proof (encode_char_bytes c Hc Hge) as H.
    rewrite Forall_forall in H. apply list_elem_of_In, H in Hb. unfold printing. lia.
Qed.

Lemma escape_printing text : forallb printing (escape text) = true.
Proof.
  unfold escape. generalize (chars_scalar text). generalize (chars text). intros cs. induction cs as [|c cs IH]; [done|].
  cbn [forallb fmap list_fmap concat]. intros [Hc Hcs]%andb_prop. rewrite forallb_app, escape_char_printing by done. by apply IH.
Qed.

Lemma push_escaped_printing text q : forallb printing (push_escaped text q) = true.
Proof.
  unfold push_escaped. destruct (_ && _); [|apply escape_printing]. cbn [forallb]. by rewrite forallb_app, escape_printing.
Qed.

Lemma fields_printing fields : forallb printing (fields_part fields) = true.
Proof.
  induction fields as [|[k v] fields IH]; [done|]. rewrite fields_cons. cbn [forallb].
  rewrite forallb_app. cbn [forallb]. by rewrite forallb_app, !push_escaped_printing, IH.
Qed.

Lemma digits_printing l : forallb is_ascii_digit l = true → forallb printing l = true.
Proof.
  rewrite !forallb_forall. intros H b Hb. apply H, is_ascii_digit_spec in Hb. unfold printing. lia.
Qed.

Lemma pad_printing width n : 0 <= n → forallb printing (Timestamp.pad width n) = true.
Proof.
  intros Hn. unfold Timestamp.pad, pad_zeros. rewrite forallb_app. apply andb_true_intro. split.
  - apply forallb_forall. intros b Hb. by apply list_elem_of_In, elem_of_replicate in Hb as [-> _].
  - apply digits_printing. by destruct (show_unsigned_spec n Hn) as (_ & H & _).
Qed.

Lemma rfc3339_printing t : Timestamp.wf t → forallb printing (as_bytes (Timestamp.to_rfc3339 t)) = true.
Proof.
  intros H%Timestamp.parse_to_rfc3339_eq.
  destruct (Timestamp.parse_rfc3339_inv _ _ H) as (y & m & d & h & i & s & Hc & Hh & Hi & Hs & Ht & _).
  rewrite Ht. unfold Timestamp.render, Timestamp.civil_ok in *.
  repeat (rewrite forallb_app || cbn [forallb]). by rewrite !pad_printing by lia.
Qed.

Lemma line_printing at_ level message fields :
  Timestamp.wf at_ → forallb printing (as_bytes (format_line at_ level message fields)) = true.
Proof.
  intros Ht. unfold format_line. rewrite as_bytes_of_bytes, forallb_app, rfc3339_printing by done. cbn [forallb andb].
  rewrite forallb_app. cbn [forallb]. rewrite forallb_app, push_escaped_printing, fields_printing. by destruct level.
Qed.

(** The end of a line, after the time and the level. *)
Lemma line_tail at_ at' level level' message message' fields fields' :
  Timestamp.wf at_ → Timestamp.wf at' →
  format_line at_ level message fields = format_line at' level' message' fields' →
  as_bytes (Timestamp.to_rfc3339 at_) = as_bytes (Timestamp.to_rfc3339 at') ∧ as_bytes (Level.name level) = as_bytes (Level.name level')
  ∧ push_escaped message false ++ fields_part fields = push_escaped message' false ++ fields_part fields'.
Proof.
  intros Ht Ht' E. unfold format_line in E. apply (inj of_bytes) in E.
  apply app_inj_1 in E as [Et E]; [|by rewrite !Timestamp.to_rfc3339_length].
  injection E as E. apply app_inj_1 in E as [El E]; [|by destruct level, level']. by injection E as E.
Qed.

Lemma line_message at_ at' level level' message message' fields fields' :
  Timestamp.wf at_ → Timestamp.wf at' → clear message → clear message' → Forall named fields → Forall named fields' →
  format_line at_ level message fields = format_line at' level' message' fields' → message = message'.
Proof. intros Ht Ht' Hm Hm' Hf Hf' (_ & _ & E)%line_tail; [|done..]. exact (message_exact _ _ _ _ Hm Hm' Hf Hf' E). Qed.

(** What one line says, given the message. *)
Lemma line_exact at_ at' level level' message fields fields' :
  Timestamp.wf at_ → Timestamp.wf at' → Forall named fields → Forall named fields' →
  format_line at_ level message fields = format_line at' level' message fields' →
  at_ = at' ∧ level = level' ∧ fields = fields'.
Proof.
  intros Ht Ht' Hf Hf' (Et & El & E)%line_tail; [|done..]. split.
  { apply (inj as_bytes) in Et. apply Timestamp.parse_to_rfc3339_eq in Ht, Ht'. congruence. }
  split; [by destruct level, level'|]. apply app_inv_head in E. by apply fields_exact.
Qed.

Section Records.
Context {EnvI : Env}.

(** A line of one of the calls, made at some time. *)
Definition line_of (line : list byte) (c : call) : Prop := ∃ at_, Timestamp.wf at_
  ∧ line = as_bytes (format_line at_ (call_level c) (call_message c) (call_fields c)).

Lemma printing_no_newline l : forallb printing l = true → x0a ∉ l.
Proof. rewrite forallb_forall. intros H Hin. by apply list_elem_of_In, H in Hin. Qed.

(** What a call writes, and all that it touches. *)
Lemma emit_line {E} c w : ∃ w', emit (E := E) c w = (Ok tt, w') ∧ disk w' = disk w ∧ verbosity w' = verbosity w
  ∧ if enabled (call_level c) (verbosity w) then ∃ line, line_of line c ∧ console w' = console w ++ line ++ [x0a] else w' = w.
Proof.
  unfold emit, bind, gets. destruct (enabled (call_level c) (verbosity w)) eqn:El; cbn [negb]; [|by eexists].
  destruct (now w) as [[at_|e] w1] eqn:En; [|done]. pose proof En as [Hw _]%now_wf. injection En as _ <-.
  eexists. split; [done|]. split; [done|]. split; [done|]. eexists. split; [by exists at_|done].
Qed.

Lemma wp_emit {E} c (P : unit → World → Prop) (Q : E → World → Prop) w :
  (∀ w', disk w' = disk w → P tt w') → wp (emit c) P Q w.
Proof. intros H. unfold wp. destruct (emit_line (E := E) c w) as (w' & -> & Hd & _). by apply H. Qed.

Lemma emit_all_lines {E} calls : ∀ w, ∃ lines w',
  emit_all (E := E) calls w = (Ok tt, w') ∧ console w' = console w ++ concat ((λ l, l ++ [x0a]) <$> lines)
  ∧ Forall2 line_of lines (List.filter (λ c, enabled (call_level c) (verbosity w)) calls).
Proof.
  induction calls as [|c calls IH]; intros w; [exists [], w; by rewrite app_nil_r|].
  cbn [emit_all List.filter]. unfold bind. destruct (emit_line (E := E) c w) as (w1 & -> & _ & Hv & H).
  destruct (IH w1) as (lines & w' & E' & Hc & Hl). rewrite Hv in Hl. destruct (enabled (call_level c) (verbosity w)).
  - destruct H as (line & Hline & Hc1). exists (line :: lines), w'. split; [done|]. split; [|by constructor].
    rewrite Hc, Hc1. cbn [fmap list_fmap concat]. by rewrite <- !app_assoc.
  - exists lines, w'. split; [done|]. by rewrite Hc, H.
Qed.

(** C35: the log says what was logged. Whatever text the fields hold, standard error is
    one line per call that the level lets through, in order, and no more; and a line
    determines its level, its message and every field, name and value. (A message is a
    constant of the place that logs: the same one, or both free of equals signs, quotes,
    backslashes and control characters, as all those of the program are.) *)
Theorem log_cannot_be_forged calls w :
  (∃ lines, console (emit_all (E := IoError) calls w).2 = console w ++ concat ((λ l, l ++ [x0a]) <$> lines)
     ∧ split_at_byte x0a (concat ((λ l, l ++ [x0a]) <$> lines)) = lines ++ [[]]
     ∧ Forall2 line_of lines (List.filter (λ c, enabled (call_level c) (verbosity w)) calls))
  ∧ ∀ line c c', line_of line c → line_of line c' →
    call_message c = call_message c' ∨ clear (call_message c) ∧ clear (call_message c') →
    Forall named (call_fields c) → Forall named (call_fields c') → c = c'.
Proof.
  split.
  - destruct (emit_all_lines (E := IoError) calls w) as (lines & w' & -> & Hc & Hl). exists lines. split; [done|]. split; [|done].
    apply split_at_byte_lines. clear -Hl.
    induction Hl as [|l c ls cs (at_ & Ht & ->) _ IH]; constructor; [|done]. by apply printing_no_newline, line_printing.
  - intros line c c' (at_ & Ht & ->) (at' & Ht' & E) Hc Hf Hf'. apply (inj as_bytes) in E.
    assert (call_message c = call_message c') as Hm by (destruct Hc as [?|[Hm Hm']]; [done|exact (line_message _ _ _ _ _ _ _ _ Ht Ht' Hm Hm' Hf Hf' E)]).
    rewrite Hm in E. destruct (line_exact _ _ _ _ _ _ _ Ht Ht' Hf Hf' E) as (_ & El & Ef). clear E Hf Hf' Hc. destruct c, c'.
    cbn [call_level call_message call_fields] in El, Hm, Ef. by rewrite El, Hm, Ef.
Qed.
End Records.
End Logger.

Module LoggingDemo.
Import Logger.

#[export] Instance env : Env := calm (λ k i, byte_of_Z (Z.of_nat (7 * k + i))) 1700000000000000000.

Definition forged : call :=
  mk_call Warn "login rate limited" [("email", "a@b.c" +:+ of_bytes [x0a] +:+ "2025-09-12T00:00:00Z INFO  login outcome=ok")].

Example forged_line :
  of_bytes (console (emit_all (E := IoError) [forged; mk_call Debug "detail" []] (mk_world 0 0 0 (mk_disk ∅ ∅ 0) initial [])).2)
  = "2023-11-14T22:13:20Z WARN  login rate limited email=" +:+ of_bytes [x22]
    +:+ "a@b.c\n2025-09-12T00:00:00Z INFO  login outcome=ok" +:+ of_bytes [x22; x0a].
Proof. by vm_compute. Qed.

(** The two calls differ in their message as well. *)
Definition plain : call := mk_call Info "login" [("email", "a@b.c"); ("outcome", "ok")].
Definition forged_text : list byte :=
  as_bytes (format_line (Timestamp.from_unix 0) Warn "login rate limited" (call_fields forged)).

Lemma forged_text_line : line_of forged_text forged.
Proof. exists (Timestamp.from_unix 0). split; [apply Timestamp.from_unix_wf|done]. Qed.

Lemma log_cannot_be_forged_witness : line_of forged_text forged ∧ ¬ line_of forged_text plain.
Proof.
  split; [exact forged_text_line|]. intros Hl.
  destruct (log_cannot_be_forged [] (mk_world 0 0 0 (mk_disk ∅ ∅ 0) initial [])) as [_ H].
  assert (forged = plain) as E; [|discriminate E].
  apply (H _ _ _ forged_text_line Hl); [by right; split; vm_compute|repeat constructor; by vm_compute..].
Defined.
End LoggingDemo.
