(* ===== verification/Gf256.v ===== *)
(** * Arithmetic in GF(2^8)

    Models the [gf] module of [crates/ls-core/src/crypto/shamir.rs]: bytes as the
    field with 256 elements, multiplication by the Russian-peasant loop and the
    inverse by Fermat's little theorem. The field laws are proved from the code
    of the loop: it is linear in each operand, so it is enough to evaluate it
    on the eight powers of two. *)

From S2P Require Import Prelude.
From Stdlib Require Import Strings.Byte Ring Field.

Module gf.

Definition add (a b : byte) : byte := byte_of_Z (Z.lxor (Z_of_byte a) (Z_of_byte b)).

(** [a <<= 1; a ^= 0x1B_u8.wrapping_mul(a >> 7)]. *)
Definition double (a : Z) : Z :=
  Z.lxor (Z.shiftl a 1 mod 256) ((0x1B * Z.shiftr a 7) mod 256).

(** The remaining [n] turns of the loop. *)
Fixpoint mul_loop (n : nat) (a b product : Z) : Z :=
  match n with
  | O => product
  | S n => mul_loop n (double a) (Z.shiftr b 1) (Z.lxor product ((a * Z.land b 1) mod 256))
  end.

Definition mul (a b : byte) : byte := byte_of_Z (mul_loop 8 (Z_of_byte a) (Z_of_byte b) 0).

Fixpoint inverse_loop (n : nat) (a result : byte) : byte :=
  match n with
  | O => result
  | S n => inverse_loop n a (mul result a)
  end.

Definition inverse (a : byte) : byte := if decide (a = x00) then x00 else inverse_loop 254 a x01.

Definition div (a b : byte) : byte := mul a (inverse b).

Example mul_fips : mul x57 x83 = xc1.
Proof. reflexivity. Qed.

(** ** Addition *)

Definition is_u8 (z : Z) : Prop := 0 <= z < 256.

Lemma is_u8_byte b : is_u8 (Z_of_byte b).
Proof. apply Z_of_byte_range. Qed.

Lemma is_u8_mod z : is_u8 (z mod 256).
Proof. by apply Z.mod_pos_bound. Qed.

Lemma lxor_range x y : is_u8 x → is_u8 y → is_u8 (Z.lxor x y).
Proof.
  unfold is_u8. intros Hx Hy. assert (0 <= Z.lxor x y) by (apply Z.lxor_nonneg; lia).
  split; [done|]. change 256 with (2 ^ 8).
  destruct (decide (Z.lxor x y = 0)) as [->|Hne]; [done|].
  apply Z.log2_lt_pow2; [lia|]. eapply Z.le_lt_trans; [apply Z.log2_lxor; lia|].
  assert (∀ z, 0 <= z < 256 → Z.log2 z < 8) as Hlog; [|apply Z.max_lub_lt; by apply Hlog].
  intros z Hz. destruct (decide (z = 0)) as [->|]; [done|]. apply Z.log2_lt_pow2; cbn; lia.
Qed.

Lemma Z_of_byte_add a b : Z_of_byte (add a b) = Z.lxor (Z_of_byte a) (Z_of_byte b).
Proof.
  unfold add. rewrite Z_of_byte_of_Z. apply Z.mod_small. apply lxor_range; apply is_u8_byte.
Qed.

Ltac by_lxor := intros; apply (inj Z_of_byte); rewrite ?Z_of_byte_add.

Lemma add_comm a b : add a b = add b a.
Proof. by_lxor. apply Z.lxor_comm. Qed.

Lemma add_assoc a b c : add a (add b c) = add (add a b) c.
Proof. by_lxor. symmetry. apply Z.lxor_assoc. Qed.

Lemma add_0_l a : add x00 a = a.
Proof. by_lxor. apply Z.lxor_0_l. Qed.

Lemma add_self a : add a a = x00.
Proof. by_lxor. apply Z.lxor_nilpotent. Qed.

Lemma add_eq_0 a b : add a b = x00 ↔ a = b.
Proof.
  split; [|intros ->; apply add_self]. intros H.
  by rewrite <- (add_0_l b), <- H, <- add_assoc, add_self, add_comm, add_0_l.
Qed.

(** ** The loop is linear in each operand *)

Lemma mod256_lxor x y : Z.lxor x y mod 256 = Z.lxor (x mod 256) (y mod 256).
Proof.
  change 256 with (2 ^ 8). rewrite <- !Z.land_ones by lia.
  apply Z.bits_inj'. intros i Hi. rewrite Z.land_spec, !Z.lxor_spec, !Z.land_spec.
  destruct (Z.testbit x i), (Z.testbit y i), (Z.testbit _ i); done.
Qed.

Lemma high_bit a : is_u8 a → Z.shiftr a 7 = 0 ∨ Z.shiftr a 7 = 1.
Proof.
  unfold is_u8. intros H. rewrite Z.shiftr_div_pow2 by lia. change (2 ^ 7) with 128.
  pose proof (Z.div_mod a 128 ltac:(lia)). pose proof (Z.mod_pos_bound a 128 ltac:(lia)). lia.
Qed.

Lemma double_range a : is_u8 (double a).
Proof. apply lxor_range; apply is_u8_mod. Qed.

Lemma double_lxor x y : is_u8 x → is_u8 y → double (Z.lxor x y) = Z.lxor (double x) (double y).
Proof.
  intros Hx Hy. unfold double. rewrite Z.shiftl_lxor, Z.shiftr_lxor, mod256_lxor.
  set (u := Z.shiftl x 1 mod 256). set (v := Z.shiftl y 1 mod 256).
  assert ((0x1B * Z.lxor (Z.shiftr x 7) (Z.shiftr y 7)) mod 256
    = Z.lxor ((0x1B * Z.shiftr x 7) mod 256) ((0x1B * Z.shiftr y 7) mod 256)) as ->.
  { destruct (high_bit x Hx) as [-> | ->], (high_bit y Hy) as [-> | ->]; done. }
  rewrite !Z.lxor_assoc. f_equal. rewrite <- !Z.lxor_assoc. f_equal. apply Z.lxor_comm.
Qed.

Lemma low_bit b : Z.land b 1 = 0 ∨ Z.land b 1 = 1.
Proof.
  assert (Z.land b 1 = b mod 2) as -> by (apply (Z.land_ones b 1); lia).
  pose proof (Z.mod_pos_bound b 2 ltac:(lia)). lia.
Qed.

Lemma lxor_swap a b c d : Z.lxor (Z.lxor a b) (Z.lxor c d) = Z.lxor (Z.lxor a c) (Z.lxor b d).
Proof. rewrite !Z.lxor_assoc. f_equal. rewrite <- !Z.lxor_assoc. f_equal. apply Z.lxor_comm. Qed.

Lemma term_lxor_l x y b : (Z.lxor x y * Z.land b 1) mod 256
  = Z.lxor ((x * Z.land b 1) mod 256) ((y * Z.land b 1) mod 256).
Proof. destruct (low_bit b) as [-> | ->]; rewrite ?Z.mul_0_r, ?Z.mul_1_r; [done|apply mod256_lxor]. Qed.

Lemma land1_lxor b c : Z.land (Z.lxor b c) 1 = Z.lxor (Z.land b 1) (Z.land c 1).
Proof.
  apply Z.bits_inj'. intros i Hi. rewrite Z.land_spec, !Z.lxor_spec, !Z.land_spec.
  destruct (Z.testbit b i), (Z.testbit c i), (Z.testbit 1 i); done.
Qed.

Lemma term_lxor_r x b c : (x * Z.land (Z.lxor b c) 1) mod 256
  = Z.lxor ((x * Z.land b 1) mod 256) ((x * Z.land c 1) mod 256).
Proof.
  rewrite land1_lxor. destruct (low_bit b) as [-> | ->], (low_bit c) as [-> | ->]; cbn [Z.lxor];
    rewrite ?Z.mul_0_r, ?Z.mul_1_r, ?Z.lxor_0_l, ?Z.lxor_0_r; try done.
  by rewrite Z.lxor_nilpotent.
Qed.

Lemma mul_loop_range n a b p : is_u8 p → is_u8 (mul_loop n a b p).
Proof.
  revert a b p. induction n as [|n IH]; intros a b p Hp; [done|].
  apply IH, lxor_range; [done|apply is_u8_mod].
Qed.

Lemma mul_loop_l n x y b p q :
  is_u8 x → is_u8 y →
  mul_loop n (Z.lxor x y) b (Z.lxor p q) = Z.lxor (mul_loop n x b p) (mul_loop n y b q).
Proof.
  revert x y b p q. induction n as [|n IH]; intros x y b p q Hx Hy; [done|]. cbn [mul_loop].
  rewrite double_lxor, term_lxor_l, lxor_swap by done. apply IH; apply double_range.
Qed.

Lemma mul_loop_r n a b c p q :
  mul_loop n a (Z.lxor b c) (Z.lxor p q) = Z.lxor (mul_loop n a b p) (mul_loop n a c q).
Proof.
  revert a b c p q. induction n as [|n IH]; intros a b c p q; [done|]. cbn [mul_loop].
  rewrite Z.shiftr_lxor, term_lxor_r, lxor_swap. apply IH.
Qed.

Lemma Z_of_byte_mul a b : Z_of_byte (mul a b) = mul_loop 8 (Z_of_byte a) (Z_of_byte b) 0.
Proof. unfold mul. rewrite Z_of_byte_of_Z. apply Z.mod_small. by apply mul_loop_range. Qed.

Lemma mul_add_l a b c : mul (add a b) c = add (mul a c) (mul b c).
Proof.
  apply (inj Z_of_byte). rewrite Z_of_byte_add, !Z_of_byte_mul, Z_of_byte_add.
  by rewrite <- (mul_loop_l 8 _ _ _ 0 0) by apply is_u8_byte.
Qed.

Lemma mul_add_r a b c : mul a (add b c) = add (mul a b) (mul a c).
Proof.
  apply (inj Z_of_byte). rewrite Z_of_byte_add, !Z_of_byte_mul, Z_of_byte_add.
  by rewrite <- (mul_loop_r 8 _ _ _ 0 0).
Qed.

(** ** A linear identity holds when it holds on the powers of two *)

Definition basis : list byte := [x01; x02; x04; x08; x10; x20; x40; x80].

Definition bits_of (b : byte) : list byte :=
  filter (λ e, Z.land (Z_of_byte b) (Z_of_byte e) ≠ 0) basis.

Lemma sum_of_bits b : fold_right add x00 (bits_of b) = b.
Proof. by_bytes1 b. Qed.

Lemma linear_ind (P : byte → Prop) :
  P x00 → (∀ a b, P a → P b → P (add a b)) → Forall P basis → ∀ b, P b.
Proof.
  intros H0 Hadd Hb b. rewrite <- (sum_of_bits b).
  assert (Forall P (bits_of b)) as Hl.
  { rewrite Forall_forall in Hb |- *. intros e [_ He]%list_elem_of_filter. by apply Hb. }
  induction Hl as [|e l He _ IH]; [done|]. by apply Hadd.
Qed.

Lemma mul_0_l a : mul x00 a = x00.
Proof. rewrite <- (add_self x00), mul_add_l. apply add_self. Qed.
Lemma mul_0_r a : mul a x00 = x00.
Proof. rewrite <- (add_self x00), mul_add_r. apply add_self. Qed.

Ltac by_basis := repeat (apply Forall_cons; split); [reflexivity..|apply Forall_nil_2].

Lemma mul_1_l a : mul x01 a = a.
Proof.
  revert a. apply linear_ind; [done| |by_basis].
  intros a b Ha Hb. by rewrite mul_add_r, Ha, Hb.
Qed.

Lemma mul_comm a b : mul a b = mul b a.
Proof.
  revert b. apply linear_ind.
  - by rewrite mul_0_l, mul_0_r.
  - intros b c Hb Hc. by rewrite mul_add_l, mul_add_r, Hb, Hc.
  - revert a. assert (∀ e, e ∈ basis → ∀ a, mul a e = mul e a) as H.
    { assert (Forall (λ e, Forall (λ d, mul d e = mul e d) basis) basis) as Hb.
      { apply (bool_decide_unpack _). vm_compute. exact I. }
      intros e He. rewrite Forall_forall in Hb. apply linear_ind; [by rewrite mul_0_l, mul_0_r| |by apply Hb].
      intros x y Hx Hy. by rewrite mul_add_l, mul_add_r, Hx, Hy. }
    intros a. apply Forall_forall. intros e He. by apply H.
Qed.

Lemma mul_assoc a b c : mul a (mul b c) = mul (mul a b) c.
Proof.
  assert (Forall (λ e, Forall (λ d, Forall (λ c, mul e (mul d c) = mul (mul e d) c) basis) basis) basis) as H.
  { apply (bool_decide_unpack _). vm_compute. exact I. }
  revert a b c. apply (linear_ind (λ a, ∀ b c, mul a (mul b c) = mul (mul a b) c)).
  - intros b c. by rewrite !mul_0_l.
  - intros a a' Ha Ha' b c. by rewrite !mul_add_l, Ha, Ha'.
  - eapply Forall_impl; [exact H|]. clear H. intros e H.
    apply (linear_ind (λ b, ∀ c, mul e (mul b c) = mul (mul e b) c)).
    + intros c. by rewrite (mul_0_l c), (mul_0_r e), mul_0_l.
    + intros b b' Hb Hb' c. by rewrite mul_add_l, !mul_add_r, mul_add_l, Hb, Hb'.
    + eapply Forall_impl; [exact H|]. clear H. intros d H.
      apply (linear_ind (λ c, mul e (mul d c) = mul (mul e d) c)); [by rewrite !mul_0_r| |done].
      intros c c' Hc Hc'. by rewrite !mul_add_r, Hc, Hc'.
Qed.

(** ** Inverses *)

Fixpoint pow (a : byte) (n : nat) : byte :=
  match n with O => x01 | S n => mul a (pow a n) end.

Lemma pow_add a m n : pow a (m + n) = mul (pow a m) (pow a n).
Proof. induction m as [|m IH]; cbn [pow Nat.add]; [by rewrite mul_1_l|]. by rewrite IH, mul_assoc. Qed.

Lemma inverse_loop_pow n a r : inverse_loop n a r = mul r (pow a n).
Proof.
  revert r. induction n as [|n IH]; intros r; cbn [inverse_loop pow]; [by rewrite mul_comm, mul_1_l|].
  by rewrite IH, mul_assoc.
Qed.

(** The same power by squaring, which is quick to evaluate. *)
Fixpoint fast_pow (a : byte) (p : positive) : byte :=
  match p with
  | xH => a
  | xO p => let r := fast_pow a p in mul r r
  | xI p => let r := fast_pow a p in mul a (mul r r)
  end.

Lemma fast_pow_pow a p : fast_pow a p = pow a (Pos.to_nat p).
Proof.
  induction p as [p IH|p IH|]; cbn [fast_pow].
  - rewrite IH, <- pow_add. replace (Pos.to_nat p~1) with (S (Pos.to_nat p + Pos.to_nat p)) by lia. done.
  - rewrite IH, <- pow_add. f_equal. lia.
  - change (Pos.to_nat 1) with 1%nat. cbn [pow]. by rewrite mul_comm, mul_1_l.
Qed.

Lemma fermat a : a ≠ x00 → pow a 255 = x01.
Proof.
  intros Ha. change 255%nat with (Pos.to_nat 255). rewrite <- fast_pow_pow. revert Ha.
  assert (bool_decide (a = x00) || bool_decide (fast_pow a 255 = x01) = true) as H.
  { revert a. apply forall_byte. vm_compute. reflexivity. }
  apply orb_prop in H as [H%bool_decide_eq_true|H%bool_decide_eq_true]; done.
Qed.

Lemma mul_inverse_r a : a ≠ x00 → mul a (inverse a) = x01.
Proof.
  intros Ha. unfold inverse. rewrite decide_False by done. rewrite inverse_loop_pow, mul_1_l.
  by apply (fermat a).
Qed.

Lemma field_laws :
  field_theory x00 x01 add mul add (λ a, a) div inverse (@eq byte).
Proof.
  split; [split| | |].
  - apply add_0_l.
  - apply add_comm.
  - apply add_assoc.
  - apply mul_1_l.
  - apply mul_comm.
  - apply mul_assoc.
  - apply mul_add_l.
  - done.
  - apply add_self.
  - done.
  - done.
  - intros a Ha. rewrite mul_comm. by apply mul_inverse_r.
Qed.

(** C31: the constant-time loops of the code are the arithmetic of a field with
    256 elements: multiplication is associative, commutative, distributes over
    exclusive-or and has the unit 1, and [div] undoes multiplication by
    anything but zero. *)
Theorem gf_is_a_field :
  field_theory x00 x01 add mul add (λ a, a) div inverse (@eq byte)
  ∧ ∀ a b, b ≠ x00 → div (mul a b) b = a.
Proof.
  split; [apply field_laws|]. intros a b Hb. unfold div.
  by rewrite <- mul_assoc, mul_inverse_r, mul_comm, mul_1_l.
Qed.
End gf.
