(* ===== verification/Interpolation.v ===== *)
(** * Interpolation in a field of characteristic two

    The algebra behind secret sharing, over any field where every element is its
    own negation: a polynomial with at most as many coefficients as there are
    points is recovered from its values at those points. *)

From S2P Require Import Prelude.
From Stdlib Require Import Ring Field.

Section interpolation.
Context {F : Type} {FDec : EqDecision F}.
Context (zero one : F) (add mul : F → F → F) (opp : F → F) (div : F → F → F) (inv : F → F).
Hypothesis laws : field_theory zero one add mul add opp div inv (@eq F).
Hypothesis add_self : ∀ a, add a a = zero.

Add Field F_field : laws.

#[local] Infix "+" := add.
#[local] Infix "*" := mul.
#[local] Infix "/" := div.
#[local] Notation "0" := zero.
#[local] Notation "1" := one.

(** ** Polynomials as lists of coefficients *)

Fixpoint eval (p : list F) (x : F) : F :=
  match p with [] => 0 | c :: p => eval p x * x + c end.

Lemma eval_at_0 c p : eval (c :: p) 0 = c.
Proof. cbn [eval]. ring. Qed.

(** Synthetic division by [x - a]. *)
Fixpoint quotient (p : list F) (a : F) : list F :=
  match p with
  | [] => []
  | c :: p => match p with [] => [] | _ => eval p a :: quotient p a end
  end.

Lemma length_quotient p a : length (quotient p a) = pred (length p).
Proof. induction p as [|c [|d p] IH]; [done..|]. cbn [quotient length] in *. by rewrite IH. Qed.

Lemma eval_quotient p a x : eval p x = eval p a + (x + a) * eval (quotient p a) x.
Proof.
  induction p as [|c p IH]; [cbn [eval quotient]; ring|].
  destruct p as [|d p]; [cbn [eval quotient]; ring|].
  change (quotient (c :: d :: p) a) with (eval (d :: p) a :: quotient (d :: p) a).
  set (q := d :: p) in *. cbn [eval]. rewrite IH at 1.
  transitivity ((eval q a + (x + a) * eval (quotient q a) x) * x + c + (eval q a * a + eval q a * a));
    [rewrite add_self|]; ring.
Qed.

(** ** Interpolation at zero *)

Definition weight (x z : F) : F := if decide (z = x) then 1 else z / (x + z).
Definition prod (x : F) (zs : list F) : F := foldr (λ z acc, weight x z * acc) 1 zs.
(** The sum over [xs] of [f x] times the basis of [x] among [zs]. *)
Definition sum (f : F → F) (zs xs : list F) : F :=
  foldr (λ x acc, f x * prod x zs + acc) 0 xs.
Definition lagrange (f : F → F) (xs : list F) : F := sum f xs xs.

Lemma add_ne_0 x z : z ≠ x → x + z ≠ 0.
Proof.
  intros Hne Hxz. apply Hne. transitivity (z + (x + x)); [rewrite add_self; ring|].
  transitivity ((x + z) + x); [ring|rewrite Hxz; ring].
Qed.

Lemma prod_cons_ne x z zs : z ≠ x → prod x (z :: zs) = z / (x + z) * prod x zs.
Proof. intros H. cbn [prod foldr]. unfold weight at 1. by rewrite decide_False. Qed.

Lemma prod_cons_eq x zs : prod x (x :: zs) = prod x zs.
Proof. cbn [prod foldr]. unfold weight at 1. rewrite decide_True by done. fold (prod x zs). ring. Qed.

Lemma sum_ext f g zs ys xs :
  (∀ x, x ∈ xs → f x * prod x zs = g x * prod x ys) → sum f zs xs = sum g ys xs.
Proof.
  intros H. induction xs as [|x xs IH]; [done|]. cbn [sum foldr]. rewrite (H x) by left.
  f_equal. apply IH. intros y Hy. apply H. by right.
Qed.

Lemma sum_scale k f zs xs : sum (λ x, k * f x) zs xs = k * sum f zs xs.
Proof. induction xs as [|x xs IH]; cbn [sum foldr]; [ring|]. unfold sum in IH. rewrite IH. ring. Qed.

Lemma sum_add f g zs xs : sum (λ x, f x + g x) zs xs = sum f zs xs + sum g zs xs.
Proof. induction xs as [|x xs IH]; cbn [sum foldr]; [ring|]. unfold sum in IH. rewrite IH. ring. Qed.

Lemma lagrange_cons f a xs :
  lagrange f (a :: xs) = f a * prod a xs + sum f (a :: xs) xs.
Proof. unfold lagrange. cbn [sum foldr]. by rewrite prod_cons_eq. Qed.

(** Each term of the first point is divided away. *)
Lemma sum_drop_first f a xs :
  a ∉ xs → sum (λ x, (x + a) * f x) (a :: xs) xs = a * lagrange f xs.
Proof.
  intros Ha. unfold lagrange. rewrite <- sum_scale. apply sum_ext. intros x Hx.
  assert (a ≠ x) as Hne by (by intros ->). rewrite prod_cons_ne by done.
  field. by apply add_ne_0.
Qed.

(** Neville's step, for the two first points. *)
Lemma neville f a b r :
  a ≠ b → a ∉ r → b ∉ r →
  lagrange f (a :: b :: r) = (b * lagrange f (a :: r) + a * lagrange f (b :: r)) / (a + b).
Proof.
  intros Hab Ha Hb. pose proof (add_ne_0 a b ltac:(congruence)) as Hnz.
  rewrite !lagrange_cons. rewrite prod_cons_ne by congruence.
  change (sum f (a :: b :: r) (b :: r)) with (f b * prod b (a :: b :: r) + sum f (a :: b :: r) r).
  rewrite prod_cons_ne, prod_cons_eq by congruence.
  assert (sum f (a :: b :: r) r = (b * sum f (a :: r) r + a * sum f (b :: r) r) / (a + b)) as ->.
  { transitivity (sum (λ x, (b / (a + b)) * f x) (a :: r) r + sum (λ x, (a / (a + b)) * f x) (b :: r) r).
    2:{ rewrite !sum_scale. field. done. }
    assert (∀ l, (∀ x, x ∈ l → x ≠ a ∧ x ≠ b) → sum f (a :: b :: r) l =
      sum (λ x, (b / (a + b)) * f x) (a :: r) l + sum (λ x, (a / (a + b)) * f x) (b :: r) l) as H.
    { intros l Hl. induction l as [|x l IH]; [cbn [sum foldr]; ring|]. cbn [sum foldr] in IH |- *.
      unfold sum in IH. rewrite IH by (intros y Hy; apply Hl; by right).
      destruct (Hl x ltac:(left)) as [Hxa Hxb]. rewrite !prod_cons_ne by congruence.
      pose proof (add_ne_0 x a ltac:(congruence)). pose proof (add_ne_0 x b ltac:(congruence)).
          transitivity (f x * (a * b * (x + a + (x + b)) / ((x + a) * (x + b) * (a + b)) * prod x r) +
        (foldr (λ x acc, b / (a + b) * f x * prod x (a :: r) + acc) 0 l +
         foldr (λ x acc, a / (a + b) * f x * prod x (b :: r) + acc) 0 l)).
      - f_equal. replace (x + a + (x + b)) with (a + b); [field; done|].
        transitivity ((x + x) + (a + b)); [rewrite add_self|]; ring.
      - field. done. }
    apply H. intros x Hx. split; intros ->; done. }
  replace (b + a) with (a + b) by ring. field. done.
Qed.

(** Fewer coefficients than points: the value at zero is recovered. *)
Lemma lagrange_one xs : NoDup xs → xs ≠ [] → lagrange (λ _, 1) xs = 1.
Proof.
  intros Hn Hne. remember (length xs) as n eqn:Hlen. revert xs Hn Hne Hlen.
  induction (lt_wf n) as [n _ IH]. intros xs Hn Hne ->.
  destruct xs as [|a [|b r]]; [done|cbn [lagrange sum foldr prod weight]|].
  - unfold lagrange, sum, prod, weight. cbn [foldr]. rewrite decide_True by done. ring.
  - apply NoDup_cons in Hn as [Ha Hn]. pose proof Hn as Hbr. apply NoDup_cons in Hn as [Hb Hn].
    apply not_elem_of_cons in Ha as [Hab Ha]. rewrite neville by done.
    rewrite (IH (length (a :: r))); [|cbn; lia|by apply NoDup_cons|done|done].
    rewrite (IH (length (b :: r))); [|cbn; lia|done|done|done].
    pose proof (add_ne_0 a b ltac:(congruence)). field. done.
Qed.

Lemma lagrange_eval p xs :
  NoDup xs → (length p ≤ length xs)%nat → lagrange (eval p) xs = eval p 0.
Proof.
  revert p. induction xs as [|a xs IH]; intros p Hn Hl; [by destruct p; [|cbn in Hl; lia]|].
  pose proof Hn as Hn'. apply NoDup_cons in Hn' as [Ha Hn'].
  assert (lagrange (eval p) (a :: xs) = eval p a * lagrange (λ _, 1) (a :: xs) + a * lagrange (eval (quotient p a)) xs) as ->.
  { rewrite <- (sum_drop_first (eval (quotient p a)) a xs) by done. unfold lagrange at 1 2. rewrite <- sum_scale.
    transitivity (sum (λ x, eval p a * 1 + (x + a) * eval (quotient p a) x) (a :: xs) (a :: xs)).
    - apply sum_ext. intros x _. rewrite (eval_quotient p a x). ring.
    - rewrite sum_add. f_equal. cbn [sum foldr]. unfold sum. rewrite add_self. ring. }
  rewrite lagrange_one by done. rewrite IH; [|done|rewrite length_quotient; cbn in Hl; lia].
  rewrite (eval_quotient p a 0). ring.
Qed.

(** ** A polynomial through given points *)

Fixpoint padd (p q : list F) : list F :=
  match p, q with
  | c :: p, d :: q => c + d :: padd p q
  | [], q => q
  | p, [] => p
  end.

Lemma eval_padd p q x : eval (padd p q) x = eval p x + eval q x.
Proof.
  revert q. induction p as [|c p IH]; intros [|d q]; cbn [padd eval]; [ring..|]. rewrite IH. ring.
Qed.

Lemma length_padd p q : length (padd p q) = Nat.max (length p) (length q).
Proof. revert q. induction p as [|c p IH]; intros [|d q]; cbn; [done..|]. by rewrite IH. Qed.

Definition pscale (k : F) (p : list F) : list F := mul k <$> p.

Lemma eval_pscale k p x : eval (pscale k p) x = k * eval p x.
Proof. induction p as [|c p IH]; cbn [pscale fmap list_fmap eval]; [ring|]. unfold pscale in IH. rewrite IH. ring. Qed.

(** The product of [x + z] over [zs]. *)
Fixpoint monic (zs : list F) : list F :=
  match zs with
  | [] => [1]
  | z :: zs => padd (0 :: monic zs) (pscale z (monic zs))
  end.

Lemma length_monic zs : length (monic zs) = S (length zs).
Proof.
  induction zs as [|z zs IH]; [done|]. cbn [monic]. unfold pscale.
  rewrite length_padd. cbn [length]. rewrite length_fmap, IH. lia.
Qed.

Lemma eval_monic_cons z zs x : eval (monic (z :: zs)) x = (x + z) * eval (monic zs) x.
Proof. cbn [monic]. rewrite eval_padd, eval_pscale. cbn [eval]. ring. Qed.

Lemma mul_eq_0 a b : a * b = 0 → a ≠ 0 → b = 0.
Proof.
  intros H Ha. transitivity ((a * b) / a); [field; done|]. rewrite H. field. done.
Qed.

Lemma eval_monic_root zs x : x ∈ zs → eval (monic zs) x = 0.
Proof.
  induction 1 as [x zs|x z zs Hx IH]; rewrite eval_monic_cons.
  - rewrite add_self. ring.
  - rewrite IH. ring.
Qed.

Lemma eval_monic_ne zs x : x ∉ zs → eval (monic zs) x ≠ 0.
Proof.
  induction zs as [|z zs IH]; intros Hx.
  - cbn. intros H. apply (F_1_neq_0 laws). rewrite <- H. ring.
  - apply not_elem_of_cons in Hx as [Hxz Hx]. rewrite eval_monic_cons. intros H.
    apply mul_eq_0 in H; [by apply IH in H|]. apply add_ne_0. congruence.
Qed.

Lemma through_points (pts : list (F * F)) :
  NoDup pts.*1 → ∃ p, length p = length pts ∧ ∀ x y, (x, y) ∈ pts → eval p x = y.
Proof.
  induction pts as [|[x y] pts IH]; intros Hn.
  { exists []. split; [done|]. intros ? ? H. by apply not_elem_of_nil in H. }
  cbn in Hn. apply NoDup_cons in Hn as [Hx Hn]. destruct (IH Hn) as (q & Hl & Hq).
  exists (padd q (pscale ((y + eval q x) / eval (monic pts.*1) x) (monic pts.*1))). split.
  - rewrite length_padd. unfold pscale. rewrite length_fmap, length_monic, length_fmap. cbn [length]. lia.
  - intros x' y' Hin. rewrite eval_padd, eval_pscale. apply elem_of_cons in Hin as [[= -> ->]|Hin].
    + apply eval_monic_ne in Hx. transitivity (y + (eval q x + eval q x)); [field; done|].
      rewrite add_self. ring.
    + rewrite (eval_monic_root pts.*1 x') by (apply list_elem_of_fmap; exists (x', y'); split; done).
      rewrite (Hq x' y' Hin). field. by apply eval_monic_ne.
Qed.

Definition zeros (p : list F) : Prop := Forall (λ c, c = 0) p.

Lemma zeros_quotient p a : eval p a = 0 → zeros (quotient p a) → zeros p.
Proof.
  induction p as [|c p IH]; intros He Hq; [constructor|].
  destruct p as [|d p].
  - constructor; [|constructor]. cbn in He. rewrite <- He. ring.
  - change (quotient (c :: d :: p) a) with (eval (d :: p) a :: quotient (d :: p) a) in Hq.
    apply Forall_cons in Hq as [Hv Hq]. constructor; [|by apply IH].
    change (eval (d :: p) a * a + c = 0) in He. rewrite Hv in He. rewrite <- He. ring.
Qed.

(** A polynomial with as many roots as coefficients vanishes. *)
Lemma roots_zero p xs :
  NoDup xs → (length p ≤ length xs)%nat → (∀ x, x ∈ xs → eval p x = 0) → zeros p.
Proof.
  revert p. induction xs as [|a xs IH]; intros p Hn Hl Hr.
  { destruct p; [constructor|cbn in Hl; lia]. }
  apply NoDup_cons in Hn as [Ha Hn]. pose proof (Hr a ltac:(left)) as Hpa.
  apply (zeros_quotient p a); [done|]. apply IH; [done|rewrite length_quotient; cbn in Hl; lia|].
  intros x Hx. pose proof (Hr x ltac:(by right)) as Hpx. rewrite (eval_quotient p a x), Hpa in Hpx.
  apply (mul_eq_0 (x + a)); [rewrite <- Hpx; ring|]. apply add_ne_0. by intros ->.
Qed.

Lemma padd_zeros p q : length p = length q → zeros (padd p q) → p = q.
Proof.
  revert q. induction p as [|c p IH]; intros [|d q] Hl Hz; try done.
  cbn [padd] in Hz. apply Forall_cons in Hz as [Hc Hz]. f_equal; [|apply IH; [by injection Hl|done]].
  destruct (decide (c = d)) as [|Hne]; [done|]. exfalso. apply (add_ne_0 c d); congruence.
Qed.

(** Values at as many points as there are coefficients determine the polynomial. *)
Lemma eval_determines p q xs :
  NoDup xs → length p = length q → (length p ≤ length xs)%nat →
  (∀ x, x ∈ xs → eval p x = eval q x) → p = q.
Proof.
  intros Hn Hl Hlx H. apply padd_zeros; [done|]. apply (roots_zero _ xs); [done|rewrite length_padd; lia|].
  intros x Hx. rewrite eval_padd, H by done. apply add_self.
Qed.

(** One polynomial with a given constant term takes given values at as many
    points as it has further coefficients. *)
Lemma exactly_one c xs ys :
  NoDup xs → 0 ∉ xs → length ys = length xs →
  ∃ cs, (length cs = length xs ∧ eval (c :: cs) <$> xs = ys)
        ∧ ∀ ds, length ds = length xs ∧ eval (c :: ds) <$> xs = ys → cs = ds.
Proof.
  intros Hn H0 Hl. destruct (through_points ((0, c) :: zip xs ys)) as (p & Hp & Hv).
  { cbn. rewrite fst_zip by lia. by apply NoDup_cons. }
  cbn in Hp. rewrite length_zip_with_l_eq in Hp by done.
  destruct p as [|c' cs]; [done|]. injection Hp as Hp.
  assert (c' = c) as ->. { rewrite <- (eval_at_0 c' cs). apply Hv. by left. }
  assert (eval (c :: cs) <$> xs = ys) as Hcs.
  { apply list_eq_same_length with (length xs); [done|by rewrite length_fmap|].
    intros i x y Hi Hx Hy. apply list_lookup_fmap_Some in Hx as (z & -> & Hz).
    apply Hv. right. apply list_elem_of_lookup. exists i. by apply lookup_zip_Some. }
  exists cs. split; [done|]. intros ds [Hds Hys].
  assert (c :: cs = c :: ds) as [= ->]; [|done].
  apply (eval_determines _ _ (0 :: xs)); [by apply NoDup_cons|cbn; lia|cbn; lia|].
  intros x Hx. apply elem_of_cons in Hx as [->|Hx]; [by rewrite !eval_at_0|].
  apply list_elem_of_lookup in Hx as [i Hi].
  assert ((eval (c :: cs) <$> xs) !! i = (eval (c :: ds) <$> xs) !! i) as H by by rewrite Hcs, Hys.
  rewrite !list_lookup_fmap, Hi in H. by injection H.
Qed.
End interpolation.
