(* ===== verification/Token.v ===== *)
(** * Bearer tokens

    Models [crates/ls-core/src/crypto/token.rs]. SHA-256, of the [sha2] crate, is
    the interface [Sha256]: a function from bytes to 32 bytes. *)

From S2P Require Import Prelude Text Encoding World.
From Stdlib Require Import Strings.Byte.

(** [Sha256::digest]. *)
Class Sha256 := {
  sha256 : list byte → list byte;
  sha256_length bs : length (sha256 bs) = 32%nat;
}.

Definition TOKEN_PREFIX : string := "lsec_".
Definition TOKEN_BYTES : nat := 32.
Definition HASH_LEN : nat := 32.

Module token.

(** [TokenHash]: 32 bytes. *)
Record TokenHash := mk_hash { as_bytes : list byte }.

Record IssuedToken := mk_issued { secret : string; issued_hash : TokenHash }.

Section token.
Context {EnvI : Env} {ShaI : Sha256}.

Definition hash (secret : string) : TokenHash := mk_hash (sha256 (Text.as_bytes secret)).

Definition from_bytes (bytes : list byte) : option TokenHash :=
  if decide (length bytes = HASH_LEN) then Some (mk_hash bytes) else None.

(** [subtle::ConstantTimeEq] on slices is equality. *)
Definition ct_eq (a b : list byte) : bool := bool_decide (a = b).

Definition verify (self : TokenHash) (presented : string) : bool :=
  ct_eq (as_bytes (hash presented)) (as_bytes self).

Definition generate : proc World EntropyError IssuedToken :=
  let! bytes := random_bytes TOKEN_BYTES in
  let secret := TOKEN_PREFIX +:+ b64.encode bytes in
  ret (mk_issued secret (hash secret)).

Lemma generate_disk w r w' : generate w = (r, w') → disk w' = disk w.
Proof.
  unfold generate, bind. destruct (random_bytes TOKEN_BYTES w) as [[bs|e] w1] eqn:E;
    apply random_bytes_disk in E; by intros [= _ <-].
Qed.

(** What a generated token is. *)
Lemma generate_ok w t w' :
  generate w = (Ok t, w') →
  ∃ bs, length bs = TOKEN_BYTES ∧ secret t = TOKEN_PREFIX +:+ b64.encode bs
        ∧ issued_hash t = hash (secret t) ∧ fst (random_bytes TOKEN_BYTES w) = Ok bs.
Proof.
  unfold generate. rewrite bind_ok. intros (bs & w1 & Hr & [= <- <-]).
  exists bs. split_and!; [by eapply random_bytes_length|done|done|by rewrite Hr].
Qed.

(** A minted token is the prefix [lsec_] and the base64 of exactly the 32
    bytes the system supplied, all of which can be read back from it; its
    stored hash verifies it, and verifies another string only when the two
    have the same SHA-256. *)
Theorem token_generate w :
  match generate w with
  | (Ok t, _) =>
    (∃ bs, fst (random_bytes TOKEN_BYTES w) = Ok bs ∧ length bs = TOKEN_BYTES
           ∧ (strip_prefix TOKEN_PREFIX (secret t) ≫= b64.decode) = Some bs)
    ∧ ∀ presented, verify (issued_hash t) presented = true
                   ↔ sha256 (Text.as_bytes presented) = sha256 (Text.as_bytes (secret t))
  | (Err _, _) => entropy (draws w) = None
  end.
Proof.
  destruct (generate w) as [[t|e] w'] eqn:E.
  - apply generate_ok in E as (bs & Hl & Hs & Hh & Hr). split.
    + exists bs. split_and!; [done|done|]. rewrite Hs. unfold strip_prefix.
      rewrite as_bytes_app, strip_prefix_bytes_app. cbn. rewrite of_bytes_as_bytes.
      by apply b64.decode_encode_eq.
    + intros presented. unfold verify, ct_eq. rewrite bool_decide_eq_true, Hh. done.
  - unfold generate, bind, random_bytes, fill in E. by destruct (entropy (draws w)).
Qed.
End token.
End token.

(** A stand-in for SHA-256 where a theorem is applied at concrete values: the
    first 32 bytes, padded with zeros. *)
Module Truncation.
Definition digest (bs : list byte) : list byte := take 32 (bs ++ replicate 32 x00).

Lemma digest_length bs : length (digest bs) = 32%nat.
Proof. unfold digest. rewrite length_take, length_app, length_replicate. lia. Qed.

#[export] Instance sha : Sha256 := {| sha256 := digest; sha256_length := digest_length |}.
End Truncation.
