(* ===== verification/Shamir.v ===== *)
(** * Shamir secret sharing

    Models [crates/ls-core/src/crypto/shamir.rs]: shares and their printed form,
    [split] and [combine]. The theorems say that any quorum of shares, in any
    order, recombines to the secret; that fewer shares are consistent with
    every secret; and that a printed share reads back. *)

From S2P Require Import Prelude Text Encoding World Gf256 Interpolation Token.
From Stdlib Require Import Strings.Byte Ring Field.

Definition SHARE_PREFIX : string := "lss1".
Definition CHECKSUM_LEN : nat := 4.

Module shamir.

Inductive ShamirError :=
| ThresholdTooLow
| ThresholdAboveShareCount (threshold shares : Z)
| EmptySecret
| NotEnoughShares
| DuplicateIndex (index : byte)
| LengthMismatch
| MalformedShare
| ChecksumMismatch
| Entropy.

#[global] Instance ShamirError_eq_dec : EqDecision ShamirError.
Proof. solve_decision. Defined.

(** An x coordinate and the polynomial values at it. *)
Record Share := mk_share { index : byte; data : list byte }.

#[global] Instance Share_eq_dec : EqDecision Share.
Proof. solve_decision. Defined.

Section shamir.
Context {EnvI : Env} {ShaI : Sha256}.

Definition checksum (index : byte) (data : list byte) : list byte :=
  take CHECKSUM_LEN (sha256 (as_bytes SHARE_PREFIX ++ [index] ++ data)).

(** [Display] of a share. *)
Definition to_string (self : Share) : string :=
  SHARE_PREFIX +:+ "." +:+ show_Z (Z_of_byte (index self)) +:+ "." +:+ b64.encode (data self)
  +:+ "." +:+ hex.encode (checksum (index self) (data self)).

Definition parse (printed : string) : result ShamirError Share :=
  match Text.split "."%byte (Text.trim printed) with
  | [prefix; index_text; data_text; checksum_text] =>
    if negb (bool_decide (prefix = SHARE_PREFIX)) then Err MalformedShare else
    let? index := ok_or (parse_unsigned u8_max index_text) MalformedShare in
    if index =? 0 then Err MalformedShare else
    let? data := ok_or (b64.decode data_text) MalformedShare in
    if bool_decide (data = []) then Err MalformedShare else
    let? supplied := ok_or (hex.decode checksum_text) MalformedShare in
    if negb (length supplied =? CHECKSUM_LEN)%nat then Err MalformedShare else
    if negb (bool_decide (supplied = checksum (byte_of_Z index) data)) then Err ChecksumMismatch else
    Ok (mk_share (byte_of_Z index) data)
  | _ => Err MalformedShare
  end.

(** [constant + c1*x + c2*x^2 + ...] by Horner's rule. *)
Definition evaluate (constant : byte) (coefficients : list byte) (x : byte) : byte :=
  gf.add (gf.mul (foldr (λ c acc, gf.add (gf.mul acc x) c) x00 coefficients) x) constant.

(** The coefficients of the polynomial of one byte of the secret. *)
Definition coefficients_at (coefficients : list byte) (degree byte_position : nat) : list byte :=
  take degree (drop (byte_position * degree) coefficients).

(** The share at one x coordinate. *)
Definition share_at (secret coefficients : list byte) (degree : nat) (index : byte) : Share :=
  mk_share index
    (imap (λ byte_position secret_byte,
       evaluate secret_byte (coefficients_at coefficients degree byte_position) index) secret).

(** [1..=shares]. *)
Definition indices (shares : Z) : list byte := byte_of_Z ∘ Z.of_nat <$> seq 1 (Z.to_nat shares).

(** [split], for a threshold and a share count that are [u8]s. *)
Definition split (secret : list byte) (threshold shares : Z) : proc World ShamirError (list Share) :=
  if threshold <? 1 then fail ThresholdTooLow
  else if shares <? threshold then fail (ThresholdAboveShareCount threshold shares)
  else if bool_decide (secret = []) then fail EmptySecret
  else
    let degree := Z.to_nat (threshold - 1) in
    let! coefficients :=
      (if (length secret * degree =? 0)%nat then ret []
       else map_perr (λ _, Entropy) (fill (length secret * degree))) in
    ret (share_at secret coefficients degree <$> indices shares).

(** The check of one share against the first length and the shares before it. *)
Fixpoint check_shares (length_ : nat) (seen rest : list Share) : result ShamirError unit :=
  match rest with
  | [] => Ok tt
  | share :: rest =>
    if negb (length (data share) =? length_)%nat then Err LengthMismatch
    else if existsb (λ s, bool_decide (index s = index share)) seen then Err (DuplicateIndex (index share))
    else check_shares length_ (seen ++ [share]) rest
  end.

(** The Lagrange basis of the [i]-th share at zero: the loop over [j]. *)
Definition basis (shares : list Share) (i : nat) (share : Share) : byte :=
  fold_left (λ acc '(j, other),
      if (i =? j)%nat then acc
      else gf.mul acc (gf.div (index other) (gf.add (index share) (index other))))
    (imap pair shares) x01.

(** One byte of the secret: the loop over [i]. *)
Definition interpolate (shares : list Share) (byte_position : nat) : byte :=
  fold_left (λ accumulated '(i, share),
      gf.add accumulated (gf.mul (nth byte_position (data share) x00) (basis shares i share)))
    (imap pair shares) x00.

Definition combine (shares : list Share) : result ShamirError (list byte) :=
  match shares with
  | [] => Err NotEnoughShares
  | first :: _ =>
    let length := length (data first) in
    let? _ := check_shares length [] shares in
    Ok (interpolate shares <$> seq 0 length)
  end.
End shamir.

(** ** The loops are the algebra of [Interpolation] *)

Abbreviation geval := (eval x00 gf.add gf.mul).
Abbreviation glagrange := (lagrange x00 x01 gf.add gf.mul gf.div).
Abbreviation gprod := (prod x01 gf.add gf.mul gf.div).
Abbreviation gsum := (sum x00 x01 gf.add gf.mul gf.div).

Lemma evaluate_eval c cs x : evaluate c cs x = geval (c :: cs) x.
Proof.
  unfold evaluate. cbn [eval]. do 2 f_equal.
  induction cs as [|d cs IH]; [done|]. cbn [foldr eval]. by rewrite IH.
Qed.

Lemma basis_fold i x l k acc :
  (∀ j s, l !! j = Some s → (i = (k + j)%nat ↔ index s = x)) →
  fold_left (λ acc '(j, other),
      if (i =? j)%nat then acc else gf.mul acc (gf.div (index other) (gf.add x (index other))))
    (imap (λ j s, ((k + j)%nat, s)) l) acc
  = gf.mul acc (gprod x (index <$> l)).
Proof.
  revert k acc. induction l as [|s l IH]; intros k acc Hi.
  { cbn [imap fold_left fmap list_fmap prod foldr]. by rewrite gf.mul_comm, gf.mul_1_l. }
  rewrite imap_cons. cbn [fold_left fmap list_fmap prod foldr].
  fold (gprod x (index <$> l)).
  rewrite (imap_ext _ (λ j s, ((S k + j)%nat, s))) by (intros; cbn; f_equal; lia).
  pose proof (Hi 0%nat s eq_refl) as H0. rewrite Nat.add_0_r in H0.
  rewrite IH by (intros j s' Hj; rewrite <- (Hi (S j) s' Hj); lia).
  rewrite Nat.add_0_r. unfold weight. destruct (Nat.eqb_spec i k) as [->|Hne].
  - rewrite decide_True by (by apply H0). by rewrite gf.mul_1_l.
  - rewrite decide_False by (intros Hx; by apply Hne, H0). by rewrite gf.mul_assoc.
Qed.

Lemma basis_prod shares i share :
  NoDup (index <$> shares) → shares !! i = Some share →
  basis shares i share = gprod (index share) (index <$> shares).
Proof.
  intros Hn Hi. unfold basis.
  rewrite (imap_ext _ (λ j s, ((0 + j)%nat, s))) by done.
  rewrite basis_fold; [apply gf.mul_1_l|].
  intros j s Hj. split.
  - intros ->. cbn in Hi. by simplify_eq.
  - intros Hx. apply (NoDup_lookup _ i j (index share) Hn); rewrite list_lookup_fmap.
    + by rewrite Hi.
    + rewrite Hj. cbn. by rewrite Hx.
Qed.

Lemma interpolate_lagrange f shares pos :
  NoDup (index <$> shares) → (∀ s, s ∈ shares → nth pos (data s) x00 = f (index s)) →
  interpolate shares pos = glagrange f (index <$> shares).
Proof.
  intros Hn Hf. unfold interpolate, lagrange.
  assert (∀ l k acc, (∀ j s, l !! j = Some s → shares !! (k + j)%nat = Some s) →
    fold_left (λ accumulated '(i, share),
        gf.add accumulated (gf.mul (nth pos (data share) x00) (basis shares i share)))
      (imap (λ j s, ((k + j)%nat, s)) l) acc
    = gf.add acc (gsum f (index <$> shares) (index <$> l))) as H.
  { induction l as [|s l IH]; intros k acc Hl.
    { cbn [imap fold_left fmap list_fmap sum foldr]. by rewrite gf.add_comm, gf.add_0_l. }
    rewrite imap_cons. cbn [fold_left fmap list_fmap sum foldr].
    rewrite (imap_ext _ (λ j s, ((S k + j)%nat, s))) by (intros; cbn; f_equal; lia).
    pose proof (Hl 0%nat s eq_refl) as H0.
    rewrite IH by (intros j s' Hj; rewrite <- (Hl (S j) s' Hj); f_equal; lia).
    rewrite (basis_prod shares _ s Hn H0), Hf by (by eapply list_elem_of_lookup_2).
    by rewrite gf.add_assoc. }
  rewrite (imap_ext _ (λ j s, ((0 + j)%nat, s))) by done.
  rewrite H by done. apply gf.add_0_l.
Qed.

Lemma check_shares_ok {n} seen rest :
  NoDup (index <$> (seen ++ rest)) → Forall (λ s, length (data s) = n) rest →
  check_shares n seen rest = Ok tt.
Proof.
  revert seen. induction rest as [|s rest IH]; intros seen Hn Hl; [done|]. cbn [check_shares].
  apply Forall_cons in Hl as [Hs Hl]. rewrite Hs, Nat.eqb_refl. cbn [negb].
  destruct (existsb _ seen) eqn:E.
  - apply existsb_exists in E as (s' & Hin & He). apply bool_decide_eq_true in He.
    rewrite fmap_app in Hn. apply NoDup_app in Hn as (_ & Hn & _). exfalso.
    apply (Hn (index s)); [|by left]. apply list_elem_of_fmap. exists s'. split; [done|].
    by apply list_elem_of_In.
  - apply IH; [by rewrite <- app_assoc|done].
Qed.

Lemma length_share_at secret cs degree x : length (data (share_at secret cs degree x)) = length secret.
Proof. cbn. by rewrite length_imap. Qed.

Lemma nth_share_at secret cs degree x pos b :
  secret !! pos = Some b →
  nth pos (data (share_at secret cs degree x)) x00 = geval (b :: coefficients_at cs degree pos) x.
Proof.
  intros Hb. cbn [data share_at]. apply nth_lookup_Some. rewrite list_lookup_imap, Hb.
  cbn. by rewrite evaluate_eval.
Qed.

Lemma combine_shares_at secret cs degree (xs : list byte) :
  xs ≠ [] → NoDup xs → (degree < length xs)%nat →
  combine (share_at secret cs degree <$> xs) = Ok secret.
Proof.
  intros Hne Hn Hd. destruct xs as [|x0 xs0] eqn:Hxs; [done|]. rewrite <- Hxs in *.
  assert (index <$> (share_at secret cs degree <$> xs) = xs) as Hidx.
  { rewrite <- list_fmap_compose. by apply list_fmap_id. }
  assert (combine (share_at secret cs degree <$> xs) =
    let? _ := check_shares (length secret) [] (share_at secret cs degree <$> xs) in
    Ok (interpolate (share_at secret cs degree <$> xs) <$> seq 0 (length secret))) as ->.
  { unfold combine. rewrite Hxs. cbn [fmap list_fmap]. by rewrite length_share_at. }
  rewrite check_shares_ok; [|cbn [app]; by rewrite Hidx|].
  2:{ apply Forall_fmap, Forall_forall. intros x _. apply length_share_at. }
  cbn [res_bind]. f_equal. apply list_eq_same_length with (length secret);
    [done|by rewrite length_fmap, length_seq|].
  intros pos b b' Hpos Hb Hb'. apply list_lookup_fmap_Some in Hb as (k & -> & Hk).
  apply lookup_seq in Hk as [-> _]. cbn [Nat.add].
  rewrite (interpolate_lagrange (geval (b' :: coefficients_at cs degree pos))).
  - rewrite Hidx. rewrite (lagrange_eval _ _ _ _ _ _ _ gf.field_laws gf.add_self) by
      (try done; unfold coefficients_at; cbn [length]; rewrite length_take; lia).
    apply (eval_at_0 _ _ _ _ _ _ _ gf.field_laws).
  - by rewrite Hidx.
  - intros s (x & -> & _)%list_elem_of_fmap. by apply nth_share_at.
Qed.

(** ** Splitting *)

Section quorum.
Context {EnvI : Env}.

Lemma elem_of_indices n x : 0 <= n <= 255 → x ∈ indices n ↔ 1 <= Z_of_byte x <= n.
Proof.
  intros Hn. unfold indices. rewrite list_elem_of_fmap. split.
  - intros (k & -> & Hk). apply elem_of_seq in Hk. cbn. rewrite Z_of_byte_of_Z, Z.mod_small; lia.
  - intros Hx. exists (Z.to_nat (Z_of_byte x)). cbn. rewrite Z2Nat.id by lia. rewrite byte_of_Z_of_byte.
    split; [done|]. apply elem_of_seq. lia.
Qed.

Lemma split_ok secret threshold shares w out w' :
  split secret threshold shares w = (Ok out, w') →
  secret ≠ [] ∧ 1 <= threshold <= shares ∧ disk w' = disk w ∧
  ∃ cs, length cs = (length secret * Z.to_nat (threshold - 1))%nat
        ∧ out = share_at secret cs (Z.to_nat (threshold - 1)) <$> indices shares.
Proof.
  unfold split. destruct (Z.ltb_spec threshold 1) as [|Ht1]; [done|].
  destruct (Z.ltb_spec shares threshold) as [|Ht2]; [done|].
  destruct (bool_decide (secret = [])) eqn:E; [done|]. apply bool_decide_eq_false in E.
  rewrite bind_ok. intros (cs & w1 & Hc & [= <- <-]).
  split; [done|]. split; [lia|].
  destruct (Nat.eqb_spec (length secret * Z.to_nat (threshold - 1)) 0) as [H0|].
  - injection Hc as <- <-. split; [done|]. exists []. by rewrite H0.
  - unfold map_perr in Hc. destruct (fill _ w) as [[cs'|] w2] eqn:Ef; [|done]. injection Hc as -> ->.
    split; [by eapply random_bytes_disk|]. exists cs. split; [by eapply random_bytes_length|done].
Qed.

Lemma combine_quorum secret threshold shares w out w' quorum :
  split secret threshold shares w = (Ok out, w') → shares <= 255 →
  NoDup quorum → (∀ s, s ∈ quorum → s ∈ out) → threshold <= Z.of_nat (length quorum) →
  combine quorum = Ok secret.
Proof.
  intros Hs Hmax Hn Hin Hlen. apply split_ok in Hs as (Hne & Ht & _ & cs & _ & ->).
  set (degree := Z.to_nat (threshold - 1)) in *.
  assert (quorum = share_at secret cs degree <$> (index <$> quorum)) as Hq.
  { assert (∀ l : list Share, (∀ s, s ∈ l → s ∈ share_at secret cs degree <$> indices shares) →
      l = share_at secret cs degree <$> (index <$> l)) as H; [|by apply H].
    induction l as [|s l IH]; intros Hl; [done|]. cbn [fmap list_fmap]. f_equal.
    - destruct (proj1 (list_elem_of_fmap _ _ _) (Hl s ltac:(left))) as (x & -> & _). done.
    - apply IH. intros s' Hs'. apply Hl. by right. }
  rewrite Hq. apply combine_shares_at.
  - intros Hnil. apply (f_equal length) in Hnil. rewrite length_fmap in Hnil. cbn in Hnil. lia.
  - rewrite Hq in Hn. by apply NoDup_fmap_1 in Hn.
  - rewrite length_fmap. unfold degree. lia.
Qed.

(** C29: any collection of at least [threshold] of the issued shares, in
    any order and from any subset, recombines to exactly the secret that was
    split. *)
Theorem any_quorum_recovers secret threshold shares w out w' quorum :
  split secret threshold shares w = (Ok out, w') → shares <= 255 →
  NoDup quorum → (∀ s, s ∈ quorum → s ∈ out) → threshold <= Z.of_nat (length quorum) →
  combine quorum = Ok secret.
Proof. apply combine_quorum. Qed.

(** C30: fewer shares than the threshold say nothing about the secret: for
    any byte [c] a secret could hold, any [threshold - 1] share indices and any
    values seen there, exactly one choice of the random coefficients produces
    those values. The values are therefore as likely under one secret as under
    any other. *)
Theorem short_of_quorum_reveals_nothing c xs ys :
  NoDup xs → x00 ∉ xs → length ys = length xs →
  exists! cs, length cs = length xs ∧ evaluate c cs <$> xs = ys.
Proof.
  intros Hn H0 Hl.
  destruct (exactly_one _ _ _ _ _ _ _ gf.field_laws gf.add_self c xs ys Hn H0 Hl) as (cs & [Hcs He] & Hu).
  assert (∀ ds, evaluate c ds <$> xs = geval (c :: ds) <$> xs) as Heq.
  { intros ds. apply list_fmap_ext. intros _ x _. apply evaluate_eval. }
  exists cs. split; [by rewrite Heq|]. intros ds [Hds Hys]. apply Hu. by rewrite <- Heq.
Qed.
End quorum.

Section printed.
Context {ShaI : Sha256}.

(** ** The printed form *)

Lemma no_dot_digits l : forallb is_ascii_digit l = true → "."%byte ∉ l.
Proof.
  rewrite forallb_forall. intros H Hin. apply list_elem_of_In, H in Hin. by vm_compute in Hin.
Qed.

Lemma alphabet_plain c : c ∈ b64.ALPHABET → is_ascii c = true ∧ c ≠ "."%byte.
Proof.
  intros H. assert (Forall (λ c, is_ascii c = true ∧ c ≠ "."%byte) b64.ALPHABET) as Hf.
  { apply (bool_decide_unpack _). vm_compute. exact I. }
  rewrite Forall_forall in Hf. by apply Hf.
Qed.

Lemma hex_plain c : is_ascii_digit c || is_ascii_lowercase c = true →
  is_ascii c = true ∧ c ≠ "."%byte ∧ is_whitespace (Z_of_byte c) = false.
Proof.
  intros H. assert (negb (is_ascii_digit c || is_ascii_lowercase c)
    || bool_decide (is_ascii c = true ∧ c ≠ "."%byte ∧ is_whitespace (Z_of_byte c) = false) = true) as Hc.
  { revert c H. intros c _. revert c. apply forall_byte. vm_compute. reflexivity. }
  rewrite H in Hc. by apply bool_decide_eq_true in Hc.
Qed.

Lemma checksum_length i d : length (checksum i d) = CHECKSUM_LEN.
Proof. unfold checksum. rewrite length_take, sha256_length. done. Qed.

Lemma to_string_bytes self :
  as_bytes (to_string self) =
  as_bytes SHARE_PREFIX ++ "."%byte :: show_unsigned (Z_of_byte (index self)) ++ "."%byte
  :: as_bytes (b64.encode (data self)) ++ "."%byte
  :: as_bytes (hex.encode (checksum (index self) (data self))).
Proof.
  unfold to_string. rewrite !as_bytes_app. change (as_bytes ".") with ["."%byte].
  unfold show_Z. pose proof (Z_of_byte_range (index self)).
  destruct (Z.ltb_spec (Z_of_byte (index self)) 0); [lia|]. rewrite as_bytes_of_bytes.
  cbn [app]. done.
Qed.

Lemma hex_checksum_snoc i d :
  ∃ l y, as_bytes (hex.encode (checksum i d)) = l ++ [y] ∧ is_whitespace (Z_of_byte y) = false.
Proof.
  pose proof (hex.encode_ascii (checksum i d)) as Ha.
  destruct (as_bytes (hex.encode (checksum i d))) as [|y l _] eqn:E using rev_ind.
  - unfold hex.encode in E. rewrite as_bytes_of_bytes in E. apply (f_equal length) in E.
    rewrite hex.length_encode_bytes, checksum_length in E. done.
  - exists l, y. split; [done|]. rewrite forallb_app in Ha. apply andb_prop in Ha as [_ Ha].
    cbn [forallb] in Ha. rewrite andb_true_r in Ha. by apply hex_plain in Ha as (_ & _ & ?).
Qed.

Lemma to_string_ascii self : forallb is_ascii (as_bytes (to_string self)) = true.
Proof.
  rewrite to_string_bytes. repeat (rewrite forallb_app || cbn [forallb]).
  assert (forallb is_ascii (as_bytes (b64.encode (data self))) = true) as ->.
  { apply forallb_forall. intros c Hc. pose proof (b64.encode_alphabet (data self)) as H.
    rewrite Forall_forall in H. apply list_elem_of_In, H in Hc. by apply alphabet_plain in Hc as [? _]. }
  assert (forallb is_ascii (as_bytes (hex.encode (checksum (index self) (data self)))) = true) as ->.
  { apply forallb_forall. intros c Hc. pose proof (hex.encode_ascii (checksum (index self) (data self))) as H.
    rewrite forallb_forall in H. by apply H, hex_plain in Hc as [? _]. }
  rewrite show_unsigned_ascii; [done|]. pose proof (Z_of_byte_range (index self)). lia.
Qed.

Lemma trim_to_string self : trim (to_string self) = to_string self.
Proof.
  destruct (hex_checksum_snoc (index self) (data self)) as (l & y & Hl & Hy).
  pose proof (to_string_bytes self) as Hb. rewrite Hl in Hb.
  apply (trim_id _ "l"%byte (as_bytes "ss1" ++ "."%byte :: show_unsigned (Z_of_byte (index self))
    ++ "."%byte :: as_bytes (b64.encode (data self)) ++ "."%byte :: l) y); [|apply to_string_ascii|done|done].
  rewrite Hb. rewrite <- !app_assoc. cbn [app]. rewrite <- !app_assoc. cbn [app].
  by rewrite <- !app_assoc.
Qed.

Lemma parse_to_string_eq self :
  index self ≠ x00 → data self ≠ [] → parse (to_string self) = Ok self.
Proof.
  intros Hi Hd. unfold parse. rewrite trim_to_string. unfold Text.split. rewrite to_string_bytes.
  pose proof (Z_of_byte_range (index self)) as Hr.
  rewrite split_at_byte_join by (apply (bool_decide_unpack _); vm_compute; exact I).
  rewrite split_at_byte_join by (apply no_dot_digits, show_unsigned_spec; lia).
  rewrite split_at_byte_join.
  2:{ intros Hin. pose proof (b64.encode_alphabet (data self)) as H. rewrite Forall_forall in H.
      by apply H, alphabet_plain in Hin as [_ ?]. }
  rewrite split_at_byte_none.
  2:{ intros Hin. pose proof (hex.encode_ascii (checksum (index self) (data self))) as H.
      rewrite forallb_forall in H. apply list_elem_of_In, H, hex_plain in Hin. by destruct Hin as (_ & ? & _). }
  cbn [fmap list_fmap]. rewrite !of_bytes_as_bytes. rewrite bool_decide_true by done. cbn [negb].
  rewrite parse_show_unsigned by (unfold u8_max; lia). cbn [ok_or res_bind].
  destruct (Z.eqb_spec (Z_of_byte (index self)) 0) as [E|_].
  { destruct Hi. apply (inj Z_of_byte). by rewrite E. }
  rewrite b64.decode_encode_eq. cbn [ok_or res_bind]. rewrite bool_decide_false by done.
  rewrite hex.hex_decode_encode. cbn [ok_or res_bind].
  rewrite checksum_length, Nat.eqb_refl, byte_of_Z_of_byte. cbn [negb].
  rewrite bool_decide_true by done. by destruct self.
Qed.

(** A share that was issued reads back from its printed form, even with
    white space around it; and what is read always carries a matching
    checksum and a non-zero index. *)
Theorem share_print_parse self :
  index self ≠ x00 → data self ≠ [] →
  parse (to_string self) = Ok self
  ∧ ∀ printed read, parse printed = Ok read → index read ≠ x00 ∧ data read ≠ [].
Proof.
  intros Hi Hd. split; [by apply parse_to_string_eq|]. intros printed read. unfold parse.
  destruct (Text.split _ _) as [|p0 [|p1 [|p2 [|p3 [|]]]]]; try done.
  destruct (negb _); [done|]. destruct (parse_unsigned u8_max p1) as [i|] eqn:Ei; [|done]. cbn [ok_or res_bind].
  destruct (Z.eqb_spec i 0) as [|Hne]; [done|]. destruct (b64.decode p2) as [d|]; [|done]. cbn [ok_or res_bind].
  destruct (bool_decide (d = [])) eqn:Ed; [done|]. apply bool_decide_eq_false in Ed.
  destruct (hex.decode p3); [|done]. cbn [ok_or res_bind].
  destruct (negb _); [done|]. destruct (negb _); [done|]. intros [= <-]. cbn. split; [|done].
  intros H. apply (f_equal Z_of_byte) in H. rewrite Z_of_byte_of_Z in H.
  apply parse_unsigned_range in Ei. unfold u8_max in Ei. rewrite Z.mod_small in H by lia. done.
Qed.
End printed.

(** The hypotheses, at a secret of three bytes split two out of three. *)
Lemma any_quorum_recovers_witness :
  let env := calm (λ k i, byte_of_Z (Z.of_nat (7 * k + 3 * i + 1))) 0 in
  let w := mk_world 0 0 0 (mk_disk ∅ ∅ 0) 2 [] in
  match fst (@split env (as_bytes "key") 2 3 w) with
  | Ok [s1; s2; s3] => combine [s3; s1] = Ok (as_bytes "key")
  | _ => False
  end.
Proof.
  cbn zeta.
  destruct (@split (calm (λ k i, byte_of_Z (Z.of_nat (7 * k + 3 * i + 1))) 0) (as_bytes "key") 2 3
    (mk_world 0 0 0 (mk_disk ∅ ∅ 0) 2 [])) as [out w'] eqn:E.
  assert (out = out) as _ by done. pose proof E as E'. vm_compute in E'. injection E' as <- <-. cbn [fst].
  eapply any_quorum_recovers; [exact E|done| | |done].
  - apply (bool_decide_unpack _). vm_compute. exact I.
  - apply Forall_forall. apply (bool_decide_unpack _). vm_compute. exact I.
Defined.

Lemma short_of_quorum_reveals_nothing_witness :
  exists! cs, length cs = 2%nat ∧ evaluate x61 cs <$> [x01; x03] = [x10; x20].
Proof.
  apply (short_of_quorum_reveals_nothing x61 [x01; x03] [x10; x20]).
  - apply (bool_decide_unpack _). vm_compute. exact I.
  - apply (bool_decide_unpack _). vm_compute. exact I.
  - reflexivity.
Defined.

Lemma share_print_parse_witness :
  parse (ShaI := Truncation.sha) (to_string (ShaI := Truncation.sha) (mk_share x05 [x01; xff])) = Ok (mk_share x05 [x01; xff]).
Proof. apply (share_print_parse (ShaI := Truncation.sha) (mk_share x05 [x01; xff])); discriminate. Defined.
End shamir.
