(* ===== verification/Aead.v ===== *)
(** * Authenticated encryption

    Models [crates/ls-core/src/crypto/aead.rs]. AES-256-GCM itself is the
    interface [Cipher]: two functions, with the three facts of the algorithm
    that the program relies on. Everything around it is modelled: the canonical
    associated data, the size limit, nonces drawn from the world's entropy, and
    the wrapping of keys by keys. *)

From S2P Require Import Prelude Text World.
From Stdlib Require Import Strings.Byte.

Definition KEY_LEN : nat := 32.
Definition NONCE_LEN : nat := 12.
Definition MAX_PLAINTEXT_LEN : Z := 64 * 1024.

(** AES-256-GCM, of the [aes_gcm] crate: key, nonce, associated data, message. *)
Class Cipher := {
  aes_encrypt : list byte → list byte → list byte → list byte → option (list byte);
  aes_decrypt : list byte → list byte → list byte → list byte → option (list byte);
}.

(** What the algorithm documents: a message within the limit is encrypted, with
    a 16-byte tag; a ciphertext decrypts to what was encrypted; and only a
    ciphertext that encryption produces passes the tag check. *)
Class CipherLaws `{Cipher} := {
  encrypt_total k n a m : Z.of_nat (length m) <= MAX_PLAINTEXT_LEN → is_Some (aes_encrypt k n a m);
  encrypt_length k n a m c : aes_encrypt k n a m = Some c → length c = (length m + 16)%nat;
  decrypt_encrypt k n a m c : aes_encrypt k n a m = Some c → aes_decrypt k n a c = Some m;
  encrypt_decrypt k n a m c : aes_decrypt k n a c = Some m → aes_encrypt k n a m = Some c;
}.

Inductive AeadError :=
| Decrypt
| PlaintextTooLarge (len max : Z)
| Encrypt
| Entropy.

#[global] Instance AeadError_eq_dec : EqDecision AeadError.
Proof. solve_decision. Defined.

(** ** Associated data *)

Module Aad.

Record t := mk { as_bytes : list byte }.

#[global] Instance t_eq_dec : EqDecision t.
Proof. solve_decision. Defined.

Definition push_field (field : list byte) : list byte :=
  be_bytes 8 (Z.of_nat (length field)) ++ field.

Definition new (domain : string) (fields : list string) : t :=
  mk (push_field (Text.as_bytes domain)
      ++ be_bytes 8 (Z.of_nat (length fields))
      ++ concat (push_field ∘ Text.as_bytes <$> fields)).

Definition secret_slot (project_id environment_id key : string) : t :=
  new "localsecrets.secret.v1" [project_id; environment_id; key].

Definition key_wrap (purpose owner_id : string) : t :=
  new "localsecrets.keywrap.v1" [purpose; owner_id].

(** A length that a [u64] counts without wrapping. *)
Definition fits (n : nat) : Prop := Z.of_nat n < 256 ^ 8.

Lemma push_field_inj f g r s :
  fits (length f) → fits (length g) → push_field f ++ r = push_field g ++ s → f = g ∧ r = s.
Proof.
  unfold push_field, fits. intros Hf Hg H. rewrite <- !app_assoc in H.
  apply app_inj_1 in H as [Hl H]; [|by rewrite !length_be_bytes].
  apply be_bytes_inj in Hl; [|lia..]. apply app_inj_1 in H; [done|lia].
Qed.

Lemma push_fields_inj fs gs :
  length fs = length gs → Forall (λ f, fits (length f)) fs → Forall (λ g, fits (length g)) gs →
  concat (push_field <$> fs) = concat (push_field <$> gs) → fs = gs.
Proof.
  revert gs. induction fs as [|f fs IH]; intros [|g gs] Hl Hf Hg H; try done.
  apply Forall_cons in Hf as [Hf Hfs]. apply Forall_cons in Hg as [Hg Hgs].
  rewrite !fmap_cons in H. cbn [concat] in H. apply push_field_inj in H as [-> H]; [|done..].
  f_equal. apply IH; [by injection Hl|done..].
Qed.

(** The context of a ciphertext is canonical. *)
Definition fits_all (domain : string) (fields : list string) : Prop :=
  fits (length (Text.as_bytes domain)) ∧ fits (length fields)
  ∧ Forall (λ f, fits (length (Text.as_bytes f))) fields.

Lemma new_inj d fs e gs : fits_all d fs → fits_all e gs → new d fs = new e gs → d = e ∧ fs = gs.
Proof.
  intros (Hd & Hnf & Hf) (He & Hng & Hg) H. apply (f_equal as_bytes) in H. cbn [as_bytes new] in H. apply push_field_inj in H as [Hde H]; [|done..].
  apply (inj Text.as_bytes) in Hde. split; [done|].
  apply app_inj_1 in H as [Hn H]; [|by rewrite !length_be_bytes].
  unfold fits in Hnf, Hng. apply be_bytes_inj in Hn; [|cbn; lia..].
  rewrite !list_fmap_compose in H. apply push_fields_inj in H.
  - by apply (inj (fmap Text.as_bytes)) in H.
  - rewrite !length_fmap. lia.
  - by apply Forall_fmap.
  - by apply Forall_fmap.
Qed.

(** Two contexts have the same associated data only when they are the same
    domain and the same list of fields: moving a byte from one field to the
    next, or between the domains of secrets, wrapped keys and log records,
    always changes what a ciphertext is bound to. Lengths are those a [u64]
    counts. *)
Theorem aad_canonical d fs e gs :
  fits_all d fs → fits_all e gs → (new d fs = new e gs ↔ d = e ∧ fs = gs).
Proof. intros Hd He. split; [by apply new_inj|by intros [-> ->]]. Qed.

Lemma aad_canonical_witness :
  new "localsecrets.secret.v1" ["ab"; "c"; "K"] ≠ new "localsecrets.secret.v1" ["a"; "bc"; "K"].
Proof.
  intros H. apply aad_canonical in H as [_ H]; [done|..];
    (split; [vm_compute; done|]; split; [vm_compute; done|repeat constructor]).
Defined.
End Aad.

(** ** Keys and envelopes *)

Record Envelope := mk_envelope { nonce : list byte; ciphertext : list byte }.

#[global] Instance Envelope_eq_dec : EqDecision Envelope.
Proof. solve_decision. Defined.

Module DataKey.

(** The 32 bytes of a key. *)
Record t := mk { material : list byte }.

#[global] Instance t_eq_dec : EqDecision t.
Proof. solve_decision. Defined.

(** The invariant of the Rust type [[u8; KEY_LEN]]. *)
Definition wf (k : t) : Prop := length (material k) = KEY_LEN.

Section DataKey.
Context {EnvI : Env} {CipherI : Cipher}.

Definition generate : proc World EntropyError t :=
  let! bytes := random_bytes KEY_LEN in ret (mk bytes).

Definition from_bytes (bytes : list byte) : option t :=
  if decide (length bytes = KEY_LEN) then Some (mk bytes) else None.

Definition seal (self : t) (plaintext : list byte) (aad : Aad.t) : proc World AeadError Envelope :=
  if MAX_PLAINTEXT_LEN <? Z.of_nat (length plaintext)
  then fail (PlaintextTooLarge (Z.of_nat (length plaintext)) MAX_PLAINTEXT_LEN) else
  let! nonce_bytes := map_perr (λ _, Entropy) (random_bytes NONCE_LEN) in
  let! ciphertext :=
    lift (ok_or (aes_encrypt (material self) nonce_bytes (Aad.as_bytes aad) plaintext) Encrypt) in
  ret (mk_envelope nonce_bytes ciphertext).

Definition open (self : t) (envelope : Envelope) (aad : Aad.t) : result AeadError (list byte) :=
  if negb (length (nonce envelope) =? NONCE_LEN)%nat then Err Decrypt else
  ok_or (aes_decrypt (material self) (nonce envelope) (Aad.as_bytes aad) (ciphertext envelope)) Decrypt.

Definition wrap (self : t) (key : t) (aad : Aad.t) : proc World AeadError Envelope :=
  seal self (material key) aad.

Definition unwrap_key (self : t) (envelope : Envelope) (aad : Aad.t) : result AeadError t :=
  let? bytes := open self envelope aad in ok_or (from_bytes bytes) Decrypt.

(** ** Lemmas *)

Lemma from_bytes_length bytes k : from_bytes bytes = Some k → wf k ∧ material k = bytes.
Proof. unfold from_bytes. case_decide; [|done]. by intros [= <-]. Qed.

Lemma from_bytes_material k : wf k → from_bytes (material k) = Some k.
Proof. intros Hk. unfold from_bytes. rewrite decide_True by done. by destruct k. Qed.

Lemma generate_wf w k w' : generate w = (Ok k, w') → wf k ∧ disk w' = disk w.
Proof.
  unfold generate. rewrite bind_ok. intros (bs & w1 & Hr & [= <- <-]).
  split; [by eapply random_bytes_length|by eapply random_bytes_disk].
Qed.

Lemma seal_disk self p a w r w' : seal self p a w = (r, w') → disk w' = disk w.
Proof.
  unfold seal. destruct (_ <? _); [by intros [= _ <-]|]. unfold bind, map_perr.
  destruct (random_bytes NONCE_LEN w) as [[bs|e] w1] eqn:E; apply random_bytes_disk in E; cbn;
    [|by intros [= _ <-]].
  destruct (ok_or _ Encrypt); cbn; by intros [= _ <-].
Qed.

Context {LawsI : CipherLaws}.

Lemma seal_ok self p a w env w' :
  seal self p a w = (Ok env, w') →
  open self env a = Ok p ∧ length (nonce env) = NONCE_LEN
  ∧ length (ciphertext env) = (length p + 16)%nat ∧ Z.of_nat (length p) <= MAX_PLAINTEXT_LEN.
Proof.
  unfold seal. destruct (Z.ltb_spec MAX_PLAINTEXT_LEN (Z.of_nat (length p))) as [|Hlen]; [done|].
  rewrite bind_ok. intros (bs & w1 & Hr & H). unfold map_perr in Hr.
  destruct (random_bytes NONCE_LEN w) as [[bs'|] ?] eqn:E; [|done]. injection Hr as -> ->.
  apply random_bytes_length in E. apply bind_ok in H as (c & w2 & Hc & [= <- <-]).
  injection Hc as Hc _. apply ok_or_ok in Hc. unfold open. cbn.
  rewrite E, Nat.eqb_refl. cbn. rewrite (decrypt_encrypt _ _ _ _ _ Hc).
  split_and!; [done|done|by eapply encrypt_length|done].
Qed.

(** Sealing fails only for want of entropy or because the value is too large. *)
Lemma seal_fails self p a w e w' :
  seal self p a w = (Err e, w') →
  (MAX_PLAINTEXT_LEN < Z.of_nat (length p) ∧ e = PlaintextTooLarge (Z.of_nat (length p)) MAX_PLAINTEXT_LEN)
  ∨ (Z.of_nat (length p) <= MAX_PLAINTEXT_LEN ∧ e = Entropy ∧ entropy (draws w) = None).
Proof.
  unfold seal. destruct (Z.ltb_spec MAX_PLAINTEXT_LEN (Z.of_nat (length p))) as [|Hlen].
  { intros [= <- _]. by left. }
  intros Hs. right. split; [done|]. unfold bind, map_perr, random_bytes, fill in Hs.
  destruct (entropy (draws w)) as [s|] eqn:E; cbn in Hs; [|by injection Hs as <- _].
  destruct (encrypt_total (material self) (s <$> seq 0 NONCE_LEN) (Aad.as_bytes a) p Hlen) as [c Hc].
  cbn in Hc. by rewrite Hc in Hs.
Qed.

Lemma wrap_ok self key a w env w' :
  wf key → wrap self key a w = (Ok env, w') → unwrap_key self env a = Ok key.
Proof.
  intros Hk Hs. apply seal_ok in Hs as (Ho & _). unfold unwrap_key. rewrite Ho. cbn.
  by rewrite from_bytes_material.
Qed.

Lemma unwrap_wf self env a k : unwrap_key self env a = Ok k → wf k.
Proof.
  unfold unwrap_key. rewrite res_bind_ok. intros (bs & _ & H%ok_or_ok). by apply from_bytes_length in H as [? _].
Qed.

(** Sealing a value under a key and a context succeeds exactly when the
    value is within the limit and the system supplies a nonce; what it returns
    opens under the same key and context to the same value, in an envelope of
    a 12-byte nonce and 16 bytes more than the value. *)
Theorem seal_open self p a w :
  let '(r, w') := seal self p a w in
  match r with
  | Ok env =>
    Z.of_nat (length p) <= MAX_PLAINTEXT_LEN ∧ is_Some (entropy (draws w))
    ∧ open self env a = Ok p
    ∧ length (nonce env) = NONCE_LEN ∧ length (ciphertext env) = (length p + 16)%nat
  | Err (PlaintextTooLarge len max) => MAX_PLAINTEXT_LEN < len ∧ len = Z.of_nat (length p) ∧ max = MAX_PLAINTEXT_LEN
  | Err e => e = Entropy ∧ entropy (draws w) = None
  end.
Proof.
  destruct (seal self p a w) as [[env|e] w'] eqn:E.
  - pose proof (seal_ok _ _ _ _ _ _ E) as (Ho & Hn & Hc & Hl). split_and!; try done.
    destruct (entropy (draws w)) eqn:He; [done|]. unfold seal in E.
    destruct (_ <? _); [done|]. unfold bind, map_perr, random_bytes, fill in E. by rewrite He in E.
  - apply seal_fails in E as [[Hl ->]|(_ & -> & He)]; done.
Qed.
End DataKey.
End DataKey.

(** ** A cipher that obeys the laws

    Not a secret one: the tag is a checksum of everything. It instantiates the
    interface where a theorem is applied at concrete values. *)

Module Checksum.
Definition tag (k n a m : list byte) : list byte :=
  replicate 16 (byte_of_Z (fold_left (λ acc b, acc + Z_of_byte b) (k ++ n ++ a ++ m) 0)).

#[export] Instance cipher : Cipher := {|
  aes_encrypt k n a m := Some (m ++ tag k n a m);
  aes_decrypt k n a c :=
    let m := take (length c - 16) c in
    if decide (c = m ++ tag k n a m) then Some m else None;
|}.

#[export] Instance laws : CipherLaws.
Proof.
  assert (∀ k n a m, length (tag k n a m) = 16%nat) as Ht by done.
  split; cbn -[tag].
  - intros. by eexists.
  - intros k n a m c [= <-]. by rewrite length_app, Ht.
  - intros k n a m c [= <-]. rewrite length_app, Ht, Nat.add_sub, take_app_length.
    by rewrite decide_True.
  - intros k n a m c. case_decide as Hc; [|done]. intros [= <-]. by f_equal.
Qed.

Lemma seal_open_witness :
  let env := calm (λ k i, byte_of_Z (Z.of_nat (k + i))) 0 in
  let key := DataKey.mk (replicate 32 x07) in
  let context := Aad.secret_slot "p" "e" "KEY" in
  ∃ envelope, fst (DataKey.seal key [x01; x02] context (mk_world 0 0 0 (mk_disk ∅ ∅ 0) 2 [])) = Ok envelope
    ∧ DataKey.open key envelope context = Ok [x01; x02].
Proof.
  intros env key context.
  pose proof (DataKey.seal_open key [x01; x02] context (mk_world 0 0 0 (mk_disk ∅ ∅ 0) 2 [])) as H.
  destruct (DataKey.seal key [x01; x02] context _) as [[envelope|e] w'] eqn:E; [|vm_compute in E; discriminate E].
  exists envelope. split; [reflexivity|]. apply H.
Defined.
End Checksum.
