(* ===== verification/Event.v ===== *)
(** * Events and how they are stored

    Models [crates/ls-store/src/event.rs] and the error type of
    [crates/ls-store/src/lib.rs]: every event is a JSON object with a [type] tag,
    rendered and parsed by the JSON crate. The theorem is that what is written
    is read back. *)

From S2P Require Import Prelude Text Encoding Timestamp F64 JsonValue JsonParser World Aead.
From Stdlib Require Import Strings.Byte.

Inductive StoreError :=
| NotALog
| UnsupportedVersion (version : byte)
| Unreadable (sequence : nat)
| RecordTooLarge (len limit : nat)
| Crypto
| MalformedEvent (what : string)
| Broken
| Corrupt (at_ : nat) (why : string)
| Io (error : IoError).

#[global] Instance StoreError_eq_dec : EqDecision StoreError.
Proof. solve_decision. Defined.

Definition SEALED_FORMAT : Z := 1.

(** ** Fields *)

Definition text_field (value : Value) (name : string) : result StoreError string :=
  ok_or (Value.get_str value name) (MalformedEvent name).

Definition optional_text_field (value : Value) (name : string) : result StoreError (option string) :=
  match Value.get value name with
  | None | Some Null => Ok None
  | Some (Str text) => Ok (Some text)
  | Some _ => Err (MalformedEvent name)
  end.

Definition time_field (value : Value) (name : string) : result StoreError Timestamp.t :=
  ok_or (Value.get_str value name ≫= Timestamp.parse_rfc3339) (MalformedEvent name).

Definition optional_time_field (value : Value) (name : string) : result StoreError (option Timestamp.t) :=
  match Value.get value name with
  | None | Some Null => Ok None
  | Some (Str text) => map_ok Some (ok_or (Timestamp.parse_rfc3339 text) (MalformedEvent name))
  | Some _ => Err (MalformedEvent name)
  end.

Definition bytes_field (value : Value) (name : string) : result StoreError (list byte) :=
  ok_or (Value.get_str value name ≫= hex.decode) (MalformedEvent name).

Definition time_value (at_ : Timestamp.t) : Value := Str (Timestamp.to_rfc3339 at_).
Definition optional_text (text : option string) : Value :=
  match text with Some text => Str text | None => Null end.
Definition optional_time (at_ : option Timestamp.t) : Value :=
  match at_ with Some at_ => time_value at_ | None => Null end.

(** ** Sealed values *)

Module Sealed.

Record t := mk { nonce : list byte; ciphertext : list byte }.

#[global] Instance t_eq_dec : EqDecision t.
Proof. solve_decision. Defined.

(** [From<Envelope>], and back. *)
Definition of_envelope (e : Envelope) : t := mk (Aead.nonce e) (Aead.ciphertext e).
Definition to_envelope (s : t) : Envelope := mk_envelope (nonce s) (ciphertext s).

Definition to_value (self : t) : Value :=
  Object [("v", Int SEALED_FORMAT); ("nonce", Str (hex.encode (nonce self)));
          ("ciphertext", Str (hex.encode (ciphertext self)))].

Definition from_value (value : Value) : result StoreError t :=
  match Value.get_i64 value "v" with
  | Some v =>
    if negb (v =? SEALED_FORMAT) then Err (MalformedEvent "unknown sealed value format") else
    let? nonce := bytes_field value "nonce" in
    let? ciphertext := bytes_field value "ciphertext" in
    Ok (mk nonce ciphertext)
  | None => Err (MalformedEvent "sealed value has no format marker")
  end.

Lemma to_of_envelope e : to_envelope (of_envelope e) = e.
Proof. by destruct e. Qed.
End Sealed.

(** ** Token kinds *)

Inductive TokenKind := Root | Session | Machine.

#[global] Instance TokenKind_eq_dec : EqDecision TokenKind.
Proof. solve_decision. Defined.

Module TokenKind.
Definition as_str (self : TokenKind) : string :=
  match self with Root => "root" | Session => "session" | Machine => "machine" end.

Definition parse (text : string) : option TokenKind :=
  if decide (text = "root") then Some Root
  else if decide (text = "session") then Some Session
  else if decide (text = "machine") then Some Machine
  else None.

Lemma parse_as_str k : parse (as_str k) = Some k.
Proof. by destruct k. Qed.
End TokenKind.

(** ** Events *)

Inductive Event :=
| UserCreated (id email password_hash : string) (created_at : Timestamp.t)
| TokenIssued (id : string) (token_hash : list byte) (kind : TokenKind)
    (user_id project_id environment_id label : option string)
    (expires_at : option Timestamp.t) (created_at : Timestamp.t)
| TokenRevoked (id : string) (at_ : Timestamp.t)
| ProjectCreated (id slug name : string) (data_key : Sealed.t) (created_at : Timestamp.t)
| EnvironmentCreated (id project_id slug name : string) (created_at : Timestamp.t)
| SecretSet (project_id environment_id key : string) (value : Sealed.t) (at_ : Timestamp.t)
| SecretDeleted (project_id environment_id key : string) (at_ : Timestamp.t)
| Audited (at_ : Timestamp.t) (actor action target outcome : string).

#[global] Instance Event_eq_dec : EqDecision Event.
Proof. solve_decision. Defined.

Module Event.

Definition type_name (self : Event) : string :=
  match self with
  | UserCreated _ _ _ _ => "user.created"
  | TokenIssued _ _ _ _ _ _ _ _ _ => "token.issued"
  | TokenRevoked _ _ => "token.revoked"
  | ProjectCreated _ _ _ _ _ => "project.created"
  | EnvironmentCreated _ _ _ _ _ => "environment.created"
  | SecretSet _ _ _ _ _ => "secret.set"
  | SecretDeleted _ _ _ _ => "secret.deleted"
  | Audited _ _ _ _ _ => "audit"
  end.

Definition to_value (self : Event) : Value :=
  let tag := ("type", Str (type_name self)) in
  match self with
  | UserCreated id email password_hash created_at =>
    Object [tag; ("id", Str id); ("email", Str email); ("password_hash", Str password_hash);
            ("created_at", time_value created_at)]
  | TokenIssued id token_hash kind user_id project_id environment_id label expires_at created_at =>
    Object [tag; ("id", Str id); ("token_hash", Str (hex.encode token_hash));
            ("kind", Str (TokenKind.as_str kind)); ("user_id", optional_text user_id);
            ("project_id", optional_text project_id); ("environment_id", optional_text environment_id);
            ("label", optional_text label); ("expires_at", optional_time expires_at);
            ("created_at", time_value created_at)]
  | TokenRevoked id at_ => Object [tag; ("id", Str id); ("at", time_value at_)]
  | ProjectCreated id slug name data_key created_at =>
    Object [tag; ("id", Str id); ("slug", Str slug); ("name", Str name);
            ("data_key", Sealed.to_value data_key); ("created_at", time_value created_at)]
  | EnvironmentCreated id project_id slug name created_at =>
    Object [tag; ("id", Str id); ("project_id", Str project_id); ("slug", Str slug);
            ("name", Str name); ("created_at", time_value created_at)]
  | SecretSet project_id environment_id key value at_ =>
    Object [tag; ("project_id", Str project_id); ("environment_id", Str environment_id);
            ("key", Str key); ("value", Sealed.to_value value); ("at", time_value at_)]
  | SecretDeleted project_id environment_id key at_ =>
    Object [tag; ("project_id", Str project_id); ("environment_id", Str environment_id);
            ("key", Str key); ("at", time_value at_)]
  | Audited at_ actor action target outcome =>
    Object [tag; ("at", time_value at_); ("actor", Str actor); ("action", Str action);
            ("target", Str target); ("outcome", Str outcome)]
  end.

Definition from_value (value : Value) : result StoreError Event :=
  let? kind := text_field value "type" in
  if decide (kind = "user.created") then
    let? id := text_field value "id" in
    let? email := text_field value "email" in
    let? password_hash := text_field value "password_hash" in
    let? created_at := time_field value "created_at" in
    Ok (UserCreated id email password_hash created_at)
  else if decide (kind = "token.issued") then
    let? id := text_field value "id" in
    let? token_hash := bytes_field value "token_hash" in
    let? kind_text := text_field value "kind" in
    let? kind := ok_or (TokenKind.parse kind_text) (MalformedEvent "unknown token kind") in
    let? user_id := optional_text_field value "user_id" in
    let? project_id := optional_text_field value "project_id" in
    let? environment_id := optional_text_field value "environment_id" in
    let? label := optional_text_field value "label" in
    let? expires_at := optional_time_field value "expires_at" in
    let? created_at := time_field value "created_at" in
    Ok (TokenIssued id token_hash kind user_id project_id environment_id label expires_at created_at)
  else if decide (kind = "token.revoked") then
    let? id := text_field value "id" in
    let? at_ := time_field value "at" in
    Ok (TokenRevoked id at_)
  else if decide (kind = "project.created") then
    let? id := text_field value "id" in
    let? slug := text_field value "slug" in
    let? name := text_field value "name" in
    let? data_key_value := ok_or (Value.get value "data_key") (MalformedEvent "missing data_key") in
    let? data_key := Sealed.from_value data_key_value in
    let? created_at := time_field value "created_at" in
    Ok (ProjectCreated id slug name data_key created_at)
  else if decide (kind = "environment.created") then
    let? id := text_field value "id" in
    let? project_id := text_field value "project_id" in
    let? slug := text_field value "slug" in
    let? name := text_field value "name" in
    let? created_at := time_field value "created_at" in
    Ok (EnvironmentCreated id project_id slug name created_at)
  else if decide (kind = "secret.set") then
    let? project_id := text_field value "project_id" in
    let? environment_id := text_field value "environment_id" in
    let? key := text_field value "key" in
    let? sealed_value := ok_or (Value.get value "value") (MalformedEvent "missing value") in
    let? sealed := Sealed.from_value sealed_value in
    let? at_ := time_field value "at" in
    Ok (SecretSet project_id environment_id key sealed at_)
  else if decide (kind = "secret.deleted") then
    let? project_id := text_field value "project_id" in
    let? environment_id := text_field value "environment_id" in
    let? key := text_field value "key" in
    let? at_ := time_field value "at" in
    Ok (SecretDeleted project_id environment_id key at_)
  else if decide (kind = "audit") then
    let? at_ := time_field value "at" in
    let? actor := text_field value "actor" in
    let? action := text_field value "action" in
    let? target := text_field value "target" in
    let? outcome := text_field value "outcome" in
    Ok (Audited at_ actor action target outcome)
  else Err (MalformedEvent "unknown event type").

Definition to_bytes (self : Event) : list byte := as_bytes (Value.to_string (to_value self)).

Definition from_bytes (bytes : list byte) : result StoreError Event :=
  let? text := ok_or (from_utf8 bytes) (MalformedEvent "not UTF-8") in
  let? value := map_err (λ _, MalformedEvent "not JSON") (parse text) in
  from_value value.

(** ** What is written is read back *)

(** The invariants of the Rust types of an event's fields. *)
Definition opt_str (s : option string) : bool := match s with Some s => is_str s | None => true end.
Definition opt_time (t : option Timestamp.t) : Prop :=
  match t with Some t => Timestamp.wf t | None => True end.

Definition wf (self : Event) : Prop :=
  match self with
  | UserCreated id email password_hash created_at =>
    is_str id = true ∧ is_str email = true ∧ is_str password_hash = true ∧ Timestamp.wf created_at
  | TokenIssued id _ _ user_id project_id environment_id label expires_at created_at =>
    is_str id = true ∧ opt_str user_id = true ∧ opt_str project_id = true
    ∧ opt_str environment_id = true ∧ opt_str label = true ∧ opt_time expires_at
    ∧ Timestamp.wf created_at
  | TokenRevoked id at_ => is_str id = true ∧ Timestamp.wf at_
  | ProjectCreated id slug name _ created_at =>
    is_str id = true ∧ is_str slug = true ∧ is_str name = true ∧ Timestamp.wf created_at
  | EnvironmentCreated id project_id slug name created_at =>
    is_str id = true ∧ is_str project_id = true ∧ is_str slug = true ∧ is_str name = true
    ∧ Timestamp.wf created_at
  | SecretSet project_id environment_id key _ at_ | SecretDeleted project_id environment_id key at_ =>
    is_str project_id = true ∧ is_str environment_id = true ∧ is_str key = true ∧ Timestamp.wf at_
  | Audited at_ actor action target outcome =>
    Timestamp.wf at_ ∧ is_str actor = true ∧ is_str action = true ∧ is_str target = true
    ∧ is_str outcome = true
  end.
End Event.

Lemma is_str_hex bs : is_str (hex.encode bs) = true.
Proof.
  apply is_str_ascii. pose proof (hex.encode_ascii bs) as H. rewrite forallb_forall in H |- *.
  intros c Hc. specialize (H c Hc). unfold is_ascii.
  rewrite orb_true_iff, is_ascii_digit_spec in H. unfold is_ascii_lowercase, byte_between in H.
  rewrite andb_true_iff in H. cbn in H. lia.
Qed.

Lemma pad_ascii w n : 0 <= n → forallb is_ascii (Timestamp.pad w n) = true.
Proof.
  intros Hn. unfold Timestamp.pad, pad_zeros. rewrite forallb_app, show_unsigned_ascii by done.
  rewrite andb_true_r. apply forallb_forall. intros b Hb.
  apply list_elem_of_In, elem_of_replicate in Hb as [-> _]. done.
Qed.

Lemma is_str_rfc3339 t : Timestamp.wf t → is_str (Timestamp.to_rfc3339 t) = true.
Proof.
  intros H%Timestamp.parse_to_rfc3339_eq.
  destruct (Timestamp.parse_rfc3339_inv _ _ H) as (y & m & d & h & i & s & Hc & Hh & Hi & Hs & Ht & _).
  apply is_str_ascii. rewrite Ht. unfold Timestamp.render, Timestamp.civil_ok in *.
  repeat (rewrite forallb_app || cbn [forallb]). by rewrite !pad_ascii by lia.
Qed.

(** Reading a field that was written. *)
Lemma text_field_get v name s : Value.get v name = Some (Str s) → text_field v name = Ok s.
Proof. intros H. unfold text_field, Value.get_str. by rewrite H. Qed.

Lemma time_field_get v name t :
  Value.get v name = Some (time_value t) → Timestamp.wf t → time_field v name = Ok t.
Proof.
  intros H Ht. unfold time_field, Value.get_str. rewrite H.
  change (ok_or (Timestamp.parse_rfc3339 (Timestamp.to_rfc3339 t)) (MalformedEvent name) = Ok t).
  by rewrite Timestamp.parse_to_rfc3339_eq.
Qed.

Lemma bytes_field_get v name bs :
  Value.get v name = Some (Str (hex.encode bs)) → bytes_field v name = Ok bs.
Proof.
  intros H. unfold bytes_field, Value.get_str. rewrite H.
  change (ok_or (hex.decode (hex.encode bs)) (MalformedEvent name) = Ok bs).
  by rewrite hex.hex_decode_encode.
Qed.

Lemma optional_text_field_get v name s :
  Value.get v name = Some (optional_text s) → optional_text_field v name = Ok s.
Proof. intros H. unfold optional_text_field. rewrite H. by destruct s. Qed.

Lemma optional_time_field_get v name t :
  Value.get v name = Some (optional_time t) → Event.opt_time t → optional_time_field v name = Ok t.
Proof.
  intros H Ht. unfold optional_time_field. rewrite H. destruct t as [t|]; [|done].
  change (map_ok Some (ok_or (Timestamp.parse_rfc3339 (Timestamp.to_rfc3339 t)) (MalformedEvent name)) = Ok (Some t)).
  by rewrite Timestamp.parse_to_rfc3339_eq.
Qed.

Module SealedFacts.
Lemma sealed_from_to_value s : Sealed.from_value (Sealed.to_value s) = Ok s.
Proof.
  unfold Sealed.from_value.
  change (Value.get_i64 (Sealed.to_value s) "v") with (Some SEALED_FORMAT).
  change (negb (SEALED_FORMAT =? SEALED_FORMAT)) with false. cbn match.
  rewrite (bytes_field_get (Sealed.to_value s) "nonce" (Sealed.nonce s) eq_refl).
  rewrite (bytes_field_get (Sealed.to_value s) "ciphertext" (Sealed.ciphertext s) eq_refl). by destruct s.
Qed.
End SealedFacts.

(** Read every field of a written event. *)
Ltac read_fields :=
  repeat first
    [ erewrite text_field_get by reflexivity
    | erewrite bytes_field_get by reflexivity
    | erewrite time_field_get by (reflexivity || done)
    | erewrite optional_text_field_get by reflexivity
    | erewrite optional_time_field_get by (reflexivity || done)
    | rewrite TokenKind.parse_as_str
    | rewrite SealedFacts.sealed_from_to_value
    | match goal with |- context [ok_or (Value.get (Event.to_value (ProjectCreated ?a ?b ?c ?k ?d)) ?n) ?e] =>
        change (Value.get (Event.to_value (ProjectCreated a b c k d)) n) with (Some (Sealed.to_value k)) end
    | match goal with |- context [ok_or (Value.get (Event.to_value (SecretSet ?a ?b ?c ?k ?d)) ?n) ?e] =>
        change (Value.get (Event.to_value (SecretSet a b c k d)) n) with (Some (Sealed.to_value k)) end
    | progress cbn [res_bind ok_or] ].

Lemma from_to_value e : Event.wf e → Event.from_value (Event.to_value e) = Ok e.
Proof.
  intros He. unfold Event.from_value.
  rewrite (text_field_get _ "type" (Event.type_name e)) by (by destruct e). cbn [res_bind].
  destruct e; cbn [Event.wf] in He; destruct_and?; cbn [Event.type_name];
    repeat (rewrite decide_False by done); rewrite decide_True by done; read_fields; try done.
Qed.

(** An event renders to a document the parser reads exactly. *)
Definition plain (h : nat) (v : Value) : Prop :=
  Value.well_formed v = true ∧ Value.float_free v = true ∧ (Value.height v ≤ h)%nat.

Lemma plain_object h fields :
  NoDup fields.*1 → Forall (λ f, is_str f.1 = true ∧ plain h f.2) fields → plain (S h) (Object fields).
Proof.
  intros Hn Hf. unfold plain. cbn. rewrite bool_decide_true by done. clear Hn.
  induction Hf as [|[k v] fields (Hk & Hw & Hff & Hh) _ (IHw & IHf & IHh)]; cbn in *; [split_and!; done || lia|].
  rewrite Hk, Hw, Hff, IHw, IHf. split_and!; done || lia.
Qed.

Lemma plain_str h s : is_str s = true → plain h (Str s).
Proof. intros Hs. split_and!; [done|done|cbn; lia]. Qed.

Lemma plain_hex h bs : plain h (Str (hex.encode bs)).
Proof. apply plain_str, is_str_hex. Qed.

Lemma plain_time h t : Timestamp.wf t → plain h (time_value t).
Proof. intros Ht. by apply plain_str, is_str_rfc3339. Qed.

Lemma plain_optional_text h s : Event.opt_str s = true → plain h (optional_text s).
Proof. destruct s; [apply plain_str|]. intros _. split_and!; [done|done|cbn; lia]. Qed.

Lemma plain_optional_time h t : Event.opt_time t → plain h (optional_time t).
Proof. destruct t; [apply plain_time|]. intros _. split_and!; [done|done|cbn; lia]. Qed.

Lemma plain_int h i : in_i64 i = true → plain h (Int i).
Proof. intros Hi. split_and!; [done|done|cbn; lia]. Qed.

Create HintDb plain.
#[export] Hint Resolve plain_str plain_hex plain_time plain_optional_text plain_optional_time plain_int : plain.

(** The literal keys of an object, and each of its values. *)
Ltac plain_fields :=
  apply plain_object;
  [ apply (bool_decide_unpack _); vm_compute; exact I
  | repeat (apply Forall_cons; split); [split; [reflexivity|cbn [snd]; auto with plain]..|apply Forall_nil_2] ].

Lemma plain_sealed s : plain 1 (Sealed.to_value s).
Proof. unfold Sealed.to_value. plain_fields. Qed.
#[export] Hint Resolve plain_sealed : plain.

Lemma plain_event e : Event.wf e → plain 2 (Event.to_value e).
Proof.
  intros He. destruct e; cbn [Event.wf] in He; destruct_and?; unfold Event.to_value; plain_fields.
  apply plain_str. by destruct kind.
Qed.

Lemma plain_is_str h v : plain h v → is_str (Value.to_string v) = true.
Proof. intros (_ & Hf & _). by apply Value.is_str_to_string. Qed.

Lemma plain_parse h v : plain h v → (h ≤ MAX_DEPTH)%nat → parse (Value.to_string v) = Ok v.
Proof. intros (Hw & Hf & Hh) ?. apply parse_rendered; [done|done|lia]. Qed.

Lemma from_to_bytes e : Event.wf e → Event.from_bytes (Event.to_bytes e) = Ok e.
Proof.
  intros He. unfold Event.from_bytes, Event.to_bytes. pose proof (plain_event e He) as Hp.
  rewrite from_utf8_as_bytes by (by eapply plain_is_str). cbn [ok_or res_bind].
  rewrite (plain_parse 2) by (done || unfold MAX_DEPTH; lia). cbn [map_err res_bind].
  by apply from_to_value.
Qed.

(** Reading a field gives something of the field's type. *)
Lemma get_well_formed v name x :
  Value.well_formed v = true → Value.get v name = Some x → Value.well_formed x = true.
Proof.
  destruct v as [| | | | | |fields]; try done. cbn [Value.well_formed]. intros [_ H]%andb_prop.
  induction fields as [|[k y] fields IH]; [done|]. rewrite Value.get_cons. cbn [forallb fst snd] in H.
  apply andb_prop in H as [[_ Hy]%andb_prop H]. case_decide; [by intros [= <-]|by apply IH].
Qed.

Lemma text_field_wf v name s : Value.well_formed v = true → text_field v name = Ok s → is_str s = true.
Proof.
  intros Hv. unfold text_field, Value.get_str. rewrite ok_or_ok.
  destruct (Value.get v name) as [x|] eqn:E; [|done]. apply get_well_formed in E; [|done].
  destruct x; try done. by intros [= <-].
Qed.

Lemma optional_text_field_wf v name s :
  Value.well_formed v = true → optional_text_field v name = Ok s → Event.opt_str s = true.
Proof.
  intros Hv. unfold optional_text_field.
  destruct (Value.get v name) as [x|] eqn:E; [|by intros [= <-]]. apply get_well_formed in E; [|done].
  destruct x; try done; by intros [= <-].
Qed.

Lemma time_field_wf v name t : time_field v name = Ok t → Timestamp.wf t.
Proof.
  unfold time_field. rewrite ok_or_ok. destruct (Value.get_str v name) as [s|]; [|done].
  apply Timestamp.parse_wf.
Qed.

Lemma optional_time_field_wf v name t : optional_time_field v name = Ok t → Event.opt_time t.
Proof.
  unfold optional_time_field. destruct (Value.get v name) as [[| | | |s| |]|]; try done; try by intros [= <-].
  destruct (Timestamp.parse_rfc3339 s) as [u|] eqn:E; cbn; [|done]. intros [= <-]. by eapply Timestamp.parse_wf.
Qed.

Lemma from_value_wf v e : Value.well_formed v = true → Event.from_value v = Ok e → Event.wf e.
Proof.
  intros Hv. unfold Event.from_value. rewrite res_bind_ok. intros (kind & _ & H).
  repeat (case_decide; [repeat (rewrite res_bind_ok in H; destruct H as (? & ? & H)); injection H as <-;
    cbn [Event.wf]; split_and?;
    eauto using text_field_wf, optional_text_field_wf, time_field_wf, optional_time_field_wf|]).
  done.
Qed.

Lemma from_bytes_wf bs e : Event.from_bytes bs = Ok e → Event.wf e.
Proof.
  unfold Event.from_bytes. rewrite res_bind_ok. intros (text & _ & H). rewrite res_bind_ok in H.
  destruct H as (v & Hv & H). apply map_err_ok, parse_well_formed in Hv. by eapply from_value_wf.
Qed.

(** Every event, of any of the eight kinds, reads back from the bytes it is
    stored as, whatever its texts, keys and ciphertexts contain. *)
Theorem event_roundtrip e : Event.wf e → Event.from_bytes (Event.to_bytes e) = Ok e.
Proof. apply from_to_bytes. Qed.

Lemma event_roundtrip_witness :
  let t := Timestamp.mk 1700000000 in
  let e := TokenIssued "t1" [x00; xff] Machine None (Some "p") (Some "e") (Some (of_chars [34; 92; 10; 233])) (Some t) t in
  Event.from_bytes (Event.to_bytes e) = Ok e.
Proof.
  assert (Timestamp.wf (Timestamp.mk 1700000000)) as Ht.
  { unfold Timestamp.wf, Timestamp.MIN_UNIX, Timestamp.MAX_UNIX. cbn. lia. }
  apply event_roundtrip. cbn [Event.wf]. split_and!; try reflexivity; exact Ht.
Defined.
