(* ===== verification/State.v ===== *)
(** * The state, a fold over the log

    Models [crates/ls-store/src/state.rs]: the five lists the server keeps in
    memory, the effect of each event on them and the lookups. The abstract view
    of the secrets is a finite map from slots; [apply] is shown to be insertion
    and deletion in it. *)

From S2P Require Import Prelude Text Timestamp Event Token.
From Stdlib Require Import Strings.Byte Sorting.Sorted.

Module User.
Record t := mk { id : string; email : string; password_hash : string; created_at : Timestamp.t }.
#[global] Instance t_eq_dec : EqDecision t.
Proof. solve_decision. Defined.
End User.

Module Token.
Record t := mk {
  id : string;
  token_hash : list byte;
  kind : TokenKind;
  user_id : option string;
  project_id : option string;
  environment_id : option string;
  label : option string;
  expires_at : option Timestamp.t;
  revoked_at : option Timestamp.t;
  created_at : Timestamp.t;
}.
#[global] Instance t_eq_dec : EqDecision t.
Proof. solve_decision. Defined.

Definition is_valid_at (self : t) (now : Timestamp.t) : bool :=
  match revoked_at self with
  | Some _ => false
  | None => match expires_at self with
            | Some expiry => Timestamp.seconds now <? Timestamp.seconds expiry
            | None => true
            end
  end.

Definition set_revoked_at (at_ : Timestamp.t) (self : t) : t :=
  mk (id self) (token_hash self) (kind self) (user_id self) (project_id self) (environment_id self)
    (label self) (expires_at self) (Some at_) (created_at self).
End Token.

Module Project.
Record t := mk {
  id : string; slug : string; name : string; data_key : Sealed.t; created_at : Timestamp.t
}.
#[global] Instance t_eq_dec : EqDecision t.
Proof. solve_decision. Defined.
End Project.

Module Environment.
Record t := mk {
  id : string; project_id : string; slug : string; name : string; created_at : Timestamp.t
}.
#[global] Instance t_eq_dec : EqDecision t.
Proof. solve_decision. Defined.
End Environment.

Module Secret.
Record t := mk {
  project_id : string; environment_id : string; key : string; value : Sealed.t;
  updated_at : Timestamp.t
}.
#[global] Instance t_eq_dec : EqDecision t.
Proof. solve_decision. Defined.

(** Whether a secret sits at a slot. *)
Definition at_slot (p e k : string) (self : t) : bool :=
  bool_decide (project_id self = p) && bool_decide (environment_id self = e) && bool_decide (key self = k).

Definition slot (self : t) : string * string * string := (project_id self, environment_id self, key self).
End Secret.

(** [iter_mut().find(p)] with the mutation of the element found; [None] when
    there is none. *)
Fixpoint update_first {A} (p : A → bool) (f : A → A) (l : list A) : option (list A) :=
  match l with
  | [] => None
  | x :: r => if p x then Some (f x :: r) else cons x <$> update_first p f r
  end.

(** A stable sort, as [sort_by] is. *)
Fixpoint insert_by {A} (le : A → A → bool) (x : A) (l : list A) : list A :=
  match l with
  | [] => [x]
  | y :: r => if le x y then x :: l else y :: insert_by le x r
  end.
Definition sort_by {A} (le : A → A → bool) (l : list A) : list A := fold_right (insert_by le) [] l.

(** [str] comparison is byte by byte. *)
Definition str_le (a b : string) : bool :=
  match String.compare a b with Gt => false | _ => true end.

Module State.

Record t := mk {
  users : list User.t;
  tokens : list Token.t;
  projects : list Project.t;
  environments : list Environment.t;
  secrets : list Secret.t;
}.

Definition default : t := mk [] [] [] [] [].

Definition set_secrets (l : list Secret.t) (self : t) : t :=
  mk (users self) (tokens self) (projects self) (environments self) l.
Definition set_tokens (l : list Token.t) (self : t) : t :=
  mk (users self) l (projects self) (environments self) (secrets self).

Definition apply (self : t) (event : Event) : t :=
  match event with
  | UserCreated id email password_hash created_at =>
    mk (users self ++ [User.mk id email password_hash created_at])
      (tokens self) (projects self) (environments self) (secrets self)
  | TokenIssued id token_hash kind user_id project_id environment_id label expires_at created_at =>
    set_tokens (tokens self ++ [Token.mk id token_hash kind user_id project_id environment_id label
                                  expires_at None created_at]) self
  | TokenRevoked id at_ =>
    match update_first (λ t, bool_decide (Token.id t = id)) (Token.set_revoked_at at_) (tokens self) with
    | Some tokens => set_tokens tokens self
    | None => self
    end
  | ProjectCreated id slug name data_key created_at =>
    mk (users self) (tokens self) (projects self ++ [Project.mk id slug name data_key created_at])
      (environments self) (secrets self)
  | EnvironmentCreated id project_id slug name created_at =>
    mk (users self) (tokens self) (projects self)
      (environments self ++ [Environment.mk id project_id slug name created_at]) (secrets self)
  | SecretSet project_id environment_id key value at_ =>
    match update_first (Secret.at_slot project_id environment_id key)
            (λ s, Secret.mk (Secret.project_id s) (Secret.environment_id s) (Secret.key s) value at_)
            (secrets self) with
    | Some secrets => set_secrets secrets self
    | None => set_secrets (secrets self ++ [Secret.mk project_id environment_id key value at_]) self
    end
  | SecretDeleted project_id environment_id key _ =>
    set_secrets (List.filter (λ s, negb (Secret.at_slot project_id environment_id key s)) (secrets self)) self
  | Audited _ _ _ _ _ => self
  end.

(** The state after a whole log. *)
Definition replay (events : list Event) : t := fold_left apply events default.

(** ** Lookups *)

Definition user_by_email (self : t) (email : string) : option User.t :=
  let wanted := to_ascii_lowercase (trim email) in
  List.find (λ u, bool_decide (User.email u = wanted)) (users self).

Definition user (self : t) (id : string) : option User.t :=
  List.find (λ u, bool_decide (User.id u = id)) (users self).

Definition token_by_hash (self : t) (hash : list byte) : option Token.t :=
  List.find (λ t, token.ct_eq (Token.token_hash t) hash) (tokens self).

Definition token (self : t) (id : string) : option Token.t :=
  List.find (λ t, bool_decide (Token.id t = id)) (tokens self).

Definition project_by_slug (self : t) (slug : string) : option Project.t :=
  List.find (λ p, bool_decide (Project.slug p = slug)) (projects self).

Definition project (self : t) (id : string) : option Project.t :=
  List.find (λ p, bool_decide (Project.id p = id)) (projects self).

Definition environment_by_slug (self : t) (project_id slug : string) : option Environment.t :=
  List.find (λ e, bool_decide (Environment.project_id e = project_id) && bool_decide (Environment.slug e = slug))
    (environments self).

Definition environments_in (self : t) (project_id : string) : list Environment.t :=
  List.filter (λ e, bool_decide (Environment.project_id e = project_id)) (environments self).

Definition secret (self : t) (project_id environment_id key : string) : option Secret.t :=
  List.find (Secret.at_slot project_id environment_id key) (secrets self).

Definition secrets_in (self : t) (project_id environment_id : string) : list Secret.t :=
  sort_by (λ a b, str_le (Secret.key a) (Secret.key b))
    (List.filter (λ s, bool_decide (Secret.project_id s = project_id)
                       && bool_decide (Secret.environment_id s = environment_id)) (secrets self)).
End State.

(** ** Lists *)

Lemma update_first_none {A} (p : A → bool) f l : update_first p f l = None ↔ List.find p l = None.
Proof.
  induction l as [|x l IH]; [done|]. cbn. destruct (p x); [done|].
  destruct (update_first p f l); cbn; [|by rewrite <- IH]. split; [done|]. intros H. by apply IH in H.
Qed.

(** What [update_first] found and what it made of it. *)
Lemma update_first_some {A} (p : A → bool) f l l' :
  update_first p f l = Some l' →
  ∃ l1 x l2, l = l1 ++ x :: l2 ∧ p x = true ∧ l' = l1 ++ f x :: l2 ∧ Forall (λ y, p y = false) l1.
Proof.
  revert l'. induction l as [|x l IH]; intros l' H; [done|]. cbn in H. destruct (p x) eqn:E.
  - injection H as <-. by exists [], x, l.
  - destruct (update_first p f l) as [r|]; [|done]. injection H as <-.
    destruct (IH r eq_refl) as (l1 & y & l2 & -> & Hy & -> & Hf). exists (x :: l1), y, l2.
    split_and!; [done|done|done|by constructor].
Qed.

Lemma find_some_iff {A} (p : A → bool) l x :
  List.find p l = Some x → x ∈ l ∧ p x = true.
Proof. intros [H1 H2]%List.find_some. split; [by apply list_elem_of_In|done]. Qed.

Lemma at_slot_spec p e k s : Secret.at_slot p e k s = true ↔ Secret.slot s = (p, e, k).
Proof.
  unfold Secret.at_slot, Secret.slot. rewrite !andb_true_iff, !bool_decide_eq_true.
  split; [by intros [[-> ->] ->]|by intros [= -> -> ->]].
Qed.

(** ** Sorting *)

Lemma elem_of_insert_by {A} (le : A → A → bool) x l y : y ∈ insert_by le x l ↔ y = x ∨ y ∈ l.
Proof.
  induction l as [|z l IH]; cbn; [by rewrite list_elem_of_singleton, elem_of_nil; intuition|].
  destruct (le x z); rewrite !elem_of_cons; [done|]. rewrite IH. tauto.
Qed.

Lemma insert_by_permutation {A} (le : A → A → bool) x l : insert_by le x l ≡ₚ x :: l.
Proof.
  induction l as [|z l IH]; cbn; [done|]. destruct (le x z); [done|]. rewrite IH. apply Permutation_swap.
Qed.

Lemma sort_by_permutation {A} (le : A → A → bool) l : sort_by le l ≡ₚ l.
Proof.
  induction l as [|x l IH]; [done|]. unfold sort_by in *. cbn. by rewrite insert_by_permutation, IH.
Qed.

Lemma insert_by_sorted {A} (le : A → A → bool) x l :
  (∀ a b, le a b = false → le b a = true) → (∀ a b c, le a b = true → le b c = true → le a c = true) →
  StronglySorted (λ a b, le a b = true) l → StronglySorted (λ a b, le a b = true) (insert_by le x l).
Proof.
  intros Htot Htr. induction 1 as [|y l Hs IH Hy]; cbn; [repeat constructor|].
  destruct (le x y) eqn:E.
  - constructor; [by constructor|]. constructor; [done|]. eapply Forall_impl; [exact Hy|]. cbn.
    intros z Hz. by eapply Htr.
  - constructor; [done|]. apply Forall_forall. intros z [->|Hz]%elem_of_insert_by; [by apply Htot|].
    rewrite Forall_forall in Hy. by apply Hy.
Qed.

Lemma sort_by_sorted {A} (le : A → A → bool) l :
  (∀ a b, le a b = false → le b a = true) → (∀ a b c, le a b = true → le b c = true → le a c = true) →
  StronglySorted (λ a b, le a b = true) (sort_by le l).
Proof.
  intros Htot Htr. induction l as [|x l IH]; [constructor|]. by apply insert_by_sorted.
Qed.

Lemma str_le_total a b : str_le a b = false → str_le b a = true.
Proof.
  unfold str_le. rewrite (String.compare_antisym b a). by destruct (String.compare a b).
Qed.

Lemma ascii_compare_N a b : Ascii.compare a b = N.compare (Ascii.N_of_ascii a) (Ascii.N_of_ascii b).
Proof. done. Qed.

Lemma str_le_trans a b c : str_le a b = true → str_le b c = true → str_le a c = true.
Proof.
  revert b c. induction a as [|x a IH]; intros [|y b] [|z c]; try done.
  unfold str_le. cbn [String.compare]. rewrite !ascii_compare_N.
  destruct (N.compare_spec (Ascii.N_of_ascii x) (Ascii.N_of_ascii y)) as [Exy|Lxy|Gxy]; [| |done];
    destruct (N.compare_spec (Ascii.N_of_ascii y) (Ascii.N_of_ascii z)) as [Eyz|Lyz|Gyz]; try done;
    destruct (N.compare_spec (Ascii.N_of_ascii x) (Ascii.N_of_ascii z)); try done; try lia.
  apply IH.
Qed.

(** ** The secrets as a finite map *)

Abbreviation slot_map := (gmap (string * string * string) (Sealed.t * Timestamp.t)).

Definition content (s : Secret.t) : Sealed.t * Timestamp.t := (Secret.value s, Secret.updated_at s).

(** What the list of secrets stands for. *)
Definition vault_map (self : State.t) : slot_map :=
  list_to_map ((λ s, (Secret.slot s, content s)) <$> State.secrets self).

(** No slot is held twice. *)
Definition slots_unique (self : State.t) : Prop := NoDup (Secret.slot <$> State.secrets self).

(** The meaning of an event for the map. *)
Definition apply_map (m : slot_map) (event : Event) : slot_map :=
  match event with
  | SecretSet p e k v at_ => <[(p, e, k) := (v, at_)]> m
  | SecretDeleted p e k _ => delete (p, e, k) m
  | _ => m
  end.

Abbreviation assoc l := ((λ s, (Secret.slot s, content s)) <$> l).

Lemma assoc_keys l : (assoc l).*1 = Secret.slot <$> l.
Proof. by rewrite <- list_fmap_compose. Qed.

Lemma update_first_slots p e k v at_ l l' :
  update_first (Secret.at_slot p e k)
    (λ s, Secret.mk (Secret.project_id s) (Secret.environment_id s) (Secret.key s) v at_) l = Some l' →
  NoDup (Secret.slot <$> l) →
  Secret.slot <$> l' = Secret.slot <$> l
  ∧ (list_to_map (assoc l') : slot_map) = <[(p, e, k) := (v, at_)]> (list_to_map (assoc l)).
Proof.
  intros H Hn. apply update_first_some in H as (l1 & s & l2 & -> & Hs & -> & _).
  apply at_slot_spec in Hs. split; [by rewrite !fmap_app|].
  rewrite fmap_app in Hn. apply NoDup_app in Hn as (_ & Hn & Hn2). cbn in Hn, Hn2.
  assert (list_to_map (M := slot_map) (assoc l1) !! (p, e, k) = None) as Hfresh.
  { apply not_elem_of_list_to_map_1. rewrite assoc_keys, <- Hs. intros Hin. apply (Hn _ Hin). by left. }
  rewrite !fmap_app, !list_to_map_app. rewrite !fmap_cons, !list_to_map_cons.
  change (Secret.slot (Secret.mk _ _ _ v at_)) with (Secret.slot s). rewrite Hs.
  change (content (Secret.mk _ _ _ v at_)) with (v, at_).
  rewrite (insert_union_r _ _ (p, e, k) (v, at_)) by done. by rewrite insert_insert_eq.
Qed.

Lemma update_first_fresh p e k v at_ l :
  update_first (Secret.at_slot p e k)
    (λ s, Secret.mk (Secret.project_id s) (Secret.environment_id s) (Secret.key s) v at_) l = None →
  (p, e, k) ∉ Secret.slot <$> l.
Proof.
  rewrite update_first_none. intros H (s & Hs & Hin)%list_elem_of_fmap.
  apply (List.find_none _ _ H), not_true_iff_false in Hin || apply list_elem_of_In in Hin.
  apply (List.find_none _ _ H) in Hin. apply not_true_iff_false in Hin. apply Hin. by apply at_slot_spec.
Qed.

Lemma filter_slots p e k l :
  (list_to_map (assoc (List.filter (λ s, negb (Secret.at_slot p e k s)) l)) : slot_map)
  = delete (p, e, k) (list_to_map (assoc l)).
Proof.
  induction l as [|s l IH]; [by cbn; rewrite delete_empty|]. cbn [List.filter].
  rewrite fmap_cons, list_to_map_cons.
  destruct (Secret.at_slot p e k s) eqn:E; cbn [negb].
  - apply at_slot_spec in E. by rewrite E, delete_insert_eq, IH.
  - rewrite fmap_cons, list_to_map_cons, IH. rewrite delete_insert_ne; [done|].
    intros Heq. apply not_true_iff_false in E. apply E. by apply at_slot_spec.
Qed.

Lemma filter_nodup {A B} (f : A → B) (p : A → bool) l : NoDup (f <$> l) → NoDup (f <$> List.filter p l).
Proof.
  induction l as [|x l IH]; [done|]. cbn [fmap list_fmap List.filter]. intros [Hx Hn]%NoDup_cons.
  destruct (p x); [|by apply IH]. cbn. apply NoDup_cons. split; [|by apply IH].
  intros (y & Hy & Hin)%list_elem_of_fmap. apply Hx, list_elem_of_fmap. exists y. split; [done|].
  apply list_elem_of_In, List.filter_In in Hin as [Hin _]. by apply list_elem_of_In.
Qed.

Lemma apply_refines self event :
  slots_unique self →
  slots_unique (State.apply self event)
  ∧ vault_map (State.apply self event) = apply_map (vault_map self) event.
Proof.
  unfold slots_unique, vault_map. intros Hn. destruct event; cbn [State.apply apply_map]; try done.
  - by destruct (update_first _ _ _).
  - destruct (update_first _ _ _) as [l|] eqn:E; cbn [State.secrets State.set_secrets].
    + apply update_first_slots in E as [Hs Hm]; [|done]. by rewrite Hs.
    + apply update_first_fresh in E. split.
      * rewrite fmap_app. apply NoDup_app. split; [done|]. split; [|apply NoDup_singleton].
        intros x Hx Hin. apply list_elem_of_singleton in Hin. subst x. done.
      * rewrite fmap_app, list_to_map_app. cbn.
        rewrite <- insert_union_r; [by rewrite (right_id_L ∅ _)|].
        apply not_elem_of_list_to_map_1. by rewrite assoc_keys.
  - cbn [State.secrets State.set_secrets]. split; [by apply filter_nodup|apply filter_slots].
Qed.

Lemma secret_lookup self p e k :
  slots_unique self → content <$> State.secret self p e k = vault_map self !! (p, e, k).
Proof.
  unfold slots_unique, State.secret, vault_map. intros Hn.
  destruct (List.find _ _) as [s|] eqn:E; cbn.
  - apply find_some_iff in E as [Hin Hs]. apply at_slot_spec in Hs. symmetry.
    apply elem_of_list_to_map_1; [by rewrite assoc_keys|]. apply list_elem_of_fmap.
    exists s. by rewrite Hs.
  - symmetry. apply not_elem_of_list_to_map_1. rewrite assoc_keys.
    intros (s & Hs & Hin)%list_elem_of_fmap. apply list_elem_of_In in Hin.
    apply (List.find_none _ _ E) in Hin. apply not_true_iff_false in Hin. apply Hin. by apply at_slot_spec.
Qed.

Lemma replay_app self events : State.replay (self ++ events) = fold_left State.apply events (State.replay self).
Proof. apply fold_left_app. Qed.

Lemma replay_unique events : slots_unique (State.replay events).
Proof.
  induction events as [|e events IH] using rev_ind; [apply NoDup_nil_2|].
  rewrite replay_app. by apply apply_refines.
Qed.

(** C32: the list of secrets implements a finite map from slots to sealed
    values: however a log is built, replaying it gives the map got by inserting
    and deleting at the slots its events name, no slot is held twice, and
    looking a secret up is looking its slot up in the map. *)
Theorem replay_refines_map events :
  let self := State.replay events in
  vault_map self = fold_left apply_map events ∅
  ∧ slots_unique self
  ∧ ∀ p e k, content <$> State.secret self p e k = vault_map self !! (p, e, k).
Proof.
  cbn. split; [|split; [apply replay_unique|intros; apply secret_lookup, replay_unique]].
  induction events as [|e events IH] using rev_ind; [done|].
  rewrite replay_app, fold_left_app. cbn [fold_left].
  rewrite (proj2 (apply_refines _ e (replay_unique events))). by rewrite IH.
Qed.

Lemma secrets_in_spec self p e :
  slots_unique self →
  let listed := State.secrets_in self p e in
  StronglySorted (λ a b, str_le (Secret.key a) (Secret.key b) = true) listed
  ∧ NoDup (Secret.key <$> listed)
  ∧ ∀ s, s ∈ listed ↔ s ∈ State.secrets self ∧ Secret.project_id s = p ∧ Secret.environment_id s = e.
Proof.
  intros Hu. cbn. unfold State.secrets_in.
  set (keep := λ s, bool_decide (Secret.project_id s = p) && bool_decide (Secret.environment_id s = e)).
  assert (∀ s, keep s = true ↔ Secret.project_id s = p ∧ Secret.environment_id s = e) as Hkeep.
  { intros s. unfold keep. by rewrite andb_true_iff, !bool_decide_eq_true. }
  assert (∀ s, s ∈ List.filter keep (State.secrets self)
    ↔ s ∈ State.secrets self ∧ Secret.project_id s = p ∧ Secret.environment_id s = e) as Hin.
  { intros s. by rewrite !list_elem_of_In, List.filter_In, Hkeep. }
  split; [|split].
  - apply sort_by_sorted; [intros a b; apply str_le_total|intros a b c; apply str_le_trans].
  - rewrite (sort_by_permutation _ _). pose proof (filter_nodup Secret.slot keep _ Hu) as Hn.
    revert Hn Hin. generalize (List.filter keep (State.secrets self)). intros l Hn Hin.
    assert (∀ s, s ∈ l → Secret.slot s = (p, e, Secret.key s)) as Hslot.
    { intros s Hs. apply Hin in Hs as (_ & <- & <-). done. }
    clear Hin. induction l as [|s l IH]; [apply NoDup_nil_2|]. cbn in Hn |- *.
    apply NoDup_cons in Hn as [Hs Hn]. apply NoDup_cons. split.
    + intros (s' & Hk & Hs')%list_elem_of_fmap. apply Hs, list_elem_of_fmap. exists s'. split; [|done].
      rewrite (Hslot s) by left. rewrite (Hslot s') by (by right). by rewrite Hk.
    + apply IH; [done|]. intros s' Hs'. apply Hslot. by right.
  - intros s. by rewrite (sort_by_permutation _ _).
Qed.

(** A listing holds exactly the secrets of the environment asked for,
    each once, in the byte order of their keys. *)
Theorem secrets_in_sorted events p e :
  let listed := State.secrets_in (State.replay events) p e in
  StronglySorted (λ a b, str_le (Secret.key a) (Secret.key b) = true) listed
  ∧ NoDup (Secret.key <$> listed)
  ∧ ∀ s, s ∈ listed ↔ s ∈ State.secrets (State.replay events) ∧ Secret.project_id s = p ∧ Secret.environment_id s = e.
Proof. apply secrets_in_spec, replay_unique. Qed.

(** ** Tokens *)

(** A token keeps its place, its identity and any revocation. *)
Definition outlives (t t' : Token.t) : Prop :=
  Token.id t' = Token.id t ∧ Token.token_hash t' = Token.token_hash t ∧ Token.kind t' = Token.kind t
  ∧ Token.project_id t' = Token.project_id t ∧ Token.environment_id t' = Token.environment_id t
  ∧ Token.expires_at t' = Token.expires_at t
  ∧ (is_Some (Token.revoked_at t) → is_Some (Token.revoked_at t')).

Lemma outlives_refl t : outlives t t.
Proof. by repeat split. Qed.

Lemma apply_outlives self event i t :
  State.tokens self !! i = Some t → ∃ t', State.tokens (State.apply self event) !! i = Some t' ∧ outlives t t'.
Proof.
  intros Hi. destruct event; cbn [State.apply State.tokens State.set_tokens]; try (exists t; split; [done|apply outlives_refl]).
  - exists t. split; [by apply lookup_app_l_Some|apply outlives_refl].
  - destruct (update_first _ _ _) as [l|] eqn:E; [|exists t; split; [done|apply outlives_refl]].
    apply update_first_some in E as (l1 & x & l2 & Hl & Hx & -> & _). rewrite Hl in Hi. cbn.
    destruct (decide (i = length l1)) as [->|Hne].
    + rewrite list_lookup_middle in Hi |- * by done. injection Hi as <-. eexists. split; [done|].
      by repeat split.
    + exists t. split; [|apply outlives_refl]. destruct (Nat.lt_ge_cases i (length l1)).
      * rewrite lookup_app_l in Hi |- * by done. done.
      * rewrite lookup_app_r in Hi |- * by done. by destruct (i - length l1)%nat eqn:Ed; [lia|].
  - exists t. split; [by destruct (update_first _ _ _)|apply outlives_refl].
Qed.

Lemma replay_outlives events self i t :
  State.tokens self !! i = Some t →
  ∃ t', State.tokens (fold_left State.apply events self) !! i = Some t' ∧ outlives t t'.
Proof.
  revert self t. induction events as [|e events IH]; intros self t Hi; [exists t; split; [done|apply outlives_refl]|].
  destruct (apply_outlives self e i t Hi) as (t1 & H1 & (A1 & A2 & A3 & A4 & A5 & A6 & A7)).
  destruct (IH _ _ H1) as (t2 & H2 & (B1 & B2 & B3 & B4 & B5 & B6 & B7)). exists t2. split; [done|].
  repeat split; congruence || auto.
Qed.

(** Revocation is absolute: the token a revocation names is not valid at any
    moment, earlier or later, after any further events, and no event changes
    what a token is for. *)
Theorem revocation_is_absolute before after id at_ :
  match State.token (State.replay before) id with
  | Some t =>
    ∃ i t', State.tokens (State.replay before) !! i = Some t
          ∧ State.tokens (State.replay (before ++ TokenRevoked id at_ :: after)) !! i = Some t'
          ∧ Token.id t' = id ∧ Token.token_hash t' = Token.token_hash t ∧ Token.kind t' = Token.kind t
          ∧ ∀ now, Token.is_valid_at t' now = false
  | None => State.replay (before ++ [TokenRevoked id at_]) = State.replay before
  end.
Proof.
  rewrite !replay_app. cbn [fold_left]. set (self := State.replay before).
  unfold State.token. cbn [State.apply].
  destruct (update_first _ _ _) as [l|] eqn:E.
  - pose proof E as E'. apply update_first_some in E as (l1 & x & l2 & Hl & Hx & -> & Hf).
    assert (List.find (λ t, bool_decide (Token.id t = id)) (State.tokens self) = Some x) as ->.
    { rewrite Hl. clear -Hx Hf. induction Hf as [|y l1 Hy _ IH]; cbn; [by rewrite Hx|]. by rewrite Hy. }
    apply bool_decide_eq_true in Hx. exists (length l1).
    destruct (replay_outlives after (State.set_tokens (l1 ++ Token.set_revoked_at at_ x :: l2) self)
      (length l1) (Token.set_revoked_at at_ x)) as (t' & Ht' & (A1 & A2 & A3 & _ & _ & _ & A7)).
    { cbn. by rewrite list_lookup_middle. }
    cbn in A1, A2, A3. exists t'. split_and!; [by rewrite Hl, list_lookup_middle|done|congruence|congruence|congruence|].
    intros now. unfold Token.is_valid_at. by destruct (A7 ltac:(by eexists)) as [r ->].
  - apply update_first_none in E. by rewrite E.
Qed.
