(* ===== verification/Log.v ===== *)
(** * The append-only log

    Models [crates/ls-store/src/log.rs]: opening and repairing the file, scanning
    and reading its frames, sealed and plain appends, and compaction through a
    temporary file. Methods run on the world (whose operations may fail at any
    point) and the [Log] record, which lives in memory. *)

From S2P Require Import Prelude Text World Logging Aead Event.
From Stdlib Require Import Strings.Byte.

Definition HEADER_LEN : nat := 8.
Definition MAX_RECORD_LEN : Z := 1024 * 1024.
Definition MAGIC : list byte := as_bytes "LSLOG1".
Definition FORMAT_VERSION : byte := x01.
Definition KIND_PLAIN : byte := x00.
Definition KIND_SEALED : byte := x01.

(** One record read back. *)
Record Record_ := mk_record { sealed : bool; payload : list byte }.

#[global] Instance Record_eq_dec : EqDecision Record_.
Proof. solve_decision. Defined.

(** An open file: which file, and where the next write goes. *)
Record Handle := mk_handle { inode : nat; offset : nat }.

Record Log := mk_log {
  path : string;
  file : Handle;
  count : nat;
  broken : bool;
  repaired : bool;
}.

Module Log.

Section Log.
Context {EnvI : Env} {CipherI : Cipher} {TextI : OsText}.

Definition io {A} (m : proc World IoError A) : proc World StoreError A := map_perr Io m.

(** ** Paths *)

(** The bytes after the last [sep], and what precedes them with [sep]. *)
Fixpoint split_last (sep : byte) (l : list byte) : option (list byte * list byte) :=
  match l with
  | [] => None
  | b :: r =>
    match split_last sep r with
    | Some (before, after) => Some (b :: before, after)
    | None => if decide (b = sep) then Some ([b], r) else None
    end
  end.

(** [Path::with_extension], for a path that names a file. *)
Definition with_extension (path extension : string) : string :=
  let '(dir, name) := default ([], as_bytes path) (split_last "/"%byte (as_bytes path)) in
  let stem := match split_last "."%byte name with
              | Some ([_], _) | None => name
              | Some (before, _) => removelast before
              end in
  of_bytes (dir ++ stem ++ "."%byte :: as_bytes extension).

(** ** Records and their encryption *)

Definition record_context (sequence : nat) : Aad.t :=
  Aad.new "localsecrets.log.v1" [show_Z (Z.of_nat sequence)].

Definition seal (key : DataKey.t) (sequence : nat) (payload : list byte)
  : proc World StoreError (list byte) :=
  let! envelope := map_perr (λ _, Crypto) (DataKey.seal key payload (record_context sequence)) in
  ret (nonce envelope ++ ciphertext envelope).

Definition open_record (key : DataKey.t) (sequence : nat) (payload : list byte)
  : result StoreError (list byte) :=
  if (length payload <? NONCE_LEN)%nat then Err (Unreadable sequence) else
  map_err (λ _, Unreadable sequence)
    (DataKey.open key (mk_envelope (take NONCE_LEN payload) (drop NONCE_LEN payload))
       (record_context sequence)).

(** ** Reading *)

Definition header : list byte := MAGIC ++ [x00; FORMAT_VERSION].

(** [check_header]: a read that fails or comes up short is not a log. *)
Definition check_header (inode : nat) : proc World StoreError unit :=
  let! bytes := map_perr (λ _, NotALog) (read_at inode 0 HEADER_LEN) in
  if negb (length bytes =? HEADER_LEN)%nat then fail NotALog
  else if negb (bool_decide (take 6 bytes = MAGIC)) then fail NotALog
  else if negb (bool_decide (nth 7 bytes x00 = FORMAT_VERSION))
  then fail (UnsupportedVersion (nth 7 bytes x00))
  else ret tt.

(** [scan]: the number of complete records and the length they reach. One turn
    of the loop reads at least five bytes, so the length of the file is fuel
    enough. *)
Fixpoint scan_loop (fuel inode count good_len : nat) : proc World StoreError (nat * nat) :=
  match fuel with
  | O => ret (count, good_len)
  | S fuel =>
    let! length_bytes := io (read_at inode good_len 4) in
    if (length length_bytes <? 4)%nat then ret (count, good_len) else
    let length_ := be_value length_bytes in
    if length_ =? 0 then fail (Corrupt good_len "a record frame claims to be empty")
    else if MAX_RECORD_LEN <? length_
    then fail (Corrupt good_len "a record frame claims a length this build never writes")
    else
      let! body := io (read_at inode (good_len + 4) (Z.to_nat length_)) in
      if negb (length body =? Z.to_nat length_)%nat then ret (count, good_len)
      else scan_loop fuel inode (S count) (good_len + 4 + Z.to_nat length_)
  end.

Definition scan (inode : nat) : proc World StoreError (nat * nat) := λ w,
  scan_loop (S (length (contents inode (disk w)))) inode 0 HEADER_LEN w.

(** The loop of [for_each_record], threading what [visit] accumulates. *)
Fixpoint records_loop {A} (visit : nat → byte → list byte → A → result StoreError A)
    (fuel inode sequence offset : nat) (acc : A) : proc World StoreError A :=
  match fuel with
  | O => ret acc
  | S fuel =>
    let! length_bytes := io (read_at inode offset 4) in
    if (length length_bytes <? 4)%nat then ret acc else
    let length_ := be_value length_bytes in
    if (length_ =? 0) || (MAX_RECORD_LEN <? length_)
    then fail (Corrupt offset "a record frame claims an impossible length")
    else
      let! body := io (read_at inode (offset + 4) (Z.to_nat length_)) in
      if negb (length body =? Z.to_nat length_)%nat then ret acc
      else
        let! acc := lift (visit sequence (nth 0 body x00) (drop 1 body) acc) in
        records_loop visit fuel inode (S sequence) (offset + 4 + Z.to_nat length_) acc
  end.

Definition for_each_record {A} (path : string) (visit : nat → byte → list byte → A → result StoreError A)
    (acc : A) : proc World StoreError A :=
  let! inode := io (open_read path) in
  let! bytes := map_perr (λ _, NotALog) (read_at inode 0 HEADER_LEN) in
  if negb (length bytes =? HEADER_LEN)%nat then fail NotALog else
  λ w, records_loop visit (S (length (contents inode (disk w)))) inode 0 HEADER_LEN acc w.

Definition visit_plain (sequence : nat) (kind : byte) (payload : list byte) (out : list (list byte))
  : result StoreError (list (list byte)) :=
  Ok (if decide (kind = KIND_PLAIN) then out ++ [payload] else out).

Definition visit_record (key : DataKey.t) (sequence : nat) (kind : byte) (payload : list byte)
    (out : list Record_) : result StoreError (list Record_) :=
  if decide (kind = KIND_PLAIN) then Ok (out ++ [mk_record false payload])
  else let? opened := open_record key sequence payload in Ok (out ++ [mk_record true opened]).

Definition read_plain (self : Log) : proc World StoreError (list (list byte)) :=
  for_each_record (path self) visit_plain [].

Definition read_records (self : Log) (key : DataKey.t) : proc World StoreError (list Record_) :=
  for_each_record (path self) (visit_record key) [].

Definition read_all (self : Log) (key : DataKey.t) : proc World StoreError (list (list byte)) :=
  let! records := read_records self key in
  ret (payload <$> records).

Definition len (self : Log) : nat := count self.

Definition is_empty (self : Log) : bool := (count self =? 0)%nat.

(** ** Opening *)

Definition open (path : string) : proc World StoreError Log :=
  let! existed := gets (exists_path path) in
  let! inode := io (open_create path) in
  let! len := (if existed : bool then io (file_len inode) else ret 0%nat) in
  if (len =? 0)%nat then
    do! io (write_at inode 0 header) in
    do! io sync in
    ret (mk_log path (mk_handle inode HEADER_LEN) 0 false false)
  else
    do! check_header inode in
    let! (count, good_len) := scan inode in
    let! len := io (file_len inode) in
    let repaired := negb (len =? good_len)%nat in
    do! (if repaired then do! io (set_len inode good_len) in io sync else ret tt) in
    let! end_ := gets (λ w, length (contents inode (disk w))) in
    ret (mk_log path (mk_handle inode end_) count false repaired).

(** ** Writing *)

Definition frame (kind : byte) (payload : list byte) : list byte :=
  be_bytes 4 (Z.of_nat (length payload) + 1) ++ kind :: payload.

Definition set_broken (self : Log) : Log :=
  mk_log (path self) (file self) (count self) true (repaired self).

(** The count and the handle after a record has gone out. *)
Definition advance (n : nat) (self : Log) : Log :=
  mk_log (path self) (mk_handle (inode (file self)) (offset (file self) + n)) (S (count self))
    (broken self) (repaired self).

Definition write_record (kind : byte) (payload : list byte) : proc (World * Log) StoreError unit :=
  λ '(w, self),
    if broken self then (Err Broken, (w, self)) else
    let length_ := Z.of_nat (length payload) + 1 in
    if MAX_RECORD_LEN <? length_
    then (Err (RecordTooLarge (length payload) (Z.to_nat MAX_RECORD_LEN)), (w, self)) else
    let framed := frame kind payload in
    match (do! write_at (inode (file self)) (offset (file self)) framed in sync) w with
    | (Ok _, w') => (Ok tt, (w', advance (length framed) self))
    | (Err error, w') => (Err (Io error), (w', set_broken self))
    end.

Definition append_plain (payload : list byte) : proc (World * Log) StoreError unit :=
  write_record KIND_PLAIN payload.

Definition append (key : DataKey.t) (payload : list byte) : proc (World * Log) StoreError unit :=
  λ '(w, self),
    if MAX_RECORD_LEN <? Z.of_nat (length payload)
    then (Err (RecordTooLarge (length payload) (Z.to_nat MAX_RECORD_LEN)), (w, self)) else
    match seal key (count self) payload w with
    | (Ok sealed, w') => write_record KIND_SEALED sealed (w', self)
    | (Err e, w') => (Err e, (w', self))
    end.

(** ** Compaction *)

Fixpoint append_each {A} (step : A → proc (World * Log) StoreError unit) (records : list A)
  : proc (World * Log) StoreError unit :=
  match records with
  | [] => ret tt
  | r :: rest => do! step r in append_each step rest
  end.

Definition UNFLUSHED : string :=
  "could not flush the directory after rewriting the store; the rewrite is live but may not survive a power loss".

(** Flushing the directory, whose failure is only logged. *)
Definition flush_directory {E} : proc World E unit :=
  let! flushed := attempt (do! call in call) in
  match flushed with
  | Ok _ => ret tt
  | Err error => Logger.emit (Logger.mk_call Warn UNFLUSHED [("reason", io_text error)])
  end.

(** The new file, built beside the old one. *)
Definition build_fresh (key : DataKey.t) (plain sealed : list (list byte)) (temporary : string)
  : proc World StoreError Log := λ w,
  match open temporary w with
  | (Err e, w') => (Err e, w')
  | (Ok fresh, w') =>
    match (do! append_each append_plain plain in append_each (append key) sealed) (w', fresh) with
    | (Err e, (w'', _)) => (Err e, w'')
    | (Ok _, (w'', fresh)) => (do! io sync in ret fresh) w''
    end
  end.

Definition compact (key : DataKey.t) (plain sealed : list (list byte))
  : proc (World * Log) StoreError unit := λ '(w, self),
  let temporary := with_extension (path self) "compacting" in
  match (do! io (remove_file temporary) in
         let! fresh := build_fresh key plain sealed temporary in
         do! io (rename temporary (path self)) in
         do! flush_directory in
         ret fresh) w with
  | (Ok fresh, w') => (Ok tt, (w', mk_log (path self) (file fresh) (count fresh) false false))
  | (Err e, w') => (Err e, (w', self))
  end.
End Log.
End Log.
