(* ===== verification/LogSpec.v ===== *)
(** * What the log promises

    The log as a list of records: what its file may hold after any history of
    writes, failures and crashes, and what each operation of [Log] does to that
    list. [frames] is the well-formed part of a file, [partial] what an
    interrupted write may leave behind it, [rep] ties a file and the [Log] in
    memory to a list of records. *)

From S2P Require Import Prelude Text World Logging Aead Event Log.
From Stdlib Require Import Strings.Byte.

Module LogSpec.

Section LogSpec.
Context {EnvI : Env} {CipherI : Cipher} {LawsI : CipherLaws} {TextI : OsText}.

(** ** What a file holds *)

(** A record as framed: its kind and its payload. *)
Definition stored : Type := byte * list byte.

Definition frame_of (r : stored) : list byte := Log.frame r.1 r.2.
Definition frames (rs : list stored) : list byte := concat (frame_of <$> rs).
Definition fits (r : stored) : Prop := Z.of_nat (length r.2) + 1 <= MAX_RECORD_LEN.

(** Too short to be a record: no length field, or fewer bytes than it claims. *)
Definition partial (tail : list byte) : Prop :=
  (length tail < 4)%nat ∨
  0 < be_value (take 4 tail) <= MAX_RECORD_LEN ∧ Z.of_nat (length tail) < 4 + be_value (take 4 tail).

(** A length field no write of this program makes. *)
Definition impossible (rest : list byte) : Prop :=
  (4 ≤ length rest)%nat ∧ (be_value (take 4 rest) = 0 ∨ MAX_RECORD_LEN < be_value (take 4 rest)).

Lemma frames_app rs ss : frames (rs ++ ss) = frames rs ++ frames ss.
Proof. unfold frames. by rewrite fmap_app, concat_app. Qed.

Lemma frames_cons r rs : frames (r :: rs) = frame_of r ++ frames rs.
Proof. done. Qed.

Lemma frames_one r : frames [r] = frame_of r.
Proof. unfold frames. cbn. by rewrite app_nil_r. Qed.

Lemma length_frame k p : length (Log.frame k p) = (5 + length p)%nat.
Proof. unfold Log.frame. rewrite length_app, length_be_bytes. cbn. lia. Qed.

Lemma length_frames rs : (length rs ≤ length (frames rs))%nat.
Proof.
  induction rs as [|r rs IH]; [done|]. rewrite frames_cons, length_app. unfold frame_of.
  rewrite length_frame. cbn. lia.
Qed.

Lemma partial_nil : partial [].
Proof. left. cbn. lia. Qed.

Lemma frame_length_field k p :
  fits (k, p) → be_value (be_bytes 4 (Z.of_nat (length p) + 1)) = Z.of_nat (length p) + 1.
Proof.
  unfold fits, MAX_RECORD_LEN. cbn [snd]. intros H. rewrite be_value_bytes. apply Z.mod_small. lia.
Qed.

Lemma take_4_frame k p rest : take 4 (Log.frame k p ++ rest) = be_bytes 4 (Z.of_nat (length p) + 1).
Proof. unfold Log.frame. rewrite <- app_assoc, take_app_length' by (by rewrite length_be_bytes). done. Qed.

Lemma take_body_frame k p rest : take (S (length p)) (drop 4 (Log.frame k p ++ rest)) = k :: p.
Proof.
  unfold Log.frame. rewrite <- app_assoc, drop_app_length' by (by rewrite length_be_bytes).
  by rewrite take_app_length' by done.
Qed.

(** An interrupted write leaves a proper prefix of a frame: never a record. *)
Lemma partial_prefix r k : fits r → (k < length (frame_of r))%nat → partial (take k (frame_of r)).
Proof.
  destruct r as [kind p]. unfold frame_of. cbn [fst snd]. intros Hf Hk. rewrite length_frame in Hk.
  destruct (decide (k < 4)%nat) as [|Hge]; [left; rewrite length_take; lia|]. right.
  rewrite take_take, Nat.min_l by lia. rewrite <- (app_nil_r (Log.frame kind p)), take_4_frame.
  rewrite (frame_length_field kind p Hf). rewrite app_nil_r, length_take, length_frame.
  unfold fits in Hf. cbn in Hf. lia.
Qed.

(** Any bytes at all are records, then something too short or an impossible field. *)
Lemma decompose l :
  ∃ rs rest, l = frames rs ++ rest ∧ Forall fits rs ∧ (partial rest ∨ impossible rest).
Proof.
  remember (length l) as n eqn:Hn. revert l Hn. induction (lt_wf n) as [n _ IH]. intros l ->.
  destruct (decide (length l < 4)%nat) as [|Hlen]; 
    [exists [], l; split_and!; [done|by constructor|by left; left]|].
  set (v := be_value (take 4 l)).
  destruct (decide (v = 0 ∨ MAX_RECORD_LEN < v)) as [|Hv].
  { exists [], l. split_and!; [done|by constructor|]. right. split; [lia|done]. }
  pose proof (be_value_range (take 4 l)) as Hr.
  destruct (decide (Z.of_nat (length l) < 4 + v)) as [|Hlong].
  { exists [], l. split_and!; [done|by constructor|]. left. right. subst v. lia. }
  assert (length (take 4 l) = 4%nat) as H4 by (rewrite length_take; lia).
  destruct (drop 4 l) as [|k body] eqn:E.
  { apply (f_equal length) in E. rewrite length_drop in E. cbn in E. lia. }
  assert (length l = (5 + length body)%nat) as Hl.
  { apply (f_equal length) in E. rewrite length_drop in E. cbn in E. lia. }
  destruct (IH (length (drop (Z.to_nat v - 1) body))) with (l := drop (Z.to_nat v - 1) body)
    as (rs & rest & Heq & Hrs & Hrest); [rewrite length_drop; lia|done|].
  exists ((k, take (Z.to_nat v - 1) body) :: rs), rest. split_and!; [|constructor; [|done]|done].
  - rewrite frames_cons, <- app_assoc, <- Heq. unfold frame_of, Log.frame. cbn [fst snd].
    rewrite length_take, Nat.min_l by lia.
    replace (Z.of_nat (Z.to_nat v - 1) + 1) with v by lia. subst v.
    rewrite <- H4 at 1. rewrite be_bytes_value, <- app_assoc. cbn [app].
    by rewrite take_drop, <- E, take_drop.
  - unfold fits. cbn [snd]. rewrite length_take. lia.
Qed.

(** ** The reading loops *)

(** [for_each_record] on a list of records. *)
Fixpoint visit_all {A} (visit : nat → byte → list byte → A → result StoreError A)
    (sequence : nat) (rs : list stored) (acc : A) : result StoreError A :=
  match rs with
  | [] => Ok acc
  | r :: rs => let? acc := visit sequence r.1 r.2 acc in visit_all visit (S sequence) rs acc
  end.

Lemma visit_all_app {A} visit n rs ss (acc : A) :
  visit_all visit n (rs ++ ss) acc
  = let? acc := visit_all visit n rs acc in visit_all visit (n + length rs) ss acc.
Proof.
  revert n acc. induction rs as [|r rs IH]; intros n acc; cbn; [by rewrite Nat.add_0_r|].
  destruct (visit n _ _ acc); cbn; [|done]. rewrite IH. by rewrite Nat.add_succ_r.
Qed.

(** The part of a file from an offset on. *)
Definition rest_at (i o : nat) (d : Disk) (l : list byte) : Prop :=
  ∃ pre, contents i d = pre ++ l ∧ o = length pre.

Lemma rest_at_drop i o d l : rest_at i o d l → drop o (contents i d) = l.
Proof. intros (pre & -> & ->). by rewrite drop_app_length. Qed.

Lemma rest_at_next i o d k p l :
  rest_at i o d (Log.frame k p ++ l) → rest_at i (o + 4 + Z.to_nat (Z.of_nat (length p) + 1)) d l.
Proof.
  intros (pre & H & ->). exists (pre ++ Log.frame k p). split; [by rewrite <- app_assoc|].
  rewrite length_app, length_frame. lia.
Qed.

Lemma drop_drop_4 i o d l : rest_at i o d l → drop (o + 4) (contents i d) = drop 4 l.
Proof. intros H. by rewrite <- drop_drop, (rest_at_drop _ _ _ _ H). Qed.

Lemma partial_read l (v := be_value (take 4 l)) :
  partial l → length (take 4 l) = 4%nat →
  0 < v <= MAX_RECORD_LEN ∧ length (take (Z.to_nat v) (drop 4 l)) ≠ Z.to_nat v.
Proof.
  intros Hp H4. subst v. rewrite length_take in H4. destruct Hp as [|[? ?]]; [lia|].
  rewrite length_take, length_drop. lia.
Qed.

(** What an operation of the system that fails comes out as. *)
Definition faulted (e : StoreError) : Prop := ¬ quiet ∧ (e = Io IoFailed ∨ e = NotALog).

(** A goal about an operation of the system that failed, or about an unchanged disk. *)
Ltac by_disk :=
  intros; repeat match goal with |- _ ∧ _ => split | |- _ ∨ faulted _ => right | |- _ ∨ _ ∨ faulted _ => right end;
  first [done | congruence | by split; [done|auto]].

Lemma not_partial_impossible l : partial l → impossible l → False.
Proof. intros [|[? ?]] [? ?]; lia. Qed.

Lemma wp_records_loop {A} visit fuel i n o (acc : A) w rs rest :
  rest_at i o (disk w) (frames rs ++ rest) → Forall fits rs → partial rest ∨ impossible rest →
  (length rs < fuel)%nat →
  wp (Log.records_loop visit fuel i n o acc)
    (λ a w', disk w' = disk w ∧ partial rest ∧ visit_all visit n rs acc = Ok a)
    (λ e w', disk w' = disk w ∧ (visit_all visit n rs acc = Err e
      ∨ (impossible rest ∧ ∃ why, e = Corrupt (o + length (frames rs)) why) ∨ faulted e)) w.
Proof.
  intros Hat Hrs Ht. revert n o acc w rs Hat Hrs.
  induction fuel as [|fuel IH]; intros n o acc w rs Hat Hrs Hf; [lia|].
  cbn [Log.records_loop]. apply wp_bind, wp_map_perr, wp_read_at; [|by_disk].
  intros w1 H1. rewrite (rest_at_drop _ _ _ _ Hat).
  destruct rs as [|[k p] rs].
  - (* the end of the records *)
    change (frames [] ++ rest) with rest in *. cbn [length]. rewrite Nat.add_0_r.
    destruct (Nat.ltb_spec (length (take 4 rest)) 4) as [H4|H4].
    { apply wp_ret. split_and!; [done| |done]. destruct Ht as [|[? _]]; [done|].
      rewrite length_take in H4. lia. }
    assert (length (take 4 rest) = 4%nat) as E4 by (rewrite length_take in *; lia).
    destruct (_ || _) eqn:E.
    { apply wp_fail. split; [done|]. right. left. split; [|eauto].
      destruct Ht as [Ht|]; [|done]. destruct (partial_read rest Ht E4). bool_arith. lia. }
    destruct Ht as [Ht|[_ ?]]; [|bool_arith; lia].
    destruct (partial_read rest Ht E4) as [Hv Hb].
    apply wp_bind, wp_map_perr, wp_read_at; [|by_disk].
    intros w2 H2. rewrite H1 in *. rewrite (drop_drop_4 _ _ _ _ Hat).
    rewrite (proj2 (Nat.eqb_neq _ _)) by done. apply wp_ret. by rewrite H2.
  - apply Forall_cons in Hrs as [Hk Hrs]. rewrite frames_cons, <- app_assoc in *.
    change (frame_of (k, p)) with (Log.frame k p) in *.
    rewrite take_4_frame, length_be_bytes, (frame_length_field k p Hk). cbn [Nat.ltb Nat.leb].
    unfold fits in Hk. cbn [snd] in Hk.
    rewrite (proj2 (Z.eqb_neq _ 0)), (proj2 (Z.ltb_ge MAX_RECORD_LEN _)) by lia. cbn [orb].
    apply wp_bind, wp_map_perr, wp_read_at; [|by_disk].
    intros w2 H2. rewrite H1 in *. rewrite (drop_drop_4 _ _ _ _ Hat).
    replace (Z.to_nat (Z.of_nat (length p) + 1)) with (S (length p)) by lia.
    rewrite take_body_frame. change (drop 1 (k :: p)) with p. cbn [length nth].
    rewrite Nat.eqb_refl. cbn [negb].
    apply wp_bind, wp_lift; cbn [visit_all fst snd]; intros a Ha; rewrite Ha; cbn [res_bind];
      [|split; [congruence|by left]].
    replace (o + 4 + S (length p))%nat with (o + 4 + Z.to_nat (Z.of_nat (length p) + 1))%nat by lia.
    rewrite length_app, length_frame.
    eapply wp_mono; [apply IH|..].
    + rewrite H2. by apply rest_at_next with (k := k).
    + done.
    + cbn in Hf. lia.
    + intros a' w' (? & ? & ?). split_and!; congruence || done.
    + intros e w' [? He]. split; [congruence|]. destruct He as [|[[? [why ->]]|]]; [by left| |by right; right].
      right. left. split; [done|]. exists why. f_equal. lia.
Qed.

Lemma wp_scan_loop fuel i n o w rs rest :
  rest_at i o (disk w) (frames rs ++ rest) → Forall fits rs → partial rest ∨ impossible rest →
  (length rs < fuel)%nat →
  wp (Log.scan_loop fuel i n o)
    (λ '(count, good_len) w', disk w' = disk w ∧ partial rest ∧
      count = (n + length rs)%nat ∧ good_len = (o + length (frames rs))%nat)
    (λ e w', disk w' = disk w ∧
      ((impossible rest ∧ ∃ why, e = Corrupt (o + length (frames rs)) why) ∨ faulted e)) w.
Proof.
  intros Hat Hrs Ht. revert n o w rs Hat Hrs.
  induction fuel as [|fuel IH]; intros n o w rs Hat Hrs Hf; [lia|].
  cbn [Log.scan_loop]. apply wp_bind, wp_map_perr, wp_read_at; [|by_disk].
  intros w1 H1. rewrite (rest_at_drop _ _ _ _ Hat).
  destruct rs as [|[k p] rs].
  - change (frames [] ++ rest) with rest in *. cbn [length]. rewrite !Nat.add_0_r.
    destruct (Nat.ltb_spec (length (take 4 rest)) 4) as [H4|H4].
    { apply wp_ret. split_and!; [done| |done..]. destruct Ht as [|[? _]]; [done|].
      rewrite length_take in H4. lia. }
    assert (length (take 4 rest) = 4%nat) as E4 by (rewrite length_take in *; lia).
    destruct (Z.eqb_spec (be_value (take 4 rest)) 0) as [E|E].
    { apply wp_fail. split; [done|]. left. split; [|eauto]. rewrite length_take in *. split; [lia|auto]. }
    destruct (Z.ltb_spec MAX_RECORD_LEN (be_value (take 4 rest))).
    { apply wp_fail. split; [done|]. left. split; [|eauto]. rewrite length_take in *. split; [lia|auto]. }
    destruct Ht as [Ht|[_ [?|?]]]; [|lia..].
    destruct (partial_read rest Ht E4) as [Hv Hb].
    apply wp_bind, wp_map_perr, wp_read_at; [|by_disk].
    intros w2 H2. rewrite H1 in *. rewrite (drop_drop_4 _ _ _ _ Hat).
    rewrite (proj2 (Nat.eqb_neq _ _)) by done. apply wp_ret. by rewrite H2.
  - apply Forall_cons in Hrs as [Hk Hrs]. rewrite frames_cons, <- app_assoc in *.
    change (frame_of (k, p)) with (Log.frame k p) in *.
    rewrite take_4_frame, length_be_bytes, (frame_length_field k p Hk). cbn [Nat.ltb Nat.leb].
    unfold fits in Hk. cbn [snd] in Hk.
    rewrite (proj2 (Z.eqb_neq _ 0)), (proj2 (Z.ltb_ge MAX_RECORD_LEN _)) by lia.
    apply wp_bind, wp_map_perr, wp_read_at; [|by_disk].
    intros w2 H2. rewrite H1 in *. rewrite (drop_drop_4 _ _ _ _ Hat).
    replace (Z.to_nat (Z.of_nat (length p) + 1)) with (S (length p)) by lia.
    rewrite take_body_frame. cbn [length]. rewrite Nat.eqb_refl. cbn [negb].
    replace (o + 4 + S (length p))%nat with (o + 4 + Z.to_nat (Z.of_nat (length p) + 1))%nat by lia.
    rewrite length_app, length_frame.
    eapply wp_mono; [apply IH|..].
    + rewrite H2. by apply rest_at_next with (k := k).
    + done.
    + cbn in Hf. lia.
    + intros [c g] w' (? & ? & -> & ->). cbn [length]. split_and!; [congruence|done|lia..].
    + intros e w' [? H]. split; [congruence|]. destruct H as [[? [why ->]]|?]; [left|by right].
      split; [done|]. exists why. f_equal. lia.
Qed.

(** ** Opening and reading back *)

(** The file holds these records, and possibly something after them. *)
Definition holds (d : Disk) (i : nat) (rs : list stored) (rest : list byte) : Prop :=
  contents i d = Log.header ++ frames rs ++ rest ∧ Forall fits rs.

Lemma holds_rest d i rs rest : holds d i rs rest → rest_at i HEADER_LEN d (frames rs ++ rest).
Proof. intros [H _]. by exists Log.header. Qed.

Lemma holds_fuel d i rs rest : holds d i rs rest → (length rs < S (length (contents i d)))%nat.
Proof.
  intros [H _]. apply (f_equal length) in H. rewrite !length_app in H.
  pose proof (length_frames rs). lia.
Qed.

Lemma holds_header d i rs rest : holds d i rs rest → take HEADER_LEN (drop 0 (contents i d)) = Log.header.
Proof. by intros [-> _]. Qed.

Lemma wp_check_header i w (P : unit → World → Prop) Q :
  take HEADER_LEN (drop 0 (contents i (disk w))) = Log.header →
  (∀ w', disk w' = disk w → P tt w') →
  (∀ w' e, disk w' = disk w → faulted e → Q e w') → wp (Log.check_header i) P Q w.
Proof.
  intros H HP HQ. apply wp_bind, wp_map_perr, wp_read_at; [|intros; apply HQ; by_disk].
  intros w' Hw. rewrite H. by apply HP.
Qed.

Lemma wp_for_each_record {A} p visit (acc : A) w i rs rest :
  directory (disk w) !! p = Some i → holds (disk w) i rs rest → partial rest ∨ impossible rest →
  wp (Log.for_each_record p visit acc)
    (λ a w', disk w' = disk w ∧ partial rest ∧ visit_all visit 0 rs acc = Ok a)
    (λ e w', disk w' = disk w ∧ (visit_all visit 0 rs acc = Err e
      ∨ (impossible rest ∧ ∃ why, e = Corrupt (HEADER_LEN + length (frames rs)) why) ∨ faulted e)) w.
Proof.
  intros Hp Hh Ht. apply wp_bind, wp_map_perr, (wp_open_read _ _ _ _ _ Hp); [|by_disk].
  intros w1 H1. rewrite <- H1 in Hh. apply wp_bind, wp_map_perr, wp_read_at; [|by_disk].
  intros w2 H2. rewrite (holds_header _ _ _ _ Hh). rewrite <- H2 in Hh.
  change (negb (_ =? _)%nat) with false. cbv iota.
  eapply wp_mono; [eapply wp_records_loop|..].
  - by apply holds_rest.
  - apply Hh.
  - done.
  - by eapply holds_fuel.
  - cbv beta. intros a w' (? & ? & ?). split_and!; congruence || done.
  - cbv beta. intros e w' [? ?]. split; [congruence|done].
Qed.

(** The log in memory, the file it has open and the records it stands for. A log
    that is not [broken] knows exactly how many they are and where they end. *)
Record rep (d : Disk) (l : Log) (rs : list stored) (rest : list byte) : Prop := {
  rep_named : directory d !! path l = Some (inode (file l));
  rep_holds : holds d (inode (file l)) rs rest;
  rep_partial : partial rest;
  rep_live : broken l = false →
    rest = [] ∧ count l = length rs ∧ offset (file l) = length (contents (inode (file l)) d);
}.

Lemma rep_fresh d p i rs n flag :
  directory d !! p = Some i → holds d i rs [] → n = length (contents i d) →
  rep d (mk_log p (mk_handle i n) (length rs) false flag) rs [].
Proof. intros Hp Hh ->. split; [done|done|apply partial_nil|done]. Qed.

Lemma holds_put d i rs : Forall fits rs → holds (put i (Log.header ++ frames rs) d) i rs [].
Proof. intros H. split; [|done]. by rewrite contents_put, app_nil_r. Qed.

Lemma holds_take d i rs rest :
  holds d i rs rest → take (HEADER_LEN + length (frames rs)) (contents i d) = Log.header ++ frames rs.
Proof. intros [-> _]. rewrite app_assoc. by rewrite take_app_length'. Qed.

(** Only the file [i] changes, and no name. *)
Definition touches (i : nat) (d d' : Disk) : Prop :=
  directory d' = directory d ∧ next_inode d' = next_inode d ∧ ∀ j, j ≠ i → contents j d' = contents j d.

#[global] Instance touches_preorder i : PreOrder (touches i).
Proof.
  split; [done|]. intros d1 d2 d3 (Hd & Hn & H) (Hd' & Hn' & H'). split_and!; [congruence..|].
  intros j Hj. rewrite H', H; done.
Qed.

Lemma touches_put i bs d : touches i d (put i bs d).
Proof. split_and!; [done..|]. intros j Hj. by apply contents_put_ne. Qed.

(** No name stands for a file yet to be created. *)
Definition names_ok (d : Disk) : Prop := ∀ p i, directory d !! p = Some i → (i < next_inode d)%nat.

Lemma touches_names_ok i d d' : touches i d d' → names_ok d → names_ok d'.
Proof. intros (Hd & Hn & _) H p j. rewrite Hd, Hn. apply H. Qed.

(** The file [i], still named [q], as it was. *)
Definition keeps (i : nat) (q : string) (d d' : Disk) : Prop :=
  directory d !! q = Some i → names_ok d →
  directory d' !! q = Some i ∧ names_ok d' ∧ contents i d' = contents i d.

#[global] Instance keeps_preorder i q : PreOrder (keeps i q).
Proof.
  split; [done|]. intros d1 d2 d3 H12 H23 Hq Hn. destruct (H12 Hq Hn) as (Hq2 & Hn2 & E2).
  destruct (H23 Hq2 Hn2) as (Hq3 & Hn3 & E3). split_and!; [done..|congruence].
Qed.

Lemma touches_keeps j i q d d' : i ≠ j → touches j d d' → keeps i q d d'.
Proof.
  intros Hij H Hq Hn. split_and!; [|by eapply touches_names_ok|by apply H]. destruct H as (-> & _). done.
Qed.

(** Opening a file that holds records: they are all kept, what follows them is
    dropped, and a failure on the way loses none of them. *)
Lemma wp_open_existing p w i rs tail :
  directory (disk w) !! p = Some i → holds (disk w) i rs tail → partial tail →
  wp (Log.open p)
    (λ l w', rep (disk w') l rs [] ∧ broken l = false ∧ path l = p ∧ repaired l = bool_decide (tail ≠ [])
      ∧ touches i (disk w) (disk w'))
    (λ e w', faulted e ∧ touches i (disk w) (disk w')
      ∧ (holds (disk w') i rs tail ∨ holds (disk w') i rs [])) w.
Proof.
  intros Hp Hh Ht. pose proof Hh as [Hc Hfits].
  assert (exists_path p w = true) as Hex by (unfold exists_path; by rewrite Hp).
  assert (∀ w' e, disk w' = disk w → faulted e →
    faulted e ∧ touches i (disk w) (disk w') ∧ (holds (disk w') i rs tail ∨ holds (disk w') i rs []))
    as Hfail by (intros w' e -> ?; split_and!; [done|reflexivity|by left]).
  assert (∀ e, ¬ quiet → e = Io IoFailed → faulted e) as Hio by (intros e ? ->; split; auto).
  apply wp_bind, wp_gets, wp_bind, wp_map_perr, wp_open_create; [|by rewrite Hp|auto].
  intros w1 i' Hi H1. assert (i' = i) as -> by congruence. rewrite Hex.
  apply wp_bind, wp_map_perr, wp_file_len; [|intros; apply Hfail; [congruence|auto]].
  intros w2 H2. rewrite H1. rewrite Hc at 1. change (_ =? 0)%nat with false. cbn iota.
  apply wp_bind, wp_check_header; [rewrite H2, H1; by eapply holds_header| |intros; apply Hfail; [congruence|done]].
  intros w3 H3. apply wp_bind. assert (disk w3 = disk w) as E3 by congruence.
  eapply wp_mono; [eapply (wp_scan_loop _ _ _ _ w3 rs tail)|..].
  { rewrite E3. by apply holds_rest. }
  { done. } { by left. } { rewrite E3. by eapply holds_fuel. }
  2: { cbn. intros e w' [? [[[? Him] _]|?]]; [|apply Hfail; [congruence|done]].
       exfalso. destruct Ht as [|[? ?]]; lia. }
  cbv beta. intros [n g] w4 (H4 & _ & -> & ->).
  apply wp_bind, wp_map_perr, wp_file_len; [|intros; apply Hfail; [congruence|auto]].
  intros w5 H5. rewrite H4, E3.
  assert (length (contents i (disk w)) = HEADER_LEN + length (frames rs) + length tail)%nat as Hlen.
  { rewrite Hc, !length_app. done. }
  assert (disk w5 = disk w) as E by congruence.
  destruct tail as [|t tail].
  - rewrite Hlen. cbn [length]. rewrite Nat.add_0_r, Nat.eqb_refl. cbn [negb].
    apply wp_bind, wp_ret, wp_bind, wp_gets, wp_ret.
    rewrite E. split_and!; [by apply rep_fresh|done..].
  - rewrite (proj2 (Nat.eqb_neq _ _)) by (rewrite Hlen; cbn; lia). cbn [negb].
    apply wp_bind, wp_bind, wp_map_perr, wp_set_len; [|intros; apply Hfail; [congruence|auto]].
    intros w6 H6. rewrite E, (holds_take _ _ _ _ Hh) in H6.
    apply wp_map_perr, wp_call.
    2: { intros w7 -> ?. rewrite H6. split_and!; [auto|apply touches_put|]. right. by apply holds_put. }
    intros w7 H7. apply wp_bind, wp_gets, wp_ret. rewrite H7, H6.
    split_and!; [|done..|apply touches_put]. apply rep_fresh; [done|by apply holds_put|done].
Qed.

(** Opening where there is no file: a log without records, in a file of its own. *)
Lemma wp_open_fresh p w :
  directory (disk w) !! p = None →
  wp (Log.open p)
    (λ l w', rep (disk w') l [] [] ∧ broken l = false ∧ path l = p ∧ inode (file l) = next_inode (disk w)
      ∧ (∀ i q, keeps i q (disk w) (disk w')) ∧ (names_ok (disk w) → names_ok (disk w')))
    (λ e w', e = Io IoFailed ∧ ¬ quiet ∧ ∀ i q, keeps i q (disk w) (disk w')) w.
Proof.
  intros Hp. apply wp_bind, wp_gets, wp_bind, wp_map_perr.
  apply wp_open_create; [by rewrite Hp| |by intros w1 ->].
  intros w1 _ H1. assert (exists_path p w = false) as -> by (unfold exists_path; by rewrite Hp).
  apply wp_bind, wp_ret. cbn [Nat.eqb].
  assert (∀ bs, names_ok (disk w) → names_ok (put (next_inode (disk w)) bs (disk w1))) as Hcreate.
  { intros bs Hn q j. rewrite H1. cbn. intros [[_ <-]|[_ Hj]]%lookup_insert_Some; [lia|]. apply Hn in Hj. lia. }
  assert (∀ i q bs, keeps i q (disk w) (put (next_inode (disk w)) bs (disk w1))) as Hk.
  { intros i q bs Hq Hn. pose proof (Hn _ _ Hq). split; [|split; [by apply Hcreate|]]; rewrite H1.
    - cbn. rewrite lookup_insert_ne; congruence.
    - rewrite contents_put_ne by lia. unfold contents. cbn. by rewrite lookup_insert_ne by lia. }
  assert (contents (next_inode (disk w)) (disk w1) = []) as Hc.
  { rewrite H1. unfold contents. cbn. by rewrite lookup_insert_eq. }
  apply wp_bind, wp_map_perr, wp_write_at; [|intros w2 k -> ?; split_and!; [done..|intros; apply Hk]].
  intros w2 H2. rewrite Hc in H2.
  change (overwrite 0 Log.header []) with (Log.header ++ frames []) in H2.
  apply wp_bind, wp_map_perr, wp_call; [|intros w3 -> ?; rewrite H2; split_and!; [done..|intros; apply Hk]].
  intros w3 H3. apply wp_ret. rewrite H3, H2.
  split_and!; [|done..|intros; apply Hk|apply Hcreate]. apply (rep_fresh _ _ _ []).
  - rewrite H1. cbn. by rewrite lookup_insert_eq.
  - by apply holds_put.
  - by rewrite contents_put.
Qed.

(** What a process that wants the log may find: nothing, a header cut short, or
    records and what an interrupted write left behind them. *)
Definition openable (p : string) (d : Disk) : Prop :=
  names_ok d ∧ (directory d !! p = None ∨ ∃ i, directory d !! p = Some i
    ∧ ((∃ k, contents i d = take k Log.header) ∨ ∃ rs rest, holds d i rs rest ∧ partial rest)).

Lemma overwrite_nil bs : overwrite 0 bs [] = bs.
Proof. unfold overwrite. cbn [length Nat.sub replicate app take]. by rewrite drop_nil, app_nil_r. Qed.

(** Writing the header of an empty file: all of it, or a beginning. *)
Lemma wp_write_header p i w (Q : StoreError → World → Prop) :
  contents i (disk w) = [] →
  (∀ w' k, disk w' = put i (take k Log.header) (disk w) → Q (Io IoFailed) w') →
  wp (do! Log.io (write_at i 0 Log.header) in do! Log.io sync in
      ret (mk_log p (mk_handle i HEADER_LEN) 0 false false))
    (λ l w', l = mk_log p (mk_handle i HEADER_LEN) 0 false false
      ∧ disk w' = put i (Log.header ++ frames []) (disk w)) Q w.
Proof.
  intros Hc HQ. apply wp_bind, wp_map_perr, wp_write_at; rewrite Hc.
  2: { intros w1 k Hd _. rewrite overwrite_nil in Hd. by eapply HQ. }
  intros w1 H1. rewrite overwrite_nil in H1. apply wp_bind, wp_map_perr, wp_call; intros w2 H2; [|intros _].
  - apply wp_ret. split; [done|]. by rewrite H2.
  - apply (HQ _ 8%nat). by rewrite H2, H1.
Qed.

Lemma wp_open_openable p w :
  openable p (disk w) →
  wp (Log.open p)
    (λ l w', path l = p ∧ broken l = false ∧ names_ok (disk w') ∧ ∃ rs, rep (disk w') l rs [])
    (λ _ w', openable p (disk w')) w.
Proof.
  intros [Hn Hw].
  assert (∀ i w0, names_ok (disk w0) → directory (disk w0) !! p = Some i → contents i (disk w0) = [] →
    wp (do! Log.io (write_at i 0 Log.header) in do! Log.io sync in
        ret (mk_log p (mk_handle i HEADER_LEN) 0 false false))
      (λ l w', path l = p ∧ broken l = false ∧ names_ok (disk w') ∧ ∃ rs, rep (disk w') l rs [])
      (λ _ w', openable p (disk w')) w0) as Hnew.
  { intros i w0 Hn0 Hp Hc. eapply wp_mono; [apply wp_write_header; [done|]|..]; cbv beta.
    - intros w' k Hd. instantiate (1 := λ _ w', openable p (disk w')). cbv beta. rewrite Hd. split; [done|]. right.
      exists i. split; [done|]. left. exists k. apply contents_put.
    - intros l w' [-> ->]. split_and!; [done..|]. exists []. apply (rep_fresh _ _ _ []); [done|by apply holds_put|].
      by rewrite contents_put.
    - done. }
  destruct Hw as [Hp|(i & Hp & Hc)].
  - apply wp_bind, wp_gets, wp_bind, wp_map_perr. apply wp_open_create; [by rewrite Hp| |].
    2: { intros w1 -> _. split; [done|by left]. }
    intros w1 _ H1. assert (exists_path p w = false) as -> by (unfold exists_path; by rewrite Hp).
    apply wp_bind, wp_ret. cbn [Nat.eqb]. apply Hnew; rewrite H1.
    + intros q j. cbn. intros [[_ <-]|[_ Hj]]%lookup_insert_Some; [lia|]. apply Hn in Hj. lia.
    + cbn. by rewrite lookup_insert_eq.
    + unfold contents. cbn. by rewrite lookup_insert_eq.
  - assert ((∃ k, (k < 8)%nat ∧ contents i (disk w) = take k Log.header)
      ∨ ∃ rs rest, holds (disk w) i rs rest ∧ partial rest) as [(k & Hk & Hc')|(rs & rest & Hh & Hr)].
    { destruct Hc as [[k Hc]|]; [|by right]. destruct (decide (k < 8)%nat); [left; by exists k|]. right.
      exists [], []. split; [|apply partial_nil]. split; [by rewrite Hc, take_ge by (cbn; lia)|constructor]. }
    2: { eapply wp_mono; [by apply (wp_open_existing p w i rs rest)|..]; cbv beta.
         - intros l w' (Hrep & Hb & Hpath & _ & Ht). split_and!; [done..|by eapply touches_names_ok|by exists rs].
         - intros e w' (_ & Ht & Hh'). split; [by eapply touches_names_ok|]. right. exists i.
           destruct Ht as (-> & _). split; [done|]. right. destruct Hh'; eexists _, _; (split; [done|]); done || apply partial_nil. }
    assert (∀ w', disk w' = disk w → openable p (disk w')) as Hsame.
    { intros w' ->. split; [done|]. right. by exists i. }
    apply wp_bind, wp_gets, wp_bind, wp_map_perr, wp_open_create; [|by rewrite Hp|auto].
    intros w1 i' Hi H1. assert (i' = i) as -> by congruence.
    assert (exists_path p w = true) as -> by (unfold exists_path; by rewrite Hp).
    apply wp_bind, wp_map_perr, wp_file_len; [|intros; apply Hsame; congruence].
    intros w2 H2. rewrite H1, Hc'. assert (disk w2 = disk w) as E by congruence.
    destruct (Nat.eqb_spec (length (take k Log.header)) 0) as [E0|E0].
    { apply Hnew; rewrite E; [done|done|]. rewrite Hc'. by apply length_zero_iff_nil. }
    apply wp_bind, wp_bind, wp_map_perr, wp_read_at; [|intros; apply Hsame; congruence].
    intros w3 H3. rewrite E, Hc', drop_0, take_take, length_take.
    rewrite (proj2 (Nat.eqb_neq _ _)) by (change (length Log.header) with 8%nat; unfold HEADER_LEN; lia). cbn [negb].
    apply wp_fail, Hsame. congruence.
Qed.

(** ** Writing *)

(** A record went in, or nothing did, or the log is [broken] and the file holds
    the records there were, perhaps with a torn one after them, or the new one. *)
Lemma wp_write_record k p w l rs rest :
  rep (disk w) l rs rest →
  wp (Log.write_record k p)
    (λ _ '(w', l'), fits (k, p) ∧ broken l = false ∧ broken l' = false ∧ rep (disk w') l' (rs ++ [(k, p)]) []
      ∧ inode (file l') = inode (file l) ∧ path l' = path l ∧ touches (inode (file l)) (disk w) (disk w'))
    (λ e '(w', l'),
      (disk w' = disk w ∧ l' = l ∧ (e = Broken ∧ broken l = true
        ∨ e = RecordTooLarge (length p) (Z.to_nat MAX_RECORD_LEN) ∧ ¬ fits (k, p)))
      ∨ e = Io IoFailed ∧ ¬ quiet ∧ broken l = false ∧ l' = Log.set_broken l
        ∧ touches (inode (file l)) (disk w) (disk w')
        ∧ ((∃ rest', rep (disk w') l' rs rest') ∨ rep (disk w') l' (rs ++ [(k, p)]) []))
    (w, l).
Proof.
  intros Hrep. destruct (broken l) eqn:Hb; [unfold wp, Log.write_record; rewrite Hb; left; auto|].
  destruct (rep_live _ _ _ _ Hrep Hb) as (-> & Hcount & Hoff).
  destruct (rep_holds _ _ _ _ Hrep) as [Hc Hfits].
  unfold wp, Log.write_record. rewrite Hb.
  destruct (Z.ltb_spec MAX_RECORD_LEN (Z.of_nat (length p) + 1)) as [|Hf].
  { left. split_and!; [done..|]. right. split; [done|]. unfold fits. cbn. lia. }
  assert (∀ bs, overwrite (offset (file l)) bs (contents (inode (file l)) (disk w))
    = contents (inode (file l)) (disk w) ++ bs) as Hover by (intros bs; by rewrite Hoff, overwrite_end).
  assert (∀ w', disk w' = put (inode (file l)) (contents (inode (file l)) (disk w) ++ Log.frame k p) (disk w) →
    holds (disk w') (inode (file l)) (rs ++ [(k, p)]) []) as Hholds.
  { intros w' ->. rewrite Hc, app_nil_r, <- app_assoc. change (Log.frame k p) with (frame_of (k, p)).
    rewrite <- frames_one, <- frames_app.
    apply holds_put, Forall_app. by split; [|constructor]. }
  match goal with |- context [bind ?m ?next w] => enough (wp (bind m next)
    (λ _ w', disk w' = put (inode (file l)) (contents (inode (file l)) (disk w) ++ Log.frame k p) (disk w))
    (λ e w', e = IoFailed ∧ ¬ quiet ∧ ∃ n,
       disk w' = put (inode (file l)) (contents (inode (file l)) (disk w) ++ take n (Log.frame k p)) (disk w)) w) as H end.
  - unfold wp in H. destruct (bind _ _ w) as [[[]|e] w'].
    + rewrite H. split_and!; [done..| |done|done|apply touches_put]. specialize (Hholds w' H). rewrite H in Hholds.
      split; cbn [file path Log.advance inode]; [apply (rep_named _ _ _ _ Hrep)|done|apply partial_nil|].
      intros _. split_and!; [done| |].
      * cbn. rewrite Hcount, length_app. cbn. lia.
      * cbn [offset]. by rewrite contents_put, length_app, Hoff.
    + destruct H as (-> & Hq & n & H). right. split_and!; [done..|rewrite H; apply touches_put|].
      destruct (decide (n < length (Log.frame k p))%nat) as [Hn|Hn].
      * left. exists (take n (Log.frame k p)). rewrite H.
        split; cbn [file path Log.set_broken]; [apply (rep_named _ _ _ _ Hrep)| |by apply (partial_prefix (k, p))|done].
        split; [|done]. by rewrite contents_put, Hc, app_nil_r, <- app_assoc.
      * right. rewrite take_ge in H by lia. specialize (Hholds w' H).
        split; cbn [file path Log.set_broken]; [|done|apply partial_nil|done].
        rewrite H. apply (rep_named _ _ _ _ Hrep).
  - apply wp_bind, wp_write_at.
    + intros w1 H1. rewrite Hover in H1. apply wp_call; [by intros w2 ->|].
      intros w2 -> ?. split_and!; [done..|]. exists (length (Log.frame k p)). by rewrite firstn_all.
    + intros w1 n -> ?. rewrite Hover. by eauto.
Qed.
(** The record appended under [key] to a log of [n] records. *)
Definition seals (key : DataKey.t) (n : nat) (payload : list byte) (r : stored) : Prop :=
  r.1 = KIND_SEALED ∧ Log.open_record key n r.2 = Ok payload.

(** Why an append may be turned down without touching the file. *)
Definition refused (payload : list byte) (w : World) (l : Log) (e : StoreError) : Prop :=
  (e = Broken ∧ broken l = true)
  ∨ (e = RecordTooLarge (length payload) (Z.to_nat MAX_RECORD_LEN) ∧ MAX_RECORD_LEN < Z.of_nat (length payload))
  ∨ (e = Crypto ∧ (MAX_PLAINTEXT_LEN < Z.of_nat (length payload) ∨ entropy (draws w) = None)).

Lemma seal_spec key n p w :
  wp (Log.seal key n p)
    (λ s w', disk w' = disk w ∧ Log.open_record key n s = Ok p ∧ fits (KIND_SEALED, s))
    (λ e w', disk w' = disk w ∧ e = Crypto ∧ (MAX_PLAINTEXT_LEN < Z.of_nat (length p) ∨ entropy (draws w) = None)) w.
Proof.
  apply wp_bind, wp_map_perr. unfold wp at 1.
  destruct (DataKey.seal key p (Log.record_context n) w) as [[env|e] w'] eqn:E;
    pose proof (DataKey.seal_disk _ _ _ _ _ _ E) as Hd.
  - apply DataKey.seal_ok in E as (Ho & Hn & Hc & Hp). apply wp_ret. split_and!; [done| |].
    + unfold Log.open_record. rewrite length_app, Hn. rewrite (proj2 (Nat.ltb_ge _ _)) by lia.
      rewrite take_app_length', drop_app_length' by done. destruct env. cbn in *. by rewrite Ho.
    + unfold fits, MAX_PLAINTEXT_LEN, MAX_RECORD_LEN, NONCE_LEN in *. cbn [snd]. rewrite length_app. lia.
  - apply DataKey.seal_fails in E. split_and!; [done..|]. tauto.
Qed.

Lemma wp_append key p w l rs rest :
  rep (disk w) l rs rest →
  wp (Log.append key p)
    (λ _ '(w', l'), broken l = false ∧ broken l' = false
      ∧ (∃ r, seals key (length rs) p r ∧ rep (disk w') l' (rs ++ [r]) [])
      ∧ inode (file l') = inode (file l) ∧ path l' = path l ∧ touches (inode (file l)) (disk w) (disk w'))
    (λ e '(w', l'),
      (disk w' = disk w ∧ l' = l ∧ refused p w l e)
      ∨ e = Io IoFailed ∧ ¬ quiet ∧ broken l = false ∧ l' = Log.set_broken l
        ∧ touches (inode (file l)) (disk w) (disk w')
        ∧ ((∃ rest', rep (disk w') l' rs rest') ∨ ∃ r, seals key (length rs) p r ∧ rep (disk w') l' (rs ++ [r]) []))
    (w, l).
Proof.
  intros Hrep. unfold wp, Log.append.
  destruct (Z.ltb_spec MAX_RECORD_LEN (Z.of_nat (length p))); [left; unfold refused; auto 8|].
  pose proof (seal_spec key (count l) p w) as Hs. unfold wp in Hs.
  destruct (Log.seal key (count l) p w) as [[s|e] w1]; [|left; unfold refused; tauto].
  destruct Hs as (Hd & Ho & Hf). rewrite <- Hd in Hrep.
  pose proof (wp_write_record KIND_SEALED s w1 l rs rest Hrep) as Hw. unfold wp in Hw.
  destruct (Log.write_record KIND_SEALED s (w1, l)) as [[[]|e] [w' l']]; rewrite Hd in Hw.
  - destruct Hw as (_ & Hb & Hb' & Hrep' & Hi & Hp & Ht). split_and!; [done..| |done|done|done].
    exists (KIND_SEALED, s). split; [|done].
    destruct (rep_live _ _ _ _ Hrep Hb) as (_ & <- & _). done.
  - destruct Hw as [(-> & -> & [[-> Hb]|[_ ?]])|(-> & Hq & Hb & -> & Ht & Hr)]; [|done|].
    + left. unfold refused. auto 8.
    + right. split_and!; [done..|]. destruct Hr as [Hr|Hr]; [by left|]. right.
      exists (KIND_SEALED, s). split; [|done]. by destruct (rep_live _ _ _ _ Hrep Hb) as (_ & <- & _).
Qed.
(** ** The log as a list of payloads *)

(** What the records read back as under [key]. *)
Definition decoded (key : DataKey.t) (rs : list stored) : result StoreError (list Record_) :=
  visit_all (Log.visit_record key) 0 rs [].

(** The abstraction: the log and its file stand for these records. *)
Definition is_log (key : DataKey.t) (d : Disk) (l : Log) (recs : list Record_) : Prop :=
  ∃ rs rest, rep d l rs rest ∧ decoded key rs = Ok recs.

Lemma decoded_snoc key rs r :
  decoded key (rs ++ [r]) = let? recs := decoded key rs in Log.visit_record key (length rs) r.1 r.2 recs.
Proof.
  unfold decoded. rewrite visit_all_app. cbn [visit_all Nat.add].
  destruct (visit_all _ 0 rs []) as [recs|]; cbn [res_bind]; [|done].
  by destruct (Log.visit_record _ _ _ _ _).
Qed.

Lemma decoded_sealed key rs recs p r :
  decoded key rs = Ok recs → seals key (length rs) p r → decoded key (rs ++ [r]) = Ok (recs ++ [mk_record true p]).
Proof.
  intros Hd [Hk Ho]. rewrite decoded_snoc, Hd. cbn [res_bind]. unfold Log.visit_record.
  by rewrite Hk, decide_False, Ho by done.
Qed.

Lemma decoded_plain key rs recs p :
  decoded key rs = Ok recs → decoded key (rs ++ [(KIND_PLAIN, p)]) = Ok (recs ++ [mk_record false p]).
Proof. intros Hd. rewrite decoded_snoc, Hd. done. Qed.

Lemma wp_read_records key w l recs :
  is_log key (disk w) l recs →
  wp (Log.read_records l key)
    (λ out w', out = recs ∧ disk w' = disk w) (λ e w', faulted e ∧ disk w' = disk w) w.
Proof.
  intros (rs & rest & Hrep & Hdec).
  eapply wp_mono; [eapply (wp_for_each_record _ _ _ _ _ rs rest)|..].
  - apply (rep_named _ _ _ _ Hrep).
  - apply (rep_holds _ _ _ _ Hrep).
  - left. apply (rep_partial _ _ _ _ Hrep).
  - cbv beta. intros out w' (Hd & _ & H). unfold decoded in Hdec. rewrite Hdec in H. by injection H as ->.
  - cbv beta. intros e w' (Hd & [H|[[Him _]|H]]); [|destruct (not_partial_impossible rest); [apply Hrep|done]|done].
    unfold decoded in Hdec. by rewrite Hdec in H.
Qed.

Lemma wp_read_all key w l recs :
  is_log key (disk w) l recs →
  wp (Log.read_all l key)
    (λ out w', out = payload <$> recs ∧ disk w' = disk w) (λ e w', faulted e ∧ disk w' = disk w) w.
Proof.
  intros H. unfold Log.read_all. apply wp_bind. eapply wp_mono; [by apply wp_read_records|..]; cbv beta; [|done].
  by intros out w' [-> Hd].
Qed.

(** The plain payloads among the records. *)
Definition plains (recs : list Record_) : list (list byte) :=
  payload <$> filter (λ r, sealed r = false) recs.

(** The same, as the file has them: no key is needed. *)
Definition plain_of (rs : list stored) : list (list byte) :=
  snd <$> filter (λ r : stored, r.1 = KIND_PLAIN) rs.

Lemma visit_plain_all rs n out : visit_all Log.visit_plain n rs out = Ok (out ++ plain_of rs).
Proof.
  unfold plain_of. revert n out. induction rs as [|[k p] rs IH]; intros n out; [cbn; by rewrite app_nil_r|].
  cbn [visit_all fst snd]. unfold Log.visit_plain at 1. cbn [res_bind]. rewrite IH, filter_cons. cbn [fst].
  case_decide; [|done]. rewrite fmap_cons. by rewrite <- app_assoc.
Qed.

Lemma visit_record_plains rs : ∀ key n (out : list Record_) recs,
  visit_all (Log.visit_record key) n rs out = Ok recs → plains recs = plains out ++ plain_of rs.
Proof.
  unfold plains, plain_of. induction rs as [|[k p] rs IH]; intros key n out recs H; [cbn in *; injection H as ->; by rewrite app_nil_r|].
  cbn [visit_all fst snd] in *. unfold Log.visit_record at 1 in H. rewrite filter_cons. cbn [fst]. case_decide; cbn [res_bind] in *.
  - apply IH in H. rewrite filter_app, fmap_app in H. rewrite H, fmap_cons, <- app_assoc. done.
  - destruct (Log.open_record key n p); [|done]. cbn in H. apply IH in H.
    rewrite filter_app, fmap_app, app_nil_r in H. exact H.
Qed.

Lemma decoded_plains key rs recs : decoded key rs = Ok recs → plains recs = plain_of rs.
Proof. apply visit_record_plains. Qed.

Lemma wp_read_plain w l rs rest :
  rep (disk w) l rs rest →
  wp (Log.read_plain l)
    (λ out w', out = plain_of rs ∧ disk w' = disk w) (λ e w', faulted e ∧ disk w' = disk w) w.
Proof.
  intros Hrep. eapply wp_mono; [eapply (wp_for_each_record _ _ _ _ _ rs rest)|..].
  - apply (rep_named _ _ _ _ Hrep).
  - apply (rep_holds _ _ _ _ Hrep).
  - left. apply (rep_partial _ _ _ _ Hrep).
  - cbv beta. intros out w' (Hd & _ & H). rewrite visit_plain_all in H. by injection H as <-.
  - cbv beta. intros e w' (Hd & [H|[[Him _]|H]]); [|destruct (not_partial_impossible rest); [apply Hrep|done]|done].
    by rewrite visit_plain_all in H.
Qed.

(** Reading under any key: what the records decode to, if they do. *)
Lemma wp_read_decoded key w l rs rest :
  rep (disk w) l rs rest →
  wp (Log.read_records l key)
    (λ out w', decoded key rs = Ok out ∧ disk w' = disk w) (λ e w', disk w' = disk w) w.
Proof.
  intros Hrep. eapply wp_mono; [eapply (wp_for_each_record _ _ _ _ _ rs rest)|..].
  - apply (rep_named _ _ _ _ Hrep).
  - apply (rep_holds _ _ _ _ Hrep).
  - left. apply (rep_partial _ _ _ _ Hrep).
  - cbv beta. intros out w' (Hd & _ & H). done.
  - cbv beta. intros e w' [Hd _]. done.
Qed.

(** Another name or another file changing leaves a log as it was. *)
Lemma rep_keeps d d' l rs rest :
  rep d l rs rest → names_ok d → keeps (inode (file l)) (path l) d d' → rep d' l rs rest ∧ names_ok d'.
Proof.
  intros [Hn [Hc Hf] Hp Hl] Hok Hk. destruct (Hk Hn Hok) as (Hn' & Hok' & E). split; [|done].
  split; [done|split; [by rewrite E|done]|done|]. by rewrite E.
Qed.

(** ** Compaction *)

Lemma wp_append_each {A B} (step : A → proc (World * Log) StoreError unit) (f : A → B)
    (Inv : list B → World * Log → Prop) (Q : StoreError → World * Log → Prop) records :
  (∀ r recs s, r ∈ records → Inv recs s → wp (step r) (λ _, Inv (recs ++ [f r])) Q s) →
  ∀ recs s, Inv recs s → wp (Log.append_each step records) (λ _, Inv (recs ++ (f <$> records))) Q s.
Proof.
  induction records as [|r records IH]; intros Hstep recs s Hs; cbn [Log.append_each].
  - apply wp_ret. by rewrite app_nil_r.
  - apply wp_bind. eapply wp_mono; [apply Hstep; [apply list_elem_of_here|done]| |done].
    intros [] s' Hs'. rewrite fmap_cons, cons_middle, app_assoc. apply IH; [|done].
    intros. apply Hstep; [by apply list_elem_of_further|done].
Qed.

(** What can keep a compaction from happening. *)
Definition trouble (plain sealed : list (list byte)) : Prop :=
  ¬ quiet ∨ (∃ k, entropy k = None)
  ∨ Exists (λ p, MAX_RECORD_LEN <= Z.of_nat (length p)) plain
  ∨ Exists (λ p, MAX_PLAINTEXT_LEN < Z.of_nat (length p)) sealed.

(** A log under construction in the file [j], beside the file [i] named [q]. *)
Definition building (key : DataKey.t) (i j : nat) (q t : string) (d : Disk) (recs : list Record_)
    (s : World * Log) : Prop :=
  let '(w, l) := s in
  (∃ rs, rep (disk w) l rs [] ∧ decoded key rs = Ok recs)
  ∧ broken l = false ∧ inode (file l) = j ∧ path l = t ∧ keeps i q d (disk w).

Lemma building_plain key i j q t d p recs s :
  i ≠ j → building key i j q t d recs s →
  wp (Log.append_plain p) (λ _, building key i j q t d (recs ++ [mk_record false p]))
    (λ _ '(w, _), keeps i q d (disk w) ∧ (¬ quiet ∨ MAX_RECORD_LEN <= Z.of_nat (length p))) s.
Proof.
  destruct s as [w l]. intros Hij ((rs & Hrep & Hdec) & Hb & Hj & Ht & Hk).
  eapply wp_mono; [apply (wp_write_record _ _ _ _ _ _ Hrep)|..].
  - intros _ [w' l'] (_ & _ & Hb' & Hrep' & Hi' & Hp' & Htouch). split_and!; [|done|congruence..|].
    + eexists. split; [done|]. by apply decoded_plain.
    + etrans; [done|]. rewrite Hj in Htouch. by eapply touches_keeps.
  - intros e [w' l'] [(-> & -> & [[_ ?]|[_ Hf]])|(_ & Hq & _ & _ & Htouch & _)]; [congruence|..].
    + split; [done|]. right. unfold fits in Hf. cbn in Hf. lia.
    + split; [|by left]. etrans; [done|]. rewrite Hj in Htouch. by eapply touches_keeps.
Qed.

Lemma building_sealed key i j q t d p recs s :
  i ≠ j → building key i j q t d recs s →
  wp (Log.append key p) (λ _, building key i j q t d (recs ++ [mk_record true p]))
    (λ _ '(w, _), keeps i q d (disk w)
      ∧ (¬ quiet ∨ (∃ k, entropy k = None) ∨ MAX_PLAINTEXT_LEN < Z.of_nat (length p))) s.
Proof.
  destruct s as [w l]. intros Hij ((rs & Hrep & Hdec) & Hb & Hj & Ht & Hk).
  eapply wp_mono; [apply (wp_append _ _ _ _ _ _ Hrep)|..].
  - intros _ [w' l'] (_ & Hb' & (r & Hr & Hrep') & Hi' & Hp' & Htouch). split_and!; [|done|congruence..|].
    + eexists. split; [done|]. by apply decoded_sealed.
    + etrans; [done|]. rewrite Hj in Htouch. by eapply touches_keeps.
  - intros e [w' l'] [(-> & -> & [[_ ?]|[[_ Hf]|[_ Hf]]])|(_ & Hq & _ & _ & Htouch & _)]; [congruence|..].
    + split; [done|]. right. right. unfold MAX_RECORD_LEN, MAX_PLAINTEXT_LEN in *. lia.
    + split; [done|]. right. destruct Hf; eauto.
    + split; [|by left]. etrans; [done|]. rewrite Hj in Htouch. by eapply touches_keeps.
Qed.

Lemma wp_build_fresh key plain sealed t w i q :
  directory (disk w) !! t = None → q ≠ t → directory (disk w) !! q = Some i → names_ok (disk w) →
  wp (Log.build_fresh key plain sealed t)
    (λ l w', building key i (next_inode (disk w)) q t (disk w)
      ((mk_record false <$> plain) ++ (mk_record true <$> sealed)) (w', l))
    (λ _ w', keeps i q (disk w) (disk w') ∧ trouble plain sealed) w.
Proof.
  intros Ht Hqt Hq Hok. pose proof (Hok _ _ Hq) as Hlt.
  pose proof (wp_open_fresh t w Ht) as Ho. unfold wp, Log.build_fresh in *.
  destruct (Log.open t w) as [[fresh|e] w1]; [|destruct Ho as (_ & ? & Hk); unfold trouble; auto].
  destruct Ho as (Hrep & Hb & Hp & Hi & Hk & _).
  assert (building key i (next_inode (disk w)) q t (disk w) [] (w1, fresh)) as Hb0.
  { split_and!; [by exists []|done..|]. apply Hk. }
  enough (wp (do! Log.append_each Log.append_plain plain in Log.append_each (Log.append key) sealed)
    (λ _, building key i (next_inode (disk w)) q t (disk w) ((mk_record false <$> plain) ++ (mk_record true <$> sealed)))
    (λ _ '(w', _), keeps i q (disk w) (disk w') ∧ trouble plain sealed) (w1, fresh)) as H.
  - unfold wp in H. destruct (bind _ _ (w1, fresh)) as [[[]|e] [w2 l2]]; [|done].
    pose proof (wp_call (λ _ w', disk w' = disk w2) (λ _ w', disk w' = disk w2 ∧ ¬ quiet) w2) as Hc.
    unfold wp, Log.io, map_perr, bind, sync in *.
    destruct (call w2) as [[[]|e] w3]; cbn.
    + rewrite Hc by done. exact H.
    + destruct Hc as [-> Hq']; [done..|]. split; [apply H|by left].
  - apply wp_bind.
    eapply (wp_mono _ _ _ (λ _ '(w', _), keeps i q (disk w) (disk w') ∧ trouble plain sealed)).
    + apply (wp_append_each _ (mk_record false) (building key i (next_inode (disk w)) q t (disk w))) with (recs := []); [|done].
      intros r recs s' Hr Hs'. eapply wp_mono; [apply (building_plain key i (next_inode (disk w))); [lia|done]|done|].
      intros e [w' l'] [? [?|?]]; (split; [done|]); [by left|right; right; left].
      by apply Exists_exists; exists r.
    + cbv beta. intros _ s' Hs'. apply wp_append_each; [|done].
      intros r recs s'' Hr Hs''. eapply wp_mono; [apply (building_sealed key i (next_inode (disk w))); [lia|done]|done|].
      intros e [w' l'] [? [?|[?|?]]]; (split; [done|]); [by left|by right; left|right; right; right].
      by apply Exists_exists; exists r.
    + done.
Qed.

Lemma wp_flush_directory {E} (P : unit → World → Prop) (Q : E → World → Prop) w :
  (∀ w', disk w' = disk w → P tt w') → wp Log.flush_directory P Q w.
Proof.
  intros H. apply wp_bind, wp_attempt. apply wp_bind, wp_call; intros; [apply wp_call; intros|]; try (apply wp_ret, H; congruence).
  all: apply Logger.wp_emit; intros; apply H; congruence.
Qed.

Lemma wp_compact key plain sealed w l rs rest :
  rep (disk w) l rs rest → names_ok (disk w) → Log.with_extension (path l) "compacting" ≠ path l →
  wp (Log.compact key plain sealed)
    (λ _ '(w', l'), path l' = path l ∧ broken l' = false ∧ names_ok (disk w')
      ∧ is_log key (disk w') l' ((mk_record false <$> plain) ++ (mk_record true <$> sealed)))
    (λ _ '(w', l'), l' = l ∧ rep (disk w') l rs rest ∧ names_ok (disk w') ∧ trouble plain sealed)
    (w, l).
Proof.
  intros Hrep Hok Ht. set (t := Log.with_extension (path l) "compacting") in *.
  set (i := inode (file l)). set (q := path l) in *.
  assert (∀ d, keeps i q (disk w) d → rep d l rs rest ∧ names_ok d) as Hkeep
    by (intros d Hd; by apply (rep_keeps (disk w))).
  pose proof (rep_named _ _ _ _ Hrep) as Hq. fold q i in Hq.
  enough (wp (do! Log.io (remove_file t) in
         let! fresh := Log.build_fresh key plain sealed t in
         do! Log.io (rename t q) in
         do! Log.flush_directory in
         ret fresh)
    (λ fresh w', names_ok (disk w') ∧ ∀ flag, is_log key (disk w')
      (mk_log q (file fresh) (count fresh) false flag) ((mk_record false <$> plain) ++ (mk_record true <$> sealed)))
    (λ _ w', keeps i q (disk w) (disk w') ∧ trouble plain sealed) w) as H.
  { unfold wp, Log.compact in *. fold t q. cbv zeta. destruct (bind _ _ w) as [[fresh|e] w'].
    - destruct H as [Hn H]. split_and!; [done..|apply H].
    - destruct H as [Hk Htr]. split; [done|]. apply Hkeep in Hk as [? ?]. done. }
  apply wp_bind, wp_map_perr, wp_remove_file; [|intros w1 -> Hnq; split; [done|by left]].
  intros w1 _ H1.
  assert (keeps i q (disk w) (disk w1)) as Hk1.
  { intros _ _. rewrite H1. split_and!; [cbn; by rewrite lookup_delete_ne by congruence| |done].
    intros q' j. cbn. intros [_ Hj]%lookup_delete_Some. by apply Hok in Hj. }
  destruct (Hk1 Hq Hok) as (Hq1 & Hok1 & _).
  assert (directory (disk w1) !! t = None) as Ht1 by (rewrite H1; cbn; apply lookup_delete_eq).
  apply wp_bind. eapply wp_mono; [apply (wp_build_fresh key plain sealed t w1 i q); done|..].
  2: { cbv beta. intros e w2 [Hk Htr]. split; [by etrans|done]. }
  cbv beta. intros fresh w2 ((rs' & Hrep' & Hdec) & Hb & Hj & Hp & Hk).
  pose proof (rep_named _ _ _ _ Hrep') as Ht2. rewrite Hp in Ht2.
  apply wp_bind, wp_map_perr, (wp_rename _ _ _ _ _ _ Ht2).
  2: { intros w3 -> Hnq. split; [by etrans|by left]. }
  intros w3 H3. apply wp_bind.
  destruct (Hk Hq1 Hok1) as (Hq2 & Hok2 & _).
  assert (∀ w', disk w' = disk w3 → names_ok (disk w') ∧ ∀ flag, is_log key (disk w')
      (mk_log q (file fresh) (count fresh) false flag) ((mk_record false <$> plain) ++ (mk_record true <$> sealed))) as Hdone.
  { intros w' ->. rewrite H3. split.
    - intros q' j. cbn. rewrite lookup_insert_Some, lookup_delete_Some.
      intros [[_ <-]|(_ & _ & ?)]; by eapply Hok2.
    - intros flag. exists rs', []. split; [|done]. destruct Hrep' as [_ Hh Hpart Hlive].
      split; cbn; [by rewrite lookup_insert_eq|done|done|]. intros _. by apply Hlive. }
  apply wp_flush_directory. intros w' Hd. by apply wp_ret, Hdone.
Qed.

(** The same files under another account of the handle. *)
Definition stands (key : DataKey.t) (d : Disk) (p : string) (recs : list Record_) : Prop :=
  ∃ i rs rest, directory d !! p = Some i ∧ holds d i rs rest ∧ partial rest ∧ decoded key rs = Ok recs.

Lemma is_log_stands key d l recs : is_log key d l recs → stands key d (path l) recs.
Proof. intros (rs & rest & [Hn Hh Hp _] & Hd). by exists (inode (file l)), rs, rest. Qed.

Lemma wp_reopen key p w recs :
  stands key (disk w) p recs →
  wp (Log.open p)
    (λ l w', path l = p ∧ broken l = false ∧ is_log key (disk w') l recs)
    (λ e w', faulted e ∧ stands key (disk w') p recs) w.
Proof.
  intros (i & rs & rest & Hn & Hh & Hp & Hd).
  eapply wp_mono; [by apply (wp_open_existing p w i rs rest)|..]; cbv beta.
  - intros l w' (Hrep & Hb & Hpath & _ & _). split_and!; [done..|]. by exists rs, [].
  - intros e w' (He & (Hdir & _) & Hh'). split; [done|].
    destruct Hh'; eexists i, rs, _; rewrite Hdir; split_and!; (done || apply partial_nil).
Qed.

Lemma append_refines_eq key p w l recs :
  is_log key (disk w) l recs →
  wp (Log.append key p)
    (λ _ '(w', l'), path l' = path l ∧ broken l = false ∧ broken l' = false
      ∧ is_log key (disk w') l' (recs ++ [mk_record true p]) ∧ (names_ok (disk w) → names_ok (disk w')))
    (λ e '(w', l'), path l' = path l ∧ (names_ok (disk w) → names_ok (disk w')) ∧
      ((disk w' = disk w ∧ l' = l ∧ refused p w l e)
      ∨ (e = Io IoFailed ∧ ¬ quiet ∧ broken l = false ∧ broken l' = true
        ∧ (is_log key (disk w') l' recs ∨ is_log key (disk w') l' (recs ++ [mk_record true p])))))
    (w, l).
Proof.
  intros (rs & rest & Hrep & Hd). eapply wp_mono; [apply (wp_append key p w l rs rest Hrep)|..].
  - intros _ [w' l'] (Hb0 & Hb & (r & Hr & Hrep') & _ & Hp & Ht). split_and!; [done..| |by eapply touches_names_ok].
    eexists _, []. split; [done|]. by apply decoded_sealed.
  - intros e [w' l'] [(Hd' & -> & Href)|(-> & Hq & Hb0 & -> & Ht & Hr)].
    + rewrite Hd'. split_and!; [done..|]. left. by split_and!.
    + split_and!; [done|by eapply touches_names_ok|]. right. split_and!; [done..|].
      destruct Hr as [[rest' Hr]|(r & Hr & Hrep')]; [left; by exists rs, rest'|right].
      eexists _, []. split; [done|]. by apply decoded_sealed.
Qed.

(** ** Claims *)

(** C26: whatever may fail on the way, appending to the log is appending
    to the list of records it stands for. If it reports success the new record is
    there and the log is usable. If it reports anything else, then either nothing
    changed (the log was broken, the payload too large, or there was no
    randomness), or writing failed, the log refuses further writes, and the file
    holds the old records or the old records and the new one: never anything else. *)
Theorem append_refines key p w l recs :
  is_log key (disk w) l recs →
  wp (Log.append key p)
    (λ _ '(w', l'), path l' = path l ∧ broken l' = false ∧ is_log key (disk w') l' (recs ++ [mk_record true p]))
    (λ e '(w', l'), (disk w' = disk w ∧ l' = l ∧ refused p w l e)
      ∨ (e = Io IoFailed ∧ ¬ quiet ∧ broken l' = true
        ∧ (is_log key (disk w') l' recs ∨ is_log key (disk w') l' (recs ++ [mk_record true p]))))
    (w, l).
Proof.
  intros H. eapply wp_mono; [by apply append_refines_eq|..].
  - intros _ [w' l']. tauto.
  - intros e [w' l']. tauto.
Qed.

(** Reading the log back gives exactly the records it stands for,
    the sealed ones decrypted, in order, and the plain ones alone without a key;
    it fails only if the system does, and changes nothing. *)
Theorem read_back key w l recs :
  is_log key (disk w) l recs →
  wp (Log.read_records l key) (λ out w', out = recs ∧ disk w' = disk w) (λ e w', faulted e ∧ disk w' = disk w) w
  ∧ wp (Log.read_plain l) (λ out w', out = plains recs ∧ disk w' = disk w) (λ e w', faulted e ∧ disk w' = disk w) w.
Proof.
  intros H. split; [by apply wp_read_records|]. destruct H as (rs & rest & Hrep & Hd).
  rewrite (decoded_plains _ _ _ Hd). by eapply wp_read_plain.
Qed.

(** C27: a process that dies during or after an append, at whatever byte,
    and reopens the log finds all the records from before it and nothing but the
    new one besides; and finds the new one if the append reported success. *)
Theorem crash_safe key p w l recs :
  is_log key (disk w) l recs →
  let '(outcome, (w1, _)) := Log.append key p (w, l) in
  wp (Log.open (path l))
    (λ l2 w2, broken l2 = false ∧
      (is_log key (disk w2) l2 (recs ++ [mk_record true p]) ∨ is_ok outcome = false ∧ is_log key (disk w2) l2 recs))
    (λ e _, faulted e) w1.
Proof.
  intros H. pose proof (append_refines_eq key p w l recs H) as Ha. unfold wp at 1 in Ha.
  assert (∀ w1 l1 recs' (P : Log → World → Prop), path l1 = path l → is_log key (disk w1) l1 recs' →
    (∀ l2 w2, broken l2 = false → is_log key (disk w2) l2 recs' → P l2 w2) →
    wp (Log.open (path l)) P (λ e _, faulted e) w1) as Ho.
  { intros w1 l1 recs' P Hp Hl HP. apply is_log_stands in Hl. rewrite Hp in Hl.
    eapply wp_mono; [by apply wp_reopen|..]; cbv beta; [|tauto]. intros l2 w2 (_ & ? & ?). auto. }
  destruct (Log.append key p (w, l)) as [[[]|e] [w1 l1]].
  - destruct Ha as (Hp & _ & _ & Ha & _). eapply Ho; eauto.
  - destruct Ha as (Hp & _ & [(Hd & -> & _)|(_ & _ & _ & _ & [Ha|Ha])]); eapply Ho; eauto.
    by rewrite Hd.
Qed.

(** A file in which some record is followed by a length field that
    no write produces has been edited; it is never opened and never read, and the
    refusal names the place. Nothing is truncated away. *)
Theorem edited_is_refused p w i rs rest {A} (visit : nat → byte → list byte → A → result StoreError A) acc :
  directory (disk w) !! p = Some i → holds (disk w) i rs rest → impossible rest →
  wp (Log.open p) (λ _ _, False)
    (λ e w', disk w' = disk w ∧ ((∃ why, e = Corrupt (HEADER_LEN + length (frames rs)) why) ∨ faulted e)) w
  ∧ wp (Log.for_each_record p visit acc) (λ _ _, False)
    (λ e w', disk w' = disk w ∧ ((∃ why, e = Corrupt (HEADER_LEN + length (frames rs)) why)
      ∨ visit_all visit 0 rs acc = Err e ∨ faulted e)) w.
Proof.
  intros Hp Hh Him. pose proof (not_partial_impossible rest) as Hnp. split.
  - pose proof Hh as [Hc _]. assert (exists_path p w = true) as Hex by (unfold exists_path; by rewrite Hp).
    apply wp_bind, wp_gets, wp_bind, wp_map_perr, wp_open_create; [|by rewrite Hp|by_disk].
    intros w1 i' Hi H1. assert (i' = i) as -> by congruence. rewrite Hex.
    apply wp_bind, wp_map_perr, wp_file_len; [|by_disk].
    intros w2 H2. rewrite H1, Hc. change (_ =? 0)%nat with false. cbv iota.
    apply wp_bind, wp_check_header; [rewrite H2, H1; by eapply holds_header| |].
    2: { intros w' e Hd He. split; [congruence|by right]. }
    intros w3 H3. apply wp_bind. assert (disk w3 = disk w) as E3 by congruence.
    eapply wp_mono; [eapply (wp_scan_loop _ _ _ _ w3 rs rest)|..]; cbv beta; rewrite ?E3.
    + by apply holds_rest.
    + apply Hh.
    + by right.
    + by eapply holds_fuel.
    + intros [n g] w' (_ & ? & _). tauto.
    + intros e w' [? [[_ ?]|?]]; auto.
  - eapply wp_mono; [by apply (wp_for_each_record p visit acc w i rs rest); auto|..]; cbv beta; [tauto|].
    intros e w' (? & [?|[[_ ?]|?]]); auto.
Qed.

(** C28: rewriting the log is all or nothing. If it succeeds the file
    under the log's name holds exactly the given records, sealed under the given
    key. If it fails, at whatever step, the old file is still there under its
    name with every record it had, and the log still works; and it fails only for
    want of the system, of randomness, or for a record that is too large. *)
Theorem compaction_atomic key plain sealed w l rs rest :
  rep (disk w) l rs rest → names_ok (disk w) → Log.with_extension (path l) "compacting" ≠ path l →
  wp (Log.compact key plain sealed)
    (λ _ '(w', l'), path l' = path l ∧ broken l' = false ∧ names_ok (disk w')
      ∧ is_log key (disk w') l' ((mk_record false <$> plain) ++ (mk_record true <$> sealed)))
    (λ _ '(w', l'), l' = l ∧ rep (disk w') l rs rest ∧ names_ok (disk w') ∧ trouble plain sealed)
    (w, l).
Proof. apply wp_compact. Qed.

End LogSpec.
End LogSpec.

(** ** The claims at a concrete log

    The toy cipher, a cooperative system, one file. *)

Module LogDemo.
Export Checksum PlainTexts.

#[export] Instance env : Env := calm (λ k i, byte_of_Z (Z.of_nat (k + i))) 0.

Definition key : DataKey.t := DataKey.mk (replicate 32 x07).
Definition contents0 : list byte := Log.header ++ LogSpec.frames [(KIND_PLAIN, [x01; x02])].
Definition world : World := mk_world 0 0 0 (put 0 contents0 (mk_disk ∅ {["vault.log" := 0%nat]} 1)) 2 [].
Definition log : Log := mk_log "vault.log" (mk_handle 0 (length contents0)) 1 false false.

Lemma names : LogSpec.names_ok (disk world).
Proof. intros p i. cbn. rewrite lookup_singleton_Some. intros [_ <-]. lia. Qed.

Lemma rep_log : LogSpec.rep (disk world) log [(KIND_PLAIN, [x01; x02])] [].
Proof.
  split; [vm_compute; done| |apply LogSpec.partial_nil|vm_compute; done].
  split; [vm_compute; done|]. constructor; [done|constructor].
Qed.

Lemma is_log : LogSpec.is_log key (disk world) log [mk_record false [x01; x02]].
Proof. exists [(KIND_PLAIN, [x01; x02])], []. split; [apply rep_log|vm_compute; done]. Qed.

Lemma append_refines_witness :
  wp (Log.append key [x2a])
    (λ _ '(w', l'), path l' = path log ∧ broken l' = false
      ∧ LogSpec.is_log key (disk w') l' [mk_record false [x01; x02]; mk_record true [x2a]])
    (λ _ _, False) (world, log).
Proof.
  pose proof (LogSpec.append_refines key [x2a] world log _ is_log) as H. revert H.
  unfold wp. destruct (Log.append key [x2a] (world, log)) as [[u|e] [w' l']] eqn:E; [done|].
  vm_compute in E. discriminate E.
Defined.

Lemma read_back_witness :
  ∃ w', Log.read_records log key world = (Ok [mk_record false [x01; x02]], w') ∧ disk w' = disk world.
Proof.
  destruct (LogSpec.read_back key world log _ is_log) as [H _]. revert H. unfold wp.
  destruct (Log.read_records log key world) as [[out|e] w'] eqn:E; [|vm_compute in E; discriminate E].
  intros [-> H]. by exists w'.
Defined.

Lemma crash_safe_witness :
  let '(_, (w1, _)) := Log.append key [x2a] (world, log) in
  wp (Log.open "vault.log")
    (λ l2 w2, LogSpec.is_log key (disk w2) l2 [mk_record false [x01; x02]; mk_record true [x2a]]) (λ _ _, False) w1.
Proof.
  pose proof (LogSpec.crash_safe key [x2a] world log _ is_log) as H. revert H.
  destruct (Log.append key [x2a] (world, log)) as [r [w1 l1]] eqn:E.
  assert (is_ok r = true) as Hr by (apply (f_equal (λ x, is_ok x.1)) in E; cbn [fst] in E; rewrite <- E; vm_compute; done).
  intros H. eapply wp_mono; [exact H|..]; cbv beta.
  - intros l2 w2 (_ & [?|[? _]]); [done|congruence].
  - intros e _ [Hq _]. by apply Hq.
Defined.

Lemma edited_is_refused_witness :
  let w := mk_world 0 0 0 (put 0 (contents0 ++ [x00; x00; x00; x00]) (disk world)) 2 [] in
  wp (Log.open "vault.log") (λ _ _, False) (λ e w', disk w' = disk w ∧ ∃ why, e = Corrupt 15 why) w.
Proof.
  intros w.
  destruct (LogSpec.edited_is_refused "vault.log" w 0 [(KIND_PLAIN, [x01; x02])] [x00; x00; x00; x00]
    Log.visit_plain []) as [H _].
  - done.
  - split; [vm_compute; done|]. constructor; [done|constructor].
  - split; [vm_compute; lia|left; vm_compute; done].
  - eapply wp_mono; [exact H|..]; cbv beta; [done|].
    intros e w' (? & [?|[Hq _]]); [done|]. by destruct Hq.
Defined.

Lemma compaction_atomic_witness :
  wp (Log.compact key [[x09]] [[x2a]; [x2b]])
    (λ _ '(w', l'), LogSpec.is_log key (disk w') l' [mk_record false [x09]; mk_record true [x2a]; mk_record true [x2b]])
    (λ _ _, False) (world, log).
Proof.
  assert (Log.with_extension (path log) "compacting" ≠ path log) as Hn by (vm_compute; discriminate).
  pose proof (LogSpec.compaction_atomic key [[x09]] [[x2a]; [x2b]] world log _ _ rep_log names Hn) as H.
  eapply wp_mono; [apply H|..].
  - intros _ [w' l']. cbn. tauto.
  - intros e [w' l'] (_ & _ & _ & Ht). clear H. destruct Ht as [Hq|[[k Hk]|[Hp|Hs]]].
    + destruct Hq. intros k. reflexivity.
    + discriminate Hk.
    + apply Exists_exists in Hp as (p & Hp & Hl). apply list_elem_of_singleton in Hp as ->.
      unfold MAX_RECORD_LEN in Hl. cbn [length] in Hl. lia.
    + apply Exists_exists in Hs as (p & Hp & Hl). assert (length p = 1%nat) as E by (by apply list_elem_of_In in Hp as [<-|[<-|[]]]).
      unfold MAX_PLAINTEXT_LEN in Hl. rewrite E in Hl. lia.
Defined.
End LogDemo.
