(* ===== verification/Barrier.v ===== *)
(** * The barrier record

    Models [crates/ls-server/src/barrier.rs]: the one record stored in the clear,
    holding the root key wrapped by the master key. *)

From S2P Require Import Prelude Text Encoding Timestamp JsonValue JsonParser World Aead Event.
From Stdlib Require Import Strings.Byte.

Definition BARRIER_FORMAT : Z := 1.

Module Barrier.

(** [threshold] and [shares] are [u8]s. *)
Record t := mk {
  threshold : Z;
  shares : Z;
  root_key : Sealed.t;
  created_at : Timestamp.t;
}.

#[global] Instance t_eq_dec : EqDecision t.
Proof. solve_decision. Defined.

Definition context : Aad.t := Aad.key_wrap "root-key" "barrier".

Definition to_value (self : t) : Value :=
  Object [("type", Str "barrier"); ("v", Int BARRIER_FORMAT);
          ("threshold", Int (threshold self)); ("shares", Int (shares self));
          ("root_key_nonce", Str (hex.encode (Sealed.nonce (root_key self))));
          ("root_key_ciphertext", Str (hex.encode (Sealed.ciphertext (root_key self))));
          ("created_at", time_value (created_at self))].

Definition to_bytes (self : t) : list byte := as_bytes (Value.to_string (to_value self)).

Definition small (value : Value) (name : string) : result string Z :=
  ok_or (Value.get_i64 value name ≫= λ n, if in_u8 n then Some n else None) "bad share count".

Definition blob (value : Value) (name : string) : result string (list byte) :=
  ok_or (Value.get_str value name ≫= hex.decode) "bad key material".

Definition from_value (value : Value) : result string t :=
  if negb (bool_decide (Value.get_str value "type" = Some "barrier")) then Err "not a barrier record"
  else if negb (bool_decide (Value.get_i64 value "v" = Some BARRIER_FORMAT))
  then Err "barrier written in a format this build does not know"
  else
    let? threshold := small value "threshold" in
    let? shares := small value "shares" in
    let? nonce := blob value "root_key_nonce" in
    let? ciphertext := blob value "root_key_ciphertext" in
    let? created_at := ok_or (Value.get_str value "created_at" ≫= Timestamp.parse_rfc3339) "bad timestamp" in
    Ok (mk threshold shares (Sealed.mk nonce ciphertext) created_at).

Definition from_bytes (bytes : list byte) : result string t :=
  let? text := ok_or (from_utf8 bytes) "not UTF-8" in
  let? value := map_err (λ _, "not JSON") (parse text) in
  from_value value.

(** The invariants of the Rust types of the fields. *)
Definition wf (self : t) : Prop :=
  in_u8 (threshold self) = true ∧ in_u8 (shares self) = true ∧ Timestamp.wf (created_at self).

Lemma in_u8_i64 n : in_u8 n = true → in_i64 n = true.
Proof. unfold in_u8, in_i64, u8_max, i64_min, i64_max. lia. Qed.

Lemma plain_barrier self : wf self → plain 1 (to_value self).
Proof. intros (Ht%in_u8_i64 & Hs%in_u8_i64 & Hc). unfold to_value. plain_fields. Qed.

Lemma small_get v name n : Value.get v name = Some (Int n) → in_u8 n = true → small v name = Ok n.
Proof. intros H Hn. unfold small, Value.get_i64. rewrite H. cbn. by rewrite Hn. Qed.

Lemma blob_get v name bs : Value.get v name = Some (Str (hex.encode bs)) → blob v name = Ok bs.
Proof.
  intros H. unfold blob, Value.get_str. rewrite H.
  change (ok_or (hex.decode (hex.encode bs)) "bad key material" = Ok bs). by rewrite hex.hex_decode_encode.
Qed.

Lemma barrier_from_to_bytes self : wf self → from_bytes (to_bytes self) = Ok self.
Proof.
  intros Hw. unfold from_bytes, to_bytes. pose proof (plain_barrier self Hw) as Hp.
  rewrite from_utf8_as_bytes by (by eapply plain_is_str). cbn [ok_or res_bind].
  rewrite (plain_parse 1) by (done || unfold MAX_DEPTH; lia). cbn [map_err res_bind].
  destruct Hw as (Ht & Hs & Hc). unfold from_value.
  change (Value.get_str (to_value self) "type") with (Some "barrier").
  change (Value.get_i64 (to_value self) "v") with (Some BARRIER_FORMAT).
  rewrite !bool_decide_true by done. cbn [negb].
  rewrite (small_get _ "threshold" (threshold self)), (small_get _ "shares" (shares self)) by done.
  cbn [res_bind].
  rewrite (blob_get _ "root_key_nonce" (Sealed.nonce (root_key self))) by done. cbn [res_bind].
  rewrite (blob_get _ "root_key_ciphertext" (Sealed.ciphertext (root_key self))) by done. cbn [res_bind].
  change (Value.get_str (to_value self) "created_at") with (Some (Timestamp.to_rfc3339 (created_at self))).
  cbn [mbind option_bind]. rewrite Timestamp.parse_to_rfc3339_eq by done. cbn [ok_or res_bind].
  by destruct self as [? ? [] ?].
Qed.

(** A share count that is read is one a vault can have been split into. *)
Lemma small_u8 v name n : small v name = Ok n → in_u8 n = true.
Proof.
  unfold small. rewrite ok_or_ok. destruct (Value.get_i64 v name) as [m|]; cbn; [|done].
  destruct (in_u8 m) eqn:E; congruence.
Qed.

Lemma from_bytes_u8 bytes self :
  from_bytes bytes = Ok self → in_u8 (threshold self) = true ∧ in_u8 (shares self) = true.
Proof.
  unfold from_bytes. rewrite res_bind_ok.
  intros (text & _ & H). rewrite res_bind_ok in H. destruct H as (value & _ & H). unfold from_value in H.
  do 2 (destruct (negb _); [done|]).
  repeat (rewrite res_bind_ok in H; destruct H as (? & ? & H)). injection H as <-.
  split; by eapply small_u8.
Qed.

(** A barrier reads back from its own bytes, and whatever bytes read as a
    barrier has share counts that are [u8]s. *)
Theorem barrier_roundtrip :
  (∀ self, wf self → from_bytes (to_bytes self) = Ok self)
  ∧ ∀ bytes self, from_bytes bytes = Ok self → in_u8 (threshold self) = true ∧ in_u8 (shares self) = true.
Proof.
  split; [apply barrier_from_to_bytes|apply from_bytes_u8].
Qed.
End Barrier.
