(* ===== verification/Validate.v ===== *)
(** * Input rules

    Models [crates/ls-server/src/validate.rs] and the error type of
    [crates/ls-server/src/vault.rs], which it reports with. *)

From S2P Require Import Prelude Text World Event.
From Stdlib Require Import Strings.Byte.

Module VaultError.
Inductive t :=
| Sealed
| AlreadyInitialized
| NotInitialized
| UnsealFailed
| UnreadableBarrier (why : string)
| InitIncomplete
| BadShare
| BadCredentials
| Forbidden
| NotFound (what : string)
| Conflict (what : string)
| Invalid (what : string)
| ValueTooLarge (len limit : Z)
| Crypto
| Store (error : StoreError).

#[global] Instance t_eq_dec : EqDecision t.
Proof. solve_decision. Defined.
End VaultError.

Definition MAX_SLUG : Z := 64.
Definition MAX_KEY : Z := 256.
Definition MAX_EMAIL : Z := 254.

Module validate.

Definition slug_byte (b : byte) : bool := is_ascii_lowercase b || is_ascii_digit b || bool_decide (b = "-"%byte).

Definition slug (input what : string) : result VaultError.t string :=
  let invalid := VaultError.Invalid what in
  if bool_decide (input = "") || (MAX_SLUG <? str_len input) then Err invalid
  else if starts_with "-" input || ends_with_byte "-" input then Err invalid
  else if negb (forallb slug_byte (as_bytes input)) then Err invalid
  else Ok input.

Definition key_byte (b : byte) : bool :=
  is_ascii_alphanumeric b || bool_decide (b = "_"%byte) || bool_decide (b = "."%byte) || bool_decide (b = "-"%byte).

Definition secret_key (input : string) : result VaultError.t string :=
  let invalid := VaultError.Invalid "secret key" in
  if bool_decide (input = "") || (MAX_KEY <? str_len input) then Err invalid
  else if negb (forallb key_byte (as_bytes input)) then Err invalid
  else Ok input.

Definition email_byte_bad (b : byte) : bool :=
  (Z_of_byte b <=? Z_of_byte " "%byte) || bool_decide (b = x7f).

Definition email (input : string) : result VaultError.t string :=
  let trimmed := to_ascii_lowercase (trim input) in
  let invalid := VaultError.Invalid "email" in
  if (str_len trimmed <? 3) || (MAX_EMAIL <? str_len trimmed) then Err invalid else
  match split_once "@" trimmed with
  | None => Err invalid
  | Some (local, domain) =>
    if bool_decide (local = "") || bool_decide (domain = "") || contains_byte "@" domain then Err invalid
    else if existsb email_byte_bad (as_bytes trimmed) then Err invalid
    else Ok trimmed
  end.
End validate.

(** ** Trimming and lowering commute and are idempotent *)

Definition lower_char (c : Z) : Z := if (65 <=? c) && (c <=? 90) then c + 32 else c.

Lemma lower_byte_high b : 0x80 <= Z_of_byte b → lower_byte b = b.
Proof.
  intros H. unfold lower_byte, is_ascii_uppercase, byte_between.
  destruct (_ && _) eqn:E; [|done]. bool_arith. cbn in *. lia.
Qed.

Lemma lower_encode_char c :
  is_scalar c = true → lower_byte <$> encode_char c = encode_char (lower_char c).
Proof.
  intros Hc%is_scalar_spec. unfold encode_char.
  destruct (decide (c < 0x80)) as [Hlt|Hge].
  - assert (lower_char c < 0x80) by (unfold lower_char; split_match; bool_arith; lia).
    rewrite !(proj2 (Z.ltb_lt _ _)) by done. cbn. f_equal. unfold lower_byte, lower_char, is_ascii_uppercase, byte_between.
    rewrite Z_of_byte_of_Z, Z.mod_small by lia. cbn. destruct (_ && _); [|done]. done.
  - assert (lower_char c = c) as ->.
    { unfold lower_char. rewrite (proj2 (Z.leb_gt c 90)), andb_false_r by lia. done. }
    repeat case_match; bool_arith; try lia; cbn;
      repeat (rewrite lower_byte_high by (rewrite Z_of_byte_of_Z; Z.to_euclidean_division_equations; lia)); done.
Qed.

Lemma lower_encode_chars cs :
  forallb is_scalar cs = true → lower_byte <$> encode_chars cs = encode_chars (lower_char <$> cs).
Proof.
  induction cs as [|c cs IH]; intros H; [done|]. cbn [forallb] in H. apply andb_prop in H as [Hc Hcs].
  rewrite fmap_cons, !encode_chars_cons, fmap_app, IH, lower_encode_char by done. done.
Qed.

Lemma lower_char_scalar c : is_scalar c = true → is_scalar (lower_char c) = true.
Proof. rewrite !is_scalar_spec. unfold lower_char. split_match; bool_arith; lia. Qed.

Lemma lower_chars_scalar cs : forallb is_scalar cs = true → forallb is_scalar (lower_char <$> cs) = true.
Proof.
  induction cs as [|c cs IH]; [done|]. cbn. intros [Hc Hcs]%andb_prop. rewrite IH by done.
  by rewrite lower_char_scalar.
Qed.

Lemma to_ascii_lowercase_chars cs :
  forallb is_scalar cs = true → to_ascii_lowercase (of_chars cs) = of_chars (lower_char <$> cs).
Proof.
  intros H. unfold to_ascii_lowercase, of_chars. by rewrite as_bytes_of_bytes, lower_encode_chars.
Qed.

Lemma lower_char_idemp c : lower_char (lower_char c) = lower_char c.
Proof. unfold lower_char. split_match; bool_arith; lia. Qed.

Lemma lower_char_whitespace c : is_whitespace (lower_char c) = is_whitespace c.
Proof.
  unfold lower_char. destruct (_ && _) eqn:E; [|done]. bool_arith. unfold is_whitespace.
  repeat match goal with |- context [(?a =? ?b)] => destruct (Z.eqb_spec a b); [lia|]
  | |- context [(?a <=? ?b)] => destruct (Z.leb_spec a b); try lia end; done.
Qed.

Lemma drop_while_map {A B} (f : A → B) p q l :
  (∀ x, q (f x) = p x) → drop_while q (f <$> l) = f <$> drop_while p l.
Proof. intros H. induction l as [|x l IH]; [done|]. cbn. rewrite H. by destruct (p x). Qed.

Lemma drop_while_idemp {A} (p : A → bool) l : drop_while p (drop_while p l) = drop_while p l.
Proof. induction l as [|x l IH]; [done|]. cbn. destruct (p x) eqn:E; [done|]. cbn. by rewrite E. Qed.

Lemma drop_while_head_inv {A} (p : A → bool) l x r : drop_while p l = x :: r → p x = false.
Proof. induction l as [|y l IH]; [done|]. cbn. destruct (p y) eqn:E; [done|]. by intros [= <- <-]. Qed.

Lemma drop_while_suffix {A} (p : A → bool) l : ∃ d, l = d ++ drop_while p l.
Proof.
  induction l as [|x l [d IH]]; [by exists []|]. cbn. destruct (p x); [|by exists []].
  exists (x :: d). cbn. by rewrite <- IH.
Qed.

(** Dropping at the back keeps the front. *)
Lemma trim_with_idemp {A} (p : A → bool) l : trim_with p (trim_with p l) = trim_with p l.
Proof.
  unfold trim_with. set (a := drop_while p l).
  assert (drop_while p (reverse (drop_while p (reverse a))) = reverse (drop_while p (reverse a))) as ->.
  { destruct (reverse (drop_while p (reverse a))) as [|x r] eqn:E; [done|]. apply drop_while_head.
    destruct (drop_while_suffix p (reverse a)) as [d Hd].
    apply (f_equal reverse) in Hd. rewrite reverse_involutive, reverse_app, E in Hd. cbn in Hd.
    by eapply drop_while_head_inv. }
  by rewrite reverse_involutive, drop_while_idemp.
Qed.

Lemma trim_with_map {A B} (f : A → B) p q l :
  (∀ x, q (f x) = p x) → trim_with q (f <$> l) = f <$> trim_with p l.
Proof.
  intros H. unfold trim_with. rewrite (drop_while_map f p q) by done.
  rewrite <- fmap_reverse, (drop_while_map f p q) by done. by rewrite fmap_reverse.
Qed.

Lemma drop_while_forallb {A} (p q : A → bool) l : forallb q l = true → forallb q (drop_while p l) = true.
Proof.
  destruct (drop_while_suffix p l) as [d Hd]. intros H. rewrite Hd, forallb_app in H. by apply andb_prop in H as [_ ?].
Qed.

Lemma forallb_reverse {A} (q : A → bool) l : forallb q l = true → forallb q (reverse l) = true.
Proof. rewrite !forallb_forall. intros H x Hx. apply H. by rewrite <- list_elem_of_In, <- elem_of_reverse, list_elem_of_In. Qed.

Lemma trim_with_forallb {A} (p q : A → bool) l : forallb q l = true → forallb q (trim_with p l) = true.
Proof. intros H. apply forallb_reverse, drop_while_forallb, forallb_reverse, drop_while_forallb, H. Qed.

(** The normal form of an email address or a rate-limiter key. *)
Definition normal_form (s : string) : string := to_ascii_lowercase (trim s).

Lemma normal_form_chars s : normal_form s = of_chars (lower_char <$> trim_with is_whitespace (chars s)).
Proof.
  unfold normal_form, trim. apply to_ascii_lowercase_chars, trim_with_forallb, chars_scalar.
Qed.

Lemma normal_form_idemp s : normal_form (normal_form s) = normal_form s.
Proof.
  assert (forallb is_scalar (trim_with is_whitespace (chars s)) = true) as Hs
    by apply trim_with_forallb, chars_scalar.
  rewrite (normal_form_chars s), normal_form_chars, chars_of_chars by by apply lower_chars_scalar.
  rewrite (trim_with_map lower_char is_whitespace) by apply lower_char_whitespace.
  rewrite trim_with_idemp, <- list_fmap_compose. f_equal. apply list_fmap_ext. intros _ c _. apply lower_char_idemp.
Qed.

Lemma is_str_normal_form s : is_str (normal_form s) = true.
Proof. rewrite normal_form_chars. apply is_str_of_chars, lower_chars_scalar, trim_with_forallb, chars_scalar. Qed.

(** ** What is accepted *)

Lemma email_ok_normal input e : validate.email input = Ok e → e = normal_form input.
Proof.
  unfold validate.email. fold (normal_form input). destruct (_ || _); [done|].
  destruct (split_once _ _) as [[l d]|]; [|done]. destruct (_ || _); [done|]. destruct (existsb _ _); congruence.
Qed.

(** An accepted address is its own normal form (trimmed, ASCII letters in
    lower case), so it is accepted again as itself and two spellings that differ
    only in case or surrounding space name one account; it is 3 to 254 bytes
    long, with exactly one [@], something on both sides, and no control character
    or space. *)
Theorem email_canonical input e :
  validate.email input = Ok e →
  e = normal_form input ∧ validate.email e = Ok e ∧ is_str e = true
  ∧ 3 <= str_len e <= MAX_EMAIL
  ∧ (∃ l d, as_bytes e = (l ++ "@"%byte :: d) ∧ l ≠ [] ∧ d ≠ [] ∧ ("@"%byte ∉ l) ∧ ("@"%byte ∉ d))
  ∧ Forall (λ b, Z_of_byte " "%byte < Z_of_byte b ∧ b ≠ x7f) (as_bytes e).
Proof.
  intros H. pose proof (email_ok_normal _ _ H) as ->. set (e := normal_form input) in *.
  assert (normal_form e = e) as Hi by apply normal_form_idemp.
  split; [done|]. unfold validate.email in H |- *. fold (normal_form input) (normal_form e) in *.
  fold e in H. rewrite Hi. split; [exact H|]. split; [apply is_str_normal_form|].
  destruct (_ || _) eqn:El in H; [done|]. destruct (split_once _ e) as [[l d]|] eqn:Es in H; [|done].
  destruct (_ || _) eqn:Ed in H; [done|]. destruct (existsb _ _) eqn:Eb in H; [done|].
  bool_arith. split; [lia|]. split.
  - unfold split_once in Es. destruct (split_once_bytes _ _) as [[x y]|] eqn:E; [|done].
    apply split_once_bytes_some in E as [E Hx]. injection Es as <- <-. exists x, y.
    repeat match goal with H : bool_decide _ = false |- _ => apply bool_decide_eq_false in H end.
    split_and!; [done|by intros ->|by intros ->|done|]. intros Hy.
    match goal with H : contains_byte _ _ = false |- _ => rename H into Hc end.
    unfold contains_byte in Hc. rewrite as_bytes_of_bytes in Hc.
    assert (existsb (λ b, bool_decide (b = "@"%byte)) y = true) as Ht; [|congruence].
    apply existsb_exists. exists "@"%byte. split; [by apply list_elem_of_In|done].
  - apply Forall_forall. intros b Hb. destruct (validate.email_byte_bad b) eqn:E.
    + assert (existsb validate.email_byte_bad (as_bytes e) = true) as Ht; [|congruence].
      apply existsb_exists. exists b. split; [by apply list_elem_of_In|done].
    + unfold validate.email_byte_bad in E. bool_arith.
      match goal with H : bool_decide _ = false |- _ => apply bool_decide_eq_false in H end. by split.
Qed.

Lemma email_canonical_witness :
  validate.email " Dev@Example.COM " = Ok "dev@example.com" ∧ validate.email "dev@example.com" = Ok "dev@example.com".
Proof.
  assert (validate.email " Dev@Example.COM " = Ok "dev@example.com") as H by (vm_compute; reflexivity).
  split; [exact H|]. apply (email_canonical _ _ H).
Defined.

Lemma starts_with_dash s : starts_with "-" s = true ↔ ∃ r, as_bytes s = "-"%byte :: r.
Proof.
  unfold starts_with, strip_prefix. change (as_bytes "-") with ["-"%byte].
  destruct (strip_prefix_bytes _ _) as [r|] eqn:E; cbn.
  - apply strip_prefix_bytes_some in E. split; [eauto|done].
  - split; [done|]. intros [r Hr]. by rewrite Hr in E.
Qed.

(** The names of projects, environments and secrets. A slug is accepted,
    and unchanged, exactly when it is 1 to 64 lowercase letters, digits and
    dashes with no dash at either end; a secret key exactly when it is 1 to 256
    letters, digits, underscores, dots and dashes. *)
Theorem names_accepted input what s :
  (validate.slug input what = Ok s ↔
    s = input ∧ 0 < str_len input <= MAX_SLUG
    ∧ Forall (λ b, validate.slug_byte b = true) (as_bytes input)
    ∧ head (as_bytes input) ≠ Some "-"%byte ∧ last (as_bytes input) ≠ Some "-"%byte)
  ∧ (validate.secret_key input = Ok s ↔
    s = input ∧ 0 < str_len input <= MAX_KEY ∧ Forall (λ b, validate.key_byte b = true) (as_bytes input)).
Proof.
  assert (input = "" ↔ str_len input <= 0) as Hempty.
  { unfold str_len. rewrite <- (as_bytes_nil input). destruct (as_bytes input); cbn [length]; split; (done || lia || auto). }
  assert (input ≠ "" → 0 < str_len input) as Hpos by (intros E; apply Z.nle_gt; tauto).
  assert (∀ p, forallb p (as_bytes input) = true ↔ Forall (λ b, p b = true) (as_bytes input)) as Hall.
  { intros p. by rewrite forallb_forall, Forall_forall; setoid_rewrite list_elem_of_In. }
  split.
  - unfold validate.slug.
    destruct (bool_decide_reflect (input = "")) as [E|E]; cbn [orb]; [split; [done|by apply Hempty in E; lia]|].
    destruct (Z.ltb_spec MAX_SLUG (str_len input)); [split; [done|lia]|].
    destruct (starts_with "-" input) eqn:Es; cbn [orb].
    { split; [done|]. apply starts_with_dash in Es as [r ->]. cbn. tauto. }
    destruct (ends_with_byte "-" input) eqn:Ee.
    { split; [done|]. unfold ends_with_byte in Ee. destruct (last _) as [b|]; [|done].
      apply bool_decide_eq_true in Ee as ->. tauto. }
    destruct (forallb _ _) eqn:Ef; cbn [negb].
    + split; [|by intros [-> _]]. intros [= <-]. apply Hall in Ef. split_and!; try (done || lia || auto).
      * intros Hh. assert (starts_with "-" input = true) as Ht; [|congruence]. apply starts_with_dash.
        destruct (as_bytes input) as [|b r]; [done|]. injection Hh as ->. eauto.
      * intros Hl. unfold ends_with_byte in Ee. by rewrite Hl in Ee.
    + split; [done|]. intros (_ & _ & Hf & _). apply Hall in Hf. congruence.
  - unfold validate.secret_key.
    destruct (bool_decide_reflect (input = "")) as [E|E]; cbn [orb]; [split; [done|by apply Hempty in E; lia]|].
    destruct (Z.ltb_spec MAX_KEY (str_len input)); [split; [done|lia]|].
    destruct (forallb _ _) eqn:Ef; cbn [negb].
    + split; [|by intros [-> _]]. intros [= <-]. apply Hall in Ef. split_and!; (done || lia || auto).
    + split; [done|]. intros (_ & _ & Hf). apply Hall in Hf. congruence.
Qed.
