(* ===== verification/RateLimit.v ===== *)
(** * The login rate limiter

    Models [crates/ls-server/src/rate_limit.rs]: a fixed window per normalised
    key, in a map bounded to [MAX_TRACKED] keys. The theorems are its two promises:
    memory stays bounded, and a key gets at most its budget per window. *)

From S2P Require Import Prelude Text Timestamp World Event Validate.
From Stdlib Require Import Strings.Byte.

Definition MAX_ATTEMPTS : Z := 10.
Definition WINDOW_SECONDS : Z := 60.
Definition MAX_TRACKED : nat := 4096.

(** [attempts] is a [u32]. *)
Record Window := mk_window { started : Z; attempts : Z }.

Record RateLimiter := mk_limiter { windows : gmap string Window; budget : Z }.

Module RateLimiter.

Definition default : RateLimiter := mk_limiter ∅ MAX_ATTEMPTS.
Definition with_budget (budget : Z) : RateLimiter := mk_limiter ∅ budget.

Definition normalise (key : string) : string := to_ascii_lowercase (trim key).

(** The retention when the map is full. *)
Definition retained (now : Z) (ws : gmap string Window) : gmap string Window :=
  if (MAX_TRACKED <=? size ws)%nat then filter (λ kw, (now - started kw.2 <? WINDOW_SECONDS) = true) ws else ws.

(** [allow], at a given reading of the clock. *)
Definition allow_at (now : Z) (key : string) (self : RateLimiter) : bool * RateLimiter :=
  let key := normalise key in
  let ws := retained now (windows self) in
  if (MAX_TRACKED <=? size ws)%nat && bool_decide (ws !! key = None)
  then (false, mk_limiter ws (budget self)) else
  let window := match ws !! key with Some window => window | None => mk_window now 0 end in
  let window := if WINDOW_SECONDS <=? now - started window then mk_window now 0 else window in
  let window := mk_window (started window) ((attempts window + 1) mod 2 ^ 32) in
  (attempts window <=? budget self, mk_limiter (<[key := window]> ws) (budget self)).

Section allow.
Context {EnvI : Env}.

Definition allow (key : string) : proc (World * RateLimiter) StoreError bool := λ '(w, self),
  match now (E := StoreError) w with
  | (Ok at_, w') => let '(granted, self') := allow_at (Timestamp.unix_seconds at_) key self in (Ok granted, (w', self'))
  | (Err e, w') => (Err e, (w', self))
  end.
End allow.

Definition succeeded (key : string) (self : RateLimiter) : RateLimiter :=
  mk_limiter (delete (normalise key) (windows self)) (budget self).

(** ** Runs *)

(** What the server does with a limiter, with the clock readings it got. *)
Inductive step := Attempt (now : Z) (key : string) | Success (key : string).

Definition do_step (self : RateLimiter) (s : step) : RateLimiter :=
  match s with
  | Attempt now key => (allow_at now key self).2
  | Success key => succeeded key self
  end.

Definition run (steps : list step) (self : RateLimiter) : RateLimiter := fold_left do_step steps self.

(** How many attempts on [key] were let through. *)
Fixpoint granted (key : string) (steps : list step) (self : RateLimiter) : Z :=
  match steps with
  | [] => 0
  | s :: rest =>
    (match s with
     | Attempt now k => if bool_decide (normalise k = normalise key) && (allow_at now k self).1 then 1 else 0
     | Success _ => 0
     end) + granted key rest (do_step self s)
  end.

Lemma size_retained now ws : (size (retained now ws) ≤ size ws)%nat.
Proof. unfold retained. case_match; [|done]. apply map_size_filter. Qed.

Lemma step_bounded s self :
  (size (windows self) ≤ MAX_TRACKED)%nat → (size (windows (do_step self s)) ≤ MAX_TRACKED)%nat.
Proof.
  intros H. destruct s as [now k|k]; cbn [do_step].
  - unfold allow_at. pose proof (size_retained now (windows self)).
    destruct (Nat.leb_spec MAX_TRACKED (size (retained now (windows self)))) as [Hf|Hf]; cbn [andb].
    + destruct (bool_decide_reflect (retained now (windows self) !! normalise k = None)) as [E|E]; cbn [snd windows]; [lia|].
      destruct (retained now (windows self) !! normalise k) as [x|] eqn:Ek; [|done].
      rewrite map_size_insert_Some by eauto. lia.
    + cbn [snd windows]. rewrite map_size_insert. case_match; cbn; lia.
  - cbn. rewrite map_size_delete. case_match; cbn; lia.
Qed.
Lemma run_bounded steps self :
  (size (windows self) ≤ MAX_TRACKED)%nat → (size (windows (run steps self)) ≤ MAX_TRACKED)%nat.
Proof.
  revert self. induction steps as [|s steps IH]; intros self H; [done|]. apply IH. by apply step_bounded.
Qed.

(** Whatever is attempted, in whatever order and at whatever times,
    no more than [MAX_TRACKED] keys are ever remembered. *)
Theorem memory_bounded budget steps :
  (size (windows (run steps (with_budget budget))) ≤ MAX_TRACKED)%nat.
Proof. apply run_bounded. cbn. rewrite map_size_empty. lia. Qed.

(** What one attempt does to the window of a key. *)
Lemma allow_at_same now k self key :
  normalise k = normalise key →
  ∃ old, (windows self !! normalise key = old
          ∨ old = None ∧ ∃ w, windows self !! normalise key = Some w ∧ WINDOW_SECONDS <= now - started w) ∧
  (allow_at now k self = (false, mk_limiter (retained now (windows self)) (budget self)) ∧ old = None
     ∧ retained now (windows self) !! normalise key = None
   ∨ ∃ w, (match old with
           | Some w0 => if WINDOW_SECONDS <=? now - started w0 then w = mk_window now 0 else w = w0
           | None => w = mk_window now 0 end)
     ∧ allow_at now k self = ((attempts w + 1) mod 2 ^ 32 <=? budget self,
         mk_limiter (<[normalise key := mk_window (started w) ((attempts w + 1) mod 2 ^ 32)]>
           (retained now (windows self))) (budget self))).
Proof.
  intros Hk. unfold allow_at. rewrite Hk. exists (retained now (windows self) !! normalise key). split.
  - unfold retained. case_match; [|by left].
    destruct (filter _ (windows self) !! normalise key) as [w|] eqn:E.
    + left. by apply map_lookup_filter_Some in E as [? _].
    + apply map_lookup_filter_None in E as [E|E]; [by left|].
      destruct (windows self !! normalise key) as [w|] eqn:Ew; [|by left]. right. split; [done|].
      exists w. split; [done|]. specialize (E w eq_refl). cbn in E. bool_arith. lia.
  - destruct (retained now (windows self) !! normalise key) as [w|] eqn:E.
    + right. rewrite bool_decide_false, andb_false_r by done. cbn [default].
      destruct (_ <=? now - started w) eqn:Ew; eexists; split; done.
    + rewrite bool_decide_true, andb_true_r by done. destruct (MAX_TRACKED <=? _)%nat; [by left|]. right.
      exists (mk_window now 0). split; [done|]. cbn [started attempts].
      destruct (WINDOW_SECONDS <=? now - now); done.
Qed.

(** An attempt on another key leaves the window alone, or forgets it once expired. *)
Lemma allow_at_other now k self key :
  normalise k ≠ normalise key →
  windows (allow_at now k self).2 !! normalise key = windows self !! normalise key
  ∨ windows (allow_at now k self).2 !! normalise key = None
    ∧ ∃ w, windows self !! normalise key = Some w ∧ WINDOW_SECONDS <= now - started w.
Proof.
  intros Hk. assert (windows (allow_at now k self).2 !! normalise key = retained now (windows self) !! normalise key) as ->.
  { unfold allow_at. destruct (_ && _); cbn [snd windows]; [done|]. by rewrite lookup_insert_ne. }
  unfold retained. case_match; [|by left].
  destruct (filter _ (windows self) !! normalise key) as [w|] eqn:E.
  - left. by apply map_lookup_filter_Some in E as [? _].
  - apply map_lookup_filter_None in E as [E|E]; [by left|].
    destruct (windows self !! normalise key) as [w|] eqn:Ew; [|by left]. right. split; [done|].
    exists w. split; [done|]. specialize (E w eq_refl). cbn in E. bool_arith. lia.
Qed.

Lemma allow_at_budget now k self : budget (allow_at now k self).2 = budget self.
Proof. unfold allow_at. by destruct (_ && _). Qed.

(** The attempts a window may still let through before the instant [a + 60]. *)
Definition credit (a : Z) (key : string) (self : RateLimiter) : Z :=
  match windows self !! normalise key with
  | None => budget self
  | Some w => (if a <=? started w then 0 else budget self) + Z.max 0 (budget self - attempts w)
  end.

(** The counter does not wrap within the next [n] attempts. *)
Definition unwrapped (n : Z) (key : string) (self : RateLimiter) : Prop :=
  ∀ w, windows self !! normalise key = Some w → 0 <= attempts w ∧ attempts w + n < 2 ^ 32.

(** A step within the window that is not a login as [key]. *)
Definition within (a : Z) (key : string) (s : step) : Prop :=
  match s with
  | Attempt now _ => a <= now < a + WINDOW_SECONDS
  | Success k => normalise k ≠ normalise key
  end.

Lemma credit_attempt a now k key self n :
  a <= now < a + WINDOW_SECONDS → 0 <= budget self → 0 <= n → n + 1 < 2 ^ 32 → unwrapped (n + 1) key self →
  (if bool_decide (normalise k = normalise key) && (allow_at now k self).1 then 1 else 0)
    + credit a key (allow_at now k self).2 <= credit a key self
  ∧ unwrapped n key (allow_at now k self).2.
Proof.
  intros Hnow Hb Hn0 Hn Hun. unfold WINDOW_SECONDS in Hnow.
  destruct (bool_decide_reflect (normalise k = normalise key)) as [Hk|Hk]; cbn [andb].
  - destruct (allow_at_same now k self key Hk) as (old & Hold & [(-> & -> & Hr)|(w & Hw & ->)]); cbn [fst snd].
    + unfold credit, unwrapped. cbn [windows budget]. rewrite Hr. split; [|done].
      destruct Hold as [->|(_ & w & -> & Hexp)]; [lia|].
      destruct (Z.leb_spec a (started w)); unfold WINDOW_SECONDS in Hexp; lia.
    + unfold credit, unwrapped. cbn [windows budget]. rewrite lookup_insert_eq. cbn [started attempts].
      assert (0 <= attempts w ∧ attempts w + (n + 1) < 2 ^ 32) as [Ha0 Ha].
      { destruct old as [w0|]; [|subst w; cbn; lia].
        destruct Hold as [Hold|[? _]]; [|done]. specialize (Hun w0 Hold).
        destruct (_ <=? _); subst w; cbn; lia. }
      rewrite Z.mod_small by lia. split; [|intros ? [= <-]; cbn; lia].
      assert (credit a key self >= (if a <=? started w then 0 else budget self) + Z.max 0 (budget self - attempts w)) as Hc.
      { unfold credit. destruct Hold as [Hold|(-> & w0 & Hold & Hexp)]; rewrite Hold.
        - destruct old as [w0|]; [destruct (Z.leb_spec WINDOW_SECONDS (now - started w0)); subst w; [|lia]|subst w];
            cbn [started attempts]; rewrite (proj2 (Z.leb_le a now)) by lia; [|lia].
          unfold WINDOW_SECONDS in *. rewrite (proj2 (Z.leb_gt a (started w0))) by lia. lia.
        - subst w. cbn [started attempts]. rewrite (proj2 (Z.leb_le a now)) by lia.
          unfold WINDOW_SECONDS in *. rewrite (proj2 (Z.leb_gt a (started w0))) by lia. lia. }
      unfold credit in Hc. destruct (Z.leb_spec (attempts w + 1) (budget self)); lia.
  - unfold credit, unwrapped. rewrite allow_at_budget.
    destruct (allow_at_other now k self key Hk) as [->|(-> & w & Hw & Hexp)].
    + split; [lia|]. intros w Hw. specialize (Hun w Hw). lia.
    + split; [|done]. rewrite Hw. unfold WINDOW_SECONDS in *.
      destruct (Z.leb_spec a (started w)); lia.
Qed.

Lemma granted_credit a key steps self :
  0 <= budget self → Z.of_nat (length steps) < 2 ^ 32 → unwrapped (Z.of_nat (length steps)) key self →
  Forall (within a key) steps → granted key steps self <= credit a key self.
Proof.
  revert self. induction steps as [|s steps IH]; intros self Hb Hlen Hun Hw; cbn [granted].
  { unfold credit. destruct (windows self !! normalise key) as [w|]; [destruct (_ <=? _); lia|lia]. }
  apply Forall_cons in Hw as [Hs Hw]. cbn [length] in *.
  destruct s as [now k|k]; cbn [do_step within] in *.
  - destruct (credit_attempt a now k key self (Z.of_nat (length steps)) Hs Hb) as [Hc Hu]; [lia|lia| |].
    + intros w H. specialize (Hun w H). lia.
    + specialize (IH (allow_at now k self).2). rewrite allow_at_budget in IH.
      specialize (IH Hb ltac:(lia) Hu Hw). lia.
  - assert (windows (succeeded k self) !! normalise key = windows self !! normalise key) as E.
    { cbn. by rewrite lookup_delete_ne. }
    specialize (IH (succeeded k self)). unfold credit, unwrapped in *. rewrite E in IH.
    apply IH; [done|lia| |done]. intros w H. specialize (Hun w H). lia.
Qed.

(** How far a counter can have got. *)
Lemma run_unwrapped steps n key self :
  unwrapped (Z.of_nat (length steps) + n) key self → 0 <= n → Z.of_nat (length steps) + n < 2 ^ 32 →
  unwrapped n key (run steps self).
Proof.
  revert self. induction steps as [|s steps IH]; intros self Hun Hn Hlen; [exact Hun|]. cbn [length] in *.
  apply IH; [|done|lia]. destruct s as [now k|k]; cbn [do_step].
  - destruct (decide (normalise k = normalise key)) as [Hk|Hk].
    + destruct (allow_at_same now k self key Hk) as (old & Hold & [(-> & -> & Hr)|(w & Hw & ->)]);
        unfold unwrapped; cbn [snd windows]; [by rewrite Hr|]. rewrite lookup_insert_eq. intros ? [= <-]. cbn [attempts].
      assert (0 <= attempts w ∧ attempts w + (Z.of_nat (S (length steps)) + n) < 2 ^ 32) as [Ha0 Ha].
      { destruct old as [w0|]; [|subst w; cbn; lia].
        destruct Hold as [Hold|[? _]]; [|done]. specialize (Hun w0 Hold).
        destruct (_ <=? _); subst w; cbn; lia. }
      rewrite Z.mod_small by lia. lia.
    + unfold unwrapped. destruct (allow_at_other now k self key Hk) as [->|[-> _]]; [|done].
      intros w H. specialize (Hun w H). lia.
  - unfold unwrapped. cbn. intros w [_ H]%lookup_delete_Some. specialize (Hun w H). lia.
Qed.

Lemma run_budget steps self : budget (run steps self) = budget self.
Proof.
  revert self. induction steps as [|s steps IH]; intros self; [done|]. cbn. unfold run in IH. rewrite IH.
  destruct s; [apply allow_at_budget|done].
Qed.

(** However the limiter got to where it is, during any stretch of
    sixty seconds in which nobody logs in as [key] the attempts let through for
    [key], in any spelling, are at most twice the budget; at most the budget if
    the stretch starts with [key] not remembered. Attempts on other keys change
    nothing, not even by filling the table. (Fewer than 2^32 attempts in all, past
    which the counter wraps.) *)
Theorem budget_respected limit before during key a :
  0 <= limit → Z.of_nat (length before) + Z.of_nat (length during) < 2 ^ 32 →
  Forall (within a key) during →
  let self := run before (with_budget limit) in
  granted key during self <= 2 * limit
  ∧ (windows self !! normalise key = None → granted key during self <= limit).
Proof.
  intros Hl Hlen Hw self.
  assert (budget self = limit) as Hb by apply run_budget.
  assert (unwrapped (Z.of_nat (length during)) key self) as Hun.
  { apply run_unwrapped; [|lia|done]. intros w H. cbn in H. by rewrite lookup_empty in H. }
  pose proof (granted_credit a key during self ltac:(lia) ltac:(lia) Hun Hw) as Hg.
  split.
  - etrans; [exact Hg|]. unfold credit. destruct (windows self !! normalise key) as [w|] eqn:E; [|lia].
    destruct (Hun w E). destruct (_ <=? _); lia.
  - intros E. unfold credit in Hg. by rewrite E, Hb in Hg.
Qed.

Lemma budget_respected_witness :
  granted "a@b.c" [Attempt 0 "a@b.c"; Attempt 1 " A@b.C"; Attempt 59 "a@b.c"; Attempt 59 "d@e.f"] (with_budget 2) <= 2.
Proof.
  apply (budget_respected 2 [] [Attempt 0 "a@b.c"; Attempt 1 " A@b.C"; Attempt 59 "a@b.c"; Attempt 59 "d@e.f"] "a@b.c" 0);
    [lia|cbn; lia| |reflexivity].
  repeat (apply Forall_cons; split; [cbn; unfold WINDOW_SECONDS; lia|]). apply Forall_nil_2.
Defined.
End RateLimiter.
