(* ===== verification/Password.v ===== *)
(** * Passwords

    Models [crates/ls-core/src/crypto/password.rs]. The [argon2] crate, and the PHC
    strings it reads and writes, are the interface [Argon2]; what its
    documentation promises of them is [Argon2Laws]. *)

From S2P Require Import Prelude Text Encoding World Event.
From Stdlib Require Import Strings.Byte.

Definition MIN_LEN : Z := 12.
Definition MAX_LEN : Z := 1024.
Definition SALT_LEN : nat := 16.
Definition MAX_VERIFY_MEMORY_KIB : Z := 256 * 1024.
Definition MAX_VERIFY_PASSES : Z := 10.
Definition MAX_VERIFY_LANES : Z := 4.

(** The crate: validated parameters, parsed hashes and their decimal parameters,
    hashing and verification. *)
Class Argon2 := {
  Params : Type;
  PasswordHash : Type;
  params_new : Z → Z → Z → result string Params;
  phc_new : string → option PasswordHash;
  phc_to_string : PasswordHash → string;
  phc_decimal : PasswordHash → string → option Z;
  hash_password_with_salt : Params → list byte → list byte → result string PasswordHash;
  verify_password : Params → list byte → PasswordHash → bool;
}.

Module password.

Inductive PasswordError :=
| TooShort (len min : Z)
| TooLong (len max : Z)
| Hashing (detail : string)
| Entropy.

Section password.
Context {EnvI : Env} {ArgonI : Argon2}.

(** [argon2()]: 19 MiB, two passes, one lane. *)
Definition argon2 : result PasswordError Params :=
  map_err (λ e, Hashing ("invalid argon2 parameters: " +:+ e)) (params_new (19 * 1024) 2 1).

Definition hash (password : string) : proc World PasswordError string :=
  let len := Z.of_nat (length (chars password)) in
  if len <? MIN_LEN then fail (TooShort len MIN_LEN)
  else if MAX_LEN <? str_len password then fail (TooLong (str_len password) MAX_LEN)
  else
    let! salt := map_perr (λ _, Entropy) (random_bytes SALT_LEN) in
    let! argon2 := lift argon2 in
    let! hashed := lift (map_err Hashing (hash_password_with_salt argon2 (as_bytes password) salt)) in
    ret (phc_to_string hashed).

Definition cost_is_acceptable (parsed : PasswordHash) : bool :=
  let numeric name := default 0 (phc_decimal parsed name) in
  (numeric "m" <=? MAX_VERIFY_MEMORY_KIB) && (numeric "t" <=? MAX_VERIFY_PASSES)
  && (numeric "p" <=? MAX_VERIFY_LANES).

Definition verify (password stored : string) : bool :=
  if MAX_LEN <? str_len password then false else
  match phc_new stored with
  | None => false
  | Some parsed =>
    if negb (cost_is_acceptable parsed) then false else
    match argon2 with
    | Ok hasher => verify_password hasher (as_bytes password) parsed
    | Err _ => false
    end
  end.
End password.

(** What the crate documents: a hash prints to a string that parses back to it,
    carries the parameters it was made with, and verifies its own password. *)
Class Argon2Laws `{Argon2} := {
  phc_round_trip h : phc_new (phc_to_string h) = Some h;
  phc_is_str h : is_str (phc_to_string h) = true;
  hash_parameters m t p params password salt h :
    params_new m t p = Ok params → hash_password_with_salt params password salt = Ok h →
    phc_decimal h "m" = Some m ∧ phc_decimal h "t" = Some t ∧ phc_decimal h "p" = Some p;
  hash_verifies params password salt h :
    hash_password_with_salt params password salt = Ok h → verify_password params password h = true;
}.

Section laws.
Context {EnvI : Env} {ArgonI : Argon2} {LawsI : Argon2Laws}.

Lemma hash_ok password w stored w' :
  hash password w = (Ok stored, w') →
  MIN_LEN <= Z.of_nat (length (chars password)) ∧ str_len password <= MAX_LEN
  ∧ is_str stored = true ∧ verify password stored = true ∧ disk w' = disk w.
Proof.
  unfold hash. destruct (Z.ltb_spec (Z.of_nat (length (chars password))) MIN_LEN); [done|].
  destruct (Z.ltb_spec MAX_LEN (str_len password)) as [|Hl]; [done|].
  rewrite bind_ok. intros (salt & w1 & Hr & Hk). unfold map_perr in Hr.
  destruct (random_bytes SALT_LEN w) as [[bs|] w2] eqn:Er; [|done]. apply random_bytes_disk in Er.
  cbn in Hr. injection Hr as <- <-. rewrite bind_ok in Hk. destruct Hk as (params & w3 & Hp & Hk).
  injection Hp as Hp <-. rewrite bind_ok in Hk. destruct Hk as (h & w4 & Hh & Hk). injection Hh as Hh <-.
  injection Hk as <- <-. split_and!; [done|done|apply phc_is_str| |done].
  unfold verify. rewrite (proj2 (Z.ltb_ge _ _)) by done. rewrite phc_round_trip, Hp.
  unfold argon2 in Hp. apply map_err_ok in Hp. apply map_err_ok in Hh.
  destruct (hash_parameters _ _ _ _ _ _ _ Hp Hh) as (Em & Et & Ep).
  unfold cost_is_acceptable. rewrite Em, Et, Ep. cbn. by eapply hash_verifies.
Qed.

Lemma hash_disk password w r w' : hash password w = (r, w') → disk w' = disk w.
Proof.
  unfold hash. destruct (_ <? _); [by intros [= _ <-]|]. destruct (_ <? _); [by intros [= _ <-]|].
  unfold bind, map_perr. destruct (random_bytes SALT_LEN w) as [[bs|] w1] eqn:Er; apply random_bytes_disk in Er; cbn;
    [|by intros [= _ <-]].
  destruct argon2; cbn; [|by intros [= _ <-]]. destruct (map_err _ _); cbn; by intros [= _ <-].
Qed.

(** C33: a password is hashed only if it has at least 12 characters and at
    most 1024 bytes, and the stored hash then verifies it. Whatever is stored, a
    verification that succeeds was asked for at most 1024 bytes and the memory,
    passes and lanes the server is prepared to spend; a stored text that is not
    a hash verifies nothing. *)
Theorem hash_then_verify password w :
  match hash password w with
  | (Ok stored, _) => MIN_LEN <= Z.of_nat (length (chars password)) ∧ str_len password <= MAX_LEN
                      ∧ verify password stored = true
  | (Err (TooShort len min), _) => len = Z.of_nat (length (chars password)) ∧ len < min ∧ min = MIN_LEN
  | (Err (TooLong len max), _) => len = str_len password ∧ max < len ∧ max = MAX_LEN
  | (Err Entropy, _) => entropy (draws w) = None
  | (Err (Hashing _), _) => True
  end
  ∧ ∀ presented stored, verify presented stored = true →
    str_len presented <= MAX_LEN ∧ ∃ h, phc_new stored = Some h ∧ cost_is_acceptable h = true.
Proof.
  split.
  - destruct (hash password w) as [[stored|e] w'] eqn:E.
    + apply hash_ok in E. tauto.
    + unfold hash in E. destruct (Z.ltb_spec (Z.of_nat (length (chars password))) MIN_LEN); [by injection E as <- _|].
      destruct (Z.ltb_spec MAX_LEN (str_len password)) as [|Hl]; [by injection E as <- _|].
      unfold bind, map_perr, random_bytes, fill in E. destruct (entropy (draws w)); [|by injection E as <- _].
      cbn in E. unfold argon2 in E. destruct (params_new _ _ _); cbn in E; [|by injection E as <- _].
      destruct (hash_password_with_salt _ _ _); cbn in E; [done|by injection E as <- _].
  - intros presented stored. unfold verify. destruct (Z.ltb_spec MAX_LEN (str_len presented)); [done|].
    destruct (phc_new stored) as [h|]; [|done]. destruct (cost_is_acceptable h) eqn:Ec; cbn [negb]; [|done]. eauto.
Qed.
End laws.
End password.

(** An instance whose hash is the password in hexadecimal, to apply the claims at. *)
Module ClearText.
#[export] Instance argon : Argon2 := {|
  Params := unit;
  PasswordHash := list byte;
  params_new m t p := if decide (m = 19456 ∧ t = 2 ∧ p = 1) then Ok tt else Err "unsupported";
  phc_new := hex.decode;
  phc_to_string := hex.encode;
  phc_decimal _ name :=
    if decide (name = "m") then Some 19456 else if decide (name = "t") then Some 2
    else if decide (name = "p") then Some 1 else None;
  hash_password_with_salt _ password _ := Ok password;
  verify_password _ password h := bool_decide (password = h);
|}.

#[export] Instance laws : password.Argon2Laws.
Proof.
  split; cbn.
  - apply hex.hex_decode_encode.
  - apply is_str_hex.
  - intros m t p params password salt h. case_decide as Hm; [|done]. intros _ _. destruct_and! Hm. by subst.
  - intros params password salt h [= ->]. by apply bool_decide_eq_true.
Qed.

Lemma hash_then_verify_witness :
  let env := calm (λ k i, byte_of_Z (Z.of_nat (k + i))) 0 in
  match fst (password.hash (EnvI := env) "correct horse" (mk_world 0 0 0 (mk_disk ∅ ∅ 0) 2 [])) with
  | Ok stored => password.verify "correct horse" stored = true
  | Err _ => False
  end.
Proof.
  intros env.
  pose proof (proj1 (password.hash_then_verify (EnvI := env) "correct horse" (mk_world 0 0 0 (mk_disk ∅ ∅ 0) 2 []))) as H.
  destruct (password.hash _ _) as [[stored|e] w'] eqn:E; [apply H|]. vm_compute in E. discriminate E.
Defined.
End ClearText.
