(* ===== verification/Vault.v ===== *)
(** * The vault

    Models [crates/ls-server/src/vault.rs], method by method: the seal state, the
    key hierarchy and every operation on users, tokens, projects, environments,
    secrets and the audit trail. A method taking [&mut self] runs on the world
    and the vault together; one taking [&self] and touching neither the clock nor
    the disk is a pure function of the vault. *)

From S2P Require Import Prelude Text Encoding Timestamp World Logging Token Shamir Aead Event State Log.
From S2P Require Import Barrier Validate Password.
From Stdlib Require Import Strings.Byte.

Definition MASTER_KEY_LEN : nat := 32.
Definition MAX_LIFETIME_SECONDS : Z := 100 * 365 * 86400.

(** What [init] and [rekey] hand back. *)
Record InitOutcome := mk_outcome { outcome_shares : list string; root_token : string; outcome_threshold : Z }.

Record UnsealStatus := mk_status { status_sealed : bool; progress : nat; status_threshold : Z }.

Module Caller.
Record t := mk {
  token_id : string;
  kind : TokenKind;
  user_id : option string;
  project_id : option string;
  environment_id : option string;
}.

#[global] Instance t_eq_dec : EqDecision t.
Proof. solve_decision. Defined.

Definition actor (self : t) : string :=
  match user_id self, kind self with
  | Some user, _ => "user:" +:+ user
  | None, Machine => "machine:" +:+ token_id self
  | None, _ => "token:" +:+ token_id self
  end.
End Caller.

Inductive Capability := Bootstrap | Administer | ReadSecrets | WriteSecrets.

#[global] Instance Capability_eq_dec : EqDecision Capability.
Proof. solve_decision. Defined.

Definition granted_to (self : Capability) (kind : TokenKind) : bool :=
  match kind with
  | Root => match self with Bootstrap => true | _ => false end
  | Session => true
  | Machine => match self with ReadSecrets => true | _ => false end
  end.

Record AuditEntry := mk_audit {
  audit_at : Timestamp.t;
  audit_actor : string;
  audit_action : string;
  audit_target : string;
  audit_outcome : string;
}.

Definition DUMMY_HASH : string :=
  "$argon2id$v=19$m=19456,t=2,p=1$c29tZXNhbHRzb21lc2FsdA$JQm3CgPlmhCvmSGN0j3T9y9YJCLTrkLMBmU5PGPZUMs".

Definition project_key_context (project_id : string) : Aad.t := Aad.key_wrap "project-dek" project_id.

Definition secret_context (project_id environment_id key : string) : Aad.t :=
  Aad.secret_slot project_id environment_id key.

Definition check_lifetime (seconds : Z) : result VaultError.t unit :=
  if negb ((- MAX_LIFETIME_SECONDS <=? seconds) && (seconds <=? MAX_LIFETIME_SECONDS))
  then Err (VaultError.Invalid "token lifetime") else Ok tt.

Module Vault.

Record t := mk {
  log : Log;
  state : State.t;
  barrier : option Barrier.t;
  root_key : option DataKey.t;
  pending_shares : list shamir.Share;
}.

Definition set_log (l : Log) (self : t) : t :=
  mk l (state self) (barrier self) (root_key self) (pending_shares self).
Definition set_pending (l : list shamir.Share) (self : t) : t :=
  mk (log self) (state self) (barrier self) (root_key self) l.

Section Vault.
Context {EnvI : Env} {CipherI : Cipher} {ShaI : Sha256} {ArgonI : Argon2} {TextI : OsText}.

(** A method, which may fail with a [VaultError]. *)
Definition method (A : Type) : Type := proc (World * t) VaultError.t A.

(** A step of the world alone, of the log, or of the vault in memory. *)
Definition on_world {A} (m : proc World VaultError.t A) : method A := zoom fst (λ w s, (w, s.2)) m.
Definition on_log {A} (m : proc (World * Log) StoreError A) : method A :=
  zoom (λ s, (s.1, log s.2)) (λ wl s, (wl.1, set_log wl.2 s.2)) (map_perr VaultError.Store m).
Definition reads {A} (f : t → A) : method A := gets (λ s, f s.2).
Definition updates (f : t → t) : method unit := modify (λ s, (s.1, f s.2)).
Definition try_ {A} (f : t → result VaultError.t A) : method A := λ s, (f s.2, s).

Definition crypto {E A} (m : proc World E A) : method A := on_world (map_perr (λ _, VaultError.Crypto) m).
Definition clock_now : method Timestamp.t := on_world now.

Definition new_id : method string :=
  let! bytes := crypto (random_bytes 16) in ret (hex.encode bytes).

(** ** Questions *)

Definition is_sealed (self : t) : bool := match root_key self with Some _ => false | None => true end.
Definition is_initialized (self : t) : bool := match barrier self with Some _ => true | None => false end.
Definition threshold (self : t) : option Z := Barrier.threshold <$> barrier self.

Definition require_unsealed (self : t) : result VaultError.t unit :=
  if is_sealed self then Err VaultError.Sealed else Ok tt.

Definition require (caller : Caller.t) (capability : Capability) : result VaultError.t unit :=
  if granted_to capability (Caller.kind caller) then Ok tt else Err VaultError.Forbidden.

Definition authorise (caller : Caller.t) (capability : Capability) (project_id environment_id : string)
  : result VaultError.t unit :=
  let? _ := require caller capability in
  if negb (bool_decide (Caller.kind caller = Machine)) then Ok tt else
  let allowed := bool_decide (Caller.project_id caller = Some project_id)
                 && bool_decide (Caller.environment_id caller = Some environment_id) in
  if allowed then Ok tt else Err VaultError.Forbidden.

Definition resolve (self : t) (project_slug environment_slug : string) : result VaultError.t (string * string) :=
  let? project := ok_or (State.project_by_slug (state self) project_slug) (VaultError.NotFound "project") in
  let? environment := ok_or (State.environment_by_slug (state self) (Project.id project) environment_slug)
                        (VaultError.NotFound "environment") in
  Ok (Project.id project, Environment.id environment).

Definition resolve_for (self : t) (caller : Caller.t) (project_slug environment_slug : string)
  : result VaultError.t (string * string) :=
  match resolve self project_slug environment_slug with
  | Ok ids => Ok ids
  | Err error => if decide (Caller.kind caller = Machine) then Err VaultError.Forbidden else Err error
  end.

Definition project_data_key (self : t) (project_id : string) : result VaultError.t DataKey.t :=
  let? root := ok_or (root_key self) VaultError.Sealed in
  let? project := ok_or (State.project (state self) project_id) (VaultError.NotFound "project") in
  map_err (λ _, VaultError.Crypto)
    (DataKey.unwrap_key root (Sealed.to_envelope (Project.data_key project)) (project_key_context project_id)).

Definition check_secret (self : t) (caller : Caller.t) (project_slug environment_slug key : string)
    (value : list byte) : result VaultError.t unit :=
  let? _ := require_unsealed self in
  let? _ := validate.secret_key key in
  if MAX_PLAINTEXT_LEN <? Z.of_nat (length value)
  then Err (VaultError.ValueTooLarge (Z.of_nat (length value)) MAX_PLAINTEXT_LEN) else
  let? (project_id, environment_id) := resolve_for self caller project_slug environment_slug in
  authorise caller WriteSecrets project_id environment_id.

(** ** Committing *)

Definition apply_event (event : Event) (self : t) : t :=
  mk (log self) (State.apply (state self) event) (barrier self) (root_key self) (pending_shares self).

(** To the log first, then to memory. *)
Definition commit (event : Event) : method unit :=
  let! root := try_ (λ self, ok_or (root_key self) VaultError.Sealed) in
  do! on_log (Log.append root (Event.to_bytes event)) in
  updates (apply_event event).

Definition record_audit (caller : Caller.t) (action target outcome : string) : method unit :=
  let! at_ := clock_now in
  commit (Audited at_ (Caller.actor caller) action target outcome).

Definition resolve_and_record (caller : Caller.t) (action project_slug environment_slug target : string)
  : method (string * string) := λ s,
  match resolve_for s.2 caller project_slug environment_slug with
  | Ok ids => (Ok ids, s)
  | Err error => (do! record_audit caller action target "unknown" in fail error) s
  end.

(** [authorise], recording a refusal. *)
Definition authorise_and_record (caller : Caller.t) (capability : Capability) (action target project_id environment_id : string)
  : method unit :=
  match authorise caller capability project_id environment_id with
  | Ok _ => ret tt
  | Err error => do! record_audit caller action target "denied" in fail error
  end.

(** ** Opening and sealing *)

Definition open (path : string) : proc World VaultError.t t :=
  let! log := map_perr VaultError.Store (Log.open path) in
  do! (if repaired log then
         Logger.emit (Logger.mk_call Warn "the store had an incomplete record at the end, which was discarded"
           [("store", path_text path)])
       else ret tt) in
  let! plain := map_perr VaultError.Store (Log.read_plain log) in
  if bool_decide (plain = []) && negb (count log =? 0)%nat
  then fail (VaultError.UnreadableBarrier "the store holds records but no barrier") else
  let! barrier :=
    (match last plain with
     | Some payload => let! b := lift (map_err VaultError.UnreadableBarrier (Barrier.from_bytes payload)) in ret (Some b)
     | None => ret None
     end) in
  ret (mk log State.default barrier None []).

Definition init (threshold shares : Z) : method InitOutcome :=
  let! initialized := reads is_initialized in
  if initialized : bool then fail VaultError.AlreadyInitialized else
  let! master_bytes := crypto (random_bytes MASTER_KEY_LEN) in
  let! split := on_world (map_perr (λ _, VaultError.Invalid "share configuration")
                            (shamir.split master_bytes threshold shares)) in
  let! master_key := lift (ok_or (DataKey.from_bytes master_bytes) VaultError.Crypto) in
  let! root_key := crypto DataKey.generate in
  let! wrapped := crypto (DataKey.wrap master_key root_key Barrier.context) in
  let! issued := crypto token.generate in
  let! token_id := new_id in
  let! created_at := clock_now in
  let barrier := Barrier.mk threshold shares (Sealed.of_envelope wrapped) created_at in
  do! on_log (Log.append_plain (Barrier.to_bytes barrier)) in
  do! updates (λ self, mk (log self) (state self) (Some barrier) (Some root_key) (pending_shares self)) in
  let! issued_at := clock_now in
  do! map_perr (λ _, VaultError.InitIncomplete)
    (commit (TokenIssued token_id (token.as_bytes (token.issued_hash issued)) Root None None None
               (Some "root") None issued_at)) in
  ret (mk_outcome (shamir.to_string <$> split) (token.secret issued) threshold).

Definition seal (self : t) : t := mk (log self) State.default (barrier self) None [].

Definition seal_as (caller : Caller.t) : method unit :=
  do! lift (require caller Administer) in updates seal.

Definition reset_unseal (self : t) : t := set_pending [] self.

(** The events among the records: the barrier is stepped over. *)
Fixpoint events_of (records : list Record_) : result StoreError (list Event) :=
  match records with
  | [] => Ok []
  | r :: rest =>
    if sealed r then
      let? event := Event.from_bytes (payload r) in
      let? events := events_of rest in
      Ok (event :: events)
    else events_of rest
  end.

Fixpoint replay_records (state : State.t) (records : list Record_) : result StoreError State.t :=
  match records with
  | [] => Ok state
  | r :: rest =>
    if negb (sealed r) then replay_records state rest else
    let? event := Event.from_bytes (payload r) in
    replay_records (State.apply state event) rest
  end.

Definition replay (root_key : DataKey.t) : method State.t :=
  let! log := reads log in
  let! records := on_world (map_perr VaultError.Store (Log.read_records log root_key)) in
  lift (map_err VaultError.Store (replay_records State.default records)).

Definition try_unseal : method unit :=
  let! barrier := try_ (λ self, ok_or (barrier self) VaultError.NotInitialized) in
  let! pending := reads pending_shares in
  let! master_bytes := lift (map_err (λ _, VaultError.UnsealFailed) (shamir.combine pending)) in
  let! master_key := lift (ok_or (DataKey.from_bytes master_bytes) VaultError.UnsealFailed) in
  let! root_key := lift (map_err (λ _, VaultError.UnsealFailed)
    (DataKey.unwrap_key master_key (Sealed.to_envelope (Barrier.root_key barrier)) Barrier.context)) in
  let! state := replay root_key in
  updates (λ self, mk (log self) state (Vault.barrier self) (Some root_key) []).

(** [pending_shares.push] unless it is there already. *)
Definition offer (share : shamir.Share) (self : t) : t :=
  if decide (share ∈ pending_shares self) then self else set_pending (pending_shares self ++ [share]) self.

Definition submit_share (printed : string) : method UnsealStatus :=
  let! barrier := try_ (λ self, ok_or (barrier self) VaultError.NotInitialized) in
  let threshold := Barrier.threshold barrier in
  let! sealed := reads is_sealed in
  if negb sealed then ret (mk_status false 0 threshold) else
  let! share := lift (map_err (λ _, VaultError.BadShare) (shamir.parse printed)) in
  do! updates (offer share) in
  let! pending := reads pending_shares in
  if Z.of_nat (length pending) <? threshold then ret (mk_status true (length pending) threshold) else
  let! outcome := attempt try_unseal in
  match outcome with
  | Ok _ => ret (mk_status false 0 threshold)
  | Err error => do! updates (set_pending []) in fail error
  end.

(** ** Users and tokens *)

Definition create_user (caller : Caller.t) (email password : string) : method string :=
  do! try_ require_unsealed in
  do! lift (require caller Bootstrap) in
  let! email := lift (validate.email email) in
  let! existing := reads (λ self, State.user_by_email (state self) email) in
  if existing is Some _ then fail (VaultError.Conflict "user") else
  let! password_hash := on_world (map_perr
    (λ error, match error with
              | password.Entropy => VaultError.Crypto
              | _ => VaultError.Invalid "password"
              end) (password.hash password)) in
  let! id := new_id in
  let! created_at := clock_now in
  do! commit (UserCreated id email password_hash created_at) in
  ret id.

Definition issue_token (kind : TokenKind) (user_id project_id environment_id label : option string)
    (ttl_seconds : option Z) : method string :=
  let! issued := crypto token.generate in
  let! id := new_id in
  let! expires_at :=
    (match ttl_seconds with
     | Some ttl => let! at_ := clock_now in ret (Some (Timestamp.plus_seconds at_ ttl))
     | None => ret None
     end) in
  let! created_at := clock_now in
  do! commit (TokenIssued id (token.as_bytes (token.issued_hash issued)) kind user_id project_id
                environment_id label expires_at created_at) in
  ret (token.secret issued).

Definition login (email password : string) (ttl_seconds : Z) : method string :=
  do! try_ require_unsealed in
  do! lift (check_lifetime ttl_seconds) in
  let normalised := match validate.email email with Ok e => e | Err _ => "" end in
  let! found := reads (λ self, State.user_by_email (state self) normalised) in
  match found with
  | None =>
    (* the time of a verification against a hash nobody has *)
    let _ := password.verify password DUMMY_HASH in
    fail VaultError.BadCredentials
  | Some user =>
    if negb (password.verify password (User.password_hash user)) then fail VaultError.BadCredentials
    else issue_token Session (Some (User.id user)) None None None (Some ttl_seconds)
  end.

Definition issue_machine_token (caller : Caller.t) (project_slug environment_slug label : string)
    (ttl_seconds : option Z) : method string :=
  do! try_ require_unsealed in
  do! lift (require caller Administer) in
  do! (match ttl_seconds with Some ttl => lift (check_lifetime ttl) | None => ret tt end) in
  let! (project_id, environment_id) := try_ (λ self, resolve self project_slug environment_slug) in
  issue_token Machine None (Some project_id) (Some environment_id) (Some label) ttl_seconds.

Definition revoke_token (caller : Caller.t) (id : string) : method unit :=
  do! try_ require_unsealed in
  do! (if negb (bool_decide (id = Caller.token_id caller)) then lift (require caller Administer) else ret tt) in
  let! existing := reads (λ self, State.token (state self) id) in
  match existing with
  | None => fail (VaultError.NotFound "token")
  | Some _ => let! at_ := clock_now in commit (TokenRevoked id at_)
  end.

(** Whether a stored token admits its holder at an instant, and as whom. *)
Definition admits (self : t) (found : Token.t) (at_ : Timestamp.t) : option Caller.t :=
  if negb (Token.is_valid_at found at_) then None
  else if bool_decide (Token.kind found = Root) && negb (bool_decide (State.users (state self) = [])) then None
  else Some (Caller.mk (Token.id found) (Token.kind found) (Token.user_id found)
               (Token.project_id found) (Token.environment_id found)).

Definition authenticate (presented : string) : method (option Caller.t) :=
  let! self := reads id in
  if is_sealed self || bool_decide (presented = "") then ret None else
  match State.token_by_hash (state self) (token.as_bytes (token.hash presented)) with
  | None => ret None
  | Some found => let! at_ := clock_now in ret (admits self found at_)
  end.

(** ** Projects and environments *)

Definition create_project (caller : Caller.t) (slug name : string) : method string :=
  do! try_ require_unsealed in
  do! lift (require caller Administer) in
  let! slug := lift (validate.slug slug "project slug") in
  let! existing := reads (λ self, State.project_by_slug (state self) slug) in
  if existing is Some _ then fail (VaultError.Conflict "project") else
  let! id := new_id in
  let! data_key := crypto DataKey.generate in
  let! root := try_ (λ self, ok_or (root_key self) VaultError.Sealed) in
  let! wrapped := crypto (DataKey.wrap root data_key (project_key_context id)) in
  let! created_at := clock_now in
  do! commit (ProjectCreated id slug name (Sealed.of_envelope wrapped) created_at) in
  ret id.

Definition create_environment (caller : Caller.t) (project_slug slug name : string) : method string :=
  do! try_ require_unsealed in
  do! lift (require caller Administer) in
  let! slug := lift (validate.slug slug "environment slug") in
  let! project_id := try_ (λ self, map_ok Project.id
    (ok_or (State.project_by_slug (state self) project_slug) (VaultError.NotFound "project"))) in
  let! existing := reads (λ self, State.environment_by_slug (state self) project_id slug) in
  if existing is Some _ then fail (VaultError.Conflict "environment") else
  let! id := new_id in
  let! created_at := clock_now in
  do! commit (EnvironmentCreated id project_id slug name created_at) in
  ret id.

Definition project_slugs (self : t) (caller : Caller.t) : result VaultError.t (list string) :=
  let? _ := require_unsealed self in
  let? _ := require caller Administer in
  Ok (Project.slug <$> State.projects (state self)).

Definition environment_slugs (self : t) (caller : Caller.t) (project_slug : string)
  : result VaultError.t (list string) :=
  let? _ := require_unsealed self in
  let? _ := require caller Administer in
  let? project := ok_or (State.project_by_slug (state self) project_slug) (VaultError.NotFound "project") in
  Ok (Environment.slug <$> State.environments_in (state self) (Project.id project)).

(** ** Secrets *)

Definition target_of (project_slug environment_slug key : string) : string :=
  project_slug +:+ "/" +:+ environment_slug +:+ "/" +:+ key.

Definition seal_error (error : AeadError) : VaultError.t :=
  match error with
  | PlaintextTooLarge len max => VaultError.ValueTooLarge len max
  | _ => VaultError.Crypto
  end.

Definition set_secret (caller : Caller.t) (project_slug environment_slug key : string) (value : list byte)
  : method unit :=
  do! try_ require_unsealed in
  let! key := lift (validate.secret_key key) in
  let target := target_of project_slug environment_slug key in
  let! (project_id, environment_id) :=
    resolve_and_record caller "secret.set" project_slug environment_slug target in
  do! authorise_and_record caller WriteSecrets "secret.set" target project_id environment_id in
  let! data_key := try_ (λ self, project_data_key self project_id) in
  let! sealed := on_world (map_perr seal_error
    (DataKey.seal data_key value (secret_context project_id environment_id key))) in
  let! at_ := clock_now in
  do! commit (SecretSet project_id environment_id key (Sealed.of_envelope sealed) at_) in
  record_audit caller "secret.set" target "ok".

Definition get_secret (caller : Caller.t) (project_slug environment_slug key : string) : method (list byte) :=
  do! try_ require_unsealed in
  let target := target_of project_slug environment_slug key in
  let! (project_id, environment_id) :=
    resolve_and_record caller "secret.read" project_slug environment_slug target in
  do! authorise_and_record caller ReadSecrets "secret.read" target project_id environment_id in
  let! stored := reads (λ self, Secret.value <$> State.secret (state self) project_id environment_id key) in
  match stored with
  | None => do! record_audit caller "secret.read" target "missing" in fail (VaultError.NotFound "secret")
  | Some stored =>
    let! data_key := try_ (λ self, project_data_key self project_id) in
    let! value := lift (map_err (λ _, VaultError.Crypto)
      (DataKey.open data_key (Sealed.to_envelope stored) (secret_context project_id environment_id key))) in
    do! record_audit caller "secret.read" target "ok" in
    ret value
  end.

(** The loop of [list_secrets]. *)
Fixpoint reveal (data_key : DataKey.t) (project_id environment_id : string) (stored : list Secret.t)
  : result VaultError.t (list (string * list byte)) :=
  match stored with
  | [] => Ok []
  | s :: rest =>
    let? plain := map_err (λ _, VaultError.Crypto)
      (DataKey.open data_key (Sealed.to_envelope (Secret.value s))
         (secret_context project_id environment_id (Secret.key s))) in
    let? out := reveal data_key project_id environment_id rest in
    Ok ((Secret.key s, plain) :: out)
  end.

Definition list_secrets (caller : Caller.t) (project_slug environment_slug : string)
  : method (list (string * list byte)) :=
  do! try_ require_unsealed in
  let target := project_slug +:+ "/" +:+ environment_slug in
  let! (project_id, environment_id) :=
    resolve_and_record caller "secret.list" project_slug environment_slug target in
  do! authorise_and_record caller ReadSecrets "secret.list" target project_id environment_id in
  let! stored := reads (λ self, State.secrets_in (state self) project_id environment_id) in
  let! data_key := try_ (λ self, project_data_key self project_id) in
  let! out := lift (reveal data_key project_id environment_id stored) in
  do! record_audit caller "secret.list" target "ok" in
  ret out.

Definition delete_secret (caller : Caller.t) (project_slug environment_slug key : string) : method unit :=
  do! try_ require_unsealed in
  let target := target_of project_slug environment_slug key in
  let! (project_id, environment_id) :=
    resolve_and_record caller "secret.delete" project_slug environment_slug target in
  do! authorise_and_record caller WriteSecrets "secret.delete" target project_id environment_id in
  let! stored := reads (λ self, State.secret (state self) project_id environment_id key) in
  match stored with
  | None => fail (VaultError.NotFound "secret")
  | Some _ =>
    let! at_ := clock_now in
    do! commit (SecretDeleted project_id environment_id key at_) in
    record_audit caller "secret.delete" target "ok"
  end.

(** ** The audit trail *)

(** The loop of [audit_trail]: what does not read as an audit entry is skipped. *)
Fixpoint audit_entries (records : list Record_) : list AuditEntry :=
  match records with
  | [] => []
  | r :: rest =>
    if negb (sealed r) then audit_entries rest else
    match Event.from_bytes (payload r) with
    | Ok (Audited at_ actor action target outcome) => mk_audit at_ actor action target outcome :: audit_entries rest
    | _ => audit_entries rest
    end
  end.

Definition audit_trail (caller : Caller.t) : method (list AuditEntry) :=
  do! lift (require caller Administer) in
  let! root := try_ (λ self, ok_or (root_key self) VaultError.Sealed) in
  let! log := reads log in
  let! records := on_world (map_perr VaultError.Store (Log.read_records log root)) in
  ret (audit_entries records).

(** ** Splitting again *)

(** What becomes of one event: a project's data key moves to the new root key. *)
Definition carry (old_root new_root : DataKey.t) (event : Event) : proc World VaultError.t Event :=
  match event with
  | ProjectCreated id slug name data_key created_at =>
    let context := project_key_context id in
    let! unwrapped := lift (map_err (λ _, VaultError.Crypto)
      (DataKey.unwrap_key old_root (Sealed.to_envelope data_key) context)) in
    let! rewrapped := map_perr (λ _, VaultError.Crypto) (DataKey.wrap new_root unwrapped context) in
    ret (ProjectCreated id slug name (Sealed.of_envelope rewrapped) created_at)
  | other => ret other
  end.

Fixpoint carry_all (old_root new_root : DataKey.t) (events : list Event) : proc World VaultError.t (list Event) :=
  match events with
  | [] => ret []
  | e :: rest =>
    let! e' := carry old_root new_root e in
    let! rest' := carry_all old_root new_root rest in
    ret (e' :: rest')
  end.

Definition rekey (caller : Caller.t) (threshold shares : Z) : method InitOutcome :=
  do! try_ require_unsealed in
  do! lift (require caller Administer) in
  let! old_root := try_ (λ self, ok_or (root_key self) VaultError.Sealed) in
  let! log_ := reads log in
  let! records := on_world (map_perr VaultError.Store (Log.read_records log_ old_root)) in
  let! events := lift (map_err VaultError.Store (events_of records)) in
  let! new_root := crypto DataKey.generate in
  let! carried := on_world (carry_all old_root new_root events) in
  let! at_ := clock_now in
  let carried := carried ++ [Audited at_ (Caller.actor caller) "vault.rekey" "unseal shares" "ok"] in
  let! master_bytes := crypto (random_bytes MASTER_KEY_LEN) in
  let! split := on_world (map_perr (λ _, VaultError.Invalid "share configuration")
                            (shamir.split master_bytes threshold shares)) in
  let! master_key := lift (ok_or (DataKey.from_bytes master_bytes) VaultError.Crypto) in
  let! wrapped_root := crypto (DataKey.wrap master_key new_root Barrier.context) in
  let! created_at := clock_now in
  let barrier := Barrier.mk threshold shares (Sealed.of_envelope wrapped_root) created_at in
  do! on_log (Log.compact new_root [Barrier.to_bytes barrier] (Event.to_bytes <$> carried)) in
  do! updates (λ self, mk (log self) (State.replay carried) (Some barrier) (Some new_root) []) in
  ret (mk_outcome (shamir.to_string <$> split) "" threshold).
End Vault.
End Vault.
