(* ===== verification/VaultSpec.v ===== *)
(** * What the vault promises

    The vault as a list of events. [stored_as] ties the file to the events it
    holds and to the keys that open it; [live] is the invariant of an unsealed
    vault: what is in memory is the replay of what is on disk. *)

From S2P Require Import Prelude Text Encoding Timestamp World Logging Token Shamir Aead Event State Log LogSpec.
From S2P Require Import Barrier Validate Password Vault.
From Stdlib Require Import Strings.Byte.

Module VaultSpec.
Import Vault.

Section VaultSpec.
Context {EnvI : Env} {CipherI : Cipher} {LawsI : CipherLaws} {ShaI : Sha256} {TextI : OsText}.
Context {ArgonI : Argon2} {ArgonLawsI : password.Argon2Laws}.

Definition barrier_record (b : Barrier.t) : Record_ := mk_record false (Barrier.to_bytes b).
Definition event_record (e : Event) : Record_ := mk_record true (Event.to_bytes e).

(** The barrier a file is opened with: its last plain record. *)
Definition barrier_in (raws : list (list byte)) (b : Barrier.t) : Prop :=
  ∃ raw, last raws = Some raw ∧ Barrier.from_bytes raw = Ok b.

(** The file at [p] holds a barrier and the records of these events, under a root
    key that the master key unwraps from the barrier. *)
Record stored_as (p : string) (master root : DataKey.t) (b : Barrier.t) (evs : list Event)
    (d : Disk) (l : Log) : Prop := {
  stored_path : path l = p;
  stored_names : LogSpec.names_ok d;
  stored_log : ∃ recs, LogSpec.is_log root d l recs ∧ events_of recs = Ok evs ∧ barrier_in (LogSpec.plains recs) b;
  stored_unwraps : DataKey.unwrap_key master (Sealed.to_envelope (Barrier.root_key b)) Barrier.context = Ok root;
}.

(** An unsealed vault: the state in memory is the replay of [evs], which is all the
    file holds unless the log is broken; then the file may hold one event more. *)
Definition live (p : string) (master : DataKey.t) (evs : list Event) (s : World * Vault.t) : Prop :=
  ∃ root b extra,
    root_key s.2 = Some root ∧ barrier s.2 = Some b ∧ state s.2 = State.replay evs
    ∧ stored_as p master root b (evs ++ extra) (disk s.1) (log s.2)
    ∧ (broken (log s.2) = false → extra = []) ∧ (length extra ≤ 1)%nat.

(** The events in the file, under one master key. *)
Definition on_file (p : string) (master : DataKey.t) (evs : list Event) (s : World * Vault.t) : Prop :=
  ∃ root b, stored_as p master root b evs (disk s.1) (log s.2).

(** A sealed vault: no key, no state, and a file that opens with its barrier. *)
Definition closed (p : string) (b : Barrier.t) (s : World * Vault.t) : Prop :=
  root_key s.2 = None ∧ state s.2 = State.default ∧ barrier s.2 = Some b
  ∧ path (log s.2) = p ∧ LogSpec.names_ok (disk s.1)
  ∧ ∃ rs rest, LogSpec.rep (disk s.1) (log s.2) rs rest ∧ barrier_in (LogSpec.plain_of rs) b.

(** A vault that has not been initialised. *)
Definition fresh (p : string) (s : World * Vault.t) : Prop :=
  root_key s.2 = None ∧ state s.2 = State.default ∧ barrier s.2 = None
  ∧ path (log s.2) = p ∧ LogSpec.names_ok (disk s.1)
  ∧ ∃ rs rest, LogSpec.rep (disk s.1) (log s.2) rs rest ∧ (broken (log s.2) = false → rs = []).

(** Every vault a server holds. *)
Definition vault_ok (p : string) (s : World * Vault.t) : Prop :=
  fresh p s ∨ (∃ b, closed p b s) ∨ ∃ master evs, live p master evs s.

Lemma live_disk p master evs w w' v : disk w' = disk w → live p master evs (w, v) → live p master evs (w', v).
Proof. intros Hd (root & b & extra & H). exists root, b, extra. cbn [fst snd] in *. by rewrite Hd. Qed.

(** ** Rules for the steps of a method *)

Lemma wp_try {A} (f : Vault.t → result VaultError.t A) P Q s :
  (∀ a, f s.2 = Ok a → P a s) → (∀ e, f s.2 = Err e → Q e s) → wp (try_ f) P Q s.
Proof. unfold wp, try_. destruct (f s.2); auto. Qed.

Lemma wp_on_world {A} (m : proc World VaultError.t A) P Q w v :
  wp m (λ a w', P a (w', v)) (λ e w', Q e (w', v)) w → wp (on_world m) P Q (w, v).
Proof. intros H. by apply wp_zoom. Qed.

Lemma wp_clock_now P (Q : VaultError.t → World * Vault.t → Prop) w v :
  (∀ at_ w', Timestamp.wf at_ → disk w' = disk w → P at_ (w', v)) → wp clock_now P Q (w, v).
Proof. intros H. apply wp_on_world, wp_now. auto. Qed.

Lemma wp_random n P (Q : VaultError.t → World * Vault.t → Prop) w v :
  (∀ bs w', length bs = n → disk w' = disk w → P bs (w', v)) →
  (∀ w', disk w' = disk w → Q VaultError.Crypto (w', v)) →
  wp (crypto (random_bytes n)) P Q (w, v).
Proof. intros HP HQ. apply wp_on_world, wp_map_perr, wp_random_bytes; auto. Qed.

Lemma wp_new_id P (Q : VaultError.t → World * Vault.t → Prop) w v :
  (∀ id w', is_str id = true → disk w' = disk w → P id (w', v)) →
  (∀ w', disk w' = disk w → Q VaultError.Crypto (w', v)) → wp new_id P Q (w, v).
Proof.
  intros HP HQ. apply wp_bind, wp_random; [|done]. intros bs w' _ Hd. apply wp_ret, HP; [apply is_str_hex|done].
Qed.

Lemma wp_generate P (Q : VaultError.t → World * Vault.t → Prop) w v :
  (∀ k w', DataKey.wf k → disk w' = disk w → P k (w', v)) →
  (∀ w', disk w' = disk w → Q VaultError.Crypto (w', v)) → wp (crypto DataKey.generate) P Q (w, v).
Proof.
  intros HP HQ. apply wp_on_world, wp_map_perr, wp_bind, wp_random_bytes; [|done].
  intros bs w' Hl Hd. by apply wp_ret, HP.
Qed.

Lemma wp_token P (Q : VaultError.t → World * Vault.t → Prop) w v :
  (∀ t w', disk w' = disk w → token.issued_hash t = token.hash (token.secret t) ∧ token.secret t ≠ "" → P t (w', v)) →
  (∀ w', disk w' = disk w → Q VaultError.Crypto (w', v)) → wp (crypto token.generate) P Q (w, v).
Proof.
  intros HP HQ. apply wp_on_world, wp_map_perr, wp_bind, wp_random_bytes; [|done].
  intros bs w' _ Hd. by apply wp_ret, HP.
Qed.

Lemma wp_seal {F} (f : AeadError → F) key plain aad (P : Envelope → World → Prop) Q w :
  (∀ env w', disk w' = disk w → DataKey.open key env aad = Ok plain → P env w') →
  (∀ w' e, disk w' = disk w → Q (f e) w') → wp (map_perr f (DataKey.seal key plain aad)) P Q w.
Proof.
  intros HP HQ. apply wp_map_perr. unfold wp. destruct (DataKey.seal key plain aad w) as [[env|e] w'] eqn:E;
    pose proof (DataKey.seal_disk _ _ _ _ _ _ E) as Hd; [|by apply HQ].
  apply HP; [done|]. by apply DataKey.seal_ok in E as [? _].
Qed.

Lemma wp_wrap {F} (f : AeadError → F) key k aad (P : Envelope → World → Prop) Q w :
  DataKey.wf k →
  (∀ env w', disk w' = disk w → DataKey.unwrap_key key env aad = Ok k → P env w') →
  (∀ w' e, disk w' = disk w → Q (f e) w') → wp (map_perr f (DataKey.wrap key k aad)) P Q w.
Proof.
  intros Hk HP HQ. apply wp_seal; [|done]. intros env w' Hd Ho. apply HP; [done|].
  unfold DataKey.unwrap_key. rewrite Ho. cbn. by rewrite DataKey.from_bytes_material.
Qed.

Lemma wp_hash f pw P (Q : VaultError.t → World * Vault.t → Prop) w v :
  (∀ h w', is_str h = true → password.verify pw h = true → disk w' = disk w → P h (w', v)) →
  (∀ w' e, disk w' = disk w → Q (f e) (w', v)) → wp (on_world (map_perr f (password.hash pw))) P Q (w, v).
Proof.
  intros HP HQ. apply wp_on_world, wp_map_perr. unfold wp.
  destruct (password.hash pw w) as [[h|e] w'] eqn:E; pose proof (password.hash_disk _ _ _ _ E); [|by apply HQ].
  apply password.hash_ok in E as (_ & _ & ? & ? & _). by apply HP.
Qed.

(** ** Committing *)

(** What a failed commit reports: the log's error. *)
Definition store_error (e : VaultError.t) : Prop := ∃ f, e = VaultError.Store f.

(** Only the log in memory and the disk have changed. *)
Definition same_memory (v v' : Vault.t) : Prop :=
  state v' = state v ∧ barrier v' = barrier v ∧ root_key v' = root_key v ∧ pending_shares v' = pending_shares v.

#[global] Instance same_memory_preorder : PreOrder same_memory.
Proof.
  split; [done|]. intros v1 v2 v3 (? & ? & ? & ?) (? & ? & ? & ?). split_and!; congruence.
Qed.

Lemma replay_snoc evs e : State.replay (evs ++ [e]) = State.apply (State.replay evs) e.
Proof. unfold State.replay. by rewrite fold_left_app. Qed.

Lemma events_of_app recs recs' :
  events_of (recs ++ recs') = let? evs := events_of recs in map_ok (app evs) (events_of recs').
Proof.
  induction recs as [|r recs IH]; cbn [app events_of]; [by destruct (events_of recs')|].
  destruct (sealed r); [|done]. destruct (Event.from_bytes (payload r)); cbn [res_bind]; [|done].
  rewrite IH. destruct (events_of recs); cbn [res_bind]; [|done]. by destruct (events_of recs').
Qed.

Lemma events_of_snoc recs evs e :
  events_of recs = Ok evs → Event.wf e → events_of (recs ++ [event_record e]) = Ok (evs ++ [e]).
Proof. intros H He. rewrite events_of_app, H. cbn. by rewrite from_to_bytes. Qed.

Lemma plains_snoc recs e : LogSpec.plains (recs ++ [event_record e]) = LogSpec.plains recs.
Proof. unfold LogSpec.plains. rewrite filter_app, fmap_app. cbn. by rewrite app_nil_r. Qed.

(** The file after an append that the log's own theorem accounts for. *)
Lemma stored_snoc p master root b evs e d d' l l' recs :
  stored_as p master root b evs d l → Event.wf e → path l' = path l →
  (LogSpec.names_ok d → LogSpec.names_ok d') →
  events_of recs = Ok evs → barrier_in (LogSpec.plains recs) b →
  LogSpec.is_log root d' l' (recs ++ [event_record e]) →
  stored_as p master root b (evs ++ [e]) d' l'.
Proof.
  intros [Hp Hn _ Hu] Hw Hp' Hn' He Hb Hl'. split; [congruence|auto| |done].
  exists (recs ++ [event_record e]). split_and!; [done|by apply events_of_snoc|by rewrite plains_snoc].
Qed.

(** ... and one that changed nothing but the names allowed it. *)
Lemma stored_same p master root b evs d d' l l' recs :
  stored_as p master root b evs d l → path l' = path l → (LogSpec.names_ok d → LogSpec.names_ok d') →
  events_of recs = Ok evs → barrier_in (LogSpec.plains recs) b → LogSpec.is_log root d' l' recs →
  stored_as p master root b evs d' l'.
Proof. intros [Hp Hn _ Hu] Hp' Hn' He Hb Hl'. split; [congruence|auto|by exists recs|done]. Qed.

Lemma wp_commit p master evs e w v :
  live p master evs (w, v) → Event.wf e →
  wp (commit e)
    (λ _ '(w', v'), live p master (evs ++ [e]) (w', v') ∧ same_memory (apply_event e v) v')
    (λ err '(w', v'), live p master evs (w', v') ∧ same_memory v v' ∧ store_error err)
    (w, v).
Proof.
  intros (root & b & extra & Hroot & Hb & Hst & Hs & Hbr & Hlen) He. cbn [fst snd] in *.
  apply wp_bind, wp_try; cbn [snd]; intros k; rewrite Hroot; [|done]. intros [= <-].
  apply wp_bind. unfold on_log. apply wp_zoom. cbn [fst snd]. apply wp_map_perr.
  destruct (stored_log _ _ _ _ _ _ _ Hs) as (recs & Hl0 & Hev & Hbar).
  eapply wp_mono; [apply (LogSpec.append_refines_eq root (Event.to_bytes e) w (log v) _ Hl0)|..]; cbv beta.
  - intros _ [w' l'] (Hp & Hb0 & Hb' & Hl & Hn). apply wp_modify. cbn [fst snd]. rewrite (Hbr Hb0) in *.
    rewrite app_nil_r in *. split; [|done]. exists root, b, [].
    cbn [fst snd apply_event Vault.set_log root_key barrier state log]. rewrite app_nil_r.
    split_and!; [done|done|by rewrite Hst, replay_snoc| |done|cbn; lia].
    by eapply stored_snoc.
  - intros err [w' l'] (Hp & Hn & [(Hd & -> & _)|(_ & _ & Hb0 & Hb' & Hl)]); cbn [fst snd];
      (split; [|split; [done|by eexists]]).
    + exists root, b, extra. cbn [fst snd Vault.set_log root_key barrier state log]. by rewrite Hd.
    + rewrite (Hbr Hb0), app_nil_r in *. destruct Hl as [Hl|Hl].
      * exists root, b, []. cbn [fst snd Vault.set_log root_key barrier state log]. rewrite app_nil_r.
        split_and!; [done..| |done|cbn; lia]. by eapply stored_same.
      * exists root, b, [e]. cbn [fst snd Vault.set_log root_key barrier state log].
        split_and!; [done..| |congruence|done]. by eapply stored_snoc.
Qed.

(** ** The texts in memory are texts *)

Definition state_ok (st : State.t) : Prop :=
  Forall (λ u, is_str (User.id u) = true) (State.users st)
  ∧ Forall (λ t, is_str (Token.id t) = true ∧ Event.opt_str (Token.user_id t) = true) (State.tokens st)
  ∧ Forall (λ x, is_str (Project.id x) = true) (State.projects st)
  ∧ Forall (λ x, is_str (Environment.id x) = true) (State.environments st).

Lemma apply_state_ok st e : state_ok st → Event.wf e → state_ok (State.apply st e).
Proof.
  intros (Hu & Ht & Hp & He) Hw. destruct e; cbn [Event.wf State.apply] in *; destruct_and?.
  - split_and!; [apply Forall_app; split; [done|by constructor]|done..].
  - split_and!; [done| |done..]. apply Forall_app. split; [done|]. by constructor.
  - destruct (update_first _ _ _) as [l|] eqn:E; [|done]. split_and!; [done| |done..]. cbn.
    apply update_first_some in E as (l1 & x & l2 & E & _ & -> & _). rewrite E in Ht.
    apply Forall_app in Ht as [H1 H2]. apply Forall_cons in H2 as [Hx H2].
    apply Forall_app. split; [done|]. by constructor.
  - split_and!; [done|done| |done]. apply Forall_app. split; [done|]. by constructor.
  - split_and!; [done|done|done|]. apply Forall_app. split; [done|]. by constructor.
  - by destruct (update_first _ _ _).
  - done.
  - done.
Qed.

Lemma replay_state_ok evs : Forall Event.wf evs → state_ok (State.replay evs).
Proof.
  induction evs as [|e evs IH] using rev_ind; [intros _; repeat split; constructor|].
  intros [H He]%Forall_app. rewrite replay_snoc. apply apply_state_ok; [by apply IH|]. by inversion He.
Qed.

Lemma events_of_wf recs evs : events_of recs = Ok evs → Forall Event.wf evs.
Proof.
  revert evs. induction recs as [|r recs IH]; intros evs; cbn [events_of]; [by intros [= <-]|].
  destruct (sealed r); [|apply IH]. rewrite res_bind_ok. intros (e & He & H).
  rewrite res_bind_ok in H. destruct H as (es & Hes & [= <-]).
  constructor; [by eapply from_bytes_wf|by apply IH].
Qed.

Lemma live_state_ok p master evs s : live p master evs s → state_ok (state s.2).
Proof.
  intros (root & b & extra & _ & _ & -> & [_ _ (recs & _ & H & _) _] & _).
  apply events_of_wf, Forall_app in H as [H _]. by apply replay_state_ok.
Qed.

Lemma state_find {A} (f : A → bool) (P : A → Prop) l x : Forall P l → List.find f l = Some x → P x.
Proof. intros H [Hx _]%find_some_iff. rewrite Forall_forall in H. by apply H. Qed.

Lemma resolve_is_str v ps es ids :
  state_ok (state v) → resolve v ps es = Ok ids → is_str ids.1 = true ∧ is_str ids.2 = true.
Proof.
  intros (_ & _ & Hp & He). unfold resolve. rewrite res_bind_ok. intros (x & Hx%ok_or_ok & H).
  rewrite res_bind_ok in H. destruct H as (y & Hy%ok_or_ok & [= <-]).
  split; [apply (state_find _ _ _ _ Hp Hx)|apply (state_find _ _ _ _ He Hy)].
Qed.

(** ** The run of a method on an unsealed vault

    A method entered with [evs] in the log is, at any point, at a [stage]: it has
    committed the events [new], all of them [ok], and has not touched the keys. *)

Definition same_keys (v v' : Vault.t) : Prop :=
  barrier v' = barrier v ∧ root_key v' = root_key v ∧ pending_shares v' = pending_shares v.

Section Stage.
Variables (p : string) (master : DataKey.t) (evs : list Event) (v : Vault.t) (ok : Event → Prop).

Definition stage (new : list Event) (s : World * Vault.t) : Prop :=
  live p master (evs ++ new) s ∧ same_keys v s.2 ∧ Forall ok new.

(** Where a method ends up, however it ends. *)
Definition grown (s : World * Vault.t) : Prop := ∃ new, stage new s.

Implicit Types (Q : VaultError.t → World * Vault.t → Prop).

Lemma stage_grown new s : stage new s → grown s.
Proof. by exists new. Qed.

Lemma stage_disk new s w' : stage new s → disk w' = disk s.1 → stage new (w', s.2).
Proof. intros (Hl & Hk & Ho) Hd. split_and!; [|done|done]. destruct s. by eapply live_disk. Qed.

Lemma wp_commit_at new e s P Q :
  stage new s → Event.wf e → ok e →
  (∀ s', stage (new ++ [e]) s' → state s'.2 = State.apply (state s.2) e → P tt s') →
  (∀ s' err, stage new s' → state s'.2 = state s.2 → store_error err → Q err s') → wp (commit e) P Q s.
Proof.
  destruct s as [w1 v1]. intros (Hl & (Hb & Hr & Hp) & Ho) He Hok HP HQ.
  eapply wp_mono; [by apply wp_commit|..].
  - intros [] [w' v'] (Hl' & Hs & Hb' & Hr' & Hp'). apply HP; [|done]. cbn [state barrier root_key pending_shares apply_event] in *.
    split_and!; [by rewrite app_assoc|unfold same_keys in *; split_and!; cbn in *; congruence|].
    apply Forall_app. by split; [|constructor].
  - intros err [w' v'] (Hl' & (Hs & Hb' & Hr' & Hp') & Herr). apply HQ; [|done..].
    split_and!; [done|split_and!; cbn in *; congruence|done].
Qed.

Lemma wp_clock_at new s P Q :
  stage new s → (∀ at_ s', Timestamp.wf at_ → stage new s' → s'.2 = s.2 → P at_ s') → wp clock_now P Q s.
Proof.
  destruct s as [w1 v1]. intros Hs HP. apply wp_clock_now. intros at_ w' Ht Hd. apply HP; [done| |done].
  by apply (stage_disk new (w1, v1)).
Qed.

Lemma wp_new_id_at new s P Q :
  stage new s → (∀ id s', is_str id = true → stage new s' → s'.2 = s.2 → P id s') →
  (∀ s', stage new s' → s'.2 = s.2 → Q VaultError.Crypto s') → wp new_id P Q s.
Proof.
  destruct s as [w1 v1]. intros Hs HP HQ. apply wp_new_id; intros; [apply HP|apply HQ]; try done;
    by apply (stage_disk new (w1, v1)).
Qed.

Lemma wp_generate_at new s P Q :
  stage new s → (∀ k s', DataKey.wf k → stage new s' → s'.2 = s.2 → P k s') →
  (∀ s', stage new s' → s'.2 = s.2 → Q VaultError.Crypto s') → wp (crypto DataKey.generate) P Q s.
Proof.
  destruct s as [w1 v1]. intros Hs HP HQ. apply wp_generate; intros; [apply HP|apply HQ]; try done;
    by apply (stage_disk new (w1, v1)).
Qed.

Lemma wp_token_at new s P Q :
  stage new s →
  (∀ t s', token.issued_hash t = token.hash (token.secret t) ∧ token.secret t ≠ "" → stage new s' → s'.2 = s.2 → P t s') →
  (∀ s', stage new s' → s'.2 = s.2 → Q VaultError.Crypto s') → wp (crypto token.generate) P Q s.
Proof.
  destruct s as [w1 v1]. intros Hs HP HQ. apply wp_token; intros; [apply HP|apply HQ]; try done;
    by apply (stage_disk new (w1, v1)).
Qed.

Lemma wp_hash_at f pw new s P Q :
  stage new s →
  (∀ h s', is_str h = true → password.verify pw h = true → stage new s' → s'.2 = s.2 → P h s') →
  (∀ s' e, stage new s' → s'.2 = s.2 → Q e s') → wp (on_world (map_perr f (password.hash pw))) P Q s.
Proof.
  destruct s as [w1 v1]. intros Hs HP HQ. apply wp_hash; intros; [apply HP|apply HQ]; try done;
    by apply (stage_disk new (w1, v1)).
Qed.

Lemma wp_seal_at (f : AeadError → VaultError.t) key plain aad new s P Q :
  stage new s →
  (∀ env s', DataKey.open key env aad = Ok plain → stage new s' → s'.2 = s.2 → P env s') →
  (∀ s' e, stage new s' → s'.2 = s.2 → Q (f e) s') → wp (on_world (map_perr f (DataKey.seal key plain aad))) P Q s.
Proof.
  destruct s as [w1 v1]. intros Hs HP HQ. apply wp_on_world, wp_seal; intros; [apply HP|apply HQ]; try done;
    by apply (stage_disk new (w1, v1)).
Qed.

Lemma wp_wrap_at key k aad new s P Q :
  stage new s → DataKey.wf k →
  (∀ env s', DataKey.unwrap_key key env aad = Ok k → stage new s' → s'.2 = s.2 → P env s') →
  (∀ s', stage new s' → s'.2 = s.2 → Q VaultError.Crypto s') → wp (crypto (DataKey.wrap key k aad)) P Q s.
Proof.
  destruct s as [w1 v1]. intros Hs Hk HP HQ. apply wp_on_world, wp_wrap; [done|..]; intros; [apply HP|apply HQ]; try done;
    by apply (stage_disk new (w1, v1)).
Qed.

(** ** The parts methods share *)

(** A caller as [authenticate] makes them. *)
Definition caller_ok (c : Caller.t) : Prop :=
  is_str (Caller.token_id c) = true ∧ Event.opt_str (Caller.user_id c) = true.

Lemma actor_is_str c : caller_ok c → is_str (Caller.actor c) = true.
Proof.
  intros [Ht Hu]. unfold Caller.actor. destruct (Caller.user_id c); [by apply is_str_app|].
  destruct (Caller.kind c); by apply is_str_app.
Qed.

Definition audit (caller : Caller.t) (action target outcome : string) (e : Event) : Prop :=
  ∃ at_, e = Audited at_ (Caller.actor caller) action target outcome.

Lemma wp_audit_at c action target outcome new s P Q :
  stage new s → caller_ok c → is_str action = true → is_str target = true → is_str outcome = true →
  (∀ e, audit c action target outcome e → ok e) →
  (∀ e s', audit c action target outcome e → stage (new ++ [e]) s' → state s'.2 = state s.2 → P tt s') →
  (∀ s' err, stage new s' → state s'.2 = state s.2 → store_error err → Q err s') →
  wp (record_audit c action target outcome) P Q s.
Proof.
  intros Hs Hc Ha Ht Ho Hok HP HQ. apply wp_bind. eapply wp_clock_at; [done|]. intros at_ s1 Hat Hs1 E1.
  eapply wp_commit_at; [done|split_and!; [done|by apply actor_is_str|done..]|apply Hok; by eexists|..].
  - intros s' Hs' Hst. eapply HP; [by eexists|done|]. by rewrite Hst, E1.
  - intros s' err Hs' Hst. apply HQ; [done|]. by rewrite Hst, E1.
Qed.

(** A refusal recorded: the caller gets the refusal, or the error of recording it. *)
Lemma wp_record_and_fail {A} c action target outcome error new s (P : A → World * Vault.t → Prop) Q :
  stage new s → caller_ok c → is_str action = true → is_str target = true → is_str outcome = true →
  (∀ e, audit c action target outcome e → ok e) →
  (∀ e s', audit c action target outcome e → stage (new ++ [e]) s' → state s'.2 = state s.2 → Q error s') →
  (∀ s' err, stage new s' → state s'.2 = state s.2 → store_error err → Q err s') →
  wp (do! record_audit c action target outcome in fail error) P Q s.
Proof. intros. apply wp_bind. eapply wp_audit_at; eauto. Qed.

Lemma wp_resolve_at c action ps es target new s P Q :
  stage new s → caller_ok c → is_str action = true → is_str target = true →
  (∀ e, audit c action target "unknown" e → ok e) →
  (∀ ids, resolve s.2 ps es = Ok ids → is_str ids.1 = true → is_str ids.2 = true → P ids s) →
  (∀ err e s', resolve_for s.2 c ps es = Err err → audit c action target "unknown" e →
     stage (new ++ [e]) s' → state s'.2 = state s.2 → Q err s') →
  (∀ s' err, stage new s' → state s'.2 = state s.2 → store_error err → Q err s') →
  wp (resolve_and_record c action ps es target) P Q s.
Proof.
  intros Hs Hc Ha Ht Hok HP HQ HE. unfold resolve_and_record, wp.
  destruct (resolve_for s.2 c ps es) as [ids|err] eqn:E.
  - assert (resolve s.2 ps es = Ok ids) as Hr.
    { unfold resolve_for in E. destruct (resolve s.2 ps es); [done|]. by case_decide. }
    destruct (resolve_is_str s.2 ps es ids) as [? ?]; [|done|by apply HP]. eapply live_state_ok, Hs.
  - assert (wp (do! record_audit c action target "unknown" in fail err) P Q s) as H; [|exact H].
    eapply wp_record_and_fail; eauto.
Qed.

Lemma wp_authorise_at c cap action target p_id e_id new s P Q :
  stage new s → caller_ok c → is_str action = true → is_str target = true →
  (∀ e, audit c action target "denied" e → ok e) →
  (authorise c cap p_id e_id = Ok tt → P tt s) →
  (∀ err e s', authorise c cap p_id e_id = Err err → audit c action target "denied" e →
     stage (new ++ [e]) s' → state s'.2 = state s.2 → Q err s') →
  (∀ s' err, stage new s' → state s'.2 = state s.2 → store_error err → Q err s') →
  wp (authorise_and_record c cap action target p_id e_id) P Q s.
Proof.
  intros Hs Hc Ha Ht Hok HP HQ HE. unfold authorise_and_record.
  destruct (authorise c cap p_id e_id) as [[]|err] eqn:E; [by apply HP|].
  eapply wp_record_and_fail; eauto.
Qed.
End Stage.

(** ** Every method keeps the invariant

    Started on an unsealed vault, each method that is not about the keys ends, on
    every path and under any failure of the system, on an unsealed vault whose
    log has grown. *)

Section Grown.
Variables (p : string) (master : DataKey.t) (evs : list Event).

Definition anything (e : Event) : Prop := True.

Abbreviation stage_ v := (stage p master evs v anything).
Abbreviation grown_ v := (grown p master evs v anything).

(** One step: a rule for what comes next, or the end. *)
Ltac vault_step :=
  lazymatch goal with
  | |- grown _ _ _ _ _ _ => eapply stage_grown; eassumption
  | |- wp (bind _ _) _ _ _ => apply wp_bind
  | |- wp (ret _) _ _ _ => apply wp_ret
  | |- wp (fail _) _ _ _ => apply wp_fail
  | |- wp (lift _) _ _ _ => apply wp_lift; intros
  | |- wp (try_ _) _ _ _ => apply wp_try; intros
  | |- wp (reads _) _ _ _ => apply wp_gets
  | |- wp (commit _) _ _ _ => eapply wp_commit_at; [eassumption| |exact I|intros|intros]
  | |- wp (crypto (random_bytes _)) _ _ _ => fail 1
  | |- wp clock_now _ _ _ => eapply wp_clock_at; [eassumption|intros]
  | |- wp new_id _ _ _ => eapply wp_new_id_at; [eassumption|intros|intros]
  | |- wp (crypto DataKey.generate) _ _ _ => eapply wp_generate_at; [eassumption|intros|intros]
  | |- wp (crypto token.generate) _ _ _ => eapply wp_token_at; [eassumption|intros|intros]
  | |- wp (on_world (map_perr _ (password.hash _))) _ _ _ => eapply wp_hash_at; [eassumption|intros|intros]
  | |- wp (on_world (map_perr _ (DataKey.seal _ _ _))) _ _ _ => eapply wp_seal_at; [eassumption|intros|intros]
  | |- wp (crypto (DataKey.wrap _ _ _)) _ _ _ => eapply wp_wrap_at; [eassumption|eassumption|intros|intros]
  | |- wp (record_audit _ _ _ _) _ _ _ => eapply wp_audit_at; [eassumption|eassumption| | | |done|intros|intros]
  | |- wp (resolve_and_record _ _ _ _ _) _ _ _ =>
      eapply wp_resolve_at; [eassumption|eassumption| | |done|intros|intros|intros]
  | |- wp (authorise_and_record _ _ _ _ _ _) _ _ _ =>
      eapply wp_authorise_at; [eassumption|eassumption| | |done|intros|intros|intros]
  | |- wp (match ?x with (_, _) => _ end) _ _ _ => destruct x
  | |- wp (match ?x with _ => _ end) _ _ _ => let E := fresh "E" in destruct x eqn:E
  end.

Lemma is_str_target a b c :
  is_str a = true → is_str b = true → is_str c = true → is_str (target_of a b c) = true.
Proof. intros. unfold target_of. repeat (apply is_str_app; [done|]). done. Qed.

Lemma secret_key_is_str key key' : validate.secret_key key = Ok key' → key' = key.
Proof. unfold validate.secret_key. split_match; congruence. Qed.

Lemma slug_is_str s what s' : validate.slug s what = Ok s' → s' = s.
Proof. unfold validate.slug. split_match; congruence. Qed.

Lemma email_is_str s e : validate.email s = Ok e → is_str e = true.
Proof. intros ->%email_ok_normal. apply is_str_normal_form. Qed.

Lemma live_stage s : live p master evs s → stage_ s.2 [] s.
Proof. intros Hl. split_and!; [by rewrite app_nil_r|done|by constructor]. Qed.

(** Run a method from a live state, with what is known of its arguments. *)
Ltac grow Hl :=
  let Hs := fresh "Hs" in pose proof (live_stage _ Hl) as Hs; repeat vault_step;
  simplify_eq/=;
  repeat match goal with
  | H : validate.secret_key _ = Ok _ |- _ => apply secret_key_is_str in H; subst
  | H : validate.slug _ _ = Ok _ |- _ => apply slug_is_str in H; subst
  | H : validate.email _ = Ok _ |- _ => apply email_is_str in H
  end;
  try done; try (cbn [Event.wf]; by split_and!).

Lemma get_secret_grown c ps es key s :
  live p master evs s → caller_ok c → is_str ps = true → is_str es = true → is_str key = true →
  wp (get_secret c ps es key) (λ _, grown_ s.2) (λ _, grown_ s.2) s.
Proof. intros Hl Hc Hp He Hk. pose proof (is_str_target ps es key Hp He Hk) as Ht. unfold get_secret. grow Hl. Qed.

Lemma list_secrets_grown c ps es s :
  live p master evs s → caller_ok c → is_str ps = true → is_str es = true →
  wp (list_secrets c ps es) (λ _, grown_ s.2) (λ _, grown_ s.2) s.
Proof.
  intros Hl Hc Hp He. assert (is_str (ps +:+ "/" +:+ es) = true) as Ht by (repeat (apply is_str_app; [done|]); done).
  unfold list_secrets. grow Hl.
Qed.

Lemma set_secret_grown c ps es key value s :
  live p master evs s → caller_ok c → is_str ps = true → is_str es = true → is_str key = true →
  wp (set_secret c ps es key value) (λ _, grown_ s.2) (λ _, grown_ s.2) s.
Proof.
  intros Hl Hc Hp He Hk. pose proof (is_str_target ps es key Hp He Hk) as Ht. unfold set_secret. grow Hl.
Qed.

Lemma delete_secret_grown c ps es key s :
  live p master evs s → caller_ok c → is_str ps = true → is_str es = true → is_str key = true →
  wp (delete_secret c ps es key) (λ _, grown_ s.2) (λ _, grown_ s.2) s.
Proof.
  intros Hl Hc Hp He Hk. pose proof (is_str_target ps es key Hp He Hk) as Ht. unfold delete_secret. grow Hl.
Qed.

Lemma create_user_grown c email pw s :
  live p master evs s → wp (create_user c email pw) (λ _, grown_ s.2) (λ _, grown_ s.2) s.
Proof. intros Hl. unfold create_user. grow Hl. Qed.

(** [issue_token] at a stage: what it is asked for ends up in the log. *)
Lemma issue_token_at v new s kind u pr en label ttl Q :
  stage_ v new s → Event.opt_str u = true → Event.opt_str pr = true → Event.opt_str en = true →
  Event.opt_str label = true → (∀ s' e, grown_ v s' → Q e s') →
  wp (issue_token kind u pr en label ttl) (λ _, grown_ v) Q s.
Proof.
  intros Hs Hu Hp He Hlab HQ. unfold issue_token.
  do 2 vault_step; [|apply HQ; vault_step]. do 2 vault_step; [|apply HQ; vault_step].
  apply wp_bind. assert (∀ (P : option Timestamp.t → World * Vault.t → Prop) s1, stage_ v new s1 →
    (∀ exp s', Event.opt_time exp → stage_ v new s' → P exp s') →
    wp (match ttl with
        | Some ttl => let! at_ := clock_now in ret (Some (Timestamp.plus_seconds at_ ttl))
        | None => ret None
        end) P Q s1) as Hexp.
  { intros P s1 Hs1 HP. destruct ttl as [ttl|]; [|apply wp_ret, HP; done]. do 2 vault_step. apply wp_ret, HP; [|done].
    by apply Timestamp.plus_seconds_wf. }
  eapply Hexp; [eassumption|]. intros exp s2 Ht Hs2. repeat vault_step.
  - cbn [Event.wf]. by split_and!.
  - apply HQ. vault_step.
Qed.

Lemma login_grown email pw ttl s :
  live p master evs s → wp (login email pw ttl) (λ _, grown_ s.2) (λ _, grown_ s.2) s.
Proof.
  intros Hl. pose proof (live_stage _ Hl) as Hs. unfold login. repeat vault_step; try done.
  eapply issue_token_at; try done. cbn.
  destruct (live_state_ok _ _ _ _ Hl) as (Hu & _). by eapply (state_find _ _ _ _ Hu).
Qed.

Lemma issue_machine_token_grown c ps es label ttl s :
  live p master evs s → is_str label = true →
  wp (issue_machine_token c ps es label ttl) (λ _, grown_ s.2) (λ _, grown_ s.2) s.
Proof.
  intros Hl Hlab. pose proof (live_stage _ Hl) as Hs. pose proof (live_state_ok _ _ _ _ Hl) as Hok.
  unfold issue_machine_token. repeat vault_step; try done;
    match goal with H : resolve _ _ _ = Ok _ |- _ => destruct (resolve_is_str _ _ _ _ Hok H) end;
    by eapply issue_token_at.
Qed.

Lemma revoke_token_grown c id s :
  live p master evs s → is_str id = true →
  wp (revoke_token c id) (λ _, grown_ s.2) (λ _, grown_ s.2) s.
Proof. intros Hl Hid. unfold revoke_token. grow Hl. Qed.

Lemma create_project_grown c slug name s :
  live p master evs s → is_str slug = true → is_str name = true →
  wp (create_project c slug name) (λ _, grown_ s.2) (λ _, grown_ s.2) s.
Proof. intros Hl Hs' Hn. unfold create_project. grow Hl. Qed.

Lemma create_environment_grown c ps slug name s :
  live p master evs s → is_str slug = true → is_str name = true →
  wp (create_environment c ps slug name) (λ _, grown_ s.2) (λ _, grown_ s.2) s.
Proof.
  intros Hl Hs' Hn. destruct (live_state_ok _ _ _ _ Hl) as (_ & _ & Hp & _). unfold create_environment. grow Hl.
  match goal with H : map_ok _ (ok_or ?o _) = Ok _ |- _ => destruct o as [x|] eqn:Ex; [|done] end.
  simplify_eq/=. pose proof (state_find _ _ _ _ Hp Ex). cbn [Event.wf]. by split_and!.
Qed.

(** Reading the log back changes nothing. *)
Lemma wp_read_records_at v new s root (P : list Record_ → World * Vault.t → Prop) Q :
  stage_ v new s → root_key s.2 = Some root →
  (∀ recs s', events_of recs = Ok (evs ++ new) ∨ broken (log s.2) = true → stage_ v new s' → s'.2 = s.2 → P recs s') →
  (∀ s' e, stage_ v new s' → s'.2 = s.2 → Q (VaultError.Store e) s') →
  wp (on_world (map_perr VaultError.Store (Log.read_records (log s.2) root))) P Q s.
Proof.
  destruct s as [w1 v1]. intros Hs Hroot HP HQ. pose proof Hs as ((root' & b & extra & Hr & _ & _ & Hst & Hbr & _) & _).
  cbn [fst snd] in *. rewrite Hroot in Hr. injection Hr as <-.
  destruct (stored_log _ _ _ _ _ _ _ Hst) as (recs & Hl & Hev & _).
  apply wp_on_world, wp_map_perr. eapply wp_mono; [by apply LogSpec.wp_read_records|..]; cbv beta.
  - intros out w' [-> Hd]. apply HP; [| |done].
    + destruct (broken (log v1)) eqn:Hb; [by right|left]. by rewrite (Hbr eq_refl), app_nil_r in Hev.
    + by apply (stage_disk p master evs v anything new (w1, v1)).
  - intros e w' [_ Hd]. apply HQ; [|done]. by apply (stage_disk p master evs v anything new (w1, v1)).
Qed.

Lemma audit_trail_grown c s :
  live p master evs s → wp (audit_trail c) (λ _, grown_ s.2) (λ _, grown_ s.2) s.
Proof.
  intros Hl. pose proof (live_stage _ Hl) as Hs. unfold audit_trail. repeat vault_step; try done.
  eapply wp_read_records_at; [done|by eapply ok_or_ok|intros; by repeat vault_step|intros; vault_step].
Qed.

Lemma authenticate_grown presented s :
  live p master evs s → wp (authenticate presented) (λ _, grown_ s.2) (λ _, grown_ s.2) s.
Proof. intros Hl. unfold authenticate. grow Hl. Qed.
End Grown.

(** ** Opening, sealing and unsealing *)

(** [closed], with what the file holds and the master key that opens it. *)
Definition sealed_over (p : string) (master root : DataKey.t) (b : Barrier.t) (evs : list Event)
    (s : World * Vault.t) : Prop :=
  closed p b s ∧ stored_as p master root b evs (disk s.1) (log s.2).

Lemma stored_rep p master root b evs d l :
  stored_as p master root b evs d l →
  ∃ rs rest recs, LogSpec.rep d l rs rest ∧ LogSpec.decoded root rs = Ok recs ∧ events_of recs = Ok evs
    ∧ barrier_in (LogSpec.plain_of rs) b.
Proof.
  intros [_ _ (recs & (rs & rest & Hrep & Hd) & He & Hb) _]. exists rs, rest, recs.
  by rewrite (LogSpec.decoded_plains _ _ _ Hd) in Hb.
Qed.

Lemma seal_live p master evs s :
  live p master evs s → ∃ root b extra, sealed_over p master root b (evs ++ extra) (s.1, seal s.2)
    ∧ root_key s.2 = Some root ∧ barrier s.2 = Some b ∧ (length extra ≤ 1)%nat ∧ (broken (log s.2) = false → extra = []).
Proof.
  intros (root & b & extra & Hr & Hb & _ & Hs & Hbr & Hle). exists root, b, extra. split; [|done]. split; [|done].
  destruct (stored_rep _ _ _ _ _ _ _ Hs) as (rs & rest & recs & Hrep & _ & _ & Hbar). destruct Hs.
  split_and!; try done. by exists rs, rest.
Qed.

Lemma replay_records_events recs st :
  replay_records st recs = map_ok (λ evs, fold_left State.apply evs st) (events_of recs).
Proof.
  revert st. induction recs as [|r recs IH]; intros st; [done|]. cbn [replay_records events_of].
  destruct (sealed r); cbn [negb]; [|apply IH]. destruct (Event.from_bytes (payload r)) as [e|]; cbn [res_bind]; [|done].
  rewrite IH. by destruct (events_of recs).
Qed.

(** Whatever shares are pending, an attempt either unseals onto the replay of what
    the file decrypts to, or changes nothing. *)
Lemma wp_try_unseal p b s :
  closed p b s →
  wp try_unseal (λ _ s', ∃ master evs, live p master evs s') (λ _ s', s'.2 = s.2 ∧ disk s'.1 = disk s.1) s.
Proof.
  destruct s as [w v]. intros (Hr & Hst & Hb & Hp & Hn & rs & rest & Hrep & Hbar). cbn [fst snd] in *.
  apply wp_bind, wp_try; cbn [snd]; rewrite Hb; [intros ? [= <-]|done].
  apply wp_bind, wp_gets, wp_bind, wp_lift; intros master_bytes Hm; [|done].
  apply wp_bind, wp_lift; intros master Hk; [|done]. apply wp_bind, wp_lift; intros root Hu; [|done].
  apply map_err_ok in Hu.
  apply wp_bind, wp_bind, wp_gets, wp_bind, wp_on_world, wp_map_perr.
  eapply wp_mono; [by apply (LogSpec.wp_read_decoded root w (log v) rs rest)|..]; cbv beta; [|done].
  intros recs w' [Hd Hw]. apply wp_lift; intros st Hs; [|done]. apply map_err_ok in Hs.
  rewrite replay_records_events in Hs. destruct (events_of recs) as [evs|] eqn:He; [|done]. injection Hs as <-.
  apply wp_modify. exists master, evs, root, b, []. cbn [fst snd root_key barrier state log].
  rewrite app_nil_r. split_and!; try done; [|cbn; lia]. rewrite Hw. split; [done|done| |done].
  exists recs. split_and!; [by exists rs, rest|done|]. by rewrite (LogSpec.decoded_plains _ _ _ Hd).
Qed.

(** The vault with nothing pending and these keys. *)
Definition opened_as (p : string) (master root : DataKey.t) (b : Barrier.t) (evs : list Event)
    (s : World * Vault.t) : Prop :=
  live p master evs s ∧ pending_shares s.2 = [] ∧ root_key s.2 = Some root ∧ barrier s.2 = Some b.

(** With the right shares it is the vault that was sealed. *)
Lemma wp_try_unseal_quorum p master root b evs s :
  sealed_over p master root b evs s → shamir.combine (pending_shares s.2) = Ok (DataKey.material master) →
  DataKey.wf master →
  wp try_unseal (λ _ s', opened_as p master root b evs s')
    (λ e s', (∃ f, e = VaultError.Store f ∧ LogSpec.faulted f) ∧ s'.2 = s.2 ∧ disk s'.1 = disk s.1) s.
Proof.
  destruct s as [w v]. intros [(Hr & Hst & Hb & Hp & Hn & _) Hs] Hc Hwf. cbn [fst snd] in *.
  apply wp_bind, wp_try; cbn [snd]; rewrite Hb; [intros ? [= <-]|done].
  apply wp_bind, wp_gets, wp_bind. cbn [snd]. rewrite Hc. apply wp_lift; [intros mb [= <-]|done].
  apply wp_bind. rewrite DataKey.from_bytes_material by done. apply wp_lift; [intros m [= <-]|done].
  apply wp_bind. rewrite (stored_unwraps _ _ _ _ _ _ _ Hs). apply wp_lift; [intros k [= <-]|done].
  destruct (stored_log _ _ _ _ _ _ _ Hs) as (recs & Hl & He & Hbar).
  apply wp_bind, wp_bind, wp_gets, wp_bind, wp_on_world, wp_map_perr.
  eapply wp_mono; [by apply LogSpec.wp_read_records|..]; cbv beta.
  - intros out w' [-> Hw]. rewrite replay_records_events, He. apply wp_lift; [intros st [= <-]|done].
    apply wp_modify. split; [|by rewrite <- Hb]. exists root, b, []. cbn [fst snd root_key barrier state log].
    rewrite app_nil_r, Hw. split_and!; try done. cbn. lia.
  - intros e w' [Hf Hd]. split; [by exists e|done].
Qed.

Lemma closed_pending p b w v l : closed p b (w, v) → closed p b (w, set_pending l v).
Proof. done. Qed.

Lemma closed_disk p b w w' v : disk w' = disk w → closed p b (w, v) → closed p b (w', v).
Proof. intros Hd H. unfold closed in *. cbn [fst snd] in *. by rewrite Hd. Qed.

Lemma closed_offer p b s share : closed p b s → closed p b (s.1, offer share s.2).
Proof. unfold offer. case_decide; destruct s; [done|]. apply closed_pending. Qed.

Lemma wp_submit_share p b printed s :
  closed p b s →
  wp (submit_share printed)
    (λ st s', if status_sealed st then closed p b s' else ∃ master evs, live p master evs s')
    (λ _ s', closed p b s') s.
Proof.
  intros Hc. pose proof Hc as (Hr & _ & Hb & _).
  apply wp_bind, wp_try; rewrite Hb; [intros ? [= <-]|done].
  apply wp_bind, wp_gets. unfold is_sealed. rewrite Hr. cbn [negb].
  apply wp_bind, wp_lift; intros share Hs; [|done]. apply wp_bind, wp_modify, wp_bind, wp_gets. cbn [snd fst].
  apply (closed_offer _ _ _ share) in Hc. set (s1 := (s.1, offer share s.2)) in *.
  destruct (_ <? _); [by apply wp_ret|]. apply wp_bind, wp_attempt.
  eapply wp_mono; [by apply (wp_try_unseal p b s1)|..]; cbv beta.
  - intros _ s' Hl. by apply wp_ret.
  - intros e s' [E Hd]. apply wp_bind, wp_modify, wp_fail. rewrite E. apply closed_pending.
    apply (closed_disk _ _ s1.1); [done|]. by destruct s1.
Qed.

(** ** Opening the store *)

(** What [Vault.open] does once it has the log. *)
Definition with_log (p : string) (log : Log) : proc World VaultError.t Vault.t :=
  do! (if repaired log then
         Logger.emit (Logger.mk_call Warn "the store had an incomplete record at the end, which was discarded"
           [("store", path_text p)])
       else ret tt) in
  let! plain := map_perr VaultError.Store (Log.read_plain log) in
  if bool_decide (plain = []) && negb (count log =? 0)%nat
  then fail (VaultError.UnreadableBarrier "the store holds records but no barrier") else
  let! barrier :=
    (match last plain with
     | Some payload => let! b := lift (map_err VaultError.UnreadableBarrier (Barrier.from_bytes payload)) in ret (Some b)
     | None => ret None
     end) in
  ret (mk log State.default barrier None []).

Lemma open_with_log p : Vault.open p = (let! log := map_perr VaultError.Store (Log.open p) in with_log p log).
Proof. done. Qed.

Lemma wp_with_log p w l rs :
  LogSpec.rep (disk w) l rs [] → broken l = false → path l = p → LogSpec.names_ok (disk w) →
  wp (with_log p l)
    (λ v w', disk w' = disk w ∧ log v = l ∧ pending_shares v = []
      ∧ (rs = [] ∧ fresh p (w', v) ∨ ∃ b, barrier_in (LogSpec.plain_of rs) b ∧ closed p b (w', v)))
    (λ e w', disk w' = disk w ∧ ((∃ f, e = VaultError.Store f ∧ LogSpec.faulted f)
      ∨ (rs ≠ [] ∧ ∀ b, ¬ barrier_in (LogSpec.plain_of rs) b))) w.
Proof.
  intros Hrep Hb Hpath Hn. apply wp_bind.
  enough (∀ w1, disk w1 = disk w → wp (let! plain := map_perr VaultError.Store (Log.read_plain l) in _ plain) _ _ w1) as H
    by (destruct (repaired l); [apply Logger.wp_emit; exact H|by apply wp_ret, H]).
  intros w1 Hd1. rewrite <- Hd1 in Hrep, Hn |- *. clear Hd1 w. rename w1 into w. apply wp_bind, wp_map_perr.
  eapply wp_mono; [by apply (LogSpec.wp_read_plain w l rs [])|..]; cbv beta; [|intros e w' [Hf ?]; split; [done|left; eauto]].
  intros plain w2 [-> Hd]. destruct (LogSpec.rep_live _ _ _ _ Hrep Hb) as (_ & Hcount & _).
  destruct (last (LogSpec.plain_of rs)) as [raw|] eqn:Hlast.
  - assert (LogSpec.plain_of rs ≠ []) as Hne by (intros E; by rewrite E in Hlast).
    rewrite bool_decide_false by done. cbn [andb]. apply wp_bind, wp_bind, wp_lift; intros b Hbb.
    + apply map_err_ok in Hbb. apply wp_ret, wp_ret. split_and!; try done. right. exists b.
      split; [by exists raw|]. split_and!; try done; cbn [fst]; rewrite Hd; [done|].
      exists rs, []. split; [done|by exists raw].
    + split; [done|]. right. split; [by intros ->|]. intros b' (raw' & Hl & Hb'). rewrite Hlast in Hl. injection Hl as <-.
      by rewrite Hb' in Hbb.
  - apply last_None in Hlast. rewrite Hlast, bool_decide_true, Hcount by done. cbn [andb].
    destruct rs as [|r rs]; cbn [length Nat.eqb negb].
    + apply wp_bind, wp_ret, wp_ret. split_and!; try done. left. split; [done|].
      split_and!; try done; cbn [fst]; rewrite Hd; [done|]. by exists [], [].
    + split; [done|]. right. split; [done|]. intros b (raw & Hl & _). done.
Qed.

(** Whatever is openable opens as a vault that keeps the invariant, or fails and is
    openable still. *)
Lemma wp_boot p w :
  LogSpec.openable p (disk w) →
  wp (Vault.open p) (λ v w', vault_ok p (w', v)) (λ _ w', LogSpec.openable p (disk w')) w.
Proof.
  intros Hop. rewrite open_with_log. apply wp_bind, wp_map_perr.
  eapply wp_mono; [by apply LogSpec.wp_open_openable|..]; cbv beta; [|done].
  intros l w1 (Hpath & Hb & Hn & rs & Hrep).
  eapply wp_mono; [by apply (wp_with_log p w1 l rs)|..]; cbv beta.
  - intros v w2 (_ & _ & _ & [[_ Hf]|(b & _ & Hc)]); [by left|right; left; by exists b].
  - intros e w2 (-> & _). split; [done|]. right. exists (inode (file l)).
    split; [rewrite <- Hpath; apply (LogSpec.rep_named _ _ _ _ Hrep)|].
    right. exists rs, []. split; [apply (LogSpec.rep_holds _ _ _ _ Hrep)|apply LogSpec.partial_nil].
Qed.

(** Reopening a file that holds a vault's events gives the sealed vault over them. *)
Lemma wp_reopen_vault p master root b evs w l :
  stored_as p master root b evs (disk w) l →
  wp (Vault.open p)
    (λ v w', sealed_over p master root b evs (w', v) ∧ broken (log v) = false ∧ pending_shares v = [])
    (λ e w', ∃ f, e = VaultError.Store f ∧ LogSpec.faulted f) w.
Proof.
  intros Hs. destruct (stored_rep _ _ _ _ _ _ _ Hs) as (rs & rest & recs & Hrep & Hdec & Hev & Hbar).
  destruct Hs as [Hpath Hn _ Hu]. rewrite open_with_log. apply wp_bind, wp_map_perr.
  destruct Hrep as [Hnamed Hholds Hpart _]. rewrite Hpath in Hnamed.
  eapply wp_mono; [by apply (LogSpec.wp_open_existing p w (inode (file l)) rs rest)|..]; cbv beta; [|intros e w' [Hf _]; eauto].
  intros l1 w1 (Hrep & Hb & Hp1 & _ & Ht). pose proof (LogSpec.touches_names_ok _ _ _ Ht Hn) as Hn1.
  eapply wp_mono; [by apply (wp_with_log p w1 l1 rs)|..]; cbv beta.
  - intros v w2 (Hd & Hl & Hps & [[-> _]|(b' & Hb' & Hc)]); [by destruct Hbar as (? & ? & _)|].
    assert (b' = b) as ->.
    { destruct Hbar as (raw & H1 & H2), Hb' as (raw' & H1' & H2'). congruence. }
    split_and!; [|congruence|done]. split; [done|]. cbn [fst snd]. rewrite Hd, Hl. split; [done|done| |done].
    exists recs. split_and!; [by exists rs, []|done|]. by rewrite (LogSpec.decoded_plains _ _ _ Hdec).
  - intros e w2 (_ & [|[_ Hno]]); [done|]. by destruct (Hno b).
Qed.

(** ** Initialising *)

Lemma fresh_disk p w w' v : disk w' = disk w → fresh p (w, v) → fresh p (w', v).
Proof. intros Hd H. unfold fresh in *. cbn [fst snd] in *. by rewrite Hd. Qed.

Lemma split_disk secret threshold shares w r w' :
  shamir.split secret threshold shares w = (r, w') → disk w' = disk w.
Proof.
  assert (wp (shamir.split secret threshold shares) (λ _ w', disk w' = disk w) (λ _ w', disk w' = disk w) w) as H.
  { unfold shamir.split. repeat wp_step; try done. by apply wp_random_bytes. }
  intros E. eapply wp_run in H; [|exact E]. by destruct r.
Qed.

Lemma wp_split f secret threshold shares P (Q : VaultError.t → World * Vault.t → Prop) w v :
  (∀ out w', disk w' = disk w → fst (shamir.split secret threshold shares w) = Ok out → P out (w', v)) →
  (∀ w' e, disk w' = disk w → Q (f e) (w', v)) →
  wp (on_world (map_perr f (shamir.split secret threshold shares))) P Q (w, v).
Proof.
  intros HP HQ. apply wp_on_world, wp_map_perr. unfold wp.
  destruct (shamir.split secret threshold shares w) as [[out|e] w'] eqn:E; pose proof (split_disk _ _ _ _ _ _ E);
    [by apply HP|by apply HQ].
Qed.

(** Putting the barrier on disk. *)
Lemma wp_append_barrier p b w v :
  fresh p (w, v) → Barrier.wf b →
  wp (on_log (Log.append_plain (Barrier.to_bytes b)))
    (λ _ '(w', v'), same_memory v v' ∧ path (log v') = p ∧ LogSpec.names_ok (disk w')
      ∧ ∀ key, ∃ recs, LogSpec.is_log key (disk w') (log v') recs ∧ events_of recs = Ok []
                       ∧ barrier_in (LogSpec.plains recs) b)
    (λ _ s', fresh p s') (w, v).
Proof.
  intros Hf Hb. pose proof Hf as (Hr & Hst & Hbar & Hp & Hn & rs & rest & Hrep & Hempty). cbn [fst snd] in *.
  apply wp_zoom. cbn [fst snd]. apply wp_map_perr.
  eapply wp_mono; [by apply (LogSpec.wp_write_record KIND_PLAIN (Barrier.to_bytes b) w (log v) rs rest)|..]; cbv beta.
  - intros _ [w' l'] (_ & Hbr & _ & Hrep' & _ & Hp' & Ht). cbn [fst snd set_log log].
    split_and!; [done|congruence|by eapply LogSpec.touches_names_ok|].
    intros key. rewrite (Hempty Hbr) in Hrep'. exists [mk_record false (Barrier.to_bytes b)].
    split_and!; [by eexists _, []|done|]. exists (Barrier.to_bytes b). split; [done|]. by apply Barrier.barrier_from_to_bytes.
  - intros e [w' l'] H. unfold fresh. cbn [fst snd set_log log root_key state barrier].
    destruct H as [(Hd & -> & _)|(_ & _ & Hb0 & -> & Ht & Hrep')].
    + rewrite Hd. split_and!; try done. by exists rs, rest.
    + split_and!; try done; [by eapply LogSpec.touches_names_ok|].
      destruct Hrep' as [[rest' Hrep']|Hrep']; eexists _, _; (split; [exact Hrep'|done]).
Qed.

(** What [init] leaves: an unsealed vault whose log holds the root token, and the
    shares of the master key that wraps its root key. *)
Definition root_token_event (id : string) (t : token.IssuedToken) (at_ : Timestamp.t) : Event :=
  TokenIssued id (token.as_bytes (token.issued_hash t)) Root None None None (Some "root") None at_.

Lemma wp_init p t n s :
  fresh p s → in_u8 t = true → in_u8 n = true →
  wp (init t n)
    (λ out s', ∃ master_bytes w0 split id issued at_,
      length master_bytes = MASTER_KEY_LEN
      ∧ fst (shamir.split master_bytes t n w0) = Ok split
      ∧ out = mk_outcome (shamir.to_string <$> split) (token.secret issued) t
      ∧ live p (DataKey.mk master_bytes) [root_token_event id issued at_] s'
      ∧ Barrier.threshold <$> barrier s'.2 = Some t ∧ pending_shares s'.2 = pending_shares s.2)
    (λ _ s', vault_ok p s') s.
Proof.
  destruct s as [w v]. intros Hf Ht Hn. pose proof Hf as (_ & _ & Hb & _). cbn [snd] in Hb.
  assert (∀ w', disk w' = disk w → vault_ok p (w', v)) as Hfresh by (intros w' Hd; left; by apply (fresh_disk p w)).
  apply wp_bind, wp_gets. unfold is_initialized. cbn [snd]. rewrite Hb.
  apply wp_bind, wp_random; [|auto]. intros mb w1 Hmb E1.
  apply wp_bind, wp_split; [|intros; apply Hfresh; congruence]. intros split w2 E2 Hsplit.
  apply wp_bind. unfold DataKey.from_bytes. rewrite decide_True by done.
  apply wp_lift; [intros mk [= <-]|done].
  apply wp_bind, wp_generate; [|intros; apply Hfresh; congruence]. intros root w3 Hroot E3.
  apply wp_bind, wp_on_world, wp_wrap; [done| |intros; apply Hfresh; congruence]. intros wrapped w4 E4 Hwrap.
  apply wp_bind, wp_token; [|intros; apply Hfresh; congruence]. intros issued w5 E5 _.
  apply wp_bind, wp_new_id; [|intros; apply Hfresh; congruence]. intros id w6 Hid E6.
  apply wp_bind, wp_clock_now. intros at_ w7 Hat E7. cbv zeta.
  set (b := Barrier.mk t n (Sealed.of_envelope wrapped) at_).
  apply wp_bind. eapply wp_mono; [apply (wp_append_barrier p b)|..]; cbv beta.
  { apply (fresh_disk p w); [congruence|done]. } { done. }
  2: { intros e s' H. by left. }
  intros _ [w8 v8] ((Hs8 & Hb8 & Hr8 & Hp8) & Hpath & Hnames & Hlog).
  apply wp_bind, wp_modify. cbn [fst snd]. apply wp_bind, wp_clock_now. intros at2 w9 Hat2 E9.
  set (v9 := mk (log v8) (state v8) (Some b) (Some root) (pending_shares v8)).
  assert (live p (DataKey.mk mb) [] (w9, v9)) as Hlive.
  { exists root, b, []. cbn [fst snd root_key barrier state log v9]. rewrite E9, Hs8.
    destruct Hf as (_ & Hst & _). split_and!; [done..| |done|cbn; lia].
    split; [done|done|apply Hlog|].
    unfold b. cbn [Barrier.root_key]. by rewrite Sealed.to_of_envelope. }
  apply wp_bind, wp_map_perr. eapply wp_mono; [apply (wp_commit _ _ _ (root_token_event id issued at2) _ _ Hlive)|..]; cbv beta.
  - cbn [Event.wf root_token_event]. by split_and!.
  - intros _ [w' v'] (Hl & Hs' & Hb' & Hr' & Hp'). apply wp_ret.
    exists mb, w1, split, id, issued, at2. split_and!; try done; cbn [snd].
    + by rewrite Hb'.
    + cbn [pending_shares apply_event v9] in Hp'. by rewrite Hp', Hp8.
  - intros e [w' v'] (Hl & _). right. right. eauto.
Qed.

(** ** Rekeying *)

(** An event under the old root key and the same event under the new one. *)
Definition rewrapped (old new : DataKey.t) (e e' : Event) : Prop :=
  match e with
  | ProjectCreated id slug name k at_ =>
    ∃ k' dk, e' = ProjectCreated id slug name k' at_
      ∧ DataKey.unwrap_key old (Sealed.to_envelope k) (project_key_context id) = Ok dk
      ∧ DataKey.unwrap_key new (Sealed.to_envelope k') (project_key_context id) = Ok dk
  | _ => e' = e
  end.

Lemma rewrapped_wf old new e e' : rewrapped old new e e' → Event.wf e → Event.wf e'.
Proof. destruct e; cbn [rewrapped]; try (by intros ->). intros (? & ? & -> & _). done. Qed.

Lemma rewrapped_all_wf old new es es' : Forall2 (rewrapped old new) es es' → Forall Event.wf es → Forall Event.wf es'.
Proof.
  induction 1 as [|e e' es es' He _ IH]; [done|]. intros [Hw Hws]%Forall_cons.
  constructor; [by eapply rewrapped_wf|by apply IH].
Qed.

Lemma wp_carry old new e w :
  wp (carry old new e) (λ e' w', disk w' = disk w ∧ rewrapped old new e e') (λ _ w', disk w' = disk w) w.
Proof.
  destruct e; try (by apply wp_ret). cbn [carry]. cbv zeta. apply wp_bind, wp_lift; intros dk Hdk; [|done].
  apply map_err_ok in Hdk. apply wp_bind, wp_wrap; [by eapply DataKey.unwrap_wf| |done].
  intros env w' Hd Hu. apply wp_ret. split; [done|]. exists (Sealed.of_envelope env), dk.
  by rewrite Sealed.to_of_envelope.
Qed.

Lemma wp_carry_all old new evs w :
  wp (carry_all old new evs)
    (λ evs' w', disk w' = disk w ∧ Forall2 (rewrapped old new) evs evs') (λ _ w', disk w' = disk w) w.
Proof.
  revert w. induction evs as [|e evs IH]; intros w; cbn [carry_all]; [by apply wp_ret|].
  apply wp_bind. eapply wp_mono; [apply wp_carry|..]; cbv beta; [|done]. intros e' w1 [E1 He].
  apply wp_bind. eapply wp_mono; [apply IH|..]; cbv beta; [|intros; congruence]. intros evs' w2 [E2 Hevs].
  apply wp_ret. split; [congruence|by constructor].
Qed.

Lemma events_of_sealed evs : Forall Event.wf evs → events_of (mk_record true <$> (Event.to_bytes <$> evs)) = Ok evs.
Proof.
  induction 1 as [|e evs He _ IH]; [done|]. cbn [fmap list_fmap events_of sealed payload].
  rewrite from_to_bytes by done. cbn [res_bind]. cbn [fmap list_fmap] in IH. by rewrite IH.
Qed.

(** The file after a compaction. *)
Definition rekeyed (p : string) (master : DataKey.t) (c : Caller.t) (t n : Z) (evs : list Event) (s : World * Vault.t)
    (out : InitOutcome) (s' : World * Vault.t) : Prop :=
  ∃ old new master_bytes w0 split evs' e,
    root_key s.2 = Some old ∧ root_key s'.2 = Some new
    ∧ length master_bytes = MASTER_KEY_LEN ∧ fst (shamir.split master_bytes t n w0) = Ok split
    ∧ out = mk_outcome (shamir.to_string <$> split) "" t
    ∧ audit c "vault.rekey" "unseal shares" "ok" e
    ∧ live p (DataKey.mk master_bytes) (evs' ++ [e]) s'
    ∧ Barrier.threshold <$> barrier s'.2 = Some t ∧ pending_shares s'.2 = []
    ∧ ∃ late, (length late ≤ 1)%nat ∧ (broken (log s.2) = false → late = []) ∧ on_file p master (evs ++ late) s
        ∧ Forall2 (rewrapped old new) (evs ++ late) evs'.

Lemma plains_compacted ps qs : LogSpec.plains ((mk_record false <$> ps) ++ (mk_record true <$> qs)) = ps.
Proof.
  unfold LogSpec.plains. rewrite filter_app, fmap_app.
  assert (filter (λ r, sealed r = false) (mk_record true <$> qs) = []) as ->.
  { induction qs as [|q qs IH]; [done|]. cbn. by rewrite decide_False. }
  rewrite app_nil_r. induction ps as [|q ps IH]; [done|]. rewrite fmap_cons, filter_cons_True, fmap_cons by done. cbn [payload]. by f_equal.
Qed.

Lemma wp_rekey p master evs c t n s :
  live p master evs s → Log.with_extension p "compacting" ≠ p → caller_ok c → in_u8 t = true → in_u8 n = true →
  wp (rekey c t n) (rekeyed p master c t n evs s) (λ _ s', live p master evs s' ∧ s'.2 = s.2) s.
Proof.
  destruct s as [w v]. intros Hlive Hext Hc Ht Hn.
  assert (∀ w', disk w' = disk w → live p master evs (w', v) ∧ (w', v).2 = (w, v).2) as Hsame.
  { intros w' Hd. split; [by apply (live_disk _ _ _ w)|done]. }
  pose proof Hlive as (old & b0 & extra & Hroot & Hb & Hst & Hs & Hbr & Hle). cbn [fst snd] in *.
  destruct (stored_log _ _ _ _ _ _ _ Hs) as (recs & Hl & Hev & Hbar).
  apply wp_bind, wp_try; [|by intros; apply Hsame]. intros _ _. apply wp_bind, wp_lift; [|by intros; apply Hsame]. intros _ _.
  apply wp_bind, wp_try; cbn [snd]; rewrite Hroot; [intros ? [= <-]|done].
  apply wp_bind, wp_gets, wp_bind, wp_on_world, wp_map_perr. cbn [snd].
  eapply wp_mono; [by apply LogSpec.wp_read_records|..]; cbv beta; [|intros e w' [_ Hd]; by apply Hsame].
  intros out w1 [-> E1]. apply wp_bind. rewrite Hev. apply wp_lift; [intros ? [= <-]|done].
  apply wp_bind, wp_generate; [|intros; apply Hsame; congruence]. intros new w2 Hnew E2.
  apply wp_bind, wp_on_world. eapply wp_mono; [apply wp_carry_all|..]; cbv beta; [|intros; apply Hsame; congruence].
  intros evs' w3 [E3 Hcar]. apply wp_bind, wp_clock_now. intros at_ w4 Hat E4. cbv zeta.
  apply wp_bind, wp_random; [|intros; apply Hsame; congruence]. intros mb w5 Hmb E5.
  apply wp_bind, wp_split; [|intros; apply Hsame; congruence]. intros split w6 E6 Hsplit.
  apply wp_bind. unfold DataKey.from_bytes. rewrite decide_True by done. apply wp_lift; [intros mk [= <-]|done].
  apply wp_bind, wp_on_world, wp_wrap; [done| |intros; apply Hsame; congruence]. intros wrapped w7 E7 Hwrap.
  apply wp_bind, wp_clock_now. intros at2 w8 Hat2 E8. cbv zeta.
  set (b := Barrier.mk t n (Sealed.of_envelope wrapped) at2).
  set (e := Audited at_ (Caller.actor c) "vault.rekey" "unseal shares" "ok").
  assert (disk w8 = disk w) as E by congruence.
  destruct Hl as (rs & rest & Hrep & Hdec). rewrite <- E in Hrep.
  apply wp_bind, wp_zoom, wp_map_perr. cbn [fst snd].
  pose proof Hs as [Hpath Hnames _ _]. rewrite <- E in Hnames.
  eapply wp_mono; [eapply (LogSpec.wp_compact new); [exact Hrep|exact Hnames|by rewrite Hpath]|..]; cbv beta.
  2: { intros err [w' l'] (-> & Hrep' & Hn' & _). cbn [fst snd]. split; [|by destruct v].
       exists old, b0, extra. cbn [fst snd set_log root_key barrier state log].
       split_and!; [done..| |done|done]. destruct Hs as [_ _ _ Hu].
       split; [done|done| |done]. exists recs. split_and!; [by exists rs, rest|done|done]. }
  intros _ [w' l'] (Hp' & Hb' & Hn' & Hl'). apply wp_bind, wp_modify, wp_ret. cbn [fst snd].
  assert (Forall Event.wf (evs' ++ [e])) as Hwf.
  { apply Forall_app. split; [|constructor; [|done]].
    - by eapply rewrapped_all_wf, events_of_wf.
    - cbn [Event.wf e]. split_and!; (done || by apply actor_is_str). }
  exists old, new, mb, w5, split, evs', e.
  split_and!; try done; [by eexists| |].
  - exists new, b, []. cbn [fst snd root_key barrier state log]. rewrite app_nil_r.
    split_and!; [done..| |done|cbn; lia]. split; [cbn; congruence|done| |by cbn [b Barrier.root_key]; rewrite Sealed.to_of_envelope].
    eexists. split; [exact Hl'|]. split.
    + rewrite events_of_app. cbn [fmap list_fmap events_of sealed res_bind]. by rewrite events_of_sealed.
    + rewrite plains_compacted. exists (Barrier.to_bytes b). split; [done|]. by apply Barrier.barrier_from_to_bytes.
  - exists extra. split; [done|]. split; [done|]. split; [by exists old, b0|done].
Qed.
End VaultSpec.
End VaultSpec.
