(* ===== verification/VaultSecrets.v ===== *)
(** * Secrets, as a map

    [readable] is the abstract state of the vault for its clients: a partial map
    from slots (project, environment and key) to plaintexts. The lemmas here give
    the four operations on secrets their meaning in terms of it, with the audit
    entries each of them leaves, whatever fails on the way. *)

From S2P Require Import Prelude Text World Token Shamir Aead Event State Log LogSpec.
From S2P Require Import Barrier Validate Password Vault VaultSpec.
From Stdlib Require Import Strings.Byte Sorting.Sorted.

Module VaultSecrets.
Import Vault VaultSpec.

Section VaultSecrets.
Context {EnvI : Env} {CipherI : Cipher} {LawsI : CipherLaws} {TextI : OsText}.

(** A slot: project, environment and key. *)
Abbreviation slot := (string * string * string)%type.

(** What is under a slot, decrypted. *)
Definition plaintext (v : Vault.t) (sl : slot) (sealed : Sealed.t) : option (list byte) :=
  let '(p, e, k) := sl in
  match project_data_key v p with
  | Ok data_key =>
    match DataKey.open data_key (Sealed.to_envelope sealed) (secret_context p e k) with
    | Ok plain => Some plain
    | Err _ => None
    end
  | Err _ => None
  end.

Definition readable (v : Vault.t) (sl : slot) : option (list byte) :=
  let '(p, e, k) := sl in
  State.secret (state v) p e k ≫= λ s, plaintext v sl (Secret.value s).

(** The map after a write at one slot. *)
Definition rewritten (v v' : Vault.t) (sl : slot) (value : option (list byte)) : Prop :=
  ∀ sl', readable v' sl' = if decide (sl' = sl) then value else readable v sl'.

(** ** Facts about the map *)

Lemma plaintext_same v v' sl sealed :
  State.projects (state v') = State.projects (state v) → root_key v' = root_key v →
  plaintext v' sl sealed = plaintext v sl sealed.
Proof. intros Hp Hr. destruct sl as [[p e] k]. unfold plaintext, project_data_key, State.project. by rewrite Hp, Hr. Qed.

Lemma readable_same v v' : state v' = state v → root_key v' = root_key v → ∀ sl, readable v' sl = readable v sl.
Proof.
  intros Hs Hr [[p e] k]. unfold readable. rewrite Hs. destruct (State.secret _ _ _ _); [|done]. cbn.
  apply (plaintext_same v v' (p, e, k)); [by rewrite Hs|done].
Qed.

Lemma readable_map v sl :
  slots_unique (state v) → readable v sl = vault_map (state v) !! sl ≫= λ c, plaintext v sl c.1.
Proof.
  intros Hu. destruct sl as [[p e] k]. rewrite <- secret_lookup by done. unfold readable.
  by destruct (State.secret _ _ _ _).
Qed.

(** An event of secrets changes the map at its slot. *)
Lemma readable_apply v v' sl event c :
  slots_unique (state v) → state v' = State.apply (state v) event → root_key v' = root_key v →
  State.projects (State.apply (state v) event) = State.projects (state v) →
  (∀ sl', apply_map (vault_map (state v)) event !! sl' = if decide (sl' = sl) then c else vault_map (state v) !! sl') →
  rewritten v v' sl (c ≫= λ c, plaintext v sl c.1).
Proof.
  intros Hu Hs Hr Hp Ha sl'. destruct (apply_refines _ event Hu) as [Hu' Hm].
  rewrite (readable_map v'), (readable_map v), Hs, Hm, Ha by (by rewrite ?Hs).
  assert (∀ x sealed, plaintext v' x sealed = plaintext v x sealed) as Hpt
    by (intros; apply plaintext_same; [by rewrite Hs|done]).
  case_decide; subst.
  - destruct c as [c|]; [|done]. cbn. apply Hpt.
  - destruct (vault_map (state v) !! sl') as [x|]; [|done]. cbn. apply Hpt.
Qed.

Lemma projects_set st p e k x at_ : State.projects (State.apply st (SecretSet p e k x at_)) = State.projects st.
Proof. cbn. by destruct (update_first _ _ _). Qed.

Lemma rewritten_set v v' p e k sealed at_ value data_key :
  slots_unique (state v) → state v' = State.apply (state v) (SecretSet p e k sealed at_) → root_key v' = root_key v →
  project_data_key v p = Ok data_key →
  DataKey.open data_key (Sealed.to_envelope sealed) (secret_context p e k) = Ok value →
  rewritten v v' (p, e, k) (Some value).
Proof.
  intros Hu Hs Hr Hk Ho. pose proof (readable_apply v v' (p, e, k) _ (Some (sealed, at_)) Hu Hs Hr (projects_set _ _ _ _ _ _)) as H.
  unfold plaintext in H. cbn [mbind option_bind fst] in H. rewrite Hk, Ho in H. apply H.
  intros sl'. cbn [apply_map]. case_decide; subst; [by rewrite lookup_insert_eq|by rewrite lookup_insert_ne].
Qed.

Lemma rewritten_delete v v' p e k at_ :
  slots_unique (state v) → state v' = State.apply (state v) (SecretDeleted p e k at_) → root_key v' = root_key v →
  rewritten v v' (p, e, k) None.
Proof.
  intros Hu Hs Hr. eapply (readable_apply v v' (p, e, k) _ None Hu Hs Hr); [done|].
  intros sl'. cbn [apply_map]. case_decide; subst; [by rewrite lookup_delete_eq|by rewrite lookup_delete_ne].
Qed.

Lemma live_unique p master evs s : live p master evs s → slots_unique (state s.2).
Proof. intros (root & b & extra & _ & _ & -> & _). apply replay_unique. Qed.

(** A project that resolves has its data key, or one that does not open. *)
Lemma data_key_err v ps es ids root err :
  resolve v ps es = Ok ids → root_key v = Some root → project_data_key v ids.1 = Err err → err = VaultError.Crypto.
Proof.
  unfold resolve. rewrite res_bind_ok. intros (x & Hx%ok_or_ok & H) Hr. rewrite res_bind_ok in H.
  destruct H as (y & _ & [= <-]). unfold project_data_key. rewrite Hr. cbn.
  assert (is_Some (State.project (state v) (Project.id x))) as [z ->].
  { unfold State.project. destruct (List.find _ _) as [z|] eqn:E; [done|].
    apply find_some_iff in Hx as [Hin _]. apply list_elem_of_In in Hin.
    apply (List.find_none _ _ E) in Hin. by rewrite bool_decide_true in Hin. }
  cbn. destruct (DataKey.unwrap_key _ _ _); by intros [= <-].
Qed.

(** ** Listings *)

(** What a listing of an environment is: its part of the map, sorted by key. *)
Definition listing (v : Vault.t) (p e : string) (out : list (string * list byte)) : Prop :=
  StronglySorted (λ a b, str_le a b = true) out.*1 ∧ NoDup out.*1
  ∧ ∀ k x, (k, x) ∈ out ↔ readable v (p, e, k) = Some x.

Lemma vault_map_elem st sl cc :
  slots_unique st → vault_map st !! sl = Some cc ↔ ∃ s, s ∈ State.secrets st ∧ Secret.slot s = sl ∧ content s = cc.
Proof.
  intros Hu. unfold vault_map. rewrite <- elem_of_list_to_map by (rewrite <- list_fmap_compose; exact Hu).
  rewrite list_elem_of_fmap. split.
  - intros (s & [= -> ->] & Hs). by exists s.
  - intros (s & Hs & <- & <-). by exists s.
Qed.

Lemma reveal_ok dk p e stored out :
  reveal dk p e stored = Ok out →
  Forall2 (λ s kx, kx.1 = Secret.key s
    ∧ DataKey.open dk (Sealed.to_envelope (Secret.value s)) (secret_context p e kx.1) = Ok kx.2) stored out.
Proof.
  revert out. induction stored as [|s stored IH]; intros out; cbn [reveal]; [intros [= <-]; constructor|].
  rewrite res_bind_ok. intros (x & Hx%map_err_ok & H). rewrite res_bind_ok in H. destruct H as (rest & Hr & [= <-]).
  constructor; [done|by apply IH].
Qed.

Lemma sorted_map {A B} (f : A → B) (le : B → B → Prop) l :
  StronglySorted (λ a b, le (f a) (f b)) l → StronglySorted le (f <$> l).
Proof.
  induction 1 as [|a l _ IH Ha]; [constructor|]. cbn. constructor; [done|]. by apply Forall_fmap.
Qed.

Lemma reveal_listing v p e dk out :
  slots_unique (state v) → project_data_key v p = Ok dk →
  reveal dk p e (State.secrets_in (state v) p e) = Ok out → listing v p e out.
Proof.
  intros Hu Hk H%reveal_ok. destruct (secrets_in_spec (state v) p e Hu) as (Hsort & Hnd & Hin).
  assert (out.*1 = Secret.key <$> State.secrets_in (state v) p e) as Hkeys.
  { clear -H. induction H as [|s kx l l' [Hs _] _ IH]; [done|]. rewrite !fmap_cons. by f_equal. }
  split; [by rewrite Hkeys; apply (sorted_map Secret.key)|]. split; [by rewrite Hkeys|].
  assert (∀ s, s ∈ State.secrets (state v) → Secret.project_id s = p → Secret.environment_id s = e →
    readable v (p, e, Secret.key s) = plaintext v (p, e, Secret.key s) (Secret.value s)) as Hread.
  { intros s Hs <- <-. rewrite readable_map by done. change (Secret.project_id s, _, _) with (Secret.slot s).
    by rewrite (proj2 (vault_map_elem (state v) (Secret.slot s) (content s) Hu)) by eauto. }
  intros k x. split.
  - intros Hkx. apply list_elem_of_lookup in Hkx as [i Hi].
    destruct (Forall2_lookup_r _ _ _ _ _ H Hi) as (s & Hs & Hk' & Ho). cbn in *. subst k.
    apply list_elem_of_lookup_2 in Hs. apply Hin in Hs as (Hs & Hp & He).
    rewrite Hread by done. unfold plaintext. by rewrite Hk, Ho.
  - intros Hr. pose proof Hr as Hr'. rewrite readable_map in Hr' by done.
    destruct (vault_map (state v) !! (p, e, k)) as [cc|] eqn:Em; [|done].
    apply vault_map_elem in Em as (s & Hs & [= Hp He Hk'] & _); [|done]. subst k.
    assert (s ∈ State.secrets_in (state v) p e) as Hl by (by apply Hin).
    apply list_elem_of_lookup in Hl as [i Hi]. destruct (Forall2_lookup_l _ _ _ _ _ H Hi) as ([k' x'] & Ho & Hk' & Hx').
    cbn in *. subst k'. rewrite Hread in Hr by done. unfold plaintext in Hr. rewrite Hk, Hx' in Hr.
    injection Hr as ->. by apply list_elem_of_lookup_2 in Ho.
Qed.

(** ** What a request leaves behind *)

(** The state in memory and the keys are as they were. *)
Definition unchanged (s s' : World * Vault.t) : Prop := state s'.2 = state s.2 ∧ same_keys s.2 s'.2.

(** Exactly one entry went to the trail, after all that was on disk. *)
Definition recorded (p : string) (master : DataKey.t) (evs : list Event) (c : Caller.t)
    (action target outcome : string) (s' : World * Vault.t) : Prop :=
  ∃ at_, live p master (evs ++ [Audited at_ (Caller.actor c) action target outcome]) s'.

(** Why a request on an environment is turned away, and the outcome it is recorded with. *)
Definition refused (c : Caller.t) (capability : Capability) (v : Vault.t) (ps es outcome : string)
    (err : VaultError.t) : Prop :=
  outcome = "unknown" ∧ resolve_for v c ps es = Err err
  ∨ outcome = "denied" ∧ ∃ ids, resolve v ps es = Ok ids ∧ authorise c capability ids.1 ids.2 = Err err.

(** A request the caller may make, on the environment with these identifiers. *)
Definition permitted (c : Caller.t) (capability : Capability) (v : Vault.t) (ps es : string)
    (ids : string * string) : Prop :=
  resolve v ps es = Ok ids ∧ authorise c capability ids.1 ids.2 = Ok tt.

Section Operations.
Variables (p : string) (master : DataKey.t) (evs : list Event) (c : Caller.t) (ps es : string).
Hypothesis (Hc : caller_ok c) (Hps : is_str ps = true) (Hes : is_str es = true).

Abbreviation stage_ v := (stage p master evs v anything).

Lemma stage_live v new s : stage_ v new s → live p master (evs ++ new) s.
Proof. by intros [H _]. Qed.

Lemma stage_live0 v s : stage_ v [] s → live p master evs s.
Proof. intros [H _]. by rewrite app_nil_r in H. Qed.

Lemma stage_recorded v s action target outcome e :
  audit c action target outcome e → stage_ v ([] ++ [e]) s → recorded p master evs c action target outcome s.
Proof. intros [at_ ->] [H _]. by exists at_. Qed.

Lemma stage_keys v new s : stage_ v new s → same_keys v s.2.
Proof. by intros (_ & H & _). Qed.

(** Naming an environment and being allowed to use it: the common beginning. *)
Lemma wp_enter {A} cap action target (k : string → string → method A) P Q s :
  live p master evs s → is_str action = true → is_str target = true →
  (∀ ids, permitted c cap s.2 ps es ids → is_str ids.1 = true → is_str ids.2 = true → stage_ s.2 [] s →
     wp (k ids.1 ids.2) P Q s) →
  (∀ err outcome s', refused c cap s.2 ps es outcome err → unchanged s s' →
     recorded p master evs c action target outcome s' → Q err s') →
  (∀ err s', store_error err → unchanged s s' → live p master evs s' → Q err s') →
  wp (let! (project_id, environment_id) := resolve_and_record c action ps es target in
      do! authorise_and_record c cap action target project_id environment_id in
      k project_id environment_id) P Q s.
Proof.
  intros Hl Ha Ht HP HR HE. pose proof (live_stage _ _ _ s Hl) as Hs.
  assert (∀ s' err, stage_ s.2 [] s' → state s'.2 = state s.2 → store_error err → Q err s') as HE'.
  { intros s' err Hs' E Herr. apply HE; [done|split; [done|by eapply stage_keys]|by eapply stage_live0]. }
  apply wp_bind. eapply wp_resolve_at; [exact Hs|done..| | |exact HE'].
  - intros [pid eid] Hr Hp He. apply wp_bind. eapply wp_authorise_at; [exact Hs|done..| | |exact HE'].
    + intros Hau. by apply (HP (pid, eid)).
    + intros err e s' Hau He' Hs' E. apply (HR err "denied"); [|split; [done|by eapply stage_keys]|by eapply stage_recorded].
      right. split; [done|]. by exists (pid, eid).
  - intros err e s' Hr He' Hs' E. apply (HR err "unknown"); [by left|split; [done|by eapply stage_keys]|by eapply stage_recorded].
Qed.

(** An audit entry, when nothing else was committed. *)
Lemma wp_conclude action target outcome s0 s (P : unit → World * Vault.t → Prop) Q :
  stage_ s0.2 [] s → state s.2 = state s0.2 →
  is_str action = true → is_str target = true → is_str outcome = true →
  (∀ s', unchanged s0 s' → recorded p master evs c action target outcome s' → P tt s') →
  (∀ err s', store_error err → unchanged s0 s' → live p master evs s' → Q err s') →
  wp (record_audit c action target outcome) P Q s.
Proof.
  intros Hs Es Ha Ht Ho HP HQ. eapply wp_audit_at; [exact Hs|done..| |].
  - intros e s' He Hs' E. apply HP; [split; [congruence|by eapply stage_keys]|by eapply stage_recorded].
  - intros s' err Hs' E Herr. apply HQ; [done|split; [congruence|by eapply stage_keys]|by eapply stage_live0].
Qed.

(** ** Reading *)

(** How a read on the environment can end without a value. *)
Definition read_error (action target : string) (s : World * Vault.t) (err : VaultError.t) (s' : World * Vault.t) : Prop :=
  unchanged s s' ∧
  ((∃ outcome, recorded p master evs c action target outcome s' ∧ refused c ReadSecrets s.2 ps es outcome err)
   ∨ live p master evs s' ∧ store_error err).

Lemma wp_get_secret key s :
  live p master evs s → is_str key = true →
  wp (get_secret c ps es key)
    (λ out s', unchanged s s' ∧ recorded p master evs c "secret.read" (target_of ps es key) "ok" s'
      ∧ ∃ ids, permitted c ReadSecrets s.2 ps es ids ∧ readable s.2 (ids.1, ids.2, key) = Some out)
    (λ err s', read_error "secret.read" (target_of ps es key) s err s'
      ∨ ∃ ids, permitted c ReadSecrets s.2 ps es ids ∧ readable s.2 (ids.1, ids.2, key) = None ∧ unchanged s s'
        ∧ match State.secret (state s.2) ids.1 ids.2 key with
          | None => err = VaultError.NotFound "secret"
                    ∧ recorded p master evs c "secret.read" (target_of ps es key) "missing" s'
          | Some _ => err = VaultError.Crypto ∧ live p master evs s'
          end) s.
Proof.
  intros Hl Hk. pose proof (is_str_target ps es key Hps Hes Hk) as Ht. pose proof Hl as (root & b & extra & Hr & _).
  assert (∀ err s', store_error err → unchanged s s' → live p master evs s' →
    read_error "secret.read" (target_of ps es key) s err s') as HE by (intros; split; [done|by right]).
  unfold get_secret. apply wp_bind, wp_try; [|by intros err; unfold require_unsealed, is_sealed; rewrite Hr].
  intros _ _. cbv zeta. eapply (wp_enter ReadSecrets); [done..| | |]; cycle 1.
  { intros err outcome s' Hre Hun Hrec. left. split; [done|]. left. eauto. } { intros. left. auto. }
  intros [pid eid] Hperm Hp He Hs. cbn [fst snd]. apply wp_bind, wp_gets.
  destruct (State.secret (state s.2) pid eid key) as [x|] eqn:Ex; cbn [fmap option_fmap option_map].
  - apply wp_bind, wp_try; intros dk Hdk.
    + apply wp_bind, wp_lift; intros value Hv.
      * apply map_err_ok in Hv. apply wp_bind. eapply wp_conclude; [exact Hs|done..| |]; [|intros; left; auto].
        intros s' Hun Hrec. apply wp_ret. split_and!; [done|done|]. exists (pid, eid). split; [done|].
        cbn [fst snd readable]. rewrite Ex. cbn. by rewrite Hdk, Hv.
      * right. exists (pid, eid). split; [done|]. cbn [fst snd readable]. rewrite Ex. cbn. rewrite Hdk.
        destruct (DataKey.open _ _ _); [done|]. injection Hv as <-. done.
    + right. exists (pid, eid). split; [done|]. cbn [fst snd readable]. rewrite Ex. cbn. rewrite Hdk.
      split_and!; try done. eapply (data_key_err s.2); [apply Hperm|done|done].
  - apply wp_bind. eapply wp_conclude; [exact Hs|done..| |]; [|intros; left; auto].
    intros s' Hun Hrec. apply wp_fail. right. exists (pid, eid). split; [done|]. cbn [fst snd readable]. by rewrite Ex.
Qed.

Lemma is_str_environment : is_str (ps +:+ "/" +:+ es) = true.
Proof. repeat (apply is_str_app; [done|]). done. Qed.

Lemma wp_list_secrets s :
  live p master evs s →
  wp (list_secrets c ps es)
    (λ out s', unchanged s s' ∧ recorded p master evs c "secret.list" (ps +:+ "/" +:+ es) "ok" s'
      ∧ ∃ ids, permitted c ReadSecrets s.2 ps es ids ∧ listing s.2 ids.1 ids.2 out)
    (λ err s', read_error "secret.list" (ps +:+ "/" +:+ es) s err s'
      ∨ err = VaultError.Crypto ∧ unchanged s s' ∧ live p master evs s'
        ∧ ∃ ids, permitted c ReadSecrets s.2 ps es ids) s.
Proof.
  intros Hl. pose proof is_str_environment as Ht. pose proof Hl as (root & b & extra & Hr & _).
  unfold list_secrets. apply wp_bind, wp_try; [|by intros err; unfold require_unsealed, is_sealed; rewrite Hr].
  intros _ _. cbv zeta. eapply (wp_enter ReadSecrets); [done..| | |]; cycle 1.
  { intros err outcome s' Hre Hun Hrec. left. split; [done|]. left. eauto. }
  { intros. left. split; [done|]. by right. }
  intros [pid eid] Hperm Hp He Hs. cbn [fst snd]. apply wp_bind, wp_gets, wp_bind, wp_try; intros dk Hdk.
  - apply wp_bind, wp_lift; intros out Hout.
    + apply wp_bind. eapply wp_conclude; [exact Hs|done..| |].
      * intros s' Hun Hrec. apply wp_ret. split_and!; [done|done|]. exists (pid, eid). split; [done|].
        apply (reveal_listing _ _ _ dk); [by eapply live_unique|done|done].
      * intros err s' Herr Hun Hl'. left. split; [done|]. by right.
    + right. split_and!; [|done|done|by eexists]. revert Hout. generalize (State.secrets_in (state s.2) pid eid).
      intros stored. induction stored as [|x stored IH]; cbn [reveal]; [done|].
      destruct (DataKey.open _ _ _); cbn [map_err res_bind]; [|by intros [= <-]].
      destruct (reveal _ _ _ stored); cbn [res_bind]; [done|]. auto.
  - right. split_and!; [|done|done|by eexists]. eapply (data_key_err s.2); [apply Hperm|done|done].
Qed.

(** ** Writing *)

(** How a write on the environment can end before anything was written. *)
Definition write_error (action target : string) (s : World * Vault.t) (err : VaultError.t) (s' : World * Vault.t) : Prop :=
  unchanged s s' ∧
  ((∃ outcome, recorded p master evs c action target outcome s' ∧ refused c WriteSecrets s.2 ps es outcome err)
   ∨ live p master evs s').

(** The map changed at one slot, and no name, by the event [e], which is on disk. *)
Definition written (s s' : World * Vault.t) (sl : slot) (value : option (list byte)) : Prop :=
  rewritten s.2 s'.2 sl value ∧ same_keys s.2 s'.2 ∧ (∀ ps' es', resolve s'.2 ps' es' = resolve s.2 ps' es') ∧ ∃ e rest, live p master (evs ++ e :: rest) s'
    ∧ match value with
      | Some _ => ∃ sealed at_, e = SecretSet sl.1.1 sl.1.2 sl.2 sealed at_
      | None => ∃ at_, e = SecretDeleted sl.1.1 sl.1.2 sl.2 at_
      end ∧ (length rest ≤ 1)%nat.

Lemma resolve_written v v' sl value event :
  state v' = State.apply (state v) event →
  match value : option (list byte) with
  | Some _ => ∃ sealed at_, event = SecretSet sl.1.1 sl.1.2 sl.2 sealed at_
  | None => ∃ at_, event = SecretDeleted sl.1.1 sl.1.2 sl.2 at_
  end → ∀ ps' es', resolve v' ps' es' = resolve v ps' es'.
Proof.
  intros Hs Hev ps' es'. unfold resolve, State.project_by_slug, State.environment_by_slug. rewrite Hs.
  destruct value; [destruct Hev as (sealed & at_ & ->)|by destruct Hev as (at_ & ->)].
  cbn [State.apply]. by destruct (update_first _ _ _).
Qed.

(** The end of a write: the event is committed, then the entry of the trail. *)
Lemma wp_write event sl value action target s (P : unit → World * Vault.t → Prop) Q :
  stage_ s.2 [] s → Event.wf event → is_str action = true → is_str target = true →
  match value with
  | Some _ => ∃ sealed at_, event = SecretSet sl.1.1 sl.1.2 sl.2 sealed at_
  | None => ∃ at_, event = SecretDeleted sl.1.1 sl.1.2 sl.2 at_
  end →
  (∀ v', state v' = State.apply (state s.2) event → root_key v' = root_key s.2 → rewritten s.2 v' sl value) →
  (∀ s', written s s' sl value →
     (∃ at_, live p master (evs ++ [event; Audited at_ (Caller.actor c) action target "ok"]) s') → P tt s') →
  (∀ err s', store_error err → unchanged s s' ∧ live p master evs s' ∨ written s s' sl value → Q err s') →
  wp (do! commit event in record_audit c action target "ok") P Q s.
Proof.
  intros Hs He Ha Ht Hev Hw HP HQ. apply wp_bind.
  eapply wp_commit_at; [exact Hs|done|exact I| |]; cycle 1.
  { intros s' err Hs' E Herr. apply HQ; [done|]. left.
    split; [split; [done|by eapply stage_keys]|by eapply stage_live0]. }
  intros s1 Hs1 E1. pose proof (stage_keys _ _ _ Hs1) as (_ & Hr1 & _).
  assert (∀ rest s', stage_ s.2 ([event] ++ rest) s' → state s'.2 = state s1.2 → (length rest ≤ 1)%nat →
    written s s' sl value) as Hwr.
  { intros rest s' Hs' E' Hlen. pose proof (stage_keys _ _ _ Hs') as (Hb & Hr & Hp).
    split; [apply Hw; [congruence|done]|]. split; [done|].
    split; [apply (resolve_written s.2 _ sl value event); [congruence|exact Hev]|]. exists event, rest. split_and!; [by eapply stage_live|done|done]. }
  eapply wp_audit_at; [exact Hs1|done..| |].
  - intros e s' [at_ ->] Hs' E'. apply HP; [by eapply Hwr|]. exists at_. by apply stage_live in Hs'.
  - intros s' err Hs' E' Herr. apply HQ; [done|]. right. apply (Hwr []); [done|done|cbn; lia].
Qed.

Lemma wp_set_secret key value s :
  live p master evs s → is_str key = true →
  wp (set_secret c ps es key value)
    (λ _ s', ∃ ids event at_, permitted c WriteSecrets s.2 ps es ids
      ∧ written s s' (ids.1, ids.2, key) (Some value)
      ∧ live p master (evs ++ [event; Audited at_ (Caller.actor c) "secret.set" (target_of ps es key) "ok"]) s')
    (λ err s', write_error "secret.set" (target_of ps es key) s err s'
      ∨ store_error err ∧ ∃ ids, permitted c WriteSecrets s.2 ps es ids ∧ written s s' (ids.1, ids.2, key) (Some value)) s.
Proof.
  intros Hl Hk. pose proof (is_str_target ps es key Hps Hes Hk) as Ht. pose proof Hl as (root & b & extra & Hr & _).
  pose proof (live_stage _ _ _ s Hl) as Hs0.
  assert (∀ err s', unchanged s s' → live p master evs s' → write_error "secret.set" (target_of ps es key) s err s') as HE
    by (intros; split; [done|by right]).
  unfold set_secret. apply wp_bind, wp_try; [|by intros err; unfold require_unsealed, is_sealed; rewrite Hr].
  intros _ _. apply wp_bind, wp_lift; [|intros err _; left; by apply HE].
  intros key' ->%secret_key_is_str. cbv zeta. eapply (wp_enter WriteSecrets); [done..| | |]; cycle 1.
  { intros err outcome s' Hre Hun Hrec. left. split; [done|]. left. eauto. } { intros. left. auto. }
  intros [pid eid] Hperm Hp He Hs. cbn [fst snd]. apply wp_bind, wp_try; intros dk Hdk; [|left; by apply HE].
  apply wp_bind. eapply wp_seal_at; [exact Hs| |].
  2: { intros s' err Hs' E. left. apply HE; [split; [by rewrite E|by eapply stage_keys]|by eapply stage_live0]. }
  intros env s1 Ho Hs1 E1. apply wp_bind. eapply wp_clock_at; [exact Hs1|]. intros at_ s2 Hat Hs2 E2. rewrite E1 in E2.
  destruct s as [w v], s2 as [w2 v2]. cbn [snd] in *. subst v2.
  eapply (wp_write _ (pid, eid, key) (Some value) _ _ (w2, v)).
  - exact Hs2.
  - cbn [Event.wf]. by split_and!.
  - done.
  - done.
  - by eexists _, _.
  - intros v' Hs' Hr'. eapply (rewritten_set v v'); [by apply (live_unique p master evs (w, v))|exact Hs'|exact Hr'|exact Hdk|].
    by rewrite Sealed.to_of_envelope.
  - intros s' Hw [at2 Hl']. exists (pid, eid). eexists _, _. split; [done|]. split; [exact Hw|exact Hl'].
  - intros err s' Herr [[Hun Hl']|Hw]; [left; by apply HE|right]. split; [done|]. exists (pid, eid). split; [done|exact Hw].
Qed.

Lemma wp_delete_secret key s :
  live p master evs s → is_str key = true →
  wp (delete_secret c ps es key)
    (λ _ s', ∃ ids event at_, permitted c WriteSecrets s.2 ps es ids
      ∧ State.secret (state s.2) ids.1 ids.2 key ≠ None
      ∧ written s s' (ids.1, ids.2, key) None
      ∧ live p master (evs ++ [event; Audited at_ (Caller.actor c) "secret.delete" (target_of ps es key) "ok"]) s')
    (λ err s', write_error "secret.delete" (target_of ps es key) s err s'
      ∨ store_error err ∧ ∃ ids, permitted c WriteSecrets s.2 ps es ids ∧ written s s' (ids.1, ids.2, key) None) s.
Proof.
  intros Hl Hk. pose proof (is_str_target ps es key Hps Hes Hk) as Ht. pose proof Hl as (root & b & extra & Hr & _).
  assert (∀ err s', unchanged s s' → live p master evs s' → write_error "secret.delete" (target_of ps es key) s err s') as HE
    by (intros; split; [done|by right]).
  unfold delete_secret. apply wp_bind, wp_try; [|by intros err; unfold require_unsealed, is_sealed; rewrite Hr].
  intros _ _. cbv zeta. eapply (wp_enter WriteSecrets); [done..| | |]; cycle 1.
  { intros err outcome s' Hre Hun Hrec. left. split; [done|]. left. eauto. } { intros. left. auto. }
  intros [pid eid] Hperm Hp He Hs. cbn [fst snd]. apply wp_bind, wp_gets.
  destruct (State.secret (state s.2) pid eid key) as [x|] eqn:Ex; [|apply wp_fail; left; by apply HE].
  apply wp_bind. eapply wp_clock_at; [exact Hs|]. intros at_ s2 Hat Hs2 E2.
  destruct s as [w v], s2 as [w2 v2]. cbn [snd] in *. subst v2.
  eapply (wp_write _ (pid, eid, key) None _ _ (w2, v)).
  - exact Hs2.
  - cbn [Event.wf]. by split_and!.
  - done.
  - done.
  - by eexists.
  - intros v' Hs' Hr'. by eapply (rewritten_delete v v'); [apply (live_unique p master evs (w, v))|..].
  - intros s' Hw [at2 Hl']. exists (pid, eid). eexists _, _. split; [done|]. split; [by (cbn [fst snd]; rewrite Ex)|]. split; [exact Hw|exact Hl'].
  - intros err s' Herr [[Hun Hl']|Hw]; [left; by apply HE|right]. split; [done|]. exists (pid, eid). split; [done|exact Hw].
Qed.
End Operations.
End VaultSecrets.
End VaultSecrets.
