(* ===== verification/VaultAccess.v ===== *)
(** * Who may come in

    What [authenticate] answers, as a function of the vault and the time, and how
    accounts, logins and revocations move it. *)

From S2P Require Import Prelude Text Timestamp World Token Shamir Aead Event State Log LogSpec.
From S2P Require Import Barrier Validate Password Vault VaultSpec.
From Stdlib Require Import Strings.Byte.

(** ** Lookups under growth *)

Section Find.
Context {A : Type} (f : A → bool).

Lemma find_app l l' : List.find f (l ++ l') = match List.find f l with Some x => Some x | None => List.find f l' end.
Proof. induction l as [|x l IH]; [done|]. cbn. by destruct (f x). Qed.

Lemma find_related (R : A → A → Prop) l l' :
  (∀ x y, R x y → f y = f x) → Forall2 R l l' → option_Forall2 R (List.find f l) (List.find f l').
Proof.
  intros Hf. induction 1 as [|x y l l' Hxy _ IH]; [constructor|]. cbn. rewrite (Hf _ _ Hxy).
  destruct (f x); [by constructor|done].
Qed.

(** The element two lookups both find first is changed by an update of either. *)
Lemma find_updated (g : A → bool) (u : A → A) l x :
  (∀ y, f (u y) = f y) → List.find f l = Some x → List.find g l = Some x →
  ∃ l', update_first g u l = Some l' ∧ List.find f l' = Some (u x).
Proof.
  intros Hu. induction l as [|y l IH]; [done|]. cbn. destruct (g y) eqn:Eg.
  - intros Hf [= ->]. eexists. split; [done|]. cbn. rewrite Hu. destruct (f x) eqn:Ef; [done|].
    apply find_some_iff in Hf as [_ Hf]. congruence.
  - destruct (f y) eqn:Ef; [intros [= ->] Hg|intros Hf Hg; destruct (IH Hf Hg) as (l' & -> & Hl')].
    + apply find_some_iff in Hg as [_ Hg]. congruence.
    + eexists. split; [done|]. cbn. by rewrite Ef.
Qed.
End Find.

Module VaultAccess.
Import Vault VaultSpec.

Lemma outlives_trans t1 t2 t3 : outlives t1 t2 → outlives t2 t3 → outlives t1 t3.
Proof. intros (? & ? & ? & ? & ? & ? & ?) (? & ? & ? & ? & ? & ? & ?). repeat split; congruence || auto. Qed.

Lemma apply_tokens st e :
  ∃ l1 l2, State.tokens (State.apply st e) = l1 ++ l2 ∧ Forall2 outlives (State.tokens st) l1.
Proof.
  assert (∀ l : list Token.t, Forall2 outlives l l) as Hrefl by (intros l; apply Forall_Forall2_diag, Forall_true, outlives_refl).
  destruct e; cbn [State.apply]; try (exists (State.tokens st), []; split; [by rewrite app_nil_r|done]).
  - by eexists _, _.
  - destruct (update_first _ _ _) as [l|] eqn:E; [|by exists (State.tokens st), []; rewrite app_nil_r].
    exists l, []. split; [by rewrite app_nil_r|]. apply update_first_some in E as (l1 & x & l2 & -> & _ & -> & _).
    apply Forall2_app; [done|]. constructor; [|done]. by repeat split.
  - exists (State.tokens st), []. split; [|done]. rewrite app_nil_r. by destruct (update_first _ _ _).
Qed.

(** The token found by a hash is found again later, perhaps revoked. *)
Lemma by_hash_stays evs st h t :
  State.token_by_hash st h = Some t → ∃ t', State.token_by_hash (fold_left State.apply evs st) h = Some t' ∧ outlives t t'.
Proof.
  revert st t. induction evs as [|e evs IH]; intros st t H; [exists t; split; [done|apply outlives_refl]|].
  destruct (apply_tokens st e) as (l1 & l2 & E & HR).
  assert (∃ t1, State.token_by_hash (State.apply st e) h = Some t1 ∧ outlives t t1) as (t1 & H1 & O1).
  { unfold State.token_by_hash in *. rewrite E, find_app.
    pose proof (find_related (λ t, token.ct_eq (Token.token_hash t) h) outlives _ _ ltac:(by intros x y (_ & -> & _)) HR) as HF.
    rewrite H in HF. inversion HF as [x t1 Ho|]; subst. by exists t1. }
  destruct (IH _ _ H1) as (t2 & H2 & O2). exists t2. split; [done|]. by eapply outlives_trans.
Qed.

Lemma users_stay evs st : ∃ us, State.users (fold_left State.apply evs st) = State.users st ++ us.
Proof.
  revert st. induction evs as [|e evs IH]; intros st; [exists []; by rewrite app_nil_r|]. cbn [fold_left].
  destruct (IH (State.apply st e)) as [us ->].
  destruct e; cbn [State.apply State.users State.set_tokens State.set_secrets]; try by exists us.
  - eexists. by rewrite <- app_assoc.
  - destruct (update_first _ _ _); by exists us.
  - destruct (update_first _ _ _); by exists us.
Qed.

Section VaultAccess.
Context {EnvI : Env} {CipherI : Cipher} {LawsI : CipherLaws} {ShaI : Sha256} {TextI : OsText}.
Context {ArgonI : Argon2} {ArgonLawsI : password.Argon2Laws}.

(** ** Authentication *)

(** Who the holder of a string is to the vault at an instant. *)
Definition who (v : Vault.t) (presented : string) (at_ : Timestamp.t) : option Caller.t :=
  if is_sealed v || bool_decide (presented = "") then None else
  State.token_by_hash (state v) (token.as_bytes (token.hash presented)) ≫= λ t, admits v t at_.

Definition reading (w : World) : Timestamp.t := Timestamp.of_clock (clock (ticks w)).

Lemma authenticate_who presented w v :
  ∃ w', authenticate presented (w, v) = (Ok (who v presented (reading w)), (w', v)) ∧ disk w' = disk w.
Proof.
  unfold authenticate, who, bind at 1, reads, gets. cbn [snd id].
  destruct (is_sealed v || _); [by exists w|]. destruct (State.token_by_hash _ _) as [t|]; [|by exists w].
  cbn [mbind option_bind]. eexists. split; [unfold bind, clock_now, on_world, zoom, now; cbn; reflexivity|done].
Qed.

Lemma admits_some v t at_ c :
  admits v t at_ = Some c →
  Token.is_valid_at t at_ = true ∧ (Token.kind t = Root → State.users (state v) = [])
  ∧ c = Caller.mk (Token.id t) (Token.kind t) (Token.user_id t) (Token.project_id t) (Token.environment_id t).
Proof.
  unfold admits. destruct (Token.is_valid_at t at_); [|done]. cbn [negb].
  destruct (bool_decide_reflect (Token.kind t = Root)), (bool_decide_reflect (State.users (state v) = [])); cbn;
    try done; by intros [= <-].
Qed.

(** A revoked token admits nobody, ever again. *)
Lemma revoked_nobody evs id presented t v at0 at_ rest :
  State.token (State.replay evs) id = Some t →
  State.token_by_hash (State.replay evs) (token.as_bytes (token.hash presented)) = Some t →
  state v = State.replay (evs ++ TokenRevoked id at0 :: rest) → who v presented at_ = None.
Proof.
  intros Hid Hh Hv. unfold who. destruct (is_sealed v || _); [done|]. rewrite Hv, replay_app. cbn [fold_left].
  destruct (find_updated (λ t, token.ct_eq (Token.token_hash t) (token.as_bytes (token.hash presented)))
    (λ t, bool_decide (Token.id t = id)) (Token.set_revoked_at at0) (State.tokens (State.replay evs)) t) as (l & Hl & Hf);
    [done|done|done|].
  destruct (by_hash_stays rest (State.apply (State.replay evs) (TokenRevoked id at0))
    (token.as_bytes (token.hash presented)) (Token.set_revoked_at at0 t)) as (t' & Ht' & Ho).
  { unfold State.token_by_hash. cbn [State.apply]. by rewrite Hl. }
  rewrite Ht'. cbn. unfold admits, Token.is_valid_at. destruct Ho as (_ & _ & _ & _ & _ & _ & Hr).
  by destruct (Hr ltac:(by eexists)) as [r ->].
Qed.

Lemma wp_revoke_token p master evs c id s :
  live p master evs s → is_str id = true →
  wp (revoke_token c id)
    (λ _ s', (id = Caller.token_id c ∨ require c Administer = Ok tt)
      ∧ ∃ at_, live p master (evs ++ [TokenRevoked id at_]) s'
          ∧ state s'.2 = State.apply (state s.2) (TokenRevoked id at_) ∧ same_keys s.2 s'.2)
    (λ err s', live p master evs s' ∧ state s'.2 = state s.2 ∧ same_keys s.2 s'.2) s.
Proof.
  intros Hl Hid. pose proof (live_stage _ _ _ s Hl) as Hs.
  assert (∀ s', stage p master evs s.2 anything [] s' → live p master evs s') as H0
    by (intros s' [H _]; by rewrite app_nil_r in H).
  unfold revoke_token. apply wp_bind, wp_try; [intros _ _|done].
  apply wp_bind. assert (∀ (P : unit → World * Vault.t → Prop),
    ((id = Caller.token_id c ∨ require c Administer = Ok tt) → P tt s) →
    wp (if negb (bool_decide (id = Caller.token_id c)) then lift (require c Administer) else ret tt) P
      (λ err s', live p master evs s' ∧ state s'.2 = state s.2 ∧ same_keys s.2 s'.2) s) as Hreq.
  { intros P HP. case_bool_decide; cbn [negb]; [apply wp_ret, HP; by left|].
    apply wp_lift; [intros [] E; apply HP; by right|done]. }
  apply Hreq. clear Hreq. intros Hau. apply wp_bind, wp_gets.
  destruct (State.token (state s.2) id); [|by apply wp_fail]. apply wp_bind.
  eapply wp_clock_at; [exact Hs|]. intros at_ s1 Hat Hs1 E1.
  eapply wp_commit_at; [exact Hs1|done|exact I| |].
  - intros s' (Hl' & Hk & _) E. split; [done|]. exists at_. split; [done|]. split; [congruence|done].
  - intros s' err Hs' E _. split; [by apply H0|]. split; [congruence|apply Hs'].
Qed.

(** ** Issuing *)

(** [Timestamp::now().plus_seconds(ttl)], when there is a lifetime. *)
Lemma wp_expiry p master evs v new ttl s (P : option Timestamp.t → World * Vault.t → Prop) Q :
  stage p master evs v anything new s →
  (∀ expiry s', Event.opt_time expiry → (∃ now, expiry = Timestamp.plus_seconds now <$> ttl) →
     stage p master evs v anything new s' → s'.2 = s.2 → P expiry s') →
  wp (match ttl with
      | Some ttl => let! at_ := clock_now in ret (Some (Timestamp.plus_seconds at_ ttl))
      | None => ret None
      end) P Q s.
Proof.
  intros Hs HP. destruct ttl as [ttl|].
  - apply wp_bind. eapply wp_clock_at; [exact Hs|]. intros at_ s' Hat Hs' E. apply wp_ret, HP; [|by exists at_|done|done].
    by apply Timestamp.plus_seconds_wf.
  - apply wp_ret, HP; [done|by exists (Timestamp.of_clock 0)|done|done].
Qed.

Lemma wp_issue_token p master evs v s kind u pr en label ttl :
  stage p master evs v anything [] s → Event.opt_str u = true → Event.opt_str pr = true → Event.opt_str en = true →
  Event.opt_str label = true →
  wp (issue_token kind u pr en label ttl)
    (λ secret s', ∃ id now at_, 
      let e := TokenIssued id (token.as_bytes (token.hash secret)) kind u pr en label
                 (Timestamp.plus_seconds now <$> ttl) at_ in
      stage p master evs v anything [e] s' ∧ state s'.2 = State.apply (state s.2) e ∧ secret ≠ "")
    (λ err s', stage p master evs v anything [] s' ∧ state s'.2 = state s.2
      ∧ (err = VaultError.Crypto ∨ store_error err)) s.
Proof.
  intros Hs Hu Hp He Hl. unfold issue_token.
  apply wp_bind. eapply wp_token_at; [exact Hs| |intros s' Hs' ->; auto]. intros t s1 [Ht Hne] Hs1 E1.
  apply wp_bind. eapply wp_new_id_at; [exact Hs1| |intros s' Hs' ->; rewrite E1; auto]. intros id s2 Hid Hs2 E2.
  apply wp_bind. eapply wp_expiry; [exact Hs2|]. intros expiry s3 Hex [now ->] Hs3 E3.
  apply wp_bind. eapply wp_clock_at; [exact Hs3|]. intros at_ s4 Hat Hs4 E4.
  apply wp_bind. eapply wp_commit_at; [exact Hs4|cbn [Event.wf]; by split_and!|exact I| |].
  - intros s' Hs' E. apply wp_ret. exists id, now, at_. rewrite <- Ht. split_and!; [exact Hs'|congruence|exact Hne].
  - intros s' err Hs' E Herr. split_and!; [done|congruence|by right].
Qed.

(** ** Accounts *)

Lemma email_normal input input' :
  normal_form input' = normal_form input → validate.email input' = validate.email input.
Proof.
  intros H. unfold validate.email. fold (normal_form input) (normal_form input'). by rewrite H.
Qed.

Lemma user_by_email_new st u input :
  validate.email input = Ok (User.email u) → State.user_by_email st (User.email u) = None →
  ∀ st', State.users st' = State.users st ++ [u] → State.user_by_email st' (User.email u) = Some u.
Proof.
  intros He Hn st' E. apply email_ok_normal in He. unfold State.user_by_email in *. fold (normal_form (User.email u)) in *.
  assert (normal_form (User.email u) = User.email u) as En by (rewrite He; apply normal_form_idemp).
  rewrite En in *. rewrite E, find_app, Hn. cbn. by rewrite bool_decide_true.
Qed.

Lemma wp_create_user p master evs c email pw s :
  live p master evs s →
  wp (create_user c email pw)
    (λ id s', require c Bootstrap = Ok tt ∧ ∃ u, User.id u = id ∧ validate.email email = Ok (User.email u)
      ∧ State.user_by_email (state s.2) (User.email u) = None
      ∧ password.verify pw (User.password_hash u) = true
      ∧ live p master (evs ++ [UserCreated (User.id u) (User.email u) (User.password_hash u) (User.created_at u)]) s'
      ∧ State.user_by_email (state s'.2) (User.email u) = Some u)
    (λ err s', live p master evs s' ∧ state s'.2 = state s.2) s.
Proof.
  intros Hl. pose proof (live_stage _ _ _ s Hl) as Hs.
  assert (∀ s', stage p master evs s.2 anything [] s' → live p master evs s') as H0
    by (intros s' [H _]; by rewrite app_nil_r in H).
  unfold create_user. apply wp_bind, wp_try; [intros _ _|done]. apply wp_bind, wp_lift; [intros [] Hreq|done].
  apply wp_bind, wp_lift; [intros e He|done]. apply wp_bind, wp_gets.
  destruct (State.user_by_email (state s.2) e) eqn:Eu; [by apply wp_fail|].
  apply wp_bind. eapply wp_hash_at; [exact Hs| |intros s' err Hs' ->; auto]. intros h s1 Hh Hver Hs1 E1.
  apply wp_bind. eapply wp_new_id_at; [exact Hs1| |intros s' Hs' ->; rewrite E1; auto]. intros id s2 Hid Hs2 E2.
  apply wp_bind. eapply wp_clock_at; [exact Hs2|]. intros at_ s3 Hat Hs3 E3.
  pose proof (email_is_str _ _ He) as Hes.
  apply wp_bind. eapply wp_commit_at; [exact Hs3|cbn [Event.wf]; by split_and!|exact I| |].
  - intros s' [Hl' _] E. apply wp_ret. split; [done|]. exists (User.mk id e h at_). cbn [User.id User.email User.password_hash User.created_at].
    split_and!; [done|done|done|done|exact Hl'|].
    apply (user_by_email_new (state s.2) (User.mk id e h at_) email); [done|done|]. rewrite E. cbn. congruence.
  - intros s' err Hs' E _. split; [by apply H0|congruence].
Qed.

(** ** Logging in *)

(** The account a login names. *)
Definition account (v : Vault.t) (email : string) : option User.t :=
  State.user_by_email (state v) (match validate.email email with Ok e => e | Err _ => "" end).

Lemma wp_login p master evs email pw ttl s :
  live p master evs s →
  wp (login email pw ttl)
    (λ secret s', check_lifetime ttl = Ok tt ∧ secret ≠ "" ∧ ∃ u id now at_, account s.2 email = Some u
      ∧ password.verify pw (User.password_hash u) = true
      ∧ let issued := TokenIssued id (token.as_bytes (token.hash secret)) Session (Some (User.id u)) None None None
                        (Some (Timestamp.plus_seconds now ttl)) at_ in
        live p master (evs ++ [issued]) s' ∧ state s'.2 = State.apply (state s.2) issued
        ∧ root_key s'.2 = root_key s.2)
    (λ err s', live p master evs s' ∧ state s'.2 = state s.2
      ∧ (check_lifetime ttl = Err err ∨ err = VaultError.Crypto ∨ store_error err
         ∨ err = VaultError.BadCredentials
           ∧ ∀ u, account s.2 email = Some u → password.verify pw (User.password_hash u) = false)) s.
Proof.
  intros Hl. pose proof (live_stage _ _ _ s Hl) as Hs. pose proof Hl as (root & b & extra & Hr & _).
  destruct (live_state_ok _ _ _ _ Hl) as (Hu & _).
  unfold login. apply wp_bind, wp_try; [intros _ _|by intros err; unfold require_unsealed, is_sealed; rewrite Hr].
  apply wp_bind, wp_lift; [intros [] Httl|auto]. cbv zeta. apply wp_bind, wp_gets. fold (account s.2 email).
  destruct (account s.2 email) as [u|] eqn:Eu.
  2: { apply wp_fail. split_and!; [done|done|]. do 3 right. by split. }
  destruct (password.verify pw (User.password_hash u)) eqn:Ev; cbn [negb].
  2: { apply wp_fail. split_and!; [done|done|]. do 3 right. split; [done|]. by intros u' [= <-]. }
  eapply wp_mono; [eapply wp_issue_token; [exact Hs|by apply (state_find _ _ _ _ Hu Eu)|done..]|..]; cbv beta.
  - intros secret s' (id & now & at_ & (Hl' & (_ & Hr' & _) & _) & E & Hne). split_and!; [done|done|].
    exists u, id, now, at_. by split_and!.
  - intros err s' ((Hl' & _) & E & Herr). rewrite app_nil_r in Hl'. split_and!; [done|done|]. tauto.
Qed.

(** The string a login returns is the session it opened. *)
Lemma login_who v v' secret id u now ttl at_ at' :
  root_key v' ≠ None → secret ≠ "" → State.token_by_hash (state v) (token.as_bytes (token.hash secret)) = None →
  state v' = State.apply (state v) (TokenIssued id (token.as_bytes (token.hash secret)) Session (Some u) None None None
    (Some (Timestamp.plus_seconds now ttl)) at_) →
  who v' secret at' = (if Timestamp.seconds at' <? Timestamp.seconds (Timestamp.plus_seconds now ttl)
                       then Some (Caller.mk id Session (Some u) None None) else None).
Proof.
  intros Hr Hne Hn E. unfold who, is_sealed. destruct (root_key v'); [|done]. rewrite bool_decide_false by done. cbn [orb].
  rewrite E. unfold State.token_by_hash in *. cbn [State.apply State.tokens State.set_tokens]. rewrite find_app, Hn.
  cbn [List.find Token.token_hash]. unfold token.ct_eq. rewrite bool_decide_true by done. cbn [mbind option_bind].
  unfold admits, Token.is_valid_at. cbn [Token.revoked_at Token.expires_at Token.kind]. by destruct (_ <? _).
Qed.
End VaultAccess.
End VaultAccess.
