(* ===== verification/VaultKeys.v ===== *)
(** * The keys above the data

    The unseal ceremony, from shares to the vault as it was, and re-splitting,
    which replaces every key but the ones values are sealed under. *)

From S2P Require Import Prelude Text Timestamp World Token Shamir Aead Event State Log LogSpec.
From S2P Require Import Barrier Validate Password Vault VaultSpec VaultSecrets VaultAccess.
From Stdlib Require Import Strings.Byte.

Module VaultKeys.
Import Vault VaultSpec VaultSecrets.

Section VaultKeys.
Context {EnvI : Env} {CipherI : Cipher} {LawsI : CipherLaws} {ShaI : Sha256} {TextI : OsText}.

(** ** Re-splitting *)

(** A project before and after: the same data key, wrapped by another root key. *)
Definition same_project (old new : DataKey.t) (x y : Project.t) : Prop :=
  Project.id y = Project.id x ∧ Project.slug y = Project.slug x ∧ Project.name y = Project.name x
  ∧ Project.created_at y = Project.created_at x
  ∧ ∃ dk, DataKey.unwrap_key old (Sealed.to_envelope (Project.data_key x)) (project_key_context (Project.id x)) = Ok dk
          ∧ DataKey.unwrap_key new (Sealed.to_envelope (Project.data_key y)) (project_key_context (Project.id x)) = Ok dk.

Record same_state (old new : DataKey.t) (st st' : State.t) : Prop := {
  same_users : State.users st' = State.users st;
  same_tokens : State.tokens st' = State.tokens st;
  same_environments : State.environments st' = State.environments st;
  same_secrets : State.secrets st' = State.secrets st;
  same_projects : Forall2 (same_project old new) (State.projects st) (State.projects st');
}.

Lemma same_state_apply old new st st' e e' :
  same_state old new st st' → rewrapped old new e e' → same_state old new (State.apply st e) (State.apply st' e').
Proof.
  intros [Hu Ht He Hs Hp]. destruct e; cbn [rewrapped];
    [intros ->..|intros (k' & dk & -> & Ho & Hn)|intros ->|intros ->|intros ->|intros ->]; cbn [State.apply].
  - split; cbn; congruence.
  - split; cbn; congruence.
  - rewrite Ht. destruct (update_first _ _ _); by split.
  - split; cbn; try done. apply Forall2_app; [done|]. constructor; [|done]. repeat split. by exists dk.
  - split; cbn; congruence.
  - rewrite Hs. destruct (update_first _ _ _); split; cbn; congruence.
  - split; cbn; congruence.
  - done.
Qed.

Lemma same_state_replay old new evs evs' :
  Forall2 (rewrapped old new) evs evs' → same_state old new (State.replay evs) (State.replay evs').
Proof.
  unfold State.replay. assert (same_state old new State.default State.default) as H by (split; constructor || done).
  intros Hevs. revert H. generalize State.default at 1 3. generalize State.default.
  induction Hevs as [|e e' evs evs' He _ IH]; intros st st' H; [done|]. cbn [fold_left]. by apply IH, same_state_apply.
Qed.

Lemma same_state_key old new st st' v v' p :
  same_state old new st st' → state v = st → state v' = st' → root_key v = Some old → root_key v' = Some new →
  project_data_key v' p = project_data_key v p.
Proof.
  intros H <- <- Hr Hr'. unfold project_data_key. rewrite Hr, Hr'. cbn [ok_or res_bind]. unfold State.project.
  pose proof (find_related (λ x, bool_decide (Project.id x = p)) (same_project old new) _ _ ltac:(by intros x y (-> & _)) (same_projects _ _ _ _ H)) as HF.
  inversion HF as [x y Hxy Ex Ey|Ex Ey]; [|done]. destruct Hxy as (Hid & _ & _ & _ & dk & Ho & Hn). cbn.
  symmetry in Ex. apply find_some_iff in Ex as [_ Ex]. apply bool_decide_eq_true in Ex. subst p. by rewrite Ho, Hn.
Qed.

Lemma same_state_readable old new v v' :
  same_state old new (state v) (state v') → root_key v = Some old → root_key v' = Some new →
  ∀ sl, readable v' sl = readable v sl.
Proof.
  intros H Hr Hr' [[p e] k]. unfold readable, plaintext. rewrite (same_state_key old new _ _ v v' p H) by done.
  unfold State.secret. by rewrite (same_secrets _ _ _ _ H).
Qed.

Lemma same_state_resolve old new v v' ps es :
  same_state old new (state v) (state v') → resolve v' ps es = resolve v ps es.
Proof.
  intros H. unfold resolve, State.project_by_slug, State.environment_by_slug. rewrite (same_environments _ _ _ _ H).
  pose proof (find_related (λ x, bool_decide (Project.slug x = ps)) (same_project old new) _ _ ltac:(by intros x y (_ & -> & _)) (same_projects _ _ _ _ H)) as HF.
  inversion HF as [x y Hxy Ex Ey|Ex Ey]; [|done]. destruct Hxy as (Hid & _). cbn. by rewrite Hid.
Qed.

(** ** The ceremony *)

(** Shares offered one after the other. *)
Fixpoint submit_all (printed : list string) : method unit :=
  match printed with
  | [] => ret tt
  | share :: rest => do! submit_share share in submit_all rest
  end.

Lemma split_share secret t n w out share :
  fst (shamir.split secret t n w) = Ok out → n <= 255 → share ∈ out →
  shamir.index share ≠ x00 ∧ shamir.data share ≠ [].
Proof.
  destruct (shamir.split secret t n w) as [r w'] eqn:E. intros Hr Hn Hin. cbn in Hr. subst r.
  apply shamir.split_ok in E as (Hne & Ht & _ & cs & _ & ->). apply list_elem_of_fmap in Hin as (i & -> & Hi).
  apply shamir.elem_of_indices in Hi; [|lia]. cbn [shamir.index shamir.share_at shamir.data]. split.
  - intros ->. change (Z_of_byte x00) with 0 in Hi. lia.
  - intros H. apply (f_equal length) in H. pose proof (shamir.length_share_at secret cs (Z.to_nat (t - 1)) i) as Hl.
    cbn in Hl, H. rewrite H in Hl. by destruct secret.
Qed.

Section Ceremony.
Variables (p : string) (master root : DataKey.t) (b : Barrier.t) (evs : list Event).

(** Shares short of the threshold accumulate. *)
Lemma wp_submit_more share s :
  sealed_over p master root b evs s → shamir.index share ≠ x00 → shamir.data share ≠ [] →
  share ∉ pending_shares s.2 → Z.of_nat (length (pending_shares s.2)) + 1 < Barrier.threshold b →
  wp (submit_share (shamir.to_string share))
    (λ st s', status_sealed st = true ∧ sealed_over p master root b evs s'
      ∧ pending_shares s'.2 = pending_shares s.2 ++ [share] ∧ log s'.2 = log s.2) (λ _ _, False) s.
Proof.
  destruct s as [w v]. intros [Hc Hs] Hi Hd Hnew Hlen. pose proof Hc as (Hr & _ & Hb & _). cbn [snd] in *.
  apply wp_bind, wp_try; cbn [snd]; rewrite Hb; [intros ? [= <-]|done].
  apply wp_bind, wp_gets. unfold is_sealed. cbn [snd]. rewrite Hr. cbn [negb].
  apply wp_bind. rewrite shamir.parse_to_string_eq by done. apply wp_lift; [intros ? [= <-]|done].
  apply wp_bind, wp_modify, wp_bind, wp_gets. cbn [snd fst]. unfold offer. rewrite decide_False by done.
  cbn [pending_shares set_pending]. rewrite length_app. cbn [length].
  destruct (Z.ltb_spec (Z.of_nat (length (pending_shares v) + 1)) (Barrier.threshold b)); [|lia].
  apply wp_ret. split; [done|]. split; [split; [exact Hc|exact Hs]|done].
Qed.

(** A share that is there already changes nothing. *)
Lemma wp_submit_known share s :
  sealed_over p master root b evs s → shamir.index share ≠ x00 → shamir.data share ≠ [] →
  share ∈ pending_shares s.2 → Z.of_nat (length (pending_shares s.2)) < Barrier.threshold b →
  wp (submit_share (shamir.to_string share)) (λ _ s', s' = s) (λ _ _, False) s.
Proof.
  destruct s as [w v]. intros [Hc Hs] Hi Hd Hold Hlen. pose proof Hc as (Hr & _ & Hb & _). cbn [snd] in *.
  apply wp_bind, wp_try; cbn [snd]; rewrite Hb; [intros ? [= <-]|done].
  apply wp_bind, wp_gets. unfold is_sealed. cbn [snd]. rewrite Hr. cbn [negb].
  apply wp_bind. rewrite shamir.parse_to_string_eq by done. apply wp_lift; [intros ? [= <-]|done].
  apply wp_bind, wp_modify, wp_bind, wp_gets. cbn [snd fst]. unfold offer. rewrite decide_True by done.
  destruct (Z.ltb_spec (Z.of_nat (length (pending_shares v))) (Barrier.threshold b)); [by apply wp_ret|lia].
Qed.

(** The share that completes a quorum opens the vault. *)
Lemma wp_submit_last share s :
  sealed_over p master root b evs s → shamir.index share ≠ x00 → shamir.data share ≠ [] →
  share ∉ pending_shares s.2 → Z.of_nat (length (pending_shares s.2)) + 1 = Barrier.threshold b →
  DataKey.wf master → shamir.combine (pending_shares s.2 ++ [share]) = Ok (DataKey.material master) →
  wp (submit_share (shamir.to_string share))
    (λ st s', status_sealed st = false ∧ opened_as p master root b evs s')
    (λ e s', (∃ f, e = VaultError.Store f ∧ LogSpec.faulted f) ∧ sealed_over p master root b evs s'
      ∧ pending_shares s'.2 = [] ∧ log s'.2 = log s.2) s.
Proof.
  destruct s as [w v]. intros [Hc Hs] Hi Hd Hnew Hlen Hwf Hcomb. pose proof Hc as (Hr & _ & Hb & _). cbn [snd] in *.
  apply wp_bind, wp_try; cbn [snd]; rewrite Hb; [intros ? [= <-]|done].
  apply wp_bind, wp_gets. unfold is_sealed. cbn [snd]. rewrite Hr. cbn [negb].
  apply wp_bind. rewrite shamir.parse_to_string_eq by done. apply wp_lift; [intros ? [= <-]|done].
  apply wp_bind, wp_modify, wp_bind, wp_gets. cbn [snd fst]. unfold offer. rewrite decide_False by done.
  cbn [pending_shares set_pending]. rewrite length_app. cbn [length].
  destruct (Z.ltb_spec (Z.of_nat (length (pending_shares v) + 1)) (Barrier.threshold b)); [lia|].
  apply wp_bind, wp_attempt. eapply wp_mono; [eapply (wp_try_unseal_quorum p master root b evs)|..]; cbv beta.
  - split; [exact Hc|exact Hs].
  - exact Hcomb.
  - done.
  - intros _ s' Hl. by apply wp_ret.
  - intros e [w' v'] (He & E & Hdisk). apply wp_bind, wp_modify, wp_fail. cbn [fst snd] in E, Hdisk |- *. subst v'.
    split; [done|]. split; [|done]. split; [apply (closed_disk _ _ w); [done|exact Hc]|]. cbn [fst snd]. rewrite Hdisk. exact Hs.
Qed.

Lemma wp_submit_all rest s :
  sealed_over p master root b evs s → rest ≠ [] →
  (∀ share, share ∈ rest → shamir.index share ≠ x00 ∧ shamir.data share ≠ []) →
  NoDup (pending_shares s.2 ++ rest) →
  Z.of_nat (length (pending_shares s.2 ++ rest)) = Barrier.threshold b →
  DataKey.wf master → shamir.combine (pending_shares s.2 ++ rest) = Ok (DataKey.material master) →
  wp (submit_all (shamir.to_string <$> rest)) (λ _ s', opened_as p master root b evs s')
    (λ e _, ∃ f, e = VaultError.Store f ∧ LogSpec.faulted f) s.
Proof.
  intros Hs Hne Hwf Hn Hlen Hm Hc. revert s Hs Hne Hn Hlen Hc.
  induction rest as [|share rest IH]; intros s Hs Hne Hn Hlen Hc; [done|].
  destruct (Hwf share ltac:(left)) as [Hi Hd].
  assert (share ∉ pending_shares s.2) as Hnew.
  { apply NoDup_app in Hn as (_ & Hn & _). intros H. apply (Hn _ H). left. }
  rewrite length_app in Hlen. cbn [length] in Hlen. cbn [fmap list_fmap submit_all]. apply wp_bind.
  destruct (decide (rest = [])) as [->|Hrest].
  - eapply wp_mono; [apply (wp_submit_last share s); (done || cbn in Hlen; lia)|..]; cbv beta; [|by intros e s' [? _]].
    intros st s' (_ & Hl). by apply wp_ret.
  - assert (0 < length rest)%nat by (destruct rest; [done|cbn; lia]).
    eapply wp_mono; [apply (wp_submit_more share s); (done || lia)|..]; cbv beta; [|done].
    intros st s' (_ & Hs' & Hp & _). apply IH; rewrite ?Hp, <- ?app_assoc; cbn [app]; try done.
    + intros x Hx. apply Hwf. by right.
    + rewrite length_app. cbn [length]. lia.
Qed.
End Ceremony.

(** A new process on the same file, and the operators offering their shares. *)
Definition restart (p : string) (printed : list string) : proc World VaultError.t Vault.t :=
  let! v := Vault.open p in
  λ w, match submit_all printed (w, v) with
       | (Ok _, (w', v')) => (Ok v', w')
       | (Err e, (w', _)) => (Err e, w')
       end.

Lemma fmap_preimage {A B} (f : A → B) (l : list A) (q : list B) :
  (∀ y, y ∈ q → y ∈ f <$> l) → ∃ q', q = f <$> q' ∧ ∀ x, x ∈ q' → x ∈ l.
Proof.
  induction q as [|y q IH]; intros H; [exists []; split; [done|by intros x ?%elem_of_nil]|].
  destruct IH as (q' & -> & Hq'); [intros z Hz; apply H; by right|].
  destruct (proj1 (list_elem_of_fmap _ _ _) (H y ltac:(left))) as (x & -> & Hx).
  exists (x :: q'). split; [done|]. intros z [->|Hz]%elem_of_cons; auto.
Qed.

(** Any quorum of the shares that were handed out opens the file. *)
Lemma quorum_reopens p mb t n w0 shares root b evs w l quorum :
  length mb = MASTER_KEY_LEN → fst (shamir.split mb t n w0) = Ok shares → n <= 255 →
  stored_as p (DataKey.mk mb) root b evs (disk w) l → Barrier.threshold b = t →
  NoDup quorum → (∀ x, x ∈ quorum → x ∈ shamir.to_string <$> shares) → Z.of_nat (length quorum) = t →
  wp (restart p quorum)
    (λ v' w', vault_ok p (w', v') ∧ root_key v' = Some root ∧ state v' = State.replay evs)
    (λ e w', ∃ f, e = VaultError.Store f ∧ LogSpec.faulted f) w.
Proof.
  intros Hmb Hsplit Hn Hs Ht Hnd Hin Hlen. destruct (fmap_preimage _ _ _ Hin) as (q & -> & Hq).
  rewrite length_fmap in Hlen. apply NoDup_fmap_1 in Hnd.
  assert (shamir.combine q = Ok mb) as Hc.
  { destruct (shamir.split mb t n w0) as [r w1] eqn:E. cbn in Hsplit. subst r.
    eapply shamir.combine_quorum; [exact E|done|done|done|lia]. }
  assert (1 <= t) as Ht1.
  { destruct (shamir.split mb t n w0) as [r w1] eqn:E. cbn in Hsplit. subst r. apply shamir.split_ok in E. lia. }
  unfold restart. apply wp_bind.
  eapply wp_mono; [by eapply wp_reopen_vault|..]; cbv beta; [|done]. intros v1 w1 (Hso & _ & Hp1).
  assert (wp (submit_all (shamir.to_string <$> q)) (λ _ s', opened_as p (DataKey.mk mb) root b evs s')
    (λ e _, ∃ f, e = VaultError.Store f ∧ LogSpec.faulted f) (w1, v1)) as H.
  { apply (wp_submit_all p (DataKey.mk mb) root b evs); cbn [snd]; rewrite ?Hp1; cbn [app]; try done.
    - intros ->. cbn in Hlen. lia.
    - intros share Hshare. by eapply split_share; [|done|apply Hq].
    - lia. }
  unfold wp in *. destruct (submit_all _ (w1, v1)) as [[[]|e] [w2 v2]]; [|done].
  destruct H as (Hl2 & _ & Hr2 & _). cbn [snd] in Hr2. split; [right; right; by eexists _, _|]. split; [done|].
  by destruct Hl2 as (root2 & b2 & extra2 & _ & _ & Hst2 & _).
Qed.

End VaultKeys.
End VaultKeys.
