(* ===== verification/VaultServer.v ===== *)
(** * The vault over its lifetime

    A server process opens the store, serves requests one at a time under a lock,
    and may die at any point; the process that takes its place opens the same file.
    [request] has a case for every method of the vault that takes [&mut self] or
    reads the disk; [step] relates the states of this machine. The last section
    proves the invariant of every reachable state. *)

From S2P Require Import Prelude Text World Token Shamir Aead Event State Log LogSpec.
From S2P Require Import Barrier Validate Password Vault VaultSpec.
From Stdlib Require Import Strings.Byte.

Inductive request :=
| Init (threshold shares : Z)
| SubmitShare (printed : string)
| ResetUnseal
| SealAs (caller : Caller.t)
| Rekey (caller : Caller.t) (threshold shares : Z)
| CreateUser (caller : Caller.t) (email password : string)
| Login (email password : string) (ttl_seconds : Z)
| IssueMachineToken (caller : Caller.t) (project environment label : string) (ttl_seconds : option Z)
| RevokeToken (caller : Caller.t) (id : string)
| Authenticate (presented : string)
| CreateProject (caller : Caller.t) (slug name : string)
| CreateEnvironment (caller : Caller.t) (project slug name : string)
| SetSecret (caller : Caller.t) (project environment key : string) (value : list byte)
| GetSecret (caller : Caller.t) (project environment key : string)
| ListSecrets (caller : Caller.t) (project environment : string)
| DeleteSecret (caller : Caller.t) (project environment key : string)
| AuditTrail (caller : Caller.t).

Module Server.
Import Vault VaultSpec.

Section Server.
Context {EnvI : Env} {CipherI : Cipher} {ShaI : Sha256} {ArgonI : Argon2} {TextI : OsText}.

(** What serving a request does to the world and the vault, whatever it answers. *)
Definition handle (r : request) (s : World * Vault.t) : World * Vault.t :=
  match r with
  | Init t n => (init t n s).2
  | SubmitShare printed => (submit_share printed s).2
  | ResetUnseal => (s.1, reset_unseal s.2)
  | SealAs c => (seal_as c s).2
  | Rekey c t n => (rekey c t n s).2
  | CreateUser c email pw => (create_user c email pw s).2
  | Login email pw ttl => (login email pw ttl s).2
  | IssueMachineToken c ps es label ttl => (issue_machine_token c ps es label ttl s).2
  | RevokeToken c id => (revoke_token c id s).2
  | Authenticate presented => (authenticate presented s).2
  | CreateProject c slug name => (create_project c slug name s).2
  | CreateEnvironment c ps slug name => (create_environment c ps slug name s).2
  | SetSecret c ps es key value => (set_secret c ps es key value s).2
  | GetSecret c ps es key => (get_secret c ps es key s).2
  | ListSecrets c ps es => (list_secrets c ps es s).2
  | DeleteSecret c ps es key => (delete_secret c ps es key s).2
  | AuditTrail c => (audit_trail c s).2
  end.

(** The types of the arguments: Rust strings are UTF-8, share counts are [u8]s, and
    callers come out of [authenticate]. *)
Definition valid (r : request) : Prop :=
  match r with
  | Init t n => in_u8 t = true ∧ in_u8 n = true
  | SubmitShare _ | ResetUnseal | Authenticate _ | Login _ _ _ => True
  | SealAs c | AuditTrail c => caller_ok c
  | Rekey c t n => caller_ok c ∧ in_u8 t = true ∧ in_u8 n = true
  | CreateUser c _ _ => caller_ok c
  | IssueMachineToken c ps es label _ => caller_ok c ∧ is_str label = true
  | RevokeToken c id => caller_ok c ∧ is_str id = true
  | CreateProject c slug name => caller_ok c ∧ is_str slug = true ∧ is_str name = true
  | CreateEnvironment c _ slug name => caller_ok c ∧ is_str slug = true ∧ is_str name = true
  | SetSecret c ps es key _ | GetSecret c ps es key | DeleteSecret c ps es key =>
    caller_ok c ∧ is_str ps = true ∧ is_str es = true ∧ is_str key = true
  | ListSecrets c ps es => caller_ok c ∧ is_str ps = true ∧ is_str es = true
  end.

(** A process is up with a vault, or there is only the disk. *)
Inductive server := Down (w : World) | Up (w : World) (v : Vault.t).

(** A process that dies while serving leaves the disk some failing run of the
    request leaves, since file operations may fail at any point. *)
Inductive step (p : string) : server → server → Prop :=
| step_serve w v r w' v' : valid r → handle r (w, v) = (w', v') → step p (Up w v) (Up w' v')
| step_die w v : step p (Up w v) (Down w)
| step_boot w v w' : Vault.open p w = (Ok v, w') → step p (Down w) (Up w' v)
| step_boot_fails w e w' : Vault.open p w = (Err e, w') → step p (Down w) (Down w').

(** Whatever a server becomes. *)
Definition reachable (p : string) : server → server → Prop := rtc (step p).

(** The invariant. *)
Definition sound (p : string) (x : server) : Prop :=
  match x with
  | Down w => LogSpec.openable p (disk w)
  | Up w v => vault_ok p (w, v)
  end.

(** ** A sealed vault *)

Lemma unseals_fail v : root_key v = None → require_unsealed v = Err VaultError.Sealed.
Proof. intros H. unfold require_unsealed, is_sealed. by rewrite H. Qed.

(** A method that begins by asking for an unsealed vault does nothing to a sealed one. *)
Lemma guarded {A} (m : method A) s :
  root_key s.2 = None → (do! try_ require_unsealed in m) s = (Err VaultError.Sealed, s).
Proof. intros H. unfold bind, try_. by rewrite unseals_fail. Qed.

(** The requests that need the root key. *)
Definition needs_key (r : request) : bool :=
  match r with Init _ _ | SubmitShare _ | ResetUnseal | SealAs _ => false | _ => true end.

Lemma sealed_handle r s : root_key s.2 = None → needs_key r = true → handle r s = s.
Proof.
  intros H Hn. destruct r; try done; cbn [handle]; try exact (f_equal snd (guarded _ s H)).
  - unfold authenticate, bind, reads, gets, is_sealed. cbn. by rewrite H.
  - unfold audit_trail, bind, lift, try_, require. destruct (granted_to _ _); cbn; by rewrite ?H.
Qed.

Lemma init_again t n s b : barrier s.2 = Some b → init t n s = (Err VaultError.AlreadyInitialized, s).
Proof.
  intros H. unfold init. unfold bind at 1. change (reads is_initialized s) with (Ok (E := VaultError.t) (is_initialized s.2), s).
  unfold is_initialized. by rewrite H.
Qed.

Lemma submit_uninitialized printed s :
  barrier s.2 = None → submit_share printed s = (Err VaultError.NotInitialized, s).
Proof. intros H. unfold submit_share, bind at 1, try_. by rewrite H. Qed.

Lemma submit_unsealed printed s b root :
  barrier s.2 = Some b → root_key s.2 = Some root →
  submit_share printed s = (Ok (mk_status false 0 (Barrier.threshold b)), s).
Proof.
  intros Hb Hr. unfold submit_share, bind at 1, try_. rewrite Hb. cbn [ok_or].
  unfold bind at 1. change (reads is_sealed s) with (Ok (E := VaultError.t) (is_sealed s.2), s).
  unfold is_sealed. by rewrite Hr.
Qed.

(** ** The invariant *)

Section Invariant.
Context {LawsI : CipherLaws} {ArgonLawsI : password.Argon2Laws}.

Lemma vault_ok_sealed p w v :
  vault_ok p (w, v) → root_key v = None → fresh p (w, v) ∨ ∃ b, closed p b (w, v).
Proof. intros [H|[H|(m & evs & root & b & extra & Hr & _)]] Hn; [by left|by right|]. cbn in Hr. congruence. Qed.

(** Every vault leaves a file that opens. *)
Lemma vault_ok_openable p w v : vault_ok p (w, v) → LogSpec.openable p (disk w).
Proof.
  assert (∀ rs rest, path (log v) = p → LogSpec.names_ok (disk w) → LogSpec.rep (disk w) (log v) rs rest →
    LogSpec.openable p (disk w)) as Hrep.
  { intros rs rest <- Hn [Hnamed Hh Hp _]. split; [done|]. right. eexists. split; [done|]. right. by exists rs, rest. }
  intros [H|[(b & H)|(m & evs & H)]].
  - destruct H as (_ & _ & _ & Hp & Hn & rs & rest & H & _). by eapply Hrep.
  - destruct H as (_ & _ & _ & Hp & Hn & rs & rest & H & _). by eapply Hrep.
  - destruct H as (root & b & extra & _ & _ & _ & Hs & _).
    destruct (stored_rep _ _ _ _ _ _ _ Hs) as (rs & rest & recs & H & _). destruct Hs. by eapply Hrep.
Qed.

Lemma vault_ok_seal p w v : vault_ok p (w, v) → vault_ok p (w, seal v).
Proof.
  intros [H|[(b & H)|(m & evs & H)]].
  - left. destruct H as (_ & _ & H). exact (conj eq_refl (conj eq_refl H)).
  - right. left. exists b. destruct H as (_ & _ & H). exact (conj eq_refl (conj eq_refl H)).
  - right. left. destruct (seal_live _ _ _ _ H) as (root & b & extra & [Hc _] & _). by exists b.
Qed.

(** Reading off the state a method ends in. *)
Lemma wp_end {S E A} (m : proc S E A) (I : S → Prop) s : wp m (λ _, I) (λ _, I) s → I (m s).2.
Proof. unfold wp. by destruct (m s) as [[]]. Qed.

Lemma grown_ok p master evs v (ok : Event → Prop) s : grown p master evs v ok s → vault_ok p s.
Proof. intros (new & H & _). right. right. eauto. Qed.

(** Requests that leave the keys alone. *)
Definition ordinary (r : request) : bool :=
  match r with Init _ _ | SubmitShare _ | ResetUnseal | SealAs _ | Rekey _ _ _ => false | _ => true end.

Lemma ordinary_grown p master evs r s :
  live p master evs s → valid r → ordinary r = true → grown p master evs s.2 anything (handle r s).
Proof.
  intros Hl Hv Ho. destruct r; try done; cbn [handle valid] in *; destruct_and?; apply wp_end.
  - by apply create_user_grown.
  - by apply login_grown.
  - by apply issue_machine_token_grown.
  - by apply revoke_token_grown.
  - by apply authenticate_grown.
  - by apply create_project_grown.
  - by apply create_environment_grown.
  - by apply set_secret_grown.
  - by apply get_secret_grown.
  - by apply list_secrets_grown.
  - by apply delete_secret_grown.
  - by apply audit_trail_grown.
Qed.

(** Any number of them, one after the other. *)
Definition serve (rs : list request) (s : World * Vault.t) : World * Vault.t :=
  fold_left (λ s r, handle r s) rs s.

Lemma serve_grown p master evs rs s :
  live p master evs s → Forall (λ r, valid r ∧ ordinary r = true) rs →
  ∃ new, live p master (evs ++ new) (serve rs s) ∧ same_keys s.2 (serve rs s).2.
Proof.
  intros Hl Hrs. revert evs s Hl. induction Hrs as [|r rs [Hv Ho] _ IH]; intros evs s Hl.
  { exists []. by rewrite app_nil_r. }
  destruct (ordinary_grown _ _ _ _ _ Hl Hv Ho) as (new & Hl1 & (Hb & Hr & Hp) & _).
  destruct (IH _ _ Hl1) as (new' & Hl2 & (Hb' & Hr' & Hp')). change (serve (r :: rs) s) with (serve rs (handle r s)).
  exists (new ++ new'). rewrite app_assoc. split; [done|]. split_and!; congruence.
Qed.

Lemma live_handle p master evs r s :
  live p master evs s → valid r → Log.with_extension p "compacting" ≠ p → vault_ok p (handle r s).
Proof.
  intros Hl Hv Hext. destruct (ordinary r) eqn:Ho; [by eapply grown_ok, ordinary_grown|].
  pose proof Hl as (root & b & extra & Hr & Hb & _). assert (vault_ok p s) as Hok by (right; right; eauto).
  destruct r; try done; cbn [handle valid] in *; destruct_and?.
  - by rewrite (init_again _ _ _ _ Hb).
  - by rewrite (submit_unsealed _ _ _ _ Hb Hr).
  - unfold seal_as, bind, lift. destruct (require caller Administer); [|done]. destruct s. by apply vault_ok_seal.
  - apply wp_end. eapply wp_mono; [by apply wp_rekey|..]; cbv beta.
    + intros out s' (? & ? & ? & ? & ? & ? & ? & _ & _ & _ & _ & _ & _ & Hl' & _). right. right. eauto.
    + intros e s' [Hl' _]. right. right. eauto.
Qed.

Lemma sealed_vault_handle p r w v :
  vault_ok p (w, v) → root_key v = None → valid r → vault_ok p (handle r (w, v)).
Proof.
  intros Hok Hr Hv. destruct (needs_key r) eqn:Hn; [by rewrite sealed_handle|].
  destruct (vault_ok_sealed _ _ _ Hok Hr) as [Hf|[b Hc]]; destruct r; try done; cbn [handle valid] in *.
  - destruct Hv as [Ht Hs]. apply wp_end. eapply wp_mono; [by apply wp_init|..]; cbv beta; [|done].
    intros out s' (? & ? & ? & ? & ? & ? & _ & _ & _ & Hl & _). right. right. eauto.
  - destruct Hf as (_ & _ & Hb & _). by rewrite submit_uninitialized.
  - unfold seal_as, bind, lift. destruct (require caller Administer); [by apply vault_ok_seal|done].
  - destruct Hc as (_ & _ & Hb & _). by rewrite (init_again _ _ _ _ Hb).
  - apply wp_end. eapply wp_mono; [by apply wp_submit_share|..]; cbv beta.
    + intros st s' H. destruct (status_sealed st); [right; left; eauto|right; by right].
    + intros e s' H. right. left. eauto.
  - unfold seal_as, bind, lift. destruct (require caller Administer); [by apply vault_ok_seal|done].
Qed.

Lemma step_sound p x y : Log.with_extension p "compacting" ≠ p → step p x y → sound p x → sound p y.
Proof.
  intros Hext [w v r w' v' Hv E|w v|w v w' E|w e w' E] H; cbn [sound] in *.
  - rewrite <- E. destruct (root_key v) eqn:Hr; [|by apply sealed_vault_handle].
    destruct H as [(H & _)|[(b & H & _)|(m & evs & H)]]; [cbn in H; congruence..|]. by eapply live_handle.
  - by eapply vault_ok_openable.
  - pose proof (wp_boot p w H) as Hb. unfold wp in Hb. by rewrite E in Hb.
  - pose proof (wp_boot p w H) as Hb. unfold wp in Hb. by rewrite E in Hb.
Qed.
End Invariant.
End Server.
End Server.
