(* ===== verification/VaultCustody.v ===== *)
(** * Shares in the right hands

    What becomes of a vault as long as it is not split again and the only shares it is
    given are its own: it is sealed and unsealed, it serves, and its keys stay. This is
    the invariant behind the claim that any quorum restores the vault. *)

From S2P Require Import Prelude Text Timestamp World Token Shamir Aead Event State Log LogSpec.
From S2P Require Import Barrier Validate Password Vault VaultSpec VaultSecrets VaultAccess VaultKeys VaultServer.
From Stdlib Require Import Strings.Byte.

Module Custody.
Import Vault VaultSpec VaultSecrets VaultKeys Server.

(** The requests there may be: every one but a re-splitting, and of the shares only
    those that were [printed]. *)
Definition in_custody (printed : list string) (r : request) : Prop :=
  match r with Rekey _ _ _ => False | SubmitShare x => x ∈ printed | _ => True end.

(** The state of the vault when it was last unsealed. *)
Definition remembered (s : World * Vault.t) (m : State.t) : State.t :=
  match root_key s.2 with Some _ => state s.2 | None => m end.

Section Custody.
Context {EnvI : Env} {CipherI : Cipher} {LawsI : CipherLaws} {ShaI : Sha256} {TextI : OsText}.
Context {ArgonI : Argon2} {ArgonLawsI : password.Argon2Laws}.

Fixpoint last_unsealed (rs : list request) (s : World * Vault.t) (m : State.t) : State.t :=
  match rs with
  | [] => m
  | r :: rs => last_unsealed rs (handle r s) (remembered (handle r s) m)
  end.

(** A new process, on the file of [s] and with a quorum, comes to an unsealed vault with
    the root key [root] and the state [m], and at most the one event more whose commit was
    cut short; or the system failed. *)
Definition recovers (p : string) (root : option DataKey.t) (m : State.t) (s : World * Vault.t) (quorum : list string) : Prop :=
  wp (restart p quorum)
    (λ v' w', vault_ok p (w', v') ∧ root_key v' = root
      ∧ ∃ late, (length late ≤ 1)%nat ∧ state v' = fold_left State.apply late m ∧ (broken (log s.2) = false → late = []))
    (λ e w', ∃ f, e = VaultError.Store f ∧ LogSpec.faulted f) s.1.

Section Phases.
Variables (p : string) (mb : list byte) (t n : Z) (w0 : World) (shares : list shamir.Share) (root : DataKey.t) (b : Barrier.t).
Hypothesis (Hmb : length mb = MASTER_KEY_LEN) (Hsplit : fst (shamir.split mb t n w0) = Ok shares) (Hn : n <= 255).
Hypothesis (Hthr : Barrier.threshold b = t).

Abbreviation master := (DataKey.mk mb).
Abbreviation printed := (shamir.to_string <$> shares).

Inductive custody (m : State.t) (s : World * Vault.t) : Prop :=
| custody_open evs :
    live p master evs s → root_key s.2 = Some root → barrier s.2 = Some b → m = state s.2 → custody m s
| custody_shut evs late :
    sealed_over p master root b (evs ++ late) s → m = State.replay evs → (length late ≤ 1)%nat →
    (broken (log s.2) = false → late = []) → NoDup (pending_shares s.2) →
    (∀ x, x ∈ pending_shares s.2 → x ∈ shares) → Z.of_nat (length (pending_shares s.2)) < t → custody m s.

Lemma threshold_positive : 1 <= t.
Proof. destruct (shamir.split mb t n w0) as [r w1] eqn:E. cbn in Hsplit. subst r. apply shamir.split_ok in E. lia. Qed.

Lemma quorum_combines q : NoDup q → (∀ x, x ∈ q → x ∈ shares) → Z.of_nat (length q) = t → shamir.combine q = Ok mb.
Proof.
  intros Hnd Hin Hlen. destruct (shamir.split mb t n w0) as [r w1] eqn:E. cbn in Hsplit. subst r.
  eapply shamir.combine_quorum; [exact E|done|done|done|lia].
Qed.

(** What opened is in custody, whatever was remembered before. *)
Lemma custody_opened evs m s : opened_as p master root b evs s → custody (remembered s m) s.
Proof. intros (Hl & _ & Hr & Hb). apply (custody_open _ _ evs); [done..|]. unfold remembered. by rewrite Hr. Qed.

(** A sealed vault that is still sealed, with other shares pending. *)
Lemma custody_still evs late m s :
  sealed_over p master root b (evs ++ late) s → m = State.replay evs → (length late ≤ 1)%nat →
  (broken (log s.2) = false → late = []) → NoDup (pending_shares s.2) →
  (∀ x, x ∈ pending_shares s.2 → x ∈ shares) → Z.of_nat (length (pending_shares s.2)) < t → custody (remembered s m) s.
Proof.
  intros Hso. unfold remembered. pose proof Hso as [(Hr & _) _]. rewrite Hr. intros. by apply (custody_shut _ _ evs late).
Qed.

Lemma sealed_submit evs late m share s :
  sealed_over p master root b (evs ++ late) s → m = State.replay evs → (length late ≤ 1)%nat →
  (broken (log s.2) = false → late = []) → NoDup (pending_shares s.2) →
  (∀ x, x ∈ pending_shares s.2 → x ∈ shares) → Z.of_nat (length (pending_shares s.2)) < t → share ∈ shares →
  custody (remembered (submit_share (shamir.to_string share) s).2 m) (submit_share (shamir.to_string share) s).2.
Proof.
  intros Hso Hm Hlate Hbr Hnd Hin Hlen Hshare.
  destruct (split_share _ _ _ _ _ share Hsplit Hn Hshare) as [Hi Hd].
  destruct (decide (share ∈ pending_shares s.2)) as [Hold|Hnew].
  { pose proof (wp_submit_known p master root b (evs ++ late) share s Hso Hi Hd Hold) as H. unfold wp in H. rewrite Hthr in H. specialize (H Hlen).
    destruct (submit_share _ s) as [[st|e] s']; [|done]. cbn [snd]. subst s'. by apply (custody_still evs late). }
  assert (NoDup (pending_shares s.2 ++ [share])) as Hnd'.
  { apply NoDup_app. split; [done|]. split; [|apply NoDup_singleton]. by intros x Hx ->%list_elem_of_singleton. }
  assert (∀ x, x ∈ pending_shares s.2 ++ [share] → x ∈ shares) as Hin'
    by (intros x [Hx| ->%list_elem_of_singleton]%elem_of_app; auto).
  destruct (Z.lt_ge_cases (Z.of_nat (length (pending_shares s.2)) + 1) t) as [Hmore|Hlast].
  - pose proof (wp_submit_more p master root b (evs ++ late) share s Hso Hi Hd Hnew) as H. unfold wp in H.
    rewrite Hthr in H. specialize (H Hmore).
    destruct (submit_share _ s) as [[st|e] s']; [|done]. destruct H as (_ & Hso' & Hp' & Hlog). cbn [snd] in *.
    apply (custody_still evs late); rewrite ?Hp', ?Hlog; try done. rewrite length_app. cbn. lia.
  - pose proof (wp_submit_last p master root b (evs ++ late) share s Hso Hi Hd Hnew) as H. unfold wp in H.
    assert (Z.of_nat (length (pending_shares s.2 ++ [share])) = t) as Hq by (rewrite length_app; cbn; lia).
    rewrite Hthr in H. specialize (H ltac:(lia) Hmb (quorum_combines _ Hnd' Hin' Hq)).
    destruct (submit_share _ s) as [[st|e] s']; cbn [snd].
    + destruct H as [_ H]. by eapply custody_opened.
    + destruct H as (_ & Hso' & Hp' & Hlog). apply (custody_still evs late); rewrite ?Hp', ?Hlog; try done; [constructor|by intros x ?%elem_of_nil|].
      pose proof threshold_positive. cbn. lia.
Qed.

(** Every request that may come keeps the vault in custody. *)
Lemma handle_custody r m s : valid r → in_custody printed r → custody m s → custody (remembered (handle r s) m) (handle r s).
Proof.
  intros Hv Hr [evs Hl Hroot Hb ->|evs late Hso Hm Hlate Hbr Hnd Hin Hlen].
  - assert (custody (remembered s (state s.2)) s) as Hsame
      by (unfold remembered; rewrite Hroot; by apply (custody_open _ _ evs)).
    destruct (ordinary r) eqn:Ho.
    { destruct (ordinary_grown p master evs r s Hl Hv Ho) as (new & Hl' & (Hb' & Hr' & _) & _).
      apply (custody_open _ _ (evs ++ new)); [done|congruence..|]. unfold remembered. by rewrite Hr', Hroot. }
    destruct r; try done; cbn [handle in_custody] in *.
    + by rewrite (init_again _ _ _ _ Hb).
    + by rewrite (submit_unsealed _ _ _ _ Hb Hroot).
    + unfold remembered. cbn [snd reset_unseal set_pending root_key]. rewrite Hroot. apply (custody_open _ _ evs); try done.
    + unfold seal_as, bind, lift. destruct (require caller Administer); [|done]. cbn [snd updates modify].
      destruct (seal_live _ _ _ _ Hl) as (root' & b' & extra & Hso & Hr' & Hb' & Hle & Hbr).
      rewrite Hroot in Hr'. injection Hr' as <-. rewrite Hb in Hb'. injection Hb' as <-.
      pose proof Hl as (_ & _ & _ & _ & _ & Hst & _). pose proof threshold_positive.
      apply (custody_still evs extra); try done; [constructor|by intros x ?%elem_of_nil|cbn; lia].
  - pose proof Hso as [(Hroot & _ & Hb & _) _].
    assert (custody (remembered s m) s) as Hsame by by apply (custody_still evs late).
    destruct (needs_key r) eqn:Hk; [by rewrite sealed_handle|].
    assert (∀ v', log v' = log s.2 → pending_shares v' = [] → sealed_over p master root b (evs ++ late) (s.1, v') →
      custody (remembered (s.1, v') m) (s.1, v')) as Hclear.
    { intros v' Hlog Hp' Hso'. pose proof threshold_positive.
      apply (custody_still evs late); cbn [snd]; rewrite ?Hlog, ?Hp'; try done; [constructor|by intros x ?%elem_of_nil|cbn; lia]. }
    destruct s as [w v]. destruct r as [| printed_ | |c| | | | | | | | | | | | |]; try done; cbn [handle in_custody fst snd] in *.
    + by rewrite (init_again _ _ (w, v) b Hb).
    + apply list_elem_of_fmap in Hr as (share & -> & Hshare). by apply (sealed_submit evs late).
    + by apply Hclear.
    + unfold seal_as, bind, lift. destruct (require c Administer); [|done]. apply Hclear; [done..|].
      destruct Hso as [(_ & _ & H) Hs]. split; [exact (conj eq_refl (conj eq_refl H))|exact Hs].
Qed.

(** A run of them, and what any quorum comes to afterwards. *)
Lemma custody_serve rs : ∀ m s, Forall (λ r, valid r ∧ in_custody printed r) rs → custody m s →
  custody (last_unsealed rs s m) (serve rs s).
Proof.
  induction rs as [|r rs IH]; intros m s H Hc; [done|]. apply Forall_cons in H as [[Hv Hr] H].
  change (serve (r :: rs) s) with (serve rs (handle r s)). cbn [last_unsealed]. apply IH; [done|]. by apply handle_custody.
Qed.

Lemma custody_recovers m s quorum :
  custody m s → NoDup quorum → (∀ x, x ∈ quorum → x ∈ printed) → Z.of_nat (length quorum) = t →
  recovers p (Some root) m s quorum.
Proof.
  destruct s as [w v]. intros Hc Hnd Hin Hlen.
  assert (∃ evs late, stored_as p master root b (evs ++ late) (disk w) (log v) ∧ m = State.replay evs
    ∧ (length late ≤ 1)%nat ∧ (broken (log v) = false → late = [])) as (evs & late & Hs & -> & Hle & Hbr).
  { destruct Hc as [evs (root' & b' & late & Hr & Hb & Hst & Hs & Hbr & Hle) Hr' Hb' ->|evs late [_ Hs] -> Hle Hbr _ _ _];
      exists evs, late; [|done]. cbn [fst snd] in *. split; [by simplify_eq|done]. }
  eapply wp_mono; [by eapply quorum_reopens|..]; cbv beta; [|done]. intros v' w' (Hok & Hr & Hst).
  split; [done|]. split; [done|]. exists late. by rewrite Hst, replay_app.
Qed.
End Phases.

(** All of it, from a vault just unsealed or split. *)
Lemma live_recovers p mb t n w0 split evs s :
  length mb = MASTER_KEY_LEN → fst (shamir.split mb t n w0) = Ok split → in_u8 n = true →
  live p (DataKey.mk mb) evs s → Barrier.threshold <$> barrier s.2 = Some t →
  root_key s.2 ≠ None ∧ ∀ rs quorum, Forall (λ r, valid r ∧ in_custody (shamir.to_string <$> split) r) rs →
    NoDup quorum → (∀ x, x ∈ quorum → x ∈ shamir.to_string <$> split) → Z.of_nat (length quorum) = t →
    recovers p (root_key s.2) (last_unsealed rs s (state s.2)) (serve rs s) quorum.
Proof.
  intros Hmb Hsplit Hn Hl Ht. pose proof Hl as (root & b & extra & Hr & Hb & _). rewrite Hb in Ht. injection Ht as Ht.
  split; [by rewrite Hr|]. intros rs quorum Hrs Hnd Hin Hlen. rewrite Hr.
  assert (n <= 255) as Hn' by (unfold in_u8, u8_max in Hn; lia).
  eapply (custody_recovers p mb t n w0 split root b); try done. apply (custody_serve p mb t n w0 split root b); try done.
  by apply (custody_open _ _ _ _ _ _ _ _ evs).
Qed.
End Custody.
End Custody.
