(* ===== verification/VaultClaims.v ===== *)
(** * What the vault guarantees

    The theorems about the vault as a whole, each from the lemmas of the files
    before it, and a module that exercises them on a concrete vault: a toy cipher, a
    toy hash, a store that starts empty. *)

From S2P Require Import Prelude Text Timestamp World Token Shamir Aead Event State Log LogSpec.
From S2P Require Import Barrier Validate Password Vault VaultSpec VaultSecrets VaultAccess VaultKeys VaultServer VaultCustody.
From Stdlib Require Import Strings.Byte.

Module VaultClaims.
Import Vault VaultSpec VaultSecrets VaultAccess VaultKeys Server Custody.

Section VaultClaims.
Context {EnvI : Env} {CipherI : Cipher} {LawsI : CipherLaws} {ShaI : Sha256} {TextI : OsText}.
Context {ArgonI : Argon2} {ArgonLawsI : password.Argon2Laws}.

(** ** The invariant *)

(** C12: whatever requests a server serves, in any order and whatever fails, and
    however often it dies and is started again: a running server holds a vault
    that was never initialised, a sealed one with nothing of the data in memory,
    or an unsealed one whose memory is the replay of the events on disk; and the
    file left behind always has the shape of a log, torn at most at its end. *)
Theorem server_sound p w x :
  Log.with_extension p "compacting" ≠ p → LogSpec.openable p (disk w) →
  reachable p (Down w) x → sound p x.
Proof.
  intros Hext Hop Hr. revert Hop. change (LogSpec.openable p (disk w)) with (sound p (Down w)).
  induction Hr as [|x y z Hxy _ IH]; [done|]. intros H. apply IH. by eapply step_sound.
Qed.

(** C18: a sealed vault does nothing for anyone: every request that would read or
    change data, from whatever caller, is answered that the vault is sealed (or
    refused, or not authenticated), touches neither the disk nor memory, and there
    is no data in memory to be had. *)
Theorem sealed_is_inert p s :
  vault_ok p s → root_key s.2 = None →
  state s.2 = State.default
  ∧ (∀ c ps es key, get_secret c ps es key s = (Err VaultError.Sealed, s))
  ∧ (∀ c ps es, list_secrets c ps es s = (Err VaultError.Sealed, s))
  ∧ (∀ presented, authenticate presented s = (Ok None, s))
  ∧ (∀ email pw ttl, login email pw ttl s = (Err VaultError.Sealed, s))
  ∧ ∀ r, needs_key r = true → handle r s = s.
Proof.
  destruct s as [w v]. intros Hok Hr. split_and!.
  - by destruct (vault_ok_sealed _ _ _ Hok Hr) as [(_ & H & _)|(b & _ & H & _)].
  - intros. exact (guarded _ _ Hr).
  - intros. exact (guarded _ _ Hr).
  - intros presented. unfold authenticate, bind, reads, gets, is_sealed. cbn in *. by rewrite Hr.
  - intros. exact (guarded _ _ Hr).
  - intros r Hn. by apply sealed_handle.
Qed.

(** ** Secrets *)

(** C14: writing and deleting a secret are the insertion and the deletion
    of one binding of the map the vault stands for: on success the map differs
    from the old one exactly at the slot, and the event and an audit entry are
    on disk, in that order. On an error nothing changed, or the system failed
    between the write and its audit entry and the write stands. *)
Theorem secret_writes p master evs c ps es key value s :
  live p master evs s → caller_ok c → is_str ps = true → is_str es = true → is_str key = true →
  let target := target_of ps es key in
  wp (set_secret c ps es key value)
    (λ _ s', ∃ ids event at_, permitted c WriteSecrets s.2 ps es ids
      ∧ written p master evs s s' (ids.1, ids.2, key) (Some value)
      ∧ live p master (evs ++ [event; Audited at_ (Caller.actor c) "secret.set" target "ok"]) s')
    (λ err s', write_error p master evs c ps es "secret.set" target s err s'
      ∨ store_error err ∧ ∃ ids, permitted c WriteSecrets s.2 ps es ids
                               ∧ written p master evs s s' (ids.1, ids.2, key) (Some value)) s
  ∧ wp (delete_secret c ps es key)
    (λ _ s', ∃ ids event at_, permitted c WriteSecrets s.2 ps es ids
      ∧ State.secret (state s.2) ids.1 ids.2 key ≠ None
      ∧ written p master evs s s' (ids.1, ids.2, key) None
      ∧ live p master (evs ++ [event; Audited at_ (Caller.actor c) "secret.delete" target "ok"]) s')
    (λ err s', write_error p master evs c ps es "secret.delete" target s err s'
      ∨ store_error err ∧ ∃ ids, permitted c WriteSecrets s.2 ps es ids
                               ∧ written p master evs s s' (ids.1, ids.2, key) None) s.
Proof. intros Hl Hc Hps Hes Hk. split; [by apply wp_set_secret|by apply wp_delete_secret]. Qed.

(** C13: a read returns what the map holds at the slot, a listing returns the
    map's bindings in the environment, sorted by key, and nothing else; only
    to a caller with the right to it; and only after an audit entry saying so is
    on disk. A refusal or a miss is recorded too, and a read changes nothing but
    the trail. *)
Theorem secret_reads p master evs c ps es key s :
  live p master evs s → caller_ok c → is_str ps = true → is_str es = true → is_str key = true →
  wp (get_secret c ps es key)
    (λ out s', unchanged s s' ∧ recorded p master evs c "secret.read" (target_of ps es key) "ok" s'
      ∧ ∃ ids, permitted c ReadSecrets s.2 ps es ids ∧ readable s.2 (ids.1, ids.2, key) = Some out)
    (λ err s', read_error p master evs c ps es "secret.read" (target_of ps es key) s err s'
      ∨ ∃ ids, permitted c ReadSecrets s.2 ps es ids ∧ readable s.2 (ids.1, ids.2, key) = None ∧ unchanged s s'
        ∧ match State.secret (state s.2) ids.1 ids.2 key with
          | None => err = VaultError.NotFound "secret"
                    ∧ recorded p master evs c "secret.read" (target_of ps es key) "missing" s'
          | Some _ => err = VaultError.Crypto ∧ live p master evs s'
          end) s
  ∧ wp (list_secrets c ps es)
    (λ out s', unchanged s s' ∧ recorded p master evs c "secret.list" (ps +:+ "/" +:+ es) "ok" s'
      ∧ ∃ ids, permitted c ReadSecrets s.2 ps es ids ∧ listing s.2 ids.1 ids.2 out)
    (λ err s', read_error p master evs c ps es "secret.list" (ps +:+ "/" +:+ es) s err s'
      ∨ err = VaultError.Crypto ∧ unchanged s s' ∧ live p master evs s'
        ∧ ∃ ids, permitted c ReadSecrets s.2 ps es ids) s.
Proof. intros Hl Hc Hps Hes Hk. split; [by apply wp_get_secret|by apply wp_list_secrets]. Qed.

(** ** Machine tokens *)

(** The environment a machine token was issued for. *)
Definition own (c : Caller.t) (v : Vault.t) (ps es : string) : Prop :=
  ∃ ids, resolve v ps es = Ok ids ∧ Caller.project_id c = Some ids.1 ∧ Caller.environment_id c = Some ids.2.

Lemma permitted_own c cap v ps es ids :
  Caller.kind c = Machine → permitted c cap v ps es ids → cap = ReadSecrets ∧ own c v ps es.
Proof.
  intros Hk [Hr Ha]. unfold authorise, require in Ha. rewrite Hk in Ha. destruct cap; try done. cbn in Ha.
  destruct (bool_decide_reflect (Caller.project_id c = Some ids.1)); [|done].
  destruct (bool_decide_reflect (Caller.environment_id c = Some ids.2)); [|done]. split; [done|]. by exists ids.
Qed.

Lemma refused_machine c cap v ps es outcome err :
  Caller.kind c = Machine → refused c cap v ps es outcome err → err = VaultError.Forbidden.
Proof.
  intros Hk [[_ H]|(_ & ids & _ & H)].
  - unfold resolve_for in H. destruct (resolve v ps es); [done|]. rewrite decide_True in H by done. congruence.
  - unfold authorise, require in H. rewrite Hk in H. destruct cap; cbn in H; try congruence.
    rewrite bool_decide_true in H by done. cbn [negb] in H. destruct (_ && _); congruence.
Qed.

(** The end of a token is nothing to the secrets and the names. *)
Lemma revoked_readable id at_ v v' :
  state v' = State.apply (state v) (TokenRevoked id at_) → root_key v' = root_key v →
  (∀ sl, readable v' sl = readable v sl) ∧ ∀ ps es, resolve v' ps es = resolve v ps es.
Proof.
  intros Hst Hr. unfold readable, plaintext, project_data_key, resolve. rewrite Hst, Hr. cbn [State.apply].
  by destruct (update_first _ _ _).
Qed.

(** C15: a machine token reads the secrets of the one environment it was issued
    for and does nothing else but revoke itself. Every other environment, there or
    not, gets it the same refusal; writing, deleting, listing projects and
    environments, and administering are refused whatever the names; and whatever it
    asks, no secret, no key and no name changes. The one thing it can change is its
    own token, by revoking it. *)
Theorem machine_confined p master evs c ps es key value s :
  live p master evs s → caller_ok c → is_str ps = true → is_str es = true → is_str key = true →
  Caller.kind c = Machine →
  wp (get_secret c ps es key) (λ _ s', unchanged s s' ∧ own c s.2 ps es)
    (λ err s', unchanged s s' ∧ (err = VaultError.Forbidden ∨ store_error err ∨ own c s.2 ps es)) s
  ∧ wp (list_secrets c ps es) (λ _ s', unchanged s s' ∧ own c s.2 ps es)
    (λ err s', unchanged s s' ∧ (err = VaultError.Forbidden ∨ store_error err ∨ own c s.2 ps es)) s
  ∧ wp (set_secret c ps es key value) (λ _ _, False) (λ _ s', unchanged s s') s
  ∧ wp (delete_secret c ps es key) (λ _ _, False) (λ _ s', unchanged s s') s
  ∧ (∀ email pw, create_user c email pw s = (Err VaultError.Forbidden, s))
  ∧ (∀ slug name, create_project c slug name s = (Err VaultError.Forbidden, s))
  ∧ (∀ project slug name, create_environment c project slug name s = (Err VaultError.Forbidden, s))
  ∧ (∀ project environment label ttl,
       issue_machine_token c project environment label ttl s = (Err VaultError.Forbidden, s))
  ∧ (∀ id, id ≠ Caller.token_id c → revoke_token c id s = (Err VaultError.Forbidden, s))
  ∧ wp (revoke_token c (Caller.token_id c))
      (λ _ s', (∃ at_, live p master (evs ++ [TokenRevoked (Caller.token_id c) at_]) s') ∧ same_keys s.2 s'.2
         ∧ (∀ sl, readable s'.2 sl = readable s.2 sl) ∧ ∀ ps es, resolve s'.2 ps es = resolve s.2 ps es)
      (λ _ s', unchanged s s') s
  ∧ project_slugs s.2 c = Err VaultError.Forbidden
  ∧ (∀ project, environment_slugs s.2 c project = Err VaultError.Forbidden)
  ∧ check_secret s.2 c ps es key value ≠ Ok tt
  ∧ (∀ t n, rekey c t n s = (Err VaultError.Forbidden, s))
  ∧ seal_as c s = (Err VaultError.Forbidden, s) ∧ audit_trail c s = (Err VaultError.Forbidden, s).
Proof.
  intros Hl Hc Hps Hes Hk Hm. pose proof Hl as (root & b & extra & Hr & _).
  assert (require_unsealed s.2 = Ok tt) as Hun by (unfold require_unsealed, is_sealed; by rewrite Hr).
  assert (∀ cap, cap ≠ ReadSecrets → require c cap = Err VaultError.Forbidden) as Hreq
    by (intros cap Hcap; unfold require; rewrite Hm; by destruct cap).
  assert (∀ {A} (m : method A) cap, cap ≠ ReadSecrets →
    (do! try_ require_unsealed in do! lift (require c cap) in m) s = (Err VaultError.Forbidden, s)) as Hadmin
    by (intros A m cap Hcap; unfold bind, try_, lift; by rewrite Hun, Hreq).
  assert (∀ action target err s', read_error p master evs c ps es action target s err s' →
    unchanged s s' ∧ (err = VaultError.Forbidden ∨ store_error err ∨ own c s.2 ps es)) as Hre.
  { intros action target err s' [Hu [(outcome & _ & H)|[_ H]]]; (split; [done|]); [left|auto].
    by eapply refused_machine. }
  split_and!.
  - eapply wp_mono; [by apply wp_get_secret|..]; cbv beta.
    + intros out s' (Hu & _ & ids & H & _). split; [done|]. by eapply permitted_own.
    + intros err s' [H|(ids & H & _ & Hu & _)]; [by eapply Hre|]. split; [done|]. right. right. by eapply permitted_own.
  - eapply wp_mono; [by apply wp_list_secrets|..]; cbv beta.
    + intros out s' (Hu & _ & ids & H & _). split; [done|]. by eapply permitted_own.
    + intros err s' [H|(_ & Hu & _ & ids & H)]; [by eapply Hre|]. split; [done|]. right. right. by eapply permitted_own.
  - eapply wp_mono; [by apply wp_set_secret|..]; cbv beta.
    + intros _ s' (ids & _ & _ & H & _). by apply permitted_own in H as [? _].
    + intros err s' [[Hu _]|(_ & ids & H & _)]; [done|]. by apply permitted_own in H as [? _].
  - eapply wp_mono; [by apply wp_delete_secret|..]; cbv beta.
    + intros _ s' (ids & _ & _ & H & _). by apply permitted_own in H as [? _].
    + intros err s' [[Hu _]|(_ & ids & H & _)]; [done|]. by apply permitted_own in H as [? _].
  - intros. by apply Hadmin.
  - intros. by apply Hadmin.
  - intros. by apply Hadmin.
  - intros. by apply Hadmin.
  - intros id Hid. unfold revoke_token. rewrite bool_decide_false by done. by apply Hadmin.
  - eapply wp_mono; [apply (wp_revoke_token p master evs); [done|by apply Hc]|..]; cbv beta; [|by intros ? ? (_ & ? & ?)].
    intros _ s' (_ & at_ & Hl' & Hst & Hkeys). split; [by exists at_|]. split; [done|]. destruct Hkeys as (_ & Hroot & _).
    by eapply revoked_readable.
  - unfold project_slugs. by rewrite Hun, Hreq.
  - intros project. unfold environment_slugs. by rewrite Hun, Hreq.
  - unfold check_secret. rewrite Hun. cbn [res_bind]. destruct (validate.secret_key key); [|done]. cbn [res_bind].
    destruct (_ <? _); [done|]. destruct (resolve_for _ _ _ _) as [[]|]; [|done]. cbn [res_bind]. unfold authorise. by rewrite Hreq.
  - intros. by apply Hadmin.
  - unfold seal_as, bind, lift. by rewrite Hreq.
  - unfold audit_trail, bind, lift. by rewrite Hreq.
Qed.

(** ** Coming in *)

(** C19: a string authenticates exactly as the first token on record whose hash is
    the string's, while the vault is unsealed, as long as that token is neither
    revoked nor expired at the moment the clock is read, and, for the root token,
    only while there is no account at all; its holder is what the token says. *)
Theorem authenticate_sound presented w v :
  let at_ := reading w in
  ∃ answer w', authenticate presented (w, v) = (Ok answer, (w', v)) ∧ disk w' = disk w ∧
  ∀ c, answer = Some c ↔
    presented ≠ "" ∧ root_key v ≠ None ∧ ∃ t,
      State.token_by_hash (state v) (token.as_bytes (token.hash presented)) = Some t
      ∧ Token.revoked_at t = None
      ∧ (∀ expiry, Token.expires_at t = Some expiry → Timestamp.seconds at_ < Timestamp.seconds expiry)
      ∧ (Token.kind t = Root → State.users (state v) = [])
      ∧ c = Caller.mk (Token.id t) (Token.kind t) (Token.user_id t) (Token.project_id t) (Token.environment_id t).
Proof.
  intros at_. destruct (authenticate_who presented w v) as (w' & E & Hd). exists (who v presented at_), w'.
  split; [exact E|]. split; [done|]. intros c. unfold who, is_sealed.
  destruct (root_key v) as [root|]; [|split; [done|by intros (_ & ? & _)]].
  destruct (bool_decide_reflect (presented = "")) as [He|Hne]; [split; [done|by intros (? & _)]|]. cbn [orb].
  destruct (State.token_by_hash _ _) as [t|]; cbn [mbind option_bind].
  2: { split; [done|]. by intros (_ & _ & t & ? & _). }
  assert (Token.is_valid_at t at_ = true ↔ Token.revoked_at t = None
    ∧ ∀ expiry, Token.expires_at t = Some expiry → Timestamp.seconds at_ < Timestamp.seconds expiry) as Hvalid.
  { unfold Token.is_valid_at. destruct (Token.revoked_at t); [by split; [|intros [? _]]|].
    destruct (Token.expires_at t) as [x|]; [|by split]. rewrite Z.ltb_lt. split; [by intros ?; split; [|intros ? [= <-]]|intros [_ H]; auto]. }
  split.
  - intros H. apply admits_some in H as (Hv & Hroot & ->). apply Hvalid in Hv as [Hrev Hexp]. split; [done|]. split; [done|]. by exists t.
  - intros (_ & _ & t' & [= <-] & Hrev & Hexp & Hroot & ->). unfold admits. rewrite (proj2 Hvalid) by done. cbn [negb].
    destruct (bool_decide_reflect (Token.kind t = Root)) as [Hk|Hk]; [|done].
    by rewrite bool_decide_true by auto.
Qed.

(** C20: revoking a token takes effect at once and for good: only its holder or an
    administrator can do it, and when it succeeds the string it was issued for
    authenticates nobody, at any time, in any vault whose history goes on from
    there, through restarts and whatever else is recorded. *)
Theorem revoked_is_out p master evs c id presented t s :
  live p master evs s → is_str id = true →
  State.token (state s.2) id = Some t →
  State.token_by_hash (state s.2) (token.as_bytes (token.hash presented)) = Some t →
  wp (revoke_token c id)
    (λ _ s', (id = Caller.token_id c ∨ granted_to Administer (Caller.kind c) = true)
      ∧ ∃ at_, live p master (evs ++ [TokenRevoked id at_]) s'
        ∧ ∀ p' master' rest later, live p' master' ((evs ++ [TokenRevoked id at_]) ++ rest) later →
            (authenticate presented later).1 = Ok None)
    (λ _ s', live p master evs s' ∧ state s'.2 = state s.2) s.
Proof.
  intros Hl Hid Ht Hh. pose proof Hl as (_ & _ & _ & _ & _ & Hst & _).
  eapply wp_mono; [by apply wp_revoke_token|..]; cbv beta; [|by intros ? ? (? & ? & _)].
  intros _ s' [Hau (at_ & Hl' & _)]. split.
  { destruct Hau as [->|H]; [by left|right]. unfold require in H. by destruct (granted_to _ _). }
  exists at_. split; [done|]. intros p' master' rest [w v] (_ & _ & _ & _ & _ & Hst' & _). cbn [snd] in Hst'.
  destruct (authenticate_who presented w v) as (w' & -> & _). cbn [fst]. f_equal.
  rewrite Hst in Ht, Hh. eapply revoked_nobody; [exact Ht|exact Hh|]. rewrite Hst', <- app_assoc. done.
Qed.

(** C21: an account that was created can be used: its password, with its address
    in any letter case and spacing, is not turned away by a login, and no other
    text that fails to verify gets in; and the string a login returns is a
    session of that user until the lifetime asked for runs out (unless the
    string drawn at random is one already on record). *)
Theorem account_session p master evs c email pw s :
  live p master evs s →
  wp (create_user c email pw)
    (λ id s1, ∃ evs1, live p master evs1 s1 ∧ ∀ spelling attempt ttl,
      normal_form spelling = normal_form email → check_lifetime ttl = Ok tt →
      wp (login spelling attempt ttl)
        (λ secret s2, ∃ hash token_id now, password.verify attempt hash = true ∧ password.verify pw hash = true ∧
          (State.token_by_hash (state s1.2) (token.as_bytes (token.hash secret)) = None →
           ∀ w, (authenticate secret (w, s2.2)).1
                = Ok (if Timestamp.seconds (reading w) <? Timestamp.seconds (Timestamp.plus_seconds now ttl)
                      then Some (Caller.mk token_id Session (Some id) None None) else None)))
        (λ err s2, live p master evs1 s2 ∧
          (err = VaultError.BadCredentials ∧ attempt ≠ pw ∨ err = VaultError.Crypto ∨ store_error err)) s1)
    (λ _ s1, live p master evs s1 ∧ state s1.2 = state s.2) s.
Proof.
  intros Hl. eapply wp_mono; [by apply wp_create_user|..]; cbv beta; [|done].
  intros id s1 (_ & u & <- & He & _ & Hver & Hl1 & Hu). eexists. split; [exact Hl1|].
  intros spelling attempt ttl Hsp Httl. rewrite <- (email_normal _ _ Hsp) in He.
  assert (account s1.2 spelling = Some u) as Hacc by (unfold account; by rewrite He).
  eapply wp_mono; [by apply wp_login|..]; cbv beta.
  - intros secret s2 (_ & Hne & u' & id & now & at_ & Hu' & Hv & Hl2 & Hst & Hr). rewrite Hacc in Hu'. injection Hu' as <-.
    exists (User.password_hash u), id, now. split; [done|]. split; [done|]. intros Hfresh w.
    destruct (authenticate_who secret w s2.2) as (w' & -> & _). cbn [fst]. f_equal.
    eapply (login_who s1.2); [|done|done|done]. destruct Hl1 as (root & b & extra & Hroot & _). by rewrite Hr, Hroot.
  - intros err s2 (Hl2 & _ & [H|[H|[H|[-> H]]]]); (split; [done|]); [congruence|auto|auto|left].
    split; [done|]. intros ->. by rewrite (H _ Hacc) in Hver.
Qed.

(** ** Keys *)

(** C16: the shares handed out at initialisation are enough, for as long as the vault is
    not split again. Whatever requests are served afterwards, sealing and unsealing with
    these shares included (no others: that a wrong share opens nothing is up to the
    cipher), when the process dies and another opens the file, any [threshold] distinct
    shares out of those printed, in any order, bring back the vault with the same root key
    and the state it had when it was last unsealed, plus at most the one event whose
    commit was cut short. Nothing stands in the way but a failure of the system. *)
Theorem quorum_restores p t n s :
  fresh p s → in_u8 t = true → in_u8 n = true →
  wp (init t n)
    (λ out s1, root_key s1.2 ≠ None ∧ ∀ rs quorum, Forall (λ r, valid r ∧ in_custody (outcome_shares out) r) rs →
      NoDup quorum → (∀ x, x ∈ quorum → x ∈ outcome_shares out) → Z.of_nat (length quorum) = t →
      recovers p (root_key s1.2) (last_unsealed rs s1 (state s1.2)) (serve rs s1) quorum)
    (λ _ s1, vault_ok p s1) s.
Proof.
  intros Hf Ht Hn. eapply wp_mono; [by apply wp_init|..]; cbv beta; [|done].
  intros out s1 (mb & w0 & split & id & issued & at_ & Hmb & Hsplit & -> & Hl & Hthr & _). by eapply live_recovers.
Qed.

(** A vault whose memory has applied some more events. *)
Definition caught_up (late : list Event) (v : Vault.t) : Vault.t :=
  mk (log v) (fold_left State.apply late (state v)) (barrier v) (root_key v) (pending_shares v).

(** C17: splitting the master key again changes no value anyone can read and no
    account, token, project or environment, and the new shares restore the vault as
    the old ones did, through the same requests. One thing may change: when an
    earlier write failed and left the log broken, the event it was to write may be in
    the file all the same, and then the vault has it from now on. If it fails, for
    whatever reason, the vault in memory and its file are the vault they were. *)
Theorem rekey_preserves p master evs c t n s :
  live p master evs s → Log.with_extension p "compacting" ≠ p →
  caller_ok c → in_u8 t = true → in_u8 n = true →
  wp (rekey c t n)
    (λ out s', (∃ late, (length late ≤ 1)%nat ∧ (broken (log s.2) = false → late = []) ∧ on_file p master (evs ++ late) s
          ∧ let v := caught_up late s.2 in
            (∀ sl, readable s'.2 sl = readable v sl)
            ∧ (∀ presented at_, who s'.2 presented at_ = who v presented at_)
            ∧ (∀ ps es, resolve s'.2 ps es = resolve v ps es)
            ∧ (∀ email, account s'.2 email = account v email))
      ∧ ∀ rs quorum, Forall (λ r, valid r ∧ in_custody (outcome_shares out) r) rs →
          NoDup quorum → (∀ x, x ∈ quorum → x ∈ outcome_shares out) → Z.of_nat (length quorum) = t →
          recovers p (root_key s'.2) (last_unsealed rs s' (state s'.2)) (serve rs s') quorum)
    (λ _ s', live p master evs s' ∧ s'.2 = s.2) s.
Proof.
  intros Hl Hext Hc Ht Hn. eapply wp_mono; [by apply wp_rekey|..]; cbv beta; [|done].
  intros out s' (old & new & mb & w0 & split & evs' & e & Hold & Hnew & Hmb & Hsplit & -> & [at_ ->] & Hl' & Hthr & _ & late & Hle & Hlate & Hfile & Hcar).
  pose proof (same_state_replay _ _ _ _ Hcar) as Hsame. rewrite replay_app in Hsame.
  pose proof Hl as (_ & _ & _ & _ & _ & Hst & _). pose proof Hl' as (_ & _ & _ & _ & _ & Hst' & _).
  rewrite replay_snoc in Hst'. cbn [State.apply] in Hst'. rewrite <- Hst, <- Hst' in Hsame.
  change (fold_left State.apply late (state s.2)) with (state (caught_up late s.2)) in Hsame.
  assert (root_key (caught_up late s.2) = Some old) as Hold' by done.
  split; [exists late; do 3 (split; [done|]); split_and!|].
  - by eapply same_state_readable.
  - intros presented now. unfold who, is_sealed, admits, State.token_by_hash.
    by rewrite Hold', Hnew, (same_tokens _ _ _ _ Hsame), (same_users _ _ _ _ Hsame).
  - intros. by eapply same_state_resolve.
  - intros email. unfold account, State.user_by_email. by rewrite (same_users _ _ _ _ Hsame).
  - by eapply live_recovers.
Qed.
End VaultClaims.
End VaultClaims.

(** ** A vault to try them on *)

Module VaultDemo.
Export Checksum Truncation ClearText PlainTexts.
Import Vault VaultSpec VaultSecrets VaultAccess VaultKeys Server Custody.

#[export] Instance env : Env := calm (λ k i, byte_of_Z (Z.of_nat (7 * k + i))) 1700000000000000000.

Definition path0 : string := "vault.log".
Definition world0 : World := mk_world 0 0 0 (mk_disk ∅ ∅ 0) 2 [].

Definition booted : World * Vault.t :=
  match Vault.open path0 world0 with
  | (Ok v, w) => (w, v)
  | (Err _, w) => (w, mk (mk_log path0 (mk_handle 0 0) 0 true false) State.default None None [])
  end.

Definition s1 : World * Vault.t := (init 2 3 booted).2.
Definition root : Caller.t := Caller.mk "root" Root None None None.
Definition session : Caller.t := Caller.mk "session" Session (Some "someone") None None.
Definition requests : list request :=
  [CreateUser root "Dev@Example.com " "correct horse"; CreateProject session "app" "App";
   CreateEnvironment session "app" "prod" "Production"; SetSecret session "app" "prod" "KEY" [x2a; x2b]].
Definition s2 : World * Vault.t := serve requests s1.

Definition outcome : InitOutcome :=
  match init 2 3 booted with (Ok out, _) => out | (Err _, _) => mk_outcome [] "" 0 end.

Lemma path0_apart : Log.with_extension path0 "compacting" ≠ path0.
Proof. by vm_compute. Qed.

Lemma openable0 : LogSpec.openable path0 (disk world0).
Proof. split; [intros p i; cbn; by rewrite lookup_empty|by left]. Qed.

Lemma boot_ok : Vault.open path0 world0 = (Ok booted.2, booted.1).
Proof. by vm_compute. Qed.

Lemma fresh_booted : fresh path0 booted.
Proof.
  split_and!; try by vm_compute.
  - intros p i. assert (directory (disk booted.1) = {[path0 := 0%nat]}) as -> by by vm_compute.
    rewrite lookup_singleton_Some. intros [_ <-]. apply Nat.ltb_lt. by vm_compute.
  - exists [], []. split; [|done]. split; [by vm_compute|split; [by vm_compute|constructor]|apply LogSpec.partial_nil|by vm_compute].
Qed.

Lemma init_live : ∃ master e, live path0 master [e] s1.
Proof.
  pose proof (wp_init path0 2 3 booted fresh_booted eq_refl eq_refl) as H. unfold wp in H. unfold s1.
  destruct (init 2 3 booted) as [[out|e] s'] eqn:E; [|vm_compute in E; discriminate E].
  destruct H as (mb & _ & _ & id & issued & at_ & _ & _ & _ & H & _). eauto.
Qed.

Lemma requests_ok : Forall (λ r, valid r ∧ ordinary r = true) requests.
Proof. repeat constructor. Qed.

Lemma live2 : ∃ master evs, live path0 master evs s2.
Proof.
  destruct init_live as (master & e & H). destruct (serve_grown _ _ _ _ _ H requests_ok) as (new & H2 & _). eauto.
Qed.

(** Where the secret of the demonstration is. *)
Definition place : string * string := match resolve s2.2 "app" "prod" with Ok ids => ids | Err _ => ("", "") end.

Lemma place_ok : resolve s2.2 "app" "prod" = Ok place.
Proof. by vm_compute. Qed.

Lemma step_handle p r s : valid r → step p (Up s.1 s.2) (Up (handle r s).1 (handle r s).2).
Proof. intros Hv. destruct s as [w v]. apply (step_serve _ _ _ r); [done|apply surjective_pairing]. Qed.

Lemma s1_served : s1 = handle (Init 2 3) booted.
Proof. done. Qed.

Lemma server_sound_witness : sound path0 (Up s1.1 s1.2).
Proof.
  apply (VaultClaims.server_sound path0 world0 _ path0_apart openable0).
  eapply rtc_l; [apply step_boot, boot_ok|]. eapply rtc_l; [|apply rtc_refl].
  rewrite s1_served. by apply step_handle.
Defined.

Lemma sealed_is_inert_witness :
  get_secret session "app" "prod" "KEY" (s2.1, seal s2.2) = (Err VaultError.Sealed, (s2.1, seal s2.2)).
Proof.
  destruct live2 as (master & evs & H).
  apply (VaultClaims.sealed_is_inert path0 (s2.1, seal s2.2)); [|done].
  apply vault_ok_seal. right. right. exists master, evs. by rewrite <- surjective_pairing.
Defined.

Lemma secret_writes_witness :
  ∃ s', set_secret session "app" "prod" "KEY" [x01] s2 = (Ok tt, s')
    ∧ ∃ sl, readable s'.2 sl = Some [x01] ∧ readable s2.2 sl = Some [x2a; x2b].
Proof.
  destruct live2 as (master & evs & H).
  destruct (VaultClaims.secret_writes _ _ _ session "app" "prod" "KEY" [x01] _ H) as [Hw _]; [done..|].
  unfold wp in Hw. destruct (set_secret session "app" "prod" "KEY" [x01] s2) as [[[]|e] s'] eqn:E;
    [|vm_compute in E; discriminate E].
  destruct Hw as (ids & _ & _ & [Hr _] & [Hm _] & _). exists s'. split; [done|]. exists (ids.1, ids.2, "KEY"). split.
  - rewrite Hm. by rewrite decide_True.
  - assert (ids = place) as -> by (pose proof place_ok; congruence). by vm_compute.
Defined.

Lemma secret_reads_witness :
  ∃ s', get_secret session "app" "prod" "KEY" s2 = (Ok [x2a; x2b], s')
    ∧ ∃ ids, readable s2.2 (ids.1, ids.2, "KEY") = Some [x2a; x2b].
Proof.
  destruct live2 as (master & evs & H).
  destruct (VaultClaims.secret_reads _ _ _ session "app" "prod" "KEY" _ H) as [Hr _]; [done..|].
  assert ((get_secret session "app" "prod" "KEY" s2).1 = Ok [x2a; x2b]) as E by by vm_compute.
  unfold wp in Hr. destruct (get_secret session "app" "prod" "KEY" s2) as [r s']. cbn [fst] in E. subst r.
  exists s'. split; [done|]. destruct Hr as (_ & _ & ids & _ & Hr). by exists ids.
Defined.

Lemma machine_confined_witness :
  let machine := Caller.mk "m" Machine None (Some "another") (Some "place") in
  ∃ e, (set_secret machine "app" "prod" "KEY" [x01] s2).1 = Err e.
Proof.
  intros machine. destruct live2 as (master & evs & H).
  destruct (VaultClaims.machine_confined _ _ _ machine "app" "prod" "KEY" [x01] _ H) as (_ & _ & Hw & _); [done..|].
  unfold wp in Hw. destruct (set_secret machine "app" "prod" "KEY" [x01] s2) as [[[]|e] s']; [done|]. by exists e.
Defined.

Definition root_id : string := match State.tokens (state s1.2) with t :: _ => Token.id t | [] => "" end.

Lemma revoked_is_out_witness :
  ∃ s', revoke_token session root_id s1 = (Ok tt, s') ∧ (authenticate (root_token outcome) s').1 = Ok None.
Proof.
  destruct init_live as (master & e & H).
  destruct (State.token (state s1.2) root_id) as [t|] eqn:Et; [|vm_compute in Et; discriminate Et].
  assert (State.token_by_hash (state s1.2) (token.as_bytes (token.hash (root_token outcome))) = State.token (state s1.2) root_id)
    as Eh by by vm_compute.
  pose proof (VaultClaims.revoked_is_out _ _ _ session root_id (root_token outcome) t _ H ltac:(by vm_compute) Et
    ltac:(by rewrite Eh)) as Hr.
  unfold wp in Hr. destruct (revoke_token session root_id s1) as [[[]|err] s'] eqn:E; [|vm_compute in E; discriminate E].
  exists s'. split; [done|]. destruct Hr as (_ & at_ & Hl & Hout). apply (Hout path0 master []). by rewrite app_nil_r.
Defined.

Lemma account_session_witness :
  let s := (create_user root "Dev@Example.com " "correct horse" s1).2 in
  wp (login " DEV@example.com" "correct horse" 3600) (λ _ _, True) (λ err _, err ≠ VaultError.BadCredentials) s.
Proof.
  destruct init_live as (master & e & H).
  pose proof (VaultClaims.account_session _ _ _ root "Dev@Example.com " "correct horse" _ H) as Hc. unfold wp at 1 in Hc.
  cbv zeta. destruct (create_user root "Dev@Example.com " "correct horse" s1) as [[id|err] s'] eqn:E;
    [|vm_compute in E; discriminate E].
  destruct Hc as (evs1 & _ & Hlogin).
  eapply wp_mono; [apply (Hlogin " DEV@example.com" "correct horse" 3600); by vm_compute|done|]; cbv beta.
  intros err s'' (_ & [[_ Hne]|[->|[f ->]]]); [by destruct Hne|discriminate|discriminate].
Defined.

(** The vault serves, is sealed, opened by two of its shares, and sealed again. *)
Definition custodians : list request :=
  requests ++ [SealAs session] ++ (SubmitShare <$> take 2 (outcome_shares outcome)) ++ [SealAs session].

Lemma quorum_restores_witness :
  recovers path0 (root_key s1.2) (last_unsealed custodians s1 (state s1.2)) (serve custodians s1) (drop 1 (outcome_shares outcome))
  ∧ last_unsealed custodians s1 (state s1.2) = state s2.2 ∧ root_key (serve custodians s1).2 = None.
Proof.
  split; [|split; by vm_compute].
  pose proof (VaultClaims.quorum_restores path0 2 3 booted fresh_booted eq_refl eq_refl) as H. unfold wp in H.
  unfold custodians, s2, s1, outcome in *. destruct (init 2 3 booted) as [[out|e] s'] eqn:E; [|vm_compute in E; discriminate E].
  assert (out = outcome) as -> by (unfold outcome; by rewrite E). destruct H as [_ H].
  apply H; [| | |by vm_compute].
  - apply Forall_app. split; [repeat constructor|]. constructor; [by repeat split|]. apply Forall_app. split; [|by repeat constructor].
    apply Forall_fmap, Forall_forall. intros x Hx. split; [done|]. cbn [in_custody].
    rewrite <- (take_drop 2 (outcome_shares outcome)). apply elem_of_app. by left.
  - apply (bool_decide_unpack _). by vm_compute.
  - intros x Hx. rewrite <- (take_drop 1 (outcome_shares outcome)). apply elem_of_app. right. exact Hx.
Defined.

Lemma rekey_preserves_witness :
  ∃ out s', rekey session 1 2 s2 = (Ok out, s') ∧ ∀ sl, readable s'.2 sl = readable s2.2 sl.
Proof.
  destruct live2 as (master & evs & H).
  pose proof (VaultClaims.rekey_preserves _ _ _ session 1 2 _ H path0_apart
    ltac:(done) eq_refl eq_refl) as Hr. unfold wp at 1 in Hr.
  destruct (rekey session 1 2 s2) as [[out|e] s'] eqn:E; [|vm_compute in E; discriminate E].
  exists out, s'. split; [done|]. destruct Hr as [(late & _ & Hlate & _ & Hr & _) _].
  rewrite Hlate in Hr by by vm_compute. destruct (s2.2). exact Hr.
Defined.
End VaultDemo.
