(* ===== verification/Http.v ===== *)
(** * HTTP: limits, errors and connections

    Models [crates/ls-http/src/lib.rs] and the side of a connection that is read:
    bytes that arrive in pieces of any size, reads that are interrupted or fail,
    and a stopwatch. What arrives and how long it takes is up to the peer. *)

From S2P Require Import Prelude Text.
From Stdlib Require Import Strings.Byte.

(** Byte counts are [usize]s; the deadline is in nanoseconds. *)
Record Limits := mk_limits { max_head : nat; max_headers : nat; max_body : Z; head_deadline : Z }.

Definition Limits_default : Limits :=
  mk_limits (Z.to_nat (8 * 1024)) 64 (1024 * 1024) (10 * 1000000000).

(** An [std::io::Error] is the text it prints as. *)
Inductive HttpError :=
| Incomplete
| TimedOut
| Malformed (what : string)
| UnsupportedVersion (version : string)
| AmbiguousLength
| AmbiguousHost
| UnsupportedTransferEncoding
| IncompleteBody
| BodyTooLarge (declared limit : Z)
| HeadTooLarge
| TooManyHeaders
| Io (error : string).

#[global] Instance HttpError_eq_dec : EqDecision HttpError.
Proof. solve_decision. Defined.

Module HttpError.

(** The [Display] form. *)
Definition to_string (self : HttpError) : string :=
  match self with
  | Incomplete => "request ended early"
  | TimedOut => "request took too long to arrive"
  | Malformed what => "malformed request: " +:+ what
  | UnsupportedVersion v => "unsupported HTTP version " +:+ v
  | AmbiguousLength => "more than one Content-Length"
  | AmbiguousHost => "more than one Host"
  | UnsupportedTransferEncoding => "Transfer-Encoding is not supported"
  | IncompleteBody => "body shorter than its declared length"
  | BodyTooLarge declared limit =>
    "body of " +:+ show_Z declared +:+ " bytes exceeds the limit of " +:+ show_Z limit
  | HeadTooLarge => "request head too large"
  | TooManyHeaders => "too many headers"
  | Io error => "connection failed: " +:+ error
  end.

Definition status (self : HttpError) : Z :=
  match self with
  | BodyTooLarge _ _ => 413
  | HeadTooLarge | TooManyHeaders => 431
  | UnsupportedVersion _ => 505
  | UnsupportedTransferEncoding => 501
  | TimedOut => 408
  | _ => 400
  end.
End HttpError.

(** ** Connections *)

(** What a read of the socket comes to; after the last of these it is closed. *)
Inductive arrival := Bytes (bytes : list byte) | Interrupted | Broken.

(** A [BufReader] on a socket: the bytes held and not consumed, and what is to come.
    [checks] counts the readings of the clock. *)
Record Conn := mk_conn { buffered : list byte; arrivals : list arrival; checks : nat }.

(** [started.elapsed()] at its [k]-th reading, since the request was begun and since
    the draining of a refused one was. *)
Class Stopwatch := { elapsed : nat → Z; drain_elapsed : nat → Z }.

(** What [fill_buf] returns; no bytes at all is the end. *)
Inductive available := Ready (bytes : list byte) | Again | Failed.

Module Conn.
Section Conn.
Context {WatchI : Stopwatch}.

Definition late (limits : Limits) : proc Conn HttpError bool := λ c,
  (Ok (head_deadline limits <? elapsed (checks c)), mk_conn (buffered c) (arrivals c) (S (checks c))).

Definition fill_buf : proc Conn HttpError available := λ c,
  match buffered c, arrivals c with
  | _ :: _, _ => (Ok (Ready (buffered c)), c)
  | [], [] => (Ok (Ready []), c)
  | [], Bytes b :: rest => (Ok (Ready b), mk_conn b rest (checks c))
  | [], Interrupted :: rest => (Ok Again, mk_conn [] rest (checks c))
  | [], Broken :: rest => (Ok Failed, mk_conn [] rest (checks c))
  end.

Definition consume (n : nat) : proc Conn HttpError unit :=
  modify (λ c, mk_conn (drop n (buffered c)) (arrivals c) (checks c)).

(** [read] into a buffer of [n] bytes: some of them, none only at the end. *)
Definition read (n : nat) : proc Conn HttpError available :=
  let! got := fill_buf in
  match got with
  | Ready b => do! consume n in ret (Ready (take n b))
  | other => ret other
  end.

(** More turns than any loop over what is left can take. *)
Definition turns (c : Conn) : nat := (length (arrivals c) + 2)%nat.
End Conn.
End Conn.
