(* ===== verification/HttpRequest.v ===== *)
(** * Reading an HTTP request

    Models [crates/ls-http/src/request.rs]: taking the head off the connection in
    whatever pieces it arrives, the request line, the headers, the target and the
    body. *)

From S2P Require Import Prelude Text Http.
From Stdlib Require Import Strings.Byte.

Record Request := mk_request {
  method : string;
  path : string;
  query : list (string * string);
  headers : list (string * string);
  body : list byte;
}.

Module Request.

(** ** The head *)

Definition TERMINATOR : list byte := [x0d; x0a; x0d; x0a].

(** [windows(n).position(|window| window == pattern)]. *)
Fixpoint position (pattern l : list byte) : option nat :=
  match strip_prefix_bytes pattern l with
  | Some _ => Some O
  | None => match l with
            | [] => None
            | _ :: rest => S <$> position pattern rest
            end
  end.

Section Reading.
Context {WatchI : Stopwatch}.

Fixpoint read_head_loop (fuel : nat) (limits : Limits) (head : list byte) : proc Conn HttpError (list byte) :=
  match fuel with
  | O => fail TimedOut
  | S fuel =>
    let! late := Conn.late limits in
    if late : bool then fail TimedOut else
    let! got := Conn.fill_buf in
    match got with
    | Again => read_head_loop fuel limits head
    | Failed => fail TimedOut
    | Ready [] =>
      fail (if decide (head = []) then Incomplete else Malformed "head ended without a blank line")
    | Ready available =>
      (* the terminator may straddle two pieces *)
      let overlap := Nat.min (length head) 3 in
      let search_from := (length head - overlap)%nat in
      let take_ := Nat.min (length available) (max_head limits - length head) in
      let head := head ++ take take_ available in
      match position TERMINATOR (drop search_from head) with
      | Some at_ =>
        let end_ := (search_from + at_ + 4)%nat in
        do! Conn.consume (end_ - search_from - overlap) in
        ret (take end_ head)
      | None =>
        do! Conn.consume take_ in
        if (max_head limits <=? length head)%nat then fail HeadTooLarge
        else read_head_loop fuel limits head
      end
    end
  end.

Definition read_head (limits : Limits) : proc Conn HttpError (list byte) := λ c,
  read_head_loop (Conn.turns c) limits [] c.

(** ** The body *)

Fixpoint read_body_loop (fuel : nat) (declared : nat) (limits : Limits) (filled : list byte)
  : proc Conn HttpError (list byte) :=
  match fuel with
  | O => fail IncompleteBody
  | S fuel =>
    if negb (length filled <? declared)%nat then ret filled else
    let! late := Conn.late limits in
    if late : bool then fail TimedOut else
    let! got := Conn.read (declared - length filled) in
    match got with
    | Ready [] => fail IncompleteBody
    | Ready bytes => read_body_loop fuel declared limits (filled ++ bytes)
    | _ => fail IncompleteBody
    end
  end.

Definition read_body (declared : Z) (limits : Limits) : proc Conn HttpError (list byte) := λ c,
  read_body_loop (Conn.turns c) (Z.to_nat declared) limits [] c.
End Reading.

(** ** Lines *)

Definition strip_cr (line : list byte) : result HttpError (list byte) :=
  match last line with
  | None => Ok line
  | Some b => if decide (b = x0d) then Ok (removelast line) else Err (Malformed "line does not end with CRLF")
  end.

(** RFC 9110 token characters. *)
Definition is_token_byte (b : byte) : bool :=
  is_ascii_alphanumeric b
  || existsb (λ c, bool_decide (b = c)) (as_bytes "!#$%&'*+-.^_`|~").

Definition parse_request_line (line : list byte) : result HttpError (string * string) :=
  let? text := ok_or (from_utf8 line) (Malformed "request line") in
  match split " "%byte text with
  | [] => Err (Malformed "missing target")
  | [_] => Err (Malformed "missing target")
  | [_; _] => Err (Malformed "missing version")
  | method :: target :: version :: more =>
    if negb (bool_decide (more = [])) then Err (Malformed "extra words in request line")
    else if bool_decide (method = "") || negb (forallb is_token_byte (as_bytes method)) then Err (Malformed "method")
    else if negb (starts_with "/" target) then Err (Malformed "target must be an absolute path")
    else if bool_decide (version = "HTTP/1.1") || bool_decide (version = "HTTP/1.0") then Ok (method, target)
    else if starts_with "HTTP/" version then Err (UnsupportedVersion version)
    else Err (Malformed "version")
  end.

(** [trim_matches([' ', '\t'])]. *)
Definition is_blank (b : byte) : bool := bool_decide (b = " "%byte) || bool_decide (b = x09).
Definition trim_blanks (s : string) : string := of_bytes (trim_with is_blank (as_bytes s)).

Definition is_control (b : byte) : bool := (Z_of_byte b <? 0x20) && negb (bool_decide (b = x09)).

Definition parse_header (line : list byte) : result HttpError (string * string) :=
  if match line with b :: _ => is_blank b | [] => false end then Err (Malformed "folded header line") else
  let? text := ok_or (from_utf8 line) (Malformed "header encoding") in
  let? (name, rest) := ok_or (split_once ":" text) (Malformed "header without a colon") in
  if bool_decide (name = "") || negb (forallb is_token_byte (as_bytes name)) then Err (Malformed "header name") else
  let value := trim_blanks rest in
  if existsb is_control (as_bytes value) then Err (Malformed "control character in header value") else
  Ok (to_ascii_lowercase name, value).

Definition parse_content_length (value : string) : result HttpError Z :=
  if bool_decide (value = "") || negb (forallb is_ascii_digit (as_bytes value)) then Err (Malformed "Content-Length")
  else ok_or (parse_unsigned u64_max value) (Malformed "Content-Length").

(** The loop over the header lines, threading what it has collected. *)
Fixpoint read_headers (limits : Limits) (lines : list (list byte)) (headers : list (string * string))
    (content_length : option Z) (seen_host : bool) : result HttpError (list (string * string) * option Z) :=
  match lines with
  | [] => Ok (headers, content_length)
  | raw :: lines =>
    let? line := strip_cr raw in
    if decide (line = []) then Ok (headers, content_length) else
    if (length headers =? max_headers limits)%nat then Err TooManyHeaders else
    let? (name, value) := parse_header line in
    if bool_decide (name = "host") && seen_host then Err AmbiguousHost else
    let seen_host := seen_host || bool_decide (name = "host") in
    if bool_decide (name = "transfer-encoding") then Err UnsupportedTransferEncoding else
    let? content_length :=
      (if bool_decide (name = "content-length") then
         match content_length with
         | Some _ => Err AmbiguousLength
         | None => map_ok Some (parse_content_length value)
         end
       else Ok content_length) in
    read_headers limits lines (headers ++ [(name, value)]) content_length seen_host
  end.

(** ** The target *)

Definition hex_value (b : byte) : option Z :=
  if byte_between "0" "9" b then Some (Z_of_byte b - 48)
  else if byte_between "a" "f" b then Some (Z_of_byte b - 97 + 10)
  else if byte_between "A" "F" b then Some (Z_of_byte b - 65 + 10)
  else None.

(** The loop of [percent_decode]. *)
Fixpoint percent_bytes (plus_is_space : bool) (l : list byte) : result HttpError (list byte) :=
  match l with
  | [] => Ok []
  | b :: rest =>
    if decide (b = "%"%byte) then
      match rest with
      | h0 :: h1 :: rest =>
        let? high := ok_or (hex_value h0) (Malformed "percent escape") in
        let? low := ok_or (hex_value h1) (Malformed "percent escape") in
        map_ok (cons (byte_of_Z (Z.lor (Z.shiftl high 4) low))) (percent_bytes plus_is_space rest)
      | _ => Err (Malformed "truncated percent escape")
      end
    else if bool_decide (b = "+"%byte) && plus_is_space
    then map_ok (cons " "%byte) (percent_bytes plus_is_space rest)
    else map_ok (cons b) (percent_bytes plus_is_space rest)
  end.

Definition percent_decode (input : string) (plus_is_space : bool) : result HttpError string :=
  let? out := percent_bytes plus_is_space (as_bytes input) in
  if existsb (λ b, bool_decide (b = x00)) out then Err (Malformed "null byte in target")
  else ok_or (from_utf8 out) (Malformed "target is not valid UTF-8").

Fixpoint decode_pairs (items : list string) : result HttpError (list (string * string)) :=
  match items with
  | [] => Ok []
  | item :: rest =>
    let '(key, value) := default (item, "") (split_once "=" item) in
    let? key := percent_decode key true in
    let? value := percent_decode value true in
    map_ok (cons (key, value)) (decode_pairs rest)
  end.

Definition split_target (target : string) : result HttpError (string * list (string * string)) :=
  let '(raw_path, raw_query) :=
    match split_once "?" target with
    | Some (path, query) => (path, Some query)
    | None => (target, None)
    end in
  let? path := percent_decode raw_path false in
  let? query := decode_pairs
    (match raw_query with
     | Some raw => List.filter (λ p, negb (bool_decide (p = ""))) (split "&"%byte raw)
     | None => []
     end) in
  Ok (path, query).

(** ** The request *)

(** What the head says: everything but the body. *)
Definition parse_head (limits : Limits) (head : list byte)
  : result HttpError (string * string * list (string * string) * option Z) :=
  match split_at_byte x0a head with
  | [] => Err Incomplete
  | request_line :: lines =>
    let? line := strip_cr request_line in
    let? (method, target) := parse_request_line line in
    let? (headers, content_length) := read_headers limits lines [] None false in
    Ok (method, target, headers, content_length)
  end.

Definition read `{Stopwatch} (limits : Limits) : proc Conn HttpError Request :=
  let! head := read_head limits in
  let! (method, target, headers, content_length) := lift (parse_head limits head) in
  let! (path, query) := lift (split_target target) in
  let! body :=
    (match content_length with
     | None => ret []
     | Some declared =>
       if declared =? 0 then ret []
       else if max_body limits <? declared then fail (BodyTooLarge declared (max_body limits))
       else read_body declared limits
     end) in
  ret (mk_request method path query headers body).

Definition header (self : Request) (name : string) : option string :=
  let wanted := to_ascii_lowercase name in
  snd <$> List.find (λ h, bool_decide (h.1 = wanted)) (headers self).

Definition query_parameter (self : Request) (name : string) : option string :=
  snd <$> List.find (λ q, bool_decide (q.1 = name)) (query self).

Definition body_text (self : Request) : option string := from_utf8 (body self).
End Request.
