(* ===== verification/HttpFraming.v ===== *)
(** * Framing

    A request is what its bytes say, however they are cut into pieces on the way:
    [parse_request] is the reading as a function of the bytes alone, and the loops
    of [HttpRequest] compute it on any connection that neither fails nor takes too
    long. *)

From S2P Require Import Prelude Text Http HttpRequest.
From Stdlib Require Import Strings.Byte.

Module Framing.
Import Request.

(** ** The position of a pattern *)

Definition starts (pattern l : list byte) : Prop := ∃ r, l = pattern ++ r.

Lemma strip_prefix_starts p l : (∃ r, strip_prefix_bytes p l = Some r) ↔ starts p l.
Proof. unfold starts. by setoid_rewrite strip_prefix_bytes_some. Qed.

Lemma position_some p l i :
  position p l = Some i ↔ starts p (drop i l) ∧ ∀ j, (j < i)%nat → ¬ starts p (drop j l).
Proof.
  revert i. induction l as [|b l IH]; intros i; cbn [position].
  - destruct (strip_prefix_bytes p []) as [r|] eqn:E.
    + split; [intros [= <-]; split; [by apply strip_prefix_starts; exists r|lia]|].
      intros [_ H]. destruct i; [done|]. exfalso. apply (H 0%nat); [lia|]. apply strip_prefix_starts. by exists r.
    + split; [done|]. rewrite drop_nil. intros [H _]. apply strip_prefix_starts in H as [r H]. congruence.
  - destruct (strip_prefix_bytes p (b :: l)) as [r|] eqn:E.
    + split; [intros [= <-]; split; [by apply strip_prefix_starts; exists r|lia]|].
      intros [_ H]. destruct i; [done|]. exfalso. apply (H 0%nat); [lia|]. apply strip_prefix_starts. by exists r.
    + assert (¬ starts p (b :: l)) as Hno by (intros H; apply strip_prefix_starts in H as [r H]; congruence).
      destruct i as [|i].
      * split; [by destruct (position p l)|]. by intros [H _].
      * specialize (IH i). split.
        -- intros H. destruct (position p l) as [k|] eqn:Ek; [|done]. injection H as ->.
           destruct (proj1 IH eq_refl) as [H1 H2]. split; [done|]. intros [|j] Hj; [done|]. apply H2. lia.
        -- intros [H1 H2]. rewrite (proj2 IH); [done|]. split; [done|]. intros j Hj. apply (H2 (S j)). lia.
Qed.

Lemma position_none p l : position p l = None ↔ ∀ j, ¬ starts p (drop j l).
Proof.
  split.
  - induction l as [|b l IH]; cbn [position]; destruct (strip_prefix_bytes p _) as [r|] eqn:E; try done.
    + intros _ j. rewrite drop_nil. intros H. apply strip_prefix_starts in H as [r H]. congruence.
    + intros H [|j]; [intros Hs; apply strip_prefix_starts in Hs as [r Hs]; cbn in Hs; congruence|].
      cbn. apply IH. by destruct (position p l).
  - intros H. destruct (position p l) as [i|] eqn:E; [|done]. apply position_some in E as [E _]. by destruct (H i).
Qed.

Lemma starts_app p l x : starts p l → starts p (l ++ x).
Proof. intros [r ->]. exists (r ++ x). by rewrite app_assoc. Qed.

(** A match that fits in the first part is a match there. *)
Lemma starts_drop_app p l x j :
  (j + length p ≤ length l)%nat → starts p (drop j (l ++ x)) → starts p (drop j l).
Proof.
  intros Hj [r H]. rewrite drop_app_le in H by lia. exists (drop (length p) (drop j l)).
  rewrite <- (take_drop (length p) (drop j l)) at 1. f_equal.
  apply (f_equal (take (length p))) in H. rewrite take_app_length in H.
  rewrite take_app_le in H; [exact H|]. rewrite length_drop. lia.
Qed.

Lemma position_app p l x i : p ≠ [] → position p l = Some i → position p (l ++ x) = Some i.
Proof.
  intros Hp H. apply position_some in H as [H1 H2]. pose proof H1 as [r Hr].
  assert (length p + length r = length l - i)%nat as Hl by (by rewrite <- length_app, <- Hr, length_drop).
  apply position_some. split.
  - destruct (decide (i ≤ length l)%nat); [by rewrite drop_app_le by done; apply starts_app|].
    rewrite drop_ge in Hr by lia. by destruct p.
  - intros j Hj Hs. apply (H2 j Hj). apply (starts_drop_app _ _ x); [|done]. destruct p; [done|]. cbn in *. lia.
Qed.

(** No match before [k], so the search may begin there. *)
Lemma position_from p l k :
  (∀ j, (j < k)%nat → ¬ starts p (drop j l)) → position p l = Nat.add k <$> position p (drop k l).
Proof.
  intros Hk. destruct (position p (drop k l)) as [i|] eqn:E; cbn.
  - apply position_some in E as [E1 E2]. rewrite drop_drop in E1. apply position_some. split; [done|].
    intros j Hj. destruct (decide (j < k)%nat); [by apply Hk|]. intros Hs. apply (E2 (j - k)%nat); [lia|].
    rewrite drop_drop. by replace (k + (j - k))%nat with j by lia.
  - apply position_none. intros j. destruct (decide (j < k)%nat); [by apply Hk|].
    apply position_none with (j := (j - k)%nat) in E. rewrite drop_drop in E. by replace (k + (j - k))%nat with j in E by lia.
Qed.

(** The search after the last three bytes of what was searched already. *)
Lemma position_resume head x :
  position TERMINATOR head = None →
  position TERMINATOR (head ++ x)
  = Nat.add (length head - Nat.min (length head) 3)
    <$> position TERMINATOR (drop (length head - Nat.min (length head) 3) (head ++ x)).
Proof.
  intros Hn. apply position_from. intros j Hj Hs. apply (proj1 (position_none _ _) Hn j).
  apply (starts_drop_app _ _ x); [cbn; lia|done].
Qed.

(** ** Connections *)

(** Everything the peer will have sent. *)
Definition piece (a : arrival) : list byte := match a with Bytes b => b | _ => [] end.
Definition stream (c : Conn) : list byte := buffered c ++ concat (piece <$> arrivals c).

(** Reads bring something or nothing further ever comes. *)
Definition flowing (c : Conn) : Prop := Bytes [] ∉ arrivals c.

(** A connection that neither fails nor is interrupted. *)
Definition smooth (c : Conn) : Prop := Forall (λ a, ∃ b, a = Bytes b ∧ b ≠ []) (arrivals c).

Section Framing.
Context {WatchI : Stopwatch}.

(** The peer keeps within the deadline. *)
Definition prompt (limits : Limits) : Prop := ∀ k, elapsed k <= head_deadline limits.

(** ** The head *)

(** The head and what follows it, of the bytes alone. *)
Definition head_of (limits : Limits) (data : list byte) : result HttpError (list byte * list byte) :=
  match position TERMINATOR data with
  | Some i =>
    if (i + 4 <=? max_head limits)%nat then Ok (take (i + 4) data, drop (i + 4) data) else Err HeadTooLarge
  | None =>
    if decide (data = []) then Err Incomplete
    else if (max_head limits <=? length data)%nat then Err HeadTooLarge
    else Err (Malformed "head ended without a blank line")
  end.

(** How many turns of the loop are left. *)
Definition turns_left (c : Conn) : nat :=
  (length (arrivals c) + (if decide (buffered c = []) then 0 else 1))%nat.

Lemma smooth_flowing c : smooth c → flowing c.
Proof. unfold smooth, flowing. rewrite Forall_forall. intros H Hin. destruct (H _ Hin) as (b & [= <-] & ?). done. Qed.

Lemma turns_left_held c : buffered c ≠ [] → turns_left c = S (length (arrivals c)).
Proof. intros H. unfold turns_left. rewrite decide_False by done. lia. Qed.

Lemma turns_left_empty c : buffered c = [] → turns_left c = length (arrivals c).
Proof. intros H. unfold turns_left. rewrite decide_True by done. lia. Qed.

Lemma wp_late limits (P : bool → Conn → Prop) Q c :
  (∀ late c', (late = true → ¬ prompt limits) → buffered c' = buffered c → arrivals c' = arrivals c → P late c') →
  wp (Conn.late limits) P Q c.
Proof.
  intros H. apply H; [|done|done]. intros Hl Hp. specialize (Hp (checks c)). lia.
Qed.

Lemma stream_eq c c' : buffered c' = buffered c → arrivals c' = arrivals c → stream c' = stream c.
Proof. unfold stream. by intros -> ->. Qed.

(** What a look at the buffer finds. *)
Lemma wp_fill_buf (P : available → Conn → Prop) Q c :
  (∀ b c', b ≠ [] → buffered c' = b → stream c' = stream c → arrivals c' `suffix_of` arrivals c →
     (smooth c → turns_left c' = turns_left c) → P (Ready b) c') →
  (∀ c', (smooth c → stream c = []) → P (Ready []) c') →
  (∀ c', stream c' = stream c → arrivals c' `suffix_of` arrivals c → ¬ smooth c → P Again c') →
  (∀ c', ¬ smooth c → P Failed c') →
  wp Conn.fill_buf P Q c.
Proof.
  intros Hready Hend Hagain Hfailed. unfold wp, Conn.fill_buf. destruct c as [buf arr k]; cbn.
  assert (∀ a rest, smooth (mk_conn [] (a :: rest) k) → ∃ b, a = Bytes b ∧ b ≠ []) as Hs
    by (intros a rest Hs; by apply Forall_cons in Hs as [? _]).
  destruct buf as [|x buf].
  - destruct arr as [|[b| |] rest]; cbn.
    + by apply Hend.
    + destruct b as [|x b].
      * apply Hend. intros (b & [= <-] & ?)%Hs. done.
      * apply Hready; [done|done|done|by apply suffix_cons_r|]. intros _. unfold turns_left. cbn.
        repeat case_decide; done || lia.
    + apply Hagain; [done|by apply suffix_cons_r|]. by intros (b & ? & _)%Hs.
    + apply Hfailed. by intros (b & ? & _)%Hs.
  - by apply Hready.
Qed.

(** The invariant of the loop: no terminator yet, and room for more. *)
Definition searching (limits : Limits) (head : list byte) : Prop :=
  position TERMINATOR head = None ∧ ((length head < max_head limits)%nat ∨ head = []).

Lemma terminator_length l i : position TERMINATOR l = Some i → (i + 4 ≤ length l)%nat.
Proof.
  intros [[r Hr] _]%position_some. apply (f_equal length) in Hr. rewrite length_drop, length_app in Hr. cbn in Hr. lia.
Qed.

Lemma smooth_suffix c c' : arrivals c' `suffix_of` arrivals c → smooth c → smooth c'.
Proof. intros [l E]. unfold smooth. rewrite E. by intros [_ ?]%Forall_app. Qed.

(** Taking the first [n] bytes of what is held. *)
Lemma stream_consume n c :
  (n ≤ length (buffered c))%nat → stream (mk_conn (drop n (buffered c)) (arrivals c) (checks c)) = drop n (stream c).
Proof. intros H. unfold stream. cbn. by rewrite drop_app_le. Qed.

(** One turn of the loop, over the bytes [more] of which [b] are at hand. *)
Section Turn.
Context (limits : Limits) (head b more : list byte).
Context (Hsearch : searching limits head) (Hb : b ≠ []).

Let take_ := Nat.min (length b) (max_head limits - length head).
Let head' := head ++ take take_ b.
Let from := (length head - Nat.min (length head) 3)%nat.

Lemma turn_data : head ++ b ++ more = head' ++ drop take_ b ++ more.
Proof. unfold head'. by rewrite <- app_assoc, (app_assoc (take _ _)), take_drop. Qed.

Lemma turn_bound : (length head' ≤ Nat.max (max_head limits) 0)%nat.
Proof.
  unfold head', take_. rewrite length_app, length_take. destruct Hsearch as [_ [?| ->]]; cbn; lia.
Qed.

Lemma turn_position : position TERMINATOR head' = Nat.add from <$> position TERMINATOR (drop from head').
Proof. apply position_resume. by destruct Hsearch. Qed.

Lemma turn_found at_ :
  position TERMINATOR (drop from head') = Some at_ →
  let end_ := (from + at_ + 4)%nat in
  let n := (end_ - from - Nat.min (length head) 3)%nat in
  (n ≤ length b)%nat ∧ head_of limits (head ++ b ++ more) = Ok (take end_ head', drop n (b ++ more)).
Proof.
  intros Hat end_ n. pose proof turn_position as Hpos. rewrite Hat in Hpos. cbn in Hpos.
  pose proof (terminator_length _ _ Hpos) as Hlen. pose proof turn_bound.
  assert (length head < end_)%nat as Hpast.
  { destruct (decide (length head < end_)%nat); [done|]. exfalso.
    apply position_some in Hpos as [Hst _]. destruct Hsearch as [Hnone _].
    apply (proj1 (position_none _ _) Hnone (from + at_)%nat). unfold head' in Hst.
    apply (starts_drop_app _ _ (take take_ b)); [cbn; unfold end_ in *; lia|done]. }
  assert (length head' ≤ length head + length b)%nat as Hb' by (unfold head'; rewrite length_app, length_take; lia).
  assert (end_ = length head + n)%nat as He by (unfold n, end_, from in *; lia). split; [unfold end_ in *; lia|].
  unfold head_of. rewrite turn_data, (position_app _ _ _ (from + at_)) by done.
  fold end_. rewrite (proj2 (Nat.leb_le _ _)) by (unfold end_ in *; lia). rewrite take_app_le by (unfold end_; lia).
  rewrite <- turn_data, He. by rewrite drop_app_add.
Qed.

Lemma turn_full :
  position TERMINATOR (drop from head') = None → (max_head limits ≤ length head')%nat →
  head_of limits (head ++ b ++ more) = Err HeadTooLarge.
Proof.
  intros Hn Hfull. pose proof turn_position as Hpos. rewrite Hn in Hpos. cbn in Hpos. unfold head_of.
  rewrite turn_data. destruct (position TERMINATOR (head' ++ drop take_ b ++ more)) as [i|] eqn:E.
  - destruct (Nat.leb_spec (i + 4) (max_head limits)); [exfalso|done].
    apply position_some in E as [E _]. apply (proj1 (position_none _ _) Hpos i).
    apply (starts_drop_app _ _ (drop take_ b ++ more)); [cbn; lia|done].
  - rewrite decide_False by (rewrite <- turn_data; by destruct head, b).
    by rewrite (proj2 (Nat.leb_le _ _)) by (rewrite length_app; lia).
Qed.

Lemma turn_more :
  position TERMINATOR (drop from head') = None → (length head' < max_head limits)%nat →
  take_ = length b ∧ head' = head ++ b ∧ searching limits (head ++ b).
Proof.
  intros Hn Hroom. pose proof turn_position as Hpos. rewrite Hn in Hpos. cbn in Hpos.
  assert (take_ = length b) as Ht by (unfold head', take_ in *; rewrite length_app, length_take in Hroom; lia).
  assert (head' = head ++ b) as Hh by (unfold head'; by rewrite Ht, firstn_all).
  rewrite <- Hh. split; [done|]. split; [done|]. split; [done|by left].
Qed.
End Turn.

Lemma wp_read_head_loop limits fuel : ∀ head c,
  searching limits head →
  wp (read_head_loop fuel limits head)
    (λ h c', head_of limits (head ++ stream c) = Ok (h, stream c') ∧ arrivals c' `suffix_of` arrivals c)
    (λ e _, smooth c → prompt limits → (turns_left c < fuel)%nat → head_of limits (head ++ stream c) = Err e) c.
Proof.
  induction fuel as [|fuel IH]; intros head c Hse; cbn [read_head_loop]; [apply wp_fail; lia|].
  apply wp_bind, wp_late. intros late c0 Hlate Hb Ha.
  pose proof (stream_eq _ _ Hb Ha) as Hs. destruct late; [apply wp_fail; intros _ Hp; by destruct (Hlate eq_refl)|].
  assert (smooth c → smooth c0) as Hsm by (unfold smooth; by rewrite Ha).
  assert (turns_left c0 = turns_left c) as Ht by (unfold turns_left; by rewrite Ha, Hb).
  rewrite <- Hs, <- Ha. apply wp_bind, wp_fill_buf.
  - intros b c1 Hne Hb1 Hs1 Ha1 Ht1. destruct b as [|x b]; [done|]. set (av := x :: b) in *. cbv zeta.
    assert (stream c1 = av ++ concat (piece <$> arrivals c1)) as Hd by (unfold stream; by rewrite Hb1).
    rewrite <- Hs1, Hd.
    destruct (position TERMINATOR (drop _ _)) as [at_|] eqn:E.
    + destruct (turn_found _ _ av (concat (piece <$> arrivals c1)) Hse _ E) as [Hn Hh].
      apply wp_bind, wp_modify, wp_ret. rewrite Hh, <- Hd. split; [|done]. f_equal. f_equal. rewrite stream_consume by (by rewrite Hb1).
      done.
    + apply wp_bind, wp_modify. destruct (Nat.leb_spec (max_head limits) (length (head ++ take (Nat.min (length av) (max_head limits - length head)) av))) as [Hfull|Hroom].
      * apply wp_fail. intros _ _ _. by apply turn_full.
      * destruct (turn_more _ _ av Hse E Hroom) as (Htk & Hh & Hse'). rewrite Hh, Htk, Hb1, drop_all.
        eapply wp_mono; [by apply IH|..]; cbv beta; cbn [arrivals].
        -- intros h c' [H1 H2]. rewrite <- app_assoc in H1. split; [exact H1|]. by etransitivity.
        -- intros e c' H Hsc Hp Hf. rewrite <- app_assoc in H. apply H; [|done|].
           ++ exact (smooth_suffix c0 c1 Ha1 (Hsm Hsc)).
           ++ specialize (Ht1 (Hsm Hsc)). rewrite turns_left_held in Ht1 by (by rewrite Hb1).
              rewrite turns_left_empty by done. cbn. lia.
  - intros c1 He. apply wp_fail. intros Hsc _ _. rewrite He, app_nil_r by auto. unfold head_of. destruct Hse as [Hnone Hroom].
    rewrite Hnone. destruct (decide (head = [])) as [->|Hh]; [done|]. destruct Hroom as [Hroom|]; [|done].
    by rewrite (proj2 (Nat.leb_gt _ _) Hroom).
  - intros c1 Hs1 Ha1 Hns. eapply wp_mono; [by apply IH|..]; cbv beta.
    + intros h c' [H1 H2]. rewrite <- Hs1. split; [done|]. by etransitivity.
    + intros e c' _ Hsc. by destruct Hns; auto.
  - intros c1 Hns. apply wp_fail. intros Hsc. by destruct Hns; auto.
Qed.

Lemma wp_read_head limits c :
  wp (read_head limits)
    (λ h c', head_of limits (stream c) = Ok (h, stream c') ∧ arrivals c' `suffix_of` arrivals c)
    (λ e _, smooth c → prompt limits → head_of limits (stream c) = Err e) c.
Proof.
  unfold read_head. eapply wp_mono; [apply (wp_read_head_loop limits (Conn.turns c) [] c)|done|]; [by split; [|right]|].
  intros e c' H Hs Hp. apply H; [done|done|]. unfold turns_left, Conn.turns. case_decide; lia.
Qed.

(** ** The body *)

Definition body_of (declared : nat) (data : list byte) : result HttpError (list byte * list byte) :=
  if (length data <? declared)%nat then Err IncompleteBody else Ok (take declared data, drop declared data).

Lemma wp_read n (P : available → Conn → Prop) Q c :
  (0 < n)%nat →
  (∀ b c', b ≠ [] → (length b ≤ n)%nat → stream c = b ++ stream c' → arrivals c' `suffix_of` arrivals c →
     ((length b < n)%nat → smooth c → (turns_left c' < turns_left c)%nat) → P (Ready b) c') →
  (∀ c', (smooth c → stream c = []) → P (Ready []) c') →
  (∀ c', ¬ smooth c → P Again c') → (∀ c', ¬ smooth c → P Failed c') →
  wp (Conn.read n) P Q c.
Proof.
  intros Hn Hready Hend Hagain Hfailed. unfold Conn.read. apply wp_bind, wp_fill_buf.
  - intros b c' Hb Hb1 Hs Ha Ht. apply wp_bind, wp_modify, wp_ret. apply Hready.
    + destruct b; [done|]. by destruct n; [lia|].
    + rewrite length_take. lia.
    + rewrite <- Hs. unfold stream. cbn. rewrite Hb1, app_assoc. by rewrite take_drop.
    + done.
    + rewrite length_take. intros Hl Hsm. rewrite <- (Ht Hsm), (turns_left_held c') by (by rewrite Hb1).
      rewrite turns_left_empty; [cbn; lia|]. cbn. rewrite Hb1. apply drop_ge. lia.
  - intros c' He. apply wp_bind, wp_modify, wp_ret. rewrite take_nil. by apply Hend.
  - intros c' _ _ Hns. apply wp_ret. by apply Hagain.
  - intros c' Hns. apply wp_ret. by apply Hfailed.
Qed.

Lemma wp_read_body_loop limits declared fuel : ∀ filled c,
  (length filled ≤ declared)%nat →
  wp (read_body_loop fuel declared limits filled)
    (λ b c', body_of declared (filled ++ stream c) = Ok (b, stream c'))
    (λ e _, smooth c → prompt limits → (0 < fuel)%nat →
       ((length filled < declared)%nat → (turns_left c < fuel)%nat) → body_of declared (filled ++ stream c) = Err e) c.
Proof.
  induction fuel as [|fuel IH]; intros filled c Hle; cbn [read_body_loop]; [apply wp_fail; lia|].
  destruct (Nat.ltb_spec (length filled) declared) as [Hlt|Hge]; cbn [negb].
  2: { apply wp_ret. unfold body_of. rewrite (proj2 (Nat.ltb_ge _ _)) by (rewrite length_app; lia).
       by rewrite take_app_length', drop_app_length' by lia. }
  apply wp_bind, wp_late. intros late c0 Hlate Hb Ha. pose proof (stream_eq _ _ Hb Ha) as Hs.
  destruct late; [apply wp_fail; intros _ Hp; by destruct (Hlate eq_refl)|].
  assert (smooth c → smooth c0) as Hsm by (unfold smooth; by rewrite Ha).
  assert (turns_left c0 = turns_left c) as Ht by (unfold turns_left; by rewrite Ha, Hb).
  rewrite <- Hs. apply wp_bind, wp_read; [lia|..].
  - intros b c1 Hne Hb1 Hs1 Ha1 Ht1. destruct b as [|x b]; [done|]. set (av := x :: b) in *.
    rewrite Hs1, app_assoc. eapply wp_mono; [apply IH; rewrite length_app; lia|done|]; cbv beta.
    intros e c' H Hsc Hp _ Hf. specialize (Hf Hlt). apply H; [|done|..].
    + exact (smooth_suffix c0 c1 Ha1 (Hsm Hsc)).
    + destruct (decide (length av < declared - length filled)%nat) as [Hl|Hl]; [specialize (Ht1 Hl (Hsm Hsc)); lia|].
      assert (turns_left c0 ≠ 0%nat); [|lia]. intros Hz. unfold turns_left in Hz.
      destruct (decide (buffered c0 = [])) as [He|]; [|lia]. destruct (arrivals c0) eqn:Har; [|cbn in Hz; lia].
      unfold stream in Hs1 at 1. by rewrite He, Har in Hs1.
    + rewrite length_app. intros Hl. specialize (Ht1 ltac:(lia) (Hsm Hsc)). lia.
  - intros c1 He. apply wp_fail. intros Hsc _ _ _. rewrite He, app_nil_r by auto. unfold body_of.
    by rewrite (proj2 (Nat.ltb_lt _ _)) by lia.
  - intros c1 Hns. apply wp_fail. intros Hsc. by destruct Hns; auto.
  - intros c1 Hns. apply wp_fail. intros Hsc. by destruct Hns; auto.
Qed.

Lemma wp_read_body limits declared c :
  wp (read_body declared limits)
    (λ b c', body_of (Z.to_nat declared) (stream c) = Ok (b, stream c'))
    (λ e _, smooth c → prompt limits → body_of (Z.to_nat declared) (stream c) = Err e) c.
Proof.
  unfold read_body. eapply wp_mono; [apply (wp_read_body_loop limits _ (Conn.turns c) [] c); cbn; lia|done|]; cbv beta.
  intros e c' H Hs Hp. apply H; [done|done|unfold Conn.turns; lia|]. intros _.
  unfold turns_left, Conn.turns. case_decide; lia.
Qed.

(** ** The request *)

(** A request, of the bytes alone, and what follows it. *)
Definition parse_request (limits : Limits) (data : list byte) : result HttpError (Request * list byte) :=
  let? (head, rest) := head_of limits data in
  let? (method, target, headers, content_length) := parse_head limits head in
  let? (path, query) := split_target target in
  let? (body, rest) :=
    (match content_length with
     | None => Ok ([], rest)
     | Some declared =>
       if declared =? 0 then Ok ([], rest)
       else if max_body limits <? declared then Err (BodyTooLarge declared (max_body limits))
       else body_of (Z.to_nat declared) rest
     end) in
  Ok (mk_request method path query headers body, rest).

Lemma wp_read_request limits c :
  wp (read limits)
    (λ r c', parse_request limits (stream c) = Ok (r, stream c'))
    (λ e _, smooth c → prompt limits → parse_request limits (stream c) = Err e) c.
Proof.
  unfold read, parse_request. apply wp_bind. eapply wp_mono; [apply wp_read_head|..]; cbv beta.
  2: { intros e c' H Hs Hp. by rewrite (H Hs Hp). }
  intros head c1 [Hh Ha]. rewrite Hh. cbn [res_bind]. apply wp_bind, wp_lift; cbn.
  2: { intros e E _ _. by rewrite E. }
  intros [[[method target] headers] cl] E. rewrite E. cbn [res_bind]. apply wp_bind, wp_lift.
  2: { intros e E2 _ _. by rewrite E2. }
  intros [path query] E2. rewrite E2. cbn [res_bind]. apply wp_bind.
  destruct cl as [declared|]; [|by apply wp_ret, wp_ret].
  destruct (declared =? 0); [by apply wp_ret, wp_ret|]. destruct (max_body limits <? declared); [by apply wp_fail|].
  eapply wp_mono; [apply wp_read_body|..]; cbv beta.
  - intros b c2 Hb. apply wp_ret. by rewrite Hb.
  - intros e c2 H Hs Hp. rewrite H; [done| |done]. by eapply smooth_suffix.
Qed.
End Framing.
End Framing.
