(* ===== verification/HttpAccept.v ===== *)
(** * What an accepted request is

    The headers that come out of [read_headers], the target that comes out of
    [split_target], and from them what any request that [Request.read] accepts must
    look like. *)

From S2P Require Import Prelude Text Http HttpRequest HttpFraming.
From Stdlib Require Import Strings.Byte.

Module Accept.
Import Request.

(** The headers of one name. *)
Definition named (name : string) (headers : list (string * string)) : list (string * string) :=
  filter (λ h, h.1 = name) headers.

(** A token, in lower case. *)
Definition header_name (name : string) : Prop :=
  name ≠ "" ∧ forallb is_token_byte (as_bytes name) = true ∧ to_ascii_lowercase name = name.

(** A header as it is kept: a name, and a value without control characters. *)
Definition clean (h : string * string) : Prop :=
  header_name h.1 ∧ existsb is_control (as_bytes h.2) = false.

Lemma lower_token b : is_token_byte b = true → is_token_byte (lower_byte b) = true.
Proof.
  assert (∀ b, implb (is_token_byte b) (is_token_byte (lower_byte b)) = true) as E by (intros x; by_bytes1 x).
  intros H. specialize (E b). by rewrite H in E.
Qed.

Lemma lower_lower b : lower_byte (lower_byte b) = lower_byte b.
Proof. by_bytes1 b. Qed.

Lemma lowercase_idem s : to_ascii_lowercase (to_ascii_lowercase s) = to_ascii_lowercase s.
Proof.
  unfold to_ascii_lowercase. rewrite as_bytes_of_bytes. f_equal. rewrite <- list_fmap_compose.
  apply list_fmap_ext. intros _ b _. apply lower_lower.
Qed.

Lemma lowercase_nonempty s : s ≠ "" → to_ascii_lowercase s ≠ "".
Proof.
  intros Hs E. apply Hs. apply as_bytes_nil. apply (f_equal as_bytes) in E. unfold to_ascii_lowercase in E.
  rewrite as_bytes_of_bytes in E. by destruct (as_bytes s).
Qed.

Lemma header_name_lower name :
  name ≠ "" → forallb is_token_byte (as_bytes name) = true → header_name (to_ascii_lowercase name).
Proof.
  intros Hn Ht. split; [by apply lowercase_nonempty|]. split; [|apply lowercase_idem].
  unfold to_ascii_lowercase. rewrite as_bytes_of_bytes. apply forallb_forall. intros b Hb.
  apply list_elem_of_In, list_elem_of_fmap in Hb as (c & -> & Hc). apply lower_token.
  rewrite forallb_forall in Ht. by apply Ht, list_elem_of_In.
Qed.

Lemma parse_header_clean line h : parse_header line = Ok h → clean h.
Proof.
  unfold parse_header. destruct (match line with b :: _ => is_blank b | [] => false end); [done|]. intros H.
  apply res_bind_ok in H as (text & _ & H). apply res_bind_ok in H as ([name rest] & _ & H).
  destruct (bool_decide_reflect (name = "")) as [|Hn]; [done|].
  destruct (forallb is_token_byte (as_bytes name)) eqn:Ht; [|done]. cbn [orb negb] in H.
  destruct (existsb is_control (as_bytes (trim_blanks rest))) eqn:Hc; [done|].
  injection H as <-. split; [by apply header_name_lower|done].
Qed.

(** What the declared length makes of the headers seen. *)
Definition declares (headers : list (string * string)) (cl : option Z) : Prop :=
  match cl with
  | None => named "content-length" headers = []
  | Some d => ∃ v, named "content-length" headers = [("content-length", v)] ∧ parse_content_length v = Ok d
  end.

(** The invariant of the loop over the header lines. *)
Record collected (limits : Limits) (headers : list (string * string)) (cl : option Z) (seen : bool) : Prop := {
  collected_clean : Forall clean headers;
  collected_length : (length headers ≤ max_headers limits)%nat;
  collected_host : (length (named "host" headers) ≤ if seen then 1 else 0)%nat;
  collected_encoding : named "transfer-encoding" headers = [];
  collected_declares : declares headers cl;
}.

Lemma named_snoc name headers h :
  named name (headers ++ [h]) = named name headers ++ (if decide (h.1 = name) then [h] else []).
Proof. unfold named. rewrite filter_app. f_equal. Qed.

Lemma read_headers_collected limits lines : ∀ headers cl seen out cl',
  collected limits headers cl seen → read_headers limits lines headers cl seen = Ok (out, cl') →
  ∃ seen', collected limits out cl' seen'.
Proof.
  induction lines as [|raw lines IH]; intros headers cl seen out cl' Hc H; cbn [read_headers] in H.
  { injection H as <- <-. by exists seen. }
  apply res_bind_ok in H as (line & _ & H). case_decide; [injection H as <- <-; by exists seen|].
  destruct (Nat.eqb_spec (length headers) (max_headers limits)) as [|Hroom]; [done|].
  apply res_bind_ok in H as ([name value] & Hh & H). apply parse_header_clean in Hh.
  destruct (bool_decide (name = "host") && seen) eqn:Ehost; [done|].
  destruct (bool_decide_reflect (name = "transfer-encoding")) as [|Hte]; [done|].
  apply res_bind_ok in H as (cl1 & Hcl & H). eapply IH; [|exact H].
  destruct Hc as [H1 H2 H3 H4 H5]. split.
  - apply Forall_app. by split; [|constructor].
  - rewrite length_app. cbn. lia.
  - rewrite named_snoc, length_app. cbn [fst]. destruct (bool_decide_reflect (name = "host")) as [->|Hn].
    + destruct seen; [done|]. rewrite decide_True by done. cbn. lia.
    + rewrite decide_False by done. rewrite orb_false_r. cbn. lia.
  - rewrite named_snoc, H4. cbn [fst]. by rewrite decide_False.
  - unfold declares in *. rewrite named_snoc. cbn [fst].
    destruct (bool_decide_reflect (name = "content-length")) as [->|Hn].
    + destruct cl; [done|]. destruct (parse_content_length value) as [d|] eqn:Ed; [|done]. injection Hcl as <-.
      exists value. by rewrite H5.
    + injection Hcl as <-. rewrite decide_False, app_nil_r by done. done.
Qed.

(** ** The target *)

(** A path as it is routed: absolute, of whole characters, none of them null. *)
Definition routable (path : string) : Prop :=
  starts_with "/" path = true ∧ is_str path = true ∧ x00 ∉ as_bytes path.

Lemma percent_decode_text input plus s :
  percent_decode input plus = Ok s → is_str s = true ∧ (x00 ∉ as_bytes s) ∧ percent_bytes plus (as_bytes input) = Ok (as_bytes s).
Proof.
  unfold percent_decode. intros H. apply res_bind_ok in H as (out & Hout & H).
  destruct (existsb _ out) eqn:En; [done|]. apply ok_or_ok, from_utf8_spec in H as [<- Hs].
  split; [done|]. split; [|done]. intros Hin. apply list_elem_of_In in Hin.
  assert (existsb (λ b, bool_decide (b = x00)) (as_bytes s) = true); [|congruence].
  apply existsb_exists. exists x00. by rewrite bool_decide_true.
Qed.

Lemma starts_with_slash s : starts_with "/" s = true ↔ (∃ r, as_bytes s = ("/"%byte :: r)).
Proof.
  unfold starts_with, strip_prefix. change (as_bytes "/") with ["/"%byte]. cbn [strip_prefix_bytes].
  destruct (as_bytes s) as [|b r]; cbn; [by split; [|intros []]|].
  destruct (decide _) as [Hb|Hb]; [subst b; split; [by eauto|done]|]. split; [done|]. by intros [r' [= -> _]].
Qed.

Lemma split_target_routable target path query :
  starts_with "/" target = true → split_target target = Ok (path, query) → routable path.
Proof.
  rewrite starts_with_slash. intros [r Hr] H. unfold split_target in H.
  set (halves := match split_once "?" target with Some (p, q) => (p, Some q) | None => (target, None) end) in H.
  assert (∃ r', as_bytes halves.1 = ("/"%byte :: r')) as [r' Hraw].
  { unfold halves, split_once. destruct (split_once_bytes "?" (as_bytes target)) as [[x y]|] eqn:E; [|by exists r].
    apply split_once_bytes_some in E as [E _]. cbn [fst]. rewrite as_bytes_of_bytes. rewrite Hr in E.
    destruct x as [|b x]; [discriminate E|]. injection E as <- _. by exists x. }
  clearbody halves. destruct halves as [raw_path raw_query]. cbn [fst] in Hraw.
  apply res_bind_ok in H as (path' & Hp & H). apply res_bind_ok in H as (q & _ & H). injection H as -> _.
  apply percent_decode_text in Hp as (Hs & Hz & Hb). split; [|done]. apply starts_with_slash.
  rewrite Hraw in Hb. cbn in Hb. destruct (percent_bytes false r') as [l|]; [|done]. injection Hb as Hb. by exists l.
Qed.

Lemma parse_request_line_ok line method target :
  parse_request_line line = Ok (method, target) →
  method ≠ "" ∧ forallb is_token_byte (as_bytes method) = true ∧ starts_with "/" target = true.
Proof.
  unfold parse_request_line. intros H. apply res_bind_ok in H as (text & _ & H).
  destruct (split " " text) as [|m [|t [|v more]]]; try done. destruct (negb _); [done|].
  destruct (bool_decide_reflect (m = "")); [done|]. destruct (forallb is_token_byte (as_bytes m)) eqn:Em; [|done].
  destruct (starts_with "/" t) eqn:Et; [|done]. cbn [orb negb] in H.
  destruct (_ || _); [by injection H as <- <-|]. by destruct (starts_with "HTTP/" v).
Qed.

Lemma collected_nil limits : collected limits [] None false.
Proof. split; cbn; [done|lia|lia|done|done]. Qed.

Lemma parse_head_ok limits head method target headers cl :
  parse_head limits head = Ok (method, target, headers, cl) →
  method ≠ "" ∧ forallb is_token_byte (as_bytes method) = true ∧ starts_with "/" target = true
  ∧ ∃ seen, collected limits headers cl seen.
Proof.
  unfold parse_head. destruct (split_at_byte x0a head) as [|request_line lines]; [done|]. intros H.
  apply res_bind_ok in H as (line & _ & H). apply res_bind_ok in H as ([m t] & Hl & H).
  apply res_bind_ok in H as ([hs c] & Hh & H). injection H as <- <- <- <-.
  apply parse_request_line_ok in Hl as (? & ? & ?). do 3 (split; [done|]).
  eapply read_headers_collected; [apply collected_nil|exact Hh].
Qed.

(** ** Any request that is accepted *)

Definition acceptable (limits : Limits) (r : Request) : Prop :=
  (method r ≠ "" ∧ forallb is_token_byte (as_bytes (method r)) = true)
  ∧ routable (path r)
  ∧ Forall clean (headers r) ∧ (length (headers r) ≤ max_headers limits)%nat
  ∧ (length (named "host" (headers r)) ≤ 1)%nat ∧ named "transfer-encoding" (headers r) = []
  ∧ match named "content-length" (headers r) with
    | [] => body r = []
    | [(_, declared)] => parse_content_length declared = Ok (Z.of_nat (length (body r)))
                         ∧ (body r ≠ [] → Z.of_nat (length (body r)) <= max_body limits)
    | _ => False
    end.

Lemma parse_content_length_range v d : parse_content_length v = Ok d → 0 <= d.
Proof.
  unfold parse_content_length. destruct (_ || _); [done|]. intros H%ok_or_ok.
  apply parse_unsigned_range in H. lia.
Qed.

Lemma body_of_ok n data b rest : Framing.body_of n data = Ok (b, rest) → length b = n.
Proof. unfold Framing.body_of. destruct (Nat.ltb_spec (length data) n); [done|]. intros [= <- _]. rewrite length_take. lia. Qed.

Lemma parse_request_acceptable limits data r rest :
  Framing.parse_request limits data = Ok (r, rest) → acceptable limits r.
Proof.
  unfold Framing.parse_request. intros H. apply res_bind_ok in H as ([head more] & _ & H).
  apply res_bind_ok in H as ([[[m t] hs] cl] & Hh & H). apply res_bind_ok in H as ([p q] & Ht & H).
  apply res_bind_ok in H as ([b rest'] & Hb & H). injection H as <- _.
  apply parse_head_ok in Hh as (Hm & Hm' & Hslash & seen & [H1 H2 H3 H4 H5]).
  split; [done|]. split; [by eapply split_target_routable|]. split; [done|]. split; [done|]. cbn [headers body].
  split; [by destruct seen; lia|]. split; [done|]. unfold declares in H5. destruct cl as [d|].
  2: { rewrite H5. injection Hb as <- _. done. }
  destruct H5 as (v & -> & Hv). pose proof (parse_content_length_range _ _ Hv). destruct (Z.eqb_spec d 0) as [->|Hd].
  { injection Hb as <- _. done. }
  destruct (Z.ltb_spec (max_body limits) d); [done|]. apply body_of_ok in Hb. rewrite Hb.
  rewrite Z2Nat.id by done. done.
Qed.
End Accept.
