(* ===== verification/HttpClient.v ===== *)
(** * Answers, and the other end

    Models [crates/ls-http/src/response.rs], the client's request and reading of the
    answer in [client.rs], and what [server.rs] does with one connection. The
    threads around that are in [Pool]. *)

From S2P Require Import Prelude Text Http HttpRequest.
From Stdlib Require Import Strings.Byte.

Record Response := mk_response {
  status : Z;
  response_headers : list (string * string);
  response_body : list byte;
}.

Definition CRLF : list byte := [x0d; x0a].

Module Response.

Definition new (status : Z) (body : list byte) : Response := mk_response status [] body.

Definition is_safe_field (text : string) : bool :=
  negb (existsb (λ b, bool_decide (b = x0d) || bool_decide (b = x0a) || bool_decide (b = x00)) (as_bytes text)).

Definition header (name value : string) (self : Response) : Response :=
  if is_safe_field name && is_safe_field value && negb (bool_decide (name = ""))
  then mk_response (status self) (response_headers self ++ [(to_ascii_lowercase name, value)]) (response_body self)
  else self.

Definition text (status : Z) (body : string) : Response :=
  header "content-type" "text/plain; charset=utf-8" (new status (as_bytes body)).

Definition json (status : Z) (body : string) : Response :=
  header "content-type" "application/json" (new status (as_bytes body)).

Definition reason (status : Z) : string :=
  if status =? 200 then "OK" else if status =? 201 then "Created" else if status =? 204 then "No Content"
  else if status =? 400 then "Bad Request" else if status =? 401 then "Unauthorized"
  else if status =? 403 then "Forbidden" else if status =? 404 then "Not Found"
  else if status =? 405 then "Method Not Allowed" else if status =? 409 then "Conflict"
  else if status =? 413 then "Content Too Large" else if status =? 415 then "Unsupported Media Type"
  else if status =? 421 then "Misdirected Request" else if status =? 422 then "Unprocessable Content"
  else if status =? 429 then "Too Many Requests" else if status =? 431 then "Request Header Fields Too Large"
  else if status =? 500 then "Internal Server Error" else if status =? 501 then "Not Implemented"
  else if status =? 503 then "Service Unavailable" else if status =? 505 then "HTTP Version Not Supported"
  else "Status".

Definition header_line (h : string * string) : list byte :=
  as_bytes h.1 ++ as_bytes ": " ++ as_bytes h.2 ++ CRLF.

(** The bytes of [write_to]. *)
Definition render (self : Response) : list byte :=
  as_bytes "HTTP/1.1 " ++ as_bytes (show_Z (status self)) ++ as_bytes " " ++ as_bytes (reason (status self)) ++ CRLF
  ++ concat (header_line <$> response_headers self)
  ++ as_bytes "content-length: " ++ as_bytes (show_Z (Z.of_nat (length (response_body self)))) ++ CRLF
  ++ as_bytes "connection: close" ++ CRLF ++ CRLF
  ++ response_body self.
End Response.

(** ** One connection of the server *)

Module Server_.
Definition quote : string := of_bytes [x22].

Definition keep_char (c : Z) : bool := negb (c =? 34) && negb (c =? 92) && (32 <=? c).

Definition escape (text : string) : string := of_chars (List.filter keep_char (chars text)).

(** The answer to a request that could not be read. *)
Definition refusal (error : HttpError) : Response :=
  Response.json (HttpError.status error)
    ("{" +:+ quote +:+ "error" +:+ quote +:+ ":" +:+ quote +:+ escape (HttpError.to_string error) +:+ quote +:+ "}").

(** The handler's answer; one that panics has none. *)
Definition run_handler (handler : Request → option Response) (request : Request) : Response :=
  default (Response.json 500 ("{" +:+ quote +:+ "error" +:+ quote +:+ ":" +:+ quote +:+ "internal error" +:+ quote +:+ "}"))
    (handler request).

Definition MAX_DRAIN : Z := 64 * 1024.
Definition DRAIN_DEADLINE : Z := 2 * 1000000000.

Section Serving.
Context {WatchI : Stopwatch}.

(** One turn reads at least one byte, so there are no more of them than bytes to drain. *)
Fixpoint drain_loop (fuel : nat) (total : Z) : proc Conn HttpError unit :=
  match fuel with
  | O => ret tt
  | S fuel =>
    if negb (total <? MAX_DRAIN) then ret tt else
    let! k := gets checks in
    do! modify (λ c, mk_conn (buffered c) (arrivals c) (S (checks c))) in
    if negb (drain_elapsed k <? DRAIN_DEADLINE) then ret tt else
    let! got := Conn.read 4096 in
    match got with
    | Ready [] => ret tt
    | Ready bytes => drain_loop fuel (total + Z.of_nat (length bytes))
    | _ => ret tt
    end
  end.

Definition drain : proc Conn HttpError unit := drain_loop (S (Z.to_nat MAX_DRAIN)) 0.

(** [serve_connection], on a socket that could be duplicated: what is written back, if
    anything, and what is left unread. *)
Definition serve_connection (limits : Limits) (handler : Request → option Response) (c : Conn)
  : option (list byte) * Conn :=
  match Request.read limits c with
  | (Ok request, c') => (Some (Response.render (run_handler handler request)), c')
  | (Err Incomplete, c') => (None, c')
  | (Err error, c') => (Some (Response.render (refusal error)), (drain c').2)
  end.
End Serving.
End Server_.

(** ** The client *)

Record ClientResponse := mk_client_response {
  client_status : Z;
  client_headers : list (string * string);
  client_body : list byte;
}.

Module Client.

Definition has_break (s : string) : bool :=
  existsb (λ b, bool_decide (b = x0d) || bool_decide (b = x0a)) (as_bytes s).

(** The caller's headers, refused at the first line break. *)
Fixpoint header_lines (headers : list (string * string)) : result HttpError (list byte) :=
  match headers with
  | [] => Ok []
  | (name, value) :: rest =>
    if has_break name || has_break value then Err (Malformed "header contains a line break")
    else map_ok (app (Response.header_line (name, value))) (header_lines rest)
  end.

(** The bytes [send] writes to [address]. *)
Definition request (address method path : string) (headers : list (string * string)) (body : list byte)
  : result HttpError (list byte) :=
  let? lines := header_lines headers in
  Ok (as_bytes method ++ as_bytes " " ++ as_bytes path ++ as_bytes " HTTP/1.1" ++ CRLF
      ++ (if existsb (λ h, bool_decide (to_ascii_lowercase h.1 = "host")) headers then []
          else Response.header_line ("host", address))
      ++ Response.header_line ("connection", "close") ++ lines
      ++ Response.header_line ("content-length", show_Z (Z.of_nat (length body))) ++ CRLF
      ++ body).

(** *** Reading the answer

    The stream is what is left of the bytes the server wrote. *)

(** [take(n).read_until(b'\n')]. *)
Fixpoint read_until (n : nat) (l : list byte) : list byte * list byte :=
  match n, l with
  | O, _ | _, [] => ([], l)
  | S n, b :: rest =>
    if decide (b = x0a) then ([b], rest) else let '(line, rest) := read_until n rest in (b :: line, rest)
  end.

Definition read_line (limits : Limits) : proc (list byte) HttpError string := λ l,
  let '(raw, rest) := read_until (max_head limits) l in
  if decide (raw = []) then (Err Incomplete, rest)
  else (ok_or (from_utf8 raw) (Malformed "response is not UTF-8"), rest).

Definition trim_end_with {A} (p : A → bool) (l : list A) : list A := reverse (drop_while p (reverse l)).

Definition is_break (b : byte) : bool := bool_decide (b = x0d) || bool_decide (b = x0a).

(** [trim_end_matches(['\r', '\n'])]. *)
Definition trim_breaks (s : string) : string := of_bytes (trim_end_with is_break (as_bytes s)).

Definition trim_end (s : string) : string := of_chars (trim_end_with is_whitespace (chars s)).

Definition status_line (line : string) : result HttpError Z :=
  let parts := split " "%byte (trim_end line) in
  if negb (starts_with "HTTP/1." (default "" (head parts))) then Err (Malformed "status line") else
  let? code := ok_or (parts !! 1%nat) (Malformed "missing status code") in
  ok_or (parse_unsigned 65535 code) (Malformed "status code").

(** One turn reads a line and either ends the headers or adds one, so one more turn
    than the headers allowed is enough. *)
Fixpoint read_headers (fuel : nat) (limits : Limits) (headers : list (string * string)) (content_length : Z)
  : proc (list byte) HttpError (list (string * string) * Z) :=
  match fuel with
  | O => fail TooManyHeaders
  | S fuel =>
    let! line := read_line limits in
    let trimmed := trim_breaks line in
    if decide (trimmed = "") then ret (headers, content_length) else
    if (length headers =? max_headers limits)%nat then fail TooManyHeaders else
    let! (name, value) := lift (ok_or (split_once ":" trimmed) (Malformed "response header")) in
    let name := to_ascii_lowercase name in
    let value := Request.trim_blanks value in
    let! content_length :=
      (if bool_decide (name = "content-length")
       then lift (ok_or (parse_unsigned u64_max value) (Malformed "response Content-Length"))
       else ret content_length) in
    read_headers fuel limits (headers ++ [(name, value)]) content_length
  end.

Definition read_response (limits : Limits) : proc (list byte) HttpError ClientResponse :=
  let! line := read_line limits in
  let! status := lift (status_line line) in
  let! (headers, content_length) := read_headers (S (max_headers limits)) limits [] 0 in
  if max_body limits <? content_length then fail (BodyTooLarge content_length (max_body limits)) else
  λ rest,
    let n := Z.to_nat content_length in
    if (length rest <? n)%nat then (Err IncompleteBody, [])
    else (Ok (mk_client_response status headers (take n rest)), drop n rest).

Definition response_header (self : ClientResponse) (name : string) : option string :=
  let wanted := to_ascii_lowercase name in
  snd <$> List.find (λ h, bool_decide (h.1 = wanted)) (client_headers self).

Definition body_text (self : ClientResponse) : option string := from_utf8 (client_body self).
End Client.

(** ** Trying it out *)

Module HttpDemo.
#[export] Instance prompt : Stopwatch := {| elapsed _ := 0; drain_elapsed _ := 0 |}.

Definition line (s : string) : list byte := as_bytes s ++ CRLF.

Definition post : list byte :=
  line "POST /v1/login?x=a%2Fb&y=1+2 HTTP/1.1" ++ line "Host: vault" ++ line "Content-Length: 3" ++ CRLF ++ [x61; x62; x63; x64].

Example read_in_one :
  Request.read Limits_default (mk_conn [] [Bytes post] 0)
  = (Ok (mk_request "POST" "/v1/login" [("x", "a/b"); ("y", "1 2")]
           [("host", "vault"); ("content-length", "3")] [x61; x62; x63]),
     mk_conn [x64] [] 2).
Proof. by vm_compute. Qed.

Example read_in_bytes :
  fst (Request.read Limits_default (mk_conn [] ((λ b, Bytes [b]) <$> post) 0))
  = fst (Request.read Limits_default (mk_conn [] [Bytes post] 0)).
Proof. by vm_compute. Qed.

Example read_two_lengths :
  fst (Request.read Limits_default (mk_conn [] [Bytes (line "GET / HTTP/1.1" ++ line "Content-Length: 1"
    ++ line "content-length: 1" ++ CRLF)] 0)) = Err AmbiguousLength.
Proof. by vm_compute. Qed.

Example answer_comes_back :
  fst (Client.read_response Limits_default (Response.render (Response.text 404 "gone")))
  = Ok (mk_client_response 404 [("content-type", "text/plain; charset=utf-8"); ("content-length", "4");
      ("connection", "close")] (as_bytes "gone")).
Proof. by vm_compute. Qed.
End HttpDemo.
