(* ===== verification/HttpExchange.v ===== *)
(** * A request and its answer, end to end

    What the client writes the server reads, and what the server writes the client
    reads: the rendering and the parsing of [HttpClient] and [HttpRequest] against
    each other. *)

From S2P Require Import Prelude Text JsonValue JsonParser Http HttpRequest HttpFraming HttpAccept HttpClient.
From Stdlib Require Import Strings.Byte.

Module Exchange.
Import Accept.

(** ** Lines *)

(** Lines as they are sent. *)
Definition sent (lines : list (list byte)) : list byte := concat ((λ l, l ++ CRLF) <$> lines).

(** A line that nothing in it can end. *)
Definition unbroken (l : list byte) : Prop := (x0d ∉ l) ∧ (x0a ∉ l).

Lemma sent_cons l ls : sent (l :: ls) = l ++ CRLF ++ sent ls.
Proof. unfold sent. cbn. by rewrite <- app_assoc. Qed.

Lemma sent_app ls ms : sent (ls ++ ms) = sent ls ++ sent ms.
Proof. unfold sent. by rewrite fmap_app, concat_app. Qed.

Lemma position_skip l x :
  x0d ∉ l → Request.position Request.TERMINATOR (l ++ x) = Nat.add (length l) <$> Request.position Request.TERMINATOR x.
Proof.
  intros H. induction l as [|b l IH]; [cbn [app]; by destruct (Request.position _ x)|].
  apply not_elem_of_cons in H as [Hb H]. cbn [app Request.position].
  assert (strip_prefix_bytes Request.TERMINATOR (b :: l ++ x) = None) as -> by (cbn; by rewrite decide_False).
  rewrite IH by done. by destruct (Request.position _ x).
Qed.

Lemma position_step b x :
  strip_prefix_bytes Request.TERMINATOR (b :: x) = None →
  Request.position Request.TERMINATOR (b :: x) = S <$> Request.position Request.TERMINATOR x.
Proof. intros H. cbn [Request.position]. by rewrite H. Qed.

Lemma position_crlf b x :
  b ≠ x0d → Request.position Request.TERMINATOR (CRLF ++ b :: x) = Nat.add 2 <$> Request.position Request.TERMINATOR (b :: x).
Proof.
  intros H. cbn [CRLF app]. rewrite position_step by (cbn; by repeat case_decide). rewrite position_step by done.
  by destruct (Request.position _ (b :: x)).
Qed.

(** The head ends where its lines do. *)
Lemma position_sent lines rest :
  lines ≠ [] → Forall (λ l, l ≠ [] ∧ unbroken l) lines →
  Request.position Request.TERMINATOR (sent lines ++ CRLF ++ rest) = Some (length (sent lines) - 2)%nat.
Proof.
  intros Hne H. induction H as [|l ls [Hl [Hcr Hlf]] Hls IH]; [done|]. rewrite sent_cons, <- !app_assoc, position_skip by done.
  destruct ls as [|m ls].
  - cbn [sent fmap list_fmap concat app]. rewrite length_app.
    assert (Request.position Request.TERMINATOR (CRLF ++ CRLF ++ rest) = Some 0%nat) as -> by done. cbn. f_equal. lia.
  - apply Forall_cons in Hls as [[Hm [Hmcr _]] Hls]. destruct m as [|b m]; [done|].
    apply not_elem_of_cons in Hmcr as [Hb _]. rewrite sent_cons in *. cbn [app] in *. rewrite position_crlf by done.
    rewrite IH by done. cbn [fmap option_fmap option_map]. rewrite !length_app. cbn. rewrite !length_app. cbn. f_equal. lia.
Qed.

Lemma split_sent lines rest :
  Forall unbroken lines →
  split_at_byte x0a (sent lines ++ rest) = ((λ l, l ++ [x0d]) <$> lines) ++ split_at_byte x0a rest.
Proof.
  induction 1 as [|l ls [_ Hl] _ IH]; [done|]. rewrite sent_cons, <- !app_assoc.
  change (CRLF ++ sent ls ++ rest) with ([x0d] ++ x0a :: sent ls ++ rest). rewrite app_assoc, split_at_byte_join.
  - by rewrite IH.
  - rewrite elem_of_app. intros [?|?%list_elem_of_singleton]; done.
Qed.

Lemma strip_cr_line l : Request.strip_cr (l ++ [x0d]) = Ok l.
Proof. unfold Request.strip_cr. by rewrite last_snoc, decide_True, removelast_last. Qed.

(** ** Headers *)

(** A value that arrives as it was sent. *)
Definition value_sent (v : string) : Prop :=
  is_str v = true ∧ Request.trim_blanks v = v ∧ existsb Request.is_control (as_bytes v) = false.

(** A header that arrives as it was sent, but for the case of its name. *)
Definition sendable (h : string * string) : Prop :=
  h.1 ≠ "" ∧ forallb Request.is_token_byte (as_bytes h.1) = true ∧ value_sent h.2.

Definition line_of (h : string * string) : list byte := as_bytes h.1 ++ as_bytes ": " ++ as_bytes h.2.
Definition lowered (h : string * string) : string * string := (to_ascii_lowercase h.1, h.2).

Lemma header_line_eq h : Response.header_line h = line_of h ++ CRLF.
Proof. unfold Response.header_line, line_of. by rewrite <- !app_assoc. Qed.

Lemma header_line_sent hs : concat (Response.header_line <$> hs) = sent (line_of <$> hs).
Proof.
  unfold sent. rewrite <- list_fmap_compose. f_equal. apply list_fmap_ext. intros _ h _. apply header_line_eq.
Qed.

Lemma token_byte b : Request.is_token_byte b = true → b ≠ " "%byte ∧ b ≠ ":"%byte ∧ b ≠ x0d ∧ b ≠ x0a ∧ Request.is_blank b = false ∧ is_ascii b = true.
Proof.
  assert (∀ b, implb (Request.is_token_byte b) (bool_decide (b ≠ " "%byte) && bool_decide (b ≠ ":"%byte) && bool_decide (b ≠ x0d)
    && bool_decide (b ≠ x0a) && negb (Request.is_blank b) && is_ascii b) = true) as E by (intros x; by_bytes1 x).
  intros H. specialize (E b). rewrite H in E. cbn [implb] in E. bool_arith.
  repeat match goal with E : bool_decide _ = true |- _ => apply bool_decide_eq_true in E end. done.
Qed.

Lemma token_bytes s b :
  forallb Request.is_token_byte (as_bytes s) = true → b ∈ as_bytes s → Request.is_token_byte b = true.
Proof. intros H Hb. rewrite forallb_forall in H. by apply H, list_elem_of_In. Qed.

Lemma token_free s c :
  forallb Request.is_token_byte (as_bytes s) = true → Request.is_token_byte c = false → c ∉ as_bytes s.
Proof. intros H Hc Hin. pose proof (token_bytes _ _ H Hin). congruence. Qed.

Lemma token_ascii s : forallb Request.is_token_byte (as_bytes s) = true → forallb is_ascii (as_bytes s) = true.
Proof.
  rewrite !forallb_forall. intros H b Hb. specialize (H b Hb). by apply token_byte in H as (_ & _ & _ & _ & _ & ?).
Qed.

Lemma value_free v c : existsb Request.is_control (as_bytes v) = false → Request.is_control c = true → c ∉ as_bytes v.
Proof.
  intros H Hc Hin. assert (existsb Request.is_control (as_bytes v) = true); [|congruence].
  apply existsb_exists. exists c. split; [by apply list_elem_of_In|done].
Qed.

Lemma line_of_free h c :
  sendable h → Request.is_token_byte c = false → Request.is_control c = true → c ∉ line_of h.
Proof.
  intros (_ & Ht & _ & _ & Hv) Hct Hcc. unfold line_of. rewrite !elem_of_app. intros [H|[H|H]].
  - by apply (token_free _ _ Ht Hct) in H.
  - repeat (apply elem_of_cons in H as [->|H]; [discriminate Hcc|]). by apply elem_of_nil in H.
  - by apply (value_free _ _ Hv Hcc) in H.
Qed.

Lemma line_of_unbroken h : sendable h → line_of h ≠ [] ∧ unbroken (line_of h).
Proof. intros H. split; [by unfold line_of; destruct (as_bytes h.1)|]. split; by apply line_of_free. Qed.

Lemma trim_blanks_space v : Request.trim_blanks v = v → Request.trim_blanks (" " +:+ v) = v.
Proof.
  intros H. rewrite <- H at 2. unfold Request.trim_blanks. by rewrite as_bytes_app.
Qed.

Lemma split_once_colon n v : ":"%byte ∉ as_bytes n → split_once ":" (of_bytes (as_bytes n ++ as_bytes ": " ++ as_bytes v)) = Some (n, " " +:+ v).
Proof.
  intros H. unfold split_once. rewrite as_bytes_of_bytes.
  rewrite (proj2 (split_once_bytes_some ":" _ (as_bytes n) (as_bytes (" " +:+ v)))).
  - by rewrite !of_bytes_as_bytes.
  - by rewrite as_bytes_app.
Qed.

Lemma line_of_str h : sendable h → is_str (of_bytes (line_of h)) = true.
Proof.
  intros (_ & Ht & Hv & _). unfold line_of.
  rewrite !of_bytes_app, !of_bytes_as_bytes. apply is_str_app; [by apply is_str_ascii, token_ascii|]. by apply is_str_app.
Qed.

Lemma parse_header_line h : sendable h → Request.parse_header (line_of h) = Ok (lowered h).
Proof.
  intros Hs. pose proof (line_of_str _ Hs) as Hstr. destruct Hs as (Hn & Ht & _ & Htrim & Hc). unfold Request.parse_header.
  assert (match line_of h with b :: _ => Request.is_blank b | [] => false end = false) as ->.
  { unfold line_of. destruct (as_bytes h.1) as [|b r] eqn:E; [by apply as_bytes_nil in E|].
    cbn [app]. cbn in Ht. apply andb_prop in Ht as [Ht _]. by apply token_byte in Ht as (_ & _ & _ & _ & ? & _). }
  rewrite <- (as_bytes_of_bytes (line_of h)), from_utf8_as_bytes by done. cbn [ok_or res_bind].
  unfold line_of. rewrite split_once_colon by (by eapply token_free). cbn [ok_or res_bind].
  rewrite bool_decide_false, Ht by done. cbn [orb negb].
  by rewrite trim_blanks_space, Hc.
Qed.

Definition ended (lines : list (list byte)) : list (list byte) := (λ l, l ++ [x0d]) <$> lines.

Lemma ended_cons l ls more : ended (l :: ls) ++ more = ended [l] ++ ended ls ++ more.
Proof. done. Qed.

Lemma ended_app ls ms more : ended (ls ++ ms) ++ more = ended ls ++ ended ms ++ more.
Proof. unfold ended. by rewrite fmap_app, app_assoc. Qed.

Lemma named_cons name h hs :
  named name (h :: hs) = (if decide (h.1 = name) then [h] else []) ++ named name hs.
Proof. unfold named. rewrite filter_cons. by case_decide. Qed.

Lemma read_headers_step limits h more acc cl seen :
  sendable h → (length acc < max_headers limits)%nat →
  Request.read_headers limits (ended [line_of h] ++ more) acc cl seen =
  (let name := to_ascii_lowercase h.1 in
   if bool_decide (name = "host") && seen then Err AmbiguousHost
   else if bool_decide (name = "transfer-encoding") then Err UnsupportedTransferEncoding
   else let? cl := (if bool_decide (name = "content-length") then
          match cl with
          | Some _ => Err AmbiguousLength
          | None => map_ok Some (Request.parse_content_length h.2)
          end else Ok cl) in
        Request.read_headers limits more (acc ++ [lowered h]) cl (seen || bool_decide (name = "host"))).
Proof.
  intros Hs Hroom. cbn [ended fmap list_fmap app Request.read_headers]. rewrite strip_cr_line. cbn [res_bind].
  destruct (line_of_unbroken _ Hs) as [Hne _]. rewrite decide_False by done.
  rewrite (proj2 (Nat.eqb_neq _ _)) by lia. by rewrite parse_header_line.
Qed.

Lemma read_headers_sent limits hs : ∀ acc seen more,
  Forall sendable hs → let out := lowered <$> hs in
  named "transfer-encoding" out = [] → named "content-length" out = [] →
  (length (named "host" out) ≤ if seen : bool then 0 else 1)%nat → (length acc + length hs ≤ max_headers limits)%nat →
  ∃ seen', Request.read_headers limits (ended (line_of <$> hs) ++ more) acc None seen
           = Request.read_headers limits more (acc ++ out) None seen'.
Proof.
  induction hs as [|h hs IH]; intros acc seen more Hs; cbv zeta; rewrite ?fmap_cons.
  { cbn. intros _ _ _ _. exists seen. by rewrite app_nil_r. }
  apply Forall_cons in Hs as [Hh Hs]. rewrite !named_cons. change (lowered h).1 with (to_ascii_lowercase h.1). intros Hte Hcl Hhost Hlen.
  destruct (decide (_ = "transfer-encoding")) as [|Hnte]; [done|]. destruct (decide (_ = "content-length")) as [|Hncl]; [done|].
  rewrite ended_cons. cbn [length] in Hlen. rewrite read_headers_step by (done || lia). cbv zeta.
  rewrite (bool_decide_false (_ = "transfer-encoding")), (bool_decide_false (_ = "content-length")) by done.
  cbn [res_bind]. destruct (decide (to_ascii_lowercase h.1 = "host")) as [Hho|Hho].
  - rewrite bool_decide_true by done. destruct seen; [cbn in Hhost; lia|]. cbn [andb orb].
    destruct (IH (acc ++ [lowered h]) true more) as [seen' E]; [done|done|done| |rewrite length_app; cbn; lia|].
    { rewrite length_app in Hhost. cbn in Hhost. lia. }
    exists seen'. rewrite E, <- app_assoc. done.
  - rewrite bool_decide_false by done. cbn [andb]. rewrite orb_false_r.
    destruct (IH (acc ++ [lowered h]) seen more) as [seen' E]; [done|done|done|done|rewrite length_app; cbn; lia|].
    exists seen'. rewrite E, <- app_assoc. done.
Qed.

(** A length, as both ends write it. *)
Definition length_header (body : list byte) : string * string := ("content-length", show_Z (Z.of_nat (length body))).

Lemma show_nat_digits n : 
  as_bytes (show_Z (Z.of_nat n)) ≠ [] ∧ forallb is_ascii_digit (as_bytes (show_Z (Z.of_nat n))) = true.
Proof.
  unfold show_Z. rewrite (proj2 (Z.ltb_ge _ _)) by lia. rewrite as_bytes_of_bytes.
  destruct (show_unsigned_spec (Z.of_nat n)) as (? & ? & _); [lia|]. done.
Qed.

Lemma parse_show_nat max n : Z.of_nat n <= max → parse_unsigned max (show_Z (Z.of_nat n)) = Some (Z.of_nat n).
Proof. intros H. unfold show_Z. rewrite (proj2 (Z.ltb_ge _ _)) by lia. apply parse_show_unsigned. lia. Qed.

(** Text with no blank in it. *)
Lemma trim_with_none {A} (p : A → bool) l : forallb (λ x, negb (p x)) l = true → trim_with p l = l.
Proof.
  intros H. assert (∀ l, forallb (λ x, negb (p x)) l = true → drop_while p l = l) as Hd.
  { intros [|x k] Hk; [done|]. cbn in Hk. apply andb_prop in Hk as [Hx _]. apply negb_true_iff in Hx. by apply drop_while_head. }
  unfold trim_with. rewrite (Hd l) by done. rewrite Hd.
  - apply reverse_involutive.
  - rewrite forallb_forall in *. intros x Hx. apply H. by apply list_elem_of_In, elem_of_reverse, list_elem_of_In.
Qed.

Lemma digits_sent v : forallb is_ascii_digit (as_bytes v) = true → value_sent v.
Proof.
  intros H. split; [by apply is_str_ascii, digits_ascii|]. rewrite forallb_forall in H.
  assert (∀ b, implb (is_ascii_digit b) (negb (Request.is_blank b) && negb (Request.is_control b)) = true) as E by (intros x; by_bytes1 x).
  assert (∀ b, In b (as_bytes v) → Request.is_blank b = false ∧ Request.is_control b = false) as Hb.
  { intros b Hb. specialize (E b). rewrite (H b Hb) in E. cbn [implb] in E. bool_arith. done. }
  split.
  - unfold Request.trim_blanks. rewrite trim_with_none; [apply of_bytes_as_bytes|]. apply forallb_forall.
    intros b Hin. by destruct (Hb b Hin) as [-> _].
  - apply not_true_is_false. intros Hc. apply existsb_exists in Hc as (b & Hin & Hc). destruct (Hb b Hin) as [_ ?]. congruence.
Qed.

Lemma length_header_sendable body : sendable (length_header body).
Proof. split; [done|]. split; [done|]. apply digits_sent, show_nat_digits. Qed.

Lemma parse_body_length (body : list byte) :
  Z.of_nat (length body) <= u64_max →
  Request.parse_content_length (show_Z (Z.of_nat (length body))) = Ok (Z.of_nat (length body)).
Proof.
  intros H. destruct (show_nat_digits (length body)) as [Hne Hd]. unfold Request.parse_content_length.
  rewrite bool_decide_false by (intros E; by rewrite E in Hne). rewrite Hd. cbn [orb negb]. by rewrite parse_show_nat.
Qed.

Lemma read_headers_length limits body acc seen more :
  Z.of_nat (length body) <= u64_max → (length acc < max_headers limits)%nat →
  Request.read_headers limits (ended [line_of (length_header body)] ++ [x0d] :: more) acc None seen
  = Ok (acc ++ [length_header body], Some (Z.of_nat (length body))).
Proof.
  intros Hb Hroom. rewrite read_headers_step by (done || apply length_header_sendable). cbv zeta.
  change (to_ascii_lowercase (length_header body).1) with "content-length".
  rewrite !bool_decide_false, bool_decide_true by done. cbn [andb]. change (length_header body).2 with (show_Z (Z.of_nat (length body))).
  rewrite parse_body_length by done. cbn [map_ok res_bind Request.read_headers].
  change (Request.strip_cr [x0d]) with (Ok (E := HttpError) (A := list byte) []). cbn [res_bind]. by rewrite decide_True.
Qed.

(** ** The request *)

(** The headers a request goes out with, before its length. *)
Definition own_headers (address : string) (headers : list (string * string)) : list (string * string) :=
  (if existsb (λ h, bool_decide (to_ascii_lowercase h.1 = "host")) headers then [] else [("host", address)])
  ++ ("connection", "close") :: headers.

Definition start_line (method target : string) : list byte :=
  as_bytes method ++ " "%byte :: as_bytes target ++ " "%byte :: as_bytes "HTTP/1.1".

(** What a caller of the client has to keep to: words where words go, no header
    that frames the message, and the sizes the server allows. *)
Record proper (limits : Limits) (address method target : string) (headers : list (string * string)) (body : list byte) : Prop := {
  proper_method : method ≠ "" ∧ forallb Request.is_token_byte (as_bytes method) = true;
  proper_target : starts_with "/" target = true ∧ is_str target = true
    ∧ Forall (λ b, b ≠ " "%byte ∧ b ≠ x0d ∧ b ≠ x0a) (as_bytes target);
  proper_address : value_sent address;
  proper_headers : Forall sendable headers;
  proper_host : (length (named "host" (lowered <$> headers)) ≤ 1)%nat;
  proper_framing : named "transfer-encoding" (lowered <$> headers) = [] ∧ named "content-length" (lowered <$> headers) = [];
  proper_count : (length headers + 3 ≤ max_headers limits)%nat;
  proper_head : (length (sent (start_line method target :: (line_of <$> own_headers address headers ++ [length_header body]))) + 2
                 ≤ max_head limits)%nat;
  proper_body : Z.of_nat (length body) <= Z.min u64_max (max_body limits);
}.

Lemma header_lines_sent headers :
  Forall sendable headers → Client.header_lines headers = Ok (sent (line_of <$> headers)).
Proof.
  assert (∀ s, x0d ∉ as_bytes s → x0a ∉ as_bytes s → Client.has_break s = false) as Hbreak.
  { intros s Hr Hn. apply not_true_is_false. intros H. apply existsb_exists in H as (b & Hb & H).
    apply list_elem_of_In in Hb. apply orb_prop in H as [H|H]; apply bool_decide_eq_true in H as ->; done. }
  induction 1 as [|[n v] hs Hh _ IH]; [done|]. cbn [Client.header_lines]. pose proof Hh as (_ & Ht & _ & _ & Hv).
  rewrite (Hbreak n), (Hbreak v) by (by apply (token_free _ _ Ht) || by apply (value_free _ _ Hv)).
  cbn [orb]. rewrite IH. cbn [map_ok]. f_equal. rewrite fmap_cons, sent_cons. unfold Response.header_line, line_of. by rewrite <- !app_assoc.
Qed.

Lemma own_sendable address headers :
  value_sent address → Forall sendable headers → Forall sendable (own_headers address headers).
Proof.
  intros Ha Hh. unfold own_headers. apply Forall_app. split.
  - destruct (existsb _ _); [apply Forall_nil; done|]. apply Forall_singleton. by split.
  - constructor; [|done]. by split; [|split; [by vm_compute|split_and!; vm_compute]].
Qed.

Lemma own_named name address headers :
  name ≠ "connection" →
  named name (lowered <$> own_headers address headers)
  = (if existsb (λ h, bool_decide (to_ascii_lowercase h.1 = "host")) headers then []
     else if decide ("host" = name) then [("host", address)] else []) ++ named name (lowered <$> headers).
Proof.
  intros Hn. unfold own_headers. rewrite fmap_app, fmap_cons. unfold named. rewrite filter_app, filter_cons.
  rewrite (decide_False (P := (lowered ("connection", "close")).1 = name)) by (intros E; by apply Hn).
  f_equal. destruct (existsb _ _); [done|]. cbn [fmap list_fmap]. rewrite filter_cons, filter_nil. done.
Qed.

Lemma no_host headers :
  existsb (λ h, bool_decide (to_ascii_lowercase h.1 = "host")) headers = false → named "host" (lowered <$> headers) = [].
Proof.
  induction headers as [|h hs IH]; [done|]. cbn [existsb]. intros [H1 H2]%orb_false_elim.
  rewrite fmap_cons, named_cons, IH by done. apply bool_decide_eq_false in H1. by rewrite decide_False.
Qed.

Lemma request_bytes address method target headers body :
  Forall sendable headers →
  Client.request address method target headers body
  = Ok (sent (start_line method target :: (line_of <$> own_headers address headers ++ [length_header body])) ++ CRLF ++ body).
Proof.
  intros H. unfold Client.request. rewrite header_lines_sent by done. cbn [res_bind]. f_equal.
  rewrite !header_line_eq, sent_cons. unfold start_line, own_headers. rewrite fmap_app, sent_app, fmap_app, sent_app.
  change (as_bytes " HTTP/1.1") with (" "%byte :: as_bytes "HTTP/1.1"). change (as_bytes " ") with [" "%byte].
  fold (length_header body). destruct (existsb _ headers); rewrite ?fmap_cons, ?sent_cons, <- ?app_assoc; cbn [app];
    rewrite <- ?app_assoc; done.
Qed.

(** Every line of a proper request. *)
Lemma start_unbroken method target :
  method ≠ "" → forallb Request.is_token_byte (as_bytes method) = true →
  Forall (λ b, b ≠ " "%byte ∧ b ≠ x0d ∧ b ≠ x0a) (as_bytes target) →
  start_line method target ≠ [] ∧ unbroken (start_line method target).
Proof.
  intros Hne Ht Hg. rewrite Forall_forall in Hg. unfold start_line. split; [by destruct (as_bytes method)|].
  unfold unbroken. rewrite !elem_of_app, !elem_of_cons, !elem_of_app, !elem_of_cons.
  assert ((x0d ∉ as_bytes "HTTP/1.1") ∧ (x0a ∉ as_bytes "HTTP/1.1")) as [Hv1 Hv2] by (split; apply (bool_decide_unpack _); by vm_compute).
  split; (intros [H|[H|[H|[H|H]]]]; [by apply (token_free _ _ Ht) in H|done|by apply Hg in H as (_ & ? & ?)|done|done]).
Qed.

Lemma lines_unbroken hs : Forall sendable hs → Forall (λ l, l ≠ [] ∧ unbroken l) (line_of <$> hs).
Proof. intros H. rewrite Forall_fmap. eapply Forall_impl; [exact H|]. intros h. apply line_of_unbroken. Qed.

Lemma split_start method target :
  forallb Request.is_token_byte (as_bytes method) = true → " "%byte ∉ as_bytes target →
  split " " (of_bytes (start_line method target)) = [method; target; "HTTP/1.1"].
Proof.
  intros Ht Hg. unfold split, start_line. rewrite as_bytes_of_bytes, split_at_byte_join by (by apply token_free).
  rewrite split_at_byte_join by done. rewrite split_at_byte_none by (apply (bool_decide_unpack _); by vm_compute).
  cbn [fmap list_fmap]. by rewrite !of_bytes_as_bytes.
Qed.

Lemma parse_start method target :
  method ≠ "" → forallb Request.is_token_byte (as_bytes method) = true →
  starts_with "/" target = true → is_str target = true → " "%byte ∉ as_bytes target →
  Request.parse_request_line (start_line method target) = Ok (method, target).
Proof.
  intros Hne Ht Hs Hu Hg. unfold Request.parse_request_line.
  assert (is_str (of_bytes (start_line method target)) = true) as Hstr.
  { unfold start_line. change (" "%byte :: as_bytes target ++ " "%byte :: as_bytes "HTTP/1.1")
      with (as_bytes " " ++ as_bytes target ++ as_bytes " HTTP/1.1").
    rewrite !of_bytes_app, !of_bytes_as_bytes. repeat apply is_str_app; try done. by apply is_str_ascii, token_ascii. }
  rewrite <- (as_bytes_of_bytes (start_line method target)), from_utf8_as_bytes by done. cbn [ok_or res_bind].
  rewrite split_start by done. rewrite bool_decide_true by done. cbn [negb]. rewrite bool_decide_false, Ht by done. cbn [orb negb].
  by rewrite Hs.
Qed.

(** The request the server ends up with. *)
Definition arrived (address method target : string) (headers : list (string * string)) (body : list byte)
    (path : string) (query : list (string * string)) : Request :=
  mk_request method path query (lowered <$> own_headers address headers ++ [length_header body]) body.

Section Arrives.
Context (limits : Limits) (address method target : string) (headers : list (string * string)) (body : list byte).
Context (Hproper : proper limits address method target headers body).

Let own := own_headers address headers.
Let lines := start_line method target :: (line_of <$> own ++ [length_header body]).

Lemma proper_lines : Forall (λ l, l ≠ [] ∧ unbroken l) lines.
Proof.
  destruct Hproper as [[] (_ & _ & ?) ? ? _ _ _ _ _]. constructor; [by apply start_unbroken|].
  apply lines_unbroken, Forall_app. split; [by apply own_sendable|]. apply Forall_singleton, length_header_sendable.
Qed.

Lemma proper_head_of rest :
  Framing.head_of limits (sent lines ++ CRLF ++ rest) = Ok (sent lines ++ CRLF, rest).
Proof.
  unfold Framing.head_of. rewrite position_sent by (done || apply proper_lines).
  assert (2 ≤ length (sent lines))%nat as H2 by (unfold lines; rewrite sent_cons, !length_app; cbn; lia).
  destruct Hproper as [_ _ _ _ _ _ _ Hh _].
  replace (length (sent lines) - 2 + 4)%nat with (length (sent lines ++ CRLF))
    by (rewrite length_app; change (length CRLF) with 2%nat; lia).
  rewrite (proj2 (Nat.leb_le _ _)).
  - rewrite app_assoc, take_app_length, drop_app_length. done.
  - rewrite length_app. exact Hh.
Qed.

Lemma proper_parse_head :
  Request.parse_head limits (sent lines ++ CRLF)
  = Ok (method, target, lowered <$> own ++ [length_header body], Some (Z.of_nat (length body))).
Proof.
  unfold Request.parse_head. rewrite split_sent by (eapply Forall_impl; [apply proper_lines|by intros l [_ ?]]).
  destruct Hproper as [[Hm Hmt] (Hs & Hu & Hg) Ha Hh Hhost [Hte Hcl] Hc _ Hb].
  unfold lines at 1. cbn [fmap list_fmap app]. rewrite strip_cr_line. cbn [res_bind].
  rewrite parse_start; [|done..|]. 2: { rewrite Forall_forall in Hg. intros Hin. by apply Hg in Hin as [? _]. }
  cbn [res_bind]. change (list_fmap _ _ ?f ?l) with (f <$> l).
  change (split_at_byte x0a CRLF) with [[x0d]; []]. rewrite fmap_app.
  assert (own = own_headers address headers) as Hown by done. clearbody own.
  assert (length own ≤ length headers + 2)%nat as Hlen
    by (rewrite Hown; unfold own_headers; rewrite length_app; destruct (existsb _ _); cbn; lia).
  destruct (read_headers_sent limits own [] false (ended [line_of (length_header body)] ++ [[x0d]; []])) as [seen E].
  - rewrite Hown. by apply own_sendable.
  - rewrite Hown, own_named by done. destruct (existsb _ _); [done|]. by rewrite decide_False.
  - rewrite Hown, own_named by done. destruct (existsb _ _); [done|]. by rewrite decide_False.
  - rewrite Hown, own_named by done. destruct (existsb _ _) eqn:Ee; [done|]. rewrite no_host by done. done.
  - cbn. lia.
  - fold (ended ((line_of <$> own) ++ (line_of <$> [length_header body]))). rewrite ended_app.
    change (line_of <$> [length_header body]) with [line_of (length_header body)]. rewrite E.
    rewrite (read_headers_length limits body _ _ [[]]); [|lia|rewrite length_app, length_fmap; cbn; lia].
    cbn [res_bind app]. by rewrite fmap_app.
Qed.

Lemma request_parses path query rest :
  Request.split_target target = Ok (path, query) →
  Framing.parse_request limits (sent lines ++ CRLF ++ body ++ rest) = Ok (arrived address method target headers body path query, rest).
Proof.
  intros Ht. unfold Framing.parse_request. rewrite proper_head_of. cbn [res_bind]. rewrite proper_parse_head. cbn [res_bind].
  rewrite Ht. cbn [res_bind]. destruct Hproper as [_ _ _ _ _ _ _ _ Hb].
  destruct (Z.eqb_spec (Z.of_nat (length body)) 0) as [Hz|Hz].
  { assert (body = []) as -> by (destruct body; [done|cbn in Hz; lia]). done. }
  rewrite (proj2 (Z.ltb_ge _ _)) by lia. unfold Framing.body_of. rewrite Nat2Z.id, length_app.
  rewrite (proj2 (Nat.ltb_ge _ _)) by lia. by rewrite take_app_length, drop_app_length.
Qed.
End Arrives.

(** ** The answer *)

Lemma read_until_line n l rest :
  x0a ∉ l → (length l + 2 ≤ n)%nat → Client.read_until n (l ++ CRLF ++ rest) = (l ++ CRLF, rest).
Proof.
  revert n. induction l as [|b l IH]; intros n Hl Hn; cbn [app length] in *.
  - destruct n as [|[|n]]; [lia..|]. by destruct n.
  - apply not_elem_of_cons in Hl as [Hb Hl]. destruct n as [|n]; [lia|]. cbn [Client.read_until].
    rewrite decide_False by done. by rewrite IH by (done || lia).
Qed.

Lemma read_line_sent limits l rest :
  x0a ∉ l → is_str (of_bytes l) = true → (length l + 2 ≤ max_head limits)%nat →
  Client.read_line limits (l ++ CRLF ++ rest) = (Ok (of_bytes (l ++ CRLF)), rest).
Proof.
  intros Hl Hs Hn. unfold Client.read_line. rewrite read_until_line by done.
  rewrite decide_False by (by destruct l).
  assert (is_str (of_bytes (l ++ CRLF)) = true) as Hc by (rewrite of_bytes_app; by apply is_str_app).
  rewrite <- (as_bytes_of_bytes (l ++ CRLF)) at 1. by rewrite from_utf8_as_bytes.
Qed.

(** Cutting the end off. *)
Lemma trim_end_app {A} (p : A → bool) l r :
  forallb p r = true → match last l with Some x => p x = false | None => True end →
  Client.trim_end_with p (l ++ r) = l.
Proof.
  intros Hr Hl. unfold Client.trim_end_with. rewrite reverse_app.
  assert (∀ k m, forallb p k = true → drop_while p (k ++ m) = drop_while p m) as Hd.
  { induction k as [|x k IH]; intros m Hk; [done|]. cbn in *. apply andb_prop in Hk as [-> Hk]. by apply IH. }
  rewrite Hd.
  - destruct l as [|y l _] using rev_ind; [done|]. rewrite last_snoc in Hl. rewrite reverse_app. cbn [reverse rev_append app].
    change (reverse [y] ++ reverse l) with (y :: reverse l). rewrite drop_while_head by done.
    change (y :: reverse l) with (reverse [y] ++ reverse l). by rewrite <- reverse_app, reverse_involutive.
  - rewrite forallb_forall in *. intros x Hx. apply Hr. by apply list_elem_of_In, elem_of_reverse, list_elem_of_In.
Qed.

Lemma last_in {A} (l : list A) x : last l = Some x → x ∈ l.
Proof. intros H. apply last_Some in H as [k ->]. rewrite elem_of_app. right. by apply list_elem_of_singleton. Qed.

Lemma trim_breaks_line l : unbroken l → Client.trim_breaks (of_bytes (l ++ CRLF)) = of_bytes l.
Proof.
  intros [Hr Hn]. unfold Client.trim_breaks. rewrite as_bytes_of_bytes, trim_end_app; [done|done|].
  destruct (last l) as [b|] eqn:E; [|done]. apply last_in in E. apply not_true_is_false.
  intros H. apply orb_prop in H as [H|H]; apply bool_decide_eq_true in H as ->; done.
Qed.

Lemma answer_header_step fuel limits h acc cl rest :
  sendable h → (length (line_of h) + 2 ≤ max_head limits)%nat → (length acc < max_headers limits)%nat →
  Client.read_headers (S fuel) limits acc cl (sent [line_of h] ++ rest) =
  (if bool_decide (to_ascii_lowercase h.1 = "content-length")
   then match parse_unsigned u64_max h.2 with
        | Some n => Client.read_headers fuel limits (acc ++ [lowered h]) n rest
        | None => (Err (Malformed "response Content-Length"), rest)
        end
   else Client.read_headers fuel limits (acc ++ [lowered h]) cl rest).
Proof.
  intros Hs Hl Hroom. destruct (line_of_unbroken _ Hs) as [Hne Hub]. cbn [Client.read_headers]. unfold bind at 1.
  rewrite sent_cons. change (sent []) with (@nil byte). rewrite app_nil_r, <- app_assoc.
  rewrite read_line_sent; [|by destruct Hub|by apply line_of_str|done]. rewrite trim_breaks_line by done.
  assert (of_bytes (line_of h) ≠ "") as Hne'
    by (intros E; apply Hne; rewrite <- (as_bytes_of_bytes (line_of h)), E; done).
  rewrite decide_False by done. rewrite (proj2 (Nat.eqb_neq _ _)) by lia.
  pose proof Hs as (_ & Ht & _ & Htrim & _). unfold line_of at 1. unfold bind at 1, lift.
  rewrite split_once_colon by (by eapply token_free). cbn [ok_or]. rewrite trim_blanks_space by done.
  destruct (bool_decide _); [|done]. unfold bind at 1, lift. by destruct (parse_unsigned u64_max h.2).
Qed.

Lemma answer_headers limits hs : ∀ acc rest fuel,
  Forall (λ h, sendable h ∧ lowered h = h ∧ h.1 ≠ "content-length" ∧ (length (line_of h) + 2 ≤ max_head limits)%nat) hs →
  (length acc + length hs ≤ max_headers limits)%nat →
  ∀ cl, Client.read_headers (length hs + fuel) limits acc cl (sent (line_of <$> hs) ++ rest)
        = Client.read_headers fuel limits (acc ++ hs) cl rest.
Proof.
  induction hs as [|h hs IH]; intros acc rest fuel H Hroom cl; [by rewrite app_nil_r|].
  apply Forall_cons in H as [(Hs & Hlow & Hn & Hl) H]. cbn [length] in *. rewrite fmap_cons.
  change (line_of h :: (line_of <$> hs)) with ([line_of h] ++ (line_of <$> hs)). rewrite sent_app, <- app_assoc.
  change (S (length hs) + fuel)%nat with (S (length hs + fuel)). rewrite answer_header_step by (done || lia).
  assert (to_ascii_lowercase h.1 = h.1) as -> by (by apply (f_equal fst) in Hlow).
  rewrite bool_decide_false, Hlow by done. rewrite IH; [|done|rewrite length_app; cbn; lia].
  by rewrite <- app_assoc.
Qed.

(** The first line of an answer. *)
Definition status_text (status : Z) : list byte :=
  as_bytes "HTTP/1.1" ++ " "%byte :: as_bytes (show_Z status) ++ " "%byte :: as_bytes (Response.reason status).

(** An answer the client's limits allow for. *)
Record answerable (limits : Limits) (r : Response) : Prop := {
  answerable_status : 0 <= HttpClient.status r <= 65535;
  answerable_headers : Forall (λ h, sendable h ∧ lowered h = h ∧ h.1 ≠ "content-length"
    ∧ (length (line_of h) + 2 ≤ max_head limits)%nat) (response_headers r);
  answerable_count : (length (response_headers r) + 2 ≤ max_headers limits)%nat;
  answerable_head : (64 ≤ max_head limits)%nat;
  answerable_body : Z.of_nat (length (response_body r)) <= Z.min u64_max (max_body limits);
}.

Definition reason_ok (s : string) : bool :=
  forallb (λ b, is_ascii b && negb (bool_decide (b = x0a))) (as_bytes s) && (length (as_bytes s) <=? 31)%nat
  && match last (as_bytes s) with Some b => negb (is_whitespace (Z_of_byte b)) | None => false end.

Lemma reason_is_ok status : reason_ok (Response.reason status) = true.
Proof. unfold Response.reason. repeat (case_match; [reflexivity|]). reflexivity. Qed.

Lemma show_status status :
  0 <= status <= 65535 →
  forallb is_ascii_digit (as_bytes (show_Z status)) = true ∧ (length (as_bytes (show_Z status)) ≤ 5)%nat
  ∧ parse_unsigned 65535 (show_Z status) = Some status.
Proof.
  intros H. unfold show_Z. rewrite (proj2 (Z.ltb_ge _ _)) by lia. rewrite as_bytes_of_bytes.
  split; [apply show_unsigned_spec; lia|]. split; [|by apply parse_show_unsigned].
  unfold show_unsigned. etransitivity; [apply (show_digits_length _ _ [] 5); lia|cbn; lia].
Qed.

Lemma trim_end_line l :
  forallb is_ascii l = true → match last l with Some b => is_whitespace (Z_of_byte b) = false | None => True end →
  Client.trim_end (of_bytes (l ++ CRLF)) = of_bytes l.
Proof.
  intros Ha Hl. unfold Client.trim_end.
  assert (chars (of_bytes (l ++ CRLF)) = (Z_of_byte <$> l) ++ (Z_of_byte <$> CRLF)) as ->.
  { unfold chars. rewrite as_bytes_of_bytes, decode_ascii by (by rewrite forallb_app, Ha). cbn [default]. by rewrite fmap_app. }
  rewrite trim_end_app; [|by vm_compute|].
  - assert (chars (of_bytes l) = Z_of_byte <$> l) as <- by (unfold chars; by rewrite as_bytes_of_bytes, decode_ascii).
    apply of_chars_chars, is_str_ascii. by rewrite as_bytes_of_bytes.
  - rewrite fmap_last. by destruct (last l).
Qed.

Lemma status_text_spec status :
  0 <= status <= 65535 →
  (x0a ∉ status_text status) ∧ is_str (of_bytes (status_text status)) = true
  ∧ (length (status_text status) + 2 ≤ 64)%nat
  ∧ Client.status_line (of_bytes (status_text status ++ CRLF)) = Ok status.
Proof.
  intros H. destruct (show_status status H) as (Hd & Hdl & Hp). pose proof (reason_is_ok status) as Hr.
  unfold reason_ok in Hr. apply andb_prop in Hr as [Hr Hlast]. apply andb_prop in Hr as [Hr Hrl]. apply Nat.leb_le in Hrl.
  assert (forallb is_ascii (status_text status) = true) as Ha.
  { unfold status_text. rewrite forallb_app. cbn [forallb]. rewrite forallb_app. cbn [forallb].
    rewrite (digits_ascii _ Hd). cbn. rewrite forallb_forall in *. intros b Hb. specialize (Hr b Hb). by apply andb_prop in Hr as [? _]. }
  split.
  { unfold status_text. rewrite elem_of_app, elem_of_cons, elem_of_app, elem_of_cons. intros [Hin|[Hin|[Hin|[Hin|Hin]]]].
    - revert Hin. by apply (bool_decide_unpack (x0a ∉ _)).
    - done.
    - rewrite forallb_forall in Hd. by apply list_elem_of_In, Hd in Hin.
    - done.
    - rewrite forallb_forall in Hr. by apply list_elem_of_In, Hr in Hin. }
  split; [by apply is_str_ascii; rewrite as_bytes_of_bytes|].
  split; [unfold status_text; rewrite length_app; cbn; rewrite length_app; cbn; lia|].
  unfold Client.status_line. rewrite trim_end_line; [|done|].
  - assert (split " " (of_bytes (status_text status))
            = "HTTP/1.1" :: show_Z status :: split " " (Response.reason status)) as ->.
    { unfold split, status_text. rewrite as_bytes_of_bytes, split_at_byte_join by by apply (bool_decide_unpack (_ ∉ _)).
      rewrite split_at_byte_join; [cbn [fmap list_fmap]; by rewrite !of_bytes_as_bytes|].
      intros Hin. rewrite forallb_forall in Hd. by apply list_elem_of_In, Hd in Hin. }
    change (negb (starts_with "HTTP/1." (default "" (head ("HTTP/1.1" :: show_Z status :: split " " (Response.reason status)))))) with false.
    cbn [ok_or res_bind lookup list_lookup]. by rewrite Hp.
  - unfold status_text. rewrite last_app_cons, last_cons, last_app_cons, last_cons.
    destruct (last (as_bytes _)); [by apply negb_true_iff in Hlast|done].
Qed.

(** What the client makes of an answer. *)
Definition heard (r : Response) : ClientResponse :=
  mk_client_response (HttpClient.status r)
    (response_headers r ++ [length_header (response_body r); ("connection", "close")]) (response_body r).

Lemma render_lines r :
  Response.render r
  = sent (status_text (HttpClient.status r) :: (line_of <$> response_headers r ++ [length_header (response_body r); ("connection", "close")]))
    ++ CRLF ++ response_body r.
Proof.
  unfold Response.render. rewrite header_line_sent, sent_cons, fmap_app, sent_app. unfold status_text.
  change (as_bytes "HTTP/1.1 ") with (as_bytes "HTTP/1.1" ++ [" "%byte]). change (as_bytes " ") with [" "%byte].
  rewrite fmap_cons, sent_cons. unfold line_of at 3. unfold length_header. 
  change (sent (line_of <$> [("connection", "close")])) with (as_bytes "connection: close" ++ CRLF).
  change (as_bytes "content-length: ") with (as_bytes "content-length" ++ as_bytes ": ").
  rewrite <- ?app_assoc. cbn [app]. rewrite <- ?app_assoc. cbn [app]. rewrite <- ?app_assoc. done.
Qed.

Lemma answer_parses limits r rest :
  answerable limits r →
  Client.read_response limits (Response.render r ++ rest) = (Ok (heard r), rest).
Proof.
  intros [Hst Hh Hc Hhd Hb]. rewrite render_lines, sent_cons, <- !app_assoc.
  destruct (status_text_spec _ Hst) as (Hn & Hs & Hl & Hp). unfold Client.read_response. unfold bind at 1.
  rewrite read_line_sent by (done || lia). unfold bind at 1, lift. rewrite Hp. unfold bind at 1.
  rewrite fmap_app, sent_app, <- app_assoc.
  replace (S (max_headers limits)) with (length (response_headers r) + (3 + (max_headers limits - length (response_headers r) - 2)))%nat by lia.
  rewrite answer_headers by (done || cbn; lia). cbn [app].
  change (line_of <$> [length_header (response_body r); ("connection", "close")])
    with ([line_of (length_header (response_body r))] ++ [line_of ("connection", "close")]).
  rewrite sent_app, <- app_assoc. cbn [Nat.add].
  assert (length (line_of (length_header (response_body r))) + 2 ≤ 64)%nat as Hll.
  { unfold line_of, length_header. rewrite !length_app. cbn [fst snd]. 
    assert (length (as_bytes (show_Z (Z.of_nat (length (response_body r))))) ≤ 20)%nat; [|cbn [as_bytes length]; cbn; lia].
    unfold show_Z. rewrite (proj2 (Z.ltb_ge _ _)) by lia. rewrite as_bytes_of_bytes.
    unfold show_unsigned. etransitivity; [apply (show_digits_length _ _ [] 20); unfold u64_max in *; lia|cbn; lia]. }
  rewrite answer_header_step; [|apply length_header_sendable|lia|lia]. rewrite bool_decide_true by done.
  change (length_header (response_body r)).2 with (show_Z (Z.of_nat (length (response_body r)))).
  rewrite parse_show_nat by lia.
  rewrite answer_header_step; [|by split; [|split; [by vm_compute|split_and!; vm_compute]]|cbn; lia|rewrite length_app; cbn; lia].
  rewrite bool_decide_false by done. cbn [Client.read_headers]. unfold bind at 1.
  change (CRLF ++ response_body r ++ rest) with ([] ++ CRLF ++ response_body r ++ rest).
  rewrite read_line_sent; [|by apply not_elem_of_nil|done|cbn; lia]. rewrite (trim_breaks_line []) by (split; apply not_elem_of_nil).
  rewrite decide_True by done. unfold ret. rewrite (proj2 (Z.ltb_ge _ _)) by lia. rewrite Nat2Z.id.
  rewrite (proj2 (Nat.ltb_ge _ _)) by (rewrite length_app; lia). rewrite take_app_length, drop_app_length.
  unfold heard. by rewrite <- app_assoc.
Qed.
End Exchange.
