(* ===== verification/HttpClaims.v ===== *)
(** * What the HTTP layer guarantees

    The theorems about reading a request, about any request that is accepted, about a
    request and its answer end to end, and about the answer to one that is refused. *)

From S2P Require Import Prelude Text JsonValue JsonParser Http HttpRequest HttpFraming HttpAccept HttpClient HttpExchange.
From Stdlib Require Import Strings.Byte.

Module HttpClaims.
Import Framing Accept Exchange.

Section HttpClaims.
Context {WatchI : Stopwatch}.

(** C38: what a request is depends on the bytes sent and on nothing else. However a
    connection cuts them up, delays or fails, a request that is accepted is the one
    [parse_request] finds in the bytes, and exactly its own bytes are taken; and when
    the peer keeps to the deadline and the connection holds, the outcome is that of
    [parse_request], its errors included, so two ways of sending the same bytes come
    to the same. *)
Theorem framing limits :
  (∀ c, wp (Request.read limits)
     (λ r c', parse_request limits (stream c) = Ok (r, stream c'))
     (λ e _, smooth c → prompt limits → parse_request limits (stream c) = Err e) c)
  ∧ ∀ c1 c2, stream c1 = stream c2 → smooth c1 → smooth c2 → prompt limits →
    (Request.read limits c1).1 = (Request.read limits c2).1.
Proof.
  split; [apply wp_read_request|]. intros c1 c2 Hs H1 H2 Hp.
  pose proof (wp_read_request limits c1) as W1. pose proof (wp_read_request limits c2) as W2. unfold wp in *. rewrite <- Hs in W2.
  destruct (Request.read limits c1) as [[r1|e1] c1'], (Request.read limits c2) as [[r2|e2] c2']; cbn [fst].
  - congruence.
  - rewrite (W2 H2 Hp) in W1. congruence.
  - rewrite (W1 H1 Hp) in W2. congruence.
  - specialize (W1 H1 Hp). specialize (W2 H2 Hp). congruence.
Qed.

(** C39: whatever arrives, a request that is accepted is well formed: its method and
    header names are tokens, the names in lower case and the values free of control
    characters; it has at most one [host], at most one [content-length] and no
    [transfer-encoding]; its body is as long as that length says and within the limit,
    and empty without one; its path is absolute, valid text without a null. *)
Theorem accepted_is_unambiguous limits c :
  wp (Request.read limits) (λ r _, acceptable limits r) (λ _ _, True) c.
Proof.
  eapply wp_mono; [apply wp_read_request|..]; cbv beta; [|done]. intros r c' H.
  by eapply parse_request_acceptable.
Qed.

(** ** End to end *)

(** C37: a proper request that the client sends reaches the server's handler as it
    was meant, headers in order and body whole, however the connection delivers it;
    and what the handler answers reaches the caller, status, headers and body. *)
Theorem exchange limits limits' address method target headers body path query handler answer :
  proper limits address method target headers body →
  Request.split_target target = Ok (path, query) →
  prompt limits →
  handler (arrived address method target headers body path query) = Some answer →
  answerable limits' answer →
  ∃ bytes, Client.request address method target headers body = Ok bytes ∧
    ∀ c, smooth c → stream c = bytes →
      ∃ out c', Server_.serve_connection limits handler c = (Some out, c')
        ∧ Client.read_response limits' out = (Ok (heard answer), []).
Proof.
  intros Hp Ht Hpr Hh Ha. eexists. split; [by apply request_bytes; destruct Hp|]. intros c Hs Hst.
  pose proof (request_parses _ _ _ _ _ _ Hp _ _ [] Ht) as Hparse. rewrite app_nil_r in Hparse.
  pose proof (wp_read_request limits c) as Hw. unfold wp in Hw. rewrite Hst, Hparse in Hw.
  unfold Server_.serve_connection. destruct (Request.read limits c) as [[r|e] c']; [|by specialize (Hw Hs Hpr)].
  injection Hw as <- _. exists (Response.render answer), c'. unfold Server_.run_handler. rewrite Hh. split; [done|].
  rewrite <- (app_nil_r (Response.render answer)). by apply answer_parses.
Qed.

(** ** Refusals *)

Lemma keep_char_plain c : is_scalar c = true → Server_.keep_char c = true → Value.write_char c = encode_char c.
Proof.
  unfold Server_.keep_char, Value.write_char. intros _ H. bool_arith.
  repeat match goal with |- context [?a =? ?b] => destruct (Z.eqb_spec a b); [lia|] end.
  by rewrite (proj2 (Z.ltb_ge _ _)) by lia.
Qed.

Lemma filter_scalar p cs : forallb is_scalar cs = true → forallb is_scalar (List.filter p cs) = true.
Proof.
  rewrite !forallb_forall. intros H c Hc. apply filter_In in Hc as [Hc _]. by apply H.
Qed.

Lemma chars_escape t : chars (Server_.escape t) = List.filter Server_.keep_char (chars t).
Proof. apply chars_of_chars, filter_scalar, chars_scalar. Qed.

Lemma write_escape t : Value.write_string (Server_.escape t) = x22 :: as_bytes (Server_.escape t) ++ [x22].
Proof.
  unfold Value.write_string. rewrite chars_escape. do 2 f_equal. unfold Server_.escape, of_chars, encode_chars.
  rewrite as_bytes_of_bytes. f_equal. apply list_fmap_ext. intros i c Hc. apply list_elem_of_lookup_2, list_elem_of_In in Hc.
  pose proof (filter_scalar Server_.keep_char _ (chars_scalar t)) as Hs. rewrite forallb_forall in Hs.
  apply keep_char_plain; [by apply Hs|by apply filter_In in Hc as [_ Hc]].
Qed.

(** The document a refusal carries. *)
Definition refusal_document (error : HttpError) : Value :=
  Object [("error", Str (Server_.escape (HttpError.to_string error)))].

Lemma escape_str t : is_str (Server_.escape t) = true.
Proof. apply is_str_of_chars, filter_scalar, chars_scalar. Qed.

Lemma refusal_body error : response_body (Server_.refusal error) = Value.render (refusal_document error).
Proof.
  unfold Server_.refusal, refusal_document. cbn [response_body Response.json]. unfold Response.json, Response.header.
  cbn [Value.render map Value.comma_separated fmap list_fmap concat fst snd]. rewrite app_nil_r, write_escape.
  match goal with |- context [if ?b then _ else _] => destruct b end; cbn [response_body Response.new]; rewrite !as_bytes_app;
    unfold Server_.quote; rewrite as_bytes_of_bytes; cbn; rewrite <- app_assoc; done.
Qed.

Lemma refusal_answerable limits error :
  (3 ≤ max_headers limits)%nat → (64 ≤ max_head limits)%nat →
  Z.of_nat (length (response_body (Server_.refusal error))) <= Z.min u64_max (max_body limits) →
  answerable limits (Server_.refusal error).
Proof.
  intros Hh Hd Hb. split; [by destruct error; cbn|..|done|done].
  - apply Forall_singleton. split; [by split; [|split; [by vm_compute|split_and!; vm_compute]]|].
    split; [done|]. split; [done|].
    etransitivity; [|exact Hd]. apply Nat.leb_le. by vm_compute.
  - exact Hh.
Qed.

(** ** Draining *)

Lemma read_taken n c :
  wp (Conn.read n)
    (λ got c', ∃ b, stream c = b ++ stream c' ∧ (length b ≤ n)%nat ∧ match got with Ready x => x = b | _ => b = [] end)
    (λ _ _, False) c.
Proof.
  unfold wp, Conn.read, bind, Conn.fill_buf. destruct c as [[|x buf] arr k]; cbn [buffered arrivals].
  - destruct arr as [|[b| |] arr]; cbn.
    + exists []. rewrite drop_nil, take_nil. split; [done|]. split; [cbn; lia|done].
    + exists (take n b). rewrite length_take. unfold stream. cbn. rewrite app_assoc, take_drop. split; [done|]. split; [lia|done].
    + exists []. split; [done|]. split; [cbn; lia|done].
    + exists []. split; [done|]. split; [cbn; lia|done].
  - cbn. exists (take n (x :: buf)). rewrite length_take. unfold stream. cbn. rewrite app_assoc, take_drop. split; [done|]. split; [lia|done].
Qed.

Lemma drain_loop_bound fuel : ∀ total c,
  0 <= total < Server_.MAX_DRAIN + 4096 →
  ∃ drained, stream c = drained ++ stream (Server_.drain_loop fuel total c).2
    ∧ total + Z.of_nat (length drained) < Server_.MAX_DRAIN + 4096.
Proof.
  induction fuel as [|fuel IH]; intros total c Ht; [exists []; cbn; split; [done|lia]|].
  cbn [Server_.drain_loop]. destruct (Z.ltb_spec total Server_.MAX_DRAIN); cbn [negb]; [|exists []; cbn; split; [done|lia]].
  unfold bind at 1, gets. unfold bind at 1, modify. set (c1 := mk_conn _ _ _).
  assert (stream c1 = stream c) as <- by done. destruct (negb _); [exists []; cbn; split; [done|lia]|].
  unfold bind. pose proof (read_taken 4096 c1) as Hr. unfold wp in Hr. destruct (Conn.read 4096 c1) as [[got|e] c2]; [|done].
  destruct Hr as (b & Hs & Hb & Hgot).
  assert (b = [] → ∃ drained, stream c1 = drained ++ stream c2 ∧ total + Z.of_nat (length drained) < Server_.MAX_DRAIN + 4096) as Hstop
    by (intros ->; exists []; cbn; split; [done|lia]).
  destruct got as [[|x l]| |]; try by apply Hstop. subst b.
  destruct (IH (total + Z.of_nat (length (x :: l))) c2) as (d & Hd & Hlen); [lia|].
  exists ((x :: l) ++ d). rewrite Hs, Hd at 1. rewrite app_assoc. split; [done|]. rewrite length_app. lia.
Qed.

(** What there is to say of the answer to a request that could not be read, and of what
    is then cleared off the connection. *)
Definition answered (error : HttpError) (out : option (list byte)) (before after : Conn) : Prop :=
  let refusal := Server_.refusal error in
  out = Some (Response.render refusal)
  ∧ HttpClient.status refusal = HttpError.status error
  ∧ 400 <= HttpClient.status refusal <= 505
  ∧ from_utf8 (response_body refusal) = Some (Value.to_string (refusal_document error))
  ∧ parse (Value.to_string (refusal_document error)) = Ok (refusal_document error)
  ∧ (∀ limits, (3 ≤ max_headers limits)%nat → (64 ≤ max_head limits)%nat →
     Z.of_nat (length (response_body refusal)) <= Z.min u64_max (max_body limits) →
     Client.read_response limits (Response.render refusal) = (Ok (heard refusal), []))
  ∧ ∃ drained, stream before = drained ++ stream after ∧ Z.of_nat (length drained) < Server_.MAX_DRAIN + 4096.

Lemma refusal_answered error c : answered error (Some (Response.render (Server_.refusal error))) c (Server_.drain c).2.
Proof.
  assert (Value.float_free (refusal_document error) = true) as Hf by done. split_and!.
  - done.
  - done.
  - by destruct error.
  - by destruct error.
  - rewrite refusal_body, <- (as_bytes_of_bytes (Value.render _)). apply from_utf8_as_bytes. by apply Value.is_str_to_string.
  - apply parse_rendered; [|done|cbn; unfold MAX_DEPTH; lia]. cbn. by rewrite escape_str.
  - intros limits Hh Hd Hb. rewrite <- (app_nil_r (Response.render _)). apply answer_parses. by apply refusal_answerable.
  - apply (drain_loop_bound _ 0). unfold Server_.MAX_DRAIN. lia.
Qed.

(** C40: whatever arrives, a connection gets one answer or, when nothing was sent,
    none. A request that cannot be read is answered with the status of its error, one
    of those from 400 to 505, and a JSON document with the reason, whatever bytes of
    the request the reason quotes; the client reads that answer; a handler that panics
    is answered for; and clearing what a refused client still sends stops within the
    bounds set for it. *)
Theorem refusals_are_answers limits handler c :
  let r := Request.read limits c in
  let '(out, c') := Server_.serve_connection limits handler c in
  match r.1 with
  | Ok request =>
    let panic := Response.json 500 (Value.to_string (Object [("error", Str "internal error")])) in
    out = Some (Response.render (default panic (handler request))) ∧ c' = r.2
  | Err error => if decide (error = Incomplete) then out = None ∧ c' = r.2 else answered error out r.2 c'
  end.
Proof.
  intros r. unfold Server_.serve_connection. fold r. destruct r as [[request|error] c1]; cbn [fst snd]; [done|].
  pose proof (refusal_answered error c1) as H. by destruct error; case_decide.
Qed.
End HttpClaims.
End HttpClaims.

(** ** Trying them out *)

Module ExchangeDemo.
Export HttpDemo.
Import Framing Accept Exchange HttpClaims.

Definition address0 : string := "127.0.0.1:8787".
Definition target0 : string := "/v1/projects/app/envs/pr%6Fd/secrets/KEY?x=1+2".
Definition headers0 : list (string * string) := [("Authorization", "Bearer abc"); ("Content-Type", "application/json")].
Definition body0 : list byte := [x7b; x7d].
Definition answer0 : Response := Response.json 200 "true".

Lemma prompt0 : prompt Limits_default.
Proof. intros k. discriminate. Qed.

Lemma sendable_ok (h : string * string) :
  bool_decide (h.1 ≠ "" ∧ forallb Request.is_token_byte (as_bytes h.1) = true ∧ is_str h.2 = true
    ∧ Request.trim_blanks h.2 = h.2 ∧ existsb Request.is_control (as_bytes h.2) = false) = true → sendable h.
Proof. intros (? & ? & ? & ? & ?)%bool_decide_eq_true. by split_and!. Qed.

Lemma proper0 : proper Limits_default address0 "PUT" target0 headers0 body0.
Proof.
  split.
  - by split.
  - split; [by vm_compute|]. split; [by vm_compute|]. apply (bool_decide_unpack _). by vm_compute.
  - split; [by vm_compute|split; by vm_compute].
  - repeat (constructor; [apply sendable_ok; by vm_compute|]). by apply Forall_nil.
  - apply Nat.leb_le. by vm_compute.
  - split; by vm_compute.
  - apply Nat.leb_le. by vm_compute.
  - apply Nat.leb_le. by vm_compute.
  - apply Z.leb_le. by vm_compute.
Qed.

Lemma answerable0 : answerable Limits_default answer0.
Proof.
  split.
  - by split.
  - apply Forall_singleton. split; [apply sendable_ok; by vm_compute|]. split; [by vm_compute|]. split; [done|].
    apply Nat.leb_le. by vm_compute.
  - apply Nat.leb_le. by vm_compute.
  - apply Nat.leb_le. by vm_compute.
  - apply Z.leb_le. by vm_compute.
Qed.

Lemma framing_witness :
  (Request.read Limits_default (mk_conn [] ((λ b, Bytes [b]) <$> post) 0)).1
  = (Request.read Limits_default (mk_conn [] [Bytes post] 0)).1.
Proof.
  apply (framing Limits_default); [by vm_compute| | |apply prompt0].
  - unfold smooth. cbn [arrivals]. rewrite Forall_fmap. apply Forall_true. intros b. by exists [b].
  - apply Forall_singleton. by exists post.
Defined.

Lemma exchange_witness :
  ∃ bytes, Client.request address0 "PUT" target0 headers0 body0 = Ok bytes ∧
    ∀ c, smooth c → stream c = bytes →
      ∃ out c', Server_.serve_connection Limits_default (λ _, Some answer0) c = (Some out, c')
        ∧ Client.read_response Limits_default out = (Ok (heard answer0), []).
Proof.
  eapply (exchange Limits_default Limits_default address0 "PUT" target0 headers0 body0);
    [apply proper0|by vm_compute|apply prompt0|done|apply answerable0].
Defined.

(** A line feed on its own, where [strip_cr] asks for both, ends the headers early:
    the length declared after it is not looked at, and the body stays unread. *)
Definition smuggled : list byte :=
  line "POST / HTTP/1.1" ++ line "Host: here" ++ [x0a] ++ line "Content-Length: 4" ++ CRLF ++ [x62; x6f; x64; x79].

Lemma bare_newline_ends_headers :
  let '(r, c) := Request.read Limits_default (mk_conn [] [Bytes smuggled] 0) in
  r = Ok (mk_request "POST" "/" [] [("host", "here")] []) ∧ stream c = [x62; x6f; x64; x79].
Proof. by vm_compute. Qed.
End ExchangeDemo.
