(* ===== verification/Errors.v ===== *)
(** * What errors say

    The [Display] forms of [JsonError] ([crates/ls-json/src/lib.rs]), [StoreError] ([crates/ls-store/src/lib.rs]) and
    [VaultError] ([crates/ls-server/src/vault.rs]), which the HTTP layer puts into its
    answers. The text of an operating-system error is up to the system. *)

From S2P Require Import Prelude Text JsonValue World Event Validate.
From Stdlib Require Import Strings.Byte.

Section Errors.
Context {TextI : OsText}.

Definition store_error_to_string (self : StoreError) : string :=
  match self with
  | NotALog => "not a localsecrets log"
  | UnsupportedVersion v => "log format version " +:+ show_Z (Z_of_byte v) +:+ " is newer than this build"
  | Unreadable sequence => "record " +:+ show_Z (Z.of_nat sequence) +:+ " could not be authenticated"
  | RecordTooLarge len limit =>
    "record of " +:+ show_Z (Z.of_nat len) +:+ " bytes exceeds the limit of " +:+ show_Z (Z.of_nat limit)
  | Crypto => "could not encrypt a record"
  | MalformedEvent what => "record is not a usable event: " +:+ what
  | Broken => "an earlier write failed; the store must be reopened"
  | Corrupt at_ why => "the store is damaged at byte " +:+ show_Z (Z.of_nat at_) +:+ ": " +:+ why
  | Io error => "store file failed: " +:+ io_text error
  end.

Definition vault_error_to_string (self : VaultError.t) : string :=
  match self with
  | VaultError.Sealed => "the vault is sealed"
  | VaultError.AlreadyInitialized => "already initialised"
  | VaultError.NotInitialized => "not initialised"
  | VaultError.UnsealFailed => "those shares do not open this vault"
  | VaultError.UnreadableBarrier why => "the store holds a barrier this build cannot read: " +:+ why
  | VaultError.InitIncomplete =>
    "initialisation could not be completed; remove the data directory and run init again"
  | VaultError.BadShare => "that is not a valid unseal share"
  | VaultError.BadCredentials => "wrong email or password"
  | VaultError.Forbidden => "not allowed"
  | VaultError.NotFound what => "no such " +:+ what
  | VaultError.Conflict what => "that " +:+ what +:+ " already exists"
  | VaultError.Invalid what => "invalid " +:+ what
  | VaultError.ValueTooLarge len limit =>
    "a secret value of " +:+ show_Z len +:+ " bytes exceeds the limit of " +:+ show_Z limit
  | VaultError.Crypto => "a cryptographic operation failed"
  | VaultError.Store error => store_error_to_string error
  end.
End Errors.

(** The [Debug] form of a text, which goes by Unicode's tables of what can be printed. *)
Class DebugText := { debug_text : string → string }.

Section JsonErrors.
Context {DebugI : DebugText}.

Definition json_error_to_string (self : JsonError) : string :=
  match self with
  | UnexpectedEnd => "input ended unexpectedly"
  | Unexpected at_ => "unexpected character at byte " +:+ show_Z (Z.of_nat at_)
  | TrailingContent => "unexpected text after the value"
  | DuplicateKey key => "duplicate object key " +:+ debug_text key
  | TooDeep => "nesting deeper than " +:+ show_Z (Z.of_nat MAX_DEPTH)
  end.
End JsonErrors.
