(* ===== verification/Api.v ===== *)
(** * The HTTP layer of the server

    Models [crates/ls-server/src/api.rs]: routing, request bodies, the bearer token,
    the two limiters in front of the vault, and the translation of results and errors
    into answers. A handler runs on the world and the server's shared state; its error
    is an answer given early. *)

From S2P Require Import Prelude Text Timestamp F64 JsonValue JsonParser World Token Shamir Aead Event State Log.
From S2P Require Import Barrier Validate Password RateLimit Errors Logging Vault Http HttpRequest HttpClient.
From Stdlib Require Import Strings.Byte.

Definition SESSION_SECONDS : Z := 12 * 3600.
Definition CEREMONY_BUDGET : Z := 60.

(** [CARGO_PKG_VERSION], of the workspace manifest. *)
Definition VERSION : string := "0.1.0".

(** The shared state. [poisoned] is the state of the lock around the vault: a request
    panicked while it was held. *)
Record Api := mk_api {
  vault : Vault.t;
  poisoned : bool;
  logins : RateLimiter;
  ceremonies : RateLimiter;
}.

Module Api.

Definition set_vault (v : Vault.t) (self : Api) : Api := mk_api v (poisoned self) (logins self) (ceremonies self).
Definition set_logins (l : RateLimiter) (self : Api) : Api := mk_api (vault self) (poisoned self) l (ceremonies self).
Definition set_ceremonies (l : RateLimiter) (self : Api) : Api := mk_api (vault self) (poisoned self) (logins self) l.

(** The state [handler] starts with. *)
Definition new (v : Vault.t) : Api := mk_api v false RateLimiter.default (RateLimiter.with_budget CEREMONY_BUDGET).

(** ** Answers *)

Definition error_response (status : Z) (message : string) : Response :=
  Response.json status (Value.to_string (Object [("error", Str message)])).

Definition method_not_allowed : Response := error_response 405 "method not allowed".

Definition unseal_body (sealed : bool) (progress : nat) (threshold : Z) : Value :=
  Object [("sealed", Bool sealed); ("progress", Value.from_usize (Z.of_nat progress)); ("threshold", Int threshold)].

(** ** Requests *)

Definition eq_ignore_ascii_case (a b : string) : bool := bool_decide (to_ascii_lowercase a = to_ascii_lowercase b).

(** [split(sep).next().unwrap_or_default()]. *)
Definition before (sep : byte) (s : string) : string := default "" (head (split sep s)).

(** The host without its port; [None] when a bracket is left open. *)
Definition host_name (host : string) : option string :=
  match strip_prefix "[" host with
  | Some rest => fst <$> split_once "]" rest
  | None => Some (before ":" host)
  end.

Definition is_this_machine (host : string) : bool :=
  match host_name (to_ascii_lowercase (trim host)) with
  | None => false
  | Some name =>
    bool_decide (name = "localhost") || bool_decide (name = "127.0.0.1") || bool_decide (name = "::1")
    || starts_with "127." name
  end.

Definition refuse_elsewhere (request : Request) : option Response :=
  let addressed_here := match Request.header request "host" with Some host => is_this_machine host | None => false end in
  let from_a_page := match Request.header request "origin" with
                     | Some origin => negb (bool_decide (origin = "")) && negb (bool_decide (origin = "null"))
                     | None => false
                     end in
  if addressed_here && negb from_a_page then None
  else Some (error_response 421 "this server answers only to its own address").

Definition refuse_cross_origin (request : Request) : option Response :=
  if bool_decide (method request ∈ ["GET"; "HEAD"; "OPTIONS"]) then None else
  let json := match Request.header request "content-type" with
              | Some value => eq_ignore_ascii_case (trim (before ";" value)) "application/json"
              | None => false
              end in
  if json then None
  else Some (error_response 415 "this endpoint needs a content-type of application/json").

Definition bearer (request : Request) : option string :=
  match Request.header request "authorization" ≫= strip_prefix "Bearer " with
  | Some token => let token := trim token in if bool_decide (token = "") then None else Some token
  | None => None
  end.

Definition body_of (request : Request) : result Response Value :=
  if decide (body request = []) then Ok (Object []) else
  let? text := ok_or (Request.body_text request) (error_response 400 "body is not UTF-8") in
  map_err (λ _, error_response 400 "body is not valid JSON") (parse text).

Definition text (body : Value) (name : string) : option string := Value.get_str body name.

(** One of the two parameters: absent is the default, unusable is an error. *)
Definition share_parameter (body : Value) (name : string) : result Response Z :=
  match Value.get body name with
  | None | Some Null => Ok 1
  | Some (Int n) =>
    if in_u8 n then Ok n else Err (error_response 400 "threshold and shares must be between 1 and 255")
  | Some _ => Err (error_response 400 "threshold and shares must be numbers")
  end.

Definition share_parameters (body : Value) : result Response (Z * Z) :=
  let? threshold := share_parameter body "threshold" in
  let? shares := share_parameter body "shares" in
  Ok (threshold, shares).

(** The loop of [set_many] over the pairs of the body. *)
Fixpoint text_entries (pairs : list (string * Value)) : result Response (list (string * string)) :=
  match pairs with
  | [] => Ok []
  | (key, value) :: rest =>
    let? text := ok_or (Value.as_str value) (error_response 400 "every value must be text") in
    map_ok (cons (key, text)) (text_entries rest)
  end.

Section Api.
Context {EnvI : Env} {CipherI : Cipher} {ShaI : Sha256} {ArgonI : Argon2} {TextI : OsText}.

(** ** Handlers *)

(** A handler: an [Err] is an answer returned early. *)
Definition handler (A : Type) : Type := proc (World * Api) Response A.

Definition reads {A} (f : Api → A) : handler A := gets (λ s, f s.2).

(** A line of the log. *)
Definition note (level : Level) (message : string) (fields : list (string * string)) : handler unit :=
  zoom fst (λ w s, (w, s.2)) (Logger.emit (Logger.mk_call level message fields)).

Definition vault_status (error : VaultError.t) : Z :=
  match error with
  | VaultError.Sealed => 503
  | VaultError.AlreadyInitialized | VaultError.Conflict _ => 409
  | VaultError.NotInitialized => 412
  | VaultError.BadCredentials => 401
  | VaultError.Forbidden => 403
  | VaultError.NotFound _ => 404
  | VaultError.UnsealFailed | VaultError.BadShare | VaultError.Invalid _ => 400
  | VaultError.ValueTooLarge _ _ => 413
  | VaultError.UnreadableBarrier _ | VaultError.InitIncomplete | VaultError.Crypto | VaultError.Store _ => 500
  end.

Definition vault_answer (error : VaultError.t) : Response :=
  error_response (vault_status error) (vault_error_to_string error).

Definition vault_error {A} (error : VaultError.t) : handler A :=
  do! (if 500 <=? vault_status error then note Error "request failed" [("reason", vault_error_to_string error)] else ret tt) in
  fail (vault_answer error).

(** Under the lock. A poisoned one is recovered by sealing, so that the state is built
    again from the file. *)
Definition lock : handler unit :=
  let! recovered := reads poisoned in
  if recovered : bool then
    do! note Error "a request panicked mid-operation; sealing to force a rebuild" [] in
    modify (λ s, (s.1, mk_api (Vault.seal (vault s.2)) false (logins s.2) (ceremonies s.2)))
  else ret tt.

Definition on_vault {A} (m : Vault.method A) : proc (World * Api) VaultError.t A :=
  zoom (λ s, (s.1, vault s.2)) (λ wv s, (wv.1, set_vault wv.2 s.2)) m.

(** What is done about an error. *)
Definition rescue {A} (m : proc (World * Api) VaultError.t A) (handle : VaultError.t → handler A) : handler A := λ s,
  match m s with
  | (Ok a, s') => (Ok a, s')
  | (Err error, s') => handle error s'
  end.

(** A call of the vault whose error is answered. *)
Definition call {A} (m : Vault.method A) : handler A := rescue (on_vault m) vault_error.

(** [allow] on one of the limiters. *)
Definition allow (get : Api → RateLimiter) (set : RateLimiter → Api → Api) (key : string) : handler bool := λ s,
  match RateLimiter.allow key (s.1, get s.2) with
  | (Ok granted, (w, l)) => (Ok granted, (w, set l s.2))
  | (Err _, (w, l)) => (Ok false, (w, set l s.2))
  end.

Definition ceremony_allowed : handler bool := allow ceremonies set_ceremonies "sys".

(** [authed]: the bearer's request, with the vault locked. *)
Definition authed (request : Request) (work : Caller.t → handler Response) : handler Response :=
  do! lock in
  let! sealed := reads (λ self, Vault.is_sealed (vault self)) in
  if sealed : bool then fail (error_response 503 "the vault is sealed") else
  let! token := lift (ok_or (bearer request) (error_response 401 "a bearer token is required")) in
  let! caller := call (Vault.authenticate token) in
  match caller with
  | None => fail (error_response 401 "that token is not usable")
  | Some caller => work caller
  end.

(** *** The system *)

Definition health : handler Response :=
  do! lock in
  let! v := reads vault in
  ret (Response.json 200 (Value.to_string (Object
    [("sealed", Bool (Vault.is_sealed v)); ("initialized", Bool (Vault.is_initialized v)); ("version", Str VERSION)]))).

(** What [init] and [unseal] begin with. *)
Definition ceremony_gate (warning : string) : handler unit :=
  let! allowed := ceremony_allowed in
  if negb allowed then
    do! note Warn warning [] in fail (error_response 429 "too many attempts, try again shortly")
  else ret tt.

(** What is left of [init] once the limiter let it through. *)
Definition init_admitted (request : Request) : handler Response :=
  let! body := lift (body_of request) in
  let! (threshold, shares) := lift (share_parameters body) in
  do! lock in
  let! outcome := call (Vault.init threshold shares) in
  do! note Info "vault initialised" [("threshold", show_Z threshold); ("shares", show_Z shares)] in
  ret (Response.json 200 (Value.to_string (Object
    [("shares", Array (Str <$> outcome_shares outcome)); ("threshold", Int (outcome_threshold outcome));
     ("root_token", Str (root_token outcome))]))).

Definition init (request : Request) : handler Response :=
  do! ceremony_gate "init rate limited" in init_admitted request.

Definition rekey (request : Request) : handler Response :=
  let! body := lift (body_of request) in
  let! (threshold, shares) := lift (share_parameters body) in
  authed request (λ caller,
    let! outcome := call (Vault.rekey caller threshold shares) in
    do! note Info "unseal shares re-split" [("threshold", show_Z threshold); ("shares", show_Z shares)] in
    ret (Response.json 200 (Value.to_string (Object
      [("shares", Array (Str <$> outcome_shares outcome)); ("threshold", Int (outcome_threshold outcome))])))).

Definition unseal_admitted (request : Request) : handler Response :=
  let! body := lift (body_of request) in
  do! lock in
  if decide (Value.get_bool body "reset" = Some true) then
    do! modify (λ s, (s.1, set_vault (Vault.reset_unseal (vault s.2)) s.2)) in
    let! v := reads vault in
    ret (Response.json 200 (Value.to_string (unseal_body (Vault.is_sealed v) 0 (default 0 (Vault.threshold v)))))
  else
    let! share := lift (ok_or (text body "share") (error_response 400 "a share is required")) in
    let! status := rescue (on_vault (Vault.submit_share share)) (λ error,
      do! note Warn "unseal attempt failed" [("reason", vault_error_to_string error)] in vault_error error) in
    do! note Info "unseal share accepted"
      [("progress", show_Z (Z.of_nat (progress status))); ("sealed", Logger.bool_text (status_sealed status))] in
    ret (Response.json 200 (Value.to_string
      (unseal_body (status_sealed status) (progress status) (status_threshold status)))).

Definition unseal (request : Request) : handler Response :=
  do! ceremony_gate "unseal rate limited" in unseal_admitted request.

Definition seal (request : Request) : handler Response :=
  authed request (λ caller,
    do! call (Vault.seal_as caller) in
    ret (Response.json 200 (Value.to_string (Object [("sealed", Bool true)])))).

(** *** Users and sessions *)

Definition credentials (body : Value) : result Response (string * string) :=
  match text body "email", text body "password" with
  | Some email, Some password => Ok (email, password)
  | _, _ => Err (error_response 400 "email and password are required")
  end.

Definition create_user (request : Request) : handler Response :=
  let! body := lift (body_of request) in
  let! (email, password) := lift (credentials body) in
  authed request (λ caller,
    let! id := call (Vault.create_user caller email password) in
    do! note Info "user created" [("id", id)] in
    ret (Response.json 201 (Value.to_string (Object [("id", Str id)])))).

(** [login] up to the limiter, under the lock of the vault, and after that. *)
Definition login_gate (request : Request) : handler (string * string) :=
  let! body := lift (body_of request) in
  let! (email, password) := lift (credentials body) in
  let! allowed := allow logins set_logins email in
  if negb allowed then
    do! note Warn "login rate limited" [("email", email)] in
    fail (error_response 429 "too many attempts, try again shortly")
  else ret (email, password).

Definition login_admitted (email password : string) : handler string :=
  do! lock in
  rescue (on_vault (Vault.login email password SESSION_SECONDS)) (λ error,
    do! note Warn "login" [("email", email); ("outcome", "refused")] in vault_error error).

Definition login_done (email token : string) : handler Response :=
  do! modify (λ s, (s.1, set_logins (RateLimiter.succeeded email (logins s.2)) s.2)) in
  do! note Info "login" [("email", email); ("outcome", "ok")] in
  ret (Response.json 200 (Value.to_string (Object [("token", Str token)]))).

Definition login (request : Request) : handler Response :=
  let! (email, password) := login_gate request in
  let! token := login_admitted email password in
  login_done email token.

Definition logout (request : Request) : handler Response :=
  authed request (λ caller,
    do! call (Vault.revoke_token caller (Caller.token_id caller)) in
    ret (Response.json 200 (Value.to_string (Object [("ok", Bool true)])))).

Definition issue_token (request : Request) : handler Response :=
  let! body := lift (body_of request) in
  let! (project, environment) := lift
    (match text body "project", text body "environment" with
     | Some project, Some environment => Ok (project, environment)
     | _, _ => Err (error_response 400 "project and environment are required")
     end) in
  let label := default "machine" (text body "label") in
  let ttl := Value.get_i64 body "ttl_seconds" in
  authed request (λ caller,
    let! token := call (Vault.issue_machine_token caller project environment label ttl) in
    let! holder := call (Vault.authenticate token) in
    do! note Info "machine token issued" [("project", project); ("environment", environment); ("label", label)] in
    ret (Response.json 201 (Value.to_string (Object
      [("token", Str token); ("id", Str (default "" (Caller.token_id <$> holder)))])))).

Definition revoke (request : Request) (id : string) : handler Response :=
  authed request (λ caller,
    do! call (Vault.revoke_token caller id) in
    ret (Response.new 204 [])).

(** *** Projects and environments *)

(** A listing under one name. *)
Definition listed (name : string) (slugs : list string) : Response :=
  Response.json 200 (Value.to_string (Object [(name, Array (Str <$> slugs))])).

Definition projects (request : Request) : handler Response :=
  authed request (λ caller,
    let! slugs := call (Vault.try_ (λ v, Vault.project_slugs v caller)) in
    ret (listed "projects" slugs)).

Definition environments (request : Request) (project : string) : handler Response :=
  authed request (λ caller,
    let! slugs := call (Vault.try_ (λ v, Vault.environment_slugs v caller project)) in
    ret (listed "environments" slugs)).

(** The [slug] and the [name] of a body. *)
Definition named (body : Value) : result Response (string * string) :=
  let? slug := ok_or (text body "slug") (error_response 400 "a slug is required") in
  Ok (slug, default slug (text body "name")).

Definition created (id slug : string) : Response :=
  Response.json 201 (Value.to_string (Object [("id", Str id); ("slug", Str slug)])).

Definition create_project (request : Request) : handler Response :=
  let! body := lift (body_of request) in
  let! (slug, name) := lift (named body) in
  authed request (λ caller,
    let! id := call (Vault.create_project caller slug name) in
    do! note Info "project created" [("slug", slug)] in
    ret (created id slug)).

Definition create_environment (request : Request) (project : string) : handler Response :=
  let! body := lift (body_of request) in
  let! (slug, name) := lift (named body) in
  authed request (λ caller,
    let! id := call (Vault.create_environment caller project slug name) in
    do! note Info "environment created" [("project", project); ("slug", slug)] in
    ret (created id slug)).

(** *** Secrets *)

(** A stored value as text. *)
Definition value_text (value : list byte) : result VaultError.t string :=
  ok_or (from_utf8 value) (VaultError.Invalid "stored value is not text").

Definition get_secret (request : Request) (project environment key : string) : handler Response :=
  authed request (λ caller,
    let! value := call (Vault.get_secret caller project environment key) in
    let! text := rescue (lift (value_text value)) vault_error in
    ret (Response.json 200 (Value.to_string (Object [("key", Str key); ("value", Str text)])))).

Definition put_secret (request : Request) (project environment key : string) : handler Response :=
  let! body := lift (body_of request) in
  let! value := lift (ok_or (text body "value") (error_response 400 "a value is required")) in
  authed request (λ caller,
    do! call (Vault.set_secret caller project environment key (as_bytes value)) in
    ret (Response.new 204 [])).

Definition delete_secret (request : Request) (project environment key : string) : handler Response :=
  authed request (λ caller,
    do! call (Vault.delete_secret caller project environment key) in
    ret (Response.new 204 [])).

(** The two loops of [set_many]. *)
Fixpoint check_all (caller : Caller.t) (project environment : string) (entries : list (string * string)) : handler unit :=
  match entries with
  | [] => ret tt
  | (key, value) :: rest =>
    do! call (Vault.try_ (λ v, Vault.check_secret v caller project environment key (as_bytes value))) in
    check_all caller project environment rest
  end.

Fixpoint set_all (caller : Caller.t) (project environment : string) (entries : list (string * string)) : handler unit :=
  match entries with
  | [] => ret tt
  | (key, value) :: rest =>
    do! call (Vault.set_secret caller project environment key (as_bytes value)) in
    set_all caller project environment rest
  end.

Definition set_many (request : Request) (project environment : string) : handler Response :=
  let! body := lift (body_of request) in
  let! pairs := lift (match Value.get body "secrets" with
                      | Some (Object pairs) => Ok pairs
                      | _ => Err (error_response 400 "secrets must be an object of key to value")
                      end) in
  let! entries := lift (text_entries pairs) in
  authed request (λ caller,
    do! check_all caller project environment entries in
    do! set_all caller project environment entries in
    ret (Response.new 204 [])).

(** The loop of [list_secrets]. *)
Fixpoint text_fields (secrets : list (string * list byte)) : result VaultError.t (list (string * Value)) :=
  match secrets with
  | [] => Ok []
  | (key, value) :: rest =>
    let? text := value_text value in
    map_ok (cons (key, Str text)) (text_fields rest)
  end.

Definition list_secrets (request : Request) (project environment : string) : handler Response :=
  authed request (λ caller,
    let! secrets := call (Vault.list_secrets caller project environment) in
    let! fields := rescue (lift (text_fields secrets)) vault_error in
    ret (Response.json 200 (Value.to_string (Object [("secrets", Object fields)])))).

Definition audit_value (entry : AuditEntry) : Value :=
  Object [("at", Str (Timestamp.to_rfc3339 (audit_at entry))); ("actor", Str (audit_actor entry));
          ("action", Str (audit_action entry)); ("target", Str (audit_target entry));
          ("outcome", Str (audit_outcome entry))].

Definition audit (request : Request) : handler Response :=
  authed request (λ caller,
    let! entries := call (Vault.audit_trail caller) in
    ret (Response.json 200 (Value.to_string (Object [("entries", Array (audit_value <$> entries))])))).

(** ** Routing *)

Definition only (method expected : string) (work : handler Response) : handler Response :=
  if bool_decide (method = expected) then work else ret method_not_allowed.

(** The parts of a path. *)
Definition segments (path : string) : list string :=
  List.filter (λ part, negb (bool_decide (part = ""))) (split "/" path).

(** What an address names, whatever is done there. *)
Inductive place :=
| Health | Init | Unseal | Rekey | Seal | Users | Login | Logout | Audit | Tokens
| OneToken (id : string)
| Projects
| Environments (project : string)
| Secrets (project environment : string)
| OneSecret (project environment key : string).

Definition locate (segments : list string) : option place :=
  match segments with
  | [v1; a; b] =>
    if negb (bool_decide (v1 = "v1")) then None
    else if bool_decide (a = "sys" ∧ b = "health") then Some Health
    else if bool_decide (a = "sys" ∧ b = "init") then Some Init
    else if bool_decide (a = "sys" ∧ b = "unseal") then Some Unseal
    else if bool_decide (a = "sys" ∧ b = "rekey") then Some Rekey
    else if bool_decide (a = "sys" ∧ b = "seal") then Some Seal
    else if bool_decide (a = "auth" ∧ b = "login") then Some Login
    else if bool_decide (a = "auth" ∧ b = "logout") then Some Logout
    else if bool_decide (a = "tokens") then Some (OneToken b)
    else None
  | [v1; a] =>
    if negb (bool_decide (v1 = "v1")) then None
    else if bool_decide (a = "users") then Some Users
    else if bool_decide (a = "audit") then Some Audit
    else if bool_decide (a = "tokens") then Some Tokens
    else if bool_decide (a = "projects") then Some Projects
    else None
  | [v1; a; project; b] =>
    if bool_decide (v1 = "v1" ∧ a = "projects" ∧ b = "envs") then Some (Environments project) else None
  | [v1; a; project; b; environment; c] =>
    if bool_decide (v1 = "v1" ∧ a = "projects" ∧ b = "envs" ∧ c = "secrets")
    then Some (Secrets project environment) else None
  | [v1; a; project; b; environment; c; key] =>
    if bool_decide (v1 = "v1" ∧ a = "projects" ∧ b = "envs" ∧ c = "secrets")
    then Some (OneSecret project environment key) else None
  | _ => None
  end.

Definition dispatch (request : Request) (place : place) : handler Response :=
  let m := method request in
  match place with
  | Health => only m "GET" health
  | Init => only m "POST" (init request)
  | Unseal => only m "POST" (unseal request)
  | Rekey => only m "POST" (rekey request)
  | Seal => only m "POST" (seal request)
  | Users => only m "POST" (create_user request)
  | Login => only m "POST" (login request)
  | Logout => only m "POST" (logout request)
  | Audit => only m "GET" (audit request)
  | Tokens => only m "POST" (issue_token request)
  | OneToken id => only m "DELETE" (revoke request id)
  | Projects =>
    if bool_decide (m = "GET") then projects request
    else if bool_decide (m = "POST") then create_project request
    else ret method_not_allowed
  | Environments project =>
    if bool_decide (m = "GET") then environments request project
    else if bool_decide (m = "POST") then create_environment request project
    else ret method_not_allowed
  | Secrets project environment =>
    if bool_decide (m = "GET") then list_secrets request project environment
    else if bool_decide (m = "POST") then set_many request project environment
    else ret method_not_allowed
  | OneSecret project environment key =>
    if bool_decide (m = "GET") then get_secret request project environment key
    else if bool_decide (m = "PUT") then put_secret request project environment key
    else if bool_decide (m = "DELETE") then delete_secret request project environment key
    else ret method_not_allowed
  end.

Definition route (request : Request) : handler Response :=
  match refuse_elsewhere request with
  | Some refusal => ret refusal
  | None =>
    match refuse_cross_origin request with
    | Some refusal => ret refusal
    | None =>
      match locate (segments (path request)) with
      | Some place => dispatch request place
      | None => ret (error_response 404 "not found")
      end
    end
  end.

(** The last line about a request. *)
Definition conclude (request : Request) (answer : Response) (s : World * Api) : Response * (World * Api) :=
  (answer, (note Info "request"
    [("method", method request); ("path", path request); ("status", show_Z (HttpClient.status answer))] s).2).

(** The answer, however the handler came to it, and the state it leaves. *)
Definition respond (request : Request) (s : World * Api) : Response * (World * Api) :=
  match route request s with
  | (Ok answer, s') | (Err answer, s') => conclude request answer s'
  end.
End Api.
End Api.
