(* ===== verification/ApiSpec.v ===== *)
(** * What the HTTP layer keeps

    Every handler of [Api] preserves the invariant of the vault underneath, whatever
    the request, and answers with a document. [keeps] is the judgement; its rules follow
    the combinators the handlers are written with. *)

From S2P Require Import Prelude Text Encoding Timestamp F64 JsonValue JsonParser World Token Shamir Aead Event State Log.
From S2P Require Import LogSpec Barrier Validate Password RateLimit Errors Logging Vault VaultSpec VaultSecrets VaultAccess VaultServer.
From S2P Require Import Http HttpRequest HttpAccept HttpClient HttpExchange Api.
From Stdlib Require Import Strings.Byte.

(** ** Parts of a text *)

Lemma split_at_byte_prefix sep x l :
  sep ∉ x → ∃ piece rest, split_at_byte sep l = piece :: rest ∧ split_at_byte sep (x ++ l) = (x ++ piece) :: rest.
Proof.
  induction x as [|b x IH]; intros H.
  - destruct (split_at_byte sep l) as [|piece rest] eqn:E; [|by exists piece, rest].
    destruct l as [|c l]; cbn in E; [done|]. case_decide; [done|]. by destruct (split_at_byte sep l).
  - apply not_elem_of_cons in H as [Hb H]. destruct (IH H) as (piece & rest & E & E'). exists piece, rest. split; [done|].
    cbn [app split_at_byte]. rewrite decide_False by done. by rewrite E'.
Qed.

(** The pieces of a text cut at an ASCII separator are texts. *)
Lemma split_utf8 sep l : is_ascii sep = true → Value.utf8 l → Forall Value.utf8 (split_at_byte sep l).
Proof.
  intros Hsep [cs Hcs]. apply decode_sound in Hcs as [Hs ->]. induction cs as [|c cs IH].
  - by repeat constructor; eexists.
  - cbn [forallb] in Hs. apply andb_prop in Hs as [Hc Hs]. rewrite encode_chars_cons. specialize (IH Hs).
    assert (Value.utf8 (encode_char c)) as Hu.
    { exists [c]. rewrite <- (app_nil_r (encode_char c)). apply (decode_encode [c]). cbn [forallb]. by rewrite Hc. }
    destruct (decide (encode_char c = [sep])) as [->|Hne].
    + cbn [app split_at_byte]. rewrite decide_True by done. constructor; [by eexists|done].
    + assert (sep ∉ encode_char c) as Hnin.
      { destruct (Z.lt_ge_cases c 0x80); [|by apply Parser.encode_char_high]. unfold encode_char in *.
        rewrite (proj2 (Z.ltb_lt _ _)) in * by done. intros Hin%list_elem_of_singleton. congruence. }
      destruct (split_at_byte_prefix sep (encode_char c) (encode_chars cs) Hnin) as (piece & rest & E & ->).
      rewrite E in IH. apply Forall_cons in IH as [Hp Hr]. constructor; [by apply Value.utf8_app|done].
Qed.

Lemma utf8_str l : Value.utf8 l ↔ is_str (of_bytes l) = true.
Proof. unfold Value.utf8, is_str. rewrite as_bytes_of_bytes. destruct (decode l); split; [done|by eexists|by intros []|done]. Qed.

Lemma split_str sep s : is_ascii sep = true → is_str s = true → Forall (λ part, is_str part = true) (split sep s).
Proof.
  intros Hsep Hs. unfold split. rewrite Forall_fmap. eapply Forall_impl; [apply split_utf8; [done|]|].
  - apply utf8_str. by rewrite of_bytes_as_bytes.
  - intros l. apply utf8_str.
Qed.

(** ** What operations return *)

Module Returns.
Import Vault.

Section Returns.
Context {EnvI : Env} {CipherI : Cipher} {ShaI : Sha256} {ArgonI : Argon2} {TextI : OsText}.

(** Whatever [m] returns is [P]. *)
Definition gives {S E A} (m : proc S E A) (P : A → Prop) : Prop := ∀ s a s', m s = (Ok a, s') → P a.

Lemma gives_ret {S E A} (a : A) (P : A → Prop) : P a → gives (S := S) (E := E) (ret a) P.
Proof. by intros H s b s' [= <- _]. Qed.

Lemma gives_fail {S E A} e (P : A → Prop) : gives (S := S) (E := E) (fail e) P.
Proof. by intros s a s'. Qed.

Lemma gives_bind {S E A B} (m : proc S E A) (k : A → proc S E B) (R : A → Prop) P :
  gives m R → (∀ a, R a → gives (k a) P) → gives (bind m k) P.
Proof. intros Hm Hk s b s' (a & s1 & H1 & H2)%bind_ok. eapply Hk; [|exact H2]. by eapply Hm. Qed.

Lemma gives_then {S E A B} (m : proc S E A) (k : A → proc S E B) P :
  (∀ a, gives (k a) P) → gives (bind m k) P.
Proof. intros H. apply (gives_bind _ _ (λ _, True)); [by intros s a s'|]. intros a _. apply H. Qed.

Lemma gives_map_perr {S E F A} (f : E → F) (m : proc S E A) P : gives m P → gives (map_perr f m) P.
Proof. intros H s a s'. unfold map_perr. destruct (m s) as [[b|e] s1] eqn:E1; [|done]. intros [= -> _]. by eapply H. Qed.

Lemma gives_zoom {S T E A} (get : S → T) (set : T → S → S) (m : proc T E A) P : gives m P → gives (zoom get set m) P.
Proof. intros H s a s'. unfold zoom. destruct (m (get s)) as [r t] eqn:E1. intros [= -> _]. by eapply H. Qed.

Lemma id_text : gives new_id (λ id, is_str id = true).
Proof. apply gives_then. intros bytes. apply gives_ret, is_str_hex. Qed.

Lemma secret_text : gives (crypto token.generate) (λ t, is_str (token.secret t) = true).
Proof.
  apply gives_zoom, gives_map_perr, gives_then. intros bytes. apply gives_ret. cbn [token.secret].
  apply is_str_app; [done|]. apply is_str_ascii. apply forallb_forall. intros c Hc.
  pose proof (b64.encode_alphabet bytes) as H. rewrite Forall_forall in H. apply list_elem_of_In, H in Hc.
  by apply shamir.alphabet_plain in Hc as [? _].
Qed.

Ltac gives_step :=
  lazymatch goal with
  | |- gives (fail _) _ => apply gives_fail
  | |- gives (bind new_id _) _ => apply (gives_bind _ _ _ _ id_text); intros ? ?
  | |- gives (bind (crypto token.generate) _) _ => apply (gives_bind _ _ _ _ secret_text); intros ? ?
  | |- gives (bind _ _) _ => apply gives_then; intros ?
  | |- gives (match ?x with _ => _ end) _ => destruct x
  end.

Lemma create_user_text c email pw : gives (create_user c email pw) (λ id, is_str id = true).
Proof. unfold create_user. repeat gives_step. by apply gives_ret. Qed.

Lemma issue_token_text kind u pr en label ttl : gives (issue_token kind u pr en label ttl) (λ t, is_str t = true).
Proof. unfold issue_token. repeat gives_step. by apply gives_ret. Qed.

Lemma login_text email pw ttl : gives (login email pw ttl) (λ t, is_str t = true).
Proof. unfold login. repeat gives_step. apply issue_token_text. Qed.

Lemma issue_machine_token_text c ps es label ttl : gives (issue_machine_token c ps es label ttl) (λ t, is_str t = true).
Proof. unfold issue_machine_token. do 3 gives_step. apply gives_then. intros [p e]. apply issue_token_text. Qed.

Lemma create_project_text c slug name : gives (create_project c slug name) (λ id, is_str id = true).
Proof. unfold create_project. repeat gives_step. by apply gives_ret. Qed.

Lemma create_environment_text c ps slug name : gives (create_environment c ps slug name) (λ id, is_str id = true).
Proof. unfold create_environment. repeat gives_step. by apply gives_ret. Qed.

(** What [init] and [rekey] hand out is text. *)
Definition outcome_text (threshold : Z) (out : InitOutcome) : Prop :=
  Forall (λ share, is_str share = true) (outcome_shares out)
  ∧ outcome_threshold out = threshold ∧ is_str (root_token out) = true.

Lemma shares_text shares : Forall (λ share, is_str share = true) (shamir.to_string <$> shares).
Proof. rewrite Forall_fmap. apply Forall_true. intros s. apply is_str_ascii, shamir.to_string_ascii. Qed.

Lemma init_text t n : gives (init t n) (outcome_text t).
Proof. unfold init. repeat gives_step. apply gives_ret. split; [apply shares_text|done]. Qed.

Lemma rekey_text c t n : gives (rekey c t n) (outcome_text t).
Proof. unfold rekey. repeat gives_step. apply gives_ret. split; [apply shares_text|done]. Qed.

Definition entry_text (e : AuditEntry) : Prop :=
  Timestamp.wf (audit_at e) ∧ is_str (audit_actor e) = true ∧ is_str (audit_action e) = true
  ∧ is_str (audit_target e) = true ∧ is_str (audit_outcome e) = true.

Lemma audit_entries_text records : Forall entry_text (audit_entries records).
Proof.
  induction records as [|r records IH]; [constructor|]. cbn [audit_entries]. destruct (negb (sealed r)); [done|].
  destruct (Event.from_bytes (payload r)) as [e|] eqn:E; [|done]. apply from_bytes_wf in E.
  destruct e; try done. by constructor.
Qed.

Lemma audit_trail_text c : gives (audit_trail c) (Forall entry_text).
Proof. unfold audit_trail. repeat gives_step. apply gives_ret, audit_entries_text. Qed.
End Returns.
End Returns.

(** ** The judgement *)

Module ApiSpec.
Import VaultSpec VaultSecrets VaultAccess Server Returns Api.

(** An answer that is a JSON document, or an empty one. *)
Definition document (r : Response) : Prop :=
  200 <= HttpClient.status r <= 599 ∧
  (HttpClient.status r = 204 ∧ response_headers r = [] ∧ response_body r = []
   ∨ response_headers r = [("content-type", "application/json")]
     ∧ ∃ v, response_body r = as_bytes (Value.to_string v) ∧ parse (Value.to_string v) = Ok v).

Lemma document_json status v : 200 <= status <= 599 → plain 8 v → document (Response.json status (Value.to_string v)).
Proof.
  intros Hs Hv. split; [done|]. right. split; [done|]. exists v. split; [done|]. apply (plain_parse 8 v Hv). unfold MAX_DEPTH. lia.
Qed.

Lemma document_empty : document (Response.new 204 []).
Proof. split; [done|]. by left. Qed.

Lemma plain_weaken h h' v : plain h v → (h ≤ h')%nat → plain h' v.
Proof. intros (? & ? & ?) ?. split_and!; [done|done|lia]. Qed.

Lemma plain_array h items : Forall (plain h) items → plain (S h) (Array items).
Proof.
  intros H. unfold plain. cbn. induction H as [|v items (Hw & Hf & Hh) _ (IHw & IHf & IHh)]; cbn in *; [split_and!; done || lia|].
  rewrite Hw, Hf, IHw, IHf. split_and!; done || lia.
Qed.

Lemma plain_texts h texts : Forall (λ s, is_str s = true) texts → plain (S h) (Array (Str <$> texts)).
Proof. intros H. apply plain_array. rewrite Forall_fmap. eapply Forall_impl; [exact H|]. intros s. apply plain_str. Qed.

Lemma plain_bool h b : plain h (Bool b).
Proof. split_and!; [done|done|cbn; lia]. Qed.

#[local] Hint Resolve plain_texts plain_bool : plain.

(** Whatever an error says, the document with it can be read. *)
Lemma document_error status message : 200 <= status <= 599 → document (error_response status message).
Proof.
  intros Hs. unfold error_response.
  assert (Value.to_string (Object [("error", Str message)]) = Value.to_string (Object [("error", Str (of_chars (chars message)))])) as ->.
  { unfold Value.to_string. cbn [Value.render map fst snd]. unfold Value.write_string.
    by rewrite (chars_of_chars (chars message)) by apply chars_scalar. }
  apply document_json; [done|]. pose proof (is_str_of_chars _ (chars_scalar message)). plain_fields.
Qed.

(** ** Steps of a handler *)

Section Steps.
Context {EnvI : Env} {CipherI : Cipher} {ShaI : Sha256} {ArgonI : Argon2} {TextI : OsText}.

Lemma note_disk level message fields w self :
  ∃ w', note level message fields (w, self) = (Ok tt, (w', self)) ∧ disk w' = disk w.
Proof.
  unfold note, zoom. cbn [fst]. destruct (Logger.emit_line (E := Response) (Logger.mk_call level message fields) w) as (w' & -> & Hd & _).
  by exists w'.
Qed.

Lemma wp_note {A} level message fields (k : handler A) P Q w self :
  (∀ w', disk w' = disk w → wp k P Q (w', self)) → wp (do! note level message fields in k) P Q (w, self).
Proof. intros H. apply wp_bind. unfold wp at 1. destruct (note_disk level message fields w self) as (w' & -> & Hd). by apply H. Qed.

Lemma wp_vault_error {A} e P Q w self :
  (∀ w', disk w' = disk w → Q (vault_answer e) (w', self)) → wp (vault_error (A := A) e) P Q (w, self).
Proof.
  intros H. unfold vault_error. destruct (500 <=? vault_status e).
  - apply wp_note. intros w' Hd. by apply wp_fail, H.
  - apply wp_bind, wp_ret, wp_fail. by apply H.
Qed.

Lemma wp_rescue {A} (m : proc (World * Api) VaultError.t A) handle P Q s :
  wp m P (λ e, wp (handle e) P Q) s → wp (rescue m handle) P Q s.
Proof. unfold wp at 1, wp at 2, rescue. by destruct (m s) as [[a|e] s']. Qed.

(** A call of the vault. *)
Lemma wp_vault_call_or {A} (m : Vault.method A) handle P Q w self :
  wp m (λ a wv, P a (wv.1, set_vault wv.2 self)) (λ e wv, wp (handle e) P Q (wv.1, set_vault wv.2 self)) (w, vault self) →
  wp (rescue (on_vault m) handle) P Q (w, self).
Proof. intros H. apply wp_rescue, wp_zoom. exact H. Qed.

Lemma wp_vault_call {A} (m : Vault.method A) P Q w self :
  wp m (λ a wv, P a (wv.1, set_vault wv.2 self))
    (λ e wv, ∀ w', disk w' = disk wv.1 → Q (vault_answer e) (w', set_vault wv.2 self)) (w, vault self) →
  wp (call m) P Q (w, self).
Proof.
  intros H. apply wp_vault_call_or. eapply wp_mono; [exact H|..]; cbv beta; [done|]. intros e wv He. by apply wp_vault_error.
Qed.

(** The state under the lock. *)
Definition relocked (self : Api) : Api :=
  if poisoned self then mk_api (Vault.seal (vault self)) false (logins self) (ceremonies self) else self.

Lemma lock_relocks w self : ∃ w', lock (w, self) = (Ok tt, (w', relocked self)) ∧ disk w' = disk w.
Proof.
  unfold lock, reads, relocked, bind at 1, gets. cbn [snd]. destruct (poisoned self); [|by exists w].
  unfold bind. destruct (note_disk Error "a request panicked mid-operation; sealing to force a rebuild" [] w self) as (w' & -> & Hd).
  by exists w'.
Qed.

Lemma wp_lock {A} (k : handler A) P Q w self :
  (∀ w', disk w' = disk w → wp k P Q (w', relocked self)) → wp (do! lock in k) P Q (w, self).
Proof. intros H. apply wp_bind. unfold wp at 1. destruct (lock_relocks w self) as (w' & -> & Hd). by apply H. Qed.

(** What holds of an answer and the state behind it, but for the last line of the log. *)
Lemma respond_cases request s (P : Response → World * Api → Prop) :
  (let Q := λ r s', ∀ w', disk w' = disk s'.1 → P r (w', s'.2) in wp (route request) Q Q s) →
  P (respond request s).1 (respond request s).2.
Proof.
  unfold wp, respond, conclude. destruct (route request s) as [[r|r] [w self]]; cbn [fst snd]; intros H;
    match goal with |- context [note ?l ?m ?f _] => destruct (note_disk l m f w self) as (w' & -> & Hd) end; by apply H.
Qed.

Lemma document_vault_answer e : document (vault_answer e).
Proof. apply document_error. by destruct e. Qed.
End Steps.

Section Keeps.
Context {EnvI : Env} {CipherI : Cipher} {LawsI : CipherLaws} {ShaI : Sha256}.
Context {ArgonI : Argon2} {ArgonLawsI : password.Argon2Laws} {TextI : OsText}.
Variables (p : string).
Hypothesis (Hext : Log.with_extension p "compacting" ≠ p).

(** The invariant while a request holds the lock: it is not poisoned, and the vault is
    one that [VaultServer] allows. *)
Definition locked (s : World * Api) : Prop := poisoned s.2 = false ∧ vault_ok p (s.1, vault s.2).

(** The invariant between requests: of a vault left behind by a panic nothing is known but
    that its log is the file's, and sealed it is sound. *)
Definition api_ok (s : World * Api) : Prop :=
  if poisoned s.2 then vault_ok p (s.1, Vault.seal (vault s.2)) else vault_ok p (s.1, vault s.2).

Lemma locked_ok s : locked s → api_ok s.
Proof. intros [H Hok]. unfold api_ok. by rewrite H. Qed.

(** [m] keeps [I], returns [P], and answers early with documents only. *)
Definition keeps (I : World * Api → Prop) {A} (m : handler A) (P : A → Prop) : Prop := ∀ s,
  I s → wp m (λ a s', I s' ∧ P a) (λ r s', I s' ∧ document r) s.

Lemma vault_ok_tick w w' v : disk w' = disk w → vault_ok p (w, v) → vault_ok p (w', v).
Proof.
  intros Hd [H|[[b H]|(master & evs & H)]]; [left|right; left; exists b|right; right; exists master, evs].
  - by eapply fresh_disk.
  - by eapply closed_disk.
  - by eapply live_disk.
Qed.

(** What a line of the log leaves alone. *)
Definition unlogged (I : World * Api → Prop) : Prop := ∀ w w' self, disk w' = disk w → I (w, self) → I (w', self).

Lemma unlogged_locked : unlogged locked.
Proof. intros w w' self Hd [Hp Hv]. split; [done|]. by eapply vault_ok_tick. Qed.

Lemma unlogged_api_ok : unlogged api_ok.
Proof. intros w w' self Hd. unfold api_ok. cbn [fst snd]. destruct (poisoned self); by apply vault_ok_tick. Qed.

#[local] Hint Resolve unlogged_locked unlogged_api_ok : core.

Section Rules.
Context {I : World * Api → Prop}.

Lemma keeps_return {A} (a : A) (P : A → Prop) : P a → keeps I (ret a) P.
Proof. by intros H s Hs. Qed.

Lemma keeps_early {A} r (P : A → Prop) : document r → keeps I (fail r) P.
Proof. by intros H s Hs. Qed.

Lemma keeps_step {A B} (m : handler A) (k : A → handler B) (R : A → Prop) P :
  keeps I m R → (∀ a, R a → keeps I (k a) P) → keeps I (bind m k) P.
Proof.
  intros Hm Hk s Hs. apply wp_bind. eapply wp_mono; [by apply Hm|..]; cbv beta; [|done]. intros a s' [Hs' Ha]. by apply Hk.
Qed.

Lemma keeps_result {A} (m : result Response A) (P : A → Prop) :
  (∀ a, m = Ok a → P a) → (∀ r, m = Err r → document r) → keeps I (lift m) P.
Proof. intros HP Hr s Hs. unfold wp, lift. destruct m; split; auto. Qed.

Lemma keeps_reads {A} (f : Api → A) : keeps I (reads f) (λ _, True).
Proof. by intros s Hs. Qed.

Lemma keeps_note {A} level message fields (k : handler A) P :
  unlogged I → keeps I k P → keeps I (do! note level message fields in k) P.
Proof. intros HI Hk [w self] Hs. apply wp_note. intros w' Hd. apply Hk. by eapply HI. Qed.

Lemma keeps_vault_error {A} e (P : A → Prop) : unlogged I → keeps I (vault_error e) P.
Proof. intros HI [w self] Hs. apply wp_vault_error. intros w' Hd. split; [by eapply HI|apply document_vault_answer]. Qed.

Lemma keeps_rescue {A} (m : result VaultError.t A) (P : A → Prop) :
  unlogged I → (∀ a, m = Ok a → P a) → keeps I (rescue (lift m) vault_error) P.
Proof.
  intros HI HP s Hs. apply wp_rescue, wp_lift; [intros a Ha; by split; [|apply HP]|]. intros e _. by apply keeps_vault_error.
Qed.
End Rules.

(** Taking the lock. *)
Lemma keeps_lock {A} (k : handler A) P : keeps locked k P → keeps api_ok (do! lock in k) P.
Proof.
  intros Hk [w self] Hs. apply wp_lock. intros w' Hd. eapply wp_mono; [apply Hk|..]; cbv beta.
  - apply (unlogged_api_ok _ w' _ Hd) in Hs. unfold locked, api_ok, relocked in *. cbn [fst snd] in *.
    destruct (poisoned self) eqn:E; [done|by rewrite E].
  - intros a s' [H HP]. split; [by apply locked_ok|done].
  - intros r s' [H HP]. split; [by apply locked_ok|done].
Qed.

Lemma keeps_allow get set key :
  (∀ l self, vault (set l self) = vault self ∧ poisoned (set l self) = poisoned self) → keeps api_ok (allow get set key) (λ _, True).
Proof.
  intros Hset [w self] Hs. unfold wp, allow, RateLimiter.allow, now. cbn.
  destruct (RateLimiter.allow_at _ _ _) as [granted l]. split; [|done]. unfold api_ok in *. cbn [fst snd] in *.
  destruct (Hset l self) as [-> ->]. destruct (poisoned self); (eapply vault_ok_tick; [|exact Hs]; done).
Qed.

(** ** Calls of the vault *)

(** A call that is a request of [VaultServer] keeps the invariant. *)
Lemma handle_ok r s : vault_ok p s → valid r → vault_ok p (handle r s).
Proof.
  destruct s as [w v]. intros Hs Hv. destruct (Vault.root_key v) as [root|] eqn:Hr; [|by apply sealed_vault_handle].
  destruct Hs as [(H & _)|[(b & H & _)|(m & evs & H)]]; [cbn in H; congruence..|]. by eapply live_handle.
Qed.

Lemma keeps_call_or {A} (m : Vault.method A) (handle : VaultError.t → handler A) (P : A → Prop) :
  (∀ w v, vault_ok p (w, v) → vault_ok p (m (w, v)).2 ∧ ∀ a, (m (w, v)).1 = Ok a → P a) →
  (∀ e, keeps locked (handle e) P) → keeps locked (rescue (on_vault m) handle) P.
Proof.
  intros Hm Hh [w self] [Hpo Hs]. apply wp_vault_call_or. destruct (Hm _ _ Hs) as [Hok HP]. cbn [fst snd] in *.
  unfold wp at 1. destruct (m (w, vault self)) as [[a|e] [w' v']]; [|by apply Hh].
  split; [by split|]. by apply HP.
Qed.

Lemma keeps_call_that {A} (m : Vault.method A) (P : A → Prop) :
  (∀ w v, vault_ok p (w, v) → vault_ok p (m (w, v)).2 ∧ ∀ a, (m (w, v)).1 = Ok a → P a) → keeps locked (call m) P.
Proof. intros Hm. apply keeps_call_or; [done|]. intros e. by apply keeps_vault_error. Qed.

Lemma served_call {A} (m : Vault.method A) r (P : A → Prop) :
  (∀ s, handle r s = (m s).2) → valid r → gives m P →
  ∀ w v, vault_ok p (w, v) → vault_ok p (m (w, v)).2 ∧ ∀ a, (m (w, v)).1 = Ok a → P a.
Proof.
  intros Hh Hv Hg w v Hs. split; [rewrite <- Hh; by apply handle_ok|]. intros a Ha. specialize (Hg (w, v) a).
  destruct (m (w, v)) as [r' s']. cbn in Ha. subst r'. by eapply Hg.
Qed.

Lemma keeps_call {A} (m : Vault.method A) r (P : A → Prop) :
  (∀ s, handle r s = (m s).2) → valid r → gives m P → keeps locked (call m) P.
Proof. intros Hh Hv Hg. apply keeps_call_that. by eapply served_call. Qed.

Lemma keeps_call_any {A} (m : Vault.method A) r :
  (∀ s, handle r s = (m s).2) → valid r → keeps locked (call m) (λ _, True).
Proof. intros Hh Hv. by apply (keeps_call m r). Qed.

(** A question to the vault, which changes nothing. *)
Lemma keeps_ask {A} (f : Vault.t → result VaultError.t A) (P : A → Prop) :
  (∀ w v a, vault_ok p (w, v) → f v = Ok a → P a) → keeps locked (call (Vault.try_ f)) P.
Proof. intros HP. apply keeps_call_that. intros w v Hs. split; [done|]. intros a. by eapply HP. Qed.

Lemma who_ok w v presented at_ c : vault_ok p (w, v) → who v presented at_ = Some c → caller_ok c.
Proof.
  intros Hok. unfold who. destruct (Vault.is_sealed v || _) eqn:E; [done|]. apply orb_false_elim in E as [E _].
  destruct Hok as [(H & _)|[(b & H & _)|(m & evs & H)]]; [unfold Vault.is_sealed in E; cbn in H; by rewrite H in E..|].
  apply live_state_ok in H as (_ & Ht & _). cbn [snd] in Ht.
  destruct (State.token_by_hash (Vault.state v) _) as [t|] eqn:Ef; [|done]. cbn [mbind option_bind].
  intros (_ & _ & ->)%admits_some. exact (state_find _ _ _ _ Ht Ef).
Qed.

Lemma keeps_authenticate token :
  keeps locked (call (Vault.authenticate token)) (λ caller, match caller with Some c => caller_ok c | None => True end).
Proof.
  apply keeps_call_that. intros w v Hs. destruct (authenticate_who token w v) as (w' & -> & Hd).
  split; [by eapply vault_ok_tick|]. intros caller [= <-]. destruct (who _ _ _) eqn:E; [|done]. by eapply who_ok.
Qed.

Lemma keeps_authed request work :
  (∀ caller, caller_ok caller → keeps locked (work caller) document) → keeps api_ok (authed request work) document.
Proof.
  intros Hw. unfold authed. apply keeps_lock.
  eapply keeps_step; [apply keeps_reads|]. intros sealed _. destruct sealed; [by apply keeps_early, document_error|].
  eapply keeps_step; [apply (keeps_result _ (λ _, True)); [done|]|].
  { intros r. destruct (bearer request); [done|]. intros [= <-]. by apply document_error. }
  intros token _. eapply keeps_step; [apply keeps_authenticate|]. intros [caller|] Hc; [by apply Hw|].
  by apply keeps_early, document_error.
Qed.

(** ** Bodies *)

Lemma json_body_ok request v : body_of request = Ok v → Value.well_formed v = true.
Proof.
  unfold body_of. case_decide; [by intros [= <-]|]. intros (text & _ & Hp)%res_bind_ok.
  apply map_err_ok in Hp. by eapply parse_well_formed.
Qed.

Lemma json_body_err request r : body_of request = Err r → document r.
Proof.
  unfold body_of. case_decide; [done|]. destruct (Request.body_text request) as [text|]; cbn [ok_or res_bind].
  - destruct (parse text); [done|]. intros [= <-]. by apply document_error.
  - intros [= <-]. by apply document_error.
Qed.

Lemma keeps_body {I : World * Api → Prop} request {B} (k : Value → handler B) P :
  (∀ body, Value.well_formed body = true → keeps I (k body) P) → keeps I (bind (lift (body_of request)) k) P.
Proof. intros H. eapply keeps_step; [apply (keeps_result _ _ (json_body_ok request) (json_body_err request))|exact H]. Qed.

Lemma get_wf body name v : Value.well_formed body = true → Value.get body name = Some v → Value.well_formed v = true.
Proof.
  destruct body as [| | | | | |fields]; try done. cbn. intros [_ Hf]%andb_prop.
  destruct (List.find _ fields) as [f|] eqn:E; [|done]. intros [= <-]. apply find_some in E as [E _].
  rewrite forallb_forall in Hf. by apply Hf, andb_prop in E as [_ ?].
Qed.

Lemma text_wf body name s : Value.well_formed body = true → text body name = Some s → is_str s = true.
Proof.
  intros Hb. unfold text, Value.get_str. destruct (Value.get body name) as [v|] eqn:E; [|done]. cbn.
  apply (get_wf _ _ _ Hb) in E. destruct v; try done. by intros [= <-].
Qed.

(** A parameter that is missing or will not do is answered with an error. *)
Lemma keeps_lift_or {I : World * Api → Prop} {A B} (m : result Response A) (R : A → Prop) (k : A → handler B) P :
  (∀ a, m = Ok a → R a) → (∀ r, m = Err r → ∃ status message, 200 <= status <= 599 ∧ r = error_response status message) →
  (∀ a, R a → keeps I (k a) P) → keeps I (bind (lift m) k) P.
Proof.
  intros HR He Hk. eapply keeps_step; [|exact Hk]. apply keeps_result; [done|]. intros r Hr.
  destruct (He r Hr) as (status & message & Hs & ->). by apply document_error.
Qed.

Lemma ok_or_err {A} (o : option A) status message r :
  200 <= status <= 599 → ok_or o (error_response status message) = Err r →
  ∃ status message, 200 <= status <= 599 ∧ r = error_response status message.
Proof. intros Hs. destruct o; [done|]. intros [= <-]. eauto. Qed.

Lemma share_parameter_ok body name n : share_parameter body name = Ok n → in_u8 n = true.
Proof.
  unfold share_parameter. destruct (Value.get body name) as [[]|]; try done; try (by intros [= <-]).
  destruct (in_u8 i) eqn:E; [|done]. by intros [= <-].
Qed.

Lemma share_parameter_err body name r :
  share_parameter body name = Err r → ∃ status message, 200 <= status <= 599 ∧ r = error_response status message.
Proof.
  unfold share_parameter. destruct (Value.get body name) as [[]|]; try done;
    try (by intros [= <-]; exists 400; eexists). destruct (in_u8 i); [done|]. by intros [= <-]; exists 400; eexists.
Qed.

Lemma keeps_share_parameters {I : World * Api → Prop} body {B} (k : Z * Z → handler B) P :
  (∀ t n, in_u8 t = true → in_u8 n = true → keeps I (k (t, n)) P) → keeps I (bind (lift (share_parameters body)) k) P.
Proof.
  intros H. apply (keeps_lift_or _ (λ tn, in_u8 tn.1 = true ∧ in_u8 tn.2 = true)).
  - intros tn (t & Ht & (n & Hn & [= <-])%res_bind_ok)%res_bind_ok. split; by eapply share_parameter_ok.
  - unfold share_parameters. intros r. destruct (share_parameter body "threshold") eqn:Et; cbn [res_bind].
    + destruct (share_parameter body "shares") eqn:En; [done|]. intros [= <-]. by eapply share_parameter_err.
    + intros [= <-]. by eapply share_parameter_err.
  - intros [t n] [Ht Hn]. by apply H.
Qed.

Lemma keeps_credentials {I : World * Api → Prop} body {B} (k : string * string → handler B) P :
  (∀ email password, keeps I (k (email, password)) P) → keeps I (bind (lift (credentials body)) k) P.
Proof.
  intros H. apply (keeps_lift_or _ (λ _, True)); [done| |by intros [] _].
  unfold credentials. intros r. destruct (text body "email"), (text body "password"); try done;
    intros [= <-]; by exists 400; eexists.
Qed.

Lemma keeps_named {I : World * Api → Prop} body {B} (k : string * string → handler B) P :
  Value.well_formed body = true →
  (∀ slug name, is_str slug = true → is_str name = true → keeps I (k (slug, name)) P) → keeps I (bind (lift (named body)) k) P.
Proof.
  intros Hb H. apply (keeps_lift_or _ (λ sn, is_str sn.1 = true ∧ is_str sn.2 = true)).
  - intros sn (slug & Hs%ok_or_ok & [= <-])%res_bind_ok. cbn [fst snd]. pose proof (text_wf _ _ _ Hb Hs).
    destruct (text body "name") eqn:En; cbn [default]; [|done]. split; [done|by eapply text_wf].
  - unfold named. intros r. destruct (text body "slug"); [done|]. cbn. intros [= <-]. by exists 400; eexists.
  - intros [slug name] [Hs Hn]. by apply H.
Qed.

(** ** Names and keys in memory *)

(** The texts a listing shows. *)
Definition shown (st : State.t) : Prop :=
  Forall (λ x, is_str (Project.slug x) = true) (State.projects st)
  ∧ Forall (λ x, is_str (Environment.slug x) = true) (State.environments st)
  ∧ Forall (λ x, is_str (Secret.key x) = true) (State.secrets st).

Lemma apply_shown st e : shown st → Event.wf e → shown (State.apply st e).
Proof.
  intros (Hp & He & Hs) Hw. destruct e; cbn [Event.wf State.apply] in *; destruct_and?; try by split_and!.
  - by destruct (update_first _ _ _).
  - split_and!; [|done|done]. apply Forall_app. split; [done|by constructor].
  - split_and!; [done| |done]. apply Forall_app. split; [done|by constructor].
  - destruct (update_first _ _ _) as [l|] eqn:E; (split_and!; [done|done|]); cbn.
    + apply update_first_some in E as (l1 & x & l2 & E & _ & -> & _). rewrite E in Hs.
      apply Forall_app in Hs as [Hl1 Hl2]. apply Forall_cons in Hl2 as [Hx Hl2]. apply Forall_app. split; [done|]. by constructor.
    + apply Forall_app. split; [done|by constructor].
  - split_and!; [done|done|]. cbn. rewrite Forall_forall in *. intros x Hx. apply Hs.
    apply list_elem_of_In, filter_In in Hx as [Hx _]. by apply list_elem_of_In.
Qed.

Lemma live_shown master evs s : live p master evs s → shown (Vault.state s.2).
Proof.
  intros (root & b & extra & _ & _ & -> & [_ _ (recs & _ & H & _) _] & _).
  apply events_of_wf, Forall_app in H as [H _]. clear -H. induction evs as [|e evs IH] using rev_ind; [by repeat split; constructor|].
  apply Forall_app in H as [H He]. rewrite replay_snoc. apply apply_shown; [by apply IH|]. by inversion He.
Qed.

(** An unsealed vault is a live one. *)
Lemma unsealed_live w v : vault_ok p (w, v) → Vault.require_unsealed v = Ok tt → ∃ master evs, live p master evs (w, v).
Proof.
  intros Hok. unfold Vault.require_unsealed, Vault.is_sealed. destruct (Vault.root_key v) as [root|] eqn:Hr; [|done]. intros _.
  destruct Hok as [(H & _)|[(b & H & _)|H]]; [cbn in H; congruence..|done].
Qed.

Lemma keeps_project_slugs caller :
  keeps locked (call (Vault.try_ (λ v, Vault.project_slugs v caller))) (Forall (λ s, is_str s = true)).
Proof.
  apply keeps_ask. intros w v slugs Hok (u & Hu & (r & _ & [= <-])%res_bind_ok)%res_bind_ok. destruct u.
  destruct (unsealed_live _ _ Hok Hu) as (master & evs & Hl). apply live_shown in Hl as (Hp & _). by rewrite Forall_fmap.
Qed.

Lemma keeps_environment_slugs caller project :
  keeps locked (call (Vault.try_ (λ v, Vault.environment_slugs v caller project))) (Forall (λ s, is_str s = true)).
Proof.
  apply keeps_ask. intros w v slugs Hok (u & Hu & (r & _ & (x & _ & [= <-])%res_bind_ok)%res_bind_ok)%res_bind_ok. destruct u.
  destruct (unsealed_live _ _ Hok Hu) as (master & evs & Hl). apply live_shown in Hl as (_ & He & _).
  rewrite Forall_fmap, Forall_forall in *. intros y Hy. apply He. unfold State.environments_in in Hy.
  apply list_elem_of_In, filter_In in Hy as [Hy _]. by apply list_elem_of_In.
Qed.

Lemma readable_key v pid eid k x : shown (Vault.state v) → readable v (pid, eid, k) = Some x → is_str k = true.
Proof.
  intros (_ & _ & Hs). unfold readable. destruct (State.secret (Vault.state v) pid eid k) as [s|] eqn:E; [|done]. intros _.
  pose proof (state_find _ _ _ _ Hs E) as Hk. apply find_some in E as [_ E]. unfold Secret.at_slot in E.
  apply andb_prop in E as [_ E]. apply bool_decide_eq_true in E. by subst k.
Qed.

Lemma keeps_list caller project environment :
  caller_ok caller → is_str project = true → is_str environment = true →
  keeps locked (call (Vault.list_secrets caller project environment))
    (λ secrets, NoDup secrets.*1 ∧ Forall (λ kx, is_str kx.1 = true) secrets).
Proof.
  intros Hc Hp He. apply keeps_call_that. intros w v Hs.
  split; [apply (handle_ok (ListSecrets caller project environment) _ Hs); by split|]. intros out Hout.
  destruct (Vault.root_key v) as [root|] eqn:Hr.
  2: { pose proof (guarded _ (w, v) Hr : Vault.list_secrets caller project environment (w, v) = _) as E. by rewrite E in Hout. }
  destruct (unsealed_live _ _ Hs) as (master & evs & Hl); [unfold Vault.require_unsealed, Vault.is_sealed; by rewrite Hr|].
  pose proof (wp_list_secrets _ _ _ _ _ _ Hc Hp He _ Hl) as Hw. unfold wp in Hw.
  destruct (Vault.list_secrets _ _ _ _) as [[out'|e] s']; [|done]. injection Hout as ->.
  destruct Hw as (_ & _ & ids & _ & Hsort & Hnd & Hin). split; [done|]. apply Forall_forall. intros [k x] Hkx.
  apply Hin in Hkx. eapply readable_key; [|exact Hkx]. by eapply (live_shown _ _ (w, v)).
Qed.

Lemma text_fields_ok secrets fields :
  text_fields secrets = Ok fields → fields.*1 = secrets.*1 ∧ Forall (λ f, ∃ s, f.2 = Str s ∧ is_str s = true) fields.
Proof.
  revert fields. induction secrets as [|[k x] secrets IH]; intros fields; cbn [text_fields]; [by intros [= <-]|].
  intros (t & Ht%ok_or_ok & H)%res_bind_ok. apply from_utf8_spec in Ht as [_ Ht].
  destruct (text_fields secrets) as [rest|]; [|done]. injection H as <-. destruct (IH rest eq_refl) as [E Hf].
  rewrite !fmap_cons, E. split; [done|]. constructor; [by exists t|done].
Qed.

Lemma plain_texts_object h secrets fields :
  text_fields secrets = Ok fields → NoDup secrets.*1 → Forall (λ kx, is_str kx.1 = true) secrets → plain (S h) (Object fields).
Proof.
  intros [E Hf]%text_fields_ok Hn Hk. apply plain_object; [by rewrite E|].
  assert (Forall (λ k, is_str k = true) fields.*1) as Hk' by (rewrite E, Forall_fmap; exact Hk).
  rewrite Forall_fmap in Hk'. rewrite Forall_forall in *. intros f Hin. split; [by apply Hk'|].
  destruct (Hf f Hin) as (s & -> & Hs). by apply plain_str.
Qed.

(** ** The handlers *)

(** [R] of what is called for, and the answer made of it. *)
Lemma keeps_answer {I : World * Api → Prop} {A} (m : handler A) (R : A → Prop) (answer : A → Response) :
  keeps I m R → (∀ a, R a → document (answer a)) → keeps I (let! a := m in ret (answer a)) document.
Proof. intros Hm Ha. eapply keeps_step; [exact Hm|]. intros a Hr. by apply keeps_return, Ha. Qed.

(** The same, with a line of the log in between. *)
Lemma keeps_told {I : World * Api → Prop} {A} (m : handler A) (R : A → Prop) level message fields (answer : A → Response) :
  unlogged I → keeps I m R → (∀ a, R a → document (answer a)) →
  keeps I (let! a := m in do! note level message (fields a) in ret (answer a)) document.
Proof. intros HI Hm Ha. eapply keeps_step; [exact Hm|]. intros a Hr. apply keeps_note; [done|]. by apply keeps_return, Ha. Qed.

Lemma plain_progress sealed progress threshold : in_u8 threshold = true → plain 8 (unseal_body sealed progress threshold).
Proof.
  intros Ht. assert (in_i64 threshold = true) by (unfold in_u8, in_i64, u8_max, i64_min, i64_max in *; lia).
  assert (in_i64 (if Z.of_nat progress <=? i64_max then Z.of_nat progress else i64_max) = true)
    by (unfold in_i64, i64_min, i64_max; destruct (Z.leb_spec (Z.of_nat progress) (2 ^ 63 - 1)); lia).
  unfold unseal_body, Value.from_usize. plain_fields.
Qed.

Lemma keeps_health : keeps api_ok health document.
Proof.
  apply keeps_lock. eapply (keeps_answer _ (λ _, True)); [apply keeps_reads|]. intros v _.
  apply document_json; [done|]. plain_fields.
Qed.

Lemma plain_outcome h t out : in_u8 t = true → outcome_text t out →
  plain (S h) (Array (Str <$> outcome_shares out)) ∧ plain h (Int (outcome_threshold out)) ∧ plain h (Str (root_token out)).
Proof.
  intros Ht (Hs & -> & Hr). split; [by apply plain_texts|]. split; [|by apply plain_str].
  apply plain_int. unfold in_u8, in_i64, u8_max, i64_min, i64_max in *. lia.
Qed.

Lemma keeps_refused {A} (P : A → Prop) level message fields :
  keeps api_ok (do! note level message fields in fail (error_response 429 "too many attempts, try again shortly")) P.
Proof. apply keeps_note; [done|]. by apply keeps_early, document_error. Qed.

Lemma keeps_ceremony_gate warning : keeps api_ok (ceremony_gate warning) (λ _, True).
Proof.
  eapply keeps_step; [by apply keeps_allow|]. intros [] _; [by apply keeps_return|]. apply keeps_refused.
Qed.

Lemma keeps_init_admitted request : keeps api_ok (init_admitted request) document.
Proof.
  apply keeps_body. intros body Hb. apply keeps_share_parameters. intros t n Ht Hn.
  apply keeps_lock. eapply keeps_told; [done|by eapply (keeps_call _ (VaultServer.Init t n)), init_text|].
  intros out Ho. destruct (plain_outcome 6 t out Ht Ho) as (H1 & H2 & H3). apply document_json; [done|].
  plain_fields; (eapply plain_weaken; [eassumption|lia]).
Qed.

Lemma keeps_init request : keeps api_ok (Api.init request) document.
Proof. eapply keeps_step; [apply keeps_ceremony_gate|]. intros _ _. apply keeps_init_admitted. Qed.

Lemma keeps_rekey request : keeps api_ok (Api.rekey request) document.
Proof.
  apply keeps_body. intros body Hb. apply keeps_share_parameters. intros t n Ht Hn. apply keeps_authed. intros c Hc.
  eapply keeps_told; [done|by eapply (keeps_call _ (VaultServer.Rekey c t n)), rekey_text|].
  intros out Ho. destruct (plain_outcome 6 t out Ht Ho) as (H1 & H2 & H3). apply document_json; [done|].
  plain_fields; (eapply plain_weaken; [eassumption|lia]).
Qed.

Lemma keeps_seal request : keeps api_ok (Api.seal request) document.
Proof.
  apply keeps_authed. intros c Hc. eapply keeps_answer; [by eapply (keeps_call_any _ (SealAs c))|]. intros _ _.
  apply document_json; [done|]. plain_fields.
Qed.

Lemma barrier_u8 w v b : vault_ok p (w, v) → Vault.barrier v = Some b → in_u8 (Barrier.threshold b) = true.
Proof.
  assert (∀ raws, barrier_in raws b → in_u8 (Barrier.threshold b) = true) as Hin.
  { intros raws (raw & _ & H). by apply Barrier.from_bytes_u8 in H as [? _]. }
  intros [(_ & _ & H & _)|[(b' & _ & _ & H & _ & _ & rs & rest & _ & Hb)|(m & evs & root & b' & extra & _ & H & _ & Hst & _)]] Hv;
    cbn [snd] in *; rewrite Hv in H; [done| |].
  - injection H as ->. by eapply Hin.
  - injection H as ->. destruct Hst as [_ _ (recs & _ & _ & Hb) _]. by eapply Hin.
Qed.

Lemma submit_threshold printed s st s' :
  Vault.submit_share printed s = (Ok st, s') → ∃ b, Vault.barrier s.2 = Some b ∧ status_threshold st = Barrier.threshold b.
Proof.
  unfold Vault.submit_share. intros (b & s1 & Hb & H)%bind_ok. unfold Vault.try_ in Hb. injection Hb as Hb ->.
  apply ok_or_ok in Hb. exists b. split; [done|]. revert H. generalize s1. intros s0.
  match goal with |- ?m s0 = _ → _ => assert (gives m (λ st, status_threshold st = Barrier.threshold b)) as Hg end; [|apply Hg].
  apply gives_then. intros sealed. destruct (negb sealed); [by apply gives_ret|]. do 3 (apply gives_then; intros ?).
  destruct (_ <? _); [by apply gives_ret|]. apply gives_then. intros [u|e]; [by apply gives_ret|].
  apply gives_then. intros _. apply gives_fail.
Qed.

Lemma keeps_unseal_admitted request : keeps api_ok (unseal_admitted request) document.
Proof.
  apply keeps_body. intros body Hb. apply keeps_lock.
  case_decide.
  - intros [w self] [Hpo Hs]. do 2 (apply wp_bind; lazymatch goal with |- wp (modify _) _ _ _ => apply wp_modify | _ => apply wp_gets end).
    apply wp_ret. cbn [fst snd]. split; [split; [done|exact (handle_ok ResetUnseal _ Hs I)]|]. apply document_json; [done|].
    apply plain_progress. unfold Vault.threshold. cbn [vault set_vault Vault.reset_unseal Vault.set_pending Vault.barrier].
    destruct (Vault.barrier (vault self)) as [b|] eqn:E; [|done]. by apply (barrier_u8 _ _ _ Hs).
  - apply (keeps_lift_or _ (λ _, True)); [done|intros r; by apply ok_or_err|]. intros share _.
    eapply (keeps_told _ (λ st, in_u8 (status_threshold st) = true)); [done|apply keeps_call_or|].
    + intros w v Hs. split; [exact (handle_ok (SubmitShare share) _ Hs I)|]. intros st Hst.
      destruct (Vault.submit_share share (w, v)) as [r s'] eqn:E. cbn in Hst. subst r.
      apply submit_threshold in E as (b & Eb & ->). by apply (barrier_u8 _ _ _ Hs).
    + intros e. apply keeps_note; [done|]. by apply keeps_vault_error.
    + intros st Hst. apply document_json; [done|]. by apply plain_progress.
Qed.

Lemma keeps_unseal request : keeps api_ok (Api.unseal request) document.
Proof. eapply keeps_step; [apply keeps_ceremony_gate|]. intros _ _. apply keeps_unseal_admitted. Qed.

Lemma document_id status id : 200 <= status <= 599 → is_str id = true →
  document (Response.json status (Value.to_string (Object [("id", Str id)]))).
Proof. intros Hs Hid. apply document_json; [done|]. plain_fields. Qed.

Lemma document_created id slug : is_str id = true → is_str slug = true → document (created id slug).
Proof. intros Hid Hslug. apply document_json; [done|]. plain_fields. Qed.

Lemma keeps_create_user request : keeps api_ok (create_user request) document.
Proof.
  apply keeps_body. intros body Hb. apply keeps_credentials. intros email password. apply keeps_authed. intros c Hc.
  eapply keeps_told; [done|by eapply (keeps_call _ (CreateUser c email password)), create_user_text|].
  intros id Hid. by apply document_id.
Qed.

Lemma keeps_login_gate request : keeps api_ok (login_gate request) (λ _, True).
Proof.
  apply keeps_body. intros body Hb. apply keeps_credentials. intros email password.
  eapply keeps_step; [by apply keeps_allow|]. intros [] _; [by apply keeps_return|]. apply keeps_refused.
Qed.

Lemma keeps_login_admitted email password : keeps api_ok (login_admitted email password) (λ token, is_str token = true).
Proof.
  apply keeps_lock, keeps_call_or; [by eapply (served_call _ (VaultServer.Login email password SESSION_SECONDS)), login_text|].
  intros e. apply keeps_note; [done|]. by apply keeps_vault_error.
Qed.

Lemma keeps_login_done email token : is_str token = true → keeps api_ok (login_done email token) document.
Proof.
  intros Ht. eapply (keeps_told _ (λ _, True)); [done|by intros [w self] Hs|]. intros _ _. apply document_json; [done|]. plain_fields.
Qed.

Lemma keeps_login request : keeps api_ok (login request) document.
Proof.
  eapply keeps_step; [apply keeps_login_gate|]. intros [email password] _.
  eapply keeps_step; [apply keeps_login_admitted|]. intros token Ht. by apply keeps_login_done.
Qed.

Lemma keeps_logout request : keeps api_ok (logout request) document.
Proof.
  apply keeps_authed. intros c Hc.
  eapply keeps_answer; [by eapply (keeps_call_any _ (RevokeToken c (Caller.token_id c))); [|split; [|apply Hc]]|]. intros _ _.
  apply document_json; [done|]. plain_fields.
Qed.

Lemma keeps_issue_token request : keeps api_ok (issue_token request) document.
Proof.
  apply keeps_body. intros body Hb. apply (keeps_lift_or _ (λ _, True)); [done| |].
  { intros r. destruct (text body "project"), (text body "environment"); try done; intros [= <-]; by exists 400; eexists. }
  intros [project environment] _. cbv zeta. apply keeps_authed. intros c Hc.
  assert (is_str (default "machine" (text body "label")) = true) as Hl
    by (destruct (text body "label") eqn:E; [by eapply text_wf|done]).
  eapply keeps_step; [by eapply (keeps_call _ (IssueMachineToken c _ _ _ _)), issue_machine_token_text|]. intros token Ht.
  eapply keeps_told; [done|apply keeps_authenticate|]. intros holder Hh. apply document_json; [done|].
  assert (is_str (default "" (Caller.token_id <$> holder)) = true) by (destruct holder; [apply Hh|done]).
  plain_fields.
Qed.

Lemma keeps_revoke request id : is_str id = true → keeps api_ok (revoke request id) document.
Proof.
  intros Hid. apply keeps_authed. intros c Hc. eapply keeps_answer; [by eapply (keeps_call_any _ (RevokeToken c id))|].
  intros _ _. apply document_empty.
Qed.

Lemma document_listed name slugs : is_str name = true → Forall (λ s, is_str s = true) slugs → document (listed name slugs).
Proof.
  intros Hn Hs. apply document_json; [done|]. apply plain_object; [apply NoDup_singleton|].
  apply Forall_singleton. split; [done|]. by apply plain_texts.
Qed.

Lemma keeps_projects request : keeps api_ok (projects request) document.
Proof.
  apply keeps_authed. intros c Hc. eapply keeps_answer; [apply keeps_project_slugs|]. intros slugs. by apply document_listed.
Qed.

Lemma keeps_environments request project : keeps api_ok (environments request project) document.
Proof.
  apply keeps_authed. intros c Hc. eapply keeps_answer; [apply keeps_environment_slugs|]. intros slugs. by apply document_listed.
Qed.

Lemma keeps_create_project request : keeps api_ok (create_project request) document.
Proof.
  apply keeps_body. intros body Hb. apply keeps_named; [done|]. intros slug name Hs Hn. apply keeps_authed. intros c Hc.
  eapply keeps_told; [done|by eapply (keeps_call _ (CreateProject c slug name)), create_project_text|].
  intros id Hid. by apply document_created.
Qed.

Lemma keeps_create_environment request project : keeps api_ok (create_environment request project) document.
Proof.
  apply keeps_body. intros body Hb. apply keeps_named; [done|]. intros slug name Hs Hn. apply keeps_authed. intros c Hc.
  eapply keeps_told; [done|by eapply (keeps_call _ (CreateEnvironment c project slug name)), create_environment_text|].
  intros id Hid. by apply document_created.
Qed.

Lemma keeps_get_secret request project environment key :
  is_str project = true → is_str environment = true → is_str key = true →
  keeps api_ok (get_secret request project environment key) document.
Proof.
  intros Hp He Hk. apply keeps_authed. intros c Hc.
  eapply keeps_step; [by apply (keeps_call_any _ (GetSecret c project environment key))|]. intros value _.
  eapply (keeps_answer _ (λ text, is_str text = true)).
  - apply keeps_rescue; [done|]. intros t Ht%ok_or_ok. by apply from_utf8_spec in Ht as [_ ?].
  - intros text Ht. apply document_json; [done|]. plain_fields.
Qed.

Lemma keeps_put_secret request project environment key :
  is_str project = true → is_str environment = true → is_str key = true →
  keeps api_ok (put_secret request project environment key) document.
Proof.
  intros Hp He Hk. apply keeps_body. intros body Hb. apply (keeps_lift_or _ (λ _, True)); [done|intros r; by apply ok_or_err|].
  intros value _. apply keeps_authed. intros c Hc.
  eapply keeps_answer; [by eapply (keeps_call_any _ (SetSecret c project environment key _))|]. intros _ _. apply document_empty.
Qed.

Lemma keeps_delete_secret request project environment key :
  is_str project = true → is_str environment = true → is_str key = true →
  keeps api_ok (delete_secret request project environment key) document.
Proof.
  intros Hp He Hk. apply keeps_authed. intros c Hc.
  eapply keeps_answer; [by eapply (keeps_call_any _ (DeleteSecret c project environment key))|]. intros _ _. apply document_empty.
Qed.

Lemma keeps_check_all caller project environment entries :
  keeps locked (check_all caller project environment entries) (λ _, True).
Proof.
  induction entries as [|[key value] entries IH]; [by apply keeps_return|].
  eapply keeps_step; [by apply (keeps_ask _ (λ _, True))|]. intros _ _. exact IH.
Qed.

Lemma keeps_set_all caller project environment entries :
  caller_ok caller → is_str project = true → is_str environment = true → Forall (λ kv, is_str kv.1 = true) entries →
  keeps locked (set_all caller project environment entries) (λ _, True).
Proof.
  intros Hc Hp He. induction 1 as [|[key value] entries Hk _ IH]; [by apply keeps_return|].
  eapply keeps_step; [by apply (keeps_call_any _ (SetSecret caller project environment key (as_bytes value)))|]. intros _ _. exact IH.
Qed.

Lemma text_entries_ok pairs entries : text_entries pairs = Ok entries → entries.*1 = pairs.*1.
Proof.
  revert entries. induction pairs as [|[k v] pairs IH]; intros entries; cbn [text_entries]; [by intros [= <-]|].
  intros (t & _ & H)%res_bind_ok. destruct (text_entries pairs) as [rest|]; [|done]. injection H as <-.
  rewrite !fmap_cons. f_equal. by apply IH.
Qed.

Lemma text_entries_err pairs r :
  text_entries pairs = Err r → ∃ status message, 200 <= status <= 599 ∧ r = error_response status message.
Proof.
  induction pairs as [|[k v] pairs IH]; cbn [text_entries]; [done|].
  destruct (Value.as_str v); cbn [ok_or res_bind]; [|by intros [= <-]; exists 400; eexists].
  destruct (text_entries pairs); [done|]. intros [= <-]. by apply IH.
Qed.

Lemma keeps_set_many request project environment :
  is_str project = true → is_str environment = true → keeps api_ok (set_many request project environment) document.
Proof.
  intros Hp He. apply keeps_body. intros body Hb.
  apply (keeps_lift_or _ (λ pairs, Forall (λ kv, is_str kv.1 = true) pairs)).
  - intros pairs. destruct (Value.get body "secrets") as [v|] eqn:E; [|done]. apply (get_wf _ _ _ Hb) in E.
    destruct v as [| | | | | |fields]; try done. intros [= <-]. cbn in E. apply andb_prop in E as [_ E]. apply Forall_forall.
    intros kv Hkv. rewrite forallb_forall in E. by apply list_elem_of_In, E, andb_prop in Hkv as [? _].
  - intros r. destruct (Value.get body "secrets") as [[]|]; try done; intros [= <-]; by exists 400; eexists.
  - intros pairs Hpairs. apply (keeps_lift_or _ (λ entries, Forall (λ kv, is_str kv.1 = true) entries)).
    + intros entries H%text_entries_ok.
      assert (Forall (λ k, is_str k = true) entries.*1) as Hk by (rewrite H, Forall_fmap; exact Hpairs).
      by rewrite Forall_fmap in Hk.
    + intros r. apply text_entries_err.
    + intros entries Hk. apply keeps_authed. intros c Hc. eapply keeps_step; [apply keeps_check_all|]. intros _ _.
      eapply keeps_answer; [by apply keeps_set_all|]. intros _ _. apply document_empty.
Qed.

Lemma keeps_list_secrets request project environment :
  is_str project = true → is_str environment = true → keeps api_ok (list_secrets request project environment) document.
Proof.
  intros Hp He. apply keeps_authed. intros c Hc. eapply keeps_step; [by apply keeps_list|]. intros secrets [Hn Hk].
  eapply (keeps_answer _ (λ fields, text_fields secrets = Ok fields)).
  - by apply keeps_rescue.
  - intros fields Hf. apply document_json; [done|]. apply plain_object; [apply NoDup_singleton|]. apply Forall_singleton.
    split; [done|]. by eapply plain_texts_object.
Qed.

Lemma plain_audit_value e : entry_text e → plain 1 (audit_value e).
Proof.
  intros (Ht & H1 & H2 & H3 & H4). apply is_str_rfc3339 in Ht. unfold audit_value. plain_fields.
Qed.

Lemma keeps_audit request : keeps api_ok (audit request) document.
Proof.
  apply keeps_authed. intros c Hc. eapply keeps_answer; [by eapply (keeps_call _ (AuditTrail c)), audit_trail_text|].
  intros entries He. apply document_json; [done|]. apply plain_object; [apply NoDup_singleton|]. apply Forall_singleton.
  split; [done|]. apply (plain_weaken 2); [|lia]. apply plain_array. rewrite Forall_fmap. eapply Forall_impl; [exact He|].
  intros e. apply plain_audit_value.
Qed.

(** ** Routing *)

(** The names in an address are texts. *)
Definition place_ok (x : place) : Prop :=
  match x with
  | OneToken id => is_str id = true
  | Environments project => is_str project = true
  | Secrets project environment => is_str project = true ∧ is_str environment = true
  | OneSecret project environment key => is_str project = true ∧ is_str environment = true ∧ is_str key = true
  | _ => True
  end.

Lemma locate_ok segments x : Forall (λ s, is_str s = true) segments → locate segments = Some x → place_ok x.
Proof.
  intros H. do 8 (try (destruct segments as [|? segments]; [|apply Forall_cons in H as [? H]])); cbn [locate]; try done;
    repeat (case_match; try done); intros [= <-]; cbn; by split_and?.
Qed.

Lemma segments_str path : is_str path = true → Forall (λ s, is_str s = true) (segments path).
Proof.
  intros H. apply Forall_forall. intros x Hx. apply list_elem_of_In, filter_In in Hx as [Hx _].
  pose proof (split_str "/" path eq_refl H) as Hs. rewrite Forall_forall in Hs. by apply Hs, list_elem_of_In.
Qed.

Lemma keeps_only method expected work : keeps api_ok work document → keeps api_ok (only method expected work) document.
Proof. intros H. unfold only. case_bool_decide; [done|]. by apply keeps_return, document_error. Qed.

Lemma keeps_not_allowed : keeps api_ok (ret method_not_allowed) document.
Proof. by apply keeps_return, document_error. Qed.

Lemma keeps_dispatch request x : place_ok x → keeps api_ok (dispatch request x) document.
Proof.
  intros Hx. destruct x as [| | | | | | | | | |id| |project|project environment|project environment key];
    cbn [dispatch place_ok] in *.
  - apply keeps_only, keeps_health.
  - apply keeps_only, keeps_init.
  - apply keeps_only, keeps_unseal.
  - apply keeps_only, keeps_rekey.
  - apply keeps_only, keeps_seal.
  - apply keeps_only, keeps_create_user.
  - apply keeps_only, keeps_login.
  - apply keeps_only, keeps_logout.
  - apply keeps_only, keeps_audit.
  - apply keeps_only, keeps_issue_token.
  - by apply keeps_only, keeps_revoke.
  - case_bool_decide; [apply keeps_projects|]. case_bool_decide; [apply keeps_create_project|apply keeps_not_allowed].
  - case_bool_decide; [apply keeps_environments|]. case_bool_decide; [apply keeps_create_environment|apply keeps_not_allowed].
  - destruct Hx. case_bool_decide; [by apply keeps_list_secrets|]. case_bool_decide; [by apply keeps_set_many|apply keeps_not_allowed].
  - destruct Hx as (? & ? & ?). case_bool_decide; [by apply keeps_get_secret|]. case_bool_decide; [by apply keeps_put_secret|].
    case_bool_decide; [by apply keeps_delete_secret|apply keeps_not_allowed].
Qed.

Lemma keeps_route request : is_str (path request) = true → keeps api_ok (route request) document.
Proof.
  intros Hp. unfold route. unfold refuse_elsewhere. destruct (_ && _); [|by apply keeps_return, document_error].
  unfold refuse_cross_origin. case_bool_decide.
  2: { destruct (match Request.header request "content-type" with Some _ => _ | None => _ end); [|by apply keeps_return, document_error].
       destruct (locate _) eqn:E; [|by apply keeps_return, document_error]. eapply keeps_dispatch, locate_ok; [|exact E]. by apply segments_str. }
  destruct (locate _) eqn:E; [|by apply keeps_return, document_error]. eapply keeps_dispatch, locate_ok; [|exact E]. by apply segments_str.
Qed.

(** An answer to any request at all. *)
Lemma respond_ok request s :
  is_str (path request) = true → api_ok s → document (respond request s).1 ∧ api_ok (respond request s).2.
Proof.
  intros Hp Hs. apply (respond_cases request s (λ r s', document r ∧ api_ok s')).
  eapply wp_mono; [by apply keeps_route|..]; cbv beta; intros r [w self] [Hok Hr] w' Hd; (split; [done|]); by apply (unlogged_api_ok w).
Qed.
End Keeps.
End ApiSpec.
