(* ===== verification/ApiClaims.v ===== *)
(** * What the server guarantees

    The theorems about the whole server: the connections, the HTTP layer and the vault
    behind it, over a lifetime of requests, panics and crashes. *)

From S2P Require Import Prelude Text Encoding Timestamp JsonValue JsonParser World Token Shamir Aead Event State Log LogSpec.
From S2P Require Import Barrier Validate Password RateLimit Errors Logging Vault VaultSpec VaultSecrets VaultAccess VaultServer VaultClaims.
From S2P Require Import Http HttpRequest HttpFraming HttpAccept HttpClient HttpExchange HttpClaims Api ApiSpec.
From Stdlib Require Import Strings.Byte.

Module ApiClaims.
Import VaultSpec VaultSecrets VaultAccess Server Api ApiSpec.

Section ApiClaims.
Context {EnvI : Env} {CipherI : Cipher} {LawsI : CipherLaws} {ShaI : Sha256}.
Context {ArgonI : Argon2} {ArgonLawsI : password.Argon2Laws} {TextI : OsText} {WatchI : Stopwatch}.

(** ** The server over its lifetime *)

(** A connection is served: what is written to it, and the state it leaves. *)
Definition serve (limits : Limits) (c : Conn) (s : World * Api) : option (list byte) * (World * Api) :=
  ((Server_.serve_connection limits (λ request, Some (respond request s).1) c).1,
   match (Request.read limits c).1 with
   | Ok request => (respond request s).2
   | Err _ => s
   end).

(** The vault as the next holder of the lock finds it. *)
Definition recovered (self : Api) : Vault.t := if poisoned self then Vault.seal (vault self) else vault self.

(** A process is up, or there is only the disk. *)
Inductive server := Down (w : World) | Up (s : World * Api).

(** A request that panics under the lock poisons it: the disk, the log and the barrier
    are what some run of a call leaves, the rest of the memory may be anything. *)
Inductive step (limits : Limits) (p : string) : server → server → Prop :=
| step_serve c s : step limits p (Up s) (Up (serve limits c s).2)
| step_panic w self r w' v' self' :
    valid r → handle r (w, recovered self) = (w', v') → Vault.seal (vault self') = Vault.seal v' → poisoned self' = true →
    step limits p (Up (w, self)) (Up (w', self'))
| step_die w self : step limits p (Up (w, self)) (Down w)
| step_boot w v w' : Vault.open p w = (Ok v, w') → step limits p (Down w) (Up (w', Api.new v))
| step_boot_fails w e w' : Vault.open p w = (Err e, w') → step limits p (Down w) (Down w').

Definition sound (p : string) (x : server) : Prop :=
  match x with
  | Down w => LogSpec.openable p (disk w)
  | Up s => api_ok p s
  end.

Lemma accepted_path limits c request : (Request.read limits c).1 = Ok request → is_str (path request) = true.
Proof.
  intros H. pose proof (Framing.wp_read_request limits c) as Hw. unfold wp in Hw.
  destruct (Request.read limits c) as [[r|e] c']; [|done]. injection H as ->.
  apply Accept.parse_request_acceptable in Hw as (_ & Hr & _). apply Hr.
Qed.

Section Lifetime.
Variables (limits : Limits) (p : string).
Hypothesis (Hext : Log.with_extension p "compacting" ≠ p).

Lemma recovered_ok w self : api_ok p (w, self) → vault_ok p (w, recovered self).
Proof. unfold api_ok, recovered. cbn. by destruct (poisoned self). Qed.

Lemma poisoned_ok w self v : poisoned self = true → Vault.seal (vault self) = Vault.seal v → vault_ok p (w, v) → api_ok p (w, self).
Proof. intros Hp He Hv. unfold api_ok. cbn. rewrite Hp, He. by apply vault_ok_seal. Qed.

Lemma api_ok_openable w self : api_ok p (w, self) → LogSpec.openable p (disk w).
Proof. intros H%recovered_ok. by eapply vault_ok_openable. Qed.

Lemma serve_ok c s : api_ok p s → api_ok p (serve limits c s).2.
Proof.
  intros Hs. unfold serve. cbn [snd]. destruct (Request.read limits c).1 as [request|e] eqn:E; [|done].
  apply respond_ok; [done|by eapply accepted_path|done].
Qed.

Lemma api_step_sound x y : step limits p x y → sound p x → sound p y.
Proof.
  intros [c s|w self r w' v' self' Hv E Hseal Hpo|w self|w v w' E|w e w' E] H; cbn [sound] in *.
  - by apply serve_ok.
  - eapply poisoned_ok; [done..|]. rewrite <- E. apply handle_ok; [done|by apply recovered_ok|done].
  - by eapply api_ok_openable.
  - pose proof (wp_boot p w H) as Hb. unfold wp in Hb. rewrite E in Hb. exact Hb.
  - pose proof (wp_boot p w H) as Hb. unfold wp in Hb. by rewrite E in Hb.
Qed.
End Lifetime.

(** ** Answers on the wire *)

(** What a client makes of an answer: its status, and a document or nothing at all. *)
Definition well_answered (out : list byte) : Prop := ∃ r,
  out = Response.render r ∧ 200 <= HttpClient.status r <= 599
  ∧ (response_body r = [] ∨ ∃ v, response_body r = as_bytes (Value.to_string v) ∧ parse (Value.to_string v) = Ok v)
  ∧ ∀ limits, (3 ≤ max_headers limits)%nat → (64 ≤ max_head limits)%nat →
    Z.of_nat (length (response_body r)) <= Z.min u64_max (max_body limits) →
    Client.read_response limits out = (Ok (Exchange.heard r), []).

Lemma json_header_ok limits : (64 ≤ max_head limits)%nat →
  let h := ("content-type", "application/json") in
  Exchange.sendable h ∧ Exchange.lowered h = h ∧ h.1 ≠ "content-length"
  ∧ (length (Exchange.line_of h) + 2 ≤ max_head limits)%nat.
Proof.
  intros Hd h. split; [by split; [|split; [by vm_compute|split_and!; vm_compute]]|]. split; [done|]. split; [done|].
  etransitivity; [|exact Hd]. apply Nat.leb_le. by vm_compute.
Qed.

Lemma answer_read limits r :
  200 <= HttpClient.status r <= 599 → response_headers r = [] ∨ response_headers r = [("content-type", "application/json")] →
  (3 ≤ max_headers limits)%nat → (64 ≤ max_head limits)%nat →
  Z.of_nat (length (response_body r)) <= Z.min u64_max (max_body limits) →
  Client.read_response limits (Response.render r) = (Ok (Exchange.heard r), []).
Proof.
  intros Hs Hh Hn Hd Hb. rewrite <- (app_nil_r (Response.render r)). apply Exchange.answer_parses. split; [lia|..]; try done.
  - destruct Hh as [->| ->]; [by constructor|]. apply Forall_singleton. by apply json_header_ok.
  - destruct Hh as [->| ->]; cbn; lia.
Qed.

Lemma document_answered r : document r → well_answered (Response.render r).
Proof.
  intros (Hs & [(_ & Hh & Hb)|(Hh & v & Hb & Hv)]); exists r; (split; [done|]; split; [done|]; split; [|intros; apply answer_read; auto]).
  - by left.
  - right. by exists v.
Qed.

Lemma refusal_well_answered e : well_answered (Response.render (Server_.refusal e)).
Proof.
  destruct (HttpClaims.HttpClaims.refusal_answered e (mk_conn [] [] 0)) as (_ & _ & Hs & Hb & Hv & Hr & _).
  exists (Server_.refusal e). split; [done|]. split; [lia|]. split; [|done]. right.
  eexists. split; [|exact Hv]. by apply from_utf8_spec in Hb as [<- _].
Qed.

Lemma serve_answered limits p c s :
  Log.with_extension p "compacting" ≠ p → api_ok p s →
  match (serve limits c s).1 with
  | Some out => well_answered out
  | None => (Request.read limits c).1 = Err Incomplete
  end.
Proof.
  intros Hext Hs. unfold serve. cbn [fst]. unfold Server_.serve_connection.
  destruct (Request.read limits c) as [[request|e] c'] eqn:E; cbn [fst].
  - apply document_answered, (respond_ok p); [done| |done]. eapply (accepted_path limits c). by rewrite E.
  - pose proof (refusal_well_answered e). by destruct e.
Qed.

(** C1: however a server got to where it is, through any connections and requests,
    panics, failures of the system, crashes and restarts: the vault behind it is sound
    (its memory the replay of the events on disk, or empty while sealed; nothing is taken
    from a lock that was poisoned), and whatever comes next on a connection is either
    nothing at all, and goes unanswered, or is answered with a status and a
    document that reads back, or an empty body, and the client reads that answer. *)
Theorem server_answers limits p w x :
  Log.with_extension p "compacting" ≠ p → LogSpec.openable p (disk w) → rtc (step limits p) (Down w) x →
  sound p x ∧
  match x with
  | Down _ => True
  | Up s => ∀ c, match (serve limits c s).1 with
                 | Some out => well_answered out
                 | None => (Request.read limits c).1 = Err Incomplete
                 end
  end.
Proof.
  intros Hext Hop Hr. assert (sound p x) as Hs.
  { revert Hop. change (LogSpec.openable p (disk w)) with (sound p (Down w)).
    induction Hr as [|x y z Hxy _ IH]; [done|]. intros H. apply IH. by eapply api_step_sound. }
  split; [done|]. destruct x as [|s]; [done|]. intros c. by eapply serve_answered.
Qed.

(** ** Strangers *)

(** What can be asked for without a token. *)
Definition public (x : place) : bool := match x with Health | Init | Unseal | Login => true | _ => false end.

(** Turned away: an error, and nothing is different but the clock, and the lock if it was
    poisoned. *)
Definition away (s : World * Api) (r : Response) (s' : World * Api) : Prop :=
  400 <= HttpClient.status r ∧ disk s'.1 = disk s.1 ∧ (s'.2 = s.2 ∨ s'.2 = (lock s).2.2).

(** Nobody the vault knows: no token, or one that is not usable, at the time it is looked
    at. *)
Definition stranger (request : Request) (s : World * Api) : Prop :=
  ∀ presented, bearer request = Some presented → who (recovered s.2) presented (reading (lock s).2.1) = None.

Definition turns_away (request : Request) (m : handler Response) : Prop := ∀ s,
  stranger request s → wp m (away s) (away s) s.

Lemma away_authed request work : turns_away request (authed request work).
Proof.
  intros [w self] Hst. unfold authed. destruct (lock_relocks w self) as (w1 & El & Hd1). unfold stranger in Hst. rewrite El in Hst.
  apply wp_bind. unfold wp at 1. rewrite El. set (self1 := relocked self).
  assert (vault self1 = recovered self) as Hv by (unfold self1, relocked, recovered; by destruct (poisoned self)).
  assert (∀ status message w', 400 <= status → disk w' = disk w → away (w, self) (error_response status message) (w', self1)) as Haway.
  { intros status message w' Hs Hd. split; [done|]. split; [done|]. right. by rewrite El. }
  apply wp_bind, wp_gets. cbn [snd]. destruct (Vault.is_sealed _); [by apply wp_fail, Haway|].
  apply wp_bind, wp_lift; [|intros e; destruct (bearer request); [done|]; intros [= <-]; by apply Haway].
  intros token Ht%ok_or_ok. apply wp_bind, wp_vault_call. destruct (authenticate_who token w1 (vault self1)) as (w' & E & Hd).
  pose proof (Hst _ Ht) as Hnone. cbn [fst snd] in Hnone. unfold wp. rewrite E, Hv, Hnone. cbn [fst snd].
  replace (set_vault (recovered self) self1) with self1 by (rewrite <- Hv; by destruct self1). apply Haway; [done|congruence].
Qed.

Lemma away_fail request status message : 400 <= status → turns_away request (fail (error_response status message)).
Proof. intros Hs s _. apply wp_fail. split; [done|]. auto. Qed.

Lemma away_ret request status message : 400 <= status → turns_away request (ret (error_response status message)).
Proof. intros Hs s _. apply wp_ret. split; [done|]. auto. Qed.

Lemma away_only request method expected work : turns_away request work → turns_away request (only method expected work).
Proof. intros H. unfold only. case_bool_decide; [done|]. by apply away_ret. Qed.

(** Reading the body comes before the token is looked at, and changes nothing. *)
Definition complains {A} (m : result Response A) : Prop := ∀ r, m = Err r → 400 <= HttpClient.status r.

Lemma away_lift request {A} (m : result Response A) k :
  complains m → (∀ a, turns_away request (k a)) → turns_away request (bind (lift m) k).
Proof.
  intros Hm Hk s Hst. apply wp_bind, wp_lift; [intros a _; by apply Hk|]. intros r Hr. split; [by apply Hm|]. auto.
Qed.

Lemma complains_bind {A B} (m : result Response A) (k : A → result Response B) :
  complains m → (∀ a, complains (k a)) → complains (res_bind m k).
Proof. intros Hm Hk r. destruct m; cbn; [by apply Hk|]. intros [= <-]. by apply Hm. Qed.

Lemma complains_ok_or {A} (o : option A) status message : 400 <= status → complains (ok_or o (error_response status message)).
Proof. intros Hs r. destruct o; [done|]. by intros [= <-]. Qed.

Ltac complains := intros ?; repeat (case_match; try done); by intros [= <-].

Lemma complains_body request : complains (body_of request).
Proof.
  unfold body_of. case_decide; [done|]. apply complains_bind; [by apply complains_ok_or|]. intros t r.
  destruct (parse t); [done|]. by intros [= <-].
Qed.

Lemma complains_shares body : complains (share_parameters body).
Proof.
  assert (∀ name, complains (share_parameter body name)) as H by (intros name; unfold share_parameter; complains).
  apply complains_bind; [done|]. intros t. by apply complains_bind.
Qed.

Lemma complains_credentials body : complains (credentials body).
Proof. unfold credentials. complains. Qed.

Lemma complains_named body : complains (named body).
Proof. apply complains_bind; [by apply complains_ok_or|done]. Qed.

Lemma complains_entries pairs : complains (text_entries pairs).
Proof.
  induction pairs as [|[k v] pairs IH]; [done|]. cbn [text_entries]. apply complains_bind; [by apply complains_ok_or|].
  intros t r. destruct (text_entries pairs); [done|]. cbn. intros [= <-]. by apply IH.
Qed.

Lemma away_private request x : public x = false → turns_away request (dispatch request x).
Proof.
  intros Hx. destruct x; try done; cbn [dispatch]; repeat case_bool_decide; try apply away_only; try apply away_authed;
    try (by apply away_ret); (apply away_lift; [apply complains_body|intros body]); try apply away_authed.
  - apply away_lift; [apply complains_shares|]. intros [t n]. apply away_authed.
  - apply away_lift; [apply complains_credentials|]. intros [email pw]. apply away_authed.
  - apply away_lift; [complains|]. intros [project environment]. apply away_authed.
  - apply away_lift; [apply complains_named|]. intros [slug name]. apply away_authed.
  - apply away_lift; [apply complains_named|]. intros [slug name]. apply away_authed.
  - apply away_lift; [complains|]. intros pairs. apply away_lift; [apply complains_entries|]. intros entries. apply away_authed.
  - apply away_lift; [by apply complains_ok_or|]. intros value. apply away_authed.
Qed.

(** The gates in front of routing. *)
Lemma gates request :
  route request = ret (error_response 421 "this server answers only to its own address")
  ∨ (method request ∉ ["GET"; "HEAD"; "OPTIONS"])
    ∧ route request = ret (error_response 415 "this endpoint needs a content-type of application/json")
  ∨ route request = match locate (segments (path request)) with
                    | Some x => dispatch request x
                    | None => ret (error_response 404 "not found")
                    end.
Proof.
  unfold route, refuse_elsewhere. destruct (_ && _); [|by left]. right. unfold refuse_cross_origin.
  case_bool_decide; [by right|]. destruct (match Request.header request "content-type" with Some _ => _ | None => _ end); [by right|by left].
Qed.

(** C3: a request without a token the vault knows is turned away wherever a
    token is called for, and wherever there is nothing at all: the answer is an error, and
    neither the disk nor anything in memory is different (but that a poisoned lock may have
    been found, and the vault sealed for it). Only health, initialisation, unsealing and
    login are open to strangers. *)
Theorem strangers_are_turned_away request s :
  stranger request s → (∀ x, locate (segments (path request)) = Some x → public x = false) →
  let '(answer, s') := respond request s in
  400 <= HttpClient.status answer ∧ disk s'.1 = disk s.1 ∧ (s'.2 = s.2 ∨ s'.2 = (lock s).2.2).
Proof.
  intros Hst Hx. assert (turns_away request (route request)) as H.
  { destruct (gates request) as [->|[[_ ->]| ->]]; [by apply away_ret..|].
    destruct (locate _) as [x|]; [by apply away_private, Hx|by apply away_ret]. }
  pose proof (respond_cases request s (away s)) as Hr. destruct (respond request s) as [answer s']. apply Hr.
  eapply wp_mono; [by apply H|..]; cbv beta; intros r s1 (Ha & Hd & Hm) w' Hw; (split; [done|]; split; [by rewrite <- Hd|done]).
Qed.

(** ** Web pages *)

(** What a request leaves of the vault's data: the names, values, accounts and tokens, and
    the keys. *)
Definition same_data (s s' : World * Api) : Prop :=
  Vault.state (recovered s'.2) = Vault.state (recovered s.2) ∧ same_keys (recovered s.2) (recovered s'.2)
  ∧ (poisoned s.2 = false → poisoned s'.2 = false).

Section Reading.
Variables (p : string).

(** An unsealed vault with the data of [v], under the lock. *)
Definition idle (v : Vault.t) (s : World * Api) : Prop :=
  poisoned s.2 = false ∧ Vault.state (vault s.2) = Vault.state v ∧ same_keys v (vault s.2) ∧ ∃ master evs, live p master evs (s.1, vault s.2).

Lemma keeps_still {A} (m : Vault.method A) v :
  (∀ master evs s, live p master evs s → let I := λ s', unchanged s s' ∧ ∃ evs', live p master evs' s' in wp m (λ _, I) (λ _, I) s) →
  keeps (idle v) (call m) (λ _, True).
Proof.
  intros Hm [w self] (Hpo & Hst & (Hb & Hr & Hp) & master & evs & Hl). apply wp_vault_call. cbn [fst snd] in *.
  eapply wp_mono; [by apply (Hm master evs)|..]; cbv beta.
  - intros a [w' v'] ((Hst' & Hb' & Hr' & Hp') & evs' & Hl'). cbn [fst snd] in *.
    split; [|done]. split; [done|]. split; [cbn; congruence|]. split; [split_and!; cbn; congruence|]. by exists master, evs'.
  - intros e [w' v'] ((Hst' & Hb' & Hr' & Hp') & evs' & Hl') w1 Hd. cbn [fst snd] in *.
    split; [|apply document_vault_answer]. split; [done|]. split; [cbn; congruence|]. split; [split_and!; cbn; congruence|].
    exists master, evs'. by eapply live_disk.
Qed.

Lemma unlogged_idle v : unlogged (idle v).
Proof.
  intros w w' self Hd (Hpo & Hst & Hk & master & evs & Hl). split; [done|]. split; [done|]. split; [done|].
  exists master, evs. by eapply live_disk.
Qed.

Lemma unchanged_refl s : unchanged s s.
Proof. done. Qed.

Lemma still_try {A} (f : Vault.t → result VaultError.t A) v : keeps (idle v) (call (Vault.try_ f)) (λ _, True).
Proof.
  apply keeps_still. intros master evs s Hl I. apply wp_try; intros a _; split; [done|by exists evs|done|by exists evs].
Qed.

Lemma still_get c ps es key v :
  caller_ok c → is_str ps = true → is_str es = true → is_str key = true →
  keeps (idle v) (call (Vault.get_secret c ps es key)) (λ _, True).
Proof.
  intros Hc Hp He Hk. apply keeps_still. intros master evs s Hl I.
  eapply wp_mono; [by apply wp_get_secret|..]; cbv beta.
  - intros out s' (Hu & (at_ & Hl') & _). split; [done|by eexists].
  - intros e s' [[Hu [(o & (at_ & Hl') & _)|[Hl' _]]]|(ids & _ & _ & Hu & H)]; (split; [done|]); [by eexists..|].
    destruct (State.secret _ _ _ _); [destruct H as [_ Hl']|destruct H as [_ [at_ Hl']]]; by eexists.
Qed.

Lemma still_list c ps es v :
  caller_ok c → is_str ps = true → is_str es = true →
  keeps (idle v) (call (Vault.list_secrets c ps es)) (λ _, True).
Proof.
  intros Hc Hp He. apply keeps_still. intros master evs s Hl I.
  eapply wp_mono; [by apply wp_list_secrets|..]; cbv beta.
  - intros out s' (Hu & (at_ & Hl') & _). split; [done|by eexists].
  - intros e s' [[Hu [(o & (at_ & Hl') & _)|[Hl' _]]]|(_ & Hu & Hl' & _)]; (split; [done|]); by eexists.
Qed.

Lemma still_audit c v : keeps (idle v) (call (Vault.audit_trail c)) (λ _, True).
Proof.
  apply keeps_still. intros master evs s Hl I. unfold Vault.audit_trail.
  apply wp_bind, wp_lift; [intros [] _|intros e _; split; [done|by exists evs]].
  apply wp_bind, wp_try; [intros root Hr%ok_or_ok|intros e _; split; [done|by exists evs]].
  apply wp_bind, wp_gets, wp_bind. eapply (wp_read_records_at p master evs s.2 []); [|exact Hr|..].
  - split_and!; [by rewrite app_nil_r|done|constructor].
  - intros recs s' _ [Hl' _] E. apply wp_ret. split; [unfold unchanged; by rewrite E|by eexists].
  - intros s' e [Hl' _] E. split; [unfold unchanged; by rewrite E|by eexists].
Qed.

(** Reading does not change the data. *)
Definition reads_only (m : handler Response) : Prop := ∀ s,
  api_ok p s → wp m (λ _, same_data s) (λ _, same_data s) s.

Lemma recovered_now self : poisoned self = false → recovered self = vault self.
Proof. unfold recovered. by intros ->. Qed.

Lemma reads_authed request work :
  (∀ c v, caller_ok c → keeps (idle v) (work c) (λ _, True)) → reads_only (authed request work).
Proof.
  intros Hw [w self] Hok. unfold authed. apply wp_lock. intros w1 Hd1. set (self1 := relocked self).
  assert (vault self1 = recovered self) as Hv by (unfold self1, relocked, recovered; by destruct (poisoned self)).
  assert (poisoned self1 = false) as Hp1 by (unfold self1, relocked; by destruct (poisoned self) eqn:E).
  apply recovered_ok in Hok. rewrite <- Hv in Hok. apply (vault_ok_tick p _ w1 _ Hd1) in Hok.
  assert (∀ w', same_data (w, self) (w', self1)) as Hsame by (intros w'; unfold same_data; cbn [fst snd]; by rewrite (recovered_now self1), Hv).
  apply wp_bind, wp_gets. cbn [snd]. destruct (Vault.is_sealed _) eqn:Es; [by apply wp_fail|].
  apply wp_bind, wp_lift; [intros token _|done].
  apply wp_bind, wp_vault_call. destruct (authenticate_who token w1 (vault self1)) as (w' & E & Hd). unfold wp at 1. rewrite E. cbn [fst snd].
  replace (set_vault (vault self1) self1) with self1 by (by destruct self1).
  destruct (who _ _ _) as [c|] eqn:Ec; [|by apply wp_fail].
  destruct (unsealed_live _ w1 (vault self1) Hok) as (master & evs & Hl); [unfold Vault.require_unsealed; by rewrite Es|].
  assert (idle (vault self1) (w', self1)) as Hi by (split; [done|split; [done|split; [done|]]]; exists master, evs; by eapply live_disk).
  assert (∀ s', idle (vault self1) s' → same_data (w, self) s') as Hsd
    by (intros s' (H0 & H1 & H2 & _); unfold same_data; cbn [fst snd]; by rewrite (recovered_now s'.2), <- Hv).
  eapply wp_mono; [apply (Hw c (vault self1)); [by eapply who_ok|done]|..]; cbv beta; intros ? s' [H _]; by apply Hsd.
Qed.

Lemma reads_refused r : reads_only (ret r).
Proof. intros s _. by apply wp_ret. Qed.

Lemma still_ret {I : World * Api → Prop} {A} (a : A) : keeps I (ret a) (λ _, True).
Proof. by apply keeps_return. Qed.

Lemma still_rescue {A} (m : result VaultError.t A) v : keeps (idle v) (rescue (lift m) vault_error) (λ _, True).
Proof. apply keeps_rescue; [apply unlogged_idle|done]. Qed.

Lemma reads_health : reads_only health.
Proof.
  intros [w self] _. unfold health. apply wp_lock. intros w' Hd. apply wp_bind, wp_gets, wp_ret. unfold same_data, recovered, relocked. cbn [fst snd].
  destruct (poisoned self) eqn:E; cbn [poisoned]; by rewrite ?E.
Qed.

Lemma reads_audit request : reads_only (audit request).
Proof.
  apply reads_authed. intros c v Hc. eapply keeps_step; [apply still_audit|]. intros entries _. apply still_ret.
Qed.

Lemma reads_listing request name (f : Caller.t → Vault.t → result VaultError.t (list string)) :
  reads_only (authed request (λ caller, let! slugs := call (Vault.try_ (λ v, f caller v)) in ret (listed name slugs))).
Proof.
  apply reads_authed. intros c v Hc. eapply keeps_step; [apply still_try|]. intros slugs _. apply still_ret.
Qed.

Lemma reads_get request ps es key :
  is_str ps = true → is_str es = true → is_str key = true → reads_only (get_secret request ps es key).
Proof.
  intros Hp He Hk. apply reads_authed. intros c v Hc. eapply keeps_step; [by apply still_get|]. intros value _.
  eapply keeps_step; [apply still_rescue|]. intros text _. apply still_ret.
Qed.

Lemma reads_list request ps es : is_str ps = true → is_str es = true → reads_only (list_secrets request ps es).
Proof.
  intros Hp He. apply reads_authed. intros c v Hc. eapply keeps_step; [by apply still_list|]. intros value _.
  eapply keeps_step; [apply still_rescue|]. intros fields _. apply still_ret.
Qed.

Lemma reads_dispatch request x :
  method request ∈ ["GET"; "HEAD"; "OPTIONS"] → place_ok x → reads_only (dispatch request x).
Proof.
  intros Hm Hx.
  assert (∀ m, m ∉ ["GET"; "HEAD"; "OPTIONS"] → bool_decide (method request = m) = false) as Hno
    by (intros m H; apply bool_decide_eq_false; congruence).
  assert (∀ m work, m ∉ ["GET"; "HEAD"; "OPTIONS"] → reads_only (only (method request) m work)) as Hnot
    by (intros m work H; unfold only; rewrite Hno by done; apply reads_refused).
  assert (∀ work, reads_only work → reads_only (only (method request) "GET" work)) as Hget
    by (intros work H; unfold only; case_bool_decide; [done|apply reads_refused]).
  destruct x as [| | | | | | | | | |id| |project|project environment|project environment key]; cbn [dispatch place_ok] in *;
    rewrite ?(Hno "POST"), ?(Hno "PUT"), ?(Hno "DELETE") by (apply (bool_decide_unpack _); by vm_compute);
    try (apply Hnot; apply (bool_decide_unpack _); by vm_compute).
  - apply Hget, reads_health.
  - apply Hget, reads_audit.
  - case_bool_decide; [apply reads_listing|apply reads_refused].
  - case_bool_decide; [apply (reads_listing _ _ (λ c v, Vault.environment_slugs v c project))|apply reads_refused].
  - destruct Hx. case_bool_decide; [by apply reads_list|apply reads_refused].
  - destruct Hx as (? & ? & ?). case_bool_decide; [by apply reads_get|apply reads_refused].
Qed.
End Reading.

(** The part of a text up to the first separator, or all of it. *)
Definition up_to (sep : byte) (s part : string) : Prop :=
  ∃ rest, as_bytes s = as_bytes part ++ rest ∧ (sep ∉ as_bytes part) ∧ (rest = [] ∨ ∃ more, rest = sep :: more).

Lemma before_up_to sep s part : before sep s = part ↔ up_to sep s part.
Proof.
  assert (up_to sep s (before sep s)) as Hex.
  { unfold before, split, up_to. destruct (decide (sep ∈ as_bytes s)) as [(l1 & l2 & E & Hn)%list_elem_of_split_l|Hn].
    - rewrite E, split_at_byte_join by done. cbn [fmap list_fmap head default from_option]. unfold id. rewrite as_bytes_of_bytes.
      exists (sep :: l2). split; [done|]. split; [done|]. right. by exists l2.
    - rewrite split_at_byte_none by done. cbn [fmap list_fmap head default from_option]. unfold id. rewrite as_bytes_of_bytes.
      exists []. rewrite app_nil_r. split; [done|]. split; [done|]. by left. }
  split; [by intros <-|]. intros (rest & E & Hn & Hr). unfold before, split. rewrite E. destruct Hr as [->|[more ->]].
  - rewrite app_nil_r, split_at_byte_none by done. exact (of_bytes_as_bytes part).
  - rewrite split_at_byte_join by done. exact (of_bytes_as_bytes part).
Qed.

(** The names that pass for this machine's: two of its own, and every one that begins like
    an address of it, be it an address or not. *)
Definition local_name (name : string) : Prop := name = "localhost" ∨ name = "::1" ∨ ∃ rest, name = "127." +:+ rest.

(** A [Host] value with such a name, before a port or in brackets, in any letter case. *)
Definition local_host (host : string) : Prop :=
  let lower := to_ascii_lowercase (trim host) in
  ∃ name, local_name name ∧
    (up_to ":" lower name ∨ ∃ rest, lower = "[" +:+ name +:+ "]" +:+ rest ∧ "]"%byte ∉ as_bytes name).

Lemma starts_with_app p s : starts_with p s = true ↔ ∃ rest, s = p +:+ rest.
Proof.
  unfold starts_with, strip_prefix. split.
  - destruct (strip_prefix_bytes _ _) as [r|] eqn:E; [|done]. intros _. apply strip_prefix_bytes_some in E.
    exists (of_bytes r). apply (inj as_bytes). by rewrite as_bytes_app, as_bytes_of_bytes.
  - intros [rest ->]. by rewrite as_bytes_app, strip_prefix_bytes_app.
Qed.

Lemma local_name_spec name :
  bool_decide (name = "localhost") || bool_decide (name = "127.0.0.1") || bool_decide (name = "::1") || starts_with "127." name = true
  ↔ local_name name.
Proof.
  rewrite !orb_true_iff, !bool_decide_eq_true, starts_with_app. unfold local_name. split; [|tauto].
  intros [[[H|H]|H]|H]; auto. right. right. by exists "0.0.1".
Qed.

Lemma is_this_machine_spec host : is_this_machine host = true ↔ local_host host.
Proof.
  unfold is_this_machine, local_host. cbv zeta. generalize (to_ascii_lowercase (trim host)). intros lower. unfold host_name, strip_prefix.
  destruct (strip_prefix_bytes (as_bytes "[") (as_bytes lower)) as [r|] eqn:E; cbn [fmap option_fmap option_map].
  - apply strip_prefix_bytes_some in E. unfold split_once. rewrite as_bytes_of_bytes. split.
    + destruct (split_once_bytes "]" r) as [[a c]|] eqn:Er; [|done]. cbn [fmap option_fmap option_map fst].
      apply split_once_bytes_some in Er as [-> Hn]. intros Hl%local_name_spec. exists (of_bytes a). split; [done|]. right.
      exists (of_bytes c). rewrite as_bytes_of_bytes. split; [|done]. apply (inj as_bytes).
      rewrite !as_bytes_app, !as_bytes_of_bytes, E. done.
    + intros (name & Hl & [(rest & E' & Hn & _)|(rest & -> & Hn)]).
      { exfalso. rewrite E in E'. destruct Hl as [->|[->|[? ->]]]; [discriminate E'..|]. rewrite as_bytes_app in E'. discriminate E'. }
      rewrite !as_bytes_app in E. apply app_inv_head in E. subst r.
      rewrite (proj2 (split_once_bytes_some _ _ (as_bytes name) (as_bytes rest))) by done.
      cbn [fmap option_fmap option_map fst]. rewrite of_bytes_as_bytes. by apply local_name_spec.
  - rewrite local_name_spec. split.
    + intros Hl. exists (before ":" lower). split; [done|]. left. by apply before_up_to.
    + intros (name & Hl & [<-%before_up_to|(rest & -> & _)]); [done|]. rewrite as_bytes_app, strip_prefix_bytes_app in E. done.
Qed.

(** What a web page in the operator's browser cannot make it send: a request to this
    machine by name, from no website, that is not a form's. *)
Definition addressed_here (request : Request) : Prop :=
  ∃ host, Request.header request "host" = Some host ∧ local_host host.

Definition from_a_website (request : Request) : Prop :=
  ∃ origin, Request.header request "origin" = Some origin ∧ origin ≠ "" ∧ origin ≠ "null".

Definition only_reads (request : Request) : Prop := method request ∈ ["GET"; "HEAD"; "OPTIONS"].

Definition carries_json (request : Request) : Prop :=
  ∃ value media, Request.header request "content-type" = Some value
    ∧ up_to ";" value media ∧ to_ascii_lowercase (trim media) = "application/json".

Lemma refuse_elsewhere_spec request :
  ¬ addressed_here request ∨ from_a_website request →
  refuse_elsewhere request = Some (error_response 421 "this server answers only to its own address").
Proof.
  unfold refuse_elsewhere. intros [H|(origin & Ho & H1 & H2)].
  - destruct (Request.header request "host") as [host|] eqn:E; [|done].
    destruct (is_this_machine host) eqn:Em; [|done]. destruct H. exists host. by apply is_this_machine_spec in Em.
  - rewrite Ho, !bool_decide_eq_false_2 by done. cbn. by rewrite andb_false_r.
Qed.

Lemma refuse_cross_origin_spec request :
  ¬ only_reads request → ¬ carries_json request →
  refuse_cross_origin request = Some (error_response 415 "this endpoint needs a content-type of application/json").
Proof.
  intros Hr Hj. unfold refuse_cross_origin. rewrite bool_decide_eq_false_2 by done.
  destruct (Request.header request "content-type") as [value|] eqn:E; [|done].
  destruct (eq_ignore_ascii_case _ _) eqn:Ej; [|done]. destruct Hj. exists value, (before ";" value). split; [done|].
  split; [by apply before_up_to|]. by apply bool_decide_eq_true in Ej.
Qed.

Lemma respond_reads p request s :
  api_ok p s → is_str (path request) = true → only_reads request → same_data s (respond request s).2.
Proof.
  intros Hok Hp Hr. assert (reads_only p (route request)) as Hroute.
  { destruct (gates request) as [->|[[_ ->]| ->]]; [apply reads_refused..|].
    destruct (locate _) as [x|] eqn:El; [|apply reads_refused]. apply reads_dispatch; [done|].
    eapply locate_ok; [|exact El]. by apply segments_str. }
  apply (respond_cases request s (λ _, same_data s)). eapply wp_mono; [by apply Hroute|..]; cbv beta; by intros r s1 Hs w' _.
Qed.

(** A refusal in front of routing. *)
Lemma respond_refused request r s :
  route request = ret r → (respond request s).1 = r ∧ disk (respond request s).2.1 = disk s.1 ∧ (respond request s).2.2 = s.2.
Proof.
  intros E. apply (respond_cases request s (λ a s', a = r ∧ disk s'.1 = disk s.1 ∧ s'.2 = s.2)). rewrite E. by apply wp_ret.
Qed.

(** C4: a web page cannot act through the operator's browser, but under a name that begins
    with 127. A request whose [Host] is not localhost, ::1 or a name that begins with 127.
    (bare or in brackets, with any port), or whose [Origin] is not empty or null, or that
    changes something without declaring a JSON body, is refused before anything looks at
    it, with nothing on disk or in memory different afterwards; and what a browser may ask
    for without asking first, a GET, a HEAD or an OPTIONS, changes no name, value, account,
    token or key, whoever asks. *)
Theorem web_pages_cannot_act p request s :
  api_ok p s → is_str (path request) = true →
  let '(answer, s') := respond request s in
  (¬ addressed_here request ∨ from_a_website request ∨ ¬ only_reads request ∧ ¬ carries_json request →
     disk s'.1 = disk s.1 ∧ s'.2 = s.2 ∧ HttpClient.status answer ∈ [421; 415])
  ∧ (only_reads request → same_data s s').
Proof.
  intros Hok Hp. destruct (respond request s) as [answer s'] eqn:E. split.
  - intros H. assert (∃ status message, route request = ret (error_response status message) ∧ status ∈ [421; 415]) as (status & message & Er & Hs).
    { destruct (refuse_elsewhere request) as [r|] eqn:Hr.
      - exists 421, "this server answers only to its own address". split; [|by left]. unfold route. rewrite Hr.
        unfold refuse_elsewhere in Hr. destruct (_ && _); [done|]. by injection Hr as <-.
      - exists 415, "this endpoint needs a content-type of application/json". split; [|by right; left].
        destruct H as [H|[H|[Hw Hj]]]; [rewrite refuse_elsewhere_spec in Hr by auto; done..|].
        unfold route. by rewrite Hr, (refuse_cross_origin_spec _ Hw Hj). }
    pose proof (respond_refused request _ s Er) as (H1 & H2 & H3). rewrite E in H1, H2, H3. cbn [fst snd] in *. by rewrite H1.
  - intros Hr. pose proof (respond_reads p request s Hok Hp Hr) as H. by rewrite E in H.
Qed.

(** ** Writing and reading *)

(** The answer to a read. *)
Definition shows (key value : string) : Response :=
  Response.json 200 (Value.to_string (Object [("key", Str key); ("value", Str value)])).

(** A request with a token on an unsealed vault. *)
Lemma wp_authed_live p master evs request work P Q s :
  live p master evs (s.1, vault s.2) → poisoned s.2 = false →
  (∀ c w', caller_ok c → live p master evs (w', vault s.2) → wp (work c) P Q (w', s.2)) →
  (∀ message s', Q (error_response 401 message) s') → wp (authed request work) P Q s.
Proof.
  destruct s as [w self]. cbn [fst snd]. intros Hl Hp Hw HQ. unfold authed. apply wp_lock. intros w1 Hd1. unfold relocked. rewrite Hp.
  apply (live_disk p _ _ _ w1) in Hl; [|done]. apply wp_bind, wp_gets. cbn [snd]. pose proof Hl as (root & b & extra & Hr & _). cbn [snd] in Hr. unfold Vault.is_sealed. rewrite Hr.
  apply wp_bind, wp_lift; [intros token _|intros e; destruct (bearer request); [done|]; by intros [= <-]].
  apply wp_bind, wp_vault_call. destruct (authenticate_who token w1 (vault self)) as (w' & E & Hd). unfold wp at 1. rewrite E. cbn [fst snd].
  replace (set_vault (vault self) self) with self by (by destruct self).
  destruct (who _ _ _) as [c|] eqn:Ec; [|by apply wp_fail].
  apply Hw; [|by eapply live_disk]. eapply (who_ok p w1); [|exact Ec]. right. right. by exists master, evs.
Qed.

Section PutGet.
Variables (p ps es key : string).
Hypothesis (Hps : is_str ps = true) (Hes : is_str es = true) (Hkey : is_str key = true).

(** What a successful write leaves to be read. *)
Definition stored (value : string) (s : World * Api) : Prop :=
  poisoned s.2 = false ∧ is_str value = true ∧ ∃ master evs ids, live p master evs (s.1, vault s.2)
    ∧ Vault.resolve (vault s.2) ps es = Ok ids ∧ readable (vault s.2) (ids.1, ids.2, key) = Some (as_bytes value).

Lemma stored_disk value w w' self : disk w' = disk w → stored value (w, self) → stored value (w', self).
Proof.
  intros Hd (Hp & Hv & m & evs & ids & Hl & H). split; [done|]. split; [done|]. exists m, evs, ids. split; [by eapply live_disk|done].
Qed.

Lemma wp_put_secret master evs request s :
  live p master evs (s.1, vault s.2) → poisoned s.2 = false →
  wp (put_secret request ps es key)
    (λ _ s', ∃ body value, body_of request = Ok body ∧ text body "value" = Some value ∧ stored value s')
    (λ r _, 400 <= HttpClient.status r) s.
Proof.
  intros Hl Hp. unfold put_secret. apply wp_bind, wp_lift; [intros body Hb|apply complains_body].
  apply wp_bind, wp_lift; [intros value Hv%ok_or_ok|by apply complains_ok_or].
  apply (wp_authed_live p master evs); [done..| |done]. intros c w' Hc Hl'. apply wp_bind, wp_vault_call.
  eapply wp_mono; [by apply (wp_set_secret p master evs)|..]; cbv beta; [|by intros [] s' _ w1 _].
  intros _ [w1 v1] (ids & event & at_ & [Hres _] & (Hrew & _ & Hsame & e & rest & Hl1 & _) & _).
  apply wp_ret. exists body, value. split; [done|]. split; [done|]. cbn [fst snd] in *.
  split; [done|]. split; [eapply text_wf; [by eapply json_body_ok|exact Hv]|]. exists master, (evs ++ e :: rest), ids.
  cbn [fst snd vault set_vault]. rewrite Hsame. split; [done|]. split; [done|]. rewrite Hrew. by rewrite decide_True.
Qed.

Lemma wp_get_stored request value s :
  stored value s →
  wp (get_secret request ps es key) (λ r _, r = shows key value) (λ r _, HttpClient.status r ∈ [401; 403; 500]) s.
Proof.
  intros (Hp & Hv & m & evs' & ids & Hl & Hres & Hread).
  apply (wp_authed_live p m evs'); [done..| |by left]. intros c w' Hc Hl'. apply wp_bind, wp_vault_call.
  eapply wp_mono; [by apply (wp_get_secret p m evs')|..]; cbv beta; cbn [snd].
  - intros out [w1 v1] (_ & _ & ids' & [Hres' _] & Hread'). assert (ids' = ids) as -> by congruence.
    assert (out = as_bytes value) as -> by congruence. apply wp_bind, wp_rescue, wp_lift; unfold value_text; rewrite from_utf8_as_bytes by done.
    + intros t [= <-]. by apply wp_ret.
    + done.
  - intros e s1 [[_ [(o & _ & [[_ Hr]|(_ & ids' & _ & Ha)])|[_ [f ->]]]]|(ids' & [Hres' _] & Hread' & _)] w2 _.
    + unfold Vault.resolve_for in Hr. cbn [snd] in Hr. by rewrite Hres in Hr.
    + replace e with VaultError.Forbidden; [by right; left|]. revert Ha. unfold Vault.authorise, Vault.require.
      repeat case_match; by intros [= <-].
    + by right; right; left.
    + assert (ids' = ids) as -> by congruence. congruence.
Qed.
End PutGet.

(** Requests answered one after the other. *)
Definition respond_all (requests : list Request) (s : World * Api) : World * Api :=
  fold_left (λ s request, (respond request s).2) requests s.

Lemma stored_reads p ps es key value request s :
  Log.with_extension p "compacting" ≠ p → is_str (path request) = true → only_reads request →
  stored p ps es key value s → stored p ps es key value (respond request s).2.
Proof.
  intros Hext Hpath Hr (Hpo & Hv & m & evs & ids & Hl & Hres & Hread).
  assert (api_ok p s) as Hok by (unfold api_ok; rewrite Hpo; right; right; eauto).
  destruct (respond_ok p Hext request s Hpath Hok) as [_ Hok']. pose proof (respond_reads p _ _ Hok Hpath Hr) as (Hst & (Hb & Hk & _) & Hpo').
  destruct (respond request s).2 as [w' self'] eqn:E. specialize (Hpo' Hpo). cbn [snd fst] in *.
  unfold api_ok in Hok'. cbn [snd fst] in Hok'. rewrite Hpo' in Hok'. rewrite !recovered_now in Hst, Hb, Hk by done.
  pose proof Hl as (root & b & extra & Hroot & _). cbn [snd] in Hroot.
  destruct (unsealed_live p w' (vault self') Hok') as (m' & evs' & Hl');
    [unfold Vault.require_unsealed, Vault.is_sealed; by rewrite Hk, Hroot|].
  split; [done|]. split; [done|]. exists m', evs', ids. split; [done|]. cbn [snd].
  split; [unfold Vault.resolve in *; by rewrite Hst|]. by rewrite (readable_same (vault s.2)).
Qed.

Lemma stored_respond_all p ps es key value requests s :
  Log.with_extension p "compacting" ≠ p → Forall (λ r, is_str (path r) = true ∧ only_reads r) requests →
  stored p ps es key value s → stored p ps es key value (respond_all requests s).
Proof.
  intros Hext H. revert s. induction H as [|r requests [Hp Hr] _ IH]; intros s Hs; [done|]. by apply IH, stored_reads.
Qed.

(** A PUT that is not refused has stored the value of its body. *)
Lemma put_stores p master evs ps es key put s :
  live p master evs (s.1, vault s.2) → poisoned s.2 = false → is_str (path put) = true →
  method put = "PUT" → locate (segments (path put)) = Some (OneSecret ps es key) → HttpClient.status (respond put s).1 < 400 →
  ∃ body value, body_of put = Ok body ∧ text body "value" = Some value ∧ stored p ps es key value (respond put s).2.
Proof.
  intros Hl Hpo Hpath Hput Hloc Hst.
  assert (place_ok (OneSecret ps es key)) as (Hps & Hes & Hkey) by (eapply locate_ok; [by apply segments_str|exact Hloc]).
  pose proof (wp_put_secret p ps es key Hps Hes Hkey _ _ put s Hl Hpo) as Hw. revert Hst.
  apply (respond_cases put s (λ r s', HttpClient.status r < 400 →
    ∃ body value, body_of put = Ok body ∧ text body "value" = Some value ∧ stored p ps es key value s')).
  destruct (gates put) as [->|[[_ ->]| ->]]; [by apply wp_ret..|]. rewrite Hloc. cbn [dispatch].
  rewrite Hput, bool_decide_eq_false_2, bool_decide_eq_true_2 by done. eapply wp_mono; [exact Hw|..]; cbv beta.
  - intros r [w1 self1] (body & value & Hb & Hv & Hst) w' Hd _. exists body, value. split; [done|]. split; [done|]. by eapply stored_disk.
  - intros r s' Hr w' _ Hst. lia.
Qed.

(** A GET of a stored value shows it, or is refused. *)
Lemma get_shows p ps es key value get s :
  is_str ps = true → is_str es = true → is_str key = true → stored p ps es key value s →
  method get = "GET" → locate (segments (path get)) = Some (OneSecret ps es key) →
  let answer := (respond get s).1 in answer = shows key value ∨ HttpClient.status answer ∈ [401; 403; 421; 500].
Proof.
  intros Hps Hes Hkey Hst Hget Hloc. cbv zeta. pose proof (wp_get_stored p ps es key Hps Hes Hkey get value s Hst) as Hw.
  apply (respond_cases get s (λ answer _, answer = shows key value ∨ HttpClient.status answer ∈ [401; 403; 421; 500])).
  destruct (gates get) as [->|[[H _]| ->]].
  - apply wp_ret. intros _ _. right. by right; right; left.
  - destruct H. rewrite Hget. by left.
  - rewrite Hloc. cbn [dispatch]. rewrite Hget, bool_decide_eq_true_2 by done. eapply wp_mono; [exact Hw|..]; cbv beta.
    + intros r s' -> w' _. by left.
    + intros r s' Hr w' _. right. revert Hr. rewrite !elem_of_cons. tauto.
Qed.

(** C2: what was put is what is got. When a PUT of a secret is answered with 204, a
    GET at the same address, by whoever, after anything at all has been read in between, is
    answered with exactly the value of the PUT's body; or its sender is not authenticated
    or not allowed, or did not address this machine, or the system failed. *)
Theorem put_then_get p master evs ps es key put between get s :
  Log.with_extension p "compacting" ≠ p → live p master evs (s.1, vault s.2) → poisoned s.2 = false →
  is_str (path put) = true → method put = "PUT" → locate (segments (path put)) = Some (OneSecret ps es key) →
  Forall (λ r, is_str (path r) = true ∧ only_reads r) between →
  method get = "GET" → locate (segments (path get)) = Some (OneSecret ps es key) →
  HttpClient.status (respond put s).1 = 204 →
  ∃ body value, body_of put = Ok body ∧ text body "value" = Some value ∧
    let answer := (respond get (respond_all between (respond put s).2)).1 in
    answer = shows key value ∨ HttpClient.status answer ∈ [401; 403; 421; 500].
Proof.
  intros Hext Hl Hpo Hpath Hput Hlocp Hbet Hget Hlocg H204.
  assert (place_ok (OneSecret ps es key)) as (Hps & Hes & Hkey) by (eapply locate_ok; [by apply segments_str|exact Hlocp]).
  destruct (put_stores p master evs ps es key put s) as (body & value & Hb & Hv & Hst); [done..|lia|].
  exists body, value. split; [done|]. split; [done|]. apply (get_shows p ps es key value get); [done..| |done|done].
  by apply stored_respond_all.
Qed.
End ApiClaims.
End ApiClaims.

(** ** A server to try them on *)

Module ApiDemo.
Export VaultDemo HttpDemo.
Import VaultSpec VaultSecrets VaultAccess Server Api ApiSpec ApiClaims.

Definition api0 : World * Api := (booted.1, Api.new booted.2).

(** Initialised, with a project, an environment, a secret, and a session. *)
Definition set_up : list request := [VaultServer.Login "dev@example.com" "correct horse" 43200].
Definition vault1 : World * Vault.t := Server.serve set_up s2.
Definition session1 : string :=
  match Vault.login "dev@example.com" "correct horse" 43200 s2 with (Ok secret, _) => secret | _ => "" end.
Definition api1 : World * Api := (vault1.1, Api.new vault1.2).

Definition secret_path : string := "/v1/projects/app/envs/prod/secrets/KEY".
Definition own (token : string) : list (string * string) := [("host", "localhost:7770"); ("authorization", "Bearer " +:+ token)].
Definition json : string * string := ("content-type", "application/json; charset=utf-8").

Definition put1 : Request :=
  mk_request "PUT" secret_path [] (json :: own session1)
    (as_bytes (Value.to_string (Object [("value", Str "hunter2")]))).
Definition get1 : Request := mk_request "GET" secret_path [] (own session1) [].
Definition list1 : Request := mk_request "GET" "/v1/projects/app/envs/prod/secrets" [] (own session1) [].

Lemma live1 : ∃ master evs, live path0 master evs vault1.
Proof.
  destruct live2 as (master & evs & H).
  destruct (serve_grown path0 master evs set_up s2 H) as (new & H2 & _); [by repeat constructor|]. by eexists _, _.
Qed.

Lemma api_ok1 : api_ok path0 api1.
Proof. destruct live1 as (master & evs & H). right. right. exists master, evs.
  change (live path0 master evs (vault1.1, vault1.2)). by rewrite <- surjective_pairing. Qed.

(** The text of a request on a connection. *)
Definition arriving (request : Request) : Conn :=
  mk_conn [] [Bytes (line (method request +:+ " " +:+ path request +:+ " HTTP/1.1")
    ++ concat ((λ h, line (h.1 +:+ ": " +:+ h.2)) <$> headers request) ++ CRLF)] 0.

Lemma server_answers_witness :
  match (ApiClaims.serve Limits_default (arriving (mk_request "GET" "/v1/sys/health" [] [("host", "localhost")] [])) api0).1 with
  | Some out => well_answered out
  | None => False
  end.
Proof.
  pose proof (server_answers Limits_default path0 world0 (Up api0) path0_apart openable0
    (rtc_once _ _ (step_boot _ _ _ _ _ boot_ok))) as [_ H].
  specialize (H (arriving (mk_request "GET" "/v1/sys/health" [] [("host", "localhost")] []))).
  destruct (ApiClaims.serve _ _ _).1 as [out|] eqn:E; [exact H|]. vm_compute in E. discriminate E.
Defined.

Definition stray : Request := mk_request "GET" secret_path [] (own "not a token") [].

Lemma strangers_are_turned_away_witness :
  let '(answer, s') := respond stray api1 in HttpClient.status answer = 401 ∧ s'.2 = api1.2.
Proof.
  assert (stranger stray api1) as Hst by (intros presented [= <-]; by vm_compute).
  assert (∀ x, locate (segments (path stray)) = Some x → public x = false) as Hx by (intros x; vm_compute; by intros [= <-]).
  assert (HttpClient.status (respond stray api1).1 = 401) as Hs by by vm_compute.
  pose proof (strangers_are_turned_away stray api1 Hst Hx) as H.
  destruct (respond stray api1) as [answer s']. split; [exact Hs|].
  destruct H as (_ & _ & [H|H]); [exact H|]. rewrite H. unfold lock, bind, reads, gets. cbn [fst snd]. unfold api1. by cbn [snd poisoned Api.new].
Defined.

Lemma web_pages_cannot_act_witness :
  let evil := mk_request "PUT" secret_path [] (("origin", "https://example.com") :: headers put1) (body put1) in
  disk (respond evil api1).2.1 = disk api1.1 ∧ (respond evil api1).2.2 = api1.2 ∧ same_data api1 (respond list1 api1).2.
Proof.
  intros evil. apply and_assoc. split.
  - pose proof (web_pages_cannot_act path0 evil api1 api_ok1 eq_refl) as H. destruct (respond evil api1) as [answer s'].
    destruct H as [(Hd & Hs & _) _]; [right; left; by exists "https://example.com"|]. by split.
  - pose proof (web_pages_cannot_act path0 list1 api1 api_ok1 eq_refl) as H. destruct (respond list1 api1) as [answer s'].
    apply H. by left.
Defined.

Lemma put_then_get_witness :
  HttpClient.status (respond put1 api1).1 = 204
  ∧ (respond get1 (respond_all [list1] (respond put1 api1).2)).1 = shows "KEY" "hunter2".
Proof.
  assert (HttpClient.status (respond put1 api1).1 = 204) as H204 by by vm_compute. split; [exact H204|].
  destruct live1 as (master & evs & Hl).
  assert (live path0 master evs (api1.1, vault api1.2)) as Hl'
    by (change (live path0 master evs (vault1.1, vault1.2)); by rewrite <- surjective_pairing).
  destruct (put_then_get path0 master evs "app" "prod" "KEY" put1 [list1] get1 api1 path0_apart Hl' eq_refl
    ltac:(by vm_compute) eq_refl ltac:(by vm_compute) ltac:(by repeat constructor) eq_refl ltac:(by vm_compute) H204)
    as (b & value & Hb & Hv & Hg).
  assert (value = "hunter2") as -> by (vm_compute in Hb; injection Hb as <-; vm_compute in Hv; by injection Hv).
  destruct Hg as [Hg|Hg]; [exact Hg|]. vm_compute in Hg. by repeat (apply elem_of_cons in Hg as [Hg|Hg]; [done|]).
Defined.

(** The test for this machine goes by the first letters, and a name that begins like an
    address of it passes. *)
Lemma named_like_an_address : is_this_machine "127.0.0.1.example.com:7770" = true.
Proof. by vm_compute. Qed.
End ApiDemo.
