(* ===== verification/Dotenv.v ===== *)
(** * The dotenv format

    Models the dotenv part of [crates/ls-cli/src/commands.rs]: quoting a value for a
    file, and reading a file. What is exported is what is imported. *)

From S2P Require Import Prelude Text World Event JsonParser Validate.
From Stdlib Require Import Strings.Byte.

Module dotenv.

(** ** The standard library's lines *)

Definition strip_return (line : list byte) : list byte :=
  if decide (last line = Some x0d) then removelast line else line.

(** [str::lines]: each but the last loses its carriage return with the line feed; no line
    comes after the last line feed. *)
Fixpoint lines_of (pieces : list (list byte)) : list (list byte) :=
  match pieces with
  | [] => []
  | [rest] => if decide (rest = []) then [] else [rest]
  | line :: pieces => strip_return line :: lines_of pieces
  end.

Definition lines (text : string) : list string := of_bytes <$> lines_of (split_at_byte x0a (as_bytes text)).

(** ** Quoting *)

Definition special (c : Z) : bool :=
  is_whitespace c || existsb (Z.eqb c) [34; 39; 92; 35; 36; 61].

Definition needs_quotes (value : string) : bool := bool_decide (value = "") || existsb special (chars value).

Definition quote_char (c : Z) : list Z :=
  if c =? 34 then [92; 34]
  else if c =? 92 then [92; 92]
  else if c =? 10 then [92; 110]
  else if c =? 13 then [92; 114]
  else [c].

Definition dotenv_quote (value : string) : string :=
  if negb (needs_quotes value) then value
  else of_chars (34 :: concat (quote_char <$> chars value) ++ [34]).

(** ** Reading *)

(** The loop of [unquote] over what is between double quotes. *)
Fixpoint unescape (l : list Z) : list Z :=
  match l with
  | [] => []
  | c :: rest =>
    if negb (c =? 92) then c :: unescape rest
    else match rest with
         | [] => [92]
         | e :: rest =>
           (if e =? 110 then 10 else if e =? 114 then 13 else if e =? 116 then 9 else e) :: unescape rest
         end
  end.

(** The byte on both ends, of a text of at least two. *)
Definition between (q : byte) (bytes : list byte) : bool :=
  (2 <=? length bytes)%nat && bool_decide (head bytes = Some q) && bool_decide (last bytes = Some q).

Definition unquote (value : string) : string :=
  let bytes := as_bytes value in
  if negb (between x22 bytes || between x27 bytes) then value else
  let inner := of_bytes (removelast (tail bytes)) in
  if bool_decide (head bytes = Some x27) then inner
  else of_chars (unescape (chars inner)).

(** The body of the loop of [parse_dotenv]. *)
Definition entry (line : string) : option (string * string) :=
  let line := trim line in
  if bool_decide (line = "") || starts_with "#" line then None else
  let line := trim (default line (strip_prefix "export " line)) in
  match split_once "=" line with
  | None => None
  | Some (key, value) =>
    let key := trim key in
    if bool_decide (key = "") then None else Some (key, unquote (trim value))
  end.

Definition parse_dotenv (text : string) : list (string * string) := omap entry (lines text).

(** A line of [export], as [println!] writes it. *)
Definition export_line (secret : string * string) : string :=
  secret.1 +:+ "=" +:+ dotenv_quote secret.2 +:+ of_bytes [x0a].

Definition export_dotenv (secrets : list (string * string)) : string :=
  of_bytes (concat (as_bytes ∘ export_line <$> secrets)).

Example parse_variety :
  parse_dotenv (of_bytes (as_bytes "# c" ++ [x0d; x0a] ++ as_bytes " export A = 'x y' " ++ [x0a; x0a] ++ as_bytes "=1" ++ [x0a]
    ++ as_bytes "B=" ++ [x22] ++ as_bytes "a\n\" ++ [x22; x22; x0a] ++ as_bytes "C=v # not a comment"))
  = [("A", "x y"); ("B", of_bytes [x61; x0a; x22]); ("C", "v # not a comment")].
Proof. by vm_compute. Qed.

(** ** Round trip *)

Lemma chars_app s t : is_str s = true → is_str t = true → chars (s +:+ t) = chars s ++ chars t.
Proof.
  intros Hs Ht. unfold chars at 1. rewrite as_bytes_app.
  by rewrite (decode_app_some _ _ _ _ (is_str_chars _ Hs) (is_str_chars _ Ht)).
Qed.

Lemma trim_kept s :
  is_str s = true → (∀ c, head (chars s) = Some c → is_whitespace c = false) →
  (∀ c, last (chars s) = Some c → is_whitespace c = false) → trim s = s.
Proof.
  intros Hs Hh Hl. unfold trim. assert (trim_with is_whitespace (chars s) = chars s) as ->; [|by apply of_chars_chars].
  destruct (chars s) as [|x l]; [done|]. specialize (Hh x eq_refl).
  destruct l as [|y l _] using rev_ind; [unfold trim_with; cbn; by rewrite Hh; cbn; rewrite Hh|].
  apply trim_with_id; [done|]. apply Hl. change (x :: l ++ [y]) with ((x :: l) ++ [y]). apply last_snoc.
Qed.

Lemma unescape_quoted cs : unescape (concat (quote_char <$> cs)) = cs.
Proof.
  induction cs as [|c cs IH]; [done|]. cbn [fmap list_fmap concat]. unfold quote_char at 1.
  repeat (match goal with |- context [?a =? ?b] => destruct (Z.eqb_spec a b) as [->|?] end; [cbn; by f_equal|]).
  cbn [app unescape]. rewrite (proj2 (Z.eqb_neq c 92)) by done. cbn. by f_equal.
Qed.

(** An ASCII byte of a text is one of its characters. *)
Lemma ascii_in_chars b s : is_str s = true → is_ascii b = true → b ∈ as_bytes s → Z_of_byte b ∈ chars s.
Proof.
  intros Hs Hb Hin. pose proof (chars_scalar s) as Hc. rewrite <- (of_chars_chars s) in Hin by done.
  unfold of_chars in Hin. rewrite as_bytes_of_bytes in Hin. induction (chars s) as [|c cs IH]; [by apply elem_of_nil in Hin|].
  cbn [forallb] in Hc. apply andb_prop in Hc as [Hc Hcs]. rewrite encode_chars_cons in Hin. apply elem_of_app in Hin as [Hin|Hin].
  - apply elem_of_cons. left. destruct (Z.lt_ge_cases c 0x80) as [Hlt|Hge]; [|by apply (Parser.encode_char_high c b) in Hge].
    unfold encode_char in Hin. rewrite (proj2 (Z.ltb_lt _ _)) in Hin by done. apply list_elem_of_singleton in Hin as ->.
    apply is_scalar_spec in Hc. rewrite Z_of_byte_of_Z, Z.mod_small; lia.
  - right. by apply IH.
Qed.

(** What a quoted value is, for the lines and the trimming around it. *)
Definition contained (q : string) : Prop :=
  is_str q = true ∧ (x0a ∉ as_bytes q) ∧ last (as_bytes q) ≠ Some x0d
  ∧ (∀ c, head (chars q) = Some c → is_whitespace c = false)
  ∧ (∃ cs c, chars q = cs ++ [c] ∧ is_whitespace c = false).

Lemma plain_chars v : needs_quotes v = false → v ≠ "" ∧ ∀ c, c ∈ chars v → special c = false.
Proof.
  unfold needs_quotes. intros [H1 H2]%orb_false_elim. apply bool_decide_eq_false in H1. split; [done|].
  intros c Hc. apply not_true_iff_false. intros Ht. apply not_true_iff_false in H2. apply H2, existsb_exists.
  exists c. by rewrite <- list_elem_of_In.
Qed.

Lemma plain_contained v : is_str v = true → needs_quotes v = false → contained v ∧ unquote v = v.
Proof.
  intros Hv Hn. destruct (plain_chars v Hn) as [Hne Hp].
  assert (∀ b, is_ascii b = true → special (Z_of_byte b) = true → b ∉ as_bytes v) as Hno.
  { intros b Hb Hs Hin. apply ascii_in_chars in Hin; [|done..]. apply Hp in Hin. congruence. }
  assert (∀ c, c ∈ chars v → is_whitespace c = false) as Hw by (intros c Hc; apply Hp in Hc; unfold special in Hc; by apply orb_false_elim in Hc as [Hc _]).
  split; [split_and!|].
  - done.
  - by apply Hno.
  - intros E. apply (Hno x0d); [done..|]. by apply last_Some_elem_of.
  - intros c Hc. apply Hw. destruct (chars v); [done|]. injection Hc as ->. by left.
  - destruct (chars v) as [|c cs _] eqn:E using rev_ind.
    { destruct Hne. rewrite <- (of_chars_chars v), E by done. done. }
    exists cs, c. split; [done|]. apply Hw. apply elem_of_app. right. by left.
  - unfold unquote. assert (∀ q, is_ascii q = true → special (Z_of_byte q) = true → between q (as_bytes v) = false) as Hb.
    { intros q Ha Hs. unfold between. destruct (bool_decide_reflect (head (as_bytes v) = Some q)) as [E|E];
        [|by rewrite andb_false_r]. destruct (Hno q Ha Hs). destruct (as_bytes v); [done|]. injection E as ->. by left. }
    by rewrite !Hb.
Qed.

Lemma quote_char_scalar cs : forallb is_scalar cs = true → forallb is_scalar (concat (quote_char <$> cs)) = true.
Proof.
  induction cs as [|c cs IH]; [done|]. cbn [forallb fmap list_fmap concat]. intros [Hc Hcs]%andb_prop.
  rewrite forallb_app, IH by done. rewrite andb_true_r. unfold quote_char.
  repeat (match goal with |- context [?a =? ?b] => destruct (a =? b) end; [done|]). cbn. by rewrite Hc.
Qed.

Lemma quote_char_unbroken cs : 10 ∉ concat (quote_char <$> cs).
Proof.
  induction cs as [|c cs IH]; [by apply not_elem_of_nil|]. cbn [fmap list_fmap concat]. apply not_elem_of_app. split; [|done].
  unfold quote_char. repeat (match goal with |- context [?a =? ?b] => destruct (Z.eqb_spec a b) as [->|?] end;
    [apply (bool_decide_unpack _); by vm_compute|]). intros E%list_elem_of_singleton. congruence.
Qed.

Lemma quoted_contained v :
  is_str v = true → needs_quotes v = true → contained (dotenv_quote v) ∧ unquote (dotenv_quote v) = v.
Proof.
  intros Hv Hn. unfold dotenv_quote. rewrite Hn. cbn [negb]. set (m := concat (quote_char <$> chars v)).
  assert (forallb is_scalar m = true) as Hm by apply quote_char_scalar, chars_scalar.
  assert (forallb is_scalar (34 :: m ++ [34]) = true) as Hs by (cbn [forallb]; by rewrite forallb_app, Hm).
  assert (as_bytes (of_chars (34 :: m ++ [34])) = x22 :: encode_chars m ++ [x22]) as Hb
    by (unfold of_chars; by rewrite as_bytes_of_bytes, encode_chars_cons, encode_chars_app).
  split; [split_and!|].
  - by apply is_str_of_chars.
  - intros Hin. apply ascii_in_chars in Hin; [|by apply is_str_of_chars|done]. rewrite chars_of_chars in Hin by done.
    apply elem_of_cons in Hin as [Hin|[Hin|Hin%list_elem_of_singleton]%elem_of_app]; [done| |done].
    by apply quote_char_unbroken in Hin.
  - rewrite Hb. change (x22 :: encode_chars m ++ [x22]) with ((x22 :: encode_chars m) ++ [x22]). by rewrite last_snoc.
  - rewrite chars_of_chars by done. by intros c [= <-].
  - exists (34 :: m), 34. by rewrite chars_of_chars.
  - unfold unquote. rewrite Hb. assert (between x22 (x22 :: encode_chars m ++ [x22]) = true) as ->.
    { unfold between. cbn [head]. change (x22 :: encode_chars m ++ [x22]) with ((x22 :: encode_chars m) ++ [x22]).
      rewrite last_snoc, length_app. cbn [length]. rewrite !bool_decide_eq_true_2 by done.
      by rewrite (proj2 (Nat.leb_le _ _)) by lia. }
    cbn [orb negb head tail]. rewrite bool_decide_eq_false_2 by done. rewrite removelast_last.
    change (of_bytes (encode_chars m)) with (of_chars m). rewrite chars_of_chars by done. unfold m. rewrite unescape_quoted.
    by apply of_chars_chars.
Qed.

Lemma quote_contained v : is_str v = true → contained (dotenv_quote v) ∧ unquote (dotenv_quote v) = v.
Proof.
  intros Hv. destruct (needs_quotes v) eqn:E; [by apply quoted_contained|].
  unfold dotenv_quote. rewrite E. by apply plain_contained.
Qed.

Lemma contained_trim q : contained q → trim q = q.
Proof.
  intros (Hs & _ & _ & Hh & cs & c & E & Hc). apply trim_kept; [done|done|]. rewrite E, last_snoc. by intros c' [= <-].
Qed.

(** *** A line *)

Lemma key_byte_facts b :
  validate.key_byte b = true → is_ascii b = true ∧ is_whitespace (Z_of_byte b) = false ∧ b ≠ "="%byte ∧ b ≠ " "%byte ∧ b ≠ "#"%byte ∧ b ≠ x0a.
Proof. by destruct b. Qed.

Definition key_ok (k : string) : Prop := k ≠ "" ∧ forallb validate.key_byte (as_bytes k) = true.

Lemma key_ok_elem k b : key_ok k → b ∈ as_bytes k → validate.key_byte b = true.
Proof. intros [_ H] Hb. rewrite forallb_forall in H. by apply H, list_elem_of_In. Qed.

Lemma key_ok_secret k : validate.secret_key k = Ok k → key_ok k.
Proof.
  unfold validate.secret_key. destruct (bool_decide_reflect (k = "")); [done|]. destruct (_ <? _); [done|]. cbn [orb].
  destruct (forallb _ _) eqn:E; [done|]. done.
Qed.

Lemma key_chars k : key_ok k → is_str k = true ∧ chars k = Z_of_byte <$> as_bytes k.
Proof.
  intros H. assert (forallb is_ascii (as_bytes k) = true) as Ha.
  { apply forallb_forall. intros b Hb. apply list_elem_of_In, (key_ok_elem _ _ H), key_byte_facts in Hb. tauto. }
  split; [by apply is_str_ascii|]. unfold chars. by rewrite decode_ascii.
Qed.

Lemma key_cons k : key_ok k → ∃ b l, as_bytes k = b :: l ∧ validate.key_byte b = true.
Proof.
  intros H. pose proof H as [Hne _]. destruct (as_bytes k) as [|b l] eqn:E; [by apply as_bytes_nil in E|].
  exists b, l. split; [done|]. apply (key_ok_elem k); [done|]. rewrite E. by left.
Qed.

Lemma key_trim k : key_ok k → trim k = k.
Proof.
  intros H. destruct (key_chars k H) as [Hs Hc].
  assert (∀ c, c ∈ chars k → is_whitespace c = false) as Hw.
  { rewrite Hc. intros c (b & -> & Hb)%list_elem_of_fmap. apply (key_ok_elem _ _ H), key_byte_facts in Hb. tauto. }
  apply trim_kept; [done|..]; intros c E; apply Hw; [|by apply last_Some_elem_of].
  destruct (chars k); [done|]. injection E as ->. by left.
Qed.

Lemma no_export k q r : key_ok k → as_bytes k ++ "="%byte :: q ≠ as_bytes "export " ++ r.
Proof.
  intros H E. assert (" "%byte ∉ as_bytes k) as Hsp by (intros Hb; apply (key_ok_elem _ _ H), key_byte_facts in Hb; tauto).
  apply app_eq_app in E as [l [[E1 E2]|[E1 E2]]].
  - apply Hsp. rewrite E1. apply elem_of_app. left. apply (bool_decide_unpack _). by vm_compute.
  - destruct l as [|b l]; [apply Hsp; rewrite app_nil_r in E1; rewrite <- E1; apply (bool_decide_unpack _); by vm_compute|].
    injection E2 as <- _. assert ("="%byte ∉ as_bytes "export ") as Hn by (apply (bool_decide_unpack _); by vm_compute).
    apply Hn. rewrite E1. apply elem_of_app. right. by left.
Qed.

Lemma entry_of_line k v : key_ok k → is_str v = true → entry (k +:+ "=" +:+ dotenv_quote v) = Some (k, v).
Proof.
  intros Hk Hv. destruct (quote_contained v Hv) as [Hq Hu]. set (q := dotenv_quote v) in *. pose proof Hq as (Hqs & _ & _ & _ & cs & c & Ec & Hc).
  destruct (key_chars k Hk) as [Hks Hkc]. destruct (key_cons k Hk) as (b & l & Eb & Hb). apply key_byte_facts in Hb as Hbf.
  set (line := k +:+ "=" +:+ q). assert (as_bytes line = as_bytes k ++ "="%byte :: as_bytes q) as Hbytes
    by (unfold line; by rewrite !as_bytes_app).
  assert (chars line = chars k ++ 61 :: chars q) as Hch.
  { unfold line. rewrite chars_app; [|done|by apply is_str_app]. f_equal. by rewrite chars_app. }
  assert (trim line = line) as Htl.
  { apply trim_kept; [by repeat apply is_str_app|..]; rewrite Hch.
    - rewrite Hkc, Eb. intros x [= <-]. tauto.
    - rewrite Ec. change (chars k ++ 61 :: cs ++ [c]) with (chars k ++ (61 :: cs) ++ [c]). rewrite app_assoc, last_snoc. by intros x [= <-]. }
  unfold entry. rewrite Htl. rewrite bool_decide_eq_false_2.
  2: { intros E%as_bytes_nil. rewrite Hbytes, Eb in E. done. }
  assert (starts_with "#" line = false) as ->.
  { unfold starts_with, strip_prefix. rewrite Hbytes, Eb. cbn [app strip_prefix_bytes as_bytes String.list_byte_of_string].
    cbn. rewrite decide_False by (intros E; symmetry in E; tauto). done. }
  assert (strip_prefix "export " line = None) as ->.
  { unfold strip_prefix. destruct (strip_prefix_bytes _ _) as [r|] eqn:E; [|done]. apply strip_prefix_bytes_some in E.
    rewrite Hbytes in E. by apply no_export in E. }
  cbn [orb default]. rewrite Htl. unfold split_once. rewrite Hbytes, (proj2 (split_once_bytes_some "=" _ (as_bytes k) (as_bytes q))).
  2: { split; [done|]. intros Hin. apply (key_ok_elem _ _ Hk), key_byte_facts in Hin. tauto. }
  rewrite !of_bytes_as_bytes. rewrite (key_trim k Hk), (contained_trim q Hq), bool_decide_eq_false_2, Hu; [done|by apply Hk].
Qed.

Lemma lines_of_lines ls : Forall (λ l, last l ≠ Some x0d) ls → lines_of (ls ++ [[]]) = ls.
Proof.
  induction 1 as [|l ls Hl _ IH]; [done|]. cbn [app]. replace (lines_of (l :: ls ++ [[]])) with (strip_return l :: lines_of (ls ++ [[]])).
  - rewrite IH. unfold strip_return. by rewrite decide_False.
  - by destruct ls.
Qed.

(** Values that need quoting, one of them for a quote, a line feed, a backslash and more. *)
Definition sample : list (string * string) :=
  [("DATABASE_URL", "postgres://u:p=w@h/db?x=1#y"); ("KEY", of_bytes [x22; x0a; x5c; x27; x09]); ("EMPTY", "")].

(** C34: what [export] writes, [import] reads: every secret a vault can hold, under
    its key, with any text at all for its value, in order. *)
Theorem import_of_export secrets :
  Forall (λ kv, validate.secret_key kv.1 = Ok kv.1 ∧ is_str kv.2 = true) secrets →
  parse_dotenv (export_dotenv secrets) = secrets.
Proof.
  intros H. unfold parse_dotenv, lines, export_dotenv. rewrite as_bytes_of_bytes.
  set (bare := λ kv : string * string, as_bytes (kv.1 +:+ "=" +:+ dotenv_quote kv.2)).
  assert (as_bytes ∘ export_line <$> secrets = (λ l, l ++ [x0a]) <$> (bare <$> secrets)) as ->.
  { rewrite <- list_fmap_compose. apply list_fmap_ext. intros _ kv _. unfold export_line, bare, compose.
    by rewrite !as_bytes_app, <- !app_assoc. }
  assert (∀ kv, kv ∈ secrets → key_ok kv.1 ∧ contained (dotenv_quote kv.2) ∧ is_str kv.2 = true) as Hkv.
  { intros kv Hin. rewrite Forall_forall in H. destruct (H kv Hin) as [Hk Hv]. split; [by apply key_ok_secret|].
    split; [by apply quote_contained|done]. }
  rewrite split_at_byte_lines, lines_of_lines.
  - rewrite <- list_fmap_compose. induction secrets as [|[k v] secrets IH]; [done|].
    destruct (Hkv (k, v)) as (Hk & _ & Hv); [by left|]. apply Forall_cons in H as [_ H]. cbn [fst snd] in *.
    rewrite fmap_cons. cbn [omap list_omap]. unfold compose at 1, bare at 1. rewrite of_bytes_as_bytes. cbn [fst snd].
    rewrite entry_of_line by done. f_equal. apply IH; [done|]. intros kv Hin. apply Hkv. by right.
  - apply Forall_fmap, Forall_forall. intros kv Hin. destruct (Hkv kv Hin) as (_ & (_ & _ & Hl & _ & cs & c & Ec & _) & _).
    unfold compose, bare. rewrite !as_bytes_app, !last_app. destruct (last (as_bytes (dotenv_quote kv.2))) eqn:E; [done|].
    apply last_None in E. unfold chars in Ec. rewrite E in Ec. cbn in Ec. by destruct cs.
  - apply Forall_fmap, Forall_forall. intros kv Hin. destruct (Hkv kv Hin) as (Hk & (_ & Hn & _) & _). unfold compose, bare.
    rewrite !as_bytes_app. intros [Hb|[Hb|Hb]%elem_of_app]%elem_of_app; [|by apply list_elem_of_singleton in Hb|done].
    apply (key_ok_elem _ _ Hk), key_byte_facts in Hb. tauto.
Qed.

Lemma import_of_export_witness : parse_dotenv (export_dotenv sample) = sample.
Proof. apply import_of_export. repeat (apply Forall_cons; split; [by split; vm_compute|]). by apply Forall_nil. Defined.
End dotenv.
