(* ===== verification/Redacted.v ===== *)
(** * What is printed of keys, tokens, requests and answers

    Models the [Debug] forms that the source writes by hand instead of deriving, so that
    a value that ends in a log or a panic message does not take a secret with it, and the
    remaining [Display] forms: [aead.rs], [token.rs], [shamir.rs], [password.rs],
    [random.rs] and [time.rs] of [crates/ls-core], [event.rs] of [crates/ls-store], and
    [request.rs], [response.rs] and [client.rs] of [crates/ls-http]. *)

From S2P Require Import Prelude Text Timestamp World Token Shamir Aead Event Password Errors Http HttpRequest HttpClient.
From Stdlib Require Import Strings.Byte.

(** ** The standard library's helpers, on one line *)

Fixpoint separated (between : string) (parts : list string) : string :=
  match parts with
  | [] => ""
  | [part] => part
  | part :: rest => part +:+ between +:+ separated between rest
  end.

(** [Formatter::debug_struct], a name and its fields. *)
Definition debug_struct (name : string) (fields : list (string * string)) : string :=
  name +:+ " { " +:+ separated ", " ((λ f, f.1 +:+ ": " +:+ f.2) <$> fields) +:+ " }".

(** The [Debug] form of a slice. *)
Definition debug_slice (items : list string) : string := "[" +:+ separated ", " items +:+ "]".

Definition show_len {A} (l : list A) : string := show_Z (Z.of_nat (length l)).

Section Shown.
Context {DebugI : DebugText}.

(** ** Keys, tokens and shares *)

Definition aad_debug (self : Aad.t) : string := "Aad(" +:+ show_len (Aad.as_bytes self) +:+ " bytes)".

Definition data_key_debug (self : DataKey.t) : string := "DataKey([redacted; " +:+ show_Z (Z.of_nat KEY_LEN) +:+ "])".

Definition token_hash_debug (self : token.TokenHash) : string := "TokenHash(..)".

Definition issued_token_debug (self : token.IssuedToken) : string :=
  debug_struct "IssuedToken" [("secret", debug_text "[redacted]"); ("hash", token_hash_debug (token.issued_hash self))].

Definition share_debug (self : shamir.Share) : string :=
  debug_struct "Share" [("index", show_Z (Z_of_byte (shamir.index self))); ("data", debug_text "[redacted]")].

Definition sealed_debug (self : Sealed.t) : string := "Sealed(" +:+ show_len (Sealed.ciphertext self) +:+ " bytes)".

(** ** Requests and answers *)

Definition names_debug (fields : list (string * string)) : string := debug_slice (debug_text <$> fields.*1).

Definition request_debug (self : Request) : string :=
  debug_struct "Request"
    [("method", debug_text (method self)); ("path", debug_text (path self)); ("query", names_debug (query self));
     ("headers", names_debug (headers self)); ("body_len", show_len (body self))].

Definition response_debug (self : Response) : string :=
  debug_struct "Response"
    [("status", show_Z (status self)); ("headers", names_debug (response_headers self)); ("body_len", show_len (response_body self))].

Definition client_response_debug (self : ClientResponse) : string :=
  debug_struct "ClientResponse" [("status", show_Z (client_status self)); ("body_len", show_len (client_body self))].

(** ** Messages *)

Definition aead_error_to_string (self : AeadError) : string :=
  match self with
  | Decrypt => "could not decrypt"
  | PlaintextTooLarge len max => "value is " +:+ show_Z len +:+ " bytes, limit is " +:+ show_Z max
  | Encrypt => "could not encrypt"
  | Aead.Entropy => "could not read entropy"
  end.

Definition password_error_to_string (self : password.PasswordError) : string :=
  match self with
  | password.TooShort len min => "password must be at least " +:+ show_Z min +:+ " characters, got " +:+ show_Z len
  | password.TooLong len max => "password must be at most " +:+ show_Z max +:+ " bytes, got " +:+ show_Z len
  | password.Hashing detail => "could not hash password: " +:+ detail
  | password.Entropy => "could not read entropy"
  end.

(** [EntropyError] has one value. *)
Definition entropy_error_to_string : string := "could not read entropy from the operating system".

Definition timestamp_to_string (self : Timestamp.t) : string := Timestamp.to_rfc3339 self.

(** ** What they keep to themselves *)

(** What of a request may be printed: everything but the values of its query and its
    headers, and the bytes of its body. *)
Definition traceable (r : Request) : string * string * list string * list string * nat :=
  (method r, path r, (query r).*1, (headers r).*1, length (body r)).

Lemma request_debug_redacted r r' : traceable r = traceable r' → request_debug r = request_debug r'.
Proof.
  unfold traceable, request_debug, names_debug, show_len. intros [= -> -> -> -> E]. by rewrite E.
Qed.
End Shown.
