(* ===== verification/CliHost.v ===== *)
(** * What the command line client runs on

    The process and its machine as [crates/ls-cli] sees them: environment variables,
    files, the terminal, standard output, the network and the programs it starts. Then
    [config.rs] and [input.rs], which are built on that. An error of the operating system
    is the text it prints as. *)

From S2P Require Import Prelude Text Http HttpClient Dotenv.
From Stdlib Require Import Strings.Byte.

(** Why a file cannot be read, removed or written. *)
Inductive FileError := Missing | NotText | Refused (text : string).

(** The machine: which file operations fail, and after how many bytes of a write; the
    terminal; the other end of the network, which may not be reached, and what it makes
    of the bytes of a connection; the programs. A connection that is closed without a
    byte leaves the other end as it was. *)
Class Machine := {
  file_fault : nat → option (string * nat);
  file_text : FileError → string;
  is_a_terminal : bool;
  stty : list string → bool;
  remote : Type;
  resolve : string → result string (list string);
  dial : string → remote → option string;
  transmit : string → list byte → remote → result string (list byte) * remote;
  spawn : string → list string → list (string * string) → result string (option Z);
}.

Section Host.
Context {MachineI : Machine}.

(** The modes are those of the files and directories this process has set them for. *)
Record Host := mk_host {
  vars : gmap string (list byte);
  files : gmap string (list byte);
  modes : gmap string Z;
  operations : nat;
  stdin : list byte;
  stdout : list byte;
  stderr : list byte;
  peer : remote;
}.

Definition set_files (f : gmap string (list byte)) (h : Host) : Host :=
  mk_host (vars h) f (modes h) (operations h) (stdin h) (stdout h) (stderr h) (peer h).
Definition set_modes (m : gmap string Z) (h : Host) : Host :=
  mk_host (vars h) (files h) m (operations h) (stdin h) (stdout h) (stderr h) (peer h).
Definition set_stdin (l : list byte) (h : Host) : Host :=
  mk_host (vars h) (files h) (modes h) (operations h) l (stdout h) (stderr h) (peer h).
Definition set_peer (r : remote) (h : Host) : Host :=
  mk_host (vars h) (files h) (modes h) (operations h) (stdin h) (stdout h) (stderr h) r.
Definition operated (h : Host) : Host :=
  mk_host (vars h) (files h) (modes h) (S (operations h)) (stdin h) (stdout h) (stderr h) (peer h).

(** What a command does: an error is the message it ends with. *)
Definition cmd (A : Type) : Type := proc Host string A.

(** [println!] and [eprintln!]. *)
Definition println (line : string) : cmd unit := modify (λ h,
  mk_host (vars h) (files h) (modes h) (operations h) (stdin h) (stdout h ++ as_bytes line ++ [x0a]) (stderr h) (peer h)).
Definition eprint (text : string) : cmd unit := modify (λ h,
  mk_host (vars h) (files h) (modes h) (operations h) (stdin h) (stdout h) (stderr h ++ as_bytes text) (peer h)).
Definition eprintln (line : string) : cmd unit := eprint (line +:+ of_bytes [x0a]).

Fixpoint println_all (lines : list string) : cmd unit :=
  match lines with
  | [] => ret tt
  | line :: rest => do! println line in println_all rest
  end.

(** [std::env::var(name).ok()]. *)
Definition var (name : string) : cmd (option string) := gets (λ h, vars h !! name ≫= from_utf8).

(** *** Files *)

Definition file_proc (A : Type) : Type := proc Host FileError A.

(** One operation, which may be refused. *)
Definition operation : file_proc unit := λ h,
  match file_fault (operations h) with
  | Some (text, _) => (Err (Refused text), operated h)
  | None => (Ok tt, operated h)
  end.

Definition read_to_string (path : string) : file_proc string :=
  do! operation in
  let! content := gets (λ h, files h !! path) in
  match content with
  | None => fail Missing
  | Some bytes => lift (ok_or (from_utf8 bytes) NotText)
  end.

Definition remove_file (path : string) : file_proc unit :=
  do! operation in
  let! content := gets (λ h, files h !! path) in
  match content with
  | None => fail Missing
  | Some _ => modify (λ h, set_files (delete path (files h)) h)
  end.

(** Opening with [create] and [truncate]; a new file has the mode asked for. *)
Definition open_truncate (path : string) (mode : option Z) : file_proc unit :=
  do! operation in
  modify (λ h,
    let h' := match files h !! path, mode with
              | None, Some m => set_modes (<[path := m]> (modes h)) h
              | _, _ => h
              end in
    set_files (<[path := []]> (files h')) h').

Definition write_all (path : string) (bytes : list byte) : file_proc unit := λ h,
  match file_fault (operations h) with
  | Some (text, n) => (Err (Refused text), operated (set_files (<[path := take n bytes]> (files h)) h))
  | None => (Ok tt, operated (set_files (<[path := bytes]> (files h)) h))
  end.

(** [set_permissions], whose failure is dropped. *)
Definition restrict (path : string) (mode : Z) : file_proc unit := λ h,
  match file_fault (operations h) with
  | Some _ => (Ok tt, operated h)
  | None => (Ok tt, operated (set_modes (<[path := mode]> (modes h)) h))
  end.

Definition file {A} (m : file_proc A) : cmd (result FileError A) := attempt m.
End Host.

Arguments Host {_}.

(** ** [config.rs] *)

Module config.
Section config.
Context {MachineI : Machine}.

Definition PIN_FILE : string := ".localsecrets".
Definition DEFAULT_SERVER : string := "127.0.0.1:8787".

Record Pin := mk_pin { project : option string; environment : option string }.

Definition default_pin : Pin := mk_pin None None.

(** [PathBuf::join] of a relative path. *)
Definition join (directory path : string) : string :=
  if bool_decide (directory = "") || ends_with_byte "/" directory then directory +:+ path else directory +:+ "/" +:+ path.

(** A path need not be text. *)
Definition config_dir (vars : gmap string (list byte)) : string :=
  match vars !! "HOME" with
  | Some home => join (of_bytes home) ".config/localsecrets"
  | None => ".localsecrets-config"
  end.

Definition token_path (vars : gmap string (list byte)) : string := join (config_dir vars) "token".

Definition cached_token : cmd (option string) :=
  let! path := gets (λ h, token_path (vars h)) in
  let! text := file (read_to_string path) in
  ret (match text with
       | Ok text => let trimmed := trim text in if bool_decide (trimmed = "") then None else Some trimmed
       | Err _ => None
       end).

Definition write_private (path contents : string) : file_proc unit :=
  do! open_truncate path (Some 0x180) in
  do! write_all path (as_bytes contents) in
  restrict path 0x180.

Definition store_token (token : string) : file_proc unit :=
  let! directory := gets (λ h, config_dir (vars h)) in
  do! operation in
  do! restrict directory 0x1C0 in
  let! path := gets (λ h, token_path (vars h)) in
  write_private path token.

Definition forget_token : file_proc unit :=
  let! path := gets (λ h, token_path (vars h)) in
  let! removed := attempt (remove_file path) in
  match removed with
  | Ok _ | Err Missing => ret tt
  | Err e => fail e
  end.

(** The loop of [read_pin]. *)
Definition pin_line (pin : Pin) (line : string) : Pin :=
  let line := trim line in
  if bool_decide (line = "") || starts_with "#" line then pin else
  match split_once "=" line with
  | Some (name, value) =>
    let name := trim name in
    if bool_decide (name = "project") then mk_pin (Some (trim value)) (environment pin)
    else if bool_decide (name = "environment") then mk_pin (project pin) (Some (trim value))
    else pin
  | None => pin
  end.

Definition parse_pin (text : string) : Pin := fold_left pin_line (dotenv.lines text) default_pin.

Definition read_pin : cmd Pin :=
  let! text := file (read_to_string PIN_FILE) in
  ret (match text with Ok text => parse_pin text | Err _ => default_pin end).

Definition pin_text (project environment : string) : string :=
  "project=" +:+ project +:+ of_bytes [x0a] +:+ "environment=" +:+ environment +:+ of_bytes [x0a].

Definition write_pin (project environment : string) : file_proc unit :=
  do! open_truncate PIN_FILE None in
  write_all PIN_FILE (as_bytes (pin_text project environment)).

Definition server_address : cmd string :=
  let! address := var "LS_SERVER" in
  ret (default DEFAULT_SERVER address).
End config.
End config.

(** ** [input.rs] *)

Module input.
Section input.
Context {MachineI : Machine}.

(** [read_line] on the bytes of standard input: through the line feed, if there is one. *)
Fixpoint take_line (l : list byte) : list byte * list byte :=
  match l with
  | [] => ([], [])
  | b :: rest => if decide (b = x0a) then ([b], rest) else let '(line, rest) := take_line rest in (b :: line, rest)
  end.

Definition line (prompt : string) : cmd string :=
  do! (if is_a_terminal then eprint prompt else ret tt) in
  let! taken := gets (λ h, take_line (stdin h)) in
  do! modify (set_stdin taken.2) in
  let! text := lift (ok_or (from_utf8 taken.1) ("could not read input: " +:+ file_text NotText)) in
  ret (Client.trim_breaks text).

Definition secret_line (prompt : string) : cmd string :=
  if negb is_a_terminal then line "" else
  do! eprint prompt in
  let echo_off := stty ["-echo"] in
  do! (if echo_off then ret tt
       else eprintln (of_bytes [x0a] +:+ "lsec: could not turn off the terminal echo; what you type will be visible")) in
  let! value := attempt (line "") in
  do! (if echo_off then eprintln "" else ret tt) in
  lift value.

Definition all_of_stdin : cmd (list byte) :=
  let! bytes := gets stdin in
  do! modify (set_stdin []) in
  ret bytes.
End input.
End input.
