(* ===== verification/Cli.v ===== *)
(** * The command line client

    Models [main.rs], [api.rs] and [commands.rs] of [crates/ls-cli]: the options shared
    by the commands, a call to the server and the reading of its answer, and every
    command, with what it prints. *)

From S2P Require Import Prelude Text JsonValue JsonParser Errors Http HttpClient Dotenv CliHost.
From Stdlib Require Import Strings.Byte.

(** ** [main.rs] *)

Record Common := mk_common { project : option string; environment : option string; token : option string }.

Module Common.

Definition none : Common := mk_common None None None.

(** The loop of [extract]: an option takes the argument after it, whatever it is, and
    none at the end. *)
Fixpoint extract_loop (common : Common) (arguments : list string) : Common * list string :=
  match arguments with
  | [] => (common, [])
  | argument :: rest =>
    let value := head rest in
    let after := λ common, match rest with [] => (common, []) | _ :: rest => extract_loop common rest end in
    if bool_decide (argument = "--project") || bool_decide (argument = "-p")
    then after (mk_common value (environment common) (token common))
    else if bool_decide (argument = "--env") || bool_decide (argument = "-e")
    then after (mk_common (project common) value (token common))
    else if bool_decide (argument = "--token")
    then after (mk_common (project common) (environment common) value)
    else let '(common, rest) := extract_loop common rest in (common, argument :: rest)
  end.

Definition extract (arguments : list string) : Common * list string := extract_loop none arguments.
End Common.

(** [option_value]. *)
Fixpoint option_value (arguments : list string) (name : string) : option string :=
  match arguments with
  | [] => None
  | argument :: rest => if bool_decide (argument = name) then head rest else option_value rest name
  end.

(** ** [api.rs] *)

Module api.

(** A client of an address, and a token. *)
Record Api := mk_api { address : string; bearer_token : option string }.

Definition has_token (self : Api) : bool := bool_decide (bearer_token self ≠ None).

(** The headers of a call. *)
Definition headers (method : string) (token : option string) : list (string * string) :=
  (if bool_decide (method = "GET") then [] else [("content-type", "application/json")])
  ++ match token with Some token => [("authorization", "Bearer " +:+ token)] | None => [] end.

Section interpret.
Context {DebugI : DebugText}.

(** What is made of an answer. *)
Definition interpret (response : ClientResponse) : result string Value :=
  let text := trim (default "" (from_utf8 (client_body response))) in
  let? value :=
    (if bool_decide (text = "") then Ok Null
     else map_err (λ e, "the server sent something unreadable: " +:+ json_error_to_string e) (parse text)) in
  if (200 <=? client_status response) && (client_status response <? 300) then Ok value else
  let message := default "the server refused the request" (Value.get_str value "error") in
  Err (message +:+ " (status " +:+ show_Z (client_status response) +:+ ")").

End interpret.

(** [field]. *)
Definition field (value : Value) (name : string) : result string string :=
  ok_or (Value.get_str value name) ("the server did not send a " +:+ name).

Section api.
Context {MachineI : Machine} {DebugI : DebugText}.

(** [Api::connect]. *)
Definition connect (address : string) (token : option string) : cmd Api :=
  let! resolved := lift (map_err (λ e, "could not resolve " +:+ address +:+ ": " +:+ e) (resolve address)) in
  let! first := lift (ok_or (head resolved) (address +:+ " resolved to nothing")) in
  ret (mk_api first token).

(** [Client::send]: a connection, the request, and what comes back until it closes. *)
Definition send (address method path : string) (headers : list (string * string)) (body : list byte)
  : proc Host HttpError ClientResponse :=
  do! (λ h, match dial address (peer h) with Some text => (Err (Io text), h) | None => (Ok tt, h) end) in
  let! bytes := lift (Client.request address method path headers body) in
  λ h, let '(answer, r) := transmit address bytes (peer h) in
       (match answer with
        | Ok bytes => (Client.read_response Limits_default bytes).1
        | Err text => Err (Io text)
        end, set_peer r h).

Definition call (self : Api) (method path : string) (body : option Value) : cmd Value :=
  let rendered := default "" (Value.to_string <$> body) in
  let! response := map_perr
    (λ e, "could not reach the server at " +:+ address self +:+ ": " +:+ HttpError.to_string e)
    (send (address self) method path (headers method (bearer_token self)) (as_bytes rendered)) in
  lift (interpret response).
End api.
End api.
