(* ===== verification/Commands.v ===== *)
(** * The commands

    Models [commands.rs] of [crates/ls-cli] and the methods of [Common] it uses: one
    definition per command, over the host of [CliHost]. The result is the exit code, an
    error the message the client ends with. *)

From S2P Require Import Prelude Text JsonValue JsonParser Errors Http HttpClient Dotenv CliHost Cli.
From Stdlib Require Import Strings.Byte.

Definition SUCCESS : Z := 0.
Definition FAILURE : Z := 1.

(** ** Formatting *)

(** A sentence of several parts. *)
Definition text_of (parts : list string) : string := foldr (λ a b, a +:+ b) "" parts.

Fixpoint spaces (n : nat) : string := match n with O => "" | S n => " " +:+ spaces n end.

(** [{:<width}], which counts characters. *)
Definition left_aligned (width : nat) (s : string) : string := s +:+ spaces (width - length (chars s)).

Definition number (args : list string) (name : string) : option Z := option_value args name ≫= parse_i64.

Definition unknown (group : string) (given : option string) : string :=
  match given with
  | Some name => text_of ["unknown "; group; " command "; name]
  | None => text_of ["`lsec "; group; "` needs a subcommand"]
  end.

Section Commands.
Context {MachineI : Machine} {DebugI : DebugText}.

Definition done : cmd Z := ret SUCCESS.

(** ** The methods of [Common] *)

(** [token]: the flag, then the variable, then the file. *)
Definition common_token (common : Common) : cmd (option string) :=
  match token common with
  | Some token => ret (Some token)
  | None =>
    let! from_env := var "LS_TOKEN" in
    match from_env with
    | Some token => if bool_decide (token = "") then config.cached_token else ret (Some token)
    | None => config.cached_token
    end
  end.

Definition common_project (common : Common) : cmd string :=
  match project common with
  | Some project => ret project
  | None =>
    let! pin := config.read_pin in
    lift (ok_or (config.project pin) "no project; pass --project or run `lsec use PROJECT ENV` here")
  end.

Definition common_environment (common : Common) : cmd string :=
  match environment common with
  | Some environment => ret environment
  | None =>
    let! pin := config.read_pin in
    lift (ok_or (config.environment pin) "no environment; pass --env or run `lsec use PROJECT ENV` here")
  end.

Definition common_connect (common : Common) : cmd api.Api :=
  let! address := config.server_address in
  let! token := common_token common in
  api.connect address token.

Definition connect_authenticated (common : Common) : cmd api.Api :=
  let! api := common_connect common in
  if negb (api.has_token api) then fail "not logged in; run `lsec login EMAIL`" else ret api.

(** ** Shared *)

(** [.get(name).and_then(Value::as_...).unwrap_or(...)]. *)
Definition get_array (value : Value) (name : string) : option (list Value) := Value.get value name ≫= Value.as_array.

(** The texts among the items. *)
Definition texts (items : list Value) : list string := omap Value.as_str items.

Definition print_list (answer : Value) (name : string) : cmd unit := println_all (texts (default [] (get_array answer name))).

Definition secrets_path (project environment : string) : string :=
  text_of ["/v1/projects/"; project; "/envs/"; environment; "/secrets"].
Definition secret_path (project environment key : string) : string := secrets_path project environment +:+ "/" +:+ key.

(** The pairs of an object that are text. *)
Definition text_pairs (answer : Value) : list (string * string) :=
  match Value.get answer "secrets" with
  | Some (Object pairs) => omap (λ kv, pair kv.1 <$> Value.as_str kv.2) pairs
  | _ => []
  end.

Definition fetch_secrets (common : Common) : cmd (list (string * string)) :=
  let! project := common_project common in
  let! environment := common_environment common in
  let! api := connect_authenticated common in
  let! answer := api.call api "GET" (secrets_path project environment) None in
  ret (text_pairs answer).

Definition first (args : list string) (usage : string) : cmd string := lift (ok_or (head args) usage).

(** ** System *)

Definition listed_shares (answer : Value) : cmd (list string) :=
  let! listed := lift (ok_or (get_array answer "shares") "the server did not send any shares") in
  ret ((λ share, "  " +:+ share) <$> texts listed).

Definition split_body (threshold shares : Z) : Value :=
  Object [("threshold", Int threshold); ("shares", Int shares)].

Definition init (common : Common) (args : list string) : cmd Z :=
  let threshold := default 1 (number args "--threshold") in
  let shares := default 1 (number args "--shares") in
  let! api := common_connect common in
  let! answer := api.call api "POST" "/v1/sys/init" (Some (split_body threshold shares)) in
  let! listed := listed_shares answer in
  do! println_all
    ([text_of ["Vault initialised. "; show_Z threshold; " of "; show_Z shares; " shares are needed to unseal it."]; "";
      "These are shown once and are not stored anywhere. Write them down now,";
      "and keep them apart from each other and from the server."; ""] ++ listed ++ [""]) in
  let! root := lift (api.field answer "root_token") in
  do! println_all
    [text_of ["root token: "; root]; "";
     "Use the root token once, to create the first account. It is asked";
     "for at a prompt, so it does not land in your shell history:";
     "  lsec user create you@example.com"] in
  done.

Definition rekey (common : Common) (args : list string) : cmd Z :=
  let threshold := default 1 (number args "--threshold") in
  let shares := default 1 (number args "--shares") in
  let! api := connect_authenticated common in
  let! answer := api.call api "POST" "/v1/sys/rekey" (Some (split_body threshold shares)) in
  let! listed := listed_shares answer in
  do! println_all
    ([text_of ["Shares re-split. "; show_Z threshold; " of "; show_Z shares; " are needed to unseal."]; "";
      "The previous shares no longer open this vault. These are shown once:"; ""] ++ listed
     ++ [""; "The secrets themselves are untouched; only the shares changed."]) in
  done.

Definition unseal (common : Common) (args : list string) : cmd Z :=
  if existsb (λ argument, bool_decide (argument = "--reset")) args then
    let! api := common_connect common in
    let! answer := api.call api "POST" "/v1/sys/unseal" (Some (Object [("reset", Bool true)])) in
    do! println (text_of ["attempt abandoned: 0 of "; show_Z (default 0 (Value.get_i64 answer "threshold")); " shares"]) in
    done
  else
    let! share :=
      match args with
      | share :: _ =>
        do! eprintln (text_of ["lsec: a share on the command line goes into your shell history and is ";
          "visible to anyone who can list processes; prefer `lsec unseal` and "; "paste it at the prompt"]) in
        ret share
      | [] => input.secret_line "unseal share: "
      end in
    let! api := common_connect common in
    let! answer := api.call api "POST" "/v1/sys/unseal" (Some (Object [("share", Str (trim share))])) in
    let sealed := default true (Value.get_bool answer "sealed") in
    let progress := default 0 (Value.get_i64 answer "progress") in
    let threshold := default 0 (Value.get_i64 answer "threshold") in
    do! println (if sealed then text_of ["still sealed: "; show_Z progress; " of "; show_Z threshold; " shares"]
                 else "unsealed") in
    done.

Definition seal (common : Common) : cmd Z :=
  let! api := connect_authenticated common in
  do! api.call api "POST" "/v1/sys/seal" None in
  do! println "sealed" in
  done.

Definition status (common : Common) : cmd Z :=
  let! api := common_connect common in
  let! answer := api.call api "GET" "/v1/sys/health" None in
  let sealed := default true (Value.get_bool answer "sealed") in
  let initialized := default false (Value.get_bool answer "initialized") in
  let! address := config.server_address in
  do! println_all
    ([text_of ["server:  "; address]; text_of ["state:   "; if sealed then "sealed" else "unsealed"];
      text_of ["vault:   "; if initialized then "initialised" else "not initialised"]]
     ++ match Value.get_str answer "version" with Some version => [text_of ["version: "; version]] | None => [] end) in
  let! pin := config.read_pin in
  do! match config.project pin, config.environment pin with
      | Some project, Some environment => println (text_of ["here:    "; project; "/"; environment])
      | _, _ => ret tt
      end in
  done.

(** ** Accounts *)

Definition create_user (common : Common) (args : list string) : cmd Z :=
  let! email := first args "usage: lsec user create EMAIL" in
  let! token := common_token common in
  let! token :=
    match token with
    | Some token => ret token
    | None =>
      let! root := input.secret_line "root token: " in
      if bool_decide (trim root = "") then fail "a token is needed to create an account" else ret (trim root)
    end in
  let! address := config.server_address in
  let! api := api.connect address (Some token) in
  let! password := input.secret_line "password: " in
  do! api.call api "POST" "/v1/users" (Some (Object [("email", Str email); ("password", Str password)])) in
  do! println (text_of ["created "; email]) in
  done.

Definition login (common : Common) (args : list string) : cmd Z :=
  let! email := match args with email :: _ => ret email | [] => input.line "email: " end in
  let! password := input.secret_line "password: " in
  let! api := common_connect common in
  let! answer := api.call api "POST" "/v1/auth/login" (Some (Object [("email", Str email); ("password", Str password)])) in
  let! token := lift (api.field answer "token") in
  do! map_perr (λ e, "could not store the token: " +:+ file_text e) (config.store_token token) in
  do! println (text_of ["logged in as "; email]) in
  done.

Definition logout (common : Common) : cmd Z :=
  let! connected := attempt (connect_authenticated common) in
  do! match connected with
      | Ok api => do! attempt (api.call api "POST" "/v1/auth/logout" None) in ret tt
      | Err _ => ret tt
      end in
  do! map_perr (λ e, "could not remove the cached token: " +:+ file_text e) config.forget_token in
  do! println "logged out" in
  done.

(** ** Projects *)

Definition use_here (args : list string) : cmd Z :=
  match args with
  | project :: environment :: _ =>
    do! map_perr (λ e, text_of ["could not write "; config.PIN_FILE; ": "; file_text e]) (config.write_pin project environment) in
    do! println (text_of ["using "; project; "/"; environment; " here"]) in
    done
  | _ => fail "usage: lsec use PROJECT ENVIRONMENT"
  end.

Definition slug_body (slug name : string) : Value := Object [("slug", Str slug); ("name", Str name)].

Definition create_project (common : Common) (args : list string) : cmd Z :=
  let! slug := first args "usage: lsec project create SLUG" in
  let name := default slug (option_value args "--name") in
  let! api := connect_authenticated common in
  do! api.call api "POST" "/v1/projects" (Some (slug_body slug name)) in
  do! println (text_of ["created project "; slug]) in
  done.

Definition list_projects (common : Common) : cmd Z :=
  let! api := connect_authenticated common in
  let! answer := api.call api "GET" "/v1/projects" None in
  do! print_list answer "projects" in
  done.

Definition environments_path (project : string) : string := text_of ["/v1/projects/"; project; "/envs"].

Definition create_environment (common : Common) (args : list string) : cmd Z :=
  let! slug := first args "usage: lsec env create SLUG" in
  let name := default slug (option_value args "--name") in
  let! project := common_project common in
  let! api := connect_authenticated common in
  do! api.call api "POST" (environments_path project) (Some (slug_body slug name)) in
  do! println (text_of ["created environment "; slug; " in "; project]) in
  done.

Definition list_environments (common : Common) : cmd Z :=
  let! project := common_project common in
  let! api := connect_authenticated common in
  let! answer := api.call api "GET" (environments_path project) None in
  do! print_list answer "environments" in
  done.

(** ** Secrets *)

Definition set (common : Common) (args : list string) : cmd Z :=
  let! key := first args "usage: lsec set KEY [VALUE]" in
  let! value :=
    match tail args with
    | value :: _ =>
      do! eprintln (text_of ["lsec: a value on the command line goes into your shell history and is ";
        "visible to anyone who can list processes; prefer `lsec set "; key; "`"]) in
      ret value
    | [] => input.secret_line (text_of ["value for "; key; ": "])
    end in
  let! project := common_project common in
  let! environment := common_environment common in
  let! api := connect_authenticated common in
  do! api.call api "PUT" (secret_path project environment key) (Some (Object [("value", Str value)])) in
  do! println (text_of ["set "; key]) in
  done.

Definition get (common : Common) (args : list string) : cmd Z :=
  let! key := first args "usage: lsec get KEY" in
  let! project := common_project common in
  let! environment := common_environment common in
  let! api := connect_authenticated common in
  let! answer := map_perr (λ e, text_of [key; ": "; e]) (api.call api "GET" (secret_path project environment key) None) in
  let! value := lift (api.field answer "value") in
  do! println value in
  done.

Definition list_ (common : Common) : cmd Z :=
  let! secrets := fetch_secrets common in
  do! println_all secrets.*1 in
  done.

Definition delete (common : Common) (args : list string) : cmd Z :=
  let! key := first args "usage: lsec delete KEY" in
  let! project := common_project common in
  let! environment := common_environment common in
  let! api := connect_authenticated common in
  do! api.call api "DELETE" (secret_path project environment key) None in
  do! println (text_of ["deleted "; key]) in
  done.

Definition export (common : Common) (args : list string) : cmd Z :=
  let format := default "dotenv" (option_value args "--format") in
  let! secrets := fetch_secrets common in
  if bool_decide (format = "dotenv") then
    do! println_all ((λ kv, text_of [kv.1; "="; dotenv.dotenv_quote kv.2]) <$> secrets) in
    done
  else if bool_decide (format = "json") then
    do! println (Value.to_string (Object ((λ kv, (kv.1, Str kv.2)) <$> secrets))) in
    done
  else fail (text_of ["unknown format "; format; "; use dotenv or json"]).

Definition import (common : Common) (args : list string) : cmd Z :=
  let! path := first args "usage: lsec import FILE" in
  let! text :=
    (if bool_decide (path = "-") then
       let! bytes := input.all_of_stdin in
       lift (ok_or (from_utf8 bytes) "input is not valid UTF-8")
     else map_perr (λ e, text_of ["could not read "; path; ": "; file_text e]) (read_to_string path)) in
  let parsed := dotenv.parse_dotenv text in
  if bool_decide (parsed = []) then fail (path +:+ " held nothing to import") else
  let fields := (λ kv, (kv.1, Str kv.2)) <$> parsed in
  let! project := common_project common in
  let! environment := common_environment common in
  let! api := connect_authenticated common in
  do! api.call api "POST" (secrets_path project environment) (Some (Object [("secrets", Object fields)])) in
  let count := length fields in
  do! println (text_of ["imported "; show_Z (Z.of_nat count); " "; if (count =? 1)%nat then "secret" else "secrets";
                        " into "; project; "/"; environment]) in
  done.

(** The arguments after the first [--]. *)
Fixpoint after_dashes (args : list string) : list string :=
  match args with
  | [] => []
  | argument :: rest => if bool_decide (argument = "--") then rest else after_dashes rest
  end.

Definition run (common : Common) (args : list string) : cmd Z :=
  match after_dashes args with
  | [] => fail "usage: lsec run -- COMMAND [ARGS...]"
  | program :: rest =>
    let! secrets := fetch_secrets common in
    let! code := lift (map_err (λ e, text_of ["could not run "; program; ": "; e]) (spawn program rest secrets)) in
    ret (match code with
         | Some code => if in_u8 code then code else 1
         | None => FAILURE
         end)
  end.

(** ** Machines and audit *)

Definition create_token (common : Common) (args : list string) : cmd Z :=
  let label := default "machine" (option_value args "--label") in
  let! project := common_project common in
  let! environment := common_environment common in
  let body := [("project", Str project); ("environment", Str environment); ("label", Str label)]
    ++ match number args "--ttl" with Some ttl => [("ttl_seconds", Int ttl)] | None => [] end in
  let! api := connect_authenticated common in
  let! answer := api.call api "POST" "/v1/tokens" (Some (Object body)) in
  let! token := lift (api.field answer "token") in
  do! println (text_of ["token: "; token]) in
  let! id := lift (api.field answer "id") in
  do! println_all [text_of ["id:    "; id]; "";
                   text_of ["Shown once. It can read "; project; "/"; environment; " and nothing else."]] in
  done.

Definition revoke_token (common : Common) (args : list string) : cmd Z :=
  let! id := first args "usage: lsec token revoke ID" in
  let! api := connect_authenticated common in
  do! api.call api "DELETE" ("/v1/tokens/" +:+ id) None in
  do! println (text_of ["revoked "; id]) in
  done.

Definition audit_line (entry : Value) : string :=
  let read := λ name, default "" (Value.get_str entry name) in
  text_of [read "at"; "  "; left_aligned 14 (read "action"); " "; left_aligned 28 (read "target"); " ";
           left_aligned 8 (read "outcome"); " "; read "actor"].

Definition audit (common : Common) : cmd Z :=
  let! api := connect_authenticated common in
  let! answer := api.call api "GET" "/v1/audit" None in
  do! println_all (audit_line <$> default [] (get_array answer "entries")) in
  done.

(** ** Dispatch *)

(** A command with subcommands. *)
Definition group (name : string) (args : list string) (commands : list (string * (list string → cmd Z))) : cmd Z :=
  match args with
  | given :: rest =>
    match List.find (λ c, bool_decide (c.1 = given)) commands with
    | Some (_, command) => command rest
    | None => fail (unknown name (Some given))
    end
  | [] => fail (unknown name None)
  end.

Definition dispatch (arguments : list string) : cmd Z :=
  let '(common, rest) := Common.extract arguments in
  let command := default "" (head rest) in
  let args := drop 1 rest in
  let given := λ name, bool_decide (command = name) in
  if given "init" then init common args
  else if given "rekey" then rekey common args
  else if given "unseal" then unseal common args
  else if given "seal" then seal common
  else if given "status" then status common
  else if given "user" then group "user" args [("create", create_user common)]
  else if given "login" then login common args
  else if given "logout" then logout common
  else if given "use" then use_here args
  else if given "project" then group "project" args [("create", create_project common); ("list", λ _, list_projects common)]
  else if given "env" then group "env" args [("create", create_environment common); ("list", λ _, list_environments common)]
  else if given "set" then set common args
  else if given "get" then get common args
  else if given "list" then list_ common
  else if given "delete" then delete common args
  else if given "export" then export common args
  else if given "import" then import common args
  else if given "run" then run common args
  else if given "token" then group "token" args [("create", create_token common); ("revoke", revoke_token common)]
  else if given "audit" then audit common
  else fail (text_of ["unknown command "; command; "; try `lsec --help`"]).

(** [USAGE], by lines. *)
Definition USAGE : list string :=
  ["lsec, the localsecrets client";
   EmptyString;
   "Usage: lsec <command> [options]";
   EmptyString;
   "Getting started";
   "  init [--threshold N] [--shares N]   Create the vault; prints the unseal shares once";
   "  unseal [SHARE]                      Offer one unseal share";
   "  unseal --reset                      Throw away a part-finished attempt";
   "  rekey [--threshold N] [--shares N]  Split the master key again; the old";
   "                                      shares stop working, secrets are untouched";
   "  seal                                Drop the root key until the next unseal";
   "  status                              Show whether the server is sealed";
   EmptyString;
   "Accounts";
   "  user create EMAIL                   Create a user (needs the root token)";
   "  login EMAIL                         Log in and cache a session token";
   "  logout                              Forget the cached token";
   EmptyString;
   "Projects";
   "  use PROJECT ENV                     Pin a project and environment here";
   "  project create SLUG [--name NAME]";
   "  project list";
   "  env create SLUG [--name NAME]";
   "  env list";
   EmptyString;
   "Secrets";
   "  set KEY [VALUE]                     Write a secret; without VALUE it is read from stdin";
   "  get KEY                             Print one value";
   "  list                                List keys, without values";
   "  delete KEY                          Remove a secret";
   "  export [--format dotenv|json]       Print the whole environment";
   "  import FILE                         Load a .env file";
   "  run -- COMMAND...                   Run a command with the secrets in its environment";
   EmptyString;
   "Machines";
   "  token create [--label NAME] [--ttl SECONDS]";
   "  token revoke ID";
   "  audit                               Show the audit trail";
   EmptyString;
   "Options";
   "  --project SLUG    --env SLUG        Override the pinned project or environment";
   "  --token TOKEN                       Use this token instead of the cached one";
   "  -h, --help                          Show this message";
   EmptyString;
   "Environment";
   "  LS_SERVER    Server address, default 127.0.0.1:8787";
   "  LS_TOKEN     Token to use, overriding the cached one";
   EmptyString;
   "Passing a value on the command line puts it in your shell history and makes it";
   "visible to anyone who can list processes. Prefer `lsec set KEY` and type or";
   "pipe the value instead."].

(** [main]: the exit code, and the error on standard error. The text of [--help] ends with
    a line feed of its own. *)
Definition main (arguments : list string) (h : Host) : Z * Host :=
  match arguments with
  | [] => (SUCCESS, (println_all (USAGE ++ [EmptyString]) h).2)
  | argument :: _ =>
    if bool_decide (argument ∈ ["-h"; "--help"; "help"]) then (SUCCESS, (println_all (USAGE ++ [EmptyString]) h).2) else
    match dispatch arguments h with
    | (Ok code, h') => (code, h')
    | (Err message, h') => (FAILURE, (eprintln ("lsec: " +:+ message) h').2)
    end
  end.
End Commands.
