(* ===== verification/CliClaims.v ===== *)
(** * What the command line client guarantees

    The commands against the server of [ApiClaims] at the other end of the network: a
    value that was set is the value that is printed. *)

From S2P Require Import Prelude Text Encoding Timestamp JsonValue JsonParser World Token Shamir Aead Event State Log LogSpec.
From S2P Require Import Barrier Validate Password RateLimit Errors Vault VaultSpec VaultSecrets VaultAccess VaultServer VaultClaims.
From S2P Require Import Http HttpRequest HttpFraming HttpAccept HttpClient HttpExchange HttpClaims Api ApiSpec ApiClaims.
From S2P Require Import Dotenv CliHost Cli Commands.
From Stdlib Require Import Strings.Byte.

(** ** Addresses of secrets *)

Module Paths.
Import dotenv.

Lemma percent_plain l : ("%"%byte ∉ l) → Request.percent_bytes false l = Ok l.
Proof.
  induction l as [|b l IH]; [done|]. intros [Hb Hl]%not_elem_of_cons. cbn [Request.percent_bytes].
  rewrite decide_False, andb_false_r, IH by done. done.
Qed.

(** The names in a path, and the slashes between them. *)
Definition path_byte (b : byte) : bool := validate.key_byte b || bool_decide (b = "/"%byte).

Lemma path_byte_facts b : path_byte b = true →
  is_ascii b = true ∧ b ≠ "%"%byte ∧ b ≠ "?"%byte ∧ b ≠ x00 ∧ b ≠ " "%byte ∧ b ≠ x0d ∧ b ≠ x0a.
Proof. by destruct b. Qed.

Lemma plain_target target :
  forallb path_byte (as_bytes target) = true → Request.split_target target = Ok (target, []).
Proof.
  intros H. assert (∀ b, b ∈ as_bytes target → path_byte b = true) as Hb.
  { intros b Hin. rewrite forallb_forall in H. by apply H, list_elem_of_In. }
  unfold Request.split_target, split_once. rewrite (proj2 (split_once_bytes_none _ _)).
  2: { intros Hin. apply Hb, path_byte_facts in Hin. tauto. }
  unfold Request.percent_decode. rewrite percent_plain.
  2: { intros Hin. apply Hb, path_byte_facts in Hin. tauto. }
  cbn [res_bind]. destruct (existsb _ _) eqn:E.
  { apply existsb_exists in E as (b & Hin & E). apply bool_decide_eq_true in E. subst b.
    apply list_elem_of_In, Hb, path_byte_facts in Hin. tauto. }
  rewrite from_utf8_as_bytes; [done|]. apply is_str_ascii. apply forallb_forall. intros b Hin.
  by apply list_elem_of_In, Hb, path_byte_facts in Hin as [? _].
Qed.

Lemma key_ok_path k : key_ok k → forallb path_byte (as_bytes k) = true ∧ ("/"%byte ∉ as_bytes k).
Proof.
  intros H. split.
  - apply forallb_forall. intros b Hb. unfold path_byte. by rewrite (key_ok_elem k) by (done || by apply list_elem_of_In).
  - intros Hb. by apply (key_ok_elem k) in Hb.
Qed.

Lemma secret_path_bytes ps es key :
  as_bytes (secret_path ps es key)
  = "/"%byte :: as_bytes "v1" ++ "/"%byte :: as_bytes "projects" ++ "/"%byte :: as_bytes ps ++ "/"%byte :: as_bytes "envs"
    ++ "/"%byte :: as_bytes es ++ "/"%byte :: as_bytes "secrets" ++ "/"%byte :: as_bytes key.
Proof.
  unfold secret_path, secrets_path, text_of. cbn [foldr]. rewrite !as_bytes_app. cbn [app]. rewrite <- ?app_assoc. done.
Qed.

Lemma secret_path_target ps es key :
  key_ok ps → key_ok es → key_ok key →
  Request.split_target (secret_path ps es key) = Ok (secret_path ps es key, [])
  ∧ is_str (secret_path ps es key) = true
  ∧ Api.locate (Api.segments (secret_path ps es key)) = Some (Api.OneSecret ps es key).
Proof.
  intros Hp He Hk. assert (forallb path_byte (as_bytes (secret_path ps es key)) = true) as H.
  { rewrite secret_path_bytes. repeat (rewrite forallb_app || cbn [forallb]).
    by rewrite (proj1 (key_ok_path _ Hp)), (proj1 (key_ok_path _ He)), (proj1 (key_ok_path _ Hk)). }
  split; [by apply plain_target|]. split.
  { apply is_str_ascii. rewrite forallb_forall in *. intros b Hb. by apply H, path_byte_facts in Hb as [? _]. }
  assert (split "/" (secret_path ps es key) = [""; "v1"; "projects"; ps; "envs"; es; "secrets"; key]) as E.
  { unfold split. rewrite secret_path_bytes. change ("/"%byte :: as_bytes "v1" ++ ?l) with ([] ++ "/"%byte :: as_bytes "v1" ++ l).
    rewrite !split_at_byte_join; rewrite ?split_at_byte_none;
      try (apply (key_ok_path _); done); try (apply (bool_decide_unpack _); by vm_compute).
    cbn [fmap list_fmap]. by rewrite !of_bytes_as_bytes. }
  assert (∀ l, Forall (λ s, s ≠ "") l → List.filter (λ part, negb (bool_decide (part = ""))) l = l) as Hf.
  { intros l. induction 1 as [|x l Hx _ IH]; [done|]. cbn [List.filter]. rewrite bool_decide_eq_false_2 by done. by rewrite IH. }
  unfold Api.segments. rewrite E.
  change (List.filter _ ("" :: ?l)) with (List.filter (λ part, negb (bool_decide (part = ""))) l).
  rewrite Hf; [done|]. destruct Hp, He, Hk. by repeat constructor.
Qed.
End Paths.

(** ** The server at the other end *)

(** The machine the client runs on, and the network between it and the server: how a
    request is cut up on the way, and whether it or its answer is lost. *)
Class Link := {
  link_fault : nat → option (string * nat);
  link_text : FileError → string;
  link_terminal : bool;
  link_stty : list string → bool;
  link_resolve : string → result string (list string);
  link_spawn : string → list string → list (string * string) → result string (option Z);
  pieces : list byte → list arrival;
  unreachable : option string;
  lost : list byte → option string;
}.

Module CliClaims.
Import VaultSpec VaultSecrets ApiSpec ApiClaims Framing Exchange Paths.

Section CliClaims.
Context {EnvI : Env} {CipherI : Cipher} {LawsI : CipherLaws} {ShaI : Sha256}.
Context {ArgonI : Argon2} {ArgonLawsI : password.Argon2Laws} {TextI : OsText} {DebugI : DebugText} {WatchI : Stopwatch}.
Context {LinkI : Link}.

#[export] Instance wired : Machine := {|
  file_fault := link_fault;
  file_text := link_text;
  is_a_terminal := link_terminal;
  stty := link_stty;
  remote := World * Api.Api;
  resolve := link_resolve;
  dial _ _ := unreachable;
  transmit _ bytes s :=
    let '(out, s') := serve Limits_default (mk_conn [] (pieces bytes) 0) s in
    (match lost bytes with Some text => Err text | None => Ok (default [] out) end, s');
  spawn := link_spawn;
|}.

(** The network delivers what it is given, in time. *)
Hypothesis (Hpieces : ∀ bytes, concat (piece <$> pieces bytes) = bytes ∧ Forall (λ a, ∃ b, a = Bytes b ∧ b ≠ []) (pieces bytes)).
Hypothesis (Hprompt : prompt Limits_default).

Lemma serve_proper address method target headers body path query s :
  proper Limits_default address method target headers body → Request.split_target target = Ok (path, query) →
  ∃ bytes, Client.request address method target headers body = Ok bytes
    ∧ let request := arrived address method target headers body path query in
      serve Limits_default (mk_conn [] (pieces bytes) 0) s
      = (Some (Response.render (Api.respond request s).1), (Api.respond request s).2).
Proof.
  intros Hp Ht. eexists. split; [by apply request_bytes; destruct Hp|]. cbv zeta. set (bytes := _ ++ _).
  destruct (Hpieces bytes) as [Hcat Hsmooth]. set (c := mk_conn [] (pieces bytes) 0).
  assert (stream c = bytes) as Hst by (unfold stream; cbn; exact Hcat).
  pose proof (request_parses _ _ _ _ _ _ Hp _ _ [] Ht) as Hparse. rewrite app_nil_r in Hparse.
  pose proof (wp_read_request Limits_default c) as Hw. unfold wp in Hw. rewrite Hst in Hw. unfold bytes in Hw at 1 2. rewrite Hparse in Hw.
  unfold serve, Server_.serve_connection. destruct (Request.read Limits_default c) as [[r|e] c']; [|by specialize (Hw Hsmooth Hprompt)].
  injection Hw as <- _. done.
Qed.

(** The status is what the first line says, whatever follows. *)
Lemma heard_status limits r x :
  0 <= HttpClient.status r <= 65535 → (64 ≤ max_head limits)%nat →
  (Client.read_response limits (Response.render r)).1 = Ok x → client_status x = HttpClient.status r.
Proof.
  intros Hst Hhd. rewrite render_lines, sent_cons, <- !app_assoc.
  destruct (status_text_spec _ Hst) as (Hn & Hs & Hl & Hp). unfold Client.read_response. unfold bind at 1.
  rewrite read_line_sent by (done || lia). unfold bind at 1, lift. rewrite Hp. unfold bind at 1.
  destruct (Client.read_headers _ _ _ _ _) as [[[hs len]|e] rest]; [|done].
  destruct (_ <? _); [done|]. destruct (_ <? _)%nat; [done|]. by intros [= <-].
Qed.

Variables (p : string).
Hypothesis (Hext : Log.with_extension p "compacting" ≠ p).

(** A call that succeeds was answered by the server with a status that says so. *)
Lemma call_served a m target body v h h' path query :
  let rendered := as_bytes (default "" (Value.to_string <$> body)) in
  let headers := api.headers m (api.bearer_token a) in
  proper Limits_default (api.address a) m target headers rendered → Request.split_target target = Ok (path, query) →
  is_str path = true → api_ok p (peer h) → api.call a m target body h = (Ok v, h') →
  let '(answer, s') := Api.respond (arrived (api.address a) m target headers rendered path query) (peer h) in
  h' = set_peer s' h ∧ 200 <= HttpClient.status answer < 300
  ∧ (Z.of_nat (length (response_body answer)) <= max_body Limits_default → api.interpret (heard answer) = Ok v).
Proof.
  intros rendered headers Hp Ht Hpath Hok Hcall.
  destruct (serve_proper _ _ _ _ _ _ _ (peer h) Hp Ht) as (bytes & Eb & Es). cbv zeta in Es.
  set (request := arrived _ _ _ _ _ _ _) in *. destruct (respond_ok p Hext request (peer h) Hpath Hok) as [Hdoc _].
  destruct (Api.respond request (peer h)) as [answer s'] eqn:Er. cbn [fst snd] in *.
  unfold api.call in Hcall. apply bind_ok in Hcall as (resp & h1 & Hsend & Hint). fold rendered headers in Hsend.
  unfold lift in Hint. injection Hint as Hint <-.
  assert (transmit (api.address a) bytes (peer h) =
    (match lost bytes with Some text => Err text | None => Ok (Response.render answer) end, s')) as Htr by (cbn [transmit wired]; rewrite Es; done).
  assert (h1 = set_peer s' h ∧ (Client.read_response Limits_default (Response.render answer)).1 = Ok resp) as (-> & Hread).
  { unfold map_perr in Hsend. destruct (api.send _ _ _ _ _ h) as [[x|e] h2] eqn:E; [|done]. injection Hsend as -> ->.
    unfold api.send, bind, lift in E. destruct (dial _ _); [done|]. rewrite Eb, Htr in E.
    destruct (lost bytes); [done|]. by injection E as -> <-. }
  destruct Hdoc as [Hst Hdoc]. assert (client_status resp = HttpClient.status answer) as Estat.
  { eapply heard_status; [|..|exact Hread]; [lia|]. apply Nat.leb_le. by vm_compute. }
  split; [done|]. split.
  - rewrite <- Estat. unfold api.interpret in Hint. apply res_bind_ok in Hint as (value & _ & Hint).
    destruct (Z.leb_spec 200 (client_status resp)), (Z.ltb_spec (client_status resp) 300); cbn [andb] in Hint; (done || lia).
  - intros Hb. rewrite answer_read in Hread; [by injection Hread as <-|done| | | |].
    + destruct Hdoc as [(_ & Hh & _)|(Hh & _)]; auto.
    + apply Nat.leb_le. by vm_compute.
    + apply Nat.leb_le. by vm_compute.
    + apply Z.min_glb; [|done]. etransitivity; [exact Hb|]. by vm_compute.
Qed.

(** ** Setting and getting *)

(** A command given its project, its environment and its token. *)
Definition flags (ps es t : string) : Common := mk_common (Some ps) (Some es) (Some t).

(** Where the client finds the server. *)
Definition reaches (h : Host) (address : string) : Prop :=
  ∃ rest, resolve (default config.DEFAULT_SERVER (vars h !! "LS_SERVER" ≫= from_utf8)) = Ok (address :: rest).

Lemma connect_flags ps es t h address :
  reaches h address → connect_authenticated (flags ps es t) h = (Ok (api.mk_api address (Some t)), h).
Proof.
  intros [rest Hr]. unfold connect_authenticated, common_connect, config.server_address, var, api.connect, bind, gets, ret, lift.
  cbn [token flags common_token ret]. rewrite Hr. done.
Qed.

Lemma call_peer a m target body h r h' : api.call a m target body h = (r, h') → ∃ s', h' = set_peer s' h.
Proof.
  assert (∀ h, h = set_peer (peer h) h) as Hid by (by intros []).
  unfold api.call, bind, map_perr, api.send, bind, lift.
  destruct (dial _ _); [intros [= _ <-]; by exists (peer h)|]. destruct (Client.request _ _ _ _ _) as [bytes|e]; [|by intros [= _ <-]; exists (peer h)].
  destruct (transmit _ bytes (peer h)) as [answer s']. destruct (match answer with Ok _ => _ | Err _ => _ end); intros [= _ <-]; by exists s'.
Qed.

(** What the two commands send is proper. *)
Definition put_body (value : string) : Value := Object [("value", Str value)].
Definition proper_put (address ps es key t value : string) : Prop :=
  proper Limits_default address "PUT" (secret_path ps es key) (api.headers "PUT" (Some t)) (as_bytes (Value.to_string (put_body value))).
Definition proper_get (address ps es key t : string) : Prop :=
  proper Limits_default address "GET" (secret_path ps es key) (api.headers "GET" (Some t)) [].

(** The document of a request is the one it was written from. *)
Lemma arrived_object address m target headers fields path query :
  plain 8 (Object fields) →
  Api.body_of (arrived address m target headers (as_bytes (Value.to_string (Object fields))) path query) = Ok (Object fields).
Proof.
  intros Hp. unfold Api.body_of. cbn [body arrived]. rewrite decide_False.
  - unfold Request.body_text. cbn [body arrived]. rewrite from_utf8_as_bytes.
    + cbn [ok_or res_bind]. rewrite (plain_parse 8 _ Hp) by (unfold MAX_DEPTH; lia). done.
    + apply Value.is_str_to_string. apply Hp.
  - unfold Value.to_string. by rewrite as_bytes_of_bytes.
Qed.

Lemma plain_put_body value : is_str value = true → plain 8 (put_body value).
Proof. intros Hv. unfold put_body. plain_fields. Qed.

Lemma ascii_ends s b l b' :
  is_str s = true → as_bytes s = b :: l ++ [b'] → is_ascii b = true → is_ascii b' = true →
  is_whitespace (Z_of_byte b) = false → is_whitespace (Z_of_byte b') = false → trim s = s.
Proof.
  intros Hs Hb Ha Ha' Hw Hw'.
  assert (∀ c x, is_scalar c = true → is_ascii x = true → x ∈ encode_char c → c = Z_of_byte x) as Hone.
  { intros c x Hc Hx Hin. destruct (Z.lt_ge_cases c 0x80) as [Hlt|Hge]; [|by apply (Parser.encode_char_high c x) in Hge].
    unfold encode_char in Hin. rewrite (proj2 (Z.ltb_lt _ _)) in Hin by done. apply list_elem_of_singleton in Hin as ->.
    apply is_scalar_spec in Hc. rewrite Z_of_byte_of_Z, Z.mod_small; lia. }
  assert (encode_chars (chars s) = b :: l ++ [b']) as He.
  { rewrite <- Hb. rewrite <- (of_chars_chars s Hs) at 2. unfold of_chars. by rewrite as_bytes_of_bytes. }
  pose proof (chars_scalar s) as Hsc. apply dotenv.trim_kept; [done|..]; intros c Hc.
  - destruct (chars s) as [|c' cs]; [done|]. injection Hc as ->. cbn [forallb] in Hsc. apply andb_prop in Hsc as [Hsc _].
    rewrite encode_chars_cons in He. replace c with (Z_of_byte b); [done|]. symmetry. apply (Hone c b Hsc Ha).
    pose proof (encode_char_nonnil c). destruct (encode_char c); [done|]. injection He as -> _. by left.
  - destruct (chars s) as [|c' cs _] eqn:E using rev_ind; [done|]. rewrite last_snoc in Hc. injection Hc as ->.
    rewrite forallb_app in Hsc. apply andb_prop in Hsc as [_ Hsc]. cbn [forallb] in Hsc. rewrite andb_true_r in Hsc.
    rewrite encode_chars_app in He. replace c with (Z_of_byte b'); [done|]. symmetry. apply (Hone c b' Hsc Ha').
    assert (encode_chars [c] = encode_char c) as Ec by (unfold encode_chars; cbn; by rewrite app_nil_r). rewrite Ec in He.
    pose proof (encode_char_nonnil c) as Hne. destruct (encode_char c) as [|x m _] eqn:Em using rev_ind; [done|].
    rewrite app_assoc in He. change (b :: l ++ [b']) with ((b :: l) ++ [b']) in He. apply app_inj_tail in He as [_ ->].
    apply elem_of_app. right. by left.
Qed.

(** And so is that of an answer. *)
Lemma interpret_object status fields :
  plain 8 (Object fields) → 200 <= status < 300 →
  api.interpret (heard (Response.json status (Value.to_string (Object fields)))) = Ok (Object fields).
Proof.
  intros Hp Hst. set (v := Object fields) in *.
  assert (is_str (Value.to_string v) = true) as Hs by (apply Value.is_str_to_string, Hp).
  unfold api.interpret. set (r := heard _). assert (client_body r = as_bytes (Value.to_string v)) as -> by done.
  assert (client_status r = status) as -> by done. clear r.
  rewrite from_utf8_as_bytes by done. change (default "" (Some (Value.to_string v))) with (Value.to_string v).
  assert (trim (Value.to_string v) = Value.to_string v) as ->.
  { assert (∃ l, as_bytes (Value.to_string v) = x7b :: l ++ [x7d]) as [l El].
    { unfold Value.to_string. rewrite as_bytes_of_bytes. cbn [Value.render]. by eexists. }
    by apply (ascii_ends _ _ _ _ Hs El). }
  rewrite bool_decide_eq_false_2.
  - rewrite (plain_parse 8 v Hp) by (unfold MAX_DEPTH; lia). cbn [map_err res_bind].
    by rewrite (proj2 (Z.leb_le _ _)), (proj2 (Z.ltb_lt _ _)) by lia.
  - intros E%as_bytes_nil. unfold Value.to_string in E. rewrite as_bytes_of_bytes in E. unfold v in E. by cbn [Value.render] in E.
Qed.

Lemma interpret_shows key value :
  is_str key = true → is_str value = true →
  api.interpret (heard (shows key value)) = Ok (Object [("key", Str key); ("value", Str value)]).
Proof. intros Hk Hv. apply interpret_object; [plain_fields|lia]. Qed.

Section SetGet.
Variables (master : DataKey.t) (evs : list Event) (ps es key : string).
Hypothesis (Hps : dotenv.key_ok ps) (Hes : dotenv.key_ok es) (Hkey : dotenv.key_ok key).

Lemma live_api_ok s : live p master evs (s.1, Api.vault s.2) → Api.poisoned s.2 = false → api_ok p s.
Proof. intros Hl Hpo. unfold api_ok. rewrite Hpo. right. right. eauto. Qed.

Lemma set_stores t value h code h' address :
  live p master evs ((peer h).1, Api.vault (peer h).2) → Api.poisoned (peer h).2 = false → is_str value = true →
  reaches h address → proper_put address ps es key t value →
  Commands.set (flags ps es t) [key; value] h = (Ok code, h') → stored p ps es key value (peer h').
Proof.
  intros Hl Hpo Hv Hreach Hproper. unfold Commands.set, first. unfold bind at 1, lift. cbn [head ok_or tail].
  unfold bind at 1. unfold bind at 1, eprintln, eprint, modify. cbn [ret].
  set (h0 := mk_host _ _ _ _ _ _ _ _). intros H.
  apply bind_ok in H as (x & h1 & Hx & H). injection Hx as <- <-. apply bind_ok in H as (x & h1 & Hx & H). injection Hx as <- <-.
  apply bind_ok in H as (a & h1 & Ha & H). rewrite (connect_flags ps es t h0 address Hreach) in Ha. injection Ha as <- <-.
  apply bind_ok in H as (v & h1 & Hcall & H). injection H as _ <-. cbn [peer].
  destruct (secret_path_target ps es key Hps Hes Hkey) as (Ht & Hpath & Hloc).
  pose proof (call_served (api.mk_api address (Some t)) "PUT" (secret_path ps es key) (Some (put_body value)) v h0 h1 _ []
    Hproper Ht Hpath (live_api_ok _ Hl Hpo) Hcall) as Hs.
  cbn [api.address] in Hs. change (peer h0) with (peer h) in Hs. set (request := arrived _ _ _ _ _ _ _) in Hs.
  pose proof (put_stores p master evs ps es key request (peer h) Hl Hpo Hpath eq_refl Hloc) as Hput.
  destruct (Api.respond request (peer h)) as [answer s'] eqn:E. destruct Hs as (-> & Hstat & _). cbn [fst snd] in Hput.
  destruct Hput as (b & value' & Hb & Hv' & Hst); [lia|]. 
  assert (Api.body_of request = Ok (put_body value)) as Hb' by by apply arrived_object, plain_put_body.
  rewrite Hb' in Hb. injection Hb as <-.
  assert (value' = value) as -> by (by injection Hv'). exact Hst.
Qed.

Lemma get_prints t value h r h' address :
  stored p ps es key value (peer h) → reaches h address → proper_get address ps es key t →
  Z.of_nat (length (response_body (shows key value))) <= max_body Limits_default →
  Commands.get (flags ps es t) [key] h = (r, h') →
  match r with
  | Ok code => code = SUCCESS ∧ stdout h' = stdout h ++ as_bytes value ++ [x0a]
  | Err _ => stdout h' = stdout h
  end.
Proof.
  intros Hst Hreach Hproper Hsize. destruct (secret_path_target ps es key Hps Hes Hkey) as (Ht & Hpath & Hloc).
  pose proof Hst as (Hpo & Hv & m & evs' & ids & Hl & _). assert (api_ok p (peer h)) as Hok
    by (unfold api_ok; rewrite Hpo; right; right; eauto).
  assert (is_str key = true) as Hks by by apply dotenv.key_chars.
  unfold Commands.get, first. unfold bind at 1, lift. cbn [head ok_or]. unfold bind at 1. cbn [common_project flags project ret].
  unfold bind at 1. cbn [common_environment flags environment ret]. fold (flags ps es t).
  unfold bind at 1. rewrite (connect_flags ps es t h address Hreach). unfold bind at 1, map_perr.
  destruct (api.call _ "GET" _ None h) as [[v|e] h1] eqn:Hcall.
  - pose proof (call_served (api.mk_api address (Some t)) "GET" (secret_path ps es key) None v h h1 _ []
      Hproper Ht Hpath Hok Hcall) as Hs.
    cbn [api.address] in Hs. set (request := arrived _ _ _ _ _ _ _) in Hs.
    pose proof (get_shows p ps es key value request (peer h) ltac:(by apply dotenv.key_chars) ltac:(by apply dotenv.key_chars) Hks
      Hst eq_refl Hloc) as Hshows. cbv zeta in Hshows.
    destruct (Api.respond request (peer h)) as [answer s'] eqn:E. destruct Hs as (-> & Hstat & Hint). cbn [fst] in Hshows.
    destruct Hshows as [->|Hbad]; [|exfalso; revert Hbad; rewrite !elem_of_cons, elem_of_nil; lia].
    specialize (Hint Hsize). rewrite interpret_shows in Hint by done. injection Hint as <-.
    unfold bind at 1, lift. cbn [api.field Value.get_str Value.get Value.as_str ok_or]. intros [= <- <-]. by split.
  - destruct (call_peer _ _ _ _ _ _ _ Hcall) as [s' ->]. by intros [= <- <-].
Qed.

(** C5: a value that was set is the value that is printed. When [lsec set KEY VALUE]
    succeeds against a live server, then, after anything has been read from it in between,
    [lsec get KEY], on any machine, with any token, prints exactly the value and a line
    feed, or prints nothing and fails. Between the command line and the vault lie the
    client's request, the network, the server's reading of it, the API and the log; the
    hypotheses are that both commands are proper requests, that the network delivers
    the bytes of a request in time, and that the answer is within the client's limit. *)
Theorem set_then_get t t' address address' value h h1 code between h' r h2 :
  live p master evs ((peer h).1, Api.vault (peer h).2) → Api.poisoned (peer h).2 = false → is_str value = true →
  reaches h address → proper_put address ps es key t value →
  Commands.set (flags ps es t) [key; value] h = (Ok code, h1) →
  Forall (λ r, is_str (path r) = true ∧ only_reads r) between → peer h' = respond_all between (peer h1) →
  reaches h' address' → proper_get address' ps es key t' →
  Z.of_nat (length (response_body (shows key value))) <= max_body Limits_default →
  Commands.get (flags ps es t') [key] h' = (r, h2) →
  match r with
  | Ok code' => code' = SUCCESS ∧ stdout h2 = stdout h' ++ as_bytes value ++ [x0a]
  | Err _ => stdout h2 = stdout h'
  end.
Proof.
  intros Hl Hpo Hv Hreach Hput Hset Hbet Hpeer Hreach' Hget Hsize Hrun.
  apply (get_prints t' value h' r h2 address'); [|done..].
  rewrite Hpeer. apply stored_respond_all; [done|done|]. by eapply set_stores.
Qed.
End SetGet.
End CliClaims.

End CliClaims.

(** ** Trying them out *)

Module CliDemo.
Export ApiDemo.
Import VaultSpec ApiSpec ApiClaims Framing Exchange Paths CliClaims.

#[export] Instance link0 : Link := {|
  link_fault _ := None;
  link_text _ := "refused";
  link_terminal := false;
  link_stty _ := false;
  link_resolve _ := Ok ["127.0.0.1:8787"];
  link_spawn _ _ _ := Ok (Some 0);
  pieces bytes := (λ b, Bytes [b]) <$> bytes;
  unreachable := None;
  lost _ := None;
|}.
#[export] Instance debug0 : DebugText := {| debug_text s := s |}.

Definition host0 : Host := mk_host ∅ ∅ ∅ 0 [] [] [] api1.
Definition host1 : Host := (Commands.set (flags "app" "prod" session1) ["KEY"; "hunter 2"] host0).2.
Definition host2 : Host := mk_host ∅ ∅ ∅ 0 [] [] [] (peer host1).

Lemma pieces0 bytes : concat (piece <$> pieces bytes) = bytes ∧ Forall (λ a, ∃ b, a = Bytes b ∧ b ≠ []) (pieces bytes).
Proof.
  split.
  - cbn [pieces link0]. induction bytes as [|b bytes IH]; [done|]. rewrite !fmap_cons. cbn [concat piece app]. by rewrite IH.
  - apply Forall_fmap, Forall_forall. intros b _. by exists [b].
Qed.

Ltac proper_request :=
  split;
  [ by split
  | split; [by vm_compute|split; [by vm_compute|apply (bool_decide_unpack _); by vm_compute]]
  | split; [by vm_compute|split; by vm_compute]
  | repeat (constructor; [apply ExchangeDemo.sendable_ok; by vm_compute|]); by apply Forall_nil
  | apply Nat.leb_le; by vm_compute
  | split; by vm_compute
  | apply Nat.leb_le; by vm_compute
  | apply Nat.leb_le; by vm_compute
  | apply Z.leb_le; by vm_compute ].

Lemma proper_put0 : proper_put "127.0.0.1:8787" "app" "prod" "KEY" session1 "hunter 2".
Proof. unfold proper_put. proper_request. Qed.

Lemma proper_get0 : proper_get "127.0.0.1:8787" "app" "prod" "KEY" session1.
Proof. unfold proper_get. proper_request. Qed.

Lemma app_ok : dotenv.key_ok "app".
Proof. by split. Qed.

Lemma prod_ok : dotenv.key_ok "prod".
Proof. by split. Qed.

Lemma key_ok0 : dotenv.key_ok "KEY".
Proof. by split. Qed.

(** The outcome of a run and the host it leaves, without looking into either. *)
Lemma run_split {R} (m : Host → R * Host) h r : (m h).1 = r → m h = (r, (m h).2).
Proof. intros <-. apply surjective_pairing. Qed.

Lemma fresh_host_peer server : peer (mk_host ∅ ∅ ∅ 0 [] [] [] server) = respond_all [] server.
Proof. done. Qed.

Lemma peer0 : peer host0 = api1.
Proof. done. Qed.

Lemma set_then_get_witness :
  let '(r, h) := Commands.get (flags "app" "prod" session1) ["KEY"] host2 in
  (Commands.set (flags "app" "prod" session1) ["KEY"; "hunter 2"] host0).1 = Ok 0 ∧ r = Ok 0
  ∧ stdout h = as_bytes "hunter 2" ++ [x0a].
Proof.
  assert ((Commands.set (flags "app" "prod" session1) ["KEY"; "hunter 2"] host0).1 = Ok 0) as Hset by by vm_compute.
  assert ((Commands.get (flags "app" "prod" session1) ["KEY"] host2).1 = Ok 0) as Hget by by vm_compute.
  assert (Api.poisoned (peer host0).2 = false) as Hpo by by vm_compute.
  assert (is_str "hunter 2" = true) as Hv by by vm_compute.
  assert (reaches host0 "127.0.0.1:8787") as Hr0 by (by exists []).
  assert (reaches host2 "127.0.0.1:8787") as Hr2 by (by exists []).
  assert (Z.of_nat (length (response_body (shows "KEY" "hunter 2"))) <= max_body Limits_default) as Hsize
    by (apply Z.leb_le; by vm_compute).
  destruct live1 as (master & evs & Hl).
  assert (live path0 master evs ((peer host0).1, Api.vault (peer host0).2)) as Hl'
    by (rewrite peer0; change (live path0 master evs (vault1.1, vault1.2)); by rewrite <- surjective_pairing).
  rewrite (run_split _ _ _ Hget). split; [exact Hset|]. split; [done|].
  pose proof (run_split _ _ _ Hset) as Es. fold host1 in Es.
  pose proof (fresh_host_peer (peer host1)) as Hp. fold host2 in Hp.
  pose proof (run_split _ _ _ Hget) as Er.
  exact (proj2 (set_then_get pieces0 ExchangeDemo.prompt0 path0 path0_apart master evs "app" "prod" "KEY"
    app_ok prod_ok key_ok0 session1 session1 "127.0.0.1:8787" "127.0.0.1:8787" "hunter 2"
    host0 host1 0 [] host2 (Ok 0) _ Hl' Hpo Hv Hr0 proper_put0 Es (List.Forall_nil _) Hp Hr2 proper_get0 Hsize Er)).
Defined.
End CliDemo.
