(* ===== verification/Sections.v ===== *)
(** * The sections of a request

    A worker answers a request in sections, each under a lock: the limiter, the vault, the
    limiter again. Between two sections of one worker the others run theirs. This file
    takes the handlers of [crates/ls-server/src/api.rs] apart at those points: a [task] is
    what is left to do, [advance] does its next section. Run one after the other the
    sections are the handler; in any order they keep the invariant, and no order of them
    gets more guesses at a password past the limiter. *)

From S2P Require Import Prelude Text Timestamp JsonValue JsonParser World Token Shamir Aead Event State Log Validate Password RateLimit Errors Logging Vault.
From S2P Require Import VaultSpec VaultSecrets VaultAccess VaultServer Http HttpRequest HttpClient Api ApiSpec ApiClaims.
From Stdlib Require Import Strings.Byte.

Module Sections.
Import VaultSpec VaultAccess Server Api ApiSpec ApiClaims.

(** What is left to do for a request: all of it; a ceremony past its limiter; a login past
    the limiter, with the address and the password; a login that issued a token; or only
    to write the answer. A handler that panicked has none. *)
Inductive task :=
| Start (request : Request)
| Ceremony (ceremony : place) (request : Request)
| Guessing (request : Request) (email password : string)
| Granted (request : Request) (email token : string)
| Answered (answer : option Response).

(** What a request that passes the gates asks for. *)
Definition gated (request : Request) : option place :=
  match refuse_elsewhere request, refuse_cross_origin request with
  | None, None => locate (segments (path request))
  | _, _ => None
  end.

(** How many sections are left at most. *)
Definition height (t : task) : nat :=
  match t with Start _ => 3 | Ceremony _ _ | Guessing _ _ _ => 2 | Granted _ _ _ => 1 | Answered _ => 0 end.

Section Sections.
Context {EnvI : Env} {CipherI : Cipher} {ShaI : Sha256} {ArgonI : Argon2} {TextI : OsText}.

(** The end of a request, with its line of the log. *)
Definition closing (request : Request) (answer : Response) (s : World * Api) : task * (World * Api) :=
  let '(answer, s') := conclude request answer s in (Answered (Some answer), s').

(** A section that comes to an answer, or to [k]. *)
Definition section {A} (request : Request) (m : handler A) (k : A → task) (s : World * Api) : task * (World * Api) :=
  match m s with
  | (Ok a, s') => (k a, s')
  | (Err answer, s') => closing request answer s'
  end.

Definition answering (request : Request) (m : handler Response) (s : World * Api) : task * (World * Api) :=
  match m s with
  | (Ok answer, s') | (Err answer, s') => closing request answer s'
  end.

Definition advance (t : task) : World * Api → task * (World * Api) :=
  match t with
  | Start request =>
    match gated request with
    | Some Init =>
      if bool_decide (method request = "POST")
      then section request (ceremony_gate "init rate limited") (λ _, Ceremony Init request)
      else answering request (route request)
    | Some Unseal =>
      if bool_decide (method request = "POST")
      then section request (ceremony_gate "unseal rate limited") (λ _, Ceremony Unseal request)
      else answering request (route request)
    | Some Login =>
      if bool_decide (method request = "POST")
      then section request (login_gate request) (λ '(email, password), Guessing request email password)
      else answering request (route request)
    | _ => answering request (route request)
    end
  | Ceremony ceremony request =>
    answering request (match ceremony with Init => init_admitted request | _ => unseal_admitted request end)
  | Guessing request email password => section request (login_admitted email password) (Granted request email)
  | Granted request email token => answering request (login_done email token)
  | Answered answer => λ s, (Answered answer, s)
  end.

(** The sections of a task without interruption. *)
Fixpoint sections (n : nat) (t : task) (s : World * Api) : task * (World * Api) :=
  match n with
  | O => (t, s)
  | S n => let '(t', s') := advance t s in sections n t' s'
  end.

(** ** One after the other *)

Lemma closing_eq request answer w self :
  ∃ w', closing request answer (w, self) = (Answered (Some answer), (w', self)) ∧ disk w' = disk w.
Proof.
  unfold closing, conclude. match goal with |- context [note ?l ?m ?f _] => destruct (note_disk l m f w self) as (w' & -> & Hd) end.
  by exists w'.
Qed.

(** [P] of the task a section leads to and of the state it leaves, but for the last line
    of the log. *)
Lemma closing_cases request answer s (P : task → World * Api → Prop) :
  (∀ w', disk w' = disk s.1 → P (Answered (Some answer)) (w', s.2)) → P (closing request answer s).1 (closing request answer s).2.
Proof. destruct s as [w self]. intros H. destruct (closing_eq request answer w self) as (w' & -> & Hd). by apply H. Qed.

Lemma section_cases {A} request (m : handler A) k s (P : task → World * Api → Prop) :
  wp m (λ a, P (k a)) (λ r s', ∀ w', disk w' = disk s'.1 → P (Answered (Some r)) (w', s'.2)) s →
  P (section request m k s).1 (section request m k s).2.
Proof. unfold wp, section. destruct (m s) as [[a|r] s']; [done|]. by apply closing_cases. Qed.

Lemma answering_cases request (m : handler Response) s (P : task → World * Api → Prop) :
  (let Q := λ r s', ∀ w', disk w' = disk s'.1 → P (Answered (Some r)) (w', s'.2) in wp m Q Q s) →
  P (answering request m s).1 (answering request m s).2.
Proof. unfold wp, answering. destruct (m s) as [[r|r] s']; by apply closing_cases. Qed.

Lemma section_height {A} request (m : handler A) k s n :
  (0 < n)%nat → (∀ a, (height (k a) < n)%nat) → (height (section request m k s).1 < n)%nat.
Proof. intros Hn Hk. apply (section_cases request m k s (λ t _, (height t < n)%nat)). unfold wp. by destruct (m s) as [[]]. Qed.

Lemma answering_height request m s n : (0 < n)%nat → (height (answering request m s).1 < n)%nat.
Proof. intros Hn. apply (answering_cases request m s (λ t _, (height t < n)%nat)). unfold wp. by destruct (m s) as [[]]. Qed.

(** Every section brings the answer nearer. *)
Lemma advance_height t s : match t with Answered _ => True | _ => (height (advance t s).1 < height t)%nat end.
Proof.
  destruct t as [request| | | |]; cbn [advance height]; auto using answering_height with lia.
  - destruct (gated request) as [[]|]; try case_bool_decide; auto using answering_height with lia; (apply section_height; [lia|]).
    + intros []; cbn; lia.
    + intros []; cbn; lia.
    + intros []; cbn; lia.
  - apply section_height; [lia|]. cbn. lia.
Qed.

Lemma sections_answered n answer s : sections n (Answered answer) s = (Answered answer, s).
Proof. by induction n. Qed.

Lemma sections_add n m t s : sections (n + m) t s = let '(t', s') := sections n t s in sections m t' s'.
Proof. revert t s. induction n as [|n IH]; intros t s; [done|]. cbn. destruct (advance t s) as [t' s']. apply IH. Qed.

(** The answer a handler comes to, early or not, and the end of the request. *)
Definition outcome (request : Request) (m : handler Response) (s : World * Api) : Response * (World * Api) :=
  match m s with
  | (Ok answer, s') | (Err answer, s') => conclude request answer s'
  end.

Lemma sections_closing n request answer s :
  (let '(t, s') := closing request answer s in sections n t s')
  = (Answered (Some (conclude request answer s).1), (conclude request answer s).2).
Proof. unfold closing. destruct (conclude request answer s) as [a s']. apply sections_answered. Qed.

Lemma sections_answering n request m k s : (∀ s, k s = answering request m s) →
  (let '(t, s') := k s in sections n t s') = (Answered (Some (outcome request m s).1), (outcome request m s).2).
Proof. intros ->. unfold answering, outcome. destruct (m s) as [[] s']; apply sections_closing. Qed.

Lemma outcome_bind {A} request (m : handler A) (k : A → handler Response) s :
  outcome request (bind m k) s = match m s with (Ok a, s') => outcome request (k a) s' | (Err r, s') => conclude request r s' end.
Proof. unfold outcome, bind. by destruct (m s) as [[]]. Qed.

Lemma route_gated request x : gated request = Some x → route request = dispatch request x.
Proof.
  unfold gated, route. destruct (refuse_elsewhere request); [done|]. destruct (refuse_cross_origin request); [done|]. by intros ->.
Qed.

(** Uninterrupted, the sections of a request are its handler. *)
Lemma sections_respond request s :
  sections 3 (Start request) s = (Answered (Some (respond request s).1), (respond request s).2).
Proof.
  change (respond request s) with (outcome request (route request) s). cbn [sections]. cbn [advance].
  destruct (gated request) as [x|] eqn:Hx; [|by apply (sections_answering 2)]. pose proof (route_gated _ _ Hx) as Hr.
  destruct x; try (by apply (sections_answering 2)); (case_bool_decide as Hm; [|by apply (sections_answering 2)]);
    rewrite Hr; cbn [dispatch]; unfold only; rewrite bool_decide_true by done.
  - unfold init. rewrite outcome_bind. unfold section. destruct (ceremony_gate _ s) as [[u|r] s1];
      [by apply (sections_answering 1)|by apply (sections_closing 2)].
  - unfold unseal. rewrite outcome_bind. unfold section. destruct (ceremony_gate _ s) as [[u|r] s1];
      [by apply (sections_answering 1)|by apply (sections_closing 2)].
  - unfold login. rewrite outcome_bind. unfold section at 1. destruct (login_gate request s) as [[[email password]|r] s1];
      [|by apply (sections_closing 2)].
    rewrite outcome_bind. cbn [advance]. unfold section. destruct (login_admitted email password s1) as [[token|r] s2];
      [by apply (sections_answering 0)|by apply (sections_closing 1)].
Qed.

(** ** In any order *)

Definition task_ok (t : task) : Prop :=
  match t with
  | Start request => is_str (path request) = true
  | Ceremony _ _ | Guessing _ _ _ | Answered None => True
  | Granted _ _ token => is_str token = true
  | Answered (Some answer) => document answer
  end.

Section Sound.
Context {LawsI : CipherLaws} {ArgonLawsI : password.Argon2Laws}.
Variables (p : string).
Hypothesis (Hext : Log.with_extension p "compacting" ≠ p).

Lemma section_keeps {A} request (m : handler A) (k : A → task) P s :
  keeps (api_ok p) m P → (∀ a, P a → task_ok (k a)) → api_ok p s →
  task_ok (section request m k s).1 ∧ api_ok p (section request m k s).2.
Proof.
  intros Hm Hk Hs. apply (section_cases request m k s (λ t s', task_ok t ∧ api_ok p s')). eapply wp_mono; [by apply Hm|..]; cbv beta.
  - intros a s' [H HP]. split; [by apply Hk|done].
  - intros r [w self] [H Hd] w' Hw. split; [done|]. by apply (unlogged_api_ok p w).
Qed.

Lemma answering_keeps request m s : keeps (api_ok p) m document → api_ok p s →
  task_ok (answering request m s).1 ∧ api_ok p (answering request m s).2.
Proof.
  intros Hm Hs. apply (answering_cases request m s (λ t s', task_ok t ∧ api_ok p s')).
  eapply wp_mono; [by apply Hm|..]; cbv beta; intros r [w self] [H Hd] w' Hw; (split; [done|]; by apply (unlogged_api_ok p w)).
Qed.

(** Whatever ran before it, a section finds the vault sound and leaves it so. *)
Lemma advance_ok t s : task_ok t → api_ok p s → task_ok (advance t s).1 ∧ api_ok p (advance t s).2.
Proof.
  intros Ht Hs. destruct t as [request|ceremony request|request email password|request email token|answer]; cbn [advance task_ok] in *; [..|done].
  - pose proof (keeps_route p Hext request Ht) as Hr.
    assert (∀ warning ceremony, let out := section request (ceremony_gate warning) (λ _, Ceremony ceremony request) s in
      task_ok out.1 ∧ api_ok p out.2) as Hgate by (intros; by apply (section_keeps _ _ _ (λ _, True)); [apply keeps_ceremony_gate|..]).
    destruct (gated request) as [[]|]; try case_bool_decide; try exact (answering_keeps _ _ _ Hr Hs); try apply Hgate.
    refine (section_keeps _ _ _ (λ _, True) s (keeps_login_gate p request) _ Hs). by intros [email password] _.
  - apply answering_keeps; [|done]. destruct ceremony; (exact (keeps_init_admitted p Hext request) || exact (keeps_unseal_admitted p Hext request)).
  - exact (section_keeps _ _ (Granted request email) (λ token, is_str token = true) s (keeps_login_admitted p Hext email password) (λ _ H, H) Hs).
  - exact (answering_keeps _ _ s (keeps_login_done p email token Ht) Hs).
Qed.
End Sound.

(** ** Guesses *)

(** What leaves the limiter of logins alone. *)
Definition spares {A} (m : handler A) : Prop := ∀ s, logins (m s).2.2 = logins s.2.

Lemma spares_bind {A B} (m : handler A) (k : A → handler B) : spares m → (∀ a, spares (k a)) → spares (bind m k).
Proof.
  intros Hm Hk s. unfold bind. specialize (Hm s). destruct (m s) as [[a|r] s']; [|done]. cbn [snd] in Hm. by rewrite Hk.
Qed.

Lemma spares_modify f : (∀ s, logins (f s).2 = logins s.2) → spares (modify f).
Proof. intros H s. apply H. Qed.

Lemma spares_note level message fields : spares (note level message fields).
Proof. intros [w self]. by destruct (note_disk level message fields w self) as (w' & -> & _). Qed.

Lemma spares_vault_error {A} e : spares (vault_error (A := A) e).
Proof. apply spares_bind; [|done]. destruct (500 <=? _); [apply spares_note|done]. Qed.

Lemma spares_call_or {A} (m : Vault.method A) handle : (∀ e, spares (handle e)) → spares (rescue (on_vault m) handle).
Proof.
  intros Hh [w self]. unfold rescue, on_vault, zoom. cbn [fst snd]. destruct (m (w, vault self)) as [[a|e] [w' v']]; [done|]. by rewrite Hh.
Qed.

Lemma spares_call {A} (m : Vault.method A) : spares (call m).
Proof. apply spares_call_or. intros e. apply spares_vault_error. Qed.

Lemma spares_text {A} (m : result VaultError.t A) : spares (rescue (lift m) vault_error).
Proof. intros s. unfold rescue, lift. destruct m; [done|]. by rewrite spares_vault_error. Qed.

Lemma spares_ceremony : spares ceremony_allowed.
Proof.
  intros [w self]. unfold ceremony_allowed, allow. destruct (RateLimiter.allow _ _) as [[] []]; done.
Qed.

Lemma spares_lock : spares lock.
Proof. intros [w self]. destruct (lock_relocks w self) as (w' & -> & _). cbn. unfold relocked. by destruct (poisoned self). Qed.

Lemma spares_gate warning : spares (ceremony_gate warning).
Proof.
  apply spares_bind; [apply spares_ceremony|]. intros []; cbn [negb]; [done|]. by apply spares_bind; [apply spares_note|].
Qed.

Lemma spares_check_all caller project environment entries : spares (check_all caller project environment entries).
Proof. induction entries as [|[k v] entries IH]; [done|]. by apply spares_bind; [apply spares_call|]. Qed.

Lemma spares_set_all caller project environment entries : spares (set_all caller project environment entries).
Proof. induction entries as [|[k v] entries IH]; [done|]. by apply spares_bind; [apply spares_call|]. Qed.

Ltac spares :=
  repeat first
  [ apply spares_lock | apply spares_gate | apply spares_call | apply spares_text | apply spares_note | apply spares_vault_error
  | apply spares_call_or; intros ? | apply spares_check_all | apply spares_set_all
  | lazymatch goal with
    | |- spares (bind _ _) => apply spares_bind; [|intros ?]
    | |- spares (match ?x with _ => _ end) => destruct x
    | |- spares (modify _) => apply spares_modify; intros []; done
    | |- spares (fail _) => done
    | |- spares (ret _) => done
    | |- spares (gets _) => done
    | |- spares (reads _) => done
    | |- spares (lift _) => done
    end ].

Lemma spares_authed request work : (∀ caller, spares (work caller)) → spares (authed request work).
Proof. intros H. unfold authed. spares. apply H. Qed.

Lemma spares_ceremonies request : spares (init_admitted request) ∧ spares (unseal_admitted request).
Proof. unfold init_admitted, unseal_admitted. split; spares. Qed.

Lemma spares_login_admitted email password : spares (login_admitted email password).
Proof. unfold login_admitted. spares. Qed.

Lemma spares_dispatch request x : x ≠ Login ∨ method request ≠ "POST" → spares (dispatch request x).
Proof.
  intros Hx. destruct x; cbn [dispatch]; unfold only; repeat case_bool_decide; try done.
  all: try (progress unfold Api.rekey, Api.seal, Api.create_user, logout, Api.audit, Api.issue_token, revoke, projects, Api.create_project,
    environments, Api.create_environment, Api.list_secrets, set_many, Api.get_secret, put_secret, Api.delete_secret, health, Api.init, Api.unseal).
  all: try (spares; try (apply spares_authed; intros ?; spares); apply spares_ceremonies).
  by destruct Hx.
Qed.

Lemma spares_route request : gated request ≠ Some Login ∨ method request ≠ "POST" → spares (route request).
Proof.
  intros Hx. destruct (gated request) as [x|] eqn:E.
  - rewrite (route_gated _ _ E). apply spares_dispatch. destruct Hx; [left; congruence|by right].
  - unfold route, gated in *. destruct (refuse_elsewhere request); [done|]. destruct (refuse_cross_origin request); [done|]. by rewrite E.
Qed.

Definition asks_login (request : Request) : bool :=
  match gated request with Some Login => bool_decide (method request = "POST") | _ => false end.

Lemma asks_login_spec request : asks_login request = true ↔ gated request = Some Login ∧ method request = "POST".
Proof.
  unfold asks_login. destruct (gated request) as [[]|]; try (split; [done|by intros [? _]]). rewrite bool_decide_eq_true. tauto.
Qed.

(** The address a login is for. *)
Definition applicant (request : Request) : option string :=
  if asks_login request then
    match (let? body := body_of request in credentials body) with
    | Ok (email, _) => Some email
    | Err _ => None
    end
  else None.

(** What a section does with the limiter of logins. *)
Definition limiter_step (t : task) (s : World * Api) : option RateLimiter.step :=
  match t with
  | Start request => RateLimiter.Attempt (Timestamp.unix_seconds (reading s.1)) <$> applicant request
  | Granted _ email _ => Some (RateLimiter.Success email)
  | _ => None
  end.

(** The gate of a login, in one piece. *)
Lemma login_gate_eq request s :
  login_gate request s =
  match (let? body := body_of request in credentials body) with
  | Err r => (Err r, s)
  | Ok (email, password) =>
    let '(granted, l) := RateLimiter.allow_at (Timestamp.unix_seconds (reading s.1)) email (logins s.2) in
    let s1 := (mk_world (draws s.1) (S (ticks s.1)) (World.calls s.1) (disk s.1) (verbosity s.1) (console s.1), set_logins l s.2) in
    if granted then (Ok (email, password), s1)
    else (Err (error_response 429 "too many attempts, try again shortly"), (note Warn "login rate limited" [("email", email)] s1).2)
  end.
Proof.
  unfold login_gate, bind, lift. destruct (body_of request) as [body|r]; cbn [res_bind]; [|done].
  destruct (credentials body) as [[email password]|r]; [|done]. unfold allow, RateLimiter.allow, now, reading. cbn [fst snd].
  destruct (RateLimiter.allow_at _ _ _) as [[] l]; [done|]. cbn [negb].
  match goal with |- context [note ?l ?m ?f (?w, ?self)] => destruct (note_disk l m f w self) as (w' & -> & _) end. done.
Qed.

Lemma section_logins {A} request (m : handler A) k s : spares m → logins (section request m k s).2.2 = logins s.2.
Proof.
  intros H. specialize (H s). apply (section_cases request m k s (λ _ s', logins s'.2 = logins s.2)). unfold wp. by destruct (m s) as [[]].
Qed.

Lemma answering_logins request m s : spares m → logins (answering request m s).2.2 = logins s.2.
Proof.
  intros H. specialize (H s). apply (answering_cases request m s (λ _ s', logins s'.2 = logins s.2)). unfold wp. by destruct (m s) as [[]].
Qed.

(** An answer is not a guess. *)
Lemma answering_no_guess request m s r email password : (answering request m s).1 ≠ Guessing r email password.
Proof. apply (answering_cases request m s (λ t _, t ≠ Guessing r email password)). unfold wp. by destruct (m s) as [[]]. Qed.

Lemma limiter_step_other request s : asks_login request = false → limiter_step (Start request) s = None.
Proof. intros H. cbn. unfold applicant. by rewrite H. Qed.

(** A section of a request that asks for anything but a login. *)
Lemma advance_other request s :
  asks_login request = false →
  logins (advance (Start request) s).2.2 = logins s.2
  ∧ ∀ r email password, (advance (Start request) s).1 ≠ Guessing r email password.
Proof.
  intros Hl. assert (spares (route request)) as Hr.
  { apply spares_route. destruct (decide (method request = "POST")); [|by right]. left. intros H.
    assert (asks_login request = true); [by apply asks_login_spec|congruence]. }
  assert (let out := answering request (route request) s in
    logins out.2.2 = logins s.2 ∧ ∀ r email password, out.1 ≠ Guessing r email password) as Hans
    by (split; [by apply answering_logins|apply answering_no_guess]).
  assert (∀ warning c, let out := section request (ceremony_gate warning) (λ _, Ceremony c request) s in
    logins out.2.2 = logins s.2 ∧ ∀ r email password, out.1 ≠ Guessing r email password) as Hcer.
  { intros warning c out. split; [apply section_logins, spares_gate|]. intros r email password. unfold out.
    apply (section_cases request _ _ s (λ t _, t ≠ Guessing r email password)). unfold wp. by destruct (ceremony_gate warning s) as [[]]. }
  cbn [advance]. unfold asks_login in Hl. destruct (gated request) as [[]|]; try exact Hans; case_bool_decide; auto; done.
Qed.

(** A section that lets a guess at a password of [key] past the limiter. *)
Definition guesses (key : string) (t : task) (s : World * Api) : bool :=
  match (advance t s).1 with
  | Guessing _ email _ => bool_decide (RateLimiter.normalise email = RateLimiter.normalise key)
  | _ => false
  end.

Lemma advance_limiter key t s :
  logins (advance t s).2.2 = match limiter_step t s with Some st => RateLimiter.do_step (logins s.2) st | None => logins s.2 end
  ∧ (if guesses key t s then 1 else 0) =
    match limiter_step t s with
    | Some (RateLimiter.Attempt now k) =>
      if bool_decide (RateLimiter.normalise k = RateLimiter.normalise key) && (RateLimiter.allow_at now k (logins s.2)).1 then 1 else 0
    | _ => 0
    end.
Proof.
  assert (∀ m, (∀ r email password, (advance t s).1 ≠ Guessing r email password) → m = 0 → (if guesses key t s then 1 else 0) = m) as Hno.
  { intros m Hng ->. unfold guesses. destruct (advance t s).1 as [| |r e p| |]; try done. by destruct (Hng r e p). }
  destruct t as [request|ceremony request|request email password|request email token|answer].
  - destruct (asks_login request) eqn:Hl.
    2: { rewrite limiter_step_other by done. destruct (advance_other request s Hl) as [El Eg]. split; [done|]. by apply Hno. }
    unfold guesses. cbn [advance limiter_step]. unfold applicant. rewrite Hl. apply asks_login_spec in Hl as [-> Hm].
    rewrite bool_decide_true by done. unfold section. rewrite login_gate_eq.
    destruct (let? body := body_of request in credentials body) as [[email password]|r]; cbn [fmap option_fmap option_map].
    2: { destruct s as [w self]. by destruct (closing_eq request r w self) as (w' & -> & _). }
    cbn [RateLimiter.do_step]. destruct (RateLimiter.allow_at _ email _) as [[] l]; cbn [fst snd logins set_logins].
    + rewrite andb_true_r. by destruct (bool_decide _).
    + rewrite andb_false_r. match goal with |- context [note ?l ?m ?f (?w, ?self)] => destruct (note_disk l m f w self) as (w1 & -> & _) end.
      cbn [snd]. match goal with |- context [closing request ?r (?w, ?self)] => destruct (closing_eq request r w self) as (w2 & -> & _) end. done.
  - split; [|apply Hno; [intros; apply answering_no_guess|done]]. cbn. destruct (spares_ceremonies request). apply answering_logins. by destruct ceremony.
  - split; [cbn; apply section_logins, spares_login_admitted|]. apply Hno; [|done]. intros r e p. cbn.
    apply (section_cases request _ _ s (λ t _, t ≠ Guessing r e p)). unfold wp. by destruct (login_admitted _ _ _) as [[]].
  - split; [|apply Hno; [intros; apply answering_no_guess|done]]. destruct s as [w self].
    apply (answering_cases request _ (w, self) (λ _ s', logins s'.2 = RateLimiter.succeeded email (logins self))).
    unfold login_done. apply wp_bind, wp_modify, wp_note. intros w' _. by apply wp_ret.
  - done.
Qed.

(** Sections of any requests, in the order in which they come to run. *)
Definition run (ts : list task) (s : World * Api) : World * Api := fold_left (λ s t, (advance t s).2) ts s.

Fixpoint count_guesses (key : string) (ts : list task) (s : World * Api) : Z :=
  match ts with
  | [] => 0
  | t :: ts => (if guesses key t s then 1 else 0) + count_guesses key ts (advance t s).2
  end.

Fixpoint limiter_steps (ts : list task) (s : World * Api) : list RateLimiter.step :=
  match ts with
  | [] => []
  | t :: ts => match limiter_step t s with Some st => [st] | None => [] end ++ limiter_steps ts (advance t s).2
  end.

(** They all run within the window that starts at [a], and none ends a login as [key]. *)
Fixpoint within_window (a : Z) (key : string) (ts : list task) (s : World * Api) : Prop :=
  match ts with
  | [] => True
  | t :: ts =>
    a <= Timestamp.unix_seconds (reading s.1) < a + WINDOW_SECONDS
    ∧ match t with Granted _ email _ => RateLimiter.normalise email ≠ RateLimiter.normalise key | _ => True end
    ∧ within_window a key ts (advance t s).2
  end.

Lemma limiter_steps_length ts s : (length (limiter_steps ts s) ≤ length ts)%nat.
Proof.
  revert s. induction ts as [|t ts IH]; intros s; [done|]. cbn. specialize (IH (advance t s).2). destruct (limiter_step t s); cbn; lia.
Qed.

Lemma run_logins ts s : logins (run ts s).2 = RateLimiter.run (limiter_steps ts s) (logins s.2).
Proof.
  revert s. induction ts as [|t ts IH]; intros s; [done|]. cbn [run fold_left limiter_steps]. unfold run in IH. rewrite IH.
  destruct (advance_limiter "" t s) as [-> _]. by destruct (limiter_step t s).
Qed.

Lemma count_granted key ts s : count_guesses key ts s = RateLimiter.granted key (limiter_steps ts s) (logins s.2).
Proof.
  revert s. induction ts as [|t ts IH]; intros s; [done|]. cbn [count_guesses limiter_steps]. rewrite IH.
  destruct (advance_limiter key t s) as [-> ->]. destruct (limiter_step t s) as [[]|]; done.
Qed.

Lemma steps_within a key ts s : within_window a key ts s → Forall (RateLimiter.within a key) (limiter_steps ts s).
Proof.
  revert s. induction ts as [|t ts IH]; intros s; [constructor|]. intros (Hw & Hg & Hrest). cbn [limiter_steps].
  apply Forall_app. split; [|by apply IH]. destruct t as [request| | |request email|]; cbn [limiter_step]; try (by apply Forall_nil).
  - destruct (applicant request); [by apply Forall_singleton|by apply Forall_nil].
  - by apply Forall_singleton.
Qed.

(** C10: passwords cannot be guessed faster by asking in parallel. Whatever sections of
    whatever requests have run in whatever order since the server started, and whichever
    run during a minute in which nobody logs in as [key]: at most twenty of them let a
    guess at the password of [key] through to the vault, in any spelling of the address,
    ten if [key] had not been tried. (Fewer than 2^32 sections in all.) *)
Theorem guesses_limited w v before during key a :
  let s := run before (w, Api.new v) in
  Z.of_nat (length before) + Z.of_nat (length during) < 2 ^ 32 → within_window a key during s →
  count_guesses key during s <= 2 * MAX_ATTEMPTS
  ∧ (windows (logins s.2) !! RateLimiter.normalise key = None → count_guesses key during s <= MAX_ATTEMPTS).
Proof.
  intros s Hlen Hw. pose proof (limiter_steps_length before (w, Api.new v)). pose proof (limiter_steps_length during s).
  rewrite count_granted. pose proof (run_logins before (w, Api.new v)) as E. fold s in E. rewrite E.
  apply (RateLimiter.budget_respected MAX_ATTEMPTS _ _ key a); [done|lia|by apply steps_within].
Qed.
End Sections.
End Sections.

Module SectionsDemo.
Export ApiDemo.
Import VaultAccess Server Api Sections.

Definition wrong : Request :=
  mk_request "POST" "/v1/auth/login" [] [("host", "localhost:7770"); json]
    (as_bytes (Value.to_string (Object [("email", Str "DEV@example.com "); ("password", Str "not it")]))).
Definition salvo : list task := replicate 12 (Start wrong).

Lemma steady a b key s :
  a = Timestamp.unix_seconds (Timestamp.of_clock b) → (∀ w, reading w = Timestamp.of_clock b) →
  within_window a key salvo s.
Proof.
  intros -> H. unfold salvo. generalize 12%nat. intros n. revert s. induction n as [|n IH]; intros s; [done|]. cbn [replicate within_window].
  rewrite H. split; [unfold WINDOW_SECONDS; lia|]. split; [done|apply IH].
Qed.

(** Ten guesses of twelve get through, though the others were asked for at once. *)
Lemma guesses_limited_witness :
  count_guesses "dev@example.com" salvo api0 = 10
  ∧ count_guesses "dev@example.com" salvo api0 <= MAX_ATTEMPTS.
Proof.
  split; [by vm_compute|].
  refine (proj2 (guesses_limited booted.1 booted.2 [] salvo "dev@example.com" _ _ (steady _ _ _ _ eq_refl (λ _, eq_refl))) eq_refl).
  apply Z.ltb_lt. by vm_compute.
Defined.
End SectionsDemo.
