(* ===== verification/Reasons.v ===== *)
(** * What errors may say

    The texts of [Errors] are made of constants of the source and of numbers. [plain] says
    so of an error, and this file shows it of every error that a method of the vault comes
    to: none repeats a text that was sent to it or that it keeps. *)

From S2P Require Import Prelude Text Encoding Timestamp JsonValue JsonParser World Logging Token Shamir Aead Event State Log.
From S2P Require Import Barrier Validate Password RateLimit Errors Vault.
From Stdlib Require Import Strings.Byte.

Module Reasons.

(** What an error may be about: the vault's things, what may be wrong with a barrier and
    with the log's frames, and an event's fields and what may be wrong with it. *)
Definition WORDS : list string :=
  ["project"; "environment"; "secret"; "token"; "user"; "project slug"; "environment slug"; "secret key"; "email"; "password";
   "token lifetime"; "share configuration"; "stored value is not text"; "the store holds records but no barrier";
   "not a barrier record"; "barrier written in a format this build does not know"; "bad share count"; "bad key material";
   "bad timestamp"; "not UTF-8"; "not JSON";
   "a record frame claims to be empty"; "a record frame claims a length this build never writes";
   "a record frame claims an impossible length";
   "type"; "id"; "password_hash"; "created_at"; "token_hash"; "kind"; "user_id"; "project_id"; "environment_id"; "label";
   "expires_at"; "at"; "slug"; "name"; "key"; "nonce"; "ciphertext"; "actor"; "action"; "target"; "outcome";
   "unknown token kind"; "missing data_key"; "missing value"; "unknown event type"; "unknown sealed value format";
   "sealed value has no format marker"].

Definition plain_store (error : StoreError) : Prop :=
  match error with MalformedEvent what | Corrupt _ what => what ∈ WORDS | _ => True end.

Definition plain (error : VaultError.t) : Prop :=
  match error with
  | VaultError.NotFound what | VaultError.Conflict what | VaultError.Invalid what | VaultError.UnreadableBarrier what => what ∈ WORDS
  | VaultError.Store error => plain_store error
  | _ => True
  end.

Definition faults {E A} (P : E → Prop) (m : result E A) : Prop := ∀ e, m = Err e → P e.
Definition blames {S E A} (P : E → Prop) (m : proc S E A) : Prop := ∀ s e s', m s = (Err e, s') → P e.

(** ** Rules *)

Section Rules.
Context {S E : Type} (P : E → Prop).

Lemma faults_ok {A} (a : A) : faults P (Ok a).
Proof. by intros e. Qed.

Lemma faults_err {A} e : P e → faults (A := A) P (Err e).
Proof. by intros H e' [= <-]. Qed.

Lemma faults_ok_or {A} (o : option A) e : P e → faults P (ok_or o e).
Proof. intros H e'. destruct o; [done|]. by intros [= <-]. Qed.

Lemma faults_bind {A B} (m : result E A) (k : A → result E B) : faults P m → (∀ a, faults P (k a)) → faults P (res_bind m k).
Proof. intros Hm Hk e. destruct m as [a|e0]; [apply Hk|]. cbn. intros [= ->]. by apply Hm. Qed.

Lemma faults_map_ok {A B} (f : A → B) (m : result E A) : faults P m → faults P (map_ok f m).
Proof. intros Hm e. destruct m as [a|e0]; [done|]. cbn. intros [= ->]. by apply Hm. Qed.

Lemma faults_map_err {F A} (f : F → E) (m : result F A) : faults (λ e, P (f e)) m → faults P (map_err f m).
Proof. intros Hm e. destruct m as [a|e0]; [done|]. cbn. intros [= <-]. by apply Hm. Qed.

Lemma faults_any {A} (m : result E A) : (∀ e, P e) → faults P m.
Proof. by intros H e _. Qed.

Lemma blames_any {A} (m : proc S E A) : (∀ e, P e) → blames P m.
Proof. by intros H s e s' _. Qed.

Lemma blames_never {A} (m : proc S E A) : (∀ s, is_ok (m s).1 = true) → blames P m.
Proof. intros H s e s' E0. specialize (H s). by rewrite E0 in H. Qed.

Lemma blames_fail {A} e : P e → blames (A := A) P (fail (S := S) e).
Proof. by intros H s e' s' [= <- _]. Qed.

Lemma blames_lift {A} (m : result E A) : faults P m → blames P (lift (S := S) m).
Proof. intros H s e s' [= E0 _]. by apply H. Qed.

Lemma blames_bind {A B} (m : proc S E A) (k : A → proc S E B) : blames P m → (∀ a, blames P (k a)) → blames P (bind m k).
Proof. intros Hm Hk s e s'. unfold bind. destruct (m s) as [[a|e0] s1] eqn:E0; [apply Hk|]. intros [= -> _]. by eapply Hm. Qed.

Lemma blames_map_perr {F A} (f : F → E) (m : proc S F A) : blames (λ e, P (f e)) m → blames P (map_perr f m).
Proof. intros Hm s e s'. unfold map_perr. destruct (m s) as [[a|e0] s1] eqn:E0; [done|]. intros [= <- _]. by eapply Hm. Qed.

Lemma blames_zoom {T A} (get : S → T) (set : T → S → S) (m : proc T E A) : blames P m → blames P (zoom get set m).
Proof. intros Hm s e s'. unfold zoom. destruct (m (get s)) as [r t] eqn:E0. intros [= -> _]. by eapply Hm. Qed.

(** An error that is looked at is as good as it was. *)
Lemma blames_attempt {F A B} (R : F → Prop) (m : proc S F A) (k : result F A → proc S E B) :
  blames R m → (∀ a, blames P (k (Ok a))) → (∀ e, R e → blames P (k (Err e))) → blames P (bind (attempt m) k).
Proof. intros Hm Ha He s e s'. unfold bind, attempt. specialize (Hm s). destruct (m s) as [[a|e0] s1]; [apply Ha|apply He]. by eapply Hm. Qed.
End Rules.

Lemma blames_try {A} P (f : Vault.t → result VaultError.t A) : (∀ v, faults P (f v)) → blames P (Vault.try_ f).
Proof. intros Hf s e s' [= E _]. by eapply Hf. Qed.

Create HintDb blames.

(** A text is one of the constants, and an error says no more. *)
Ltac listed := apply (bool_decide_unpack _); by vm_compute.
Ltac constant := first [exact I|assumption|cbn [plain plain_store]; listed].

(** An error that is replaced, whatever it was. *)
Ltac replaced := solve [(apply faults_any || apply blames_any); intros []; constant].

Ltac faults :=
  repeat first
  [ solve [auto 2 with blames nocore]
  | lazymatch goal with
    | |- faults _ (Ok _) => apply faults_ok
    | |- faults _ (Err _) => apply faults_err; constant
    | |- faults _ (ok_or _ _) => apply faults_ok_or; constant
    | |- faults _ (res_bind _ _) => apply faults_bind; [|intros ?]
    | |- faults _ (map_ok _ _) => apply faults_map_ok
    | |- faults plain (map_err VaultError.Store ?m) => apply (faults_map_err plain VaultError.Store m); change (faults plain_store m)
    | |- faults _ (map_err _ _) => apply faults_map_err; replaced
    | |- faults _ (match ?x with _ => _ end) => destruct x
    end ].

Ltac blames :=
  repeat first
  [ solve [auto 2 with blames nocore]
  | lazymatch goal with
    | |- blames _ (fail _) => apply blames_fail; constant
    | |- blames _ (lift _) => apply blames_lift; faults
    | |- blames _ (Vault.try_ _) => apply blames_try; intros ?; faults
    | |- blames ?P (bind (attempt _) _) => apply (blames_attempt _ P); [|intros ?|intros ? ?]
    | |- blames _ (bind _ _) => apply blames_bind; [|intros ?]
    | |- blames plain (map_perr VaultError.Store ?m) => apply (blames_map_perr plain VaultError.Store m); change (blames plain_store m)
    | |- blames _ (map_perr _ _) => apply blames_map_perr; replaced
    | |- blames _ (zoom _ _ _) => apply blames_zoom
    | |- blames _ (match ?x with _ => _ end) => destruct x
    | |- blames _ _ => apply blames_never; done
    end ].

(** ** The store *)

(** A field is blamed by its name. *)
Section Fields.
Variables (value : Value) (name : string).
Hypothesis (Hname : name ∈ WORDS).

Lemma faults_text : faults plain_store (text_field value name).
Proof. by apply faults_ok_or. Qed.

Lemma faults_time : faults plain_store (time_field value name).
Proof. by apply faults_ok_or. Qed.

Lemma faults_bytes : faults plain_store (bytes_field value name).
Proof. by apply faults_ok_or. Qed.

Lemma faults_optional_text : faults plain_store (optional_text_field value name).
Proof. unfold optional_text_field. destruct (Value.get value name) as [[]|]; first [apply faults_ok|by apply faults_err]. Qed.

Lemma faults_optional_time : faults plain_store (optional_time_field value name).
Proof.
  unfold optional_time_field. destruct (Value.get value name) as [[]|]; first [apply faults_ok|by apply faults_err|idtac].
  by apply faults_map_ok, faults_ok_or.
Qed.
End Fields.

(** Fields by their names. *)
Ltac fields :=
  repeat (faults; lazymatch goal with
    | |- faults _ (text_field _ _) => apply faults_text; listed
    | |- faults _ (time_field _ _) => apply faults_time; listed
    | |- faults _ (bytes_field _ _) => apply faults_bytes; listed
    | |- faults _ (optional_text_field _ _) => apply faults_optional_text; listed
    | |- faults _ (optional_time_field _ _) => apply faults_optional_time; listed
    end).

Lemma faults_sealed value : faults plain_store (Sealed.from_value value).
Proof. unfold Sealed.from_value. fields. Qed.
#[export] Hint Resolve faults_sealed : blames.

Lemma faults_event bytes : faults plain_store (Event.from_bytes bytes).
Proof. unfold Event.from_bytes, Event.from_value. fields. Qed.
#[export] Hint Resolve faults_event : blames.

Lemma faults_events records : faults plain_store (Vault.events_of records).
Proof. induction records as [|r records IH]; cbn [Vault.events_of]; faults; done. Qed.

Lemma faults_replay records : ∀ state, faults plain_store (Vault.replay_records state records).
Proof. induction records as [|r records IH]; intros state; cbn [Vault.replay_records]; faults; done. Qed.
#[export] Hint Resolve faults_events faults_replay : blames.

Section Store.
Context {EnvI : Env} {CipherI : Cipher} {TextI : OsText}.

Lemma faults_record key sequence payload : faults plain_store (Log.open_record key sequence payload).
Proof. unfold Log.open_record. faults. Qed.

Lemma faults_visit key n kind payload out : faults plain_store (Log.visit_record key n kind payload out).
Proof. unfold Log.visit_record. pose proof faults_record. faults; auto. Qed.

Lemma blames_io {A} (m : proc World IoError A) : blames plain_store (Log.io m).
Proof. unfold Log.io. blames. Qed.
#[local] Hint Resolve blames_io : blames.

Lemma blames_records {A} visit fuel i : (∀ n kind payload (acc : A), faults plain_store (visit n kind payload acc)) →
  ∀ n o acc, blames plain_store (Log.records_loop visit fuel i n o acc).
Proof. intros Hv. induction fuel as [|fuel IH]; intros n o acc; cbn [Log.records_loop]; blames; auto. Qed.

Lemma blames_each {A} path visit (acc : A) : (∀ n kind payload (acc : A), faults plain_store (visit n kind payload acc)) →
  blames plain_store (Log.for_each_record path visit acc).
Proof. intros Hv. unfold Log.for_each_record. blames. intros w. by apply blames_records. Qed.

Lemma blames_read l key : blames plain_store (Log.read_records l key).
Proof. apply blames_each. apply faults_visit. Qed.

Lemma blames_scan fuel i : ∀ n o, blames plain_store (Log.scan_loop fuel i n o).
Proof. induction fuel as [|fuel IH]; intros n o; cbn [Log.scan_loop]; blames; auto. Qed.

Lemma blames_open path : blames plain_store (Log.open path).
Proof. unfold Log.open, Log.check_header. blames. intros w. apply blames_scan. Qed.

Lemma blames_write kind p : blames plain_store (Log.write_record kind p).
Proof.
  intros [w self] e s'. unfold Log.write_record. destruct (broken self); [by intros [= <- _]|]. destruct (_ <? _); [by intros [= <- _]|].
  destruct (bind _ _ w) as [[] w']; [done|]. by intros [= <- _].
Qed.

Lemma blames_append key p : blames plain_store (Log.append key p).
Proof.
  intros [w self] e s'. unfold Log.append. destruct (_ <? _); [by intros [= <- _]|].
  assert (blames plain_store (Log.seal key (count self) p)) as Hs by (unfold Log.seal; blames). specialize (Hs w).
  destruct (Log.seal key (count self) p w) as [[c|e0] w']; [apply blames_write|]. intros [= <- _]. by eapply Hs.
Qed.

Lemma blames_append_each {A} (step : A → proc (World * Log) StoreError unit) records :
  (∀ a, blames plain_store (step a)) → blames plain_store (Log.append_each step records).
Proof. intros Hs. induction records as [|a records IH]; cbn [Log.append_each]; blames; auto. Qed.

Lemma blames_build key plain_ sealed temporary : blames plain_store (Log.build_fresh key plain_ sealed temporary).
Proof.
  intros w e s'. unfold Log.build_fresh. pose proof (blames_open temporary w) as Ho.
  destruct (Log.open temporary w) as [[fresh|e0] w1]; [|intros [= <- _]; by eapply Ho].
  assert (blames plain_store (do! Log.append_each Log.append_plain plain_ in Log.append_each (Log.append key) sealed)) as Hb
    by (apply blames_bind; [|intros _]; apply blames_append_each; [apply blames_write|apply blames_append]).
  specialize (Hb (w1, fresh)). destruct (bind _ _ (w1, fresh)) as [[u|e0] [w2 l2]]; [|intros [= <- _]; by eapply Hb].
  revert e s'. generalize w2. change (blames plain_store (do! Log.io sync in ret l2)). blames.
Qed.

(** A line of the log never fails. *)
Lemma blames_emit {E} (P : E → Prop) c : blames P (Logger.emit c).
Proof. apply blames_never. intros w. by destruct (Logger.emit_line (E := E) c w) as (w' & -> & _). Qed.

Lemma blames_flush {E} (P : E → Prop) : blames P Log.flush_directory.
Proof. apply (blames_attempt _ (λ _, True)); [by apply blames_any|by intros []; apply blames_never|]. intros e _. apply blames_emit. Qed.

Lemma blames_compact key plain_ sealed : blames plain_store (Log.compact key plain_ sealed).
Proof.
  intros [w self] e s'. unfold Log.compact. cbv zeta.
  match goal with |- context [bind ?m ?k w] => assert (blames plain_store (bind m k)) as H end.
  { pose proof blames_build. pose proof @blames_flush. blames; auto. }
  specialize (H w). destruct (bind _ _ w) as [[fresh|e0] w']; [done|]. intros [= <- _]. by eapply H.
Qed.
End Store.
#[export] Hint Resolve blames_read blames_open blames_append blames_write blames_compact : blames.

(** ** The vault *)

Lemma faults_slug input what : what ∈ WORDS → faults plain (validate.slug input what).
Proof. intros Hw. unfold validate.slug. cbv zeta. faults; by apply faults_err. Qed.

Lemma faults_email input : faults plain (validate.email input).
Proof. unfold validate.email. cbv zeta. faults. Qed.

Lemma faults_key input : faults plain (validate.secret_key input).
Proof. unfold validate.secret_key. cbv zeta. faults. Qed.

Lemma faults_lifetime seconds : faults plain (check_lifetime seconds).
Proof. unfold check_lifetime. faults. Qed.
#[export] Hint Resolve faults_email faults_key faults_lifetime : blames.
#[export] Hint Extern 1 (faults _ (validate.slug _ _)) => apply faults_slug; listed : blames.

Section Questions.
Context {CipherI : Cipher}.
Import Vault.

Lemma faults_unsealed self : faults plain (require_unsealed self).
Proof. unfold require_unsealed. faults. Qed.

Lemma faults_require caller capability : faults plain (require caller capability).
Proof. unfold require. faults. Qed.
#[local] Hint Resolve faults_unsealed faults_require : blames.

Lemma faults_authorise caller capability pid eid : faults plain (authorise caller capability pid eid).
Proof. unfold authorise. cbv zeta. faults. Qed.

Lemma faults_resolve self ps es : faults plain (resolve self ps es).
Proof. unfold resolve. faults. Qed.

Lemma faults_resolve_for self caller ps es : faults plain (resolve_for self caller ps es).
Proof.
  intros e. unfold resolve_for. pose proof (faults_resolve self ps es) as H. destruct (resolve self ps es) as [ids|e0]; [done|].
  destruct (decide _); intros [= <-]; [done|by apply H].
Qed.
#[local] Hint Resolve faults_authorise faults_resolve faults_resolve_for : blames.

Lemma faults_data_key self pid : faults plain (project_data_key self pid).
Proof. unfold project_data_key. faults. Qed.

Lemma faults_check self caller ps es key value : faults plain (check_secret self caller ps es key value).
Proof. unfold check_secret. faults. Qed.

Lemma faults_slugs self caller : faults plain (project_slugs self caller).
Proof. unfold project_slugs. faults. Qed.

Lemma faults_environments self caller ps : faults plain (environment_slugs self caller ps).
Proof. unfold environment_slugs. faults. Qed.

Lemma faults_reveal key pid eid stored : faults plain (reveal key pid eid stored).
Proof. induction stored as [|s stored IH]; cbn [reveal]; faults; done. Qed.
End Questions.
#[export] Hint Resolve faults_unsealed faults_require faults_authorise faults_resolve faults_resolve_for faults_data_key faults_check : blames.
#[export] Hint Resolve faults_slugs faults_environments faults_reveal : blames.

Section Methods.
Context {EnvI : Env} {CipherI : Cipher} {ShaI : Sha256} {ArgonI : Argon2} {TextI : OsText}.
Import Vault.

Lemma blames_crypto {E A} (m : proc World E A) : blames plain (crypto m).
Proof. unfold crypto, on_world. apply blames_zoom, blames_map_perr, blames_any. done. Qed.
#[local] Hint Resolve blames_crypto : blames.

Lemma blames_commit event : blames plain (commit event).
Proof. unfold commit, on_log, updates. blames. Qed.
#[local] Hint Resolve blames_commit : blames.

Lemma blames_id : blames plain new_id.
Proof. unfold new_id. blames. Qed.

Lemma blames_audit caller action target outcome : blames plain (record_audit caller action target outcome).
Proof. unfold record_audit. blames. Qed.
#[local] Hint Resolve blames_id blames_audit : blames.

(** An error that is recorded before it is answered. *)
Lemma blames_recorded {A} (m : method unit) error : blames plain m → plain error → blames (A := A) plain (do! m in fail error).
Proof. intros Hm He. apply blames_bind; [done|]. intros _. by apply blames_fail. Qed.

Lemma blames_resolve caller action ps es target : blames plain (resolve_and_record caller action ps es target).
Proof.
  intros s e s'. unfold resolve_and_record. pose proof (faults_resolve_for s.2 caller ps es) as H.
  destruct (resolve_for s.2 caller ps es) as [ids|e0]; [done|]. apply blames_recorded; [auto with blames|by apply H].
Qed.

Lemma blames_authorise caller capability action target pid eid :
  blames plain (authorise_and_record caller capability action target pid eid).
Proof.
  unfold authorise_and_record. pose proof (faults_authorise caller capability pid eid) as H.
  destruct (authorise caller capability pid eid) as [u|e]; [blames|]. apply blames_recorded; [auto with blames|by apply H].
Qed.
#[local] Hint Resolve blames_resolve blames_authorise : blames.

(** Opening the store, which a server does before it serves. *)
Lemma faults_barrier bytes : faults (λ why, why ∈ WORDS) (Barrier.from_bytes bytes).
Proof. unfold Barrier.from_bytes, Barrier.from_value, Barrier.small, Barrier.blob. faults. Qed.

Lemma blames_vault path : blames plain (open path).
Proof.
  unfold open, Log.read_plain. pose proof @blames_emit. blames; auto; [by apply blames_each|apply faults_map_err, faults_barrier].
Qed.

Lemma blames_init t n : blames plain (init t n).
Proof. unfold init, on_world, on_log, updates, Log.append_plain. blames. Qed.

Lemma blames_unseal : blames plain try_unseal.
Proof. unfold try_unseal, replay, on_world, updates. blames. Qed.
#[local] Hint Resolve blames_unseal : blames.

Lemma blames_submit printed : blames plain (submit_share printed).
Proof. unfold submit_share, updates. cbv zeta. blames. Qed.

Lemma blames_seal_as caller : blames plain (seal_as caller).
Proof. unfold seal_as, updates. blames. Qed.

Lemma blames_create_user caller email password : blames plain (create_user caller email password).
Proof. unfold create_user, on_world. blames. Qed.

Lemma blames_issue kind user pid eid label ttl : blames plain (issue_token kind user pid eid label ttl).
Proof. unfold issue_token. blames. Qed.
#[local] Hint Resolve blames_issue : blames.

Lemma blames_login email password ttl : blames plain (login email password ttl).
Proof. unfold login. cbv zeta. blames. Qed.

Lemma blames_machine caller ps es label ttl : blames plain (issue_machine_token caller ps es label ttl).
Proof. unfold issue_machine_token. blames. Qed.

Lemma blames_revoke caller id : blames plain (revoke_token caller id).
Proof. unfold revoke_token. blames. Qed.

Lemma blames_authenticate presented : blames plain (authenticate presented).
Proof. unfold authenticate. blames. Qed.

Lemma blames_project caller slug name : blames plain (create_project caller slug name).
Proof. unfold create_project. blames. Qed.

Lemma blames_environment caller ps slug name : blames plain (create_environment caller ps slug name).
Proof. unfold create_environment. blames. Qed.

Lemma blames_set caller ps es key value : blames plain (set_secret caller ps es key value).
Proof. unfold set_secret, on_world. cbv zeta. blames. Qed.

Lemma blames_get caller ps es key : blames plain (get_secret caller ps es key).
Proof. unfold get_secret. cbv zeta. blames. Qed.

Lemma blames_list caller ps es : blames plain (list_secrets caller ps es).
Proof. unfold list_secrets. cbv zeta. blames. Qed.

Lemma blames_delete caller ps es key : blames plain (delete_secret caller ps es key).
Proof. unfold delete_secret. cbv zeta. blames. Qed.

Lemma blames_trail caller : blames plain (audit_trail caller).
Proof. unfold audit_trail, on_world. blames. Qed.

Lemma blames_carry old new events : blames plain (carry_all old new events).
Proof. induction events as [|event events IH]; cbn [carry_all]; [blames|]. unfold carry. blames; done. Qed.
#[local] Hint Resolve blames_carry : blames.

Lemma blames_rekey caller t n : blames plain (rekey caller t n).
Proof. unfold rekey, on_world, on_log, updates. cbv zeta. blames. Qed.
End Methods.
#[export] Hint Resolve blames_init blames_submit blames_seal_as blames_create_user blames_login blames_machine blames_revoke blames_authenticate : blames.
#[export] Hint Resolve blames_project blames_environment blames_set blames_get blames_list blames_delete blames_trail blames_rekey : blames.
End Reasons.
