(* ===== verification/Discretion.v ===== *)
(** * What the log is told

    The lines that the server writes while it serves. [quiet] is what writes nothing, which
    goes for all of the vault but re-splitting; [says] is the judgement for the parts of a
    handler and [answers] for the whole; what an error says is in [Reasons]. The log of a
    server names things and counts them, and never holds a value, a password, a share or a
    token. *)

From S2P Require Import Prelude Text Encoding Timestamp JsonValue JsonParser World Logging Token Shamir Aead Event State Log.
From S2P Require Import Barrier Validate Password RateLimit Errors Vault Http HttpRequest HttpClient Api ApiSpec ApiClaims Sections Reasons.
From Stdlib Require Import Strings.Byte.

(** ** What writes nothing *)

Module Quiet.
Import Vault.

(** What a world has of its process. *)
Class Process (S : Type) := own : S → Z * list byte.
#[export] Instance process_world : Process World := λ w, (verbosity w, console w).
#[export] Instance process_pair {X} : Process (World * X) := λ s, own s.1.

Definition quiet {S E A} `{Process S} (m : proc S E A) : Prop := ∀ s, own (m s).2 = own s.

Section Rules.
Context {S E : Type} `{Process S}.

Lemma quiet_bind {A B} (m : proc S E A) (k : A → proc S E B) : quiet m → (∀ a, quiet (k a)) → quiet (bind m k).
Proof. intros Hm Hk s. unfold bind. specialize (Hm s). destruct (m s) as [[a|e] s']; cbn [snd] in *; [by rewrite Hk|done]. Qed.

Lemma quiet_map_perr {F A} (f : F → E) (m : proc S F A) : quiet m → quiet (map_perr f m).
Proof. intros Hm s. unfold map_perr. specialize (Hm s). by destruct (m s). Qed.

Lemma quiet_attempt {F A} (m : proc S F A) : quiet m → quiet (attempt (F := E) m).
Proof. intros Hm s. unfold attempt. specialize (Hm s). by destruct (m s). Qed.

Lemma quiet_zoom {T A} `{Process T} (get : S → T) (set : T → S → S) (m : proc T E A) :
  quiet m → (∀ s, own (get s) = own s) → (∀ t s, own (set t s) = own t) → quiet (zoom get set m).
Proof. intros Hm Hg Hs s. unfold zoom. specialize (Hm (get s)). destruct (m (get s)) as [r t]. cbn in *. by rewrite Hs, Hm. Qed.

Lemma quiet_modify f : (∀ s, own (f s) = own s) → quiet (modify (E := E) f).
Proof. intros Hf s. apply Hf. Qed.

Lemma quiet_same {A} (m : proc S E A) : (∀ s, (m s).2 = s) → quiet m.
Proof. intros Hm s. by rewrite Hm. Qed.
End Rules.

Create HintDb quiet.

(** The steps of a method, down to what is known to be quiet. *)
Ltac quiet :=
  repeat first
  [ solve [auto 2 with quiet nocore]
  | lazymatch goal with
    | |- quiet (bind _ _) => apply quiet_bind; [|intros ?]
    | |- quiet (map_perr _ _) => apply quiet_map_perr
    | |- quiet (attempt _) => apply quiet_attempt
    | |- quiet (zoom _ _ _) => apply quiet_zoom; [|done|done]
    | |- quiet (modify _) => apply quiet_modify; done
    | |- quiet (match ?x with _ => _ end) => destruct x
    | |- quiet _ => apply quiet_same; done
    end ].

Section World.
Context {EnvI : Env}.

Lemma quiet_fill n : quiet (fill n).
Proof. intros w. unfold fill. by destruct (entropy (draws w)). Qed.

Lemma quiet_now {E} : quiet (now (E := E)).
Proof. by intros w. Qed.

Lemma quiet_call : quiet World.call.
Proof. intros w. unfold World.call. by destruct (fault (calls w)). Qed.

Lemma quiet_write_at i o bytes : quiet (write_at i o bytes).
Proof. intros w. unfold write_at. pose proof (quiet_call w) as H. destruct (World.call w). exact H. Qed.
End World.
#[export] Hint Resolve quiet_fill quiet_now quiet_call quiet_write_at : quiet.

Section Files.
Context {EnvI : Env}.

Lemma quiet_lookup {E A} (m : World → option nat) (f : nat → World → result E A * World) (g : World → result E A * World) :
  (∀ i, quiet (f i)) → quiet g → quiet (λ w, match m w with Some i => f i w | None => g w end).
Proof. intros Hf Hg w. destruct (m w) as [i|]; [apply Hf|apply Hg]. Qed.

Lemma quiet_open_create path : quiet (open_create path).
Proof. apply quiet_bind; [auto with quiet|intros _]. by apply quiet_lookup. Qed.

Lemma quiet_open_read path : quiet (open_read path).
Proof. apply quiet_bind; [auto with quiet|intros _]. by apply quiet_lookup. Qed.

Lemma quiet_file_len i : quiet (file_len i).
Proof. unfold file_len. quiet. Qed.

Lemma quiet_read_at i o n : quiet (read_at i o n).
Proof. unfold read_at. quiet. Qed.

Lemma quiet_set_len i n : quiet (set_len i n).
Proof. unfold set_len. quiet. Qed.

Lemma quiet_remove_file path : quiet (remove_file path).
Proof. apply quiet_bind; [auto with quiet|intros _]. by apply quiet_lookup. Qed.

Lemma quiet_rename from to : quiet (rename from to).
Proof. apply quiet_bind; [auto with quiet|intros _]. by apply quiet_lookup. Qed.
End Files.
#[export] Hint Resolve quiet_open_create quiet_open_read quiet_file_len quiet_read_at quiet_set_len quiet_remove_file quiet_rename : quiet.

Section Store.
Context {EnvI : Env} {CipherI : Cipher} {TextI : OsText}.

Lemma quiet_seal key p a : quiet (DataKey.seal key p a).
Proof. unfold DataKey.seal, random_bytes. quiet. Qed.

Lemma quiet_log_seal key n p : quiet (Log.seal key n p).
Proof. unfold Log.seal. pose proof quiet_seal. quiet. Qed.

Lemma quiet_scan fuel i : ∀ n o, quiet (Log.scan_loop fuel i n o).
Proof. induction fuel as [|fuel IH]; intros n o; cbn [Log.scan_loop]; unfold Log.io; quiet. Qed.

Lemma quiet_records {A} visit fuel i : ∀ n o (acc : A), quiet (Log.records_loop visit fuel i n o acc).
Proof. induction fuel as [|fuel IH]; intros n o acc; cbn [Log.records_loop]; unfold Log.io; quiet. Qed.

Lemma quiet_each {A} path visit (acc : A) : quiet (Log.for_each_record path visit acc).
Proof.
  unfold Log.for_each_record, Log.io. quiet. intros w. apply quiet_records.
Qed.

Lemma quiet_read_records l key : quiet (Log.read_records l key).
Proof. apply quiet_each. Qed.

Lemma quiet_open path : quiet (Log.open path).
Proof.
  unfold Log.open, Log.check_header, Log.io. quiet. intros w. apply quiet_scan.
Qed.

Lemma quiet_write kind p : quiet (Log.write_record kind p).
Proof.
  intros [w self]. unfold Log.write_record. destruct (broken self); [done|]. destruct (_ <? _); [done|].
  assert (∀ i o bytes, quiet (do! write_at i o bytes in sync)) as Hq by (intros; unfold sync; quiet).
  match goal with |- context [bind ?m ?k w] => pose proof (Hq _ _ _ w : own (bind m k w).2 = own w) as H; destruct (bind m k w) as [[] w'] end;
    exact H.
Qed.

Lemma quiet_append key p : quiet (Log.append key p).
Proof.
  intros [w self]. unfold Log.append. destruct (_ <? _); [done|]. pose proof (quiet_log_seal key (count self) p w) as H.
  destruct (Log.seal key (count self) p w) as [[c|e] w']; [|exact H]. rewrite quiet_write. exact H.
Qed.
End Store.

Section Compaction.
Context {EnvI : Env} {CipherI : Cipher} {TextI : OsText}.

Lemma quiet_append_each {A} (step : A → proc (World * Log) StoreError unit) records :
  (∀ a, quiet (step a)) → quiet (Log.append_each step records).
Proof. intros Hs. induction records as [|a records IH]; cbn [Log.append_each]; [by intros s|]. by apply quiet_bind. Qed.

Lemma quiet_build_fresh key plain sealed temporary : quiet (Log.build_fresh key plain sealed temporary).
Proof.
  intros w. unfold Log.build_fresh. pose proof (quiet_open temporary w) as H.
  destruct (Log.open temporary w) as [[fresh|e] w1]; [|exact H]. cbn [snd] in H.
  assert (quiet (do! Log.append_each Log.append_plain plain in Log.append_each (Log.append key) sealed)) as Hq
    by (apply quiet_bind; [|intros _]; apply quiet_append_each; [apply quiet_write|apply quiet_append]).
  specialize (Hq (w1, fresh)). destruct (bind _ _ (w1, fresh)) as [[u|e] [w2 l2]]; cbn [snd] in Hq.
  - assert (quiet (do! Log.io sync in ret l2)) as Hs by (unfold Log.io, sync; quiet). rewrite Hs. exact (eq_trans Hq H).
  - exact (eq_trans Hq H).
Qed.
End Compaction.
#[export] Hint Resolve quiet_build_fresh : quiet.
#[export] Hint Resolve quiet_seal quiet_read_records quiet_open quiet_write quiet_append : quiet.

Section Vault.
Context {EnvI : Env} {CipherI : Cipher} {ShaI : Sha256} {ArgonI : Argon2} {TextI : OsText}.

Lemma quiet_crypto {E A} (m : proc World E A) : quiet m → quiet (crypto m).
Proof. intros H. unfold crypto, on_world. quiet. Qed.

Lemma quiet_clock : quiet clock_now.
Proof. unfold clock_now, on_world. quiet. Qed.

Lemma quiet_commit e : quiet (commit e).
Proof. unfold commit, on_log, updates. quiet. Qed.
End Vault.
#[export] Hint Resolve quiet_clock quiet_commit : quiet.

Ltac quiet_method := quiet; repeat (apply quiet_crypto; quiet).

Section Methods.
Context {EnvI : Env} {CipherI : Cipher} {ShaI : Sha256} {ArgonI : Argon2} {TextI : OsText}.

Lemma quiet_new_id : quiet new_id.
Proof. unfold new_id, random_bytes. quiet_method. Qed.

Lemma quiet_token : quiet (crypto token.generate).
Proof. unfold token.generate, random_bytes. quiet_method. Qed.

Lemma quiet_key : quiet (crypto DataKey.generate).
Proof. unfold DataKey.generate, random_bytes. quiet_method. Qed.

Lemma quiet_split secret t n : quiet (shamir.split secret t n).
Proof. unfold shamir.split. quiet_method. Qed.

Lemma quiet_hash password : quiet (password.hash password).
Proof. unfold password.hash, random_bytes. quiet_method. Qed.

Lemma quiet_record_audit c action target outcome : quiet (record_audit c action target outcome).
Proof. unfold record_audit. quiet_method. Qed.

Lemma quiet_resolve c action ps es target : quiet (resolve_and_record c action ps es target).
Proof.
  intros s. unfold resolve_and_record. destruct (resolve_for _ _ _ _) as [ids|e]; [done|].
  apply (quiet_bind _ _ (quiet_record_audit _ _ _ _)). by intros ? ?.
Qed.

Lemma quiet_authorise c capability action target pid eid : quiet (authorise_and_record c capability action target pid eid).
Proof. unfold authorise_and_record. pose proof quiet_record_audit. quiet_method. Qed.
End Methods.
#[export] Hint Resolve quiet_new_id quiet_token quiet_key quiet_split quiet_hash quiet_record_audit quiet_resolve quiet_authorise : quiet.

Section Requests.
Context {EnvI : Env} {CipherI : Cipher} {ShaI : Sha256} {ArgonI : Argon2} {TextI : OsText}.

Lemma quiet_init t n : quiet (init t n).
Proof. unfold init, on_world, on_log, updates, random_bytes, DataKey.wrap, Log.append_plain. quiet_method. Qed.

Lemma quiet_submit printed : quiet (submit_share printed).
Proof. unfold submit_share, try_unseal, replay, on_world, updates. quiet_method. Qed.

Lemma quiet_seal_as c : quiet (seal_as c).
Proof. unfold seal_as, updates. quiet_method. Qed.

Lemma quiet_create_user c email pw : quiet (create_user c email pw).
Proof. unfold create_user, on_world. quiet_method. Qed.

Lemma quiet_issue_token kind u pr en label ttl : quiet (issue_token kind u pr en label ttl).
Proof. unfold issue_token. quiet_method. Qed.

Lemma quiet_login email pw ttl : quiet (login email pw ttl).
Proof. unfold login. pose proof quiet_issue_token. cbv zeta. quiet_method. Qed.

Lemma quiet_machine_token c ps es label ttl : quiet (issue_machine_token c ps es label ttl).
Proof. unfold issue_machine_token. pose proof quiet_issue_token. quiet_method. Qed.

Lemma quiet_revoke c id : quiet (revoke_token c id).
Proof. unfold revoke_token. quiet_method. Qed.

Lemma quiet_authenticate presented : quiet (authenticate presented).
Proof. unfold authenticate. quiet_method. Qed.

Lemma quiet_create_project c slug name : quiet (create_project c slug name).
Proof. unfold create_project, DataKey.wrap. quiet_method. Qed.

Lemma quiet_create_environment c ps slug name : quiet (create_environment c ps slug name).
Proof. unfold create_environment. quiet_method. Qed.

Lemma quiet_set c ps es key value : quiet (set_secret c ps es key value).
Proof. unfold set_secret, on_world. cbv zeta. quiet_method. Qed.

Lemma quiet_get c ps es key : quiet (get_secret c ps es key).
Proof. unfold get_secret. cbv zeta. quiet_method. Qed.

Lemma quiet_list c ps es : quiet (list_secrets c ps es).
Proof. unfold list_secrets. cbv zeta. quiet_method. Qed.

Lemma quiet_delete c ps es key : quiet (delete_secret c ps es key).
Proof. unfold delete_secret. cbv zeta. quiet_method. Qed.

Lemma quiet_trail c : quiet (audit_trail c).
Proof. unfold audit_trail, on_world. quiet_method. Qed.

Lemma quiet_try {A} (f : Vault.t → result VaultError.t A) : quiet (try_ f).
Proof. quiet_method. Qed.
End Requests.
#[export] Hint Resolve quiet_init quiet_submit quiet_seal_as quiet_create_user quiet_login quiet_machine_token quiet_revoke : quiet.
#[export] Hint Resolve quiet_authenticate quiet_create_project quiet_create_environment quiet_set quiet_get quiet_list : quiet.
#[export] Hint Resolve quiet_delete quiet_trail quiet_try : quiet.
End Quiet.

(** ** What may be written *)

Module Discretion.
Import Api ApiSpec Returns Quiet Sections Reasons.

(** What of a request may be repeated: its method, its path, what its body has under five
    names, and the two numbers of a splitting. Its headers, with the token, and the rest of
    its body may not. *)
Record public := mk_public {
  public_method : string;
  public_path : string;
  public_named : string → option string;
  public_split : option (Z * Z);
}.

Definition NAMES : list string := ["email"; "project"; "environment"; "label"; "slug"].

Definition public_of (request : Request) : public :=
  mk_public (method request) (path request)
    (λ key, if bool_decide (key ∈ NAMES) then match body_of request with Ok body => text body key | Err _ => None end else None)
    (match body_of request with
     | Ok body => match share_parameters body with Ok split => Some split | Err _ => None end
     | Err _ => None
     end).

Definition MESSAGES : list string :=
  ["request"; "request failed"; "a request panicked mid-operation; sealing to force a rebuild"; "init rate limited";
   "vault initialised"; "unseal shares re-split"; "unseal rate limited"; "unseal share accepted"; "unseal attempt failed";
   "user created"; "login rate limited"; "login"; "machine token issued"; "project created"; "environment created";
   Log.UNFLUSHED].

(** The answers whose numbers are repeated. *)
Definition counted (sealed : bool) (progress : nat) (threshold : Z) : Response :=
  Response.json 200 (Value.to_string (unseal_body sealed progress threshold)).

Definition named_by (id : string) : Response := Response.json 201 (Value.to_string (Object [("id", Str id)])).

(** What [request], with the [answer] its section comes to, may leave in the log. *)
Section Told.
Context {TextI : OsText}.

Inductive told (request : public) (answer : option Response) : string * string → Prop :=
| told_method : told request answer ("method", public_method request)
| told_path : told request answer ("path", public_path request)
| told_status r : answer = Some r → told request answer ("status", show_Z (HttpClient.status r))
| told_named key text : public_named request key = Some text → told request answer (key, text)
| told_addressed project :
    locate (segments (public_path request)) = Some (Environments project) → told request answer ("project", project)
| told_default : public_named request "label" = None → told request answer ("label", "machine")
| told_threshold threshold shares :
    public_split request = Some (threshold, shares) → told request answer ("threshold", show_Z threshold)
| told_shares threshold shares :
    public_split request = Some (threshold, shares) → told request answer ("shares", show_Z shares)
| told_progress sealed progress threshold :
    answer = Some (counted sealed progress threshold) → told request answer ("progress", show_Z (Z.of_nat progress))
| told_sealed sealed progress threshold :
    answer = Some (counted sealed progress threshold) → told request answer ("sealed", Logger.bool_text sealed)
| told_outcome r :
    answer = Some r → told request answer ("outcome", if bool_decide (HttpClient.status r = 200) then "ok" else "refused")
| told_id bytes :
    length bytes = 16%nat → answer = Some (named_by (hex.encode bytes)) → told request answer ("id", hex.encode bytes)
| told_reason error :
    plain error → answer = Some (vault_answer error) → told request answer ("reason", vault_error_to_string error)
| told_system error : told request answer ("reason", io_text error).

Definition discreet (request : public) (answer : option Response) (c : Logger.call) : Prop :=
  Logger.call_message c ∈ MESSAGES ∧ Forall (told request answer) (Logger.call_fields c).

(** What is said early may be said with any answer. *)
Lemma discreet_early request answer c : discreet request None c → discreet request answer c.
Proof.
  intros [Hm Hf]. split; [done|]. eapply Forall_impl; [exact Hf|]. intros f Hf'.
  inversion Hf'; subst; try (by econstructor); done.
Qed.
End Told.

(** The messages of the server, those of its start included, are free of what could be taken
    for a field, and the names of the fields are names: [Logger.log_cannot_be_forged] is
    about all of them. *)
Definition START_MESSAGES : list string :=
  ["could not start"; "listening"; "the vault has not been initialised; run `lsec init`"; "the vault is sealed; run `lsec unseal`";
   "the store had an incomplete record at the end, which was discarded"].

Lemma messages_clear : Forall Logger.clear (MESSAGES ++ START_MESSAGES).
Proof. repeat (apply Forall_cons; split; [by vm_compute|]). by apply Forall_nil. Qed.

Lemma discreet_named `{OsText} request answer c : discreet (public_of request) answer c →
  Logger.clear (Logger.call_message c) ∧ Forall (λ f, forallb Logger.name_byte (as_bytes f.1) = true) (Logger.call_fields c).
Proof.
  intros [Hm Hf]. split; [eapply Forall_forall; [exact messages_clear|]; apply elem_of_app; by left|]. eapply Forall_impl; [exact Hf|].
  intros f Hf'. destruct Hf'; try by vm_compute. cbn in *. case_bool_decide as Hk; [|done].
  assert (Forall (λ name, forallb Logger.name_byte (as_bytes name) = true) NAMES) as Hn by (repeat constructor).
  eapply Forall_forall in Hn; [exact Hn|exact Hk].
Qed.

(** From one state to the next, lines of [Q] have been written. *)
Definition wrote {S} `{Process S} (Q : Logger.call → Prop) (s s' : S) : Prop :=
  (own s').1 = (own s).1 ∧ ∃ calls lines,
    (own s').2 = (own s).2 ++ concat ((λ l, l ++ [x0a]) <$> lines) ∧ Forall2 Logger.line_of lines calls ∧ Forall Q calls.

Section Wrote.
Context {S : Type} `{Process S}.

Lemma wrote_nothing Q (s s' : S) : own s' = own s → wrote Q s s'.
Proof. intros E. unfold wrote. rewrite E. split; [done|]. exists [], []. by rewrite app_nil_r. Qed.

Lemma wrote_trans Q (s1 s2 s3 : S) : wrote Q s1 s2 → wrote Q s2 s3 → wrote Q s1 s3.
Proof.
  intros (E1 & cs1 & ls1 & H1 & Hl1 & Hq1) (E2 & cs2 & ls2 & H2 & Hl2 & Hq2). split; [congruence|]. exists (cs1 ++ cs2), (ls1 ++ ls2).
  rewrite H2, H1, fmap_app, concat_app, app_assoc. split; [done|]. split; [by apply Forall2_app|by apply Forall_app].
Qed.

Lemma wrote_mono (Q Q' : Logger.call → Prop) (s s' : S) : (∀ c, Q c → Q' c) → wrote Q s s' → wrote Q' s s'.
Proof. intros HQ (E & cs & ls & Hc & Hl & Hq). split; [done|]. exists cs, ls. split; [done|]. split; [done|]. by eapply Forall_impl. Qed.
End Wrote.

(** What writes lines of [Q] at most. *)
Definition writes {S} `{Process S} {E A} (Q : Logger.call → Prop) (m : proc S E A) : Prop := ∀ s, wrote Q s (m s).2.

Section Writes.
Context {S E : Type} `{Process S} (Q : Logger.call → Prop).

Lemma writes_quiet {A} (m : proc S E A) : quiet m → writes Q m.
Proof. intros H0 s. by apply wrote_nothing. Qed.

Lemma writes_bind {A B} (m : proc S E A) (k : A → proc S E B) : writes Q m → (∀ a, writes Q (k a)) → writes Q (bind m k).
Proof.
  intros Hm Hk s. unfold bind. specialize (Hm s). destruct (m s) as [[a|e] s1]; [|exact Hm]. eapply wrote_trans; [exact Hm|apply Hk].
Qed.

Lemma writes_map_perr {F A} (f : F → E) (m : proc S F A) : writes Q m → writes Q (map_perr f m).
Proof. intros Hm s. unfold map_perr. specialize (Hm s). by destruct (m s). Qed.

Lemma writes_zoom {T A} `{Process T} (get : S → T) (set : T → S → S) (m : proc T E A) :
  writes Q m → (∀ s, own (get s) = own s) → (∀ t s, own (set t s) = own t) → writes Q (zoom get set m).
Proof.
  intros Hm Hg Hs s. unfold zoom. specialize (Hm (get s)). destruct (m (get s)) as [r t]. unfold wrote in *. cbn [snd] in *.
  by rewrite Hs, <- Hg.
Qed.
End Writes.

Section Splitting.
Context {EnvI : Env} {CipherI : Cipher} {ShaI : Sha256} {ArgonI : Argon2} {TextI : OsText}.

(** The one line of the vault: that a rewritten file may not survive. *)
Definition unflushed (c : Logger.call) : Prop := ∃ error, c = Logger.mk_call Warn Log.UNFLUSHED [("reason", io_text error)].

Lemma emit_wrote {E} (Q : Logger.call → Prop) c w : Q c → wrote Q w (Logger.emit (E := E) c w).2.
Proof.
  intros HQ. destruct (Logger.emit_line (E := E) c w) as (w' & -> & _ & Hv & H). cbn [snd].
  destruct (Logger.enabled _ _); [|subst; by apply wrote_nothing]. destruct H as (line & Hl & Hc). split; [done|].
  exists [c], [line]. cbn [fmap list_fmap concat]. rewrite app_nil_r. split; [done|]. split; [by constructor|by constructor].
Qed.

Lemma writes_flush {E} : writes (E := E) unflushed Log.flush_directory.
Proof.
  unfold Log.flush_directory. apply writes_bind; [apply writes_quiet; quiet|]. intros [u|e]; [by apply writes_quiet|].
  intros w. apply emit_wrote. by exists e.
Qed.

Lemma writes_compact key plain sealed : writes unflushed (Log.compact key plain sealed).
Proof.
  intros [w self]. unfold Log.compact. cbv zeta.
  match goal with |- context [bind ?m ?k w] => assert (writes unflushed (bind m k)) as H end.
  { repeat (apply writes_bind; [first [apply writes_flush|apply writes_quiet; unfold Log.io; quiet]|intros ?]). by apply writes_quiet. }
  specialize (H w). destruct (bind _ _ w) as [[fresh|e] w']; exact H.
Qed.

Lemma quiet_carry_all old new events : quiet (Vault.carry_all old new events).
Proof.
  induction events as [|e events IH]; cbn [Vault.carry_all]; [by intros w|]. unfold Vault.carry, DataKey.wrap. quiet.
Qed.

Lemma writes_rekey c t n : writes unflushed (Vault.rekey c t n).
Proof.
  unfold Vault.rekey, Vault.on_log. pose proof quiet_carry_all.
  repeat (apply writes_bind;
    [first [apply writes_quiet; unfold Vault.on_world, Vault.updates, random_bytes, DataKey.wrap; solve [quiet_method]
           |idtac]|intros ?; cbv zeta]); [|by apply writes_quiet].
  apply (writes_zoom unflushed (λ s, (s.1, Vault.log s.2))); [|done|done]. apply writes_map_perr, writes_compact.
Qed.
End Splitting.

Section Says.
Context {EnvI : Env} {CipherI : Cipher} {ShaI : Sha256} {ArgonI : Argon2} {TextI : OsText}.
Variables (request : Request).

(** A handler of [request] returns [P], and writes what it may. *)
Definition says {A} (m : handler A) (P : A → Prop) : Prop := ∀ s,
  wp m (λ a s', P a ∧ wrote (discreet (public_of request) None) s s')
    (λ r s', wrote (discreet (public_of request) (Some r)) s s') s.

Lemma wrote_note Q level message fields (s : World * Api) :
  Q (Logger.mk_call level message fields) → wrote Q s (note level message fields s).2.
Proof.
  intros HQ. destruct s as [w self]. unfold note, zoom. cbn [fst].
  pose proof (emit_wrote (E := Response) Q (Logger.mk_call level message fields) w HQ) as H. by destruct (Logger.emit _ w).
Qed.

Lemma says_return {A} (a : A) (P : A → Prop) : P a → says (ret a) P.
Proof. intros H s. apply wp_ret. split; [done|]. by apply wrote_nothing. Qed.

Lemma says_fail {A} r (P : A → Prop) : says (fail r) P.
Proof. intros s. apply wp_fail. by apply wrote_nothing. Qed.

Lemma says_quiet {A} (m : handler A) : quiet m → says m (λ _, True).
Proof. intros H s. specialize (H s). unfold wp. destruct (m s) as [[a|r] s']; [split; [done|]|]; by apply wrote_nothing. Qed.

Lemma says_lift {A} (m : result Response A) (P : A → Prop) : (∀ a, m = Ok a → P a) → says (lift m) P.
Proof. intros H s. apply wp_lift; [intros a Ha; split; [by apply H|]|intros r _]; by apply wrote_nothing. Qed.

Lemma says_step {A B} (m : handler A) (k : A → handler B) (R : A → Prop) P :
  says m R → (∀ a, R a → says (k a) P) → says (bind m k) P.
Proof.
  intros Hm Hk s. apply wp_bind. eapply wp_mono; [apply Hm|..]; cbv beta; [|done]. intros a s1 [Ha Hw].
  eapply wp_mono; [by apply Hk|..]; cbv beta.
  - intros b s2 [Hb Hw']. split; [done|]. by eapply wrote_trans.
  - intros r s2 Hw'. eapply wrote_trans; [|exact Hw']. eapply wrote_mono; [|exact Hw]. intros c. apply discreet_early.
Qed.

Lemma says_note {A} level message fields (k : handler A) P :
  message ∈ MESSAGES → Forall (told (public_of request) None) fields → says k P → says (do! note level message fields in k) P.
Proof.
  intros Hm Hf Hk. eapply (says_step _ _ (λ _, True)); [|done]. intros s.
  pose proof (wrote_note (discreet (public_of request) None) level message fields s) as Hw. unfold wp.
  destruct s as [w self]. destruct (note_disk level message fields w self) as (w' & E & _). rewrite E in *. split; [done|]. by apply Hw.
Qed.

(** What comes to an answer, early or not, and writes what it may with that answer. *)
Definition answers (m : handler Response) : Prop := ∀ s,
  let Q r s' := wrote (discreet (public_of request) (Some r)) s s' in wp m Q Q s.

Lemma answers_says {P} m : says m P → answers m.
Proof.
  intros Hm s. eapply wp_mono; [apply Hm|..]; cbv beta; [|done]. intros r s' [_ Hw].
  eapply wrote_mono; [|exact Hw]. intros c. apply discreet_early.
Qed.

Lemma answers_ret r : answers (ret r).
Proof. by apply (answers_says (P := λ _, True)), says_return. Qed.

Lemma answers_step {A} (m : handler A) (k : A → handler Response) (R : A → Prop) :
  says m R → (∀ a, R a → answers (k a)) → answers (bind m k).
Proof.
  intros Hm Hk s. apply wp_bind. eapply wp_mono; [apply Hm|..]; cbv beta; [|done]. intros a s1 [Ha Hw].
  assert (∀ r s2, wrote (discreet (public_of request) (Some r)) s1 s2 → wrote (discreet (public_of request) (Some r)) s s2) as Hs.
  { intros r s2 Hw'. eapply wrote_trans; [|exact Hw']. eapply wrote_mono; [|exact Hw]. intros c. apply discreet_early. }
  eapply wp_mono; [by apply Hk|apply Hs..].
Qed.

Lemma answers_note level message fields r :
  message ∈ MESSAGES → Forall (told (public_of request) (Some r)) fields → answers (do! note level message fields in ret r).
Proof.
  intros Hm Hf s. pose proof (wrote_note (discreet (public_of request) (Some r)) level message fields s) as Hw.
  destruct s as [w self]. apply wp_bind. unfold wp at 1. destruct (note_disk level message fields w self) as (w' & E & _). rewrite E in *.
  apply wp_ret. by apply Hw.
Qed.

(** A handler that answers with the error [r]. *)
Definition ends (r : Response) {A} (m : handler A) : Prop := ∀ s,
  wp m (λ _ _, False) (λ r' s', r' = r ∧ wrote (discreet (public_of request) (Some r)) s s') s.

Lemma ends_fail {A} r : ends r (fail r : handler A).
Proof. intros s. apply wp_fail. split; [done|]. by apply wrote_nothing. Qed.

Lemma ends_note {A} r level message fields (k : handler A) :
  message ∈ MESSAGES → Forall (told (public_of request) (Some r)) fields → ends r k → ends r (do! note level message fields in k).
Proof.
  intros Hm Hf Hk s. pose proof (wrote_note (discreet (public_of request) (Some r)) level message fields s) as Hw.
  destruct s as [w self]. apply wp_bind. unfold wp at 1. destruct (note_disk level message fields w self) as (w' & E & _). rewrite E in *.
  eapply wp_mono; [apply Hk|done|]; cbv beta. intros r' s' [Hr Hw']. split; [done|]. eapply wrote_trans; [by apply Hw|exact Hw'].
Qed.

Lemma says_ends {A} r (m : handler A) P : ends r m → says m P.
Proof. intros Hm s. eapply wp_mono; [apply Hm|..]; cbv beta; [done|]. by intros r' s' [-> Hw]. Qed.

Lemma ends_vault_error {A} e : plain e → ends (vault_answer e) (vault_error e : handler A).
Proof.
  intros He. unfold vault_error. destruct (_ <=? _).
  - apply ends_note; [listed|by apply Forall_singleton, told_reason|apply ends_fail].
  - intros s. apply wp_bind, wp_ret, ends_fail.
Qed.

(** *** Calls of the vault *)

Lemma says_rescue {A} (m : proc (World * Api) VaultError.t A) handle (P : A → Prop) :
  writes (discreet (public_of request) None) m → gives m P → blames plain m → (∀ e, plain e → says (handle e) P) →
  says (rescue m handle) P.
Proof.
  intros Hq Hg Hb Hh s. apply wp_rescue. specialize (Hq s). specialize (Hg s). specialize (Hb s). unfold wp at 1.
  destruct (m s) as [[a|e] s1]; cbn [snd] in Hq; [split; [by eapply Hg|exact Hq]|].
  eapply wp_mono; [by eapply Hh, Hb|..]; cbv beta.
  - intros a s2 [Ha Hw]. split; [done|]. by eapply wrote_trans.
  - intros r s2 Hw. eapply wrote_trans; [|exact Hw]. eapply wrote_mono; [|exact Hq]. intros c. apply discreet_early.
Qed.

Lemma quiet_on_vault {A} (m : Vault.method A) : quiet m → quiet (on_vault m).
Proof. intros H. unfold on_vault. by apply quiet_zoom. Qed.

Lemma says_call_or {A} (m : Vault.method A) handle (P : A → Prop) :
  quiet m → gives m P → blames plain m → (∀ e, plain e → says (handle e) P) → says (rescue (on_vault m) handle) P.
Proof. intros Hq Hg Hb. apply says_rescue; [by apply writes_quiet, quiet_on_vault|by apply gives_zoom|by apply blames_zoom]. Qed.

Lemma says_call_that {A} (m : Vault.method A) (P : A → Prop) : quiet m → gives m P → blames plain m → says (call m) P.
Proof. intros Hq Hg Hb. apply says_call_or; [done..|]. intros e He. by eapply says_ends, ends_vault_error. Qed.

Lemma says_call {A} (m : Vault.method A) : quiet m → blames plain m → says (call m) (λ _, True).
Proof. intros Hq Hb. by apply says_call_that. Qed.

Lemma says_lock : says lock (λ _, True).
Proof.
  eapply (says_step _ _ (λ _, True)); [apply says_quiet; quiet|]. intros [] _; [|by apply says_return].
  apply says_note; [listed|constructor|]. apply says_quiet. quiet.
Qed.

Lemma answers_authed work : (∀ caller, answers (work caller)) → answers (authed request work).
Proof.
  intros Hw. eapply answers_step; [apply says_lock|]. intros _ _. eapply (answers_step _ _ (λ _, True)); [apply says_quiet; quiet|].
  intros [] _; [eapply answers_says, (says_fail _ (λ _, True))|]. eapply (answers_step _ _ (λ _, True)); [by apply says_lift|]. intros token _.
  eapply answers_step; [apply says_call; [auto with quiet|blames]|]. intros [caller|] _; [apply Hw|eapply answers_says, (says_fail _ (λ _, True))].
Qed.

Lemma quiet_allow get set key : quiet (allow get set key).
Proof.
  intros [w self]. unfold allow, RateLimiter.allow, now. cbn. by destruct (RateLimiter.allow_at _ _ _) as [[] l].
Qed.

Lemma says_gate warning : warning ∈ MESSAGES → says (ceremony_gate warning) (λ _, True).
Proof.
  intros Hm. eapply (says_step _ _ (λ _, True)); [apply says_quiet, quiet_allow|]. intros [] _; [by apply says_return|].
  apply says_note; [done|constructor|apply says_fail].
Qed.

Lemma says_weaken {A} (m : handler A) (P P' : A → Prop) : (∀ a, P a → P' a) → says m P → says m P'.
Proof. intros HP Hm s. eapply wp_mono; [apply Hm|..]; cbv beta; [|done]. intros a s' [H Hw]. split; [by apply HP|done]. Qed.

(** *** The handlers *)

(** A call, with what is known of methods. *)
Ltac called := apply says_call; [auto with quiet|blames].

Lemma says_body {A} (k : Value → handler A) P :
  (∀ body, body_of request = Ok body → says (k body) P) → says (let! body := lift (body_of request) in k body) P.
Proof. intros H. apply (says_step _ _ (λ body, body_of request = Ok body)); [by apply says_lift|done]. Qed.

Lemma answers_body (k : Value → handler Response) :
  (∀ body, body_of request = Ok body → answers (k body)) → answers (let! body := lift (body_of request) in k body).
Proof. intros H. apply (answers_step _ _ (λ body, body_of request = Ok body)); [by apply says_lift|done]. Qed.

Lemma named_told body key t answer :
  body_of request = Ok body → text body key = Some t → key ∈ NAMES → told (public_of request) answer (key, t).
Proof. intros Hb Ht Hk. apply told_named. cbn. by rewrite bool_decide_true, Hb. Qed.

(** The numbers of a splitting. *)
Lemma answers_splitting body (k : Z * Z → handler Response) : body_of request = Ok body →
  (∀ t n, (∀ answer, Forall (told (public_of request) answer) [("threshold", show_Z t); ("shares", show_Z n)]) → answers (k (t, n))) →
  answers (bind (lift (share_parameters body)) k).
Proof.
  intros Hb Hk. apply (answers_step _ _ (λ split, public_split (public_of request) = Some split)).
  - apply says_lift. intros split Hs. cbn. by rewrite Hb, Hs.
  - intros [t n] Hs. apply Hk. intros answer. apply Forall_cons. split; [by eapply told_threshold|]. by eapply Forall_singleton, told_shares.
Qed.

Lemma answers_init_admitted : answers (init_admitted request).
Proof.
  apply answers_body. intros body Hb. apply answers_splitting; [done|]. intros t n Hs. eapply answers_step; [apply says_lock|]. intros _ _.
  eapply answers_step; [called|]. intros out _. apply answers_note; [listed|apply Hs].
Qed.

Lemma writes_rekeyed caller t n : writes (discreet (public_of request) None) (on_vault (Vault.rekey caller t n)).
Proof.
  intros s. eapply wrote_mono; [|refine (writes_zoom unflushed _ _ _ (writes_rekey caller t n) _ _ s); done].
  intros c [error ->]. split; [listed|]. apply Forall_singleton, told_system.
Qed.

Lemma answers_rekey : answers (Api.rekey request).
Proof.
  apply answers_body. intros body Hb. apply answers_splitting; [done|]. intros t n Hs. apply answers_authed. intros caller.
  eapply (answers_step _ _ (λ _, True)).
  { apply says_rescue; [apply writes_rekeyed|done|apply blames_zoom; blames|]. intros e He. by eapply says_ends, ends_vault_error. }
  intros out _. apply answers_note; [listed|apply Hs].
Qed.

Lemma answers_unseal_admitted : answers (unseal_admitted request).
Proof.
  apply answers_body. intros body _. eapply answers_step; [apply says_lock|]. intros _ _. destruct (decide _).
  - eapply (answers_step _ _ (λ _, True)); [apply says_quiet; quiet|]. intros _ _.
    eapply (answers_step _ _ (λ _, True)); [apply says_quiet; quiet|]. intros v _. apply answers_ret.
  - eapply (answers_step _ _ (λ _, True)); [by apply says_lift|]. intros share _. eapply (answers_step _ _ (λ _, True)).
    + apply says_call_or; [auto with quiet|done|blames|]. intros e He. eapply says_ends, ends_note; [listed| |by apply ends_vault_error].
      by apply Forall_singleton, told_reason.
    + intros status _. apply answers_note; [listed|].
      apply Forall_cons. split; [by eapply told_progress|by eapply Forall_singleton, told_sealed].
Qed.

(** A call, a line about it, and the answer. *)
Lemma answers_told {A} (m : Vault.method A) (P : A → Prop) message (fields : A → list (string * string)) answer :
  quiet m → gives m P → blames plain m → message ∈ MESSAGES →
  (∀ a, P a → Forall (told (public_of request) (Some (answer a))) (fields a)) →
  answers (let! a := call m in do! note Info message (fields a) in ret (answer a)).
Proof.
  intros Hq Hg Hb Hm Hf. eapply answers_step; [by apply says_call_that|]. intros a Ha. apply answers_note; [done|by apply Hf].
Qed.

(** A call and the answer, without a line. *)
Lemma answers_plain {A} (m : Vault.method A) (answer : A → Response) :
  quiet m → blames plain m → answers (let! a := call m in ret (answer a)).
Proof. intros Hq Hb. eapply answers_step; [by apply says_call|]. intros a _. apply answers_ret. Qed.

Lemma gives_id : gives Vault.new_id (λ id, ∃ bytes, length bytes = 16%nat ∧ id = hex.encode bytes).
Proof.
  apply (gives_bind _ _ (λ bytes, length bytes = 16%nat)).
  - apply gives_zoom, gives_map_perr. intros s bytes s'. apply random_bytes_length.
  - intros bytes Hb. apply gives_ret. by exists bytes.
Qed.

Lemma create_user_id caller email password :
  gives (Vault.create_user caller email password) (λ id, ∃ bytes, length bytes = 16%nat ∧ id = hex.encode bytes).
Proof.
  unfold Vault.create_user. apply gives_then. intros _. apply gives_then. intros _. apply gives_then. intros e.
  apply gives_then. intros [u|]; [apply gives_fail|]. apply gives_then. intros h. eapply gives_bind; [apply gives_id|]. intros id Hid.
  apply gives_then. intros at_. apply gives_then. intros _. by apply gives_ret.
Qed.

Lemma answers_create_user : answers (Api.create_user request).
Proof.
  apply answers_body. intros body _. eapply (answers_step _ _ (λ _, True)); [by apply says_lift|]. intros [email pw] _.
  apply answers_authed. intros caller. eapply answers_told; [auto with quiet|apply create_user_id|blames|listed|].
  intros id (bytes & Hl & ->). by apply Forall_singleton, told_id.
Qed.

(** The address of a login is one the body names. *)
Definition names_email (email : string) : Prop := ∀ answer, told (public_of request) answer ("email", email).

Lemma credentials_named body email password :
  body_of request = Ok body → credentials body = Ok (email, password) → names_email email.
Proof.
  unfold credentials. intros Hb H answer. destruct (text body "email") as [e|] eqn:Ee; [|done]. destruct (text body "password"); [|done].
  injection H as -> ->. eapply named_told; [done..|listed].
Qed.

Lemma says_login_gate : says (login_gate request) (λ '(email, _), names_email email).
Proof.
  apply says_body. intros body Hb. apply (says_step _ _ (λ '(email, _), names_email email)).
  - apply says_lift. intros [email pw]. by apply credentials_named.
  - intros [email pw] He. eapply (says_step _ _ (λ _, True)); [apply says_quiet, quiet_allow|]. intros [] _; [by apply says_return|].
    apply says_note; [listed|by apply Forall_singleton, He|apply says_fail].
Qed.

Lemma told_refused e : told (public_of request) (Some (vault_answer e)) ("outcome", "refused").
Proof. pose proof (told_outcome (public_of request) _ (vault_answer e) eq_refl) as H. by destruct e. Qed.

Lemma says_login_admitted email password : names_email email → says (login_admitted email password) (λ _, True).
Proof.
  intros He. eapply says_step; [apply says_lock|]. intros _ _. apply says_call_or; [auto with quiet|done|blames|]. intros e Hp.
  eapply says_ends, ends_note; [listed| |by apply ends_vault_error].
  apply Forall_cons. split; [apply He|apply Forall_singleton, told_refused].
Qed.

Lemma answers_login_done email token : names_email email → answers (login_done email token).
Proof.
  intros He. eapply (answers_step _ _ (λ _, True)); [apply says_quiet; quiet|]. intros _ _.
  apply answers_note; [listed|]. apply Forall_cons. split; [apply He|]. apply Forall_singleton.
  exact (told_outcome _ _ (Response.json 200 (Value.to_string (Object [("token", Str token)]))) eq_refl).
Qed.

Lemma answers_login : answers (Api.login request).
Proof.
  eapply answers_step; [apply says_login_gate|]. intros [email pw] He. eapply answers_step; [by apply says_login_admitted|].
  intros token _. by apply answers_login_done.
Qed.

Lemma answers_issue_token : answers (Api.issue_token request).
Proof.
  apply answers_body. intros body Hb.
  apply (answers_step _ _ (λ '(project, environment), text body "project" = Some project ∧ text body "environment" = Some environment)).
  { apply says_lift. intros [pr en]. destruct (text body "project"), (text body "environment"); try done. by intros [= <- <-]. }
  intros [pr en] [Hp He]. apply answers_authed. intros caller. eapply answers_step; [called|]. intros token _.
  eapply answers_step; [called|]. intros holder _. apply answers_note; [listed|]. repeat (apply Forall_cons; split).
  - eapply named_told; [done..|listed].
  - eapply named_told; [done..|listed].
  - destruct (text body "label") as [label|] eqn:El; [eapply named_told; [done..|listed]|]. apply told_default. cbn. by rewrite Hb.
  - by apply Forall_nil.
Qed.

Lemma answers_named body (k : string * string → handler Response) :
  body_of request = Ok body → (∀ slug name, (∀ answer, told (public_of request) answer ("slug", slug)) → answers (k (slug, name))) →
  answers (bind (lift (named body)) k).
Proof.
  intros Hb Hk. apply (answers_step _ _ (λ '(slug, _), ∀ answer, told (public_of request) answer ("slug", slug))).
  - apply says_lift. intros [slug name]. unfold named. destruct (text body "slug") as [t|] eqn:Et; [|done]. intros [= -> _] answer.
    eapply named_told; [done..|listed].
  - intros [slug name]. apply Hk.
Qed.

Lemma answers_create_project : answers (Api.create_project request).
Proof.
  apply answers_body. intros body Hb. apply answers_named; [done|]. intros slug name Hs. apply answers_authed. intros caller.
  apply (answers_told _ (λ _, True)); [auto with quiet|done|blames|listed|]. intros id _. apply Forall_singleton, Hs.
Qed.

Lemma answers_create_environment project :
  locate (segments (path request)) = Some (Environments project) → answers (Api.create_environment request project).
Proof.
  intros Hl. apply answers_body. intros body Hb. apply answers_named; [done|]. intros slug name Hs. apply answers_authed. intros caller.
  apply (answers_told _ (λ _, True)); [auto with quiet|done|blames|listed|]. intros id _.
  apply Forall_cons. split; [by apply told_addressed|apply Forall_singleton, Hs].
Qed.

Lemma faults_value bytes : faults plain (value_text bytes).
Proof. unfold value_text. faults. Qed.

Lemma faults_values secrets : faults plain (text_fields secrets).
Proof. pose proof faults_value. induction secrets as [|[key v] secrets IH]; cbn [text_fields]; faults; auto. Qed.

Lemma answers_text {A} (m : result VaultError.t A) (answer : A → Response) :
  faults plain m → answers (let! a := rescue (lift m) vault_error in ret (answer a)).
Proof.
  intros Hm. eapply answers_step.
  - apply (says_rescue _ _ (λ _, True)); [apply writes_quiet; by intros s|done|by apply blames_lift|]. intros e He.
    by eapply says_ends, ends_vault_error.
  - intros a _. apply answers_ret.
Qed.

Lemma says_check_all caller project environment entries : says (check_all caller project environment entries) (λ _, True).
Proof. induction entries as [|[key v] entries IH]; cbn [check_all]; [by apply says_return|]. by eapply says_step; [called|]. Qed.

Lemma says_set_all caller project environment entries : says (set_all caller project environment entries) (λ _, True).
Proof. induction entries as [|[key v] entries IH]; cbn [set_all]; [by apply says_return|]. by eapply says_step; [called|]. Qed.

Lemma answers_set_many project environment : answers (set_many request project environment).
Proof.
  apply answers_body. intros body _. eapply (answers_step _ _ (λ _, True)); [by apply says_lift|]. intros pairs _.
  eapply (answers_step _ _ (λ _, True)); [by apply says_lift|]. intros entries _. apply answers_authed. intros caller.
  eapply answers_step; [apply says_check_all|]. intros _ _. eapply answers_step; [apply says_set_all|]. intros _ _. apply answers_ret.
Qed.

Lemma answers_put_secret project environment key : answers (put_secret request project environment key).
Proof.
  apply answers_body. intros body _. eapply (answers_step _ _ (λ _, True)); [by apply says_lift|]. intros v _.
  apply answers_authed. intros caller. apply (answers_plain _ (λ _, Response.new 204 [])); [auto with quiet|blames].
Qed.

Lemma answers_health : answers health.
Proof.
  eapply answers_step; [apply says_lock|]. intros _ _. eapply (answers_step _ _ (λ _, True)); [apply says_quiet; quiet|]. intros v _.
  apply answers_ret.
Qed.

Lemma answers_only method expected work : answers work → answers (only method expected work).
Proof. intros H. unfold only. destruct (bool_decide _); [done|apply answers_ret]. Qed.

(** The two places with a limiter of their own. *)
Lemma answers_ceremonies : answers (Api.init request) ∧ answers (Api.unseal request).
Proof.
  split; (eapply answers_step; [apply says_gate; listed|intros _ _]); [apply answers_init_admitted|apply answers_unseal_admitted].
Qed.

Lemma answers_dispatch x : locate (segments (path request)) = Some x → answers (dispatch request x).
Proof.
  intros Hx. destruct answers_ceremonies. destruct x; cbn [dispatch]; try apply answers_only; try done.
  all: repeat match goal with |- answers (if ?b then _ else _) => destruct b end; try (by apply answers_ret).
  all: try first [apply answers_health|apply answers_rekey|apply answers_create_user|apply answers_login|apply answers_issue_token
                 |apply answers_create_project|by apply answers_create_environment|apply answers_set_many|apply answers_put_secret].
  all: apply answers_authed; intros caller; try (apply answers_plain; [auto with quiet|blames]; fail).
  all: eapply answers_step; [called|intros ? _]; first [apply answers_ret|apply answers_text; auto using faults_value, faults_values].
Qed.

Lemma answers_route : answers (route request).
Proof.
  unfold route. destruct (refuse_elsewhere request); [apply answers_ret|]. destruct (refuse_cross_origin request); [apply answers_ret|].
  destruct (locate _) as [x|] eqn:Hx; [by apply answers_dispatch|apply answers_ret].
Qed.
End Says.

(** ** Requests in any order *)

Section Order.
Context {EnvI : Env} {CipherI : Cipher} {ShaI : Sha256} {ArgonI : Argon2} {TextI : OsText}.

(** The tasks a request becomes, whatever state each section finds. *)
Inductive arises (request : Request) : task → Prop :=
| arises_start : arises request (Start request)
| arises_next t s : arises request t → arises request (advance t s).1.

(** What a task needs to know for its lines to be discreet. *)
Definition about (request : Request) (t : task) : Prop :=
  match t with
  | Start r | Ceremony _ r => r = request
  | Guessing r email _ | Granted r email _ => r = request ∧ names_email request email
  | Answered _ => True
  end.

(** The answer a task has come to. *)
Definition answer_of (t : task) : option Response := match t with Answered answer => answer | _ => None end.

(** What a section of [request] leaves in the log, beside the task [out] it leads to. *)
Definition accounts (request : Request) (s : World * Api) (out : task * (World * Api)) : Prop :=
  about request out.1 ∧ wrote (discreet (public_of request) (answer_of out.1)) s out.2.

Lemma closing_accounts request answer s s' :
  wrote (discreet (public_of request) (Some answer)) s s' → accounts request s (closing request answer s').
Proof.
  intros Hw. assert (wrote (discreet (public_of request) (Some answer)) s' (closing request answer s').2) as Hc.
  { unfold closing, conclude. apply wrote_note. split; [listed|]. repeat (apply Forall_cons; split).
    - apply (told_method (public_of request)).
    - apply (told_path (public_of request)).
    - by apply told_status.
    - by apply Forall_nil. }
  unfold accounts. replace (closing request answer s').1 with (Answered (Some answer)) by done.
  split; [done|]. by eapply wrote_trans.
Qed.

Lemma section_accounts {A} request (m : handler A) k s P : says request m P → (∀ a, P a → about request (k a)) →
  accounts request s (section request m k s).
Proof.
  intros Hm Hk. specialize (Hm s). unfold wp, section in *. destruct (m s) as [[a|r] s']; [|by apply closing_accounts].
  destruct Hm as [Ha Hw]. split; [by apply Hk|]. eapply wrote_mono; [|exact Hw]. intros c. apply discreet_early.
Qed.

Lemma answering_accounts request (m : handler Response) s : answers request m → accounts request s (answering request m s).
Proof. intros Hm. specialize (Hm s). unfold wp, answering in *. destruct (m s) as [[r|r] s']; apply closing_accounts, Hm. Qed.

Lemma advance_accounts request t s : about request t → accounts request s (advance t s).
Proof.
  destruct t as [r|c r|r email password|r email token|answer]; cbn [about advance]; [| | | |intros _; split; [done|by apply wrote_nothing]].
  - intros ->. pose proof (answering_accounts request (route request) s (answers_route request)) as Hr.
    assert (∀ warning c, warning ∈ MESSAGES →
      accounts request s (section request (ceremony_gate warning) (λ _, Ceremony c request) s)) as Hgate
      by (intros warning c Hw; eapply section_accounts; [by apply says_gate|done]).
    destruct (gated request) as [[]|]; try exact Hr; (destruct (bool_decide _); [|exact Hr]); try (apply Hgate; listed).
    eapply section_accounts; [apply says_login_gate|]. by intros [email password] He.
  - intros ->. destruct c; apply answering_accounts; (apply answers_init_admitted || apply answers_unseal_admitted).
  - intros [-> He]. eapply section_accounts; [by apply says_login_admitted|]. by intros token _.
  - intros [-> He]. by apply answering_accounts, answers_login_done.
Qed.

Lemma arises_about request t : arises request t → about request t.
Proof. intros H. induction H as [|t s _ IH]; [done|]. by apply advance_accounts. Qed.

(** A line of one of the sections of [ts], run from [s]: it is discreet about the request
    behind the section, with the answer the section came to, if any. *)
Definition accounted (ts : list task) (s : World * Api) (c : Logger.call) : Prop :=
  ∃ before t after request, ts = before ++ t :: after ∧ arises request t
    ∧ discreet (public_of request) (answer_of (advance t (run before s)).1) c.

Lemma run_wrote ts s : Forall (λ t, ∃ request, arises request t) ts → wrote (accounted ts s) s (run ts s).
Proof.
  revert s. induction ts as [|t ts IH]; intros s H; [by apply wrote_nothing|]. apply Forall_cons in H as [[request Ht] H].
  cbn [run fold_left]. destruct (advance_accounts request t s (arises_about _ _ Ht)) as [_ Hw]. eapply wrote_trans.
  - eapply wrote_mono; [|exact Hw]. intros c Hc. by exists [], t, ts, request.
  - eapply wrote_mono; [|by apply IH]. intros c (before & t' & after & r & -> & Hr & Hc). by exists (t :: before), t', after, r.
Qed.

(** C11: the log does not give away what it was not told to. Whatever sections of whatever
    requests run in whatever order, all that standard error gains is whole lines, each made
    by a call that one of the sections accounts for: it has one of sixteen messages, and its
    fields hold nothing of the request behind the section but its method, its path, the two
    numbers of a splitting and what its body has as an email, a project, an environment, a
    label or a slug; and nothing of the answer the section came to, if any, but the status
    and whether it is 200, the progress of an unsealing and whether it is sealed, the random
    identifier of a new account, and the text of its error, which is made of constants and
    numbers, or is the system's ([plain]). Otherwise a field has what the system said about
    a directory. So no header and no token, no password, no share and no value is logged.
    The level of the log stays. *)
Theorem log_is_discreet ts s : Forall (λ t, ∃ request, arises request t) ts →
  ∃ calls lines, console (run ts s).1 = console s.1 ++ concat ((λ l, l ++ [x0a]) <$> lines)
    ∧ Forall2 Logger.line_of lines calls
    ∧ Forall (λ c, ∃ before t after request, ts = before ++ t :: after ∧ arises request t
        ∧ discreet (public_of request) (answer_of (advance t (run before s)).1) c) calls
    ∧ verbosity (run ts s).1 = verbosity s.1.
Proof.
  intros H. destruct (run_wrote ts s H) as (Hv & calls & lines & Hc & Hl & Ha). exists calls, lines. split; [exact Hc|].
  split; [done|]. split; [exact Ha|exact Hv].
Qed.
End Order.
End Discretion.

Module DiscretionDemo.
Import SectionsDemo ApiDemo Api Sections Discretion.

Definition quoted (text : string) : string := of_bytes [x22] +:+ text +:+ of_bytes [x22].
Definition newline : string := of_bytes [x0a].

(** A login while the vault is sealed: two of its sections, one after the other. *)
Definition refused : list task := [Start wrong; (advance (Start wrong) api0).1].

Lemma refused_arises : Forall (λ t, ∃ request, arises request t) refused.
Proof. repeat constructor; exists wrong; [apply arises_start|apply arises_next, arises_start]. Qed.

Lemma log_is_discreet_witness :
  (∃ calls lines, console (run refused api0).1 = console api0.1 ++ concat ((λ l, l ++ [x0a]) <$> lines)
     ∧ Forall2 Logger.line_of lines calls
     ∧ Forall (λ c, ∃ before t after request, refused = before ++ t :: after ∧ arises request t
         ∧ discreet (public_of request) (answer_of (advance t (run before api0)).1) c) calls
     ∧ verbosity (run refused api0).1 = verbosity api0.1)
  ∧ of_bytes (drop (length (console api0.1)) (console (run refused api0).1))
    = "2023-11-14T22:13:20Z WARN  login email=" +:+ quoted "DEV@example.com " +:+ " outcome=refused" +:+ newline
      +:+ "2023-11-14T22:13:20Z ERROR request failed reason=" +:+ quoted "the vault is sealed" +:+ newline
      +:+ "2023-11-14T22:13:20Z INFO  request method=POST path=/v1/auth/login status=503" +:+ newline.
Proof. split; [exact (log_is_discreet refused api0 refused_arises)|]. by vm_compute. Defined.
End DiscretionDemo.
