(* ===== verification/CliSession.v ===== *)
(** * What the command line client remembers

    The token file and the pin file between two commands, and with the server of
    [ApiClaims] at the other end: after a login, the commands that follow run as the
    account that logged in. *)

From S2P Require Import Prelude Text Encoding Timestamp JsonValue JsonParser World Token Shamir Aead Event State Log LogSpec.
From S2P Require Import Barrier Validate Password RateLimit Errors Logging Vault VaultSpec VaultSecrets VaultAccess VaultServer VaultClaims.
From S2P Require Import Http HttpRequest HttpFraming HttpAccept HttpClient HttpExchange HttpClaims Api ApiSpec ApiClaims.
From S2P Require Import Sections Dotenv CliHost Cli Commands CliClaims.
From Stdlib Require Import Strings.Byte.

Module Memory.
Import dotenv Paths CliClaims.

(** ** The pin file *)

Lemma key_ends name k : key_ok k → is_str name = true → ∀ b l, as_bytes name = b :: l → is_ascii b = true →
  is_whitespace (Z_of_byte b) = false → trim (name +:+ k) = name +:+ k.
Proof.
  intros Hk Hn b l Eb Ha Hw. destruct (key_chars k Hk) as [Hks _]. destruct (key_cons k Hk) as (b0 & l0 & E0 & _).
  destruct (as_bytes k) as [|x m _] eqn:Em using rev_ind; [done|].
  assert (validate.key_byte x = true) as Hx. { apply (key_ok_elem k); [done|]. rewrite Em. apply elem_of_app. right. by left. }
  apply key_byte_facts in Hx as (Hx1 & Hx2 & _). apply (ascii_ends _ b (l ++ m) x); try done; [by apply is_str_app|].
  by rewrite as_bytes_app, Eb, Em, <- app_assoc.
Qed.

Lemma pin_line_at pin name k :
  key_ok k → name = "project" ∨ name = "environment" →
  config.pin_line pin (name +:+ "=" +:+ k) =
  if bool_decide (name = "project") then config.mk_pin (Some k) (config.environment pin)
  else config.mk_pin (config.project pin) (Some k).
Proof.
  intros Hk Hname. assert (is_str name = true ∧ ("="%byte ∉ as_bytes name) ∧ trim name = name) as (Hn & Heq & Htn).
  { destruct Hname as [->| ->]; (split; [done|]; split; [apply (bool_decide_unpack _); by vm_compute|by vm_compute]). }
  assert (∃ b l, as_bytes name = b :: l ∧ is_ascii b = true ∧ is_whitespace (Z_of_byte b) = false ∧ b ≠ "#"%byte) as (b & l & Eb & Ha & Hw & Hh).
  { destruct Hname as [->| ->]; eexists _, _; (split; [done|]); (split; [done|]); (split; [by vm_compute|done]). }
  assert (trim (name +:+ "=" +:+ k) = name +:+ "=" +:+ k) as Ht.
  { assert (name +:+ "=" +:+ k = (name +:+ "=") +:+ k) as -> by (apply (inj as_bytes); by rewrite !as_bytes_app, app_assoc).
    apply (key_ends _ k Hk) with (b := b) (l := l ++ as_bytes "="); [by apply is_str_app| |done|done].
    by rewrite as_bytes_app, Eb. }
  unfold config.pin_line. rewrite Ht. set (line := name +:+ "=" +:+ k) in *.
  assert (as_bytes line = as_bytes name ++ "="%byte :: as_bytes k) as El by (unfold line; by rewrite !as_bytes_app).
  rewrite bool_decide_eq_false_2.
  2: { intros E%as_bytes_nil. rewrite El, Eb in E. done. }
  assert (starts_with "#" line = false) as ->.
  { unfold starts_with, strip_prefix. rewrite El, Eb. cbn. by rewrite decide_False by congruence. }
  cbn [orb]. unfold split_once. rewrite (proj2 (split_once_bytes_some _ _ _ _) (conj El Heq)), !of_bytes_as_bytes, Htn, (key_trim k Hk).
  destruct Hname as [->| ->]; done.
Qed.

Lemma parse_pin_text project environment :
  key_ok project → key_ok environment →
  config.parse_pin (config.pin_text project environment) = config.mk_pin (Some project) (Some environment).
Proof.
  intros Hp He. unfold config.parse_pin.
  assert (∀ k b, key_ok k → b ∈ as_bytes k → b ≠ x0a ∧ b ≠ x0d) as Hkey.
  { intros k b Hk Hb. apply (key_ok_elem _ _ Hk) in Hb. by destruct b. }
  set (l1 := as_bytes ("project=" +:+ project)). set (l2 := as_bytes ("environment=" +:+ environment)).
  assert (∀ name k, key_ok k → x0a ∉ as_bytes name → (x0a ∉ as_bytes (name +:+ k)) ∧ last (as_bytes (name +:+ k)) ≠ Some x0d) as Hline.
  { intros name k Hk Hn. rewrite as_bytes_app. split.
    - rewrite elem_of_app. intros [H|H]; [done|]. by apply (Hkey k) in H as [? _].
    - destruct (key_cons k Hk) as (b0 & l0 & E0 & _). destruct (as_bytes k) as [|x m _] eqn:Em using rev_ind; [done|].
      rewrite app_assoc, last_snoc. intros [= ->]. destruct (Hkey k x0d Hk); [|done]. rewrite Em. apply elem_of_app. right. by left. }
  destruct (Hline "project=" project Hp) as [H1 H1']; [apply (bool_decide_unpack _); by vm_compute|].
  destruct (Hline "environment=" environment He) as [H2 H2']; [apply (bool_decide_unpack _); by vm_compute|].
  assert (lines (config.pin_text project environment) = ["project=" +:+ project; "environment=" +:+ environment]) as ->.
  { unfold lines. assert (as_bytes (config.pin_text project environment) = concat ((λ l, l ++ [x0a]) <$> [l1; l2])) as ->.
    { unfold config.pin_text, l1, l2. cbn [fmap list_fmap concat]. rewrite !as_bytes_app, app_nil_r, <- !app_assoc. done. }
    rewrite split_at_byte_lines by by repeat constructor. rewrite lines_of_lines by by repeat constructor.
    cbn [fmap list_fmap]. unfold l1, l2. by rewrite !of_bytes_as_bytes. }
  cbn [fold_left]. rewrite (pin_line_at _ "project" project Hp) by by left. rewrite (pin_line_at _ "environment" environment He) by by right. done.
Qed.

Section Files.
Context {MachineI : Machine}.

(** The next operation on a file is not refused; the last one was not. *)
Definition granted_file (h : Host) : Prop := file_fault (operations h) = None.
Definition last_granted (h : Host) : Prop := file_fault (pred (operations h)) = None.

Lemma read_file path text h :
  granted_file h → files h !! path = Some (as_bytes text) → is_str text = true → read_to_string path h = (Ok text, operated h).
Proof.
  intros Hg Hf Hs. unfold read_to_string, operation, bind, gets. rewrite Hg. cbn [files operated]. rewrite Hf.
  by rewrite from_utf8_as_bytes.
Qed.

Lemma read_missing path h : granted_file h → files h !! path = None → read_to_string path h = (Err Missing, operated h).
Proof. intros Hg Hf. unfold read_to_string, operation, bind, gets. rewrite Hg. cbn [files operated]. by rewrite Hf. Qed.

(** What the file operations leave alone. *)
Definition elsewhere (h h1 : Host) : Prop := vars h1 = vars h ∧ peer h1 = peer h ∧ stdout h1 = stdout h.

Lemma operation_ok h u h1 : operation h = (Ok u, h1) → h1 = operated h.
Proof. unfold operation. destruct (file_fault _) as [[]|]; [done|]. by intros [= _ <-]. Qed.

Lemma open_truncate_ok path mode h u h1 :
  open_truncate path mode h = (Ok u, h1) →
  elsewhere h h1 ∧ files h1 = <[path := []]> (files h) ∧ (∀ m, files h !! path = None → mode = Some m → modes h1 !! path = Some m).
Proof.
  unfold open_truncate. intros (v & h0 & ->%operation_ok & H)%bind_ok. unfold modify in H. injection H as _ <-.
  cbn [files operated]. destruct (files h !! path) eqn:Ef; [by split_and!|]. destruct mode as [m|]; [|by split_and!].
  split; [done|]. split; [done|]. intros m' _ [= <-]. apply lookup_insert_eq.
Qed.

Lemma write_all_ok path bytes h u h1 :
  write_all path bytes h = (Ok u, h1) → elsewhere h h1 ∧ files h1 = <[path := bytes]> (files h) ∧ modes h1 = modes h.
Proof. unfold write_all. destruct (file_fault _) as [[]|]; [done|]. by intros [= _ <-]. Qed.

Lemma restrict_ok path mode h u h1 :
  restrict path mode h = (Ok u, h1) →
  elsewhere h h1 ∧ files h1 = files h ∧ operations h1 = S (operations h)
  ∧ modes h1 = (if file_fault (operations h) is None then <[path := mode]> (modes h) else modes h).
Proof. unfold restrict. destruct (file_fault _) as [[]|]; by intros [= _ <-]. Qed.

(** A run of [write_private] that succeeds: the contents, and who may read them. *)
Lemma write_private_ok path contents h u h1 :
  config.write_private path contents h = (Ok u, h1) →
  elsewhere h h1 ∧ files h1 = <[path := as_bytes contents]> (files h)
  ∧ (files h !! path = None ∨ last_granted h1 → modes h1 !! path = Some 0x180).
Proof.
  intros (v & h2 & (He2 & Hf2 & Hm2)%open_truncate_ok & (v' & h3 & (He3 & Hf3 & Hm3)%write_all_ok & (He4 & Hf4 & Ho4 & Hm4)%restrict_ok)%bind_ok)%bind_ok.
  unfold elsewhere, last_granted in *. destruct_and?. split; [split_and!; congruence|]. split.
  - by rewrite Hf4, Hf3, Hf2, insert_insert_eq.
  - rewrite Ho4, Hm4. cbn [pred]. destruct (file_fault (operations h3)); [|by rewrite lookup_insert_eq].
    intros [Hnone|?]; [|done]. by rewrite Hm3, (Hm2 _ Hnone eq_refl).
Qed.

Lemma store_token_ok t h u h1 :
  config.store_token t h = (Ok u, h1) →
  elsewhere h h1 ∧ files h1 = <[config.token_path (vars h) := as_bytes t]> (files h)
  ∧ (files h !! config.token_path (vars h) = None ∨ last_granted h1 → modes h1 !! config.token_path (vars h) = Some 0x180).
Proof.
  intros (d & h2 & [= <- <-] & (v & h3 & ->%operation_ok & (v' & h4 & (He & Hf & _)%restrict_ok & (q & h5 & [= <- <-] & H)%bind_ok)%bind_ok)%bind_ok)%bind_ok.
  apply write_private_ok in H as (He5 & Hf5 & Hm5). unfold elsewhere in *. cbn [vars peer stdout files operated] in *. destruct_and?.
  assert (vars h4 = vars h) as Ev by done. rewrite Ev in *. rewrite Hf in *. split; [split_and!; congruence|]. by split.
Qed.

(** Reading back what was stored. *)
Lemma cached_token_reads t h :
  granted_file h → files h !! config.token_path (vars h) = Some (as_bytes t) → is_str t = true → trim t = t → t ≠ "" →
  config.cached_token h = (Ok (Some t), operated h).
Proof.
  intros Hg Hf Hs Ht Hne. unfold config.cached_token, file. unfold bind at 1, gets. unfold bind, attempt.
  rewrite (read_file _ t) by done. unfold ret. by rewrite Ht, bool_decide_eq_false_2.
Qed.

Lemma read_pin_reads project environment h :
  key_ok project → key_ok environment → granted_file h →
  files h !! config.PIN_FILE = Some (as_bytes (config.pin_text project environment)) →
  config.read_pin h = (Ok (config.mk_pin (Some project) (Some environment)), operated h).
Proof.
  intros Hp He Hg Hf. destruct (key_chars _ Hp) as [Hps _]. destruct (key_chars _ He) as [Hes _].
  unfold config.read_pin, file, bind, attempt. rewrite (read_file _ (config.pin_text project environment)); [|done|done|].
  - unfold ret. by rewrite parse_pin_text.
  - unfold config.pin_text. repeat apply is_str_app; done.
Qed.
End Files.

(** ** Tokens *)

Section Tokens.
Context {EnvI : Env} {CipherI : Cipher} {ShaI : Sha256} {ArgonI : Argon2}.

(** A string a login may return. *)
Definition minted (t : string) : Prop := ∃ bs, length bs = TOKEN_BYTES ∧ t = TOKEN_PREFIX +:+ b64.encode bs.

Lemma login_minted email pw ttl : Returns.gives (Vault.login email pw ttl) minted.
Proof.
  unfold Vault.login. repeat (apply Returns.gives_then; intros ?). case_match; [|apply Returns.gives_fail].
  case_match; [apply Returns.gives_fail|]. unfold Vault.issue_token.
  apply (Returns.gives_bind _ _ (λ issued, minted (token.secret issued))).
  - apply Returns.gives_zoom, Returns.gives_map_perr. intros w issued w' Hgen.
    apply token.generate_ok in Hgen as (bs & Hl & Hs & _). by exists bs.
  - intros issued Hm. repeat (apply Returns.gives_then; intros ?). by apply Returns.gives_ret.
Qed.
End Tokens.

Lemma minted_key t : minted t → key_ok t.
Proof.
  intros (bs & _ & ->). split; [done|]. rewrite as_bytes_app, forallb_app. apply andb_true_intro. split; [by vm_compute|].
  apply forallb_forall. intros b Hb. pose proof (b64.encode_alphabet bs) as H. rewrite Forall_forall in H. apply list_elem_of_In, H in Hb.
  assert (Forall (λ c, validate.key_byte c = true) b64.ALPHABET) as Hf by (apply (bool_decide_unpack _); by vm_compute).
  rewrite Forall_forall in Hf. by apply Hf.
Qed.

Lemma encode_length_bound bs : (length (as_bytes (b64.encode bs)) ≤ 2 * length bs)%nat.
Proof.
  unfold b64.encode. rewrite as_bytes_of_bytes. revert bs. apply (chunks_ind 3); [lia|done|intros bs Hne Hl|intros bs r Hl IH].
  - rewrite (chunks_short 3) by (done || lia). cbn [fmap list_fmap concat]. rewrite app_nil_r, b64.encode_chunk_length. destruct bs; [done|]. cbn. lia.
  - rewrite chunks_app by (done || lia). cbn [fmap list_fmap concat]. rewrite !length_app, b64.encode_chunk_length. lia.
Qed.

Lemma minted_length t : minted t → (length (as_bytes t) ≤ 72)%nat.
Proof.
  intros (bs & Hl & ->). rewrite as_bytes_app, length_app. pose proof (encode_length_bound bs) as H. rewrite Hl in H. unfold TOKEN_BYTES in H.
  cbn [length as_bytes String.list_byte_of_string TOKEN_PREFIX]. change (length (as_bytes TOKEN_PREFIX)) with 5%nat. lia.
Qed.
End Memory.

Module CliSession.
Import VaultSpec VaultSecrets VaultAccess Server ApiSpec ApiClaims Framing Exchange Paths CliClaims Memory.

(** ** What a command leaves alone until it calls *)

Section Quiet.
Context {MachineI : Machine}.

Definition quiet (h h' : Host) : Prop :=
  vars h' = vars h ∧ files h' = files h ∧ modes h' = modes h ∧ peer h' = peer h ∧ stdout h' = stdout h.

Lemma quiet_trans h1 h2 h3 : quiet h1 h2 → quiet h2 h3 → quiet h1 h3.
Proof. unfold quiet. intros ? ?. destruct_and?. split_and!; congruence. Qed.

Lemma line_quiet prompt h : quiet h (input.line prompt h).2.
Proof.
  unfold input.line. unfold bind at 1. destruct is_a_terminal; unfold eprint, modify, ret, bind, gets, lift;
    cbn [stdin]; destruct (ok_or _ _); done.
Qed.

Lemma secret_line_quiet prompt h : quiet h (input.secret_line prompt h).2.
Proof.
  unfold input.secret_line. destruct (negb is_a_terminal); [apply line_quiet|].
  assert (∀ s h, quiet h (eprint s h).2) as Hp by done. unfold bind, attempt, lift.
  destruct (eprint prompt h) as [[u|e] h1] eqn:E1; pose proof (Hp prompt h) as Q1; rewrite E1 in Q1; [|done]. cbn [snd] in Q1.
  destruct (stty ["-echo"]).
  - cbn [ret]. unfold ret. pose proof (line_quiet "" h1) as Q2. destruct (input.line "" h1) as [v h2]. cbn [snd] in Q2.
    unfold eprintln. destruct (eprint _ h2) as [r h3] eqn:E3. pose proof (Hp (EmptyString +:+ of_bytes [x0a]) h2) as Q3. rewrite E3 in Q3.
    assert (quiet h h3) by (eapply quiet_trans; [exact Q1|]; eapply quiet_trans; [exact Q2|exact Q3]). by destruct r.
  - unfold eprintln. match goal with |- context [eprint ?s h1] => pose proof (Hp s h1) as Q2; destruct (eprint s h1) as [[u'|e] h2] end; cbn [snd] in Q2.
    + pose proof (line_quiet "" h2) as Q3. destruct (input.line "" h2) as [v h3]. cbn [snd] in Q3. unfold ret. cbn [snd].
      eapply quiet_trans; [exact Q1|]. by eapply quiet_trans.
    + by eapply quiet_trans.
Qed.

Lemma cached_token_quiet h : quiet h (config.cached_token h).2.
Proof.
  unfold config.cached_token, file, bind, gets, attempt, read_to_string, operation, bind. destruct (file_fault _) as [[]|]; [done|].
  unfold gets. destruct (files _ !! _); [|done]. by destruct (ok_or _ _).
Qed.

Lemma common_token_quiet common h : quiet h (common_token common h).2.
Proof.
  unfold common_token. destruct (token common); [done|]. unfold bind at 1, var, gets. destruct (_ ≫= _) as [t|]; [|apply cached_token_quiet].
  case_bool_decide; [apply cached_token_quiet|done].
Qed.
End Quiet.

(** ** The server's side *)

Section Login.
Context {EnvI : Env} {CipherI : Cipher} {LawsI : CipherLaws} {ShaI : Sha256}.
Context {ArgonI : Argon2} {ArgonLawsI : password.Argon2Laws} {TextI : OsText} {DebugI : DebugText} {WatchI : Stopwatch}.
Context {LinkI : Link}.

Definition token_answer (t : string) : Response := Response.json 200 (Value.to_string (Object [("token", Str t)])).

(** The string [t] is a session of an account of [email] whose password is [pw], which
    ends with the lifetime counted from [now]. *)
Definition opened (email pw t : string) (v v' : Vault.t) (u : User.t) (id : string) (now : Timestamp.t) : Prop :=
  VaultAccess.account v email = Some u ∧ password.verify pw (User.password_hash u) = true
  ∧ (State.token_by_hash (Vault.state v) (token.as_bytes (token.hash t)) = None →
     ∀ w, (Vault.authenticate t (w, v')).1
          = Ok (if Timestamp.seconds (reading w) <? Timestamp.seconds (Timestamp.plus_seconds now Api.SESSION_SECONDS)
                then Some (Caller.mk id Session (Some (User.id u)) None None) else None)).

Variables (p : string).
Hypothesis (Hext : Log.with_extension p "compacting" ≠ p).

Lemma wp_login_handler master evs request email pw s :
  live p master evs (s.1, Api.vault s.2) → Api.poisoned s.2 = false →
  (let? body := Api.body_of request in Api.credentials body) = Ok (email, pw) →
  wp (Api.login request)
    (λ r s', ∃ t u id now, r = token_answer t ∧ minted t ∧ opened email pw t (Api.vault s.2) (Api.vault s'.2) u id now)
    (λ r _, 400 <= HttpClient.status r) s.
Proof.
  destruct s as [w self]. cbn [fst snd]. intros Hl Hpo Hb. unfold Api.login. apply wp_bind.
  unfold wp at 1. rewrite Sections.login_gate_eq, Hb. cbn [fst snd].
  destruct (RateLimiter.allow_at _ _ _) as [[] l]; [|done].
  match goal with |- wp ?m ?P ?Q ?s0 => set (s1 := s0) end.
  assert (live p master evs (s1.1, Api.vault s1.2)) as Hl1 by (eapply live_disk; [|exact Hl]; done).
  assert (Api.poisoned s1.2 = false) as Hpo1 by done. assert (Api.vault s1.2 = Api.vault self) as Ev by done. clearbody s1. clear Hpo.
  destruct s1 as [w1 self1]. cbn [fst snd] in *. unfold Api.login_admitted. apply wp_bind, wp_lock. intros w2 Hd. unfold relocked. rewrite Hpo1.
  apply (live_disk p _ _ _ w2) in Hl1; [|done]. clear Hd. apply wp_vault_call_or.
  pose proof (login_minted email pw Api.SESSION_SECONDS (w2, Api.vault self1)) as Hm.
  pose proof (wp_login p master evs email pw Api.SESSION_SECONDS (w2, Api.vault self1) Hl1) as Hw. unfold wp at 1 in Hw. unfold wp at 1.
  destruct (Vault.login email pw Api.SESSION_SECONDS (w2, Api.vault self1)) as [[t|e] [w3 v3]].
  2: { apply wp_note. intros w4 _. apply wp_vault_error. intros w5 _. by destruct e. }
  specialize (Hm t _ eq_refl). destruct Hw as (_ & Hne & u & id & now & at_ & Hu & Hv & Hl2 & Hst & Hr). cbn [fst snd] in *.
  unfold Api.login_done. apply wp_bind, wp_modify, wp_note. intros w4 _. apply wp_ret.
  exists t, u, id, now. split; [done|]. split; [done|]. rewrite <- Ev. split; [done|]. split; [done|].
  intros Hfresh w'. cbn [Api.vault Api.set_logins Api.set_vault snd]. destruct (authenticate_who t w' v3) as (w5 & -> & _). cbn [fst]. f_equal.
  eapply (login_who (Api.vault self1)); [|done|done|exact Hst]. destruct Hl1 as (root & b & extra & Hroot & _). cbn [snd] in Hroot. by rewrite Hr, Hroot.
Qed.

(** A login that is not refused opens a session. *)
Lemma login_opens master evs request email pw s :
  live p master evs (s.1, Api.vault s.2) → Api.poisoned s.2 = false →
  (let? body := Api.body_of request in Api.credentials body) = Ok (email, pw) →
  method request = "POST" → Api.locate (Api.segments (path request)) = Some Api.Login →
  HttpClient.status (Api.respond request s).1 < 400 →
  ∃ t u id now, (Api.respond request s).1 = token_answer t ∧ minted t
    ∧ opened email pw t (Api.vault s.2) (Api.vault (Api.respond request s).2.2) u id now.
Proof.
  intros Hl Hpo Hb Hm Hloc. pose proof (wp_login_handler master evs request email pw s Hl Hpo Hb) as Hw.
  apply (respond_cases request s (λ r s', HttpClient.status r < 400 → ∃ t u id now, r = token_answer t ∧ minted t
    ∧ opened email pw t (Api.vault s.2) (Api.vault s'.2) u id now)).
  destruct (gates request) as [->|[[_ ->]| ->]]; [by apply wp_ret..|]. rewrite Hloc. cbn [Api.dispatch]. unfold Api.only.
  rewrite Hm, bool_decide_eq_true_2 by done. eapply wp_mono; [exact Hw|..]; cbv beta; [by intros|]. intros r s' Hr w' _ Hst. lia.
Qed.

(** ** Both sides *)

Hypothesis (Hpieces : ∀ bytes, concat (piece <$> pieces bytes) = bytes ∧ Forall (λ a, ∃ b, a = Bytes b ∧ b ≠ []) (pieces bytes)).
Hypothesis (Hprompt : prompt Limits_default).

Definition login_body (email pw : string) : Value := Object [("email", Str email); ("password", Str pw)].
Definition login_path : string := "/v1/auth/login".
Definition proper_login (address : string) (tok : option string) (email pw : string) : Prop :=
  proper Limits_default address "POST" login_path (api.headers "POST" tok) (as_bytes (Value.to_string (login_body email pw))).

Lemma plain_login_body email pw : is_str email = true → is_str pw = true → plain 8 (login_body email pw).
Proof. intros He Hp. unfold login_body. plain_fields. Qed.

Lemma concat_length_bound {A} (l : list (list A)) n : Forall (λ x, (length x ≤ n)%nat) l → (length (concat l) ≤ n * length l)%nat.
Proof. induction 1 as [|x l Hx _ IH]; cbn; [lia|]. rewrite length_app. lia. Qed.

Lemma token_answer_size t : minted t → Z.of_nat (length (response_body (token_answer t))) <= max_body Limits_default.
Proof.
  intros Hm. pose proof (minted_length t Hm) as Hl. apply minted_key in Hm. destruct (dotenv.key_chars t Hm) as [_ Hc].
  assert (length (concat (Value.write_char <$> chars t)) ≤ 6 * length (as_bytes t))%nat as Hw.
  { rewrite Hc, <- list_fmap_compose. etransitivity; [apply (concat_length_bound _ 6)|by rewrite length_fmap].
    apply Forall_fmap, Forall_forall. intros x _. unfold compose. by destruct x; apply Nat.leb_le. }
  assert (length (response_body (token_answer t)) ≤ 600)%nat as Hb; [|etransitivity; [apply Nat2Z.inj_le, Hb|]; by vm_compute].
  assert (response_body (token_answer t) = Value.render (Object [("token", Str t)])) as -> by exact (as_bytes_of_bytes _).
  cbn [Value.render map fst snd Value.comma_separated]. cbn [fmap list_fmap concat]. rewrite app_nil_r.
  assert (length (Value.write_string "token") = 7%nat) as Ht by by vm_compute.
  cbn [length]. rewrite !length_app. cbn [length]. rewrite Ht. unfold Value.write_string at 1. cbn [length]. rewrite length_app. cbn [length]. lia.
Qed.

Lemma address_quiet h h' address : quiet h h' → reaches h address → reaches h' address.
Proof. intros (Hv & _) H. unfold reaches in *. by rewrite Hv. Qed.

(** The calls that [login] makes on the way to its own. *)
Lemma login_connects common h tok h0 address :
  common_token common h = (Ok tok, h0) → reaches h address → common_connect common h = (Ok (api.mk_api address tok), h0).
Proof.
  intros Ht [rest Hr]. unfold common_connect, config.server_address, var, bind, gets, ret. rewrite Ht. unfold api.connect, bind, lift.
  by rewrite Hr.
Qed.

(** The server's answer to the call, as the command reads it. *)
Lemma login_answered master evs address tok email pw v h h1 :
  live p master evs ((peer h).1, Api.vault (peer h).2) → Api.poisoned (peer h).2 = false →
  is_str email = true → is_str pw = true → proper_login address tok email pw →
  api.call (api.mk_api address tok) "POST" login_path (Some (login_body email pw)) h = (Ok v, h1) →
  ∃ t u id now s', h1 = set_peer s' h ∧ v = Object [("token", Str t)] ∧ minted t
    ∧ opened email pw t (Api.vault (peer h).2) (Api.vault s'.2) u id now.
Proof.
  intros Hl Hpo He Hp Hproper Hcall.
  assert (api_ok p (peer h)) as Hok by (unfold api_ok; rewrite Hpo; right; right; eauto).
  pose proof (call_served Hpieces Hprompt p Hext (api.mk_api address tok) "POST" login_path (Some (login_body email pw)) v h h1 login_path []
    Hproper eq_refl eq_refl Hok Hcall) as Hs.
  cbn [api.address api.bearer_token] in Hs. set (request := arrived _ _ _ _ _ _ _) in Hs.
  assert (Api.body_of request = Ok (login_body email pw)) as Hb by (apply arrived_object; by apply plain_login_body).
  assert ((let? body := Api.body_of request in Api.credentials body) = Ok (email, pw)) as Hc by (by rewrite Hb).
  pose proof (login_opens master evs request email pw (peer h) Hl Hpo Hc eq_refl eq_refl) as Ho.
  destruct (Api.respond request (peer h)) as [answer s'] eqn:E. destruct Hs as (-> & Hstat & Hint). cbn [fst snd] in Ho.
  destruct Ho as (t & u & id & now & -> & Hm & Hopen); [lia|]. specialize (Hint (token_answer_size t Hm)).
  destruct (dotenv.key_chars t (minted_key t Hm)) as [Hts _].
  unfold token_answer in Hint. rewrite interpret_object in Hint by (plain_fields || lia). injection Hint as <-.
  exists t, u, id, now, s'. done.
Qed.

(** C6: after a login, the client is logged in. When [lsec login EMAIL] succeeds against a
    live server, the password typed was that of an account of EMAIL; the file it leaves
    holds a string that the server's vault knows as a session of that account until its
    lifetime ends (unless the string drawn at random was one already on record); the file's
    mode is 0600, whether it was new or was there with another, unless it was there and the
    last thing asked of the file system, the change of its mode, was refused; and every
    later command without options that finds the file sends that string. The hypotheses are
    those of any exchange: a proper request, delivered by the network in time. *)
Theorem login_then_session master evs common email h pw h0 tok h0' address code h1 :
  live p master evs ((peer h).1, Api.vault (peer h).2) → Api.poisoned (peer h).2 = false →
  is_str email = true → is_str pw = true →
  input.secret_line "password: " h = (Ok pw, h0) → common_token common h0 = (Ok tok, h0') →
  reaches h address → proper_login address tok email pw →
  Commands.login common [email] h = (Ok code, h1) →
  ∃ t u id now,
    opened email pw t (Api.vault (peer h).2) (Api.vault (peer h1).2) u id now
    ∧ stdout h1 = stdout h ++ as_bytes (text_of ["logged in as "; email]) ++ [x0a]
    ∧ (files h !! config.token_path (vars h) = None ∨ last_granted h1 → modes h1 !! config.token_path (vars h) = Some 0x180)
    ∧ ∀ h2 address', vars h2 = vars h1 → vars h2 !! "LS_TOKEN" = None →
        files h2 !! config.token_path (vars h2) = files h1 !! config.token_path (vars h1) → granted_file h2 → reaches h2 address' →
        connect_authenticated Common.none h2 = (Ok (api.mk_api address' (Some t)), operated h2).
Proof.
  intros Hl Hpo He Hp Hin Htok Hreach Hproper. pose proof (secret_line_quiet "password: " h) as Q1. rewrite Hin in Q1.
  pose proof (common_token_quiet common h0) as Q2. rewrite Htok in Q2. cbn [snd] in Q1, Q2. pose proof (quiet_trans _ _ _ Q1 Q2) as Q.
  unfold Commands.login. unfold bind at 1, ret. unfold bind at 1. rewrite Hin. unfold bind at 1.
  rewrite (login_connects common h0 tok h0' address Htok (address_quiet _ _ _ Q1 Hreach)).
  intros (v & h2 & Hcall & (t & h3 & [= Hfield <-] & (u0 & h4 & Hstore & (u1 & h5 & [= <- <-] & [= _ <-])%bind_ok)%bind_ok)%bind_ok)%bind_ok.
  destruct Q as (Qv & Qf & Qm & Qp & Qo). rewrite <- Qp in Hl, Hpo |- *.
  destruct (login_answered master evs address tok email pw v h0' h2 Hl Hpo He Hp Hproper Hcall) as (t' & u & id & now & s' & -> & -> & Hm & Hopen).
  assert (t' = t) as -> by (by injection Hfield). exists t, u, id, now.
  unfold map_perr in Hstore. destruct (config.store_token t (set_peer s' h0')) as [[x|e] h6] eqn:Es; [|done]. injection Hstore as _ ->.
  apply store_token_ok in Es as ((Ev & Ep & Hso) & Ef & Emode). cbn [vars files modes peer stdout set_peer] in *.
  split; [by rewrite Ep|]. split; [cbn [stdout]; by rewrite Hso, Qo|]. split; [cbn [modes]; by rewrite <- Qv, <- Qf|].
  intros h7 address' Hv7 Hvar Hf7 Hg Hr. cbn [vars files] in *. apply minted_key in Hm as Hk. destruct (dotenv.key_chars t Hk) as [Hts _].
  assert (files h7 !! config.token_path (vars h7) = Some (as_bytes t)) as Hfile by (by rewrite Hf7, Ef, Ev, lookup_insert_eq).
  unfold connect_authenticated. unfold bind at 1. rewrite (login_connects Common.none h7 (Some t) (operated h7) address'); [done| |done].
  unfold common_token. cbn [token Common.none]. unfold bind at 1, var, gets. rewrite Hvar. cbn [mbind option_bind].
  apply cached_token_reads; [done|done|done|by apply dotenv.key_trim|by destruct Hk].
Qed.
End Login.
End CliSession.

Module SessionDemo.
Export CliDemo.
Import VaultSpec ApiSpec ApiClaims Framing Exchange Paths CliClaims Memory CliSession.

(** The password is piped in, and what is cached is an empty file that all may read. *)
Definition stale_path : string := config.token_path ∅.
Definition before_login : Host := mk_host ∅ {[stale_path := []]} {[stale_path := 0x1A4]} 0 (as_bytes "correct horse" ++ [x0a]) [] [] api1.
Definition prompted : Host := (input.secret_line "password: " before_login).2.
Definition looked_up : Host := (common_token Common.none prompted).2.
Definition logged_in : Host := (Commands.login Common.none ["dev@example.com"] before_login).2.

Lemma proper_login0 : proper_login "127.0.0.1:8787" None "dev@example.com" "correct horse".
Proof. unfold proper_login. proper_request. Qed.

Lemma login_then_session_witness :
  (Commands.login Common.none ["dev@example.com"] before_login).1 = Ok SUCCESS
  ∧ ∃ t u id now,
      opened "dev@example.com" "correct horse" t (Api.vault api1.2) (Api.vault (peer logged_in).2) u id now
      ∧ stdout logged_in = as_bytes "logged in as dev@example.com" ++ [x0a]
      ∧ modes before_login !! config.token_path ∅ = Some 0x1A4 ∧ modes logged_in !! config.token_path ∅ = Some 0x180.
Proof.
  assert ((Commands.login Common.none ["dev@example.com"] before_login).1 = Ok SUCCESS) as Hrun by by vm_compute.
  split; [exact Hrun|]. apply run_split in Hrun. fold logged_in in Hrun.
  assert ((input.secret_line "password: " before_login).1 = Ok "correct horse") as Htyped by by vm_compute.
  apply run_split in Htyped. fold prompted in Htyped.
  assert ((common_token Common.none prompted).1 = Ok None) as Hnone by by vm_compute.
  apply run_split in Hnone. fold looked_up in Hnone.
  assert (Api.poisoned (peer before_login).2 = false) as Hpo by by vm_compute.
  assert (is_str "dev@example.com" = true) as He by by vm_compute.
  assert (is_str "correct horse" = true) as Hp by by vm_compute.
  assert (reaches before_login "127.0.0.1:8787") as Hr by (by exists []).
  assert (peer before_login = api1) as Hpeer by done.
  destruct live1 as (master & evs & Hl).
  assert (live path0 master evs ((peer before_login).1, Api.vault (peer before_login).2)) as Hl'
    by (rewrite Hpeer; change (live path0 master evs (vault1.1, vault1.2)); by rewrite <- surjective_pairing).
  destruct (login_then_session path0 path0_apart pieces0 ExchangeDemo.prompt0 master evs Common.none "dev@example.com" before_login
    "correct horse" prompted None looked_up "127.0.0.1:8787" SUCCESS logged_in Hl' Hpo He Hp Htyped Hnone Hr proper_login0 Hrun)
    as (t & u & id & now & Hopened & Hout & Hmode & _).
  exists t, u, id, now. split; [exact Hopened|]. split; [exact Hout|]. split; [by vm_compute|].
  apply Hmode. right. by vm_compute.
Defined.

(** The body that [import] makes of a file in which a key is assigned twice is one that
    the parser refuses. *)
Lemma repeated_key_is_not_sent :
  let parsed := dotenv.parse_dotenv (of_bytes (as_bytes "A=1" ++ [x0a] ++ as_bytes "A=2" ++ [x0a])) in
  parsed = [("A", "1"); ("A", "2")]
  ∧ JsonParser.parse (Value.to_string (Object [("secrets", Object ((λ '(k, v), (k, Str v)) <$> parsed))])) = Err (DuplicateKey "A").
Proof. vm_compute. done. Qed.
End SessionDemo.
