(* ===== verification/Pool.v ===== *)
(** * The threads of the server

    Models the accepting thread, the bounded queue and the worker threads of
    [crates/ls-http/src/server.rs], with the sections of a request as the steps a worker
    takes, so that the steps of all threads interleave in any order. [next] is the effect
    of one step, if it can be taken; [step] adds the panics, whose effect on memory is
    open. The lists [taken], [refused] and [finished] record what has happened. *)

From S2P Require Import Prelude Text Timestamp World Token Aead Shamir Event State Log LogSpec Password RateLimit Errors Vault VaultSpec VaultServer.
From S2P Require Import Http HttpRequest HttpClient HttpClaims Api ApiSpec ApiClaims Sections.
From Stdlib Require Import Strings.Byte.

Definition QUEUE_DEPTH : nat := 128.

(** A worker waits for the receiver's lock, or holds it and waits for a connection, or
    serves one, with what is left to do for its request; or its thread has ended. *)
Inductive Worker := Waiting | Receiving | Serving (c : Conn) (t : Sections.task) | Ended.

(** The connections that arrived at the listener, or its errors; whether the accepting
    thread lives, and with it the sending end of the queue; the flag of [shutdown]; the
    queue; the workers; the state their handlers share. Then what has happened: the
    connections put in the queue, those turned away, those taken, those done with what was
    written to them. *)
Record Pool := mk_pool {
  backlog : list (option Conn);
  listening : bool;
  running : bool;
  queue : list Conn;
  workers : list Worker;
  shared : World * Api.Api;
  accepted : list Conn;
  refused : list Conn;
  taken : list Conn;
  finished : list (Conn * option (list byte));
}.

Definition receiving (w : Worker) : bool := match w with Receiving => true | _ => false end.
Definition ended (w : Worker) : bool := match w with Ended => true | _ => false end.

(** A step of the outside world, of the accepting thread, of the worker [i], of the caller
    of [shutdown]. *)
Inductive event :=
| Arrive (incoming : option Conn)
| Accept
| Lock (i : nat)
| Take (i : nat)
| Close (i : nat)
| Work (i : nat)
| Finish (i : nat)
| Stop.

(** The steps of the server's own threads. *)
Definition own (e : event) : bool := match e with Arrive _ | Stop => false | _ => true end.

Definition set_worker (i : nat) (w : Worker) (p : Pool) : Pool :=
  mk_pool (backlog p) (listening p) (running p) (queue p) (<[i := w]> (workers p)) (shared p)
    (accepted p) (refused p) (taken p) (finished p).

(** [Server::spawn]: at least one worker. *)
Definition spawn (n : nat) (s : World * Api.Api) : Pool :=
  mk_pool [] true true [] (replicate (Nat.max n 1) Waiting) s [] [] [] [].

(** [ServerHandle::shutdown]: the flag, then a connection to itself, if the address is known
    and takes one, to wake the accepting thread; then waiting for the threads. *)
Definition shutdown (wake : option Conn) : list event :=
  Stop :: match wake with Some c => [Arrive (Some c)] | None => [] end.

Section Pool.
Context {EnvI : Env} {CipherI : Cipher} {ShaI : Sha256} {ArgonI : Argon2} {TextI : OsText} {WatchI : Stopwatch}.
Variable (limits : Limits).

(** What a worker begins with: the request, or that there is none to be served. *)
Definition begin_ (c : Conn) : Sections.task :=
  match (Request.read limits c).1 with
  | Ok request => Sections.Start request
  | Err _ => Sections.Answered None
  end.

(** What is written to a connection whose handler came to [answer]. *)
Definition written (c : Conn) (answer : option Response) : option (list byte) :=
  (Server_.serve_connection limits (λ _, answer) c).1.

(** The body of the accepting loop. Its end closes the listener and the queue. *)
Definition accept (p : Pool) : option Pool :=
  if negb (listening p) then None else
  match backlog p with
  | [] => None
  | incoming :: rest =>
    if negb (running p) then
      Some (mk_pool [] false (running p) (queue p) (workers p) (shared p) (accepted p) (refused p) (taken p) (finished p))
    else match incoming with
    | None =>
      Some (mk_pool rest true (running p) (queue p) (workers p) (shared p) (accepted p) (refused p) (taken p) (finished p))
    | Some c =>
      if (length (queue p) <? QUEUE_DEPTH)%nat && negb (forallb ended (workers p)) then
        Some (mk_pool rest true (running p) (queue p ++ [c]) (workers p) (shared p) (accepted p ++ [c]) (refused p) (taken p) (finished p))
      else
        Some (mk_pool rest true (running p) (queue p) (workers p) (shared p) (accepted p) (refused p ++ [c]) (taken p) (finished p))
    end
  end.

Definition next (e : event) (p : Pool) : option Pool :=
  match e with
  | Arrive incoming =>
    if listening p then
      Some (mk_pool (backlog p ++ [incoming]) true (running p) (queue p) (workers p) (shared p) (accepted p) (refused p) (taken p) (finished p))
    else None
  | Accept => accept p
  | Lock i =>
    match workers p !! i with
    | Some Waiting => if existsb receiving (workers p) then None else Some (set_worker i Receiving p)
    | _ => None
    end
  | Take i =>
    match workers p !! i, queue p with
    | Some Receiving, c :: rest =>
      Some (mk_pool (backlog p) (listening p) (running p) rest (<[i := Serving c (begin_ c)]> (workers p)) (shared p)
              (accepted p) (refused p) (taken p ++ [c]) (finished p))
    | _, _ => None
    end
  | Close i =>
    match workers p !! i, queue p with
    | Some Receiving, [] => if listening p then None else Some (set_worker i Ended p)
    | _, _ => None
    end
  | Work i =>
    match workers p !! i with
    | Some (Serving c (Sections.Answered _)) => None
    | Some (Serving c t) =>
      let '(t', s) := Sections.advance t (shared p) in
      Some (mk_pool (backlog p) (listening p) (running p) (queue p) (<[i := Serving c t']> (workers p)) s
              (accepted p) (refused p) (taken p) (finished p))
    | _ => None
    end
  | Finish i =>
    match workers p !! i with
    | Some (Serving c (Sections.Answered answer)) =>
      Some (mk_pool (backlog p) (listening p) (running p) (queue p) (<[i := Waiting]> (workers p)) (shared p)
              (accepted p) (refused p) (taken p) (finished p ++ [(c, written c answer)]))
    | _ => None
    end
  | Stop =>
    Some (mk_pool (backlog p) (listening p) false (queue p) (workers p) (shared p) (accepted p) (refused p) (taken p) (finished p))
  end.

(** What a panic in a section leaves: the state as it was, or, under the lock of the vault,
    a poisoned lock and the leavings of some request of the vault. *)
Inductive panics : World * Api.Api → World * Api.Api → Prop :=
| panic_clean s : panics s s
| panic_poisons w self r w' v' self' :
    Server.valid r → Server.handle r (w, ApiClaims.recovered self) = (w', v') →
    Vault.seal (Api.vault self') = Vault.seal v' → Api.poisoned self' = true → panics (w, self) (w', self').

Inductive step : Pool → event → Pool → Prop :=
| step_next e p p' : next e p = Some p' → step p e p'
| step_panic i c t s p :
    workers p !! i = Some (Serving c t) → Sections.height t ≠ 0%nat → panics (shared p) s →
    step p (Work i)
      (mk_pool (backlog p) (listening p) (running p) (queue p) (<[i := Serving c (Sections.Answered None)]> (workers p)) s
         (accepted p) (refused p) (taken p) (finished p)).

(** A run, with its steps. *)
Inductive run : Pool → list event → Pool → Prop :=
| run_nil p : run p [] p
| run_cons p e p1 es p2 : step p e p1 → run p1 es p2 → run p (e :: es) p2.

(** A run without panics, which can be carried out. *)
Fixpoint steps (es : list event) (p : Pool) : option Pool :=
  match es with
  | [] => Some p
  | e :: es => next e p ≫= steps es
  end.
End Pool.
