(* ===== verification/PoolClaims.v ===== *)
(** * What the threads guarantee

    Invariants of the accepting thread, the queue and the workers, by induction on their
    steps: nothing is lost, doubled or overtaken, the shared vault stays sound, a shutdown
    comes to its end, and one worker serves the connections in turn. *)

From S2P Require Import Prelude Text Timestamp JsonValue World Token Aead Shamir Event State Log LogSpec Password RateLimit Errors Vault VaultSpec VaultServer.
From S2P Require Import Http HttpRequest HttpClient HttpClaims Api ApiSpec ApiClaims Sections Pool.
From Stdlib Require Import Strings.Byte.

Module PoolClaims.
Import ApiSpec ApiClaims Sections.

(** A list around the place that is updated. *)
Lemma insert_split {A} (l : list A) i x y :
  l !! i = Some x → ∃ l1 l2, l = l1 ++ x :: l2 ∧ <[i := y]> l = l1 ++ y :: l2.
Proof.
  intros H. apply list_elem_of_split_length in H as (l1 & l2 & -> & ->). exists l1, l2. split; [done|].
  rewrite insert_app_r_alt by done. by rewrite Nat.sub_diag.
Qed.

(** The connections being served. *)
Definition in_hand (w : Worker) : option Conn := match w with Serving c _ => Some c | _ => None end.
Definition serving (ws : list Worker) : list Conn := omap in_hand ws.

Definition count {A} (f : A → bool) (l : list A) : nat := length (List.filter f l).

Lemma count_app {A} (f : A → bool) l1 l2 : count f (l1 ++ l2) = (count f l1 + count f l2)%nat.
Proof. unfold count. by rewrite List.filter_app, length_app. Qed.

Lemma count_cons {A} (f : A → bool) x l : count f (x :: l) = ((if f x then 1 else 0) + count f l)%nat.
Proof. unfold count. cbn [List.filter]. by destruct (f x). Qed.

Lemma count_none {A} (f : A → bool) l : existsb f l = false → count f l = 0%nat.
Proof. induction l as [|x l IH]; [done|]. cbn [existsb]. rewrite count_cons. by destruct (f x). Qed.

Section PoolClaims.
Context {EnvI : Env} {CipherI : Cipher} {ShaI : Sha256} {ArgonI : Argon2} {TextI : OsText} {WatchI : Stopwatch}.
Variable (limits : Limits).

(** ** Where connections are *)

Definition worker_shape (p : Pool) (w : Worker) : Prop :=
  match w with Ended => listening p = false ∧ queue p = [] | _ => True end.

(** The queue is bounded, one worker at most holds the receiver, connections leave the
    queue in the order they entered it, and each is in one hand or done with. *)
Record shape (n : nat) (p : Pool) : Prop := {
  shape_queue : (length (queue p) ≤ QUEUE_DEPTH)%nat;
  shape_workers : length (workers p) = n;
  shape_receiving : (count receiving (workers p) ≤ 1)%nat;
  shape_order : accepted p = taken p ++ queue p;
  shape_served : taken p ≡ₚ (finished p).*1 ++ serving (workers p);
  shape_ended : Forall (worker_shape p) (workers p);
}.

Lemma spawn_shape n s : shape (Nat.max n 1) (spawn n s).
Proof.
  assert (∀ m, count receiving (replicate m Waiting) = 0%nat ∧ serving (replicate m Waiting) = []) as H by (by intros m; induction m).
  destruct (H (Nat.max n 1)) as [H1 H2]. split; cbn [queue spawn workers accepted taken finished fmap list_fmap app].
  - apply Nat.le_0_l.
  - apply length_replicate.
  - rewrite H1. lia.
  - done.
  - by rewrite H2.
  - by apply Forall_replicate.
Qed.

(** What happens to one worker. *)
Lemma shape_set n p p' i w w' :
  shape n p → workers p !! i = Some w → workers p' = <[i := w']> (workers p) →
  (length (queue p') ≤ QUEUE_DEPTH)%nat → (receiving w' = true → count receiving (workers p) = 0%nat) →
  accepted p' = taken p' ++ queue p' →
  (∀ s1 s2, taken p ≡ₚ (finished p).*1 ++ s1 ++ option_list (in_hand w) ++ s2 →
            taken p' ≡ₚ (finished p').*1 ++ s1 ++ option_list (in_hand w') ++ s2) →
  (∀ w, worker_shape p w → worker_shape p' w) → worker_shape p' w' → shape n p'.
Proof.
  intros [_ Hn Hr _ Hs He] Hi Hw Hq Hr' Ho Hp Hm Hw'. destruct (insert_split _ _ _ w' Hi) as (l1 & l2 & E & E').
  assert (∀ w, serving (l1 ++ w :: l2) = serving l1 ++ option_list (in_hand w) ++ serving l2) as Hserve.
  { intros x. unfold serving. rewrite omap_app. cbn [omap list_omap]. by destruct (in_hand x). }
  split; [done| | |done| |]; rewrite ?Hw.
  - by rewrite length_insert.
  - rewrite E', E in *. rewrite !count_app, !count_cons in *. destruct (receiving w'); [|lia]. specialize (Hr' eq_refl). lia.
  - rewrite E', Hserve. apply Hp. by rewrite <- Hserve, <- E.
  - rewrite E'. rewrite E in He. apply Forall_app in He as [H1 H2]. apply Forall_cons in H2 as [_ H2].
    apply Forall_app. split; [by eapply Forall_impl|]. constructor; [done|by eapply Forall_impl].
Qed.

Lemma accept_shape n p p' : shape n p → accept p = Some p' → shape n p'.
Proof.
  intros [Hq Hn Hr Ho Hs He]. unfold accept. destruct (listening p) eqn:Hl; [|done]. cbn [negb].
  assert (∀ ws, Forall (worker_shape p) ws → ∀ p', Forall (worker_shape p') ws) as Hopen.
  { intros ws H p1. eapply Forall_impl; [exact H|]. intros []; try done. cbn. intros [H1 _]. congruence. }
  destruct (backlog p) as [|incoming rest]; [done|]. destruct (negb (running p)).
  - intros [= <-]. split; try done. by apply Hopen.
  - destruct incoming as [c|]; [destruct (Nat.ltb_spec (length (queue p)) QUEUE_DEPTH); cbn [andb]; [destruct (negb _)|]|];
      intros [= <-]; split; try done; cbn; try by apply Hopen.
    + rewrite length_app. cbn. lia.
    + by rewrite Ho, app_assoc.
Qed.

Lemma step_shape n p e p' : shape n p → Pool.step limits p e p' → shape n p'.
Proof.
  intros H Hstep. pose proof H as [Hq Hn Hr Ho Hs He]. destruct Hstep as [e p p' E|i c t s p Hi Ht Hpan].
  2: { by apply (shape_set n p _ i (Serving c t) (Serving c (Answered None)) H Hi). }
  destruct e as [incoming| |i|i|i|i|i|]; cbn [next] in E.
  - destruct (listening p) eqn:Hl; [|done]. injection E as <-. split; try done. eapply Forall_impl; [exact He|].
    intros []; try done. cbn. by rewrite Hl.
  - by eapply accept_shape.
  - destruct (workers p !! i) as [[]|] eqn:Hi; try done. destruct (existsb _ _) eqn:Hx; [done|]. injection E as <-.
    apply (shape_set n p _ i Waiting Receiving H Hi); try done. intros _. by apply count_none.
  - destruct (workers p !! i) as [[]|] eqn:Hi; try done. destruct (queue p) as [|c rest] eqn:Eq; [done|]. injection E as <-.
    apply (shape_set n p _ i Receiving (Serving c (begin_ limits c)) H Hi); cbn; try done.
    + cbn in Hq. lia.
    + by rewrite Ho, <- app_assoc.
    + intros s1 s2 ->. cbn. rewrite <- !app_assoc. apply Permutation_app_head, Permutation_app_head. apply Permutation_app_comm.
    + intros []; try done. cbn. intros [_ ?]. congruence.
  - destruct (workers p !! i) as [[]|] eqn:Hi; try done. destruct (queue p) as [|c rest] eqn:Eq; [|done]. destruct (listening p) eqn:Hl; [done|].
    injection E as <-. by apply (shape_set n p _ i Receiving Ended H Hi); cbn; rewrite ?Eq.
  - destruct (workers p !! i) as [[| |c t|]|] eqn:Hi; try done.
    assert (∃ t' s, Some p' = Some (mk_pool (backlog p) (listening p) (running p) (queue p) (<[i := Serving c t']> (workers p)) s
      (accepted p) (refused p) (taken p) (finished p))) as (t' & s & [= ->]).
    { rewrite <- E. destruct t; try done; destruct (advance _ _) as [t' s]; by eexists t', s. }
    by apply (shape_set n p _ i (Serving c t) (Serving c t') H Hi).
  - destruct (workers p !! i) as [[| |c [| | | |answer]|]|] eqn:Hi; try done. injection E as <-.
    apply (shape_set n p _ i (Serving c (Answered answer)) Waiting H Hi); cbn; try done.
    intros s1 s2 ->. rewrite fmap_app. cbn. rewrite <- app_assoc. apply Permutation_app_head. cbn. by rewrite Permutation_middle.
  - injection E as <-. by split.
Qed.

Lemma run_shape n p es p' : Pool.run limits p es p' → shape n p → shape n p'.
Proof. induction 1 as [|p e p1 es p2 Hs _ IH]; [done|]. intros H. apply IH. by eapply step_shape. Qed.

(** ** Coming to an end *)

Definition worker_weight (w : Worker) : nat :=
  match w with Ended => 0 | Receiving => 1 | Waiting => 2 | Serving _ t => 3 + height t end.

Definition weights (ws : list Worker) : nat := sum_list (worker_weight <$> ws).

(** What is left to do. Arrivals count only while they are still let in. *)
Definition weight (p : Pool) : nat :=
  (if listening p then 1 else 0) + (if running p then 7 * length (backlog p) else 0) + 6 * length (queue p) + weights (workers p).

Lemma weights_cons w ws : weights (w :: ws) = (worker_weight w + weights ws)%nat.
Proof. done. Qed.

Lemma weights_split l1 w l2 : weights (l1 ++ w :: l2) = (weights l1 + worker_weight w + weights l2)%nat.
Proof. induction l1 as [|x l1 IH]; [done|]. cbn [app]. rewrite !weights_cons, IH. lia. Qed.

Lemma weights_set ws i w w' : ws !! i = Some w → (weights (<[i := w']> ws) + worker_weight w = weights ws + worker_weight w')%nat.
Proof. intros H. destruct (insert_split _ _ _ w' H) as (l1 & l2 & -> & ->). rewrite !weights_split. lia. Qed.

#[local] Arguments weights : simpl never.

Lemma height_begin c : (height (begin_ limits c) ≤ 3)%nat.
Proof. unfold begin_. destruct (Request.read limits c).1; cbn; lia. Qed.

Lemma weights_bound ws : (weights ws ≤ 6 * length ws)%nat.
Proof.
  induction ws as [|w ws IH]; [done|]. rewrite weights_cons. cbn [length]. assert (worker_weight w ≤ 6)%nat; [|lia].
  destruct w as [| |c [| | | |]|]; cbn; lia.
Qed.

(** Every step of the server's own threads leaves less to do; with the flag down, nothing
    from outside adds to it. *)
Lemma step_weight p e p' :
  Pool.step limits p e p' →
  (own e = true → (weight p' < weight p)%nat)
  ∧ (running p = false → running p' = false ∧ (weight p' ≤ weight p)%nat).
Proof.
  intros Hstep. enough (running p' = (if own e then running p else running p') ∧ (running p = false → running p' = false)
    ∧ if own e then (weight p' < weight p)%nat else running p = false → (weight p' ≤ weight p)%nat) as (Hr & Hf & Hw).
  { destruct (own e); (split; [done|]); intros H; (split; [auto|]); [lia|auto]. }
  destruct Hstep as [e p p' E|i c t s p Hi Ht Hpan].
  2: { split; [done|]. split; [done|]. pose proof (weights_set _ _ _ (Serving c (Answered None)) Hi) as H.
       unfold weight. cbn in *. lia. }
  destruct e as [incoming| |i|i|i|i|i|]; cbn [next own] in *.
  - destruct (listening p) eqn:Hl; [|done]. injection E as <-. unfold weight. cbn. rewrite Hl. split; [done|]. split; [done|]. intros ->. lia.
  - unfold accept in E. destruct (listening p) eqn:Hl; [|done]. cbn [negb] in E. destruct (backlog p) as [|incoming rest] eqn:Hb; [done|].
    unfold weight. rewrite Hl, Hb. destruct (running p) eqn:Hrun; cbn [negb] in E.
    + destruct incoming as [c|]; [destruct (_ && _)|]; injection E as <-; cbn; rewrite ?length_app; cbn; split_and!; done || lia.
    + injection E as <-. cbn. split_and!; done || lia.
  - destruct (workers p !! i) as [[]|] eqn:Hi; try done. destruct (existsb _ _); [done|]. injection E as <-. split; [done|]. split; [done|].
    pose proof (weights_set _ _ _ Receiving Hi). unfold weight. cbn in *. lia.
  - destruct (workers p !! i) as [[]|] eqn:Hi; try done. destruct (queue p) as [|c rest] eqn:Eq; [done|]. injection E as <-. split; [done|]. split; [done|].
    pose proof (weights_set _ _ _ (Serving c (begin_ limits c)) Hi). pose proof (height_begin c). unfold weight. rewrite Eq. cbn in *. lia.
  - destruct (workers p !! i) as [[]|] eqn:Hi; try done. destruct (queue p) as [|c rest] eqn:Eq; [|done]. destruct (listening p) eqn:Hl; [done|].
    injection E as <-. split; [done|]. split; [done|]. pose proof (weights_set _ _ _ Ended Hi). unfold weight. cbn in *. rewrite Eq. cbn. lia.
  - destruct (workers p !! i) as [[| |c t|]|] eqn:Hi; try done.
    pose proof (advance_height t (shared p)) as Hh. assert (height t ≠ 0%nat) as Ht by by destruct t.
    assert (Some p' = let '(t', s) := advance t (shared p) in Some (mk_pool (backlog p) (listening p) (running p) (queue p)
      (<[i := Serving c t']> (workers p)) s (accepted p) (refused p) (taken p) (finished p))) as E' by (rewrite <- E; by destruct t).
    assert (height (advance t (shared p)).1 < height t)%nat as Hlt by by destruct t.
    destruct (advance t (shared p)) as [t' s]. injection E' as ->. split; [done|]. split; [done|].
    pose proof (weights_set _ _ _ (Serving c t') Hi). unfold weight. cbn in *. lia.
  - destruct (workers p !! i) as [[| |c [| | | |answer]|]|] eqn:Hi; try done. injection E as <-. split; [done|]. split; [done|].
    pose proof (weights_set _ _ _ Waiting Hi). unfold weight. cbn in *. lia.
  - injection E as <-. split; [done|]. split; [done|]. intros Hr. unfold weight. cbn. rewrite Hr. lia.
Qed.

Lemma run_weight p es p' :
  Pool.run limits p es p' → running p = false →
  running p' = false ∧ (count own es + weight p' ≤ weight p)%nat.
Proof.
  induction 1 as [|p e p1 es p2 Hs _ IH]; intros Hr; [done|]. destruct (step_weight _ _ _ Hs) as [Hlt Hle].
  destruct (Hle Hr) as [Hr1 Hle1]. destruct (IH Hr1) as [Hr2 Hw]. split; [done|]. rewrite count_cons.
  destruct (own e); [specialize (Hlt eq_refl)|]; lia.
Qed.

(** No thread of the server's own can move. *)
Definition stuck (p : Pool) : Prop := ∀ e p', own e = true → ¬ Pool.step limits p e p'.

Lemma stuck_next p e : stuck p → own e = true → next limits e p = None.
Proof. intros H He. destruct (next limits e p) eqn:E; [|done]. by destruct (H e p0 He); constructor. Qed.

(** A thread that waits for the connection that wakes it has one coming. *)
Definition woken (p : Pool) : Prop := listening p = true → backlog p ≠ [].

Lemma stuck_deaf p : woken p → running p = false → stuck p → listening p = false.
Proof.
  intros Hw Hr H. destruct (listening p) eqn:Hl; [|done]. pose proof (stuck_next p Accept H eq_refl) as E. cbn in E. unfold accept in E.
  rewrite Hl, Hr in E. destruct (backlog p) eqn:Eb; [by destruct (Hw Hl)|done].
Qed.

Lemma stuck_workers p i w : listening p = false → stuck p → workers p !! i = Some w → w = Ended.
Proof.
  intros Hl H. assert (∀ j, workers p !! j ≠ Some Receiving) as Hno.
  { intros j Hj. pose proof (stuck_next p (Take j) H eq_refl) as Et. pose proof (stuck_next p (Close j) H eq_refl) as Ec.
    cbn in Et, Ec. rewrite Hj in Et, Ec. rewrite Hl in Ec. by destruct (queue p). }
  intros Hi. destruct w as [| |c t|]; [| | |done].
  - pose proof (stuck_next p (Lock i) H eq_refl) as E. cbn in E. rewrite Hi in E.
    destruct (existsb receiving (workers p)) eqn:Ex; [|done]. apply existsb_exists in Ex as (w & Hin & Hw).
    apply list_elem_of_In, list_elem_of_lookup in Hin as [j Hj]. destruct w; try done. by destruct (Hno j).
  - by destruct (Hno i).
  - pose proof (stuck_next p (Work i) H eq_refl) as Ew. pose proof (stuck_next p (Finish i) H eq_refl) as Ef.
    cbn in Ew, Ef. rewrite Hi in Ew, Ef. destruct t; try done; by destruct (advance _ _).
Qed.

Lemma stuck_ended n p :
  shape (S n) p → running p = false → woken p → stuck p →
  listening p = false ∧ Forall (λ w, w = Ended) (workers p) ∧ queue p = [] ∧ accepted p ≡ₚ (finished p).*1.
Proof.
  intros [_ Hn _ Ho Hs He] Hr Hw H. pose proof (stuck_deaf p Hw Hr H) as Hl.
  assert (Forall (λ w, w = Ended) (workers p)) as Hall.
  { apply Forall_lookup. intros i w. by apply stuck_workers. }
  split; [done|]. split; [done|]. destruct (workers p) as [|w ws] eqn:Ew; [done|].
  apply Forall_cons in He as [Hq _]. pose proof Hall as [-> Hrest]%Forall_cons. destruct Hq as [_ Hq]. split; [done|].
  assert (serving (Ended :: ws) = []) as Es.
  { clear -Hrest. induction Hrest as [|? ws -> _ IH]; [done|]. exact IH. }
  by rewrite Ho, Hq, app_nil_r, Hs, Es, app_nil_r.
Qed.

Lemma step_woken p e p' : Pool.step limits p e p' → running p = false → woken p → woken p'.
Proof.
  intros Hstep Hr Hw. destruct Hstep as [e p p' E|]; [|done]. destruct e as [incoming| |i|i|i|i|i|]; cbn [next] in E.
  - destruct (listening p); [|done]. injection E as <-. intros _. cbn. by destruct (backlog p).
  - unfold accept in E. destruct (listening p); [|done]. destruct (backlog p); [done|]. rewrite Hr in E. by injection E as <-.
  - destruct (workers p !! i) as [[]|]; try done. destruct (existsb _ _); [done|]. by injection E as <-.
  - destruct (workers p !! i) as [[]|]; try done. destruct (queue p); [done|]. by injection E as <-.
  - destruct (workers p !! i) as [[]|]; try done. destruct (queue p); [|done]. destruct (listening p) eqn:Hl; [done|]. injection E as <-.
    unfold woken. cbn. by rewrite Hl.
  - destruct (workers p !! i) as [[| |c []|]|]; try done; destruct (advance _ _); by injection E as <-.
  - destruct (workers p !! i) as [[| |c []|]|]; try done; by injection E as <-.
  - by injection E as <-.
Qed.

Lemma run_woken p es p' : Pool.run limits p es p' → running p = false → woken p → woken p'.
Proof.
  induction 1 as [|p e p1 es p2 Hs _ IH]; [done|]. intros Hr Hw. destruct (step_weight _ _ _ Hs) as [_ [Hr1 _]]; [done|].
  apply IH; [done|]. by eapply step_woken.
Qed.

(** C9: a shutdown ends, and cuts nobody off. Once the flag is down and the connection
    that wakes the accepting thread is on its way, the threads take no more than a fixed
    number of steps, whatever still arrives and however they interleave; and when none of
    them can take another, all have ended, and every connection that was let in has been
    answered, none twice. *)
Theorem shutdown_ends n s es0 p :
  Pool.run limits (spawn n s) es0 p → running p = false → woken p →
  ∀ es p', Pool.run limits p es p' →
  (count own es ≤ 1 + 6 * QUEUE_DEPTH + 6 * Nat.max n 1)%nat
  ∧ (stuck p' → listening p' = false ∧ Forall (λ w, w = Ended) (workers p') ∧ queue p' = [] ∧ accepted p' ≡ₚ (finished p').*1).
Proof.
  intros Hrun Hr Hw es p' Hes. pose proof (run_shape _ _ _ _ Hrun (spawn_shape n s)) as Hp.
  destruct (run_weight _ _ _ Hes Hr) as [Hr' Hle]. split.
  - destruct Hp as [Hq Hn _ _ _ _]. pose proof (weights_bound (workers p)). unfold weight in Hle. rewrite Hr, Hn in *.
    destruct (listening p); lia.
  - intros Hst. pose proof (run_shape _ _ _ _ Hes Hp) as Hp'. destruct (Nat.max n 1) as [|m] eqn:Em; [lia|].
    apply (stuck_ended m); [done|done| |done]. by eapply run_woken.
Qed.

(** ** What they answer *)

Lemma document_panic :
  document (Response.json 500 ("{" +:+ Server_.quote +:+ "error" +:+ Server_.quote +:+ ":" +:+ Server_.quote +:+ "internal error" +:+ Server_.quote +:+ "}")).
Proof. exact (document_error 500 "internal error" ltac:(lia)). Qed.

(** A connection is answered with a status and a document, unless it sent nothing. *)
Definition answered (co : Conn * option (list byte)) : Prop :=
  match co.2 with
  | Some out => well_answered out
  | None => (Request.read limits co.1).1 = Err Incomplete
  end.

Lemma written_answered c answer : task_ok (Answered answer) → answered (c, written limits c answer).
Proof.
  intros Ha. unfold answered, written, Server_.serve_connection. cbn [fst snd].
  destruct (Request.read limits c) as [[request|e] c'] eqn:E; cbn [fst].
  - apply document_answered. destruct answer; [exact Ha|exact document_panic].
  - pose proof (refusal_well_answered e). by destruct e.
Qed.

Definition worker_sound (w : Worker) : Prop := match w with Serving _ t => task_ok t | _ => True end.

(** The vault that the workers share is sound, and so is what they hold and what they have
    answered. *)
Record sound (path : string) (p : Pool) : Prop := {
  sound_shared : api_ok path (shared p);
  sound_workers : Forall worker_sound (workers p);
  sound_finished : Forall answered (finished p);
}.

Lemma begin_sound c : task_ok (begin_ limits c).
Proof.
  unfold begin_. destruct (Request.read limits c).1 as [request|e] eqn:E; [|done]. exact (accepted_path limits c request E).
Qed.

Section Sound.
Context {LawsI : CipherLaws} {ArgonLawsI : password.Argon2Laws}.
Variables (path : string).
Hypothesis (Hext : Log.with_extension path "compacting" ≠ path).

Lemma panics_ok s s' : panics s s' → api_ok path s → api_ok path s'.
Proof.
  intros [|w self r w' v' self' Hv E Hseal Hpo] H; [done|].
  exact (api_step_sound limits path Hext (Up (w, self)) (Up (w', self')) (step_panic _ _ _ _ _ _ _ _ Hv E Hseal Hpo) H).
Qed.

Lemma pool_step_sound p e p' : sound path p → Pool.step limits p e p' → sound path p'.
Proof.
  intros [Hs Hw Hf] Hstep. destruct Hstep as [e p p' E|i c t s p Hi Ht Hpan].
  2: { split; [by eapply panics_ok| |done]. by apply Forall_insert. }
  assert (∀ i w, workers p !! i = Some w → worker_sound w) as Hlook by (intros i w Hi; by eapply Forall_lookup_1).
  destruct e as [incoming| |i|i|i|i|i|]; cbn [next] in E.
  - destruct (listening p); [|done]. injection E as <-. by split.
  - unfold accept in E. destruct (listening p); [|done]. destruct (backlog p) as [|[c|] ?]; [done|..];
      (destruct (negb (running p)); [by injection E as <-|]); [destruct (_ && _)|]; by injection E as <-.
  - destruct (workers p !! i) as [[]|]; try done. destruct (existsb _ _); [done|]. injection E as <-. split; [done| |done]. by apply Forall_insert.
  - destruct (workers p !! i) as [[]|]; try done. destruct (queue p) as [|c rest]; [done|]. injection E as <-. split; [done| |done].
    apply Forall_insert; [done|]. apply begin_sound.
  - destruct (workers p !! i) as [[]|]; try done. destruct (queue p); [|done]. destruct (listening p); [done|]. injection E as <-.
    split; [done| |done]. by apply Forall_insert.
  - destruct (workers p !! i) as [[| |c t|]|] eqn:Hi; try done. apply Hlook in Hi.
    destruct (advance_ok path Hext t (shared p) Hi Hs) as [Ht Hok].
    assert (Some p' = let '(t', s) := advance t (shared p) in Some (mk_pool (backlog p) (listening p) (running p) (queue p)
      (<[i := Serving c t']> (workers p)) s (accepted p) (refused p) (taken p) (finished p))) as E' by (rewrite <- E; by destruct t).
    destruct (advance t (shared p)) as [t' s]. injection E' as ->. split; [done| |done]. by apply Forall_insert.
  - destruct (workers p !! i) as [[| |c [| | | |answer]|]|] eqn:Hi; try done. injection E as <-. apply Hlook in Hi.
    split; [done|by apply Forall_insert|]. apply Forall_app. split; [done|]. apply Forall_singleton. by apply written_answered.
  - injection E as <-. by split.
Qed.

Lemma run_sound p es p' : Pool.run limits p es p' → sound path p → sound path p'.
Proof. induction 1 as [|p e p1 es p2 Hs _ IH]; [done|]. intros H. apply IH. by eapply pool_step_sound. Qed.

(** C8: threads do not spoil it. However the accepting thread, the workers, their panics and
    the arriving connections interleave, down to the sections of a request between which
    others run: the vault they share is sound, the queue is never longer than its bound,
    one worker at most holds its receiving end, connections are taken in the order they
    were let in, each one let in is waiting, in the hands of one worker or answered once,
    and every answer is a status and a document that the client can read. *)
Theorem threads_sound n s es p :
  api_ok path s → Pool.run limits (spawn n s) es p →
  api_ok path (shared p) ∧ (length (queue p) ≤ QUEUE_DEPTH)%nat ∧ (count receiving (workers p) ≤ 1)%nat
  ∧ accepted p = taken p ++ queue p ∧ taken p ≡ₚ (finished p).*1 ++ serving (workers p) ∧ Forall answered (finished p).
Proof.
  intros Hs Hrun. destruct (run_shape _ _ _ _ Hrun (spawn_shape n s)) as [Hq _ Hr Ho Hp _].
  destruct (run_sound _ _ _ Hrun) as [Hok _ Hf]; [|done]. split; [done| |constructor]. by apply Forall_replicate.
Qed.
End Sound.

Lemma steps_run es p p' : steps limits es p = Some p' → Pool.run limits p es p'.
Proof.
  revert p. induction es as [|e es IH]; intros p; cbn; [intros [= ->]; constructor|].
  destruct (next limits e p) as [p1|] eqn:E; [|done]. cbn. intros H. econstructor; [by constructor|by apply IH].
Qed.

(** ** One worker *)

(** The connections served one after the other. *)
Fixpoint serve_all (cs : list Conn) (s : World * Api.Api) : list (Conn * option (list byte)) * (World * Api.Api) :=
  match cs with
  | [] => ([], s)
  | c :: cs => let '(out, s1) := serve limits c s in let '(outs, s2) := serve_all cs s1 in ((c, out) :: outs, s2)
  end.

Lemma serve_all_snoc cs c s :
  serve_all (cs ++ [c]) s = let '(outs, s1) := serve_all cs s in let '(out, s2) := serve limits c s1 in (outs ++ [(c, out)], s2).
Proof.
  revert s. induction cs as [|c' cs IH]; intros s; cbn [serve_all app]; [by destruct (serve limits c s)|].
  destruct (serve limits c' s) as [out s1]. rewrite IH. destruct (serve_all cs s1) as [outs s2]. by destruct (serve limits c s2).
Qed.

(** However many sections it took, they come to the same answer. *)
Lemma sections_end k t s answer s' :
  sections k t s = (Answered answer, s') → sections (k + 3) t s = (Answered answer, s').
Proof. intros H. by rewrite sections_add, H. Qed.

Lemma begin_serve k c s answer s' :
  sections k (begin_ limits c) s = (Answered answer, s') → (written limits c answer, s') = serve limits c s.
Proof.
  intros H. unfold serve, written, Server_.serve_connection. unfold begin_ in H.
  destruct (Request.read limits c) as [[request|e] c'] eqn:E; cbn [fst snd] in *.
  - apply sections_end in H. rewrite Nat.add_comm, sections_add, sections_respond, sections_answered in H. by injection H as <- <-.
  - rewrite sections_answered in H. injection H as <- <-. by destruct e.
Qed.

(** Between connections everything taken has been served in turn; during one, all before
    it, and some of its sections. *)
Definition in_turn (s : World * Api.Api) (p : Pool) : Prop :=
  ∃ w, workers p = [w] ∧
  match w with
  | Serving c t => ∃ before s1 k, taken p = before ++ [c] ∧ serve_all before s = (finished p, s1)
                     ∧ sections k (begin_ limits c) s1 = (t, shared p)
  | _ => serve_all (taken p) s = (finished p, shared p)
  end.

Lemma single_lookup {A} (w : A) i x : [w] !! i = Some x → i = 0%nat ∧ x = w.
Proof. destruct i; cbn; [by intros [= ->]|done]. Qed.

Lemma next_in_turn s p e p' : in_turn s p → next limits e p = Some p' → in_turn s p'.
Proof.
  intros (w & Ew & H) E. destruct e as [incoming| |i|i|i|i|i|]; cbn [next] in E; rewrite ?Ew in E.
  - destruct (listening p); [|done]. injection E as <-. by exists w.
  - unfold accept in E. destruct (listening p); [|done]. destruct (backlog p) as [|[c|] ?]; [done|..];
      (destruct (negb (running p)); [by injection E as <-; exists w|]); [destruct (_ && _)|]; injection E as <-; by exists w.
  - destruct ([w] !! i) as [x|] eqn:Ei; [|done]. apply single_lookup in Ei as [-> ->]. destruct w; try done.
    destruct (existsb _ _); [done|]. injection E as <-. exists Receiving. cbn. by rewrite Ew.
  - destruct ([w] !! i) as [x|] eqn:Ei; [|done]. apply single_lookup in Ei as [-> ->]. destruct w; try done.
    destruct (queue p) as [|c rest]; [done|]. injection E as <-. exists (Serving c (begin_ limits c)). cbn. split; [done|].
    by exists (taken p), (shared p), 0%nat.
  - destruct ([w] !! i) as [x|] eqn:Ei; [|done]. apply single_lookup in Ei as [-> ->]. destruct w; try done.
    destruct (queue p); [|done]. destruct (listening p); [done|]. injection E as <-. exists Ended. cbn. by rewrite Ew.
  - destruct ([w] !! i) as [x|] eqn:Ei; [|done]. apply single_lookup in Ei as [-> ->]. destruct w as [| |c t|]; try done.
    assert (Some p' = let '(t', s) := advance t (shared p) in Some (mk_pool (backlog p) (listening p) (running p) (queue p)
      [Serving c t'] s (accepted p) (refused p) (taken p) (finished p))) as E' by (rewrite <- E; by destruct t).
    destruct H as (before & s1 & k & Ht & Hf & Hk). destruct (advance t (shared p)) as [t' s'] eqn:Ea. injection E' as ->.
    exists (Serving c t'). split; [done|]. exists before, s1, (k + 1)%nat. cbn. split; [done|]. split; [done|].
    rewrite sections_add, Hk. cbn. by rewrite Ea.
  - destruct ([w] !! i) as [x|] eqn:Ei; [|done]. apply single_lookup in Ei as [-> ->]. destruct w as [| |c [| | | |answer]|]; try done.
    injection E as <-. destruct H as (before & s1 & k & Ht & Hf & Hk). exists Waiting. cbn. split; [done|].
    apply begin_serve in Hk. by rewrite Ht, serve_all_snoc, Hf, <- Hk.
  - injection E as <-. by exists w.
Qed.

(** The connections among the events, in the order of their arrival. *)
Definition arrivals_of (es : list event) : list Conn :=
  omap (λ e, match e with Arrive incoming => incoming | _ => None end) es.

(** What is let in, is let in in that order; [gone] has been looked at, or was left behind
    when the listener closed. *)
Definition in_order (seen : list Conn) (p : Pool) : Prop :=
  ∃ gone, seen = gone ++ omap id (backlog p) ∧ accepted p `sublist_of` gone.

Lemma next_in_order seen p e p' : in_order seen p → next limits e p = Some p' → in_order (seen ++ arrivals_of [e]) p'.
Proof.
  intros (gone & -> & Hs) E.
  assert (∀ q, backlog q = backlog p → accepted q = accepted p → in_order ((gone ++ omap id (backlog p)) ++ []) q) as Hsame
    by (intros q Hb Ha; exists gone; rewrite app_nil_r, Hb, Ha; by split).
  destruct e as [incoming| |i|i|i|i|i|]; cbn [next] in E; unfold arrivals_of; cbn [omap list_omap].
  - destruct (listening p); [|done]. injection E as <-. exists gone. cbn [backlog accepted].
    rewrite omap_app, <- app_assoc. split; [|done]. by destruct incoming.
  - rewrite app_nil_r. unfold accept in E. destruct (negb (listening p)); [done|].
    destruct (backlog p) as [|[c|] rest]; [done|..]; (destruct (negb (running p));
      [injection E as <-; eexists; rewrite app_nil_r; split; [done|by apply sublist_inserts_r]|]).
    + exists (gone ++ [c]). destruct (_ && _); injection E as <-; cbn; rewrite <- app_assoc; (split; [done|]).
      * by apply sublist_app.
      * by apply sublist_inserts_r.
    + injection E as <-. by exists gone.
  - destruct (workers p !! i) as [[]|]; try done. destruct (existsb _ _); [done|]. injection E as <-. by apply Hsame.
  - destruct (workers p !! i) as [[]|]; try done. destruct (queue p); [done|]. injection E as <-. by apply Hsame.
  - destruct (workers p !! i) as [[]|]; try done. destruct (queue p); [|done]. destruct (listening p); [done|].
    injection E as <-. by apply Hsame.
  - destruct (workers p !! i) as [[| |c t|]|]; try done. destruct t; try done;
      destruct (advance _ _); injection E as <-; by apply Hsame.
  - destruct (workers p !! i) as [[| |c [| | | |answer]|]|]; try done. injection E as <-. by apply Hsame.
  - injection E as <-. by apply Hsame.
Qed.

Lemma steps_in_order es : ∀ seen p p', in_order seen p → steps limits es p = Some p' → in_order (seen ++ arrivals_of es) p'.
Proof.
  induction es as [|e es IH]; intros seen p p' H; cbn [steps]; [intros [= ->]; by rewrite app_nil_r|].
  destruct (next limits e p) as [p1|] eqn:E; [|done]. cbn [mbind option_bind]. intros Hes.
  assert (arrivals_of (e :: es) = arrivals_of [e] ++ arrivals_of es) as -> by (destruct e as [[c|]| | | | | | |]; done).
  rewrite app_assoc. apply (IH _ p1); [|done]. by eapply next_in_order.
Qed.

(** C36: with one worker, the threads are a loop. The connections let in are some of those
    that arrived, in the order of their arrival, and are taken in that order; and
    whatever arrives, and however the accepting thread interleaves with the worker's
    sections, when the worker is between connections (and none of its handlers panicked),
    the state is what serving those taken, one after the other in that order, comes to,
    and what was written to each is what that writes. *)
Theorem one_worker_in_turn s es p :
  steps limits es (spawn 1 s) = Some p →
  accepted p `sublist_of` arrivals_of es ∧ accepted p = taken p ++ queue p
  ∧ (serving (workers p) = [] → serve_all (taken p) s = (finished p, shared p)).
Proof.
  intros Hes. split.
  { destruct (steps_in_order es [] (spawn 1 s) p) as (gone & Eg & Hs); [by exists []|done|]. cbn [app] in Eg. rewrite Eg.
    by apply sublist_inserts_r. }
  split; [exact (shape_order 1 p (run_shape 1 _ _ _ (steps_run es _ _ Hes) (spawn_shape 1 s)))|]. intros Hidle.
  assert (in_turn s p) as (w & Ew & H).
  { assert (in_turn s (spawn 1 s)) as H0 by by exists Waiting. revert Hes H0. generalize (spawn 1 s).
    induction es as [|e es IH]; intros p0; cbn; [by intros [= ->]|]. destruct (next limits e p0) as [p1|] eqn:E; [|done].
    cbn. intros Hes H0. apply (IH _ Hes). by eapply next_in_turn. }
  rewrite Ew in Hidle. by destruct w.
Qed.
End PoolClaims.
End PoolClaims.

(** ** Trying them out *)

Module PoolDemo.
Export SectionsDemo.
Import ApiSpec ApiClaims Sections PoolClaims.

Definition health0 : Conn := arriving (mk_request "GET" "/v1/sys/health" [] [("host", "localhost")] []).
Definition garbage : Conn := mk_conn [] [Bytes (as_bytes "hello" ++ CRLF)] 0.
Definition idle : Conn := mk_conn [] [] 0.

(** Two workers, whose steps overlap. *)
Definition overlapping : list event :=
  [Arrive (Some health0); Arrive (Some garbage); Accept; Arrive None; Accept; Lock 1; Take 1; Lock 0; Accept; Take 0; Work 1; Finish 0; Finish 1].
Definition pool1 : Pool := default (spawn 2 api0) (steps Limits_default overlapping (spawn 2 api0)).

Lemma steps_default {limits} es p : is_Some (steps limits es p) → steps limits es p = Some (default p (steps limits es p)).
Proof. by intros [p' ->]. Qed.

Lemma some_is_some {A} (o : option A) : (match o with Some _ => true | None => false end) = true → is_Some o.
Proof. by destruct o. Qed.

Lemma overlapping_runs : Pool.run Limits_default (spawn 2 api0) overlapping pool1.
Proof. apply steps_run, steps_default, some_is_some. by vm_compute. Qed.

Lemma api_ok0 : api_ok path0 api0.
Proof.
  pose proof (api_step_sound Limits_default path0 path0_apart (Down world0) (Up api0) (step_boot _ _ _ _ _ boot_ok)) as H.
  exact (H openable0).
Qed.

Lemma threads_sound_witness :
  length (finished pool1) = 2%nat ∧ Forall (answered Limits_default) (finished pool1).
Proof.
  split; [by vm_compute|]. exact (proj2 (proj2 (proj2 (proj2 (proj2
    (threads_sound Limits_default path0 path0_apart 2 api0 overlapping pool1 api_ok0 overlapping_runs)))))).
Defined.

(** The flag goes down while both are busy; what was let in is still answered. *)
Definition asked : list event :=
  [Arrive (Some health0); Arrive (Some health0); Accept; Accept; Lock 0; Take 0] ++ shutdown (Some idle).
Definition wound_down : list event :=
  [Work 0; Accept; Finish 0; Lock 1; Take 1; Lock 0; Close 0; Work 1; Finish 1; Lock 1; Close 1].
Definition pool2 : Pool := default (spawn 2 api0) (steps Limits_default asked (spawn 2 api0)).
Definition pool3 : Pool := default pool2 (steps Limits_default wound_down pool2).

Lemma asked_runs : Pool.run Limits_default (spawn 2 api0) asked pool2.
Proof. apply steps_run, steps_default, some_is_some. by vm_compute. Qed.

Lemma wound_down_runs : Pool.run Limits_default pool2 wound_down pool3.
Proof. apply steps_run, steps_default, some_is_some. by vm_compute. Qed.

Lemma ended_stuck limits p : listening p = false → workers p = [Ended; Ended] → stuck limits p.
Proof.
  intros Hl Hw e p' He Hstep. destruct Hstep as [e p p' E|i c t s p Hi]; [|rewrite Hw in Hi; by destruct i as [|[|]]].
  assert (∀ i, workers p !! i = Some Ended ∨ workers p !! i = None) as Hlook by (intros i; rewrite Hw; destruct i as [|[|]]; auto).
  destruct e as [incoming| |i|i|i|i|i|]; try done; cbn [next] in E; [unfold accept in E; by rewrite Hl in E|..];
    destruct (Hlook i) as [Hi|Hi]; by rewrite Hi in E.
Qed.

Lemma shutdown_ends_witness :
  (count Pool.own wound_down ≤ 781)%nat ∧ length (accepted pool3) = 2%nat ∧ accepted pool3 ≡ₚ (finished pool3).*1.
Proof.
  assert (running pool2 = false) as Hr by by vm_compute. assert (woken pool2) as Hw by by vm_compute.
  destruct (shutdown_ends Limits_default 2 api0 asked pool2 asked_runs Hr Hw wound_down pool3 wound_down_runs) as [Hle H].
  split; [exact Hle|]. split; [by vm_compute|]. apply H. apply ended_stuck; by vm_compute.
Defined.

Definition single : list event :=
  [Arrive (Some health0); Arrive (Some garbage); Accept; Lock 0; Take 0; Accept; Work 0; Finish 0; Lock 0; Take 0; Finish 0].
Definition pool4 : Pool := default (spawn 1 api0) (steps Limits_default single (spawn 1 api0)).

Lemma one_worker_in_turn_witness :
  length (taken pool4) = 2%nat ∧ accepted pool4 = taken pool4 ++ queue pool4
  ∧ serve_all Limits_default (taken pool4) api0 = (finished pool4, shared pool4).
Proof.
  split; [by vm_compute|]. destruct (one_worker_in_turn Limits_default api0 single pool4) as (_ & Ho & H).
  - apply steps_default, some_is_some. by vm_compute.
  - split; [exact Ho|]. apply H. by vm_compute.
Defined.
End PoolDemo.
