(* ===== verification/Startup.v ===== *)
(** * Starting the server

    Models [main.rs] of [crates/ls-server]: the command line, the data directory, the store
    that is opened in it, and the server that is started on it or the message the process
    ends with. What the operating system answers is a parameter. The process that serves
    is the pool of [Pool]. *)

From S2P Require Import Prelude Text Timestamp JsonValue World Token Aead Shamir Event State Log LogSpec Password RateLimit Errors Vault VaultSpec VaultServer.
From S2P Require Import Http HttpRequest HttpClient HttpClaims Api ApiSpec ApiClaims Logging Dotenv CliHost Sections Pool PoolClaims.
From Stdlib Require Import Strings.Byte.

(** The directory cannot be made, the address not bound or not read, for a reason. *)
Class Daemon := {
  create_dir_all : string → option string;
  bind_address : string → option string;
  local_addr : string → result string string;
}.

Record Options := mk_options { data_dir : string; listen : string; worker_count : Z }.

(** The process: the system, with standard error and the level of the log, and standard
    output. *)
Record Process := mk_process { system : World; process_stdout : list byte }.

Module Startup.
Import Logger.

(** [USAGE], by lines. *)
Definition USAGE : list string :=
  ["localsecretsd, the localsecrets server";
   EmptyString;
   "Usage: localsecretsd [options]";
   EmptyString;
   "Options:";
   "  --data-dir <path>   Where to keep the store (default ~/.local/share/localsecrets)";
   "  --listen <addr>     Address to bind (default 127.0.0.1:8787)";
   "  --workers <n>       Worker threads (default 4)";
   "  -h, --help          Show this message";
   EmptyString;
   "The server binds to the loopback address. Serving it to a network means";
   "putting a reverse proxy in front of it to terminate TLS: without that, tokens";
   "and secret values travel in the clear.";
   EmptyString;
   "Logging goes to standard error. Set LS_LOG to error, warn, info or debug."].

Definition usage_text : list byte := concat ((λ l, as_bytes l ++ [x0a]) <$> USAGE).

(** ** The command line *)

Definition default_data_dir (home : option (list byte)) : string :=
  match home with
  | Some home => config.join (of_bytes home) ".local/share/localsecrets"
  | None => "./localsecrets-data"
  end.

Definition needs_value (name : string) : string := name +:+ " needs a value".

(** The loop of [parse_arguments]; [None] when help is asked for. *)
Fixpoint parse_loop (options : Options) (args : list string) : result string (option Options) :=
  match args with
  | [] => Ok (Some options)
  | argument :: rest =>
    if bool_decide (argument = "-h") || bool_decide (argument = "--help") then Ok None
    else if bool_decide (argument = "--data-dir") then
      match rest with
      | value :: rest => parse_loop (mk_options value (listen options) (worker_count options)) rest
      | [] => Err (needs_value "--data-dir")
      end
    else if bool_decide (argument = "--listen") then
      match rest with
      | value :: rest => parse_loop (mk_options (data_dir options) value (worker_count options)) rest
      | [] => Err (needs_value "--listen")
      end
    else if bool_decide (argument = "--workers") then
      match rest with
      | value :: rest =>
        match parse_unsigned u64_max value with
        | Some workers =>
          if workers =? 0 then Err "--workers must be at least 1"
          else parse_loop (mk_options (data_dir options) (listen options) workers) rest
        | None => Err "--workers needs a number"
        end
      | [] => Err (needs_value "--workers")
      end
    else Err ("unknown option " +:+ argument)
  end.

Definition parse_arguments (home : option (list byte)) (args : list string) : result string (option Options) :=
  parse_loop (mk_options (default_data_dir home) "127.0.0.1:8787" 4) args.

(** ** Running *)

Section Startup.
Context {EnvI : Env} {CipherI : Cipher} {ShaI : Sha256} {ArgonI : Argon2} {TextI : OsText} {DaemonI : Daemon}.

Definition on_system {E A} (m : proc World E A) : proc Process E A :=
  zoom system (λ w s, mk_process w (process_stdout s)) m.

(** A line of the log. *)
Definition log {E} (level : Level) (message : string) (fields : list (string * string)) : proc Process E unit :=
  on_system (emit (mk_call level message fields)).

Definition refused {A} (reason : option string) (message : string → string) (a : A) : result string A :=
  match reason with Some reason => Err (message reason) | None => Ok a end.

Definition store_path (options : Options) : string := config.join (data_dir options) "store.log".

(** [run], up to the threads that then serve, on a system that starts them; keeping the
    directory to its owner, whose failure is dropped, leaves nothing else to see. *)
Definition run (options : Options) : proc Process string Pool :=
  do! lift (refused (create_dir_all (data_dir options))
    (λ e, "could not create " +:+ path_text (data_dir options) +:+ ": " +:+ e) tt) in
  let! vault := map_perr (λ e, "could not open the store: " +:+ vault_error_to_string e) (on_system (Vault.open (store_path options))) in
  let initialized := Vault.is_initialized vault in
  do! lift (refused (bind_address (listen options)) (λ e, "could not bind " +:+ listen options +:+ ": " +:+ e) tt) in
  let! address := lift (map_err (λ e, "could not read the bound address: " +:+ e) (local_addr (listen options))) in
  do! log Info "listening" [("address", address); ("store", path_text (store_path options)); ("initialized", bool_text initialized)] in
  do! (if negb initialized then log Warn "the vault has not been initialised; run `lsec init`" []
       else log Info "the vault is sealed; run `lsec unseal`" []) in
  gets (λ s, spawn (Z.to_nat (worker_count options)) (system s, Api.new vault)).

(** What becomes of the process. *)
Inductive outcome := Exits (code : Z) | Serves (p : Pool).

Definition print (text : list byte) (s : Process) : Process := mk_process (system s) (process_stdout s ++ text).
Definition complain (text : list byte) (s : Process) : Process := mk_process (World.complain text (system s)) (process_stdout s).

(** A process starts with the level that its environment sets, and nothing written. *)
Definition start_process (log_variable : option (list byte)) (w : World) : Process :=
  mk_process (mk_world (draws w) (ticks w) (World.calls w) (disk w) (init_from_env (log_variable ≫= from_utf8) initial) []) [].

(** [main]: a failure is told on standard error, with the usage when it is the command
    line's. *)
Definition main (home log_variable : option (list byte)) (args : list string) (w : World) : outcome * Process :=
  let s := start_process log_variable w in
  match parse_arguments home args with
  | Ok None => (Exits 0, print (usage_text ++ [x0a]) s)
  | Err message => (Exits 1, complain (as_bytes ("localsecretsd: " +:+ message) ++ [x0a; x0a] ++ usage_text ++ [x0a]) s)
  | Ok (Some options) =>
    match run options s with
    | (Ok p, s) => (Serves p, s)
    | (Err message, s) =>
      (Exits 1, complain (as_bytes ("localsecretsd: " +:+ message) ++ [x0a])
                  (log (E := string) Logging.Error "could not start" [("reason", message)] s).2)
    end
  end.
End Startup.
End Startup.

Module StartupClaims.
Import VaultSpec ApiSpec ApiClaims Sections PoolClaims Startup.

(** ** The file of the store *)

Lemma split_last_absent sep l : sep ∉ l → Log.split_last sep l = None.
Proof.
  induction l as [|b l IH]; [done|]. intros [Hb Hl]%not_elem_of_cons. cbn. rewrite IH by done. by rewrite decide_False.
Qed.

Lemma split_last_at sep before name : sep ∉ name → Log.split_last sep (before ++ sep :: name) = Some (before ++ [sep], name).
Proof.
  intros Hn. induction before as [|b before IH]; cbn; [|by rewrite IH]. rewrite split_last_absent by done. by rewrite decide_True.
Qed.

(** Compaction writes beside the store, not over it. *)
Lemma store_path_apart options : Log.with_extension (store_path options) "compacting" ≠ store_path options.
Proof.
  assert (∃ d, as_bytes (store_path options) = d ++ as_bytes "store.log" ∧ (d = [] ∨ ∃ d', d = d' ++ ["/"%byte])) as (d & E & Hd).
  { unfold store_path, config.join. destruct (bool_decide_reflect (data_dir options = "")) as [->|Hne]; cbn [orb].
    - by exists []; auto.
    - destruct (ends_with_byte "/" (data_dir options)) eqn:Ee; rewrite as_bytes_app.
      + exists (as_bytes (data_dir options)). split; [done|]. right. unfold ends_with_byte in Ee.
        destruct (as_bytes (data_dir options)) as [|b l _] using rev_ind; [done|]. rewrite last_snoc in Ee. exists l.
        apply bool_decide_eq_true in Ee. congruence.
      + exists (as_bytes (data_dir options) ++ ["/"%byte]). split; [by rewrite as_bytes_app, app_assoc|]. right. by eexists. }
  assert (as_bytes (Log.with_extension (store_path options) "compacting") = d ++ as_bytes "store.compacting") as E'.
  { unfold Log.with_extension. rewrite E. destruct Hd as [->|[d' ->]].
    - by vm_compute.
    - rewrite <- app_assoc. cbn [app]. rewrite split_last_at by (apply (bool_decide_unpack _); by vm_compute). cbn beta iota delta [default id].
      by rewrite as_bytes_of_bytes, <- !app_assoc. }
  intros H. rewrite H, E in E'. apply app_inv_head in E'. vm_compute in E'. discriminate E'.
Qed.

(** ** What comes of it *)

Lemma parse_loop_workers options args o :
  0 < worker_count options → parse_loop options args = Ok (Some o) → 0 < worker_count o.
Proof.
  assert (∀ n args options, (length args < n)%nat → 0 < worker_count options → parse_loop options args = Ok (Some o) → 0 < worker_count o) as H.
  { clear. induction n as [|n IH]; intros args options Hn Hw; [lia|]. destruct args as [|argument rest]; cbn [parse_loop length] in *; [by intros [= <-]|].
    destruct (_ || _); [done|].
    destruct (bool_decide _); [|destruct (bool_decide _); [|destruct (bool_decide _); [|done]]]; (destruct rest as [|value rest]; [done|]); cbn [length] in Hn.
    - apply IH; [lia|done].
    - apply IH; [lia|done].
    - destruct (parse_unsigned u64_max value) as [k|] eqn:E; [|done]. destruct (Z.eqb_spec k 0); [done|].
      apply IH; [lia|]. cbn. apply parse_unsigned_range in E. lia. }
  intros Hw. by apply (H (S (length args))); [lia|].
Qed.

Section Sound.
Context {EnvI : Env} {CipherI : Cipher} {LawsI : CipherLaws} {ShaI : Sha256} {ArgonI : Argon2} {ArgonLawsI : password.Argon2Laws}.
Context {TextI : OsText} {DaemonI : Daemon} {WatchI : Stopwatch}.

Lemma log_disk {E} level message fields s : ∃ s', log (E := E) level message fields s = (Ok tt, s') ∧ disk (system s') = disk (system s).
Proof.
  unfold log, on_system, zoom. destruct (Logger.emit_line (E := E) (Logger.mk_call level message fields) (system s)) as (w' & -> & Hd & _).
  by eexists.
Qed.

Lemma wp_log {E} level message fields (P : unit → Process → Prop) (Q : E → Process → Prop) s :
  (∀ s', disk (system s') = disk (system s) → P tt s') → wp (log level message fields) P Q s.
Proof. intros H. unfold wp. destruct (log_disk (E := E) level message fields s) as (s' & -> & Hd). by apply H. Qed.

Lemma sealed_open path w v w' : Vault.open path w = (Ok v, w') → Vault.is_sealed v = true.
Proof.
  unfold Vault.open. intros (log & w0 & _ & (u & w1 & _ & (plain & w2 & _ & H)%bind_ok)%bind_ok)%bind_ok. destruct (_ && _); [done|].
  apply bind_ok in H as (b & w3 & _ & H). by injection H as <- _.
Qed.

(** The pool that a start comes to, or a store that can be opened again. *)
Lemma wp_start options s :
  LogSpec.openable (store_path options) (disk (system s)) →
  wp (run options)
    (λ p _, ∃ w v, p = spawn (Z.to_nat (worker_count options)) (w, Api.new v) ∧ Vault.is_sealed v = true
                   ∧ api_ok (store_path options) (w, Api.new v))
    (λ _ s', LogSpec.openable (store_path options) (disk (system s'))) s.
Proof.
  intros Hop. unfold run. apply wp_bind, wp_lift; [intros _ _|done]. apply wp_bind, wp_map_perr, wp_zoom.
  unfold wp. destruct (Vault.open (store_path options) (system s)) as [[v|e] w] eqn:E; pose proof (wp_boot _ _ Hop) as Hb; unfold wp in Hb; rewrite E in Hb.
  2: { exact Hb. }
  apply sealed_open in E as Hs.
  match goal with |- context [mk_process w ?a] => generalize a end. intros out.
  assert (∀ w', disk w' = disk w → vault_ok (store_path options) (w', v)) as Hok by (intros w' Hd; by eapply vault_ok_tick).
  assert (∀ w', disk w' = disk w → LogSpec.openable (store_path options) (disk w')) as Hop'
    by (intros w' Hd; eapply Server.vault_ok_openable, (Hok w' Hd)).
  match goal with |- match ?m ?s0 with _ => _ end => change (wp m (λ p _, ∃ w v, p = spawn (Z.to_nat (worker_count options)) (w, Api.new v)
    ∧ Vault.is_sealed v = true ∧ api_ok (store_path options) (w, Api.new v)) (λ _ s', LogSpec.openable (store_path options) (disk (system s'))) s0) end.
  apply wp_bind, wp_lift; [intros _ _|intros e _; by apply Hop']. apply wp_bind, wp_lift; [intros address _|intros e _; by apply Hop'].
  apply wp_bind, wp_log. intros s1 H1. apply wp_bind.
  assert (∀ s2, disk (system s2) = disk w → wp (gets (λ s, spawn (Z.to_nat (worker_count options)) (system s, Api.new v)))
    (λ p _, ∃ w v, p = spawn (Z.to_nat (worker_count options)) (w, Api.new v) ∧ Vault.is_sealed v = true ∧ api_ok (store_path options) (w, Api.new v))
    (λ (_ : string) s', LogSpec.openable (store_path options) (disk (system s'))) s2) as Hend.
  { intros s2 H2. apply wp_gets. exists (system s2), v. split; [done|]. split; [done|]. apply locked_ok. split; [done|]. by apply Hok. }
  destruct (negb _); apply wp_log; intros s2 H2; apply Hend; cbn in *; congruence.
Qed.

(** C7: the process as a whole. Whatever the command line, the environment and the
    system's answers: a store that can be opened stays one. Either the process ends, with
    code 0 only when it was asked for help; or it serves, with the workers it was asked
    for, a vault that is sealed, and from then on, however its threads interleave, what is
    arriving is put in order, served and answered over a sound vault. *)
Theorem process_sound home log_variable args w :
  (∀ options, parse_arguments home args = Ok (Some options) → LogSpec.openable (store_path options) (disk w)) →
  let '(out, s) := main home log_variable args w in
  match out with
  | Exits code =>
    (∀ options, parse_arguments home args = Ok (Some options) → LogSpec.openable (store_path options) (disk (system s)))
    ∧ (code = 0 ∧ parse_arguments home args = Ok None ∨ code = 1 ∧ console (system s) ≠ [])
  | Serves p =>
    ∃ options, parse_arguments home args = Ok (Some options)
    ∧ Z.of_nat (length (workers p)) = worker_count options ∧ 0 < worker_count options
    ∧ Vault.is_sealed (Api.vault (shared p).2) = true
    ∧ ∀ es p', Pool.run Limits_default p es p' →
      api_ok (store_path options) (shared p') ∧ (length (queue p') ≤ QUEUE_DEPTH)%nat
      ∧ accepted p' = taken p' ++ queue p' ∧ taken p' ≡ₚ (finished p').*1 ++ serving (workers p')
      ∧ Forall (answered Limits_default) (finished p')
  end.
Proof.
  intros Hop. unfold main. assert (∀ l r : list byte, r ≠ [] → l ++ r ≠ []) as Hne by (by intros [] []).
  destruct (parse_arguments home args) as [[options|]|message] eqn:Ea.
  2: { split; [done|]. by left. }
  2: { split; [done|]. right. split; [done|]. cbn [system console complain World.complain]. apply Hne. by destruct message. }
  set (s := start_process log_variable w). pose proof (wp_start options s (Hop _ eq_refl)) as Hr. unfold wp in Hr.
  destruct (run options s) as [[p|message] s1].
  - destruct Hr as (w1 & v & -> & Hs & Hok). exists options. split; [done|].
    assert (0 < worker_count options) as Hw by (by eapply parse_loop_workers; [|exact Ea]).
    split; [cbn; rewrite length_replicate; lia|]. split; [done|]. split; [done|]. intros es p' Hrun.
    pose proof (run_shape _ _ _ _ _ Hrun (spawn_shape _ _)) as [Hq _ _ Ho Hp _].
    destruct (run_sound _ _ (store_path_apart options) _ _ _ Hrun) as [Hok' _ Hf]; [|done].
    split; [done| |constructor]. by apply Forall_replicate.
  - destruct (log_disk (E := string) Logging.Error "could not start" [("reason", message)] s1) as (s2 & -> & Hd).
    split; [|right; split; [done|]].
    + intros o [= <-]. cbn. by rewrite Hd.
    + cbn [system console complain World.complain]. apply Hne. by destruct message.
Qed.
End Sound.
End StartupClaims.

(** ** Trying it out *)

Module StartupDemo.
Export PoolDemo.
Import Startup StartupClaims.

#[export] Instance daemon0 : Daemon := {|
  create_dir_all _ := None;
  bind_address address := if bool_decide (address = "[::]:80") then Some "Permission denied" else None;
  local_addr address := Ok address;
|}.

Definition arguments0 : list string := ["--workers"; "2"; "--data-dir"; "/srv/secrets"].

Lemma openable0' path : LogSpec.openable path (disk world0).
Proof. split; [apply openable0|by left]. Qed.

Lemma process_sound_witness :
  match (main None None arguments0 world0).1 with
  | Serves p => Vault.is_sealed (Api.vault (shared p).2) = true ∧ length (workers p) = 2%nat
  | Exits _ => False
  end.
Proof.
  pose proof (process_sound None None arguments0 world0 (λ options _, openable0' (store_path options))) as H.
  destruct (main None None arguments0 world0) as [[code|p] s] eqn:E; [vm_compute in E; discriminate E|].
  destruct H as (options & Ea & Hw & _ & Hs & _). cbn [fst]. split; [exact Hs|].
  assert (worker_count options = 2) as E2 by (vm_compute in Ea; by injection Ea as <-). rewrite E2 in Hw. lia.
Defined.

Example port_80 : (main None None ["--listen"; "[::]:80"] world0).1 = Exits 1.
Proof. by vm_compute. Qed.
End StartupDemo.
